(* ===== verification/_CoqProject ===== *)
-Q . S2P
Prelude.v
Printf.v
Double.v
Timestamp.v
Buffer.v
ByteQueue.v
LogStream.v
Logger.v
StdSet.v
TimerQueue.v
Channel.v
EPollPoller.v
EventLoop.v
Registration.v
TimerLoop.v
Wakeup.v
TcpConnection.v
ConnInvariant.v
ConnSafety.v
ConnFrame.v
ConnLocality.v
ConnSimulation.v
ConnFlush.v
SharedLoop.v
Following.v
NonInterference.v
Sockets.v
Acceptor.v
EventLoopThread.v
TcpServer.v
ServerShutdown.v
ServerLoop.v
ServerRecovery.v
ConnRefinement.v
TcpClient.v
ClientRefinement.v
Examples.v
