(* ===== verification/Prelude.v ===== *)
(** * A verification library for RuiZN_muduo_Server

    The program is a TCP server library in C++ after the muduo design: one [EventLoop]
    per thread multiplexes channels (descriptors with callbacks) over epoll, runs functors
    that other threads queue, and runs timers; on top of it an [Acceptor], [TcpConnection]s
    with two [Buffer]s each, a [TcpServer] that spreads connections over a pool of loops, and
    a [TcpClient]; below it a logger.  This library translates the program's code into
    executable definitions and proves what makes each part correct.

    ** How code becomes definitions

    A member function on an object of type [S] is a [prog S A] (below in this file): a function from
    the object's state to a result and a new state, or to a [fault].  A failed [assert] (the build never
    defines NDEBUG), undefined behaviour, [LOG_FATAL]'s abort and the exceptions of the standard library are
    different faults, so a theorem [wp m Q s] excludes them all, and [wpf E m Q s] says which
    ones are left.  Machine integers are [Z] with the width at each operation: unsigned ones wrap,
    signed ones out of range are undefined.  Logging statements inside the other components are left
    out.  The kernel and the C library are not part of the program: their answers are
    arguments, or interfaces ([Class]es) whose laws are their documented behaviour, each
    with an instance that shows the laws can hold.  What a part does with what another owns is an interface too:
    [ByteQueue] (a connection's buffers), [HasLoop] (a world with a loop), [Descriptors] (the process and its
    listening socket, used by the acceptor and by whoever closes a connection).  What threads interleave is a step relation
    (Wakeup, EventLoopThread) or a sequence of events that a theorem quantifies over (ConnSafety,
    TcpServer, TcpClient, TimerQueue).

    ** Files

    - Prelude: faults, the monad [prog], [wpf] and its rules, machine integers, lists indexed by [Z].
    - Printf: the decimal texts of [snprintf], and reading them back.
    - Double, Timestamp (base/time/Timestamp.h, .cc): binary64 arithmetic; points in time and their text.
    - LogStream, Logger (base/log/LogStream.h, .cc, Logger.h, .cc, Logging.h): a line's text in a fixed array,
      and a log statement.
    - Buffer (net/buffer/Buffer.h, .cc): the byte buffer, every member function.
    - ByteQueue: what a connection relies on of its buffers, an interface that Buffer implements.
    - StdSet, TimerQueue (net/timer/Timer.h, .cc, TimerId.h, TimerQueue.h, .cc): ordered sets; timers and the timerfd.
    - Channel (net/channel/Channel.h, .cc): requested and reported events, dispatch to the callbacks.
    - EPollPoller (net/poller/Poller.h, .cc, epollpoller/EPollPoller.h, .cc): which channels the kernel watches.
    - EventLoop (net/eventloop/EventLoop.h, .cc): the loop, its functors, the channel operations that pass through it.
    - Registration (Channel.cc, EPollPoller.cc, EventLoop.cc): sequences of these operations.
    - TimerLoop (EventLoop.cc, TimerQueue.cc): a loop with its timer queue, from construction to destruction.
    - Wakeup (EventLoop.cc again): the loop's thread and those that call [queueInLoop] and [quit], interleaved.
    - TcpConnection, ConnInvariant, ConnSafety, ConnFrame, ConnFlush (net/Tcp/TcpConnection.h, .cc): a connection in
      its loop with its owner's callback; its phases and invariant; what it guarantees; what its steps leave alone,
      whatever state they start from; the progress of its output.
    - ConnLocality: what a connection's code reads and changes of a loop is the connection's own.
    - SharedLoop, Following, NonInterference (EventLoop.cc, TcpConnection.cc): a loop with any number of connections;
      each of them is followed in a loop of its own; they do not interfere.
    - ConnSimulation: how far each step takes a connection, for each kind of owner, and the rule by which events of an
      owner's model follow it.
    - Sockets (net/socket/Socket.h, .cc, net/inetaddress/InetAddress.h, .cc): addresses and descriptors.
    - Acceptor (net/acceptor/Acceptor.h, .cc): accepting, and refusing when the process has no descriptor left.
    - EventLoopThread (net/eventloop/EventLoopThread.h, .cc, EventLoopThreadPool.h, .cc): starting and ending a
      loop's thread; the pool's turn.
    - TcpServer, ServerShutdown (net/Tcp/TcpServer.h, .cc): the map of connections and the tasks between loops; the
      destructor and what the loops run after it.
    - ServerLoop, ServerRecovery (TcpServer.cc, Acceptor.cc, ~TcpConnection, ~Socket): the acceptor with the server's
      callback over the descriptors of the process, from [start] to the destructor; giving them all back.
    - ConnRefinement: the connection of TcpConnection.v and the record TcpServer.v keeps of it, in the server's loop or
      in another.
    - TcpClient, ClientRefinement (net/Tcp/TcpClient.h, .cc): attempts, retries and the client's connection; the
      connection of TcpConnection.v and what TcpClient.v keeps of it.
    - Examples (examples/ser.cc, cli.cc): the two programs, on the models of the classes they use.

    Definitions have the names of the C++ members they translate (a suffix tells overloads apart; [_init] and
    [_ctor] are constructors, [_dtor] is a destructor).

    ** What is shown

    - A connection ([ConnSafety]): sent and received bytes keep their order and none is lost or invented, and
      buffered output reaches the kernel when the socket stays writable, in every run that returns.  In its setting
      ([setting], below under Bounds), however the loop, another thread and the server's removal interleave, no
      assertion fails and no destroyed object is used; a channel asks for what its state needs; callbacks come in the
      documented order; and a closed connection is reclaimed.  Theorems and examples beside them show, for each
      condition of the setting on callbacks and reports, what goes wrong without it.
    - Connections that share a loop ([NonInterference]), each in its setting: whichever descriptors the kernel reports
      together, each once, and in whatever order, and though a descriptor is used again, each connection is where its
      run alone in a loop would be; so the theorems above hold for each, what a descriptor is watched for
      goes to one connection that exists, and a loop whose connections are all down gives everything back.
    - The server and the client: the map of connections is right in every interleaving of accepting, closing
      and the loops' functors; a server destroyed while no connection is closing takes all of them down and joins its
      pool's loops; every run of a connection in its setting is one its server's or its client's record of it can
      make; a client's descriptors are handed over or closed.  The echo server sends back what it received, in order.
    - The process around a server ([ServerLoop]): no descriptor is lost or used by two channels of a
      poller, whatever peers connect and however connections end and are let go of; a connection is deleted only
      when it is destroyed and nothing leads to it; a stopped server has given back what it took, and from
      every state the functors run out and all connections can be given back.
    - The acceptor drains the queue of waiting connections and of failed ones, as long as logging keeps errno; the pool
      takes turns; a loop's thread is started through the mutex and the condition variable, and its owner waits until
      the loop is there.
    - The loop: the kernel watches what the channels ask for, and a channel's members say how it is registered;
      no wakeup is lost and functors run in order; a quit ends the loop after the queued functors, and when it does not.
    - Timers: the three sets stay consistent; a round of expirations does what it should to every timer; inside
      its loop, with calls of any thread whose [addTimer] returns in time, a due timer runs when the timerfd
      rings, the timerfd is never later than the earliest timer, and destruction leaves nothing registered.
    - Buffer: it implements a queue of bytes; appending succeeds exactly when there is room; readFd keeps all
      bytes; lines come back one by one.
    - Logging and time: integers are printed as [snprintf] would; texts stay inside the fixed array; a statement
      gives one line; adding seconds is exact; a date's text reads back.

    Theorems and examples that end in a fault (a failed assertion, a dangling pointer, a quit that is lost) are
    about the same definitions as the others and say where the code misbehaves.

    ** Bounds

    - [EventLoop::loop] and a connection's [run] take the list of what each poll returns; [OutOfFuel] at its end
      means that the loop is still running.  Lists are shorter than 2^32, so that the iteration
      counter, an [int64_t], does not overflow.
    - The digit loops have fuel for 64 digits; every number of 64 bits has fewer ([emit_loop_spec]).
      [print_dec] has fuel for 20 digits, and an [int64_t] has at most 19.
    - [startReadInLoop] calls itself through [runInLoop]; its fuel stands for a recursion that does not end in the
      loop's thread.
    - A connection's input is not bounded, unless its callbacks only behave below a bound ([set_callbacks] of
      [setting]: a callback that sends what it received back must get less than 2^31 bytes, since [send] takes an
      [int]); then the reads of the run deliver less than the bound.
    - [setting]: the other thread is not the loop's, a message callback is set, a send is of less than 2 GiB, a
      callback stops or starts reading only while the connection is up ([startRead_when_closed]), another thread that
      sends keeps its pointer ([send_outlives_connection]), urgent data comes with a hang-up only if input does
      ([hangup_with_urgent_data]), and a run has fewer than 2^32 steps.
    - A connection whose callbacks may stop to read is not hung up on: [handleClose] gives the kernel such a channel
      again, and a hang-up then closes it a second time ([hangup_after_stopRead]).
    - The server's theorems are for fewer than 2^63 - 1 events, so that [nextConnId_] does not overflow.
    - ServerRecovery's [drain] has as fuel the work in the queues ([work]), which every functor run makes less.

    ** Not modelled

    Setters that store a value nothing reads; calls that only forward to the kernel ([read], [readv], [write]);
    the text that [snprintf] gives a double; build files and generated code.  Callbacks and functors of users are
    scripts of the calls they make.  In TimerLoop other threads' calls happen between two iterations or while the
    loop polls, and an [addTimer] is two steps, up to handing the timer over and reading it again; finer
    interleavings of calls with the loop are those of Wakeup.  The errors for which [accept] ends the process are not
    among the kernel's answers.
    In SharedLoop a connection is made while no handler of the loop runs (for a server in another thread, a functor
    of the loop then establishes it), each at an address of its own, and a callback acts on the connection it is
    called for.  The server that has the connections is TcpServer.v's; SharedLoop has what a server or a client does to
    one of them.
    Data races are modelled where the code has them as steps of an interleaving, never as torn reads or weak memory.

    ** Plan

    In order: the base loop's own iterations as the source of ServerLoop's steps, with its timers; the general form of the
    examples that show a fault at one input. *)
From Stdlib Require Export ZArith Lia.
From Stdlib Require Export Strings.Byte.
From Stdlib Require Strings.String.
From stdpp Require Export base tactics list gmap numbers.

#[export] Set Default Goal Selector "!".
Open Scope Z_scope.
Export Strings.String.StringSyntax.

(** A string literal as the bytes it stands for. *)
Definition txt (s : Strings.String.string) : list byte := Strings.String.list_byte_of_string s.
Delimit Scope string_scope with string.
Arguments txt s%_string.

(** ** Faults and the state-and-fault monad

    C++ code ends a call in one of a few ways that are not a return.  [outcome]
    keeps them apart; [prog S A] is code that reads and writes an object of
    type [S], returns an [A] and may fault. *)

Inductive fault : Type :=
| AssertFailed        (** a failed [assert] (the build never defines NDEBUG) *)
| UndefinedBehaviour  (** out-of-range access, dangling pointer, signed overflow *)
| BadFunctionCall     (** an empty [std::function] was called *)
| LengthError         (** [std::length_error] of a vector that cannot grow *)
| BadAlloc            (** [std::bad_alloc] of [new] *)
| SystemError         (** [std::system_error] of a thread operation *)
| ProcessAborted      (** [abort()], reached by LOG_FATAL and LOG_SYSFATAL *)
| OutOfFuel.          (** the bound of a modelled loop, not an end of the program *)

#[export] Instance fault_eq_dec : EqDecision fault.
Proof. solve_decision. Defined.

#[export] Instance byte_eq_dec : EqDecision byte := Byte.byte_eq_dec.

Inductive outcome (A : Type) : Type :=
| Ok (a : A)
| Fault (f : fault).
Arguments Ok {A} a.
Arguments Fault {A} f.

#[export] Instance outcome_ret : MRet outcome := @Ok.
#[export] Instance outcome_bind : MBind outcome := λ A B k o,
  match o with Ok a => k a | Fault f => Fault f end.

Definition prog (S A : Type) : Type := S → outcome (A * S).

#[export] Instance prog_ret {S} : MRet (prog S) := λ A a s, Ok (a, s).
#[export] Instance prog_bind {S} : MBind (prog S) := λ A B k m s,
  match m s with Ok (a, s') => k a s' | Fault f => Fault f end.

#[export] Instance prog_fmap {S} : FMap (prog S) := λ A B f m, m ≫= λ a, mret (f a).

Definition get {S} : prog S S := λ s, Ok (s, s).
Definition gets {S A} (f : S → A) : prog S A := λ s, Ok (f s, s).
Definition put {S} (s : S) : prog S () := λ _, Ok (tt, s).
Definition modify {S} (f : S → S) : prog S () := λ s, Ok (tt, f s).
Definition raise {S A} (f : fault) : prog S A := λ _, Fault f.
Definition lift {S A} (o : outcome A) : prog S A := λ s,
  match o with Ok a => Ok (a, s) | Fault f => Fault f end.
Definition cassert {S} (b : bool) : prog S () :=
  if b then mret tt else raise AssertFailed.
Definition when_ {S} (b : bool) (m : prog S ()) : prog S () :=
  if b then m else mret tt.

(** A range-based [for] whose body may fault. *)
Fixpoint for_each {S A} (f : A → prog S ()) (l : list A) : prog S () :=
  match l with
  | [] => mret tt
  | x :: l' => f x ;; for_each f l'
  end.

Declare Scope cpp_scope.
Delimit Scope cpp_scope with cpp.
Notation "'assert!' b" := (cassert b) (at level 10, b at level 9) : cpp_scope.
Open Scope cpp_scope.

(** ** Total-correctness assertions

    [wpf E m Q s]: run from [s], [m] returns with a result and a final state that
    satisfy [Q], or ends in one of the faults [E].  [wp m Q s] allows no fault. *)

Definition wpf {S A} (E : fault → Prop) (m : prog S A) (Q : A → S → Prop) (s : S) : Prop :=
  match m s with Ok (a, s') => Q a s' | Fault f => E f end.

Abbreviation wp := (wpf (λ _, False)).

(** [faults m f s]: run from [s], [m] ends with the fault [f]. *)
Definition faults {S A} (m : prog S A) (f : fault) (s : S) : Prop := m s = Fault f.

(** ** Machine integers

    A C++ integer is a [Z] with its width written at each operation: unsigned
    arithmetic wraps ([u64]), signed arithmetic out of range is undefined
    ([checked]), and a conversion to a narrower signed type keeps the low bits
    ([to_signed]). *)

Definition u64_modulus : Z := 2 ^ 64.
Definition u64 (z : Z) : Z := z mod u64_modulus.
Definition is_u64 (z : Z) : Prop := 0 ≤ z < u64_modulus.

(** The low byte of an integer, what storing it into a [char] keeps. *)
Definition byte_of_Z (z : Z) : byte := default x00 (Byte.of_N (Z.to_N (z mod 256))).
Definition Z_of_byte (b : byte) : Z := Z.of_N (Byte.to_N b).

Definition in_signed (w z : Z) : bool := (- 2 ^ (w - 1) <=? z) && (z <? 2 ^ (w - 1)).
Definition to_signed (w z : Z) : Z := (z + 2 ^ (w - 1)) mod 2 ^ w - 2 ^ (w - 1).

(** The result of a signed operation of width [w]. *)
Definition checked (w z : Z) : outcome Z :=
  if in_signed w z then Ok z else Fault UndefinedBehaviour.

Lemma byte_of_Z_of_byte b : byte_of_Z (Z_of_byte b) = b.
Proof. by destruct b. Qed.

Lemma Z_of_byte_of_Z z : 0 ≤ z < 256 → Z_of_byte (byte_of_Z z) = z.
Proof.
  intros Hz. unfold Z_of_byte, byte_of_Z. rewrite Z.mod_small by done.
  destruct (Byte.of_N (Z.to_N z)) as [b|] eqn:E; simpl.
  - apply Byte.to_of_N in E. rewrite E. lia.
  - apply Byte.of_N_None_iff in E. lia.
Qed.

Lemma u64_small z : is_u64 z → u64 z = z.
Proof. intros [??]. by apply Z.mod_small. Qed.

Lemma u64_range z : is_u64 (u64 z).
Proof. apply Z.mod_pos_bound. done. Qed.

Lemma u64_idemp z : u64 (u64 z) = u64 z.
Proof. apply u64_small, u64_range. Qed.

Lemma in_signed_64 z : in_signed 64 z = true ↔ - 2 ^ 63 ≤ z < 2 ^ 63.
Proof.
  unfold in_signed. change (64 - 1) with 63.
  rewrite andb_true_iff, Z.leb_le, Z.ltb_lt. done.
Qed.

Lemma checked_64_ok z : - 2 ^ 63 ≤ z < 2 ^ 63 → checked 64 z = Ok z.
Proof. intros H. unfold checked. by rewrite (proj2 (in_signed_64 z) H). Qed.

Lemma to_signed_id w z : 0 < w → in_signed w z = true → to_signed w z = z.
Proof.
  unfold in_signed, to_signed. rewrite andb_true_iff, Z.leb_le, Z.ltb_lt. intros Hw [H1 H2].
  assert (2 ^ w = 2 * 2 ^ (w - 1)) as E.
  { rewrite <- Z.pow_succ_r by lia. f_equal. lia. }
  rewrite Z.mod_small; lia.
Qed.

(** ** Rules for [wp]

    The ones that are equations are in the rewrite base [wp]; [wp_go] applies
    them as far as they go. *)

Section wp_rules.
Context {S : Type} {E : fault → Prop}.
Implicit Types (s : S).

Lemma wp_ok {A} (m : prog S A) Q s : wp m Q s ↔ ∃ a s', m s = Ok (a, s') ∧ Q a s'.
Proof.
  unfold wpf. destruct (m s) as [[a s']|f]; [|split; [done|by intros (?&?&?&?)]].
  split; [by eauto|]. intros (?&?&?&?). by simplify_eq.
Qed.

Lemma wp_inv {A} {m : prog S A} {Q s} : wp m Q s → ∃ a s', m s = Ok (a, s') ∧ Q a s'.
Proof. apply wp_ok. Qed.

Lemma wp_ret {A} a (Q : A → S → Prop) s : wpf E (mret a) Q s = Q a s.
Proof. done. Qed.
Lemma wp_bind {A B} (m : prog S A) (k : A → prog S B) Q s :
  wpf E (m ≫= k) Q s = wpf E m (λ a, wpf E (k a) Q) s.
Proof. unfold wp, mbind, prog_bind. by destruct (m s) as [[]|]. Qed.
Lemma wp_seq {A B C} (m : prog S A) (k : A → prog S B) (j : B → prog S C) Q s :
  wpf E (m ≫= k) (λ b, wpf E (j b) Q) s → wpf E (m ≫= λ a, k a ≫= j) Q s.
Proof. unfold wpf, mbind, prog_bind. destruct (m s) as [[a s']|]; [|done]. by destruct (k a s') as [[]|]. Qed.
Lemma wp_fmap {A B} (f : A → B) (m : prog S A) Q s :
  wpf E (f <$> m) Q s = wpf E m (λ a, Q (f a)) s.
Proof. unfold wp, fmap, prog_fmap, mbind, prog_bind. by destruct (m s) as [[]|]. Qed.
Lemma wp_get Q s : wpf E (@get S) Q s = Q s s.
Proof. done. Qed.
Lemma wp_gets {A} (f : S → A) Q s : wpf E (gets f) Q s = Q (f s) s.
Proof. done. Qed.
Lemma wp_put s' Q s : wpf E (@put S s') Q s = Q tt s'.
Proof. done. Qed.
Lemma wp_modify f Q s : wpf E (@modify S f) Q s = Q tt (f s).
Proof. done. Qed.
Lemma wp_when b (m : prog S ()) Q s :
  wpf E (when_ b m) Q s = if b then wpf E m Q s else Q tt s.
Proof. by destruct b. Qed.
Lemma wp_lift_ok {A} (a : A) Q s : wpf E (@lift S A (Ok a)) Q s = Q a s.
Proof. done. Qed.

Lemma wp_assert b Q s : b = true → Q tt s → wpf E (@cassert S b) Q s.
Proof. by intros ->. Qed.
Lemma wp_lift {A} o a (Q : A → S → Prop) s : o = Ok a → Q a s → wpf E (lift o) Q s.
Proof. by intros ->. Qed.
Lemma wp_mono {A} (m : prog S A) (Q Q' : A → S → Prop) s :
  wpf E m Q s → (∀ a s', Q a s' → Q' a s') → wpf E m Q' s.
Proof. unfold wp. destruct (m s) as [[]|]; eauto. Qed.
Lemma wp_weaken {A} (m : prog S A) (Q : A → S → Prop) s : wp m Q s → wpf E m Q s.
Proof. unfold wpf. by destruct (m s) as [[]|]. Qed.
Lemma wp_raise {A} f (Q : A → S → Prop) s : E f → wpf E (raise f) Q s.
Proof. done. Qed.
Lemma wp_faults {A} (m : prog S A) f s : wpf (λ f', f' = f) m (λ _ _, False) s → m s = Fault f.
Proof. unfold wpf. destruct (m s) as [[]|]; [done|by intros ->]. Qed.
Lemma wp_and {A} (m : prog S A) (Q Q' : A → S → Prop) s :
  wpf E m Q s → wpf E m Q' s → wpf E m (λ a s', Q a s' ∧ Q' a s') s.
Proof. unfold wp. by destruct (m s) as [[]|]. Qed.

(** What holds of every result, and what the results are. *)
Lemma wp_both {A} (m : prog S A) (Q Q' : A → S → Prop) s :
  wpf E m Q s → wpf (λ _, True) m Q' s → wpf E m (λ a s', Q a s' ∧ Q' a s') s.
Proof. unfold wp. by destruct (m s) as [[]|]. Qed.

(** The invariant of a range-based [for] speaks of the elements still to come. *)
Lemma wp_for_each {A} (f : A → prog S ()) (I : list A → S → Prop) l s :
  I l s →
  (∀ x l' s, I (x :: l') s → wpf E (f x) (λ _ s', I l' s') s) →
  wpf E (for_each f l) (λ _ s', I [] s') s.
Proof.
  intros HI Hf. induction l as [|x l IH] in s, HI |- *; cbn [for_each]; [done|].
  rewrite wp_bind. eapply wp_mono; [by apply Hf|]. cbv beta. eauto.
Qed.

(** The loop over two lists is the loop over one, then over the other. *)
Lemma for_each_app {A} (f : A → prog S ()) l1 l2 s :
  for_each f (l1 ++ l2) s =
  match for_each f l1 s with Ok (_, s') => for_each f l2 s' | Fault e => Fault e end.
Proof.
  induction l1 as [|x l1 IH] in s |- *; [done|]. cbn [app for_each].
  unfold mbind, prog_bind. destruct (f x s) as [[[] s']|e]; [apply IH|done].
Qed.
Lemma wp_for_each_app {A} (f : A → prog S ()) l1 l2 Q s :
  wpf E (for_each f l1) (λ _ s', wpf E (for_each f l2) Q s') s → wpf E (for_each f (l1 ++ l2)) Q s.
Proof. unfold wp. rewrite for_each_app. by destruct (for_each f l1 s) as [[]|]. Qed.

Lemma faults_bind_l {A B} (m : prog S A) (k : A → prog S B) f s :
  faults m f s → faults (m ≫= k) f s.
Proof. unfold faults, mbind, prog_bind. by intros ->. Qed.
Lemma faults_bind_r {A B} (m : prog S A) (k : A → prog S B) f a s s' :
  m s = Ok (a, s') → faults (k a) f s' → faults (m ≫= k) f s.
Proof. unfold faults, mbind, prog_bind. by intros ->. Qed.
Lemma bind_ok {A B} (m : prog S A) (k : A → prog S B) a s s' :
  m s = Ok (a, s') → (m ≫= k) s = k a s'.
Proof. unfold mbind, prog_bind. by intros ->. Qed.
End wp_rules.

Create Rewrite HintDb wp.
#[export] Hint Rewrite @wp_ret @wp_bind @wp_fmap @wp_get @wp_gets @wp_put @wp_modify
  @wp_when @wp_lift_ok : wp.

Ltac wp_go := repeat (progress (autorewrite with wp; cbv beta)).

(** Use the specification that [tac] proves for the first program of the goal. *)
Tactic Notation "wp_use" tactic3(tac) :=
  eapply wp_mono; [tac|]; cbv beta; intros; destruct_and?; wp_go.

(** Decide the integer comparisons a program branches on. *)
Ltac case_cmp :=
  match goal with
  | |- context [Z.ltb ?a ?b] => destruct (Z.ltb_spec a b)
  | |- context [Z.leb ?a ?b] => destruct (Z.leb_spec a b)
  | |- context [Z.eqb ?a ?b] => destruct (Z.eqb_spec a b)
  end.

(** Lists indexed by [Z], and memory accesses *)

Definition zlen {A} (l : list A) : Z := Z.of_nat (length l).
Definition ztake {A} (n : Z) (l : list A) : list A := take (Z.to_nat n) l.
Definition zdrop {A} (n : Z) (l : list A) : list A := drop (Z.to_nat n) l.
Definition zslice {A} (off n : Z) (l : list A) : list A := ztake n (zdrop off l).

(** Reading and writing [n] elements at offset [off] of an array; outside of the
    array the behaviour is undefined. *)
Definition mem_read {A} (l : list A) (off n : Z) : outcome (list A) :=
  if (0 <=? off) && (0 <=? n) && (off + n <=? zlen l) then Ok (zslice off n l)
  else Fault UndefinedBehaviour.
Definition mem_write {A} (l : list A) (off : Z) (d : list A) : outcome (list A) :=
  if (0 <=? off) && (off + zlen d <=? zlen l)
  then Ok (ztake off l ++ d ++ zdrop (off + zlen d) l)
  else Fault UndefinedBehaviour.

Section zlists.
Context {A : Type}.
Implicit Types l d : list A.

Lemma zlen_nonneg l : 0 ≤ zlen l.
Proof. unfold zlen. lia. Qed.
Lemma zlen_nil : zlen (@nil A) = 0.
Proof. done. Qed.
Lemma zlen_cons x l : zlen (x :: l) = 1 + zlen l.
Proof. unfold zlen. simpl. lia. Qed.
Lemma zlen_app l1 l2 : zlen (l1 ++ l2) = zlen l1 + zlen l2.
Proof. unfold zlen. rewrite length_app. lia. Qed.
Lemma zlen_rev l : zlen (rev l) = zlen l.
Proof. unfold zlen. by rewrite length_rev. Qed.
Lemma zlen_fmap {B} (f : A → B) l : zlen (f <$> l) = zlen l.
Proof. unfold zlen. by rewrite length_fmap. Qed.
Lemma zlen_0 l : zlen l = 0 → l = [].
Proof. destruct l; [done|]. rewrite zlen_cons. pose proof (zlen_nonneg l). lia. Qed.
Lemma zlen_ztake n l : 0 ≤ n ≤ zlen l → zlen (ztake n l) = n.
Proof. unfold zlen, ztake. rewrite length_take. lia. Qed.
Lemma zlen_zdrop n l : 0 ≤ n ≤ zlen l → zlen (zdrop n l) = zlen l - n.
Proof. unfold zlen, zdrop. rewrite length_drop. lia. Qed.
Lemma zlen_ztake_min n l : 0 ≤ n → zlen (ztake n l) = n `min` zlen l.
Proof. unfold zlen, ztake. rewrite length_take. lia. Qed.
Lemma zlen_zdrop_min n l : 0 ≤ n → zlen (zdrop n l) = zlen l - n `min` zlen l.
Proof. unfold zlen, zdrop. rewrite length_drop. lia. Qed.
Lemma zlen_replicate n (x : A) : 0 ≤ n → zlen (replicate (Z.to_nat n) x) = n.
Proof. unfold zlen. rewrite length_replicate. lia. Qed.

Lemma ztake_0 l : ztake 0 l = [].
Proof. done. Qed.
Lemma zdrop_0 l : zdrop 0 l = l.
Proof. done. Qed.
Lemma ztake_ge n l : zlen l ≤ n → ztake n l = l.
Proof. unfold zlen, ztake. intros. apply take_ge. lia. Qed.
Lemma zdrop_ge n l : zlen l ≤ n → zdrop n l = [].
Proof. unfold zlen, zdrop. intros. apply drop_ge. lia. Qed.
Lemma ztake_zdrop n l : ztake n l ++ zdrop n l = l.
Proof. apply take_drop. Qed.
Lemma ztake_app n l1 l2 : 0 ≤ n → ztake n (l1 ++ l2) = ztake n l1 ++ ztake (n - zlen l1) l2.
Proof. unfold zlen, ztake. intros. rewrite take_app. do 2 f_equal. lia. Qed.
Lemma zdrop_app n l1 l2 : 0 ≤ n → zdrop n (l1 ++ l2) = zdrop n l1 ++ zdrop (n - zlen l1) l2.
Proof. unfold zlen, zdrop. intros. rewrite drop_app. do 2 f_equal. lia. Qed.
Lemma ztake_neg n l : n ≤ 0 → ztake n l = [].
Proof. unfold ztake. intros. replace (Z.to_nat n) with 0%nat by lia. done. Qed.
Lemma zdrop_neg n l : n ≤ 0 → zdrop n l = l.
Proof. unfold zdrop. intros. replace (Z.to_nat n) with 0%nat by lia. done. Qed.
Lemma zdrop_zdrop m n l : 0 ≤ m → 0 ≤ n → zdrop m (zdrop n l) = zdrop (m + n) l.
Proof. unfold zdrop. intros. rewrite drop_drop. f_equal. lia. Qed.
Lemma ztake_ztake m n l : 0 ≤ m → 0 ≤ n → ztake m (ztake n l) = ztake (m `min` n) l.
Proof. unfold ztake. intros. rewrite take_take. f_equal. lia. Qed.
Lemma zdrop_ztake m n l : 0 ≤ m ≤ n → zdrop m (ztake n l) = ztake (n - m) (zdrop m l).
Proof.
  unfold zdrop, ztake. intros.
  replace (Z.to_nat (n - m)) with (Z.to_nat n - Z.to_nat m)%nat by lia.
  apply skipn_firstn_comm.
Qed.

Lemma zslice_split off m n l :
  0 ≤ off → 0 ≤ m → 0 ≤ n → zslice off (m + n) l = zslice off m l ++ zslice (off + m) n l.
Proof.
  intros. unfold zslice. rewrite <- (ztake_zdrop m (ztake (m + n) (zdrop off l))).
  rewrite ztake_ztake, zdrop_ztake, zdrop_zdrop by lia.
  replace (m `min` (m + n)) with m by lia.
  replace (m + n - m) with n by lia. by rewrite (Z.add_comm m off).
Qed.
Lemma zlen_zslice off n l : 0 ≤ off → 0 ≤ n → off + n ≤ zlen l → zlen (zslice off n l) = n.
Proof. intros. unfold zslice. rewrite zlen_ztake; [done|]. rewrite zlen_zdrop; lia. Qed.
Lemma zslice_app_l off n l1 l2 :
  0 ≤ off → 0 ≤ n → off + n ≤ zlen l1 → zslice off n (l1 ++ l2) = zslice off n l1.
Proof.
  intros. unfold zslice. rewrite zdrop_app, ztake_app by lia.
  rewrite (ztake_neg (n - _)); [by rewrite app_nil_r|]. rewrite zlen_zdrop; lia.
Qed.
Lemma zslice_app_r off n l1 l2 :
  zlen l1 ≤ off → zslice off n (l1 ++ l2) = zslice (off - zlen l1) n l2.
Proof.
  intros. pose proof (zlen_nonneg l1). unfold zslice.
  rewrite zdrop_app, (zdrop_ge _ l1) by lia. done.
Qed.
Lemma zslice_all l : zslice 0 (zlen l) l = l.
Proof. unfold zslice. rewrite zdrop_0, ztake_ge; [done|lia]. Qed.

Lemma mem_read_ok l off n :
  0 ≤ off → 0 ≤ n → off + n ≤ zlen l → mem_read l off n = Ok (zslice off n l).
Proof.
  intros. unfold mem_read.
  by rewrite (proj2 (Z.leb_le _ _)), (proj2 (Z.leb_le 0 n)), (proj2 (Z.leb_le _ (zlen l))) by lia.
Qed.
Lemma mem_write_ok l off d :
  0 ≤ off → off + zlen d ≤ zlen l →
  ∃ l', mem_write l off d = Ok l' ∧ zlen l' = zlen l ∧
    l' = ztake off l ++ d ++ zdrop (off + zlen d) l.
Proof.
  intros. pose proof (zlen_nonneg d). unfold mem_write.
  rewrite (proj2 (Z.leb_le _ _)), (proj2 (Z.leb_le _ (zlen l))) by lia.
  eexists. split_and!; [done| |done].
  rewrite !zlen_app, zlen_ztake, zlen_zdrop by lia. lia.
Qed.

(** What a slice of the array is after a write, by where the slice lies. *)
Lemma zslice_write_before l off d n i :
  0 ≤ i → 0 ≤ n → i + n ≤ off → off + zlen d ≤ zlen l →
  zslice i n (ztake off l ++ d ++ zdrop (off + zlen d) l) = zslice i n l.
Proof.
  intros. pose proof (zlen_nonneg d). rewrite zslice_app_l; [|lia..|].
  2:{ rewrite zlen_ztake; lia. }
  rewrite <- (ztake_zdrop off l) at 2. rewrite zslice_app_l; [done|lia..|].
  rewrite zlen_ztake; lia.
Qed.
Lemma zslice_write_at l off d :
  0 ≤ off → off + zlen d ≤ zlen l →
  zslice off (zlen d) (ztake off l ++ d ++ zdrop (off + zlen d) l) = d.
Proof.
  intros. pose proof (zlen_nonneg d). rewrite zslice_app_r; [|rewrite zlen_ztake; lia].
  rewrite zlen_ztake by lia. rewrite Z.sub_diag, zslice_app_l by lia. apply zslice_all.
Qed.
Lemma zslice_write_after l off d n i :
  0 ≤ off → 0 ≤ n → off + zlen d ≤ i → i + n ≤ zlen l →
  zslice i n (ztake off l ++ d ++ zdrop (off + zlen d) l) = zslice i n l.
Proof.
  intros. pose proof (zlen_nonneg d).
  rewrite zslice_app_r; [|rewrite zlen_ztake; lia]. rewrite zlen_ztake by lia.
  rewrite zslice_app_r by lia. unfold zslice. rewrite zdrop_zdrop by lia. do 2 f_equal. lia.
Qed.
End zlists.

Create Rewrite HintDb zlen.
#[export] Hint Rewrite @zlen_nil @zlen_cons @zlen_app : zlen.
