(* ===== verification/Printf.v ===== *)
(** * Printf: the decimal conversions of [snprintf]

    What the program uses of the [printf] family: ["%d"], ["%ld"], ["%4d"] and ["%02d"] as texts, the
    truncation of [snprintf], and the lemmas that bound the texts and read them back. *)
From S2P Require Import Prelude.

(** The decimal text of a number below 10 ^ [fuel]. *)
Fixpoint dec_text (fuel : nat) (v : Z) : list byte :=
  match fuel with
  | O => []
  | S fuel => (if v <? 10 then [] else dec_text fuel (v / 10)) ++ [byte_of_Z (48 + v mod 10)]
  end.

(** ["%d"] and ["%ld"] of a number that is not negative, and of any. *)
Definition print_dec (v : Z) : list byte := dec_text 20 v.
Definition print_int (v : Z) : list byte := if v <? 0 then txt "-" ++ print_dec (- v) else print_dec v.

(** Filled up on the left to [n] bytes. *)
Definition pad_left (c : byte) (n : nat) (l : list byte) : list byte := replicate (n - length l) c ++ l.

(** ["%<n>d"]: padded with spaces. *)
Definition print_width (n : nat) (v : Z) : list byte := pad_left x20 n (print_int v).

(** ["%0<n>d"]: padded with zeros after the sign. *)
Definition print_zeros (n : nat) (v : Z) : list byte :=
  if v <? 0 then txt "-" ++ pad_left x30 (n - 1) (print_dec (- v)) else pad_left x30 n (print_dec v).

(** [snprintf] into [size] bytes, the terminating zero among them. *)
Definition snprintf (size : Z) (text : list byte) : list byte := ztake (size - 1) text.

(** ** Reading back *)

Definition dec_value (l : list byte) : Z := foldl (λ a b, 10 * a + (Z_of_byte b - 48)) 0 l.

Lemma dec_text_length fuel v : (length (dec_text fuel v) ≤ fuel)%nat.
Proof.
  induction fuel as [|fuel IH] in v |- *; simpl; [done|]. rewrite length_app. simpl.
  destruct (v <? 10); simpl; [lia|]. specialize (IH (v / 10)). lia.
Qed.

Lemma dec_value_snoc l v : 0 ≤ v < 10 → dec_value (l ++ [byte_of_Z (48 + v)]) = 10 * dec_value l + v.
Proof.
  intros Hv. unfold dec_value. rewrite foldl_app. simpl. rewrite Z_of_byte_of_Z by lia. lia.
Qed.

Lemma dec_value_text fuel v : 0 ≤ v < 10 ^ Z.of_nat fuel → dec_value (dec_text fuel v) = v.
Proof.
  induction fuel as [|fuel IH] in v |- *; intros Hv; [simpl in *; change (dec_value []) with 0; lia|].
  rewrite Nat2Z.inj_succ, Z.pow_succ_r in Hv by lia. cbn [dec_text].
  rewrite dec_value_snoc by (apply Z.mod_pos_bound; lia).
  destruct (Z.ltb_spec v 10) as [Hs|Hs].
  - change (dec_value []) with 0. rewrite Z.mod_small by lia. lia.
  - rewrite IH; [pose proof (Z.div_mod v 10); lia|].
    split; [apply Z.div_pos; lia|]. apply Z.div_lt_upper_bound; lia.
Qed.

Lemma dec_value_print v : 0 ≤ v < 2 ^ 63 → dec_value (print_dec v) = v.
Proof. intros Hv. apply dec_value_text. change (10 ^ Z.of_nat 20) with 100000000000000000000. lia. Qed.

Lemma print_dec_inj v v' : 0 ≤ v < 2 ^ 63 → 0 ≤ v' < 2 ^ 63 → print_dec v = print_dec v' → v = v'.
Proof. intros Hv Hv' E. by rewrite <- (dec_value_print v), <- (dec_value_print v'), E. Qed.

Lemma print_dec_length v : 0 ≤ zlen (print_dec v) ≤ 20.
Proof. unfold zlen, print_dec. pose proof (dec_text_length 20 v). lia. Qed.

Lemma print_int_length v : zlen (print_int v) ≤ 21.
Proof.
  unfold print_int. pose proof (print_dec_length v). pose proof (print_dec_length (- v)).
  destruct (v <? 0); [rewrite zlen_app; change (zlen (txt "-")) with 1|]; lia.
Qed.

(** A number below 10 ^ [n] has at most [n] digits. *)
Lemma dec_text_short n fuel v : 0 ≤ v < 10 ^ Z.of_nat n → (0 < n)%nat → (length (dec_text fuel v) ≤ n)%nat.
Proof.
  induction n as [|n IH] in v, fuel |- *; [lia|]. intros Hv _. rewrite Nat2Z.inj_succ, Z.pow_succ_r in Hv by lia.
  destruct fuel as [|fuel]; cbn [dec_text]; [cbn; lia|]. rewrite length_app. cbn [length].
  destruct (Z.ltb_spec v 10); [cbn; lia|]. destruct n as [|n]; [cbn in Hv; lia|].
  assert ((length (dec_text fuel (v / 10)) ≤ S n)%nat); [|lia].
  apply IH; [|lia]. split; [apply Z.div_pos; lia|]. apply Z.div_lt_upper_bound; lia.
Qed.

Lemma pad_left_length c n l : (length l ≤ n)%nat → length (pad_left c n l) = n.
Proof. intros Hl. unfold pad_left. rewrite length_app, length_replicate. lia. Qed.

(** Zeros in front do not change the value. *)
Lemma dec_value_zeros k l : dec_value (replicate k x30 ++ l) = dec_value l.
Proof. induction k as [|k IH]; [done|]. exact IH. Qed.

Lemma print_zeros_length n v : 0 ≤ v < 10 ^ Z.of_nat n → (0 < n)%nat → length (print_zeros n v) = n.
Proof.
  intros Hv Hn. unfold print_zeros. rewrite (proj2 (Z.ltb_ge v 0)) by lia. apply pad_left_length. by apply dec_text_short.
Qed.

Lemma dec_value_print_zeros n v : 0 ≤ v < 2 ^ 63 → dec_value (print_zeros n v) = v.
Proof.
  intros Hv. unfold print_zeros, pad_left. rewrite (proj2 (Z.ltb_ge v 0)) by lia. rewrite dec_value_zeros.
  by apply dec_value_print.
Qed.
