(* ===== verification/Double.v ===== *)
(** * Double: the C++ [double]

    [interval] and [delay] arguments are [double]s.  They are modelled as IEEE
    binary64 numbers with the Standard Library's computable [spec_float]: the
    multiplication is the correctly rounded one and the conversion to [int64_t]
    truncates, undefined out of range.  The file also proves that integers below
    2^53 survive conversion and multiplication exactly. *)
From Stdlib Require Export Floats.SpecFloat.
From S2P Require Import Prelude.

Definition double : Type := spec_float.

Definition prec : Z := 53.
Definition emax : Z := 1024.

(** The implicit conversion of an integer. *)
Definition double_of_Z (z : Z) : double := binary_normalize prec emax z 0 false.

Definition dmul (x y : double) : double := SFmul prec emax x y.
Definition dzero : double := S754_zero false.
Definition dgtb (x y : double) : bool := SFltb y x.

(** The integer part of a double, [None] for an infinity or a NaN. *)
Definition dtrunc (d : double) : option Z :=
  match d with
  | S754_zero _ => Some 0
  | S754_finite s m e =>
      let n := if 0 <=? e then Zpos m * 2 ^ e else Zpos m / 2 ^ (- e) in
      Some (if s then - n else n)
  | _ => None
  end.

(** [static_cast<int64_t>(d)]. *)
Definition double_to_int64 (d : double) : outcome Z :=
  match dtrunc d with
  | Some z => checked 64 z
  | None => Fault UndefinedBehaviour
  end.

(** ** Shifting right is exact when only zeros are shifted out *)

Lemma shr_1_even m : 0 ≤ m → shr_1 (Build_shr_record (2 * m) false false) = Build_shr_record m false false.
Proof. by destruct m. Qed.

Lemma iter_pos_shr p m :
  0 ≤ m →
  SpecFloat.iter_pos shr_1 p (Build_shr_record (m * 2 ^ Zpos p) false false) = Build_shr_record m false false.
Proof.
  induction p as [p IH|p IH|] in m |- *; intros Hm; cbn [SpecFloat.iter_pos].
  - replace (m * 2 ^ Zpos p~1) with (2 * (m * 2 ^ Zpos p * 2 ^ Zpos p)).
    2:{ replace (Zpos p~1) with (Zpos p + Zpos p + 1) by lia. rewrite !Z.pow_add_r by lia. lia. }
    rewrite shr_1_even by lia. rewrite IH by lia. by apply IH.
  - replace (m * 2 ^ Zpos p~0) with (m * 2 ^ Zpos p * 2 ^ Zpos p).
    2:{ replace (Zpos p~0) with (Zpos p + Zpos p) by lia. rewrite !Z.pow_add_r by lia. lia. }
    rewrite IH by lia. by apply IH.
  - replace (m * 2 ^ 1) with (2 * m) by lia. by apply shr_1_even.
Qed.

Lemma shr_exact m e n :
  0 ≤ m → 0 ≤ n → shr (Build_shr_record (m * 2 ^ n) false false) e n = (Build_shr_record m false false, e + n).
Proof.
  intros Hm Hn. destruct n as [|p|p]; [|by cbn; rewrite iter_pos_shr|lia].
  cbn. do 2 f_equal; lia.
Qed.

Lemma digits2_log2 p : Zpos (digits2_pos p) = Z.log2 (Zpos p) + 1.
Proof.
  induction p as [p IH|p IH|]; cbn [digits2_pos]; [| |done].
  - rewrite Pos2Z.inj_succ, IH, (Pos2Z.inj_xI p), Z.log2_succ_double by lia. lia.
  - rewrite Pos2Z.inj_succ, IH, (Pos2Z.inj_xO p), Z.log2_double by lia. lia.
Qed.

Lemma Zdigits2_log2 m : 0 < m → Zdigits2 m = Z.log2 m + 1.
Proof. destruct m as [|p|p]; [lia| |lia]. intros _. apply digits2_log2. Qed.

(** ** Rounding an integer times a power of two *)

Lemma fexp_small e : -1021 ≤ e → fexp prec emax e = e - prec.
Proof. intros. unfold fexp, emin, prec, emax. lia. Qed.

(** [m * 2^j * 2^e] with a mantissa below 2^53 and all 53 digits used is rounded to
    itself. *)
Lemma round_exact s m j e :
  0 < m → Z.log2 m < prec → prec ≤ Z.log2 m + 1 + j → -900 ≤ e ≤ 0 → 0 ≤ j ≤ 200 →
  binary_round_aux prec emax s (m * 2 ^ j) e loc_Exact =
  S754_finite s (Z.to_pos (m * 2 ^ (prec - 1 - Z.log2 m))) (e + (Z.log2 m + 1 + j - prec)).
Proof.
  intros Hm Hd Hj He Hj'.
  set (k := prec - 1 - Z.log2 m). pose proof (Z.log2_nonneg m).
  assert (Hk : 0 ≤ k ≤ j) by lia.
  assert (Hlog : ∀ i, 0 ≤ i → Zdigits2 (m * 2 ^ i) = Z.log2 m + 1 + i).
  { intros i Hi. rewrite Zdigits2_log2 by nia. rewrite Z.log2_mul_pow2 by lia. lia. }
  unfold binary_round_aux, shr_fexp. cbn [shr_record_of_loc].
  rewrite Hlog, fexp_small by (unfold prec in *; lia).
  replace (_ + e - prec - e) with (j - k) by lia.
  replace (m * 2 ^ j) with (m * 2 ^ k * 2 ^ (j - k)).
  2:{ rewrite <- Z.mul_assoc, <- Z.pow_add_r by lia. do 2 f_equal. lia. }
  rewrite shr_exact by lia. cbn [shr_m loc_of_shr_record round_nearest_even].
  rewrite Hlog, fexp_small by (unfold prec in *; lia).
  replace (_ + (e + (j - k)) - prec - (e + (j - k))) with 0 by lia. cbn [shr shr_m].
  assert (0 < m * 2 ^ k) by (apply Z.mul_pos_pos; lia).
  destruct (m * 2 ^ k) as [|p|p] eqn:E; [lia| |lia]. cbn [Z.to_pos].
  rewrite (proj2 (Z.leb_le _ _)) by (unfold emax, prec in *; lia).
  f_equal. lia.
Qed.

(** The double of a positive integer below 2^53. *)
Lemma double_of_Z_pos z :
  0 < z < 2 ^ prec →
  double_of_Z z = S754_finite false (Z.to_pos (z * 2 ^ (prec - 1 - Z.log2 z))) (Z.log2 z + 1 - prec).
Proof.
  intros [Hz Hlt]. assert (Hl : Z.log2 z < prec) by (apply Z.log2_lt_pow2; lia).
  pose proof (Z.log2_nonneg z).
  unfold double_of_Z, binary_normalize. destruct z as [|p|p] eqn:E; [lia| |lia]. rewrite <- E in *.
  unfold binary_round. rewrite digits2_log2, <- E, fexp_small by lia.
  unfold shl_align. rewrite Z.add_0_r, Z.sub_0_r.
  destruct (Z.log2 z + 1 - prec) as [|q|q] eqn:Eq; [|lia|].
  - replace (Zpos p) with (z * 2 ^ 0) by lia. rewrite round_exact by lia.
    f_equal. lia.
  - assert (Hp : Zpos (Pos.iter xO p q) = z * 2 ^ Zpos q).
    { rewrite E. clear.
      induction q as [|q IHq] using Pos.peano_ind; [cbn [Pos.iter]; lia|].
      rewrite Pos.iter_succ, (Pos2Z.inj_xO (Pos.iter xO p q)), IHq.
      rewrite Pos2Z.inj_succ, Z.pow_succ_r by lia. lia. }
    rewrite Hp, round_exact by (unfold prec in *; lia). f_equal. lia.
Qed.

(** The integer part of the rounded [m * 2^j * 2^e], when that is an integer. *)
Lemma dtrunc_scaled m j e :
  0 < m → 0 ≤ j → e ≤ 0 → j + e = 0 →
  dtrunc (S754_finite false (Z.to_pos (m * 2 ^ j)) e) = Some m.
Proof.
  intros Hm Hj He Hje. unfold dtrunc. rewrite Z2Pos.id by nia.
  replace (- e) with j by lia. destruct (Z.leb_spec 0 e).
  - assert (e = 0) as -> by lia. replace j with 0 by lia. f_equal. lia.
  - f_equal. apply Z.div_mul. lia.
Qed.

Lemma dtrunc_double_of_Z z : 0 < z < 2 ^ prec → dtrunc (double_of_Z z) = Some z.
Proof.
  intros Hz. assert (Z.log2 z < prec) by (apply Z.log2_lt_pow2; lia).
  rewrite double_of_Z_pos by done. apply dtrunc_scaled; unfold prec in *; lia.
Qed.

(** The product of two integers is exact as long as it is below 2^53. *)
Lemma dmul_exact x y :
  0 < x → 0 < y → x * y < 2 ^ prec → dtrunc (dmul (double_of_Z x) (double_of_Z y)) = Some (x * y).
Proof.
  intros Hx Hy Hxy.
  assert (Z.log2 (x * y) < prec) by (apply Z.log2_lt_pow2; lia).
  assert (Z.log2 x < prec) by (apply Z.log2_lt_pow2; nia).
  assert (Z.log2 y < prec) by (apply Z.log2_lt_pow2; nia).
  pose proof (Z.log2_nonneg x). pose proof (Z.log2_nonneg y).
  pose proof (Z.log2_mul_below x y Hx Hy). pose proof (Z.log2_mul_above x y ltac:(lia) ltac:(lia)).
  rewrite (double_of_Z_pos x), (double_of_Z_pos y) by nia.
  unfold dmul, SFmul. cbn [xorb].
  rewrite Pos2Z.inj_mul, !Z2Pos.id by nia.
  replace (x * 2 ^ _ * (y * 2 ^ _))
    with (x * y * 2 ^ ((prec - 1 - Z.log2 x) + (prec - 1 - Z.log2 y)))
    by (rewrite Z.pow_add_r by lia; lia).
  rewrite round_exact by (unfold prec in *; lia).
  apply dtrunc_scaled; unfold prec in *; lia.
Qed.

(** Rounding keeps the sign, so a product of two doubles that are not negative is not. *)
Definition dnonneg (d : double) : Prop :=
  match d with
  | S754_zero s | S754_infinity s | S754_finite s _ _ => s = false
  | S754_nan => True
  end.

Lemma round_nonneg m e l : dnonneg (binary_round_aux prec emax false m e l).
Proof.
  unfold binary_round_aux. destruct (shr_fexp _ _ m e l) as [r e']. destruct (shr_fexp _ _ _ _ _) as [r' e''].
  destruct (shr_m r'); [done| |done]. by destruct (_ <=? _).
Qed.

Lemma dmul_nonneg x y : dnonneg x → dnonneg y → dnonneg (dmul x y).
Proof.
  unfold dmul. destruct x, y; simpl; intros; simplify_eq; try done. apply round_nonneg.
Qed.

Lemma dtrunc_nonneg d z : dnonneg d → dtrunc d = Some z → 0 ≤ z.
Proof.
  destruct d as [s|s| |s m e]; simpl; intros Hs Hz; simplify_eq; [lia|].
  case_cmp; [lia|]. apply Z.div_pos; lia.
Qed.

Lemma dgtb_dzero d : dgtb d dzero = true → dnonneg d.
Proof. unfold dgtb, dzero, SFltb, SFcompare. by destruct d as [[]|[]| |[] ? ?]. Qed.
