(* ===== verification/Timestamp.v ===== *)
(** * Timestamp: [base::Timestamp] (base/time/Timestamp.h, base/time/Timestamp.cc)

    A point in time is a number of microseconds since the epoch in an [int64_t],
    here a [Z].  Signed arithmetic out of range is undefined behaviour, so the
    operations that compute are fallible.  [localtime_r], which the text form calls,
    depends on the time zone and is an argument. *)
From S2P Require Import Prelude Printf Double.

(** [int64_t microSecondsSinceEpoch_], the one member of the class. *)
Abbreviation Timestamp := Z.

Definition kMicroSecondsPerSecond : Z := 1000 * 1000.

Definition Timestamp_default : Timestamp := 0.
Definition microSecondsSinceEpoch (t : Timestamp) : Z := t.
Definition invalid : Timestamp := 0.
Definition valid (t : Timestamp) : bool := 0 <? t.

(** [Timestamp::now] from what [gettimeofday] stored. *)
Definition now (tv_sec tv_usec : Z) : outcome Timestamp :=
  match checked 64 (tv_sec * kMicroSecondsPerSecond) with
  | Ok s => checked 64 (s + tv_usec)
  | Fault f => Fault f
  end.

Definition fromUnixTime (t usec : Z) : outcome Timestamp :=
  match checked 64 (t * kMicroSecondsPerSecond) with
  | Ok s => checked 64 (s + usec)
  | Fault f => Fault f
  end.

Definition microSinceEpoch (t : Timestamp) : Z := t.
Definition secondSinceEpoch (t : Timestamp) : Z := Z.quot t kMicroSecondsPerSecond.

Definition ltb (lhs rhs : Timestamp) : bool := microSecondsSinceEpoch lhs <? microSecondsSinceEpoch rhs.
Definition eqb (lhs rhs : Timestamp) : bool := microSecondsSinceEpoch lhs =? microSecondsSinceEpoch rhs.

(** The number of microseconds of an interval in seconds. *)
Definition delta_of (seconds : double) : outcome Z :=
  double_to_int64 (dmul seconds (double_of_Z kMicroSecondsPerSecond)).

Definition addTime (timestamp : Timestamp) (seconds : double) : outcome Timestamp :=
  match delta_of seconds with
  | Ok delta => checked 64 (microSecondsSinceEpoch timestamp + delta)
  | Fault f => Fault f
  end.

(** *** The text form *)

(** The fields of a [struct tm] that are printed. *)
Record tm : Type := mkTm { tm_year : Z; tm_mon : Z; tm_mday : Z; tm_hour : Z; tm_min : Z; tm_sec : Z }.

(** ["%4d-%02d-%02d %02d:%02d:%02d"] *)
Definition format_tm (lt : tm) : list byte :=
  print_width 4 (tm_year lt + 1900) ++ txt "-" ++ print_zeros 2 (tm_mon lt + 1) ++ txt "-" ++ print_zeros 2 (tm_mday lt) ++
  txt " " ++ print_zeros 2 (tm_hour lt) ++ txt ":" ++ print_zeros 2 (tm_min lt) ++ txt ":" ++ print_zeros 2 (tm_sec lt).

Definition toFormatString (localtime_r : Z → tm) (t : Timestamp) : list byte :=
  snprintf 32 (format_tm (localtime_r (secondSinceEpoch t))).

(** ** Intervals *)

Lemma checked_ok w z z' : checked w z = Ok z' → z' = z ∧ in_signed w z = true.
Proof. unfold checked. destruct (in_signed w z); naive_solver. Qed.

Lemma delta_of_nonneg d z : dnonneg d → delta_of d = Ok z → 0 ≤ z.
Proof.
  intros Hd. unfold delta_of, double_to_int64.
  destruct (dtrunc _) as [t|] eqn:E; [|done]. intros [-> _]%checked_ok.
  eapply dtrunc_nonneg; [|done]. by apply dmul_nonneg.
Qed.

Lemma delta_of_seconds k :
  0 < k → k * kMicroSecondsPerSecond < 2 ^ prec →
  delta_of (double_of_Z k) = Ok (k * kMicroSecondsPerSecond).
Proof.
  intros Hk Hlt. unfold delta_of, double_to_int64.
  rewrite dmul_exact by (done || lia).
  apply checked_64_ok. unfold kMicroSecondsPerSecond, prec in *. lia.
Qed.

(** ** Properties *)

(** Adding a whole number of seconds is exact.  For the delays that are written as integers
    ([runAfter(3, ...)]) the detour through [double] loses nothing: [addTime] moves the timestamp by
    exactly [k] million microseconds, for every [k] whose microseconds are below 2^53. *)
Theorem addTime_seconds t k :
  0 < k → k * kMicroSecondsPerSecond < 2 ^ prec →
  - 2 ^ 63 ≤ t → t + k * kMicroSecondsPerSecond < 2 ^ 63 →
  addTime t (double_of_Z k) = Ok (t + k * kMicroSecondsPerSecond).
Proof.
  intros Hk Hlt Hlo Hhi. unfold addTime. rewrite delta_of_seconds by done.
  apply checked_64_ok. unfold microSecondsSinceEpoch, kMicroSecondsPerSecond in *. lia.
Qed.

Lemma addTime_seconds_witness : addTime 1700000000000000 (double_of_Z 3) = Ok 1700000003000000.
Proof. apply (addTime_seconds 1700000000000000 3); vm_compute; (reflexivity || discriminate). Defined.

(** Time never goes back.  For an interval that is not negative, fractional or not, [addTime]
    either is undefined (the interval is a NaN or too large for [int64_t], or the sum is) or
    returns a timestamp that is not before the one it started from. *)
Theorem addTime_monotone t d :
  dgtb d dzero = true →
  match addTime t d with
  | Ok t' => ltb t' t = false
  | Fault f => f = UndefinedBehaviour
  end.
Proof.
  intros Hd%dgtb_dzero. unfold addTime. destruct (delta_of d) as [z|f] eqn:E.
  - pose proof (delta_of_nonneg _ _ Hd E). unfold checked.
    destruct (in_signed _ _); [|done]. unfold ltb, microSecondsSinceEpoch.
    apply Z.ltb_ge. lia.
  - revert E. unfold delta_of, double_to_int64. destruct (dtrunc _); [|by intros [= <-]].
    unfold checked. destruct (in_signed _ _); congruence.
Qed.

(** Half a second. *)
Lemma addTime_monotone_witness :
  match addTime 100 (S754_finite false 4503599627370496 (-53)) with
  | Ok t' => ltb t' 100 = false
  | Fault f => f = UndefinedBehaviour
  end.
Proof. apply addTime_monotone. reflexivity. Defined.

Example addTime_half : addTime 100 (S754_finite false 4503599627370496 (-53)) = Ok 500100.
Proof. reflexivity. Qed.

(** ** The text form *)

(** The fields of a text of 19 bytes, by position. *)
Definition read_tm (l : list byte) : option tm :=
  if zlen l =? 19 then
    Some (mkTm (dec_value (zslice 0 4 l) - 1900) (dec_value (zslice 5 2 l) - 1) (dec_value (zslice 8 2 l))
            (dec_value (zslice 11 2 l)) (dec_value (zslice 14 2 l)) (dec_value (zslice 17 2 l)))
  else None.

(** What [localtime_r] stores for a year of four digits. *)
Definition tm_ok (lt : tm) : Prop :=
  1000 ≤ tm_year lt + 1900 < 10000 ∧ 0 ≤ tm_mon lt < 12 ∧ 0 ≤ tm_mday lt < 100 ∧
  0 ≤ tm_hour lt < 100 ∧ 0 ≤ tm_min lt < 100 ∧ 0 ≤ tm_sec lt < 100.

Lemma two_bytes (l : list byte) : zlen l = 2 → ∃ a b, l = [a; b].
Proof. destruct l as [|a [|b [|c l]]]; unfold zlen; cbn; try lia. by exists a, b. Qed.

Lemma four_bytes (l : list byte) : zlen l = 4 → ∃ a b c d, l = [a; b; c; d].
Proof. destruct l as [|a [|b [|c [|d [|e l]]]]]; unfold zlen; cbn; try lia. by exists a, b, c, d. Qed.

(** The fields of a text are where [read_tm] looks for them. *)
Lemma read_fields y mo d h mi s :
  zlen y = 4 → zlen mo = 2 → zlen d = 2 → zlen h = 2 → zlen mi = 2 → zlen s = 2 →
  read_tm (y ++ txt "-" ++ mo ++ txt "-" ++ d ++ txt " " ++ h ++ txt ":" ++ mi ++ txt ":" ++ s) =
  Some (mkTm (dec_value y - 1900) (dec_value mo - 1) (dec_value d) (dec_value h) (dec_value mi) (dec_value s)).
Proof.
  intros (y1 & y2 & y3 & y4 & ->)%four_bytes (? & ? & ->)%two_bytes (? & ? & ->)%two_bytes (? & ? & ->)%two_bytes
    (? & ? & ->)%two_bytes (? & ? & ->)%two_bytes. reflexivity.
Qed.

Lemma zlen_zeros2 v : 0 ≤ v < 100 → zlen (print_zeros 2 v) = 2.
Proof. intros Hv. unfold zlen. rewrite print_zeros_length; [done| |lia]. change (10 ^ Z.of_nat 2) with 100. lia. Qed.

Lemma print_year y : 1000 ≤ y < 10000 → zlen (print_width 4 y) = 4 ∧ dec_value (print_width 4 y) = y.
Proof.
  intros Hy. unfold print_width, print_int. rewrite (proj2 (Z.ltb_ge y 0)) by lia.
  assert (Hlen : length (print_dec y) = 4%nat).
  { apply Nat.le_antisymm; [apply dec_text_short; [change (10 ^ Z.of_nat 4) with 10000; lia|lia]|].
    unfold print_dec. cbn [dec_text]. rewrite (proj2 (Z.ltb_ge y 10)) by lia.
    rewrite (proj2 (Z.ltb_ge (y / 10) 10)) by (apply Z.div_le_lower_bound; lia).
    rewrite (proj2 (Z.ltb_ge (y / 10 / 10) 10)) by (repeat (apply Z.div_le_lower_bound; [lia|]); lia).
    rewrite !length_app. cbn [length]. lia. }
  unfold pad_left. rewrite Hlen. cbn [replicate Nat.sub app]. unfold zlen. rewrite Hlen. split; [done|].
  apply dec_value_print. lia.
Qed.

(** C40: the text of a point in time can be read back.  For a year of four digits it has 19 characters, so the
    32 bytes of the array suffice, and year, month, day, hour, minute and second are found at their places. *)
Theorem toFormatString_reads_back localtime_r t :
  tm_ok (localtime_r (secondSinceEpoch t)) →
  read_tm (toFormatString localtime_r t) = Some (localtime_r (secondSinceEpoch t)).
Proof.
  intros (Hy & Hmo & Hd & Hh & Hmi & Hs). unfold toFormatString. destruct (localtime_r _) as [y mo d h mi s].
  cbn [tm_year tm_mon tm_mday tm_hour tm_min tm_sec] in *. destruct (print_year _ Hy) as [Ly Vy].
  assert (Hmo' : 0 ≤ mo + 1 < 100) by lia.
  pose proof (zlen_zeros2 _ Hmo') as Lmo. pose proof (zlen_zeros2 _ Hd) as Ld. pose proof (zlen_zeros2 _ Hh) as Lh.
  pose proof (zlen_zeros2 _ Hmi) as Lmi. pose proof (zlen_zeros2 _ Hs) as Ls.
  unfold snprintf. rewrite ztake_ge.
  2:{ unfold format_tm. cbn [tm_year tm_mon tm_mday tm_hour tm_min tm_sec]. rewrite !zlen_app, Ly, Lmo, Ld, Lh, Lmi, Ls. vm_compute. discriminate. }
  unfold format_tm. cbn [tm_year tm_mon tm_mday tm_hour tm_min tm_sec]. rewrite read_fields by done.
  rewrite Vy, !dec_value_print_zeros by lia. do 2 f_equal; lia.
Qed.

(** 1784208899 seconds after 1970 in a time zone eight hours east. *)
Definition a_summer_night : tm := mkTm 126 6 16 21 34 59.

Lemma toFormatString_reads_back_witness :
  tm_ok a_summer_night ∧
  read_tm (toFormatString (λ _, a_summer_night) 1784208899000000) = Some a_summer_night ∧
  toFormatString (λ _, a_summer_night) 1784208899000000 = txt "2026-07-16 21:34:59".
Proof.
  assert (H : tm_ok a_summer_night) by (repeat split; vm_compute; first [reflexivity|discriminate]).
  split; [exact H|]. split; [exact (toFormatString_reads_back (λ _, a_summer_night) 1784208899000000 H)|].
  vm_compute. reflexivity.
Defined.
