(* ===== verification/Buffer.v ===== *)
(** * Buffer: [net::Buffer] (net/buffer/Buffer.h, net/buffer/Buffer.cc)

    The byte buffer of a connection: a [std::vector<char>] and two [size_t]
    indices, [0 <= readerIndex_ <= writerIndex_ <= buffer_.size()].  The bytes
    between the indices are the readable ones ([view]).  The operations are
    translated one by one into [prog Buffer]; an index outside of the vector is
    undefined behaviour, a failed [assert] is [AssertFailed].

    The first part holds the definitions, then come the invariant [wf], one
    specification per operation and the refinement of a byte queue. *)
From S2P Require Import Prelude.

Definition KInititalSize : Z := 1024.
Definition KCheapPrepend : Z := 8.

(** [std::vector<char>::max_size()] of a 64-bit libstdc++. *)
Definition max_size : Z := 2 ^ 63 - 1.

Record Buffer : Type := mkBuffer {
  buffer_ : list byte;
  readerIndex_ : Z;
  writerIndex_ : Z
}.

Definition set_buffer (l : list byte) (b : Buffer) : Buffer :=
  mkBuffer l (readerIndex_ b) (writerIndex_ b).
Definition set_reader (i : Z) (b : Buffer) : Buffer :=
  mkBuffer (buffer_ b) i (writerIndex_ b).
Definition set_writer (i : Z) (b : Buffer) : Buffer :=
  mkBuffer (buffer_ b) (readerIndex_ b) i.

(** ** Construction, copies and moves *)

Definition Buffer_default : Buffer :=
  mkBuffer (replicate (Z.to_nat KInititalSize) x00) KCheapPrepend KCheapPrepend.

Definition Buffer_copy (other : Buffer) : Buffer :=
  mkBuffer (buffer_ other) (readerIndex_ other) (writerIndex_ other).

(** [this->swap(other)]: the new values of [*this] and [other]. *)
Definition swap (this other : Buffer) : Buffer * Buffer :=
  (mkBuffer (buffer_ other) (readerIndex_ other) (writerIndex_ other),
   mkBuffer (buffer_ this) (readerIndex_ this) (writerIndex_ this)).

(** The move constructor starts from an empty vector and two indices it never
    initialised; their values are the arguments [r] and [w].  The results are the
    new values of [*this] and [other]. *)
Definition Buffer_move (r w : Z) (other : Buffer) : Buffer * Buffer :=
  let this := mkBuffer [] r w in
  let '(tmp, other) := swap Buffer_default other in
  let '(tmp, this) := swap tmp this in
  (this, other).

Definition assign_copy (this other : Buffer) : Buffer :=
  let tmp := Buffer_copy other in
  let '(tmp, this) := swap tmp this in
  this.

Definition assign_move (r w : Z) (this other : Buffer) : Buffer * Buffer :=
  let '(tmp, other) := Buffer_move r w other in
  let '(tmp, this) := swap tmp this in
  (this, other).

(** ** Observers *)

(** [begin() + readerIndex_] and [begin() + writerIndex_], as offsets. *)
Definition peek (b : Buffer) : Z := readerIndex_ b.
Definition beginWrite (b : Buffer) : Z := writerIndex_ b.

Definition readableBytes (b : Buffer) : Z := u64 (writerIndex_ b - readerIndex_ b).
Definition writableBytes (b : Buffer) : Z := u64 (zlen (buffer_ b) - writerIndex_ b).
Definition PrependableBytes (b : Buffer) : Z := to_signed 64 (readerIndex_ b).

(** ** Consuming *)

Definition retrieveAll : prog Buffer () :=
  modify (λ b, set_writer KCheapPrepend (set_reader KCheapPrepend b)).

Definition retrieve (len : Z) : prog Buffer () :=
  b ← get;
  assert! (len <=? readableBytes b) ;;
  if len <? readableBytes b
  then modify (set_reader (u64 (readerIndex_ b + len)))
  else retrieveAll.

Definition retrieveAsString (len : Z) : prog Buffer (list byte) :=
  b ← get;
  assert! (len <=? readableBytes b) ;;
  result ← lift (mem_read (buffer_ b) (peek b) len);
  retrieve len ;;
  mret result.

Definition retrieveAllString : prog Buffer (list byte) :=
  b ← get;
  retrieveAsString (readableBytes b).

(** ** Growing and appending *)

Definition vector_resize (l : list byte) (n : Z) : outcome (list byte) :=
  if n <=? zlen l then Ok (ztake n l)
  else if max_size <? n then Fault LengthError
  else Ok (l ++ replicate (Z.to_nat (n - zlen l)) x00).

Definition makeSpace (len : Z) : prog Buffer () :=
  b ← get;
  if u64 (u64 (PrependableBytes b) + writableBytes b) <? u64 (len + KCheapPrepend)
  then
    l ← lift (vector_resize (buffer_ b) (u64 (writerIndex_ b + len)));
    modify (set_buffer l)
  else
    assert! (KCheapPrepend <? readerIndex_ b) ;;
    let datasize := readableBytes b in
    d ← lift (mem_read (buffer_ b) (readerIndex_ b) (writerIndex_ b - readerIndex_ b));
    l ← lift (mem_write (buffer_ b) KCheapPrepend d);
    put (mkBuffer l KCheapPrepend (u64 (KCheapPrepend + datasize))) ;;
    b' ← get;
    assert! (datasize =? readableBytes b').

Definition ensureWritableBytes (len : Z) : prog Buffer () :=
  b ← get;
  when_ (writableBytes b <? len) (makeSpace len) ;;
  b ← get;
  assert! (len <=? writableBytes b).

Definition hasWritten (len : Z) : prog Buffer () :=
  b ← get;
  assert! (len <=? writableBytes b) ;;
  modify (set_writer (u64 (writerIndex_ b + len))).

(** [append(data, len)]: [data] is the memory the pointer points to. *)
Definition append (data : list byte) (len : Z) : prog Buffer () :=
  ensureWritableBytes len ;;
  d ← lift (mem_read data 0 len);
  b ← get;
  l ← lift (mem_write (buffer_ b) (beginWrite b) d);
  put (set_buffer l b) ;;
  hasWritten len.

Definition prepend (data : list byte) (len : Z) : prog Buffer () :=
  b ← get;
  assert! (len <=? u64 (PrependableBytes b)) ;;
  put (set_reader (u64 (readerIndex_ b - len)) b) ;;
  d ← lift (mem_read data 0 len);
  b ← get;
  l ← lift (mem_write (buffer_ b) (readerIndex_ b) d);
  modify (set_buffer l).

(** ** Lines *)

(** [memchr]: the offset of the first [c]. *)
Fixpoint memchr (c : byte) (l : list byte) : option Z :=
  match l with
  | [] => None
  | x :: l' => if Byte.eqb x c then Some 0 else Z.succ <$> memchr c l'
  end.

Definition newline : byte := x0a.

Definition getLine : prog Buffer (option (list byte)) :=
  b ← get;
  hay ← lift (mem_read (buffer_ b) (peek b) (readableBytes b));
  match memchr newline hay with
  | None => mret None
  | Some pos =>
      res ← lift (mem_read (buffer_ b) (peek b) (pos + 1));
      retrieve (zlen res) ;;
      mret (Some res)
  end.

(** ** Reading from a descriptor *)

(** [readv] is the kernel's: from the lengths of the vectors it is given it
    answers with an errno, or with the bytes it scattered over them in order. *)
Inductive readv_answer : Type :=
| RvError (errno : Z)
| RvData (d : list byte).

Definition extrabuf_size : Z := 65536.

(** [char extrabuf[65536]] on the stack; what it holds before the call is never read. *)
Definition extrabuf_init : list byte := replicate (Z.to_nat extrabuf_size) x00.

Definition iov_lengths (writable : Z) : list Z :=
  if writable <? extrabuf_size then [writable; extrabuf_size] else [writable].

(** The result of [readFd] is the [ssize_t] it returns and the errno it stores. *)
Definition readFd (readv : list Z → readv_answer) : prog Buffer (Z * option Z) :=
  b ← get;
  let writable := writableBytes b in
  match readv (iov_lengths writable) with
  | RvError errno => mret (-1, Some errno)
  | RvData d =>
      let res := zlen d in
      l ← lift (mem_write (buffer_ b) (beginWrite b) (ztake writable d));
      put (set_buffer l b) ;;
      extrabuf ← lift (mem_write extrabuf_init 0 (zdrop writable d));
      (if res <=? writable
       then modify (set_writer (u64 (writerIndex_ b + res)))
       else modify (set_writer (zlen l)) ;; append extrabuf (u64 (res - writable))) ;;
      mret (res, None)
  end.

(** What the kernel promises: it never returns more bytes than it was given room for. *)
Definition readv_law (readv : list Z → readv_answer) : Prop :=
  ∀ lens d, Forall (Z.le 0) lens → readv lens = RvData d → zlen d ≤ foldr Z.add 0 lens.

(** ** The invariant and the readable bytes *)

Record wf (b : Buffer) : Prop := {
  wf_reader : 0 ≤ readerIndex_ b;
  wf_order : readerIndex_ b ≤ writerIndex_ b;
  wf_writer : writerIndex_ b ≤ zlen (buffer_ b);
  wf_prependable : KCheapPrepend ≤ zlen (buffer_ b);
  wf_max : zlen (buffer_ b) ≤ max_size
}.

Definition view (b : Buffer) : list byte :=
  zslice (readerIndex_ b) (writerIndex_ b - readerIndex_ b) (buffer_ b).

(** Appending [len] bytes succeeds when they fit behind the data, when they fit
    once the data is moved to the front, or when the vector can grow for them. *)
Definition room (b : Buffer) (len : Z) : Prop :=
  len ≤ zlen (buffer_ b) - writerIndex_ b ∨
  len + KCheapPrepend ≤ readerIndex_ b + (zlen (buffer_ b) - writerIndex_ b) ∨
  writerIndex_ b + len ≤ max_size.

(** Whether the vector is left as long as it was. *)
Definition in_place (b : Buffer) (len : Z) : Prop :=
  len ≤ zlen (buffer_ b) - writerIndex_ b ∨
  len + KCheapPrepend ≤ readerIndex_ b + (zlen (buffer_ b) - writerIndex_ b).

Ltac wf_facts :=
  repeat match goal with
  | H : wf ?b |- _ =>
      lazymatch goal with
      | _ : 0 ≤ readerIndex_ b |- _ => fail
      | _ => pose proof (wf_reader _ H); pose proof (wf_order _ H); pose proof (wf_writer _ H);
             pose proof (wf_prependable _ H); pose proof (wf_max _ H)
      end
  end.

Ltac wf_lia :=
  wf_facts;
  unfold room, in_place in *; unfold is_u64, u64_modulus, max_size, KCheapPrepend in *; simpl in *; lia.

Section facts.
Context (b : Buffer) (Hwf : wf b).

Lemma readable_eq : readableBytes b = writerIndex_ b - readerIndex_ b.
Proof. apply u64_small. wf_lia. Qed.
Lemma writable_eq : writableBytes b = zlen (buffer_ b) - writerIndex_ b.
Proof. apply u64_small. wf_lia. Qed.
Lemma prependable_eq : PrependableBytes b = readerIndex_ b.
Proof. apply to_signed_id; [lia|]. apply in_signed_64. wf_lia. Qed.
Lemma zlen_view : zlen (view b) = writerIndex_ b - readerIndex_ b.
Proof. apply zlen_zslice; wf_lia. Qed.
Lemma readable_view : readableBytes b = zlen (view b).
Proof. by rewrite zlen_view, readable_eq. Qed.

Lemma read_prefix n :
  0 ≤ n ≤ zlen (view b) → mem_read (buffer_ b) (peek b) n = Ok (ztake n (view b)).
Proof.
  rewrite zlen_view. intros. unfold peek. rewrite mem_read_ok by wf_lia.
  unfold view, zslice. rewrite ztake_ztake by lia. do 2 f_equal. lia.
Qed.
Lemma read_view : mem_read (buffer_ b) (peek b) (zlen (view b)) = Ok (view b).
Proof. rewrite read_prefix, ztake_ge; [done|lia|]. pose proof (zlen_nonneg (view b)). lia. Qed.
End facts.

(** A buffer that agrees with [b] on the readable bytes has the same view. *)
Lemma view_ext b1 b2 :
  writerIndex_ b1 - readerIndex_ b1 = writerIndex_ b2 - readerIndex_ b2 →
  zslice (readerIndex_ b1) (writerIndex_ b2 - readerIndex_ b2) (buffer_ b1) =
  zslice (readerIndex_ b2) (writerIndex_ b2 - readerIndex_ b2) (buffer_ b2) →
  view b1 = view b2.
Proof. unfold view. by intros -> ->. Qed.

Lemma wf_default : wf Buffer_default.
Proof. split; vm_compute; congruence. Qed.

Lemma zlen_default : zlen (buffer_ Buffer_default) = KInititalSize.
Proof. done. Qed.

Lemma view_default : view Buffer_default = [].
Proof. done. Qed.

(** ** Specifications of the operations *)

Lemma retrieveAll_spec b :
  wf b → wp retrieveAll (λ _ b', wf b' ∧ view b' = [] ∧ zlen (buffer_ b') = zlen (buffer_ b)) b.
Proof.
  intros Hb. unfold retrieveAll. wp_go. split_and!; [split; wf_lia|done|done].
Qed.

(** [n] bytes are gone from the front of [b], and the vector is as long as it was. *)
Definition consumed (b b' : Buffer) (n : Z) : Prop :=
  wf b' ∧ view b' = zdrop n (view b) ∧ zlen (buffer_ b') = zlen (buffer_ b) ∧
  readerIndex_ b' = if n <? zlen (view b) then readerIndex_ b + n else KCheapPrepend.

Lemma retrieve_spec b len :
  wf b → 0 ≤ len ≤ zlen (view b) → wp (retrieve len) (λ _ b', consumed b b' len) b.
Proof.
  intros Hb Hlen. unfold retrieve, consumed. wp_go. rewrite readable_view by done.
  apply wp_assert; [lia|]. case_cmp.
  - wp_go. rewrite zlen_view in * by done.
    rewrite u64_small by wf_lia. split_and!; [split; wf_lia| |done|done].
    unfold view, zslice. simpl. rewrite zdrop_ztake, zdrop_zdrop by wf_lia.
    f_equal; [lia|f_equal; lia].
  - rewrite (zdrop_ge len) by lia. unfold retrieveAll. wp_go.
    split_and!; [split; wf_lia|done|done|done].
Qed.

Lemma retrieveAsString_spec b len :
  wf b → 0 ≤ len ≤ zlen (view b) →
  wp (retrieveAsString len) (λ s b', s = ztake len (view b) ∧ consumed b b' len) b.
Proof.
  intros Hb Hlen. unfold retrieveAsString. wp_go. rewrite readable_view by done.
  apply wp_assert; [lia|]. wp_go. eapply wp_lift; [by apply read_prefix|]. wp_go.
  wp_use (by apply retrieve_spec). done.
Qed.

Lemma vector_resize_grow l n :
  zlen l ≤ n ≤ max_size →
  ∃ k, vector_resize l n = Ok (l ++ replicate k x00) ∧ zlen (l ++ replicate k x00) = n.
Proof.
  intros H. exists (Z.to_nat (n - zlen l)). pose proof (zlen_nonneg l). unfold vector_resize.
  rewrite zlen_app, zlen_replicate by lia. split; [|lia].
  destruct (Z.leb_spec n (zlen l)).
  - assert (n = zlen l) as -> by lia. rewrite ztake_ge, Z.sub_diag by lia. by rewrite app_nil_r.
  - by destruct (Z.ltb_spec max_size n); [lia|].
Qed.

(** What [makeSpace] leaves behind, when it is called for lack of room. *)
Definition space_made (b b' : Buffer) (len : Z) : Prop :=
  wf b' ∧ view b' = view b ∧ len ≤ zlen (buffer_ b') - writerIndex_ b' ∧
  (in_place b len → zlen (buffer_ b') = zlen (buffer_ b)) ∧
  (¬ in_place b len → zlen (buffer_ b') = writerIndex_ b + len) ∧
  KCheapPrepend `min` readerIndex_ b ≤ readerIndex_ b'.

Lemma makeSpace_grow b len :
  wf b → 0 ≤ len → ¬ in_place b len → writerIndex_ b + len ≤ max_size →
  wp (makeSpace len) (λ _ b', space_made b b' len) b.
Proof.
  intros Hb Hlen Hnot Hmax. unfold makeSpace. wp_go.
  rewrite prependable_eq, writable_eq by done.
  rewrite !(u64_small (readerIndex_ b)), !(u64_small (len + _)), u64_small by wf_lia.
  destruct (Z.ltb_spec (readerIndex_ b + (zlen (buffer_ b) - writerIndex_ b)) (len + KCheapPrepend));
    [|wf_lia].
  wp_go. rewrite u64_small by wf_lia.
  destruct (vector_resize_grow (buffer_ b) (writerIndex_ b + len)) as (k & Hk & Hn); [wf_lia|].
  eapply wp_lift; [done|]. wp_go.
  unfold space_made. simpl. rewrite Hn. split_and!.
  - split; simpl; rewrite ?Hn; wf_lia.
  - apply view_ext; simpl; [done|]. apply zslice_app_l; wf_lia.
  - lia.
  - done.
  - done.
  - lia.
Qed.

Lemma makeSpace_move b len :
  wf b → zlen (buffer_ b) - writerIndex_ b < len → in_place b len →
  wp (makeSpace len) (λ _ b', space_made b b' len) b.
Proof.
  intros Hb Hlen Hin. unfold makeSpace. wp_go.
  rewrite prependable_eq, writable_eq by done.
  rewrite !(u64_small (readerIndex_ b)), !(u64_small (len + _)), u64_small by wf_lia.
  destruct (Z.ltb_spec (readerIndex_ b + (zlen (buffer_ b) - writerIndex_ b)) (len + KCheapPrepend));
    [wf_lia|].
  wp_go. apply wp_assert; [wf_lia|]. wp_go.
  assert (Hv : writerIndex_ b - readerIndex_ b = zlen (view b)) by by rewrite zlen_view.
  eapply wp_lift; [rewrite Hv; by apply read_view|]. wp_go.
  destruct (mem_write_ok (buffer_ b) KCheapPrepend (view b)) as (l & Hl & Hlen' & El);
    [done|rewrite <- Hv; wf_lia|].
  eapply wp_lift; [done|]. wp_go.
  rewrite readable_view, <- Hv, u64_small by (done || wf_lia).
  apply wp_assert.
  { unfold readableBytes. simpl. rewrite u64_small by wf_lia. wf_lia. }
  unfold space_made. simpl. split_and!.
  - split; simpl; rewrite ?Hlen'; wf_lia.
  - unfold view at 1. simpl.
    replace (KCheapPrepend + _ - KCheapPrepend) with (zlen (view b)) by lia.
    rewrite El. apply zslice_write_at; [done|]. rewrite <- Hv. wf_lia.
  - rewrite Hlen'. wf_lia.
  - done.
  - done.
  - lia.
Qed.

Lemma ensureWritableBytes_spec b len :
  wf b → 0 ≤ len → room b len →
  wp (ensureWritableBytes len) (λ _ b', space_made b b' len) b.
Proof.
  intros Hb Hlen Hroom. unfold ensureWritableBytes. wp_go. rewrite writable_eq by done.
  assert (∀ b', space_made b b' len →
    wp (assert! (len <=? writableBytes b')) (λ _ b', space_made b b' len) b') as Hfin.
  { intros b' (Hb' & Hs). apply wp_assert; [|by split]. rewrite writable_eq by done. lia. }
  case_cmp.
  - destruct (decide (len + KCheapPrepend ≤ readerIndex_ b + (zlen (buffer_ b) - writerIndex_ b))).
    + wp_use (apply makeSpace_move; (done || wf_lia)). auto.
    + wp_use (apply makeSpace_grow; (done || wf_lia)). auto.
  - rewrite <- writable_eq by done. apply Hfin. split_and!; [done|done|wf_lia|done|wf_lia|lia].
Qed.

Lemma ensureWritableBytes_full b len :
  wf b → 0 ≤ len ≤ max_size → ¬ room b len → faults (ensureWritableBytes len) LengthError b.
Proof.
  intros Hb Hlen Hnot. apply (faults_bind_r _ _ _ b b b); [done|].
  unfold when_. rewrite writable_eq by done.
  destruct (Z.ltb_spec (zlen (buffer_ b) - writerIndex_ b) len); [|wf_lia].
  apply faults_bind_l, (faults_bind_r _ _ _ b b b); [done|].
  rewrite prependable_eq, writable_eq by done.
  rewrite !(u64_small (readerIndex_ b)), !(u64_small (len + _)), u64_small by wf_lia.
  destruct (Z.ltb_spec (readerIndex_ b + (zlen (buffer_ b) - writerIndex_ b)) (len + KCheapPrepend));
    [|wf_lia].
  apply faults_bind_l. unfold faults, lift, vector_resize. rewrite u64_small by wf_lia.
  destruct (Z.leb_spec (writerIndex_ b + len) (zlen (buffer_ b))); [wf_lia|].
  destruct (Z.ltb_spec max_size (writerIndex_ b + len)); [done|wf_lia].
Qed.

Lemma hasWritten_spec b len :
  wf b → 0 ≤ len ≤ zlen (buffer_ b) - writerIndex_ b →
  wp (hasWritten len) (λ _ b', b' = set_writer (writerIndex_ b + len) b ∧ wf b') b.
Proof.
  intros Hb Hlen. unfold hasWritten. wp_go. rewrite writable_eq by done.
  apply wp_assert; [lia|]. wp_go. rewrite u64_small by wf_lia.
  split; [done|]. split; wf_lia.
Qed.

(** Bytes written behind the data and then counted as written are readable. *)
Lemma wf_view_write b l d :
  wf b → zlen d ≤ zlen (buffer_ b) - writerIndex_ b →
  l = ztake (writerIndex_ b) (buffer_ b) ++ d ++ zdrop (writerIndex_ b + zlen d) (buffer_ b) →
  zlen l = zlen (buffer_ b) →
  wf (mkBuffer l (readerIndex_ b) (writerIndex_ b + zlen d)) ∧
  view (mkBuffer l (readerIndex_ b) (writerIndex_ b + zlen d)) = view b ++ d.
Proof.
  intros Hb Hd El Hl. pose proof (zlen_nonneg d). split; [split; simpl; rewrite ?Hl; wf_lia|].
  unfold view. simpl.
  replace (_ + _ - _) with ((writerIndex_ b - readerIndex_ b) + zlen d) by lia.
  rewrite zslice_split by wf_lia. rewrite El. f_equal.
  - apply zslice_write_before; wf_lia.
  - replace (_ + (_ - _)) with (writerIndex_ b) by lia. apply zslice_write_at; wf_lia.
Qed.

(** What [append] leaves behind. *)
Definition appended (b b' : Buffer) (d : list byte) : Prop :=
  wf b' ∧ view b' = view b ++ d ∧
  (in_place b (zlen d) → zlen (buffer_ b') = zlen (buffer_ b)) ∧
  (¬ in_place b (zlen d) → zlen (buffer_ b') = writerIndex_ b + zlen d) ∧
  KCheapPrepend `min` readerIndex_ b ≤ readerIndex_ b'.

Lemma appended_bound b b' d :
  appended b b' d → zlen (buffer_ b') ≤ zlen (buffer_ b) `max` (writerIndex_ b + zlen d).
Proof.
  intros (? & _ & Hin & Hout & _).
  destruct (decide (zlen d ≤ zlen (buffer_ b) - writerIndex_ b)); [rewrite Hin; wf_lia|].
  destruct (decide (zlen d + KCheapPrepend ≤ readerIndex_ b + (zlen (buffer_ b) - writerIndex_ b)));
    [rewrite Hin; wf_lia|rewrite Hout; wf_lia].
Qed.

Lemma append_ok b data len :
  wf b → 0 ≤ len ≤ zlen data → room b len →
  wp (append data len) (λ _ b', appended b b' (ztake len data)) b.
Proof.
  intros Hb Hlen Hroom. unfold append. wp_go.
  assert (Hd : zlen (ztake len data) = len) by (by apply zlen_ztake).
  eapply wp_mono; [apply ensureWritableBytes_spec; (done || lia)|].
  cbv beta. intros _ b1 (Hb1 & Hv1 & Hroom1 & Hin & Hout & Hfront). wp_go.
  eapply wp_lift; [apply mem_read_ok; lia|]. wp_go. unfold zslice. rewrite zdrop_0.
  unfold beginWrite.
  destruct (mem_write_ok (buffer_ b1) (writerIndex_ b1) (ztake len data)) as (l & Hl & Hlen' & El);
    [wf_lia|lia|].
  eapply wp_lift; [done|]. wp_go.
  destruct (wf_view_write b1 l (ztake len data)) as [Hw Hv]; [done|lia|done|done|].
  eapply wp_mono; [apply hasWritten_spec|].
  - split; simpl; rewrite ?Hlen'; wf_lia.
  - simpl. lia.
  - cbv beta. intros _ b' [-> _]. unfold appended. rewrite Hd in *.
    split_and!; [done|by rewrite <- Hv1|intros; simpl; rewrite Hlen'; auto..|done].
Qed.

Lemma append_fails b data len :
  wf b → 0 ≤ len ≤ max_size → ¬ room b len → faults (append data len) LengthError b.
Proof. intros. by apply faults_bind_l, ensureWritableBytes_full. Qed.

Lemma prepend_spec b data len :
  wf b → 0 ≤ len ≤ zlen data → len ≤ readerIndex_ b →
  wp (prepend data len)
     (λ _ b', wf b' ∧ view b' = ztake len data ++ view b ∧
              zlen (buffer_ b') = zlen (buffer_ b) ∧ readerIndex_ b' = readerIndex_ b - len) b.
Proof.
  intros Hb Hlen Hfits. unfold prepend. wp_go. rewrite prependable_eq by done.
  rewrite u64_small by wf_lia. apply wp_assert; [lia|]. wp_go.
  eapply wp_lift; [apply mem_read_ok; lia|]. wp_go. unfold zslice. rewrite zdrop_0.
  rewrite u64_small by wf_lia. simpl.
  assert (Hd : zlen (ztake len data) = len) by (by apply zlen_ztake).
  destruct (mem_write_ok (buffer_ b) (readerIndex_ b - len) (ztake len data))
    as (l & Hl & Hlen' & El); [lia|wf_lia|].
  eapply wp_lift; [done|]. wp_go. simpl.
  split_and!; [split; simpl; rewrite ?Hlen'; wf_lia| |done|done].
  unfold view. simpl.
  replace (writerIndex_ b - _) with (len + (writerIndex_ b - readerIndex_ b)) by lia.
  rewrite zslice_split by wf_lia. rewrite El. f_equal.
  - rewrite <- Hd at 2. apply zslice_write_at; wf_lia.
  - replace (readerIndex_ b - len + len) with (readerIndex_ b) by lia.
    apply zslice_write_after; wf_lia.
Qed.

Lemma prepend_fails b data len :
  wf b → readerIndex_ b < len → faults (prepend data len) AssertFailed b.
Proof.
  intros Hb Hlen. apply (faults_bind_r _ _ _ b b b); [done|]. rewrite prependable_eq by done.
  rewrite (u64_small (readerIndex_ b)) by wf_lia. apply faults_bind_l. unfold faults, cassert.
  by destruct (Z.leb_spec len (readerIndex_ b)); [lia|].
Qed.

(** *** Lines *)

(** The first line of a byte sequence, its newline included, and what follows it. *)
Fixpoint break_line (q : list byte) : option (list byte * list byte) :=
  match q with
  | [] => None
  | x :: q' =>
      if decide (x = newline) then Some ([x], q')
      else '(line, rest) ← break_line q'; Some (x :: line, rest)
  end.

Lemma memchr_break q :
  match memchr newline q with
  | None => break_line q = None
  | Some n => 0 ≤ n < zlen q ∧ break_line q = Some (ztake (n + 1) q, zdrop (n + 1) q)
  end.
Proof.
  induction q as [|x q IH]; simpl; [done|].
  rewrite zlen_cons. destruct (Byte.eqb x newline) eqn:E.
  - apply Byte.byte_dec_bl in E as ->. rewrite decide_True by done.
    pose proof (zlen_nonneg q). split; [lia|done].
  - rewrite decide_False.
    2:{ intros ->. by rewrite (Byte.byte_dec_lb eq_refl) in E. }
    destruct (memchr newline q) as [n|]; simpl; [|by rewrite IH].
    destruct IH as [Hn ->]. simpl. split; [lia|].
    unfold ztake, zdrop. replace (Z.to_nat (Z.succ n + 1)) with (S (Z.to_nat (n + 1))) by lia.
    done.
Qed.

Lemma getLine_spec b :
  wf b →
  wp getLine
     (λ r b', match break_line (view b) with
              | None => r = None ∧ b' = b
              | Some (line, rest) => r = Some line ∧ consumed b b' (zlen line) ∧ view b' = rest
              end) b.
Proof.
  intros Hb. unfold getLine. wp_go. rewrite readable_view by done.
  eapply wp_lift; [by apply read_view|]. wp_go. pose proof (memchr_break (view b)) as Hm.
  destruct (memchr newline (view b)) as [n|].
  - destruct Hm as [Hn ->]. wp_go. eapply wp_lift; [apply read_prefix; (done || lia)|]. wp_go.
    rewrite zlen_ztake by lia. eapply wp_mono; [apply retrieve_spec; (done || lia)|].
    cbv beta. intros _ b' Hc. wp_go. split_and!; [done|done|apply Hc].
  - wp_go. by rewrite Hm.
Qed.

(** *** Reading from a descriptor *)

Lemma iov_sum w : 0 ≤ w → foldr Z.add 0 (iov_lengths w) ≤ w + extrabuf_size.
Proof. unfold iov_lengths. intros. case_cmp; simpl; unfold extrabuf_size in *; lia. Qed.

Lemma iov_nonneg w : 0 ≤ w → Forall (Z.le 0) (iov_lengths w).
Proof. unfold iov_lengths. intros. case_cmp; repeat constructor; unfold extrabuf_size; lia. Qed.

(** [E] may contain the end that a vector which cannot grow leads to. *)
Lemma readFd_any {E : fault → Prop} b readv d :
  wf b → readv (iov_lengths (zlen (buffer_ b) - writerIndex_ b)) = RvData d →
  zlen d ≤ foldr Z.add 0 (iov_lengths (zlen (buffer_ b) - writerIndex_ b)) →
  zlen (buffer_ b) + zlen d ≤ max_size ∨ E LengthError →
  wpf E (readFd readv)
     (λ r b', r = (zlen d, None) ∧ wf b' ∧ view b' = view b ++ d ∧
              KCheapPrepend `min` readerIndex_ b ≤ readerIndex_ b' ∧
              zlen (buffer_ b') ≤ zlen (buffer_ b) + zlen d) b.
Proof.
  intros Hb Hr Hroom Hmax. unfold readFd. wp_go. rewrite writable_eq, Hr by done.
  set (w := zlen (buffer_ b) - writerIndex_ b) in *. wp_go. pose proof (zlen_nonneg d).
  assert (Ht : zlen (ztake w d) = w `min` zlen d) by (apply zlen_ztake_min; subst w; wf_lia).
  assert (Hd : zlen (zdrop w d) = zlen d - w `min` zlen d) by (apply zlen_zdrop_min; subst w; wf_lia).
  destruct (mem_write_ok (buffer_ b) (writerIndex_ b) (ztake w d)) as (l & Hl & Hlen & El);
    [wf_lia|subst w; lia|].
  eapply wp_lift; [done|]. wp_go.
  destruct (mem_write_ok extrabuf_init 0 (zdrop w d)) as (x & Hx & Hxlen & Ex); [done| |].
  { rewrite Hd. unfold extrabuf_init. rewrite zlen_replicate by done.
    pose proof (iov_sum w ltac:(subst w; wf_lia)). unfold extrabuf_size in *. lia. }
  eapply wp_lift; [done|]. wp_go.
  destruct (wf_view_write b l (ztake w d)) as [Hw Hv]; [done|subst w; lia|done|done|].
  case_cmp; wp_go.
  - rewrite (ztake_ge w d) in * by lia. simpl. rewrite u64_small by (subst w; wf_lia).
    split_and!; [done|done|done|simpl; lia|simpl; lia].
  - simpl. rewrite Hlen. replace (zlen (buffer_ b)) with (writerIndex_ b + zlen (ztake w d)) by lia.
    assert (Hx0 : zlen d - w ≤ extrabuf_size) by (pose proof (iov_sum w ltac:(subst w; wf_lia)); lia).
    rewrite u64_small by (unfold extrabuf_size in *; unfold is_u64, u64_modulus; lia).
    assert (Hxd : ztake (zlen d - w) x = zdrop w d).
    { rewrite Ex. replace (zlen d - w) with (zlen (zdrop w d)) by lia.
      rewrite ztake_0, app_nil_l, ztake_app, Z.sub_diag, ztake_0, app_nil_r by lia.
      by rewrite ztake_ge. }
    set (b1 := set_writer _ _). assert (Hx2 : 0 ≤ zlen d - w ≤ zlen x).
    { split; [lia|]. rewrite Hxlen. unfold extrabuf_init. rewrite zlen_replicate by done.
      pose proof (iov_sum w ltac:(subst w; wf_lia)). unfold extrabuf_size in *. lia. }
    assert (Hroom1 : room b1 (zlen d - w) ∨ ¬ room b1 (zlen d - w) ∧ E LengthError).
    { destruct Hmax as [Hmax|HE].
      2:{ assert (Hdec : room b1 (zlen d - w) ∨ ¬ room b1 (zlen d - w)) by (unfold room; lia).
          destruct Hdec; [by left|by right]. }
      left. right; right. simpl. rewrite Ht. subst w. wf_lia. }
    destruct Hroom1 as [Hroom1|[Hfull HE]].
    2:{ unfold wpf. rewrite (append_fails b1 x (zlen d - w)); [done|done| |done].
        pose proof (iov_sum w ltac:(subst w; wf_lia)). unfold extrabuf_size, max_size in *. subst w. wf_lia. }
    eapply wp_mono; [apply wp_weaken; by apply append_ok|]. subst b1.
    cbv beta. rewrite Hxd. intros _ b' Ha. pose proof (appended_bound _ _ _ Ha) as Hbound.
    simpl in Hbound. destruct Ha as (Hw' & Hv' & _ & _ & Hf). wp_go.
    split_and!; [done|done| |exact Hf|].
    + rewrite Hv'. unfold set_writer, set_buffer. simpl. by rewrite Hv, <- app_assoc, ztake_zdrop.
    + rewrite Hlen, Ht, Hd in *. subst w. wf_lia.
Qed.

Lemma readFd_data b readv d :
  wf b → readv (iov_lengths (zlen (buffer_ b) - writerIndex_ b)) = RvData d →
  zlen d ≤ foldr Z.add 0 (iov_lengths (zlen (buffer_ b) - writerIndex_ b)) →
  zlen (buffer_ b) + zlen d ≤ max_size →
  wp (readFd readv)
     (λ r b', r = (zlen d, None) ∧ wf b' ∧ view b' = view b ++ d ∧
              KCheapPrepend `min` readerIndex_ b ≤ readerIndex_ b' ∧
              zlen (buffer_ b') ≤ zlen (buffer_ b) + zlen d) b.
Proof. intros. apply readFd_any; [done..|by left]. Qed.

Lemma readFd_error b readv e :
  wf b → readv (iov_lengths (zlen (buffer_ b) - writerIndex_ b)) = RvError e →
  readFd readv b = Ok ((-1, Some e), b).
Proof.
  intros Hb Hr. unfold readFd. erewrite bind_ok by done. by rewrite writable_eq, Hr.
Qed.

(** ** The contract: a byte queue

    What a client of [Buffer] may rely on: the bytes, and how much room in front
    of them is certainly left for [prepend] ([front]; 8 on a fresh buffer and
    after everything was retrieved). *)

Record queue : Type := mkQueue { bytes : list byte; front : Z }.

Inductive buf_op : Type :=
| OAppend (d : list byte)
| OPrepend (d : list byte)
| ORetrieve (n : Z)
| ORetrieveAll
| ORetrieveAsString (n : Z)
| ORetrieveAllString
| OGetLine
| OReadFd (a : readv_answer).

Inductive buf_res : Type :=
| RUnit
| RBytes (d : list byte)
| RLine (l : option (list byte))
| RRead (n : Z) (errno : option Z).

Definition run_op (o : buf_op) : prog Buffer buf_res :=
  match o with
  | OAppend d => append d (zlen d) ;; mret RUnit
  | OPrepend d => prepend d (zlen d) ;; mret RUnit
  | ORetrieve n => retrieve n ;; mret RUnit
  | ORetrieveAll => retrieveAll ;; mret RUnit
  | ORetrieveAsString n => RBytes <$> retrieveAsString n
  | ORetrieveAllString => RBytes <$> retrieveAllString
  | OGetLine => RLine <$> getLine
  | OReadFd a => '(n, e) ← readFd (λ _, a); mret (RRead n e)
  end.

Fixpoint run_ops (ops : list buf_op) : prog Buffer (list buf_res) :=
  match ops with
  | [] => mret []
  | o :: ops' => r ← run_op o; rs ← run_ops ops'; mret (r :: rs)
  end.

Definition enqueue (d : list byte) (s : queue) : queue :=
  mkQueue (bytes s ++ d) (KCheapPrepend `min` front s).
Definition dequeue (n : Z) (s : queue) : queue :=
  mkQueue (zdrop n (bytes s)) (if n <? zlen (bytes s) then front s + n else KCheapPrepend).

(** One operation of the contract; [None] is a call outside of it.  The contract of
    [readFd] takes any answer that fits the stack buffer it reads into. *)
Definition spec_op (o : buf_op) (s : queue) : option (buf_res * queue) :=
  match o with
  | OAppend d => Some (RUnit, enqueue d s)
  | OPrepend d =>
      if zlen d <=? front s
      then Some (RUnit, mkQueue (d ++ bytes s) (front s - zlen d)) else None
  | ORetrieve n =>
      if (0 <=? n) && (n <=? zlen (bytes s)) then Some (RUnit, dequeue n s) else None
  | ORetrieveAll => Some (RUnit, mkQueue [] KCheapPrepend)
  | ORetrieveAsString n =>
      if (0 <=? n) && (n <=? zlen (bytes s))
      then Some (RBytes (ztake n (bytes s)), dequeue n s) else None
  | ORetrieveAllString => Some (RBytes (bytes s), dequeue (zlen (bytes s)) s)
  | OGetLine =>
      match break_line (bytes s) with
      | None => Some (RLine None, s)
      | Some (line, _) => Some (RLine (Some line), dequeue (zlen line) s)
      end
  | OReadFd (RvError e) => Some (RRead (-1) (Some e), s)
  | OReadFd (RvData d) =>
      if zlen d <=? extrabuf_size then Some (RRead (zlen d) None, enqueue d s) else None
  end.

Fixpoint spec_ops (ops : list buf_op) (s : queue) : option (list buf_res * queue) :=
  match ops with
  | [] => Some ([], s)
  | o :: ops' =>
      '(r, s1) ← spec_op o s;
      '(rs, s2) ← spec_ops ops' s1;
      Some (r :: rs, s2)
  end.

(** How many bytes an operation may add to the vector. *)
Definition op_growth (o : buf_op) : Z :=
  match o with
  | OAppend d | OReadFd (RvData d) => zlen d
  | _ => 0
  end.

Definition ops_growth (ops : list buf_op) : Z := foldr (λ o n, op_growth o + n) 0 ops.

Definition refines (b : Buffer) (s : queue) : Prop :=
  wf b ∧ view b = bytes s ∧ 0 ≤ front s ≤ readerIndex_ b.

Lemma refines_consumed b b' s n :
  refines b s → 0 ≤ n → consumed b b' n → refines b' (dequeue n s).
Proof.
  intros (Hb & Hv & Hf) Hn (Hb' & Hv' & Hlen & Hr). rewrite Hv in *.
  split_and!; [done|done| |]; rewrite ?Hr; unfold dequeue; simpl; case_cmp; unfold KCheapPrepend; lia.
Qed.

Lemma refines_enqueue b b' s d :
  refines b s → wf b' → view b' = view b ++ d →
  KCheapPrepend `min` readerIndex_ b ≤ readerIndex_ b' → refines b' (enqueue d s).
Proof.
  intros (Hb & Hv & Hf) Hb' Hv' Hr.
  split_and!; [done|by rewrite Hv', Hv| |]; simpl; unfold KCheapPrepend in *; lia.
Qed.

(** One operation inside the contract, on a buffer with space for what it adds. *)
Lemma run_op_refines b s o r s' :
  refines b s → spec_op o s = Some (r, s') →
  zlen (buffer_ b) + op_growth o ≤ max_size →
  wp (run_op o) (λ r' b', r' = r ∧ refines b' s' ∧
     zlen (buffer_ b') ≤ zlen (buffer_ b) + op_growth o) b.
Proof.
  intros HR Hs Hmax. pose proof HR as (Hb & Hv & Hf).
  destruct o as [d|d|n| |n| | |a]; simpl in Hs, Hmax |- *.
  - simplify_eq. wp_go.
    eapply wp_mono; [apply append_ok; [done|pose proof (zlen_nonneg d); lia|wf_lia]|].
    cbv beta. intros _ b' Ha. wp_go. rewrite ztake_ge in Ha by lia.
    pose proof (appended_bound _ _ _ Ha). destruct Ha as (?&?&?&?&?).
    split_and!; [done|by eapply refines_enqueue|pose proof (zlen_nonneg d); wf_lia].
  - destruct (Z.leb_spec (zlen d) (front s)); simplify_eq. pose proof (zlen_nonneg d). wp_go.
    wp_use (apply prepend_spec; (done || lia)). rewrite (ztake_ge _ d) in * by lia.
    split_and!; [done| |lia]. split_and!; simpl; [done|congruence|lia|lia].
  - destruct (_ && _) eqn:E in Hs; simplify_eq. apply andb_true_iff in E as [?%Z.leb_le ?%Z.leb_le].
    wp_go. eapply wp_mono; [apply retrieve_spec; [done|by rewrite Hv]|].
    cbv beta. intros _ b' Hc. wp_go. split_and!; [done|by eapply refines_consumed|].
    destruct Hc as (_&_&->&_). lia.
  - simplify_eq. unfold retrieveAll. wp_go.
    split_and!; [done|split_and!; [split; wf_lia|done|done|done]|simpl; lia].
  - destruct (_ && _) eqn:E in Hs; simplify_eq. apply andb_true_iff in E as [?%Z.leb_le ?%Z.leb_le].
    wp_go. eapply wp_mono; [apply retrieveAsString_spec; [done|by rewrite Hv]|].
    cbv beta. intros ? b' [-> Hc]. rewrite Hv. split_and!; [done|by eapply refines_consumed|].
    destruct Hc as (_&_&->&_). lia.
  - simplify_eq. wp_go. unfold retrieveAllString. wp_go. rewrite readable_view, Hv by done.
    eapply wp_mono; [apply retrieveAsString_spec; [done|rewrite Hv; pose proof (zlen_nonneg (bytes s)); lia]|].
    cbv beta. intros ? b' [-> Hc]. rewrite Hv, ztake_ge by done.
    split_and!; [done|eapply refines_consumed; [done|apply zlen_nonneg|done]|].
    destruct Hc as (_&_&->&_). lia.
  - wp_go. eapply wp_mono; [by apply getLine_spec|]. cbv beta. intros r' b' Hr. rewrite Hv in Hr.
    destruct (break_line (bytes s)) as [[line rest]|]; simplify_eq.
    + destruct Hr as (-> & Hc & _). split_and!; [done|eapply refines_consumed; [done|apply zlen_nonneg|done]|].
      destruct Hc as (_&_&->&_). lia.
    + destruct Hr as [-> ->]. split_and!; [done|exact HR|lia].
  - wp_go. destruct a as [e|d].
    + simplify_eq. eapply wp_mono.
      { apply wp_ok. do 2 eexists. split; [by apply readFd_error|].
        instantiate (1 := λ r b', r = (-1, Some e) ∧ b' = b). done. }
      cbv beta. intros ? ? [-> ->]. wp_go. split_and!; [done|exact HR|lia].
    + destruct (Z.leb_spec (zlen d) extrabuf_size); simplify_eq.
      eapply wp_mono; [apply readFd_data; [done|done| |lia]|].
      { unfold iov_lengths. case_cmp; simpl; wf_lia. }
      cbv beta. intros ? b' (-> & Hb' & Hv' & Hfr & Hlen). wp_go.
      split_and!; [done|by eapply refines_enqueue|lia].
Qed.

Lemma refines_default : refines Buffer_default (mkQueue [] KCheapPrepend).
Proof. split_and!; [apply wf_default|done|done|done]. Qed.

Lemma op_growth_nonneg o : 0 ≤ op_growth o.
Proof. destruct o as [d| | | | | | |[|d]]; simpl; try done; apply zlen_nonneg. Qed.

Lemma ops_growth_nonneg ops : 0 ≤ ops_growth ops.
Proof.
  induction ops as [|o ops IH]; unfold ops_growth in *; simpl; [done|].
  pose proof (op_growth_nonneg o). lia.
Qed.

Lemma run_ops_refines ops b s rs s' :
  refines b s → spec_ops ops s = Some (rs, s') → zlen (buffer_ b) + ops_growth ops ≤ max_size →
  wp (run_ops ops) (λ rs' b', rs' = rs ∧ refines b' s') b.
Proof.
  induction ops as [|o ops IH] in b, s, rs |- *; intros HR Hs Hmax; simpl in Hs; cbn [run_ops].
  { simplify_eq. by wp_go. }
  destruct (spec_op o s) as [[r s1]|] eqn:E1; [|done]. simpl in Hs.
  destruct (spec_ops ops s1) as [[rs1 s2]|] eqn:E2; [|done]. simpl in Hs. simplify_eq.
  unfold ops_growth in Hmax, IH. simpl in Hmax.
  pose proof (op_growth_nonneg o). pose proof (ops_growth_nonneg ops) as Hg. unfold ops_growth in Hg.
  wp_go. eapply wp_mono; [eapply run_op_refines; [done|done|lia]|].
  cbv beta. intros ? b1 (-> & HR1 & Hlen). wp_go.
  eapply wp_mono; [eapply IH; [done|done|lia]|]. cbv beta. intros ? b2 [-> HR2]. by wp_go.
Qed.

(** ** Properties *)

(** C36: a buffer is a byte queue.  Whatever sequence of appends, prepends, retrieves, line reads and
    descriptor reads a client of a fresh [Buffer] makes inside the contract [spec_op], every call
    returns (no assertion fails, no index leaves the vector), the results are those of the queue and
    the readable bytes are the bytes of the queue, as long as the vector may grow to the bytes added. *)
Theorem buffer_refines_queue ops rs s' :
  spec_ops ops (mkQueue [] KCheapPrepend) = Some (rs, s') →
  KInititalSize + ops_growth ops ≤ max_size →
  ∃ b', run_ops ops Buffer_default = Ok (rs, b') ∧ wf b' ∧ view b' = bytes s' ∧
        front s' ≤ PrependableBytes b'.
Proof.
  intros Hs Hmax.
  destruct (wp_inv (run_ops_refines _ _ _ _ _ refines_default Hs Hmax))
    as (rs' & b' & Hrun & -> & Hb' & Hv & Hf).
  exists b'. split_and!; [done|done|done|]. rewrite prependable_eq by done. lia.
Qed.

Definition ascii_bytes (l : list Z) : list byte :=
  (λ z, default x00 (Byte.of_N (Z.to_N z))) <$> l.

Lemma buffer_refines_queue_witness :
  ∃ b', run_ops [OAppend (ascii_bytes [97; 98; 10; 99]); OPrepend (ascii_bytes [35]);
                 OReadFd (RvData (ascii_bytes [100; 10])); OGetLine; ORetrieve 1; OGetLine;
                 OGetLine; ORetrieveAllString] Buffer_default
        = Ok ([RUnit; RUnit; RRead 2 None; RLine (Some (ascii_bytes [35; 97; 98; 10])); RUnit;
               RLine (Some (ascii_bytes [100; 10])); RLine None; RBytes []], b') ∧
        wf b' ∧ view b' = [] ∧ 8 ≤ PrependableBytes b'.
Proof.
  apply (buffer_refines_queue _ _ (mkQueue [] 8)); [reflexivity | vm_compute; discriminate].
Defined.

(** [append] on every branch.  With the bytes in front of the pointer and a length the object
    can have, it returns exactly when there is room, behind the data, by moving the data to the front,
    or by growing the vector; then the data is at the end of the readable bytes and the vector has its
    old size in the first two cases and exactly [writerIndex_ + len] bytes in the third.  Otherwise it
    ends with the [std::length_error] of the vector; the assertions inside never fail. *)
Theorem append_total b data len :
  wf b → 0 ≤ len ≤ zlen data → len ≤ max_size →
  (room b len → wp (append data len) (λ _ b', appended b b' (ztake len data)) b) ∧
  (¬ room b len → append data len b = Fault LengthError).
Proof.
  intros Hb Hlen Hmax. split; intros Hroom; [by apply append_ok|].
  apply append_fails; [done|lia|done].
Qed.

Lemma append_total_witness :
  wp (append (ascii_bytes [1; 2; 3]) 2)
     (λ _ b', appended Buffer_default b' (ztake 2 (ascii_bytes [1; 2; 3]))) Buffer_default.
Proof.
  apply (append_total Buffer_default (ascii_bytes [1; 2; 3]) 2).
  - apply wf_default.
  - vm_compute. split; discriminate.
  - vm_compute. discriminate.
  - left. vm_compute. discriminate.
Defined.

(** C37: [readFd] loses no byte.  Whatever the kernel answers to the vectors it is given (it may look
    at their lengths; it never returns more than they hold), the bytes it delivered are appended in order
    to the readable bytes, those beyond the vector's free space through the stack buffer, and their
    number is returned; on an error the buffer is as before and the errno is stored. *)
Theorem readFd_keeps_all b readv :
  wf b → readv_law readv → zlen (buffer_ b) + (writableBytes b `max` 0 + extrabuf_size) ≤ max_size →
  wp (readFd readv)
     (λ r b', match readv (iov_lengths (zlen (buffer_ b) - writerIndex_ b)) with
              | RvError e => r = (-1, Some e) ∧ b' = b
              | RvData d => r = (zlen d, None) ∧ wf b' ∧ view b' = view b ++ d
              end) b.
Proof.
  intros Hb Hlaw Hmax. rewrite writable_eq in Hmax by done.
  destruct (readv _) as [e|d] eqn:Hr.
  - unfold wpf. by rewrite (readFd_error _ _ _ Hb Hr).
  - assert (Hw : 0 ≤ zlen (buffer_ b) - writerIndex_ b) by wf_lia.
    pose proof (Hlaw _ _ (iov_nonneg _ Hw) Hr) as Hd.
    pose proof (iov_sum _ Hw).
    eapply wp_mono; [apply readFd_data; [done|done|done|wf_lia]|].
    cbv beta. intros r b' (-> & Hb' & Hv & _). done.
Qed.

(** A kernel with [n] bytes to read: it fills the vectors from the front. *)
Definition sample_kernel (n : nat) (lens : list Z) : readv_answer :=
  RvData (replicate (n `min` Z.to_nat (foldr Z.add 0 lens)) x41).

Lemma sample_kernel_law n : readv_law (sample_kernel n).
Proof.
  intros lens d Hlens Hd. injection Hd as <-. unfold zlen. rewrite length_replicate.
  assert (0 ≤ foldr Z.add 0 lens); [|lia]. clear -Hlens. induction Hlens; simpl; lia.
Qed.

Lemma readFd_keeps_all_witness :
  wp (readFd (sample_kernel 2000))
     (λ r b', match sample_kernel 2000 (iov_lengths 1016) with
              | RvError e => r = (-1, Some e) ∧ b' = Buffer_default
              | RvData d => r = (zlen d, None) ∧ wf b' ∧ view b' = view Buffer_default ++ d
              end) Buffer_default.
Proof.
  apply (readFd_keeps_all Buffer_default (sample_kernel 2000)).
  - apply wf_default.
  - apply sample_kernel_law.
  - vm_compute. discriminate.
Defined.

(** The bytes of a list of lines, each ended by a newline. *)
Definition unlines (ls : list (list byte)) : list byte := concat ((λ l, l ++ [newline]) <$> ls).

Lemma break_line_app l rest :
  newline ∉ l → break_line (l ++ newline :: rest) = Some (l ++ [newline], rest).
Proof.
  induction l as [|x l IH]; simpl; [done|]. intros Hn. rewrite decide_False by set_solver.
  rewrite IH by set_solver. done.
Qed.

Lemma spec_ops_cons o ops s :
  spec_ops (o :: ops) s =
  '(r, s1) ← spec_op o s; '(rs, s2) ← spec_ops ops s1; Some (r :: rs, s2).
Proof. done. Qed.

Lemma spec_getLines ls f :
  Forall (λ l, newline ∉ l) ls →
  ∃ f', spec_ops (replicate (S (length ls)) OGetLine) (mkQueue (unlines ls) f) =
        Some (((λ l, RLine (Some (l ++ [newline]))) <$> ls) ++ [RLine None], mkQueue [] f').
Proof.
  induction ls as [|l ls IH] in f |- *; intros Hl.
  - exists f. done.
  - apply Forall_cons_1 in Hl as [Hn Hl].
    assert (E : unlines (l :: ls) = l ++ newline :: unlines ls)
      by (unfold unlines; simpl; by rewrite <- app_assoc).
    change (replicate _ _) with (OGetLine :: replicate (S (length ls)) OGetLine).
    rewrite spec_ops_cons. cbn [spec_op bytes]. rewrite E, (break_line_app l _ Hn).
    cbn [mbind option_bind].
    assert (D : zdrop (zlen (l ++ [newline])) (l ++ newline :: unlines ls) = unlines ls).
    { replace (l ++ newline :: unlines ls) with ((l ++ [newline]) ++ unlines ls) by by rewrite <- app_assoc.
      rewrite zdrop_app by apply zlen_nonneg. by rewrite zdrop_ge, Z.sub_diag by lia. }
    unfold dequeue. cbn [bytes front]. rewrite D.
    match goal with |- context [mkQueue (unlines ls) ?g] => destruct (IH g Hl) as [f' IHf] end.
    exists f'.
    rewrite IHf. done.
Qed.

(** Lines round trip.  After the lines [ls] (no newline inside a line) were appended to a fresh
    buffer, [getLine] returns them one by one, each with its newline, and then nothing; the buffer
    ends up empty. *)
Theorem getLine_roundtrip ls :
  Forall (λ l, newline ∉ l) ls → KInititalSize + zlen (unlines ls) ≤ max_size →
  ∃ b', run_ops (OAppend (unlines ls) :: replicate (S (length ls)) OGetLine) Buffer_default =
        Ok (RUnit :: ((λ l, RLine (Some (l ++ [newline]))) <$> ls) ++ [RLine None], b') ∧
        wf b' ∧ view b' = [].
Proof.
  intros Hl Hmax.
  destruct (spec_getLines ls 8 Hl) as [f' Hs].
  assert (Hg : ∀ n, ops_growth (replicate n OGetLine) = 0).
  { intros n. unfold ops_growth. by induction n. }
  assert (Hs' : spec_ops (OAppend (unlines ls) :: replicate (S (length ls)) OGetLine)
    (mkQueue [] KCheapPrepend) =
    Some (RUnit :: ((λ l, RLine (Some (l ++ [newline]))) <$> ls) ++ [RLine None], mkQueue [] f')).
  { cbn [spec_ops spec_op mbind option_bind]. unfold enqueue. simpl bytes. simpl front.
    change (KCheapPrepend `min` KCheapPrepend) with 8. rewrite app_nil_l, Hs. done. }
  assert (Hsz : KInititalSize + ops_growth (OAppend (unlines ls) :: replicate (S (length ls)) OGetLine)
    ≤ max_size).
  { unfold ops_growth in *. cbn [foldr op_growth]. rewrite Hg. lia. }
  destruct (wp_inv (run_ops_refines _ _ _ _ _ refines_default Hs' Hsz))
    as (? & b' & Hrun & -> & Hb' & Hv & _).
  by exists b'.
Qed.

Lemma getLine_roundtrip_witness :
  ∃ b', run_ops (OAppend (unlines [ascii_bytes [71; 69; 84]; []; ascii_bytes [120]]) ::
                 replicate 4 OGetLine) Buffer_default =
        Ok ([RUnit; RLine (Some (ascii_bytes [71; 69; 84; 10])); RLine (Some (ascii_bytes [10]));
             RLine (Some (ascii_bytes [120; 10])); RLine None], b') ∧ wf b' ∧ view b' = [].
Proof.
  apply (getLine_roundtrip [ascii_bytes [71; 69; 84]; []; ascii_bytes [120]]).
  - repeat constructor; apply (bool_decide_unpack _); reflexivity.
  - vm_compute. discriminate.
Defined.
