(* ===== verification/ByteQueue.v ===== *)
(** * ByteQueue: what a connection relies on of its buffers

    [TcpConnection] appends to, writes out of and reads into two byte buffers.  The
    interface states what it needs of them; [Buffer] implements it.  Running out of
    address space ([LengthError]) is the one way in which an operation may not
    return. *)
From S2P Require Import Prelude Buffer.

Class ByteQueue (Q : Type) : Type := {
  q_ok : Q → Prop;
  q_bytes : Q → list byte;
  q_init : Q;
  q_readable : Q → Z;
  q_contents : Q → outcome (list byte);        (** the bytes from [peek()] on *)
  q_append : list byte → Z → prog Q ();
  q_retrieve : Z → prog Q ();
  q_readFd : (list Z → readv_answer) → prog Q (Z * option Z);
  q_init_ok : q_ok q_init;
  q_init_bytes : q_bytes q_init = [];
  q_readable_spec b : q_ok b → q_readable b = zlen (q_bytes b);
  q_contents_spec b : q_ok b → q_contents b = Ok (q_bytes b);
  q_append_spec (E : fault → Prop) b d : q_ok b → zlen d < 2 ^ 63 → E LengthError →
    wpf E (q_append d (zlen d)) (λ _ b', q_ok b' ∧ q_bytes b' = q_bytes b ++ d) b;
  q_retrieve_spec (E : fault → Prop) b n : q_ok b → 0 ≤ n ≤ zlen (q_bytes b) →
    wpf E (q_retrieve n) (λ _ b', q_ok b' ∧ q_bytes b' = zdrop n (q_bytes b)) b;
  q_readFd_spec (E : fault → Prop) b readv : q_ok b → readv_law readv → E LengthError →
    wpf E (q_readFd readv)
      (λ r b', q_ok b' ∧
         ((∃ d lens, readv lens = RvData d ∧ r = (zlen d, None) ∧ q_bytes b' = q_bytes b ++ d) ∨
          (∃ e, r = (-1, Some e) ∧ b' = b))) b
}.

(** [Buffer] is one. *)
#[export, refine] Instance buffer_queue : ByteQueue Buffer := {|
  q_ok := wf;
  q_bytes := view;
  q_init := Buffer_default;
  q_readable := readableBytes;
  q_contents b := mem_read (buffer_ b) (peek b) (readableBytes b);
  q_append := append;
  q_retrieve := retrieve;
  q_readFd := readFd
|}.
Proof.
  - apply wf_default.
  - apply view_default.
  - apply readable_view.
  - intros b Hb. by rewrite readable_view, read_view.
  - intros E b d Hb Hd HE. pose proof (zlen_nonneg d).
    assert (Hroom : room b (zlen d) ∨ ¬ room b (zlen d)) by (unfold room; lia).
    destruct Hroom as [Hroom|Hfull].
    + eapply wp_mono; [apply wp_weaken; apply append_ok; [done|lia|done]|].
      cbv beta. rewrite ztake_ge by lia. intros _ b' (? & ? & _). done.
    + unfold wpf. rewrite append_fails; [done|done|unfold max_size; lia|done].
  - intros E b n Hb Hn. eapply wp_mono; [apply wp_weaken; by apply retrieve_spec|].
    cbv beta. intros _ b' (? & ? & _). done.
  - intros E b readv Hb Hlaw HE.
    destruct (readv (iov_lengths (zlen (buffer_ b) - writerIndex_ b))) as [e|d] eqn:Hr.
    + unfold wpf. rewrite (readFd_error _ _ _ Hb Hr). split; [done|]. right. by exists e.
    + eapply wp_mono.
      { apply readFd_any; [done|exact Hr| |by right]. eapply Hlaw; [|exact Hr].
        apply iov_nonneg. wf_lia. }
      cbv beta. intros r b' (-> & ? & ? & _). split; [done|]. left. by eexists d, _.
Defined.
