(* ===== verification/LogStream.v ===== *)
(** * LogStream: [base::FixedBuffer], [base::LogStream] (base/log/LogStream.h, LogStream.cc)

    A log line is assembled in a fixed array with a write pointer.  Strings are
    dropped as a whole when they do not fit; numbers are formatted in place when at
    least [kMaxNumericSize] bytes are left.  The digit loops write through the raw
    pointer, so the model checks every byte they write against the array. *)
From S2P Require Import Prelude Printf.

(** ** FixedBuffer<SIZE> *)

Definition kSmallBuffer : Z := 4096.
Definition kMaxNumericSize : Z := 32.

(** [data_] has SIZE elements, [cur_] is the write pointer as an offset. *)
Record FixedBuffer : Type := mkFixedBuffer { data_ : list byte; cur_ : Z }.

(** The array is uninitialised: any contents. *)
Definition FixedBuffer_init (data : list byte) : FixedBuffer := mkFixedBuffer data 0.

Definition length_ (b : FixedBuffer) : Z := to_signed 32 (cur_ b).
Definition avail (b : FixedBuffer) : Z := to_signed 32 (zlen (data_ b) - cur_ b).
Definition reset (b : FixedBuffer) : FixedBuffer := mkFixedBuffer (data_ b) 0.
Definition bzero (b : FixedBuffer) : FixedBuffer :=
  mkFixedBuffer (replicate (length (data_ b)) x00) (cur_ b).

(** [add]: a pointer moved past the end of the array is undefined. *)
Definition add (len : Z) : prog FixedBuffer () :=
  b ← get;
  if cur_ b + len <=? zlen (data_ b)
  then put (mkFixedBuffer (data_ b) (cur_ b + len)) else raise UndefinedBehaviour.

Definition fb_append (buf : list byte) (len : Z) : prog FixedBuffer () :=
  b ← get;
  when_ (len <? u64 (avail b)) (
    d ← lift (mem_read buf 0 len);
    l ← lift (mem_write (data_ b) (cur_ b) d);
    put (mkFixedBuffer l (cur_ b)) ;;
    add len).

(** ** Numbers *)

(** The integer types [operator<<] is overloaded for. *)
Record int_type : Type := mkIntType { is_signed : bool; width : Z }.

Definition t_int : int_type := mkIntType true 32.
Definition t_unsigned : int_type := mkIntType false 32.
Definition t_long : int_type := mkIntType true 64.
Definition t_unsigned_long : int_type := mkIntType false 64.

Definition in_type (t : int_type) (v : Z) : Prop :=
  if is_signed t then - 2 ^ (width t - 1) ≤ v < 2 ^ (width t - 1) else 0 ≤ v < 2 ^ width t.

(** [v = -v] at type [t]. *)
Definition negate (t : int_type) (v : Z) : outcome Z :=
  if is_signed t then checked (width t) (- v) else Ok ((- v) mod 2 ^ width t).

(** [do { *p++ = digit(v % base); v /= base; } while (v > 0);] *)
Fixpoint emit_loop (fuel : nat) (base : Z) (digit : Z → byte) (v : Z) (l : list byte) (p : Z) :
    outcome (list byte * Z) :=
  match fuel with
  | O => Fault OutOfFuel
  | S fuel' =>
      l' ← mem_write l p [digit (Z.rem v base)];
      let v' := Z.quot v base in
      if 0 <? v' then emit_loop fuel' base digit v' l' (p + 1) else Ok (l', p + 1)
  end.

Definition digits_fuel : nat := 64.

(** [static_cast<char>(d) + '0'] stored into a [char]. *)
Definition dec_digit (d : Z) : byte := byte_of_Z (to_signed 8 d + 48).
(** [digits[d]] of the table "0123456789ABCDEF". *)
Definition hex_digit (d : Z) : byte := byte_of_Z (if d <? 10 then d + 48 else d + 55).

(** [std::reverse(first, last)] on a range of the array. *)
Definition reverse_range (l : list byte) (first last : Z) : outcome (list byte) :=
  d ← mem_read l first (last - first);
  mem_write l first (rev d).

(** The common end of both formatters: [*p = NUL; std::reverse(start, p);
    buffer_.add(p - buf)], where [buf] is the write pointer. *)
Definition finish_number (l : list byte) (buf start p : Z) : prog FixedBuffer () :=
  l ← lift (mem_write l p [x00]);
  l ← lift (reverse_range l start p);
  put (mkFixedBuffer l buf) ;;
  add (to_signed 32 (p - buf)).

Definition formatInteger (t : int_type) (v : Z) : prog FixedBuffer () :=
  b ← get;
  when_ (kMaxNumericSize <=? avail b) (
    let start := cur_ b in
    let negative := v <? 0 in
    v ← lift (if negative then negate t v else Ok v);
    '(l, p) ← lift (emit_loop digits_fuel 10 dec_digit v (data_ b) start);
    '(l, p) ← lift (if negative then l' ← mem_write l p [x2d]; Ok (l', p + 1) else Ok (l, p));
    finish_number l start start p).

Definition put_pointer (v : Z) : prog FixedBuffer () :=
  b ← get;
  when_ (kMaxNumericSize <=? avail b) (
    let buf := cur_ b in
    l ← lift (mem_write (data_ b) buf [x30]);
    l ← lift (mem_write l (buf + 1) [x78]);
    let start := buf + 2 in
    '(l, p) ← lift (emit_loop digits_fuel 16 hex_digit v l start);
    finish_number l buf start p).

(** [snprintf(buffer_.current(), kMaxNumericSize, "%.12g", v)]: [text] is what the
    C library prints for the number; it stores at most 31 characters and a NUL, and
    returns the length of the whole text. *)
Definition put_double (text : list byte) : prog FixedBuffer () :=
  b ← get;
  when_ (kMaxNumericSize <=? avail b) (
    l ← lift (mem_write (data_ b) (cur_ b) (ztake (kMaxNumericSize - 1) text ++ [x00]));
    put (mkFixedBuffer l (cur_ b)) ;;
    add (zlen text)).

(** ** operator<< *)

Definition put_bool (v : bool) : prog FixedBuffer () := fb_append (if v then [x31] else [x30]) 1.
Definition put_char (c : byte) : prog FixedBuffer () := fb_append [c] 1.
Definition put_short (v : Z) : prog FixedBuffer () := formatInteger t_int v.
Definition put_unsigned_short (v : Z) : prog FixedBuffer () := formatInteger t_unsigned v.

Definition null_text : list byte := [x28; x6e; x75; x6c; x6c; x29].

(** A C string is its bytes before the terminating NUL; [None] is a null pointer. *)
Definition put_cstr (str : option (list byte)) : prog FixedBuffer () :=
  match str with
  | Some s => fb_append s (zlen s)
  | None => fb_append null_text 6
  end.
Definition put_string (s : list byte) : prog FixedBuffer () := fb_append s (zlen s).

(** [append(const char*, int)]: the length is converted to [size_t]. *)
Definition append (data : list byte) (len : Z) : prog FixedBuffer () := fb_append data (u64 len).

(** ** Reading numbers back: the meaning of the printed texts *)

Definition dec_val (c : byte) : option Z :=
  let z := Z_of_byte c in if (48 <=? z) && (z <=? 57) then Some (z - 48) else None.
Definition hex_val (c : byte) : option Z :=
  let z := Z_of_byte c in
  if (48 <=? z) && (z <=? 57) then Some (z - 48)
  else if (65 <=? z) && (z <=? 70) then Some (z - 55) else None.

Fixpoint parse_from (base : Z) (val : byte → option Z) (acc : Z) (l : list byte) : option Z :=
  match l with
  | [] => Some acc
  | c :: l' => d ← val c; parse_from base val (acc * base + d) l'
  end.

(** A non-empty digit sequence without a superfluous leading zero. *)
Definition parse_num (base : Z) (val : byte → option Z) (l : list byte) : option Z :=
  match l with
  | [] => None
  | x30 :: _ :: _ => None
  | _ => parse_from base val 0 l
  end.

Definition parse_dec (l : list byte) : option Z :=
  match l with
  | x2d :: l' => Z.opp <$> parse_num 10 dec_val l'
  | _ => parse_num 10 dec_val l
  end.

Definition parse_pointer (l : list byte) : option Z :=
  match l with
  | x30 :: x78 :: l' => parse_num 16 hex_val l'
  | _ => None
  end.

(** ** Invariant and helper lemmas *)

Record fb_wf (b : FixedBuffer) : Prop := {
  fb_cur : 0 ≤ cur_ b ≤ zlen (data_ b);
  fb_size : zlen (data_ b) < 2 ^ 31
}.

(** What has been written so far. *)
Definition contents (b : FixedBuffer) : list byte := ztake (cur_ b) (data_ b).

(** [t] was written behind the contents, inside the array. *)
Definition written (b b' : FixedBuffer) (t : list byte) : Prop :=
  fb_wf b' ∧ zlen (data_ b') = zlen (data_ b) ∧ contents b' = contents b ++ t.

Lemma avail_eq b : fb_wf b → avail b = zlen (data_ b) - cur_ b.
Proof.
  intros [? ?]. apply to_signed_id; [lia|]. unfold in_signed.
  change (32 - 1) with 31. apply andb_true_iff. rewrite Z.leb_le, Z.ltb_lt. lia.
Qed.

Lemma zlen_contents b : fb_wf b → zlen (contents b) = cur_ b.
Proof. intros [? ?]. by apply zlen_ztake. Qed.

Lemma contents_init data : contents (FixedBuffer_init data) = [].
Proof. done. Qed.

(** Writing at the end of a known prefix extends the prefix. *)
Lemma mem_write_snoc (l : list byte) c d :
  ztake (zlen c) l = c → zlen c + zlen d ≤ zlen l →
  ∃ l', mem_write l (zlen c) d = Ok l' ∧ zlen l' = zlen l ∧ ztake (zlen (c ++ d)) l' = c ++ d.
Proof.
  intros Hc Hlen. pose proof (zlen_nonneg c). pose proof (zlen_nonneg d).
  destruct (mem_write_ok l (zlen c) d) as (l' & -> & Hl' & ->); [lia..|].
  eexists. split_and!; [done|done|]. rewrite Hc, app_assoc, ztake_app by apply zlen_nonneg.
  rewrite Z.sub_diag, ztake_0, app_nil_r. by apply ztake_ge.
Qed.

Lemma prefix_of_prefix (l c t : list byte) :
  ztake (zlen (c ++ t)) l = c ++ t → ztake (zlen c) l = c.
Proof.
  rewrite zlen_app. intros H. pose proof (zlen_nonneg c). pose proof (zlen_nonneg t).
  replace (ztake (zlen c) l) with (ztake (zlen c) (ztake (zlen c + zlen t) l))
    by (rewrite ztake_ztake by lia; f_equal; lia).
  rewrite H, ztake_app, Z.sub_diag, ztake_0, app_nil_r by lia. by apply ztake_ge.
Qed.

Lemma reverse_range_prefix (l c t : list byte) :
  ztake (zlen (c ++ t)) l = c ++ t → zlen (c ++ t) ≤ zlen l →
  ∃ l', reverse_range l (zlen c) (zlen (c ++ t)) = Ok l' ∧ zlen l' = zlen l ∧
        ztake (zlen (c ++ t)) l' = c ++ rev t.
Proof.
  intros H Hlen. pose proof (zlen_nonneg c). pose proof (zlen_nonneg t).
  pose proof (prefix_of_prefix _ _ _ H) as Hc. rewrite zlen_app in *.
  assert (Hr : zlen (rev t) = zlen t) by apply zlen_rev.
  assert (Ht : zslice (zlen c) (zlen t) l = t).
  { unfold zslice. rewrite <- (ztake_zdrop (zlen c) (ztake _ l)), zdrop_ztake in H by lia.
    rewrite ztake_ztake in H by lia. replace (_ `min` _) with (zlen c) in H by lia.
    rewrite Hc in H. apply app_inv_head in H. by rewrite Z.add_simpl_l in H. }
  unfold reverse_range. rewrite Z.add_simpl_l, mem_read_ok, Ht by lia. cbn [mbind outcome_bind].
  destruct (mem_write_snoc l c (rev t)) as (l' & -> & Hl' & Hp); [done|lia|].
  exists l'. rewrite zlen_app, Hr in Hp. done.
Qed.

(** The array and the pointer after a number was formatted in place. *)
Lemma finish_spec b l t :
  fb_wf b → zlen l = zlen (data_ b) → ztake (zlen (contents b ++ t)) l = contents b ++ t →
  zlen (contents b ++ t) ≤ zlen l →
  wp (put (mkFixedBuffer l (cur_ b)) ;; add (to_signed 32 (zlen t))) (λ _ b', written b b' t) b.
Proof.
  intros Hb Hl Ht Hlen. pose proof Hb as [? ?]. rewrite zlen_app, zlen_contents in * by done.
  pose proof (zlen_nonneg t). wp_go. unfold add. wp_go. simpl.
  rewrite to_signed_id; [|lia|].
  2:{ unfold in_signed. change (32 - 1) with 31. apply andb_true_iff. rewrite Z.leb_le, Z.ltb_lt. lia. }
  case_cmp; [|lia]. wp_go. split_and!; [split; simpl; lia|done|done].
Qed.

Lemma fb_append_spec b buf len :
  fb_wf b → 0 ≤ len ≤ zlen buf →
  wp (fb_append buf len)
     (λ _ b', if len <? zlen (data_ b) - cur_ b then written b b' (ztake len buf) else b' = b) b.
Proof.
  intros Hb Hlen. pose proof Hb as [? ?]. unfold fb_append. wp_go.
  rewrite avail_eq, u64_small by (done || (unfold is_u64, u64_modulus; lia)). case_cmp; [|done].
  wp_go. eapply wp_lift; [by apply mem_read_ok; lia|]. wp_go. unfold zslice. rewrite zdrop_0.
  assert (Hd : zlen (ztake len buf) = len) by (apply zlen_ztake; lia).
  destruct (mem_write_snoc (data_ b) (contents b) (ztake len buf)) as (l & Hl & Hlen' & Hp).
  { by rewrite zlen_contents. }
  { rewrite zlen_contents, Hd by done. lia. }
  rewrite zlen_contents in Hl by done. eapply wp_lift; [done|]. wp_go.
  unfold add. wp_go. simpl. case_cmp; [|lia]. wp_go.
  rewrite zlen_app, zlen_contents, Hd in Hp by done.
  split_and!; [split; simpl; lia|done|done].
Qed.

(** ** The digit loop *)

(** The value of digits, the least significant first. *)
Definition lsb_value (base : Z) (ds : list Z) : Z := foldr (λ d n, d + base * n) 0 ds.

(** The digits the loop produces for [v]: in range, of the right value, and the most
    significant one is zero only for zero itself. *)
Definition digits_of (base : Z) (ds : list Z) (v : Z) : Prop :=
  lsb_value base ds = v ∧ Forall (λ d, 0 ≤ d < base) ds ∧
  ∃ ds' d, ds = ds' ++ [d] ∧ (d = 0 → ds' = []).

Lemma digits_of_last base v : 0 ≤ v < base → digits_of base [v] v.
Proof.
  intros. split_and!; [unfold lsb_value; simpl; lia|by constructor|]. by exists [], v.
Qed.

Lemma digits_of_cons base v ds :
  2 ≤ base → 0 < v / base → digits_of base ds (v / base) → digits_of base (v mod base :: ds) v.
Proof.
  intros Hb Hv (Hval & Hr & ds' & d & -> & Hd). split_and!.
  - unfold lsb_value in *. cbn [foldr]. rewrite Hval. pose proof (Z.div_mod v base). lia.
  - constructor; [|done]. apply Z.mod_pos_bound. lia.
  - exists (v mod base :: ds'), d. split; [done|]. intros ->. rewrite (Hd eq_refl) in Hval.
    unfold lsb_value in Hval. simpl in Hval. lia.
Qed.

Lemma cons_middle_app {A} (c : list A) x t : c ++ x :: t = (c ++ [x]) ++ t.
Proof. by rewrite <- app_assoc. Qed.

Lemma emit_loop_spec base digit n fuel v (l c : list byte) :
  2 ≤ base → (n ≤ fuel)%nat → (0 < n)%nat → 0 ≤ v < base ^ Z.of_nat n →
  ztake (zlen c) l = c → zlen c + Z.of_nat n ≤ zlen l →
  ∃ ds l', emit_loop fuel base digit v l (zlen c) = Ok (l', zlen (c ++ (digit <$> ds))) ∧
    zlen l' = zlen l ∧ ztake (zlen (c ++ (digit <$> ds))) l' = c ++ (digit <$> ds) ∧
    zlen ds ≤ Z.of_nat n ∧ digits_of base ds v.
Proof.
  intros Hbase. induction n as [|n IH] in fuel, v, l, c |- *; intros Hf Hn Hv Hc Hlen; [lia|].
  destruct fuel as [|fuel]; [lia|]. cbn [emit_loop].
  rewrite Z.rem_mod_nonneg, Z.quot_div_nonneg by lia.
  destruct (mem_write_snoc l c [digit (v mod base)]) as (l1 & -> & Hl1 & Hp1); [done|unfold zlen at 2; simpl; lia|].
  cbn [mbind outcome_bind].
  assert (Hd : v / base = 0 → v mod base = v).
  { intros. pose proof (Z.div_mod v base). lia. }
  replace (zlen c + 1) with (zlen (c ++ [digit (v mod base)])) by (rewrite zlen_app; done).
  destruct (Z.ltb_spec 0 (v / base)) as [Hq|Hq].
  - destruct n as [|n].
    { rewrite Z.div_small in Hq by lia. lia. }
    destruct (IH fuel (v / base) l1 (c ++ [digit (v mod base)])) as (ds & l2 & E2 & Hl2 & Hp2 & Hn2 & Hds);
      [lia|lia| |done| |].
    { split; [lia|]. apply Z.div_lt_upper_bound; [lia|].
      rewrite Nat2Z.inj_succ, Z.pow_succ_r in Hv by lia. lia. }
    { rewrite zlen_app, Hl1. unfold zlen at 2. simpl. lia. }
    exists (v mod base :: ds), l2. rewrite E2, fmap_cons, (cons_middle_app c _ (digit <$> ds)).
    split_and!; [done|lia|done|rewrite zlen_cons; lia|]. by apply digits_of_cons.
  - assert (v / base = 0) as H0 by (pose proof (Z.div_pos v base); lia).
    exists [v mod base], l1. cbn [fmap list_fmap].
    split_and!; [done|done|done|unfold zlen; simpl; lia|].
    rewrite (Hd H0). apply digits_of_last. rewrite <- (Hd H0). apply Z.mod_pos_bound. lia.
Qed.

Lemma parse_from_snoc base val acc l c :
  parse_from base val acc (l ++ [c]) =
  n ← parse_from base val acc l; d ← val c; Some (n * base + d).
Proof.
  induction l as [|x l IH] in acc |- *; simpl; [by destruct (val c)|].
  destruct (val x); simpl; [apply IH|done].
Qed.

(** Digits written least significant first and then reversed read back as their value. *)
Lemma parse_from_rev base val digit ds :
  (∀ d, 0 ≤ d < base → val (digit d) = Some d) → Forall (λ d, 0 ≤ d < base) ds →
  parse_from base val 0 (rev (digit <$> ds)) = Some (lsb_value base ds).
Proof.
  intros Hval Hds. induction Hds as [|d ds Hd Hds IH]; [done|].
  rewrite fmap_cons. cbn [rev]. rewrite parse_from_snoc, IH. simpl. rewrite Hval by done.
  simpl. f_equal. unfold lsb_value. cbn [foldr]. lia.
Qed.

Lemma parse_num_rev base val digit ds v :
  (∀ d, 0 ≤ d < base → val (digit d) = Some d) → (∀ d, 0 ≤ d < base → digit d = x30 → d = 0) →
  digits_of base ds v → parse_num base val (rev (digit <$> ds)) = Some v.
Proof.
  intros Hval Hzero (<- & Hr & ds' & d & -> & Hd).
  pose proof (parse_from_rev base val digit _ Hval Hr) as Hp.
  rewrite fmap_app, rev_app_distr in *. cbn in Hp |- *.
  apply Forall_app in Hr as [_ Hr%Forall_inv].
  destruct (decide (digit d = x30)) as [E|E].
  - pose proof (Hzero d Hr E) as ->. rewrite (Hd eq_refl) in *. cbn in *. by rewrite E in *.
  - unfold parse_num. destruct (digit d); try done.
Qed.

Lemma dec_val_digit d : 0 ≤ d < 10 → dec_val (dec_digit d) = Some d.
Proof.
  intros. assert (d = 0 ∨ d = 1 ∨ d = 2 ∨ d = 3 ∨ d = 4 ∨ d = 5 ∨ d = 6 ∨ d = 7 ∨ d = 8 ∨ d = 9)
    as Hd by lia. by repeat destruct Hd as [->|Hd]; try subst d.
Qed.

Lemma hex_val_digit d : 0 ≤ d < 16 → hex_val (hex_digit d) = Some d.
Proof.
  intros. unfold hex_val, hex_digit. case_cmp.
  - rewrite Z_of_byte_of_Z by lia. repeat case_cmp; simpl; f_equal; lia.
  - rewrite Z_of_byte_of_Z by lia. repeat case_cmp; simpl; f_equal; lia.
Qed.

(** ** Specifications of the insertions *)

Lemma parse_dec_nonneg l v : parse_num 10 dec_val l = Some v → parse_dec l = Some v.
Proof. unfold parse_dec. by destruct l as [|[] l]. Qed.

Lemma dec_digit_zero d : 0 ≤ d < 10 → dec_digit d = x30 → d = 0.
Proof. intros Hd E. pose proof (dec_val_digit d Hd) as H. rewrite E in H. by injection H. Qed.

Lemma hex_digit_zero d : 0 ≤ d < 16 → hex_digit d = x30 → d = 0.
Proof. intros Hd E. pose proof (hex_val_digit d Hd) as H. rewrite E in H. by injection H. Qed.

(** The text [formatInteger] prints for [v]: it reads back as [v], with no sign before a zero. *)
Definition int_text (v : Z) (s : list byte) : Prop := parse_dec s = Some v ∧ s ≠ txt "-0" ∧ 1 ≤ zlen s ≤ 21.

(** There is one decimal text of a number. *)
Lemma dec_val_inv c d : dec_val c = Some d → 0 ≤ d < 10 ∧ c = byte_of_Z (48 + d).
Proof.
  unfold dec_val. destruct (_ && _) eqn:E; [|done]. apply andb_true_iff in E as [?%Z.leb_le ?%Z.leb_le].
  intros [= <-]. split; [lia|]. replace (48 + (Z_of_byte c - 48)) with (Z_of_byte c) by lia. by rewrite byte_of_Z_of_byte.
Qed.

Lemma parse_from_text l fuel n :
  l ≠ [] → head l ≠ Some x30 → parse_from 10 dec_val 0 l = Some n → n < 10 ^ Z.of_nat fuel → 1 ≤ n ∧ l = dec_text fuel n.
Proof.
  revert fuel n. induction l as [|c l IH] using rev_ind; intros fuel n Hne Hhd Hp Hn; [done|]. rewrite parse_from_snoc in Hp.
  destruct (parse_from 10 dec_val 0 l) as [n'|] eqn:Hl; [|done]. cbn in Hp. destruct (dec_val c) as [d|] eqn:Hc; [|done].
  cbn in Hp. injection Hp as <-. apply dec_val_inv in Hc as [Hd ->].
  assert (Hcase : (l = [] ∧ n' = 0 ∧ d ≠ 0) ∨ (l ≠ [] ∧ head l ≠ Some x30)).
  { destruct l as [|c l]; [left|by right]. cbn in Hl. injection Hl as <-. split_and!; [done..|]. by intros ->. }
  destruct fuel as [|fuel].
  { exfalso. cbn in Hn. destruct Hcase as [(_ & -> & ?)|[H1 H2]]; [lia|]. destruct (IH 20%nat n' H1 H2 eq_refl); [|lia].
    change (10 ^ Z.of_nat 20) with 100000000000000000000. lia. }
  rewrite Nat2Z.inj_succ, Z.pow_succ_r in Hn by lia. cbn [dec_text].
  assert (Hmod : (n' * 10 + d) mod 10 = d) by (rewrite Z.add_comm, Z_mod_plus_full; by apply Z.mod_small).
  rewrite Hmod. destruct Hcase as [(-> & -> & ?)|[H1 H2]].
  - rewrite (proj2 (Z.ltb_lt _ _)) by lia. split; [lia|done].
  - destruct (IH fuel n' H1 H2 eq_refl) as [Hpos El]; [lia|]. rewrite (proj2 (Z.ltb_ge _ _)) by lia.
    rewrite Z.div_add_l, (Z.div_small d), Z.add_0_r by lia. split; [lia|]. by rewrite <- El.
Qed.

Lemma parse_num_text l n : parse_num 10 dec_val l = Some n → n < 10 ^ 20 → 0 ≤ n ∧ l = print_dec n.
Proof.
  intros Hp Hn. destruct l as [|c l]; [done|]. destruct (decide (c = x30)) as [->|Hc].
  - destruct l; [|done]. cbn in Hp. injection Hp as <-. done.
  - destruct (parse_from_text (c :: l) 20 n) as [? ->]; [done|by intros [= ->]| |done|split; [lia|done]].
    unfold parse_num in Hp. by destruct c.
Qed.

Lemma int_text_unique v s : int_text v s → - 10 ^ 20 < v < 10 ^ 20 → s = print_int v.
Proof.
  intros (Hp & Hz & Hlen) Hv. unfold parse_dec in Hp. unfold print_int. destruct s as [|c s]; [done|].
  assert (Hother : parse_num 10 dec_val (c :: s) = Some v → c :: s = if v <? 0 then txt "-" ++ print_dec (- v) else print_dec v).
  { intros Hnum. apply parse_num_text in Hnum as [? ->]; [|lia]. by rewrite (proj2 (Z.ltb_ge _ _)). }
  destruct (decide (c = x2d)) as [->|Hc]; [|destruct c; done || by apply Hother].
  destruct (parse_num 10 dec_val s) as [n|] eqn:Hs; [|done]. cbn in Hp. injection Hp as <-.
  apply parse_num_text in Hs as [Hn ->]; [|lia]. rewrite Z.opp_involutive. destruct (Z.ltb_spec (- n) 0) as [|]; [done|].
  replace n with 0 in Hz by lia. by destruct Hz.
Qed.

(** The common tail of the two formatters: NUL, reversal, pointer. *)
Lemma formatted_spec b l start p c t :
  fb_wf b → zlen l = zlen (data_ b) → start = zlen (contents b ++ c) →
  p = zlen (contents b ++ c ++ t) → ztake p l = contents b ++ c ++ t → p < zlen l →
  wp (finish_number l (cur_ b) start p) (λ _ b', written b b' (c ++ rev t)) b.
Proof.
  intros Hb Hl -> -> Hp Hlen. rewrite !(app_assoc (contents b)) in *.
  set (cc := contents b ++ c) in *. unfold finish_number. wp_go.
  destruct (mem_write_snoc l (cc ++ t) [x00]) as (l1 & Hw & Hl1 & Hp1);
    [done|unfold zlen at 2; simpl; lia|].
  eapply wp_lift; [done|]. wp_go.
  destruct (reverse_range_prefix l1 cc t) as (l2 & Hr & Hl2 & Hp2);
    [by eapply prefix_of_prefix|lia|].
  eapply wp_lift; [done|].
  assert (Hrev : zlen (rev t) = zlen t) by apply zlen_rev.
  replace (zlen (cc ++ t) - cur_ b) with (zlen (c ++ rev t)).
  2:{ subst cc. rewrite !zlen_app, zlen_contents, Hrev by done. lia. }
  apply finish_spec; [done|lia| |]; rewrite app_assoc; fold cc.
  - rewrite <- Hp2 at 2. f_equal. by rewrite !zlen_app, Hrev.
  - rewrite Hl2, Hl1, !zlen_app, Hrev. rewrite !zlen_app in Hlen. lia.
Qed.

Definition int_width (t : int_type) : Prop := 0 < width t ≤ 64.

Lemma formatInteger_reads_back t v b :
  fb_wf b → int_width t → in_type t v → kMaxNumericSize ≤ zlen (data_ b) - cur_ b →
  (is_signed t = true → v ≠ - 2 ^ (width t - 1)) →
  wp (formatInteger t v) (λ _ b', ∃ s, written b b' s ∧ int_text v s) b.
Proof.
  intros Hb Hw Hv Hroom Hmin. pose proof Hb as [? ?]. unfold kMaxNumericSize in *.
  unfold formatInteger. wp_go. rewrite avail_eq by done.
  destruct (Z.leb_spec kMaxNumericSize (zlen (data_ b) - cur_ b)); [|unfold kMaxNumericSize in *; lia].
  wp_go.
  assert (Hpow : 2 ^ (width t - 1) ≤ 2 ^ 63) by (apply Z.pow_le_mono_r; unfold int_width in *; lia).
  assert (Hpow' : 2 ^ width t ≤ 2 ^ 64) by (apply Z.pow_le_mono_r; unfold int_width in *; lia).
  assert (Hpos : 0 < 2 ^ (width t - 1)) by (apply Z.pow_pos_nonneg; unfold int_width in *; lia).
  assert (Habs : (if v <? 0 then negate t v else Ok v) = Ok (Z.abs v)).
  { unfold in_type, negate in *. case_cmp; [|f_equal; lia].
    destruct (is_signed t); [|lia]. specialize (Hmin eq_refl).
    replace (- v) with (Z.abs v) by lia. unfold checked, in_signed.
    rewrite (proj2 (Z.leb_le _ _)), (proj2 (Z.ltb_lt _ _)) by lia. done. }
  assert (Hbound : 0 ≤ Z.abs v < 10 ^ Z.of_nat 20).
  { unfold in_type in *. change (10 ^ Z.of_nat 20) with 100000000000000000000.
    destruct (is_signed t); lia. }
  eapply wp_lift; [done|]. wp_go. rewrite <- (zlen_contents b) at 1 by done.
  destruct (emit_loop_spec 10 dec_digit 20 digits_fuel (Z.abs v) (data_ b) (contents b))
    as (ds & l & El & Hl & Hp & Hn & Hds); [lia|unfold digits_fuel; lia|lia|done| | |].
  { by rewrite zlen_contents. }
  { rewrite zlen_contents by done. lia. }
  eapply wp_lift; [done|]. wp_go.
  pose proof (parse_num_rev 10 dec_val dec_digit ds (Z.abs v) dec_val_digit dec_digit_zero Hds) as Hparse.
  assert (Hlen : zlen (dec_digit <$> ds) = zlen ds) by apply zlen_fmap.
  assert (Hne : 1 ≤ zlen ds).
  { destruct Hds as (_&_&ds'&d&->&_). rewrite zlen_app. pose proof (zlen_nonneg ds').
    change (zlen [d]) with 1. lia. }
  destruct (Z.ltb_spec v 0).
  - destruct (mem_write_snoc l (contents b ++ (dec_digit <$> ds)) [x2d]) as (l1 & Hw1 & Hl1 & Hp1).
    { done. }
    { rewrite zlen_app, Hlen, zlen_contents by done. change (zlen [x2d]) with 1. lia. }
    rewrite <- app_assoc in Hp1.
    wp_go. eapply wp_lift; [by rewrite Hw1|]. wp_go.
    eapply wp_mono.
    + apply (formatted_spec b l1 _ _ [] ((dec_digit <$> ds) ++ [x2d])); [done|lia| | | |].
      * by rewrite app_nil_r, zlen_contents.
      * rewrite !zlen_app. change (zlen [x2d]) with 1. change (@zlen byte []) with 0. lia.
      * rewrite app_nil_l. etrans; [|exact Hp1]. f_equal. rewrite !zlen_app. change (zlen [x2d]) with 1. lia.
      * rewrite !zlen_app, Hlen, zlen_contents by done. lia.
    + cbv beta. intros _ b' Hb'. eexists. split; [done|]. rewrite app_nil_l, rev_app_distr.
      split; [simpl; rewrite Hparse; simpl; f_equal; lia|split].
      { intros [= E]. rewrite E in Hparse. assert (Some 0 = Some (Z.abs v)) as [= ?] by done. lia. }
      rewrite zlen_app, !zlen_rev, Hlen. change (zlen [x2d]) with 1. lia.
  - wp_go. eapply wp_mono.
    + apply (formatted_spec b l _ _ [] (dec_digit <$> ds)); [done|lia| |done|done|].
      * by rewrite app_nil_r, zlen_contents.
      * rewrite !zlen_app, Hlen, zlen_contents by done. lia.
    + cbv beta. intros _ b' Hb'. eexists. split; [done|]. rewrite app_nil_l.
      split; [rewrite (parse_dec_nonneg _ _ Hparse); f_equal; lia|split; [by intros E; rewrite E in Hparse|]].
      rewrite zlen_rev, Hlen. lia.
Qed.

Lemma formatInteger_spec t v b :
  fb_wf b → int_width t → in_type t v → kMaxNumericSize ≤ zlen (data_ b) - cur_ b →
  (is_signed t = true → v ≠ - 2 ^ (width t - 1)) →
  wp (formatInteger t v) (λ _ b', written b b' (print_int v)) b.
Proof.
  intros Hb Hw Hv Hroom Hmin. eapply wp_mono; [by apply formatInteger_reads_back|].
  cbv beta. intros _ b' (s & Hs & Ht). rewrite <- (int_text_unique v s); [done..|].
  assert (2 ^ (width t - 1) ≤ 2 ^ 64) by (apply Z.pow_le_mono_r; unfold int_width in *; lia).
  assert (2 ^ width t ≤ 2 ^ 64) by (apply Z.pow_le_mono_r; unfold int_width in *; lia).
  unfold in_type in Hv. destruct (is_signed t); lia.
Qed.

Lemma put_pointer_spec v b :
  fb_wf b → is_u64 v → kMaxNumericSize ≤ zlen (data_ b) - cur_ b →
  wp (put_pointer v) (λ _ b', ∃ s, written b b' s ∧ parse_pointer s = Some v ∧ zlen s ≤ 18) b.
Proof.
  intros Hb Hv Hroom. pose proof Hb as [? ?]. unfold is_u64, u64_modulus in Hv.
  unfold put_pointer. wp_go. rewrite avail_eq by done.
  destruct (Z.leb_spec kMaxNumericSize (zlen (data_ b) - cur_ b)) as [Hr|]; [|lia].
  unfold kMaxNumericSize in Hr. wp_go.
  pose proof (zlen_contents b Hb) as Hc.
  destruct (mem_write_snoc (data_ b) (contents b) [x30]) as (l1 & Hw1 & Hl1 & Hp1);
    [by rewrite Hc|rewrite Hc; change (zlen [x30]) with 1; lia|].
  destruct (mem_write_snoc l1 (contents b ++ [x30]) [x78]) as (l2 & Hw2 & Hl2 & Hp2);
    [done|rewrite zlen_app, Hc; change (zlen [x30]) with 1; change (zlen [x78]) with 1; lia|].
  rewrite zlen_app, Hc in Hw2. rewrite Hc in Hw1. change (zlen [x30]) with 1 in Hw2.
  eapply wp_lift; [done|]. wp_go. eapply wp_lift; [done|]. wp_go.
  rewrite <- app_assoc in Hp2. cbn [app] in Hp2.
  assert (Hlen2 : zlen (contents b ++ [x30; x78]) = cur_ b + 2) by (rewrite zlen_app, Hc; done).
  destruct (emit_loop_spec 16 hex_digit 16 digits_fuel v l2 (contents b ++ [x30; x78]))
    as (ds & l & El & Hl & Hp & Hn & Hds);
    [lia|unfold digits_fuel; lia|lia|change (16 ^ Z.of_nat 16) with (2 ^ 64); lia|done|rewrite Hlen2; lia|].
  rewrite Hlen2 in El. eapply wp_lift; [done|]. wp_go. rewrite <- app_assoc in *.
  pose proof (parse_num_rev 16 hex_val hex_digit ds v hex_val_digit hex_digit_zero Hds) as Hparse.
  assert (Hlen : zlen (hex_digit <$> ds) = zlen ds) by apply zlen_fmap.
  eapply wp_mono.
  - apply (formatted_spec b l _ _ [x30; x78] (hex_digit <$> ds)); [done|lia|done|done|done|].
    rewrite !zlen_app, Hlen, Hc. change (zlen [x30; x78]) with 2. lia.
  - cbv beta. intros _ b' Hb'. eexists. split_and!; [done|exact Hparse|].
    rewrite zlen_app, zlen_rev, Hlen. change (zlen [x30; x78]) with 2. lia.
Qed.

Lemma put_double_spec text b :
  fb_wf b → zlen text < kMaxNumericSize → kMaxNumericSize ≤ zlen (data_ b) - cur_ b →
  wp (put_double text) (λ _ b', written b b' text) b.
Proof.
  intros Hb Ht Hroom. pose proof Hb as [? ?]. unfold put_double. wp_go. rewrite avail_eq by done.
  destruct (Z.leb_spec kMaxNumericSize (zlen (data_ b) - cur_ b)) as [Hr|]; [|lia].
  unfold kMaxNumericSize in *. wp_go. rewrite ztake_ge by lia.
  pose proof (zlen_contents b Hb) as Hc. pose proof (zlen_nonneg text).
  destruct (mem_write_snoc (data_ b) (contents b) (text ++ [x00])) as (l & Hw & Hl & Hp);
    [by rewrite Hc|rewrite Hc, zlen_app; change (zlen [x00]) with 1; lia|].
  rewrite Hc in Hw. eapply wp_lift; [done|]. wp_go.
  rewrite <- (to_signed_id 32 (zlen text)) at 1.
  - apply finish_spec; [done|done| |rewrite zlen_app; lia].
    rewrite app_assoc in Hp. by apply prefix_of_prefix in Hp.
  - lia.
  - unfold in_signed. change (32 - 1) with 31. apply andb_true_iff. rewrite Z.leb_le, Z.ltb_lt. lia.
Qed.

(** ** Sequences of insertions *)

Inductive item : Type :=
| IBool (v : bool)
| IInt (t : int_type) (v : Z)
| IPointer (v : Z)
| IDouble (text : list byte)
| IChar (c : byte)
| ICStr (s : option (list byte))
| IString (s : list byte).

Definition insert_item (i : item) : prog FixedBuffer () :=
  match i with
  | IBool v => put_bool v
  | IInt t v => formatInteger t v
  | IPointer v => put_pointer v
  | IDouble text => put_double text
  | IChar c => put_char c
  | ICStr s => put_cstr s
  | IString s => put_string s
  end.

(** What the item's text is. *)
Definition prints (i : item) (s : list byte) : Prop :=
  match i with
  | IBool v => s = [if v then x31 else x30]
  | IInt _ v => s = print_int v
  | IPointer v => parse_pointer s = Some v ∧ zlen s ≤ 18
  | IDouble text => s = text
  | IChar c => s = [c]
  | ICStr None => s = null_text
  | ICStr (Some t) | IString t => s = t
  end.

(** Values of their type, the most negative one of a signed type excepted. *)
Definition item_ok (i : item) : Prop :=
  match i with
  | IInt t v => int_width t ∧ in_type t v ∧ (is_signed t = true → v ≠ - 2 ^ (width t - 1))
  | IPointer v => is_u64 v
  | IDouble text => zlen text < kMaxNumericSize
  | _ => True
  end.

(** The free space an item asks for. *)
Definition need (i : item) : Z :=
  match i with
  | IInt _ _ | IPointer _ | IDouble _ => kMaxNumericSize
  | IBool _ | IChar _ => 2
  | ICStr None => 7
  | ICStr (Some s) | IString s => zlen s + 1
  end.

Lemma prints_need i s : item_ok i → prints i s → zlen s ≤ need i.
Proof.
  destruct i as [| | | | |[]|]; simpl; intros Hi Hs; unfold kMaxNumericSize in *;
    destruct_and?; subst; try done; try lia.
  pose proof (print_int_length v). lia.
Qed.

Lemma append_item b t :
  fb_wf b →
  wp (fb_append t (zlen t))
     (λ _ b', if zlen t + 1 <=? zlen (data_ b) - cur_ b then written b b' t else b' = b) b.
Proof.
  intros Hb. pose proof (zlen_nonneg t). eapply wp_mono; [by apply fb_append_spec; [|lia]|].
  cbv beta. intros _ b'. rewrite ztake_ge by lia. repeat case_cmp; done || lia.
Qed.

Lemma too_long_skipped (m : prog FixedBuffer ()) b :
  fb_wf b → ¬ kMaxNumericSize ≤ zlen (data_ b) - cur_ b →
  when_ (kMaxNumericSize <=? avail b) m b = Ok (tt, b).
Proof. intros Hb Hn. rewrite avail_eq by done. by case_cmp. Qed.

Lemma insert_item_spec i b :
  fb_wf b → item_ok i →
  wp (insert_item i)
     (λ _ b', if need i <=? zlen (data_ b) - cur_ b
              then ∃ s, prints i s ∧ written b b' s else b' = b) b.
Proof.
  intros Hb Hi.
  assert (Hstr : ∀ t, prints i t → need i = zlen t + 1 →
    wp (fb_append t (zlen t)) (λ _ b', if need i <=? zlen (data_ b) - cur_ b
              then ∃ s, prints i s ∧ written b b' s else b' = b) b).
  { intros t Ht ->. eapply wp_mono; [by apply append_item|]. cbv beta. intros _ b'.
    case_cmp; [by eauto|done]. }
  destruct i as [v|t v|v|text|c|[s|]|s]; simpl in Hi.
  - by destruct v; apply Hstr.
  - cbn [need]. destruct Hi as (?&?&?). destruct (Z.leb_spec kMaxNumericSize (zlen (data_ b) - cur_ b)).
    + eapply wp_mono; [by apply formatInteger_spec|]. cbv beta. intros _ b' Hs. by eexists.
    + unfold wpf. cbn [insert_item]. unfold formatInteger. erewrite bind_ok by done.
      by rewrite too_long_skipped by (done || lia).
  - cbn [need]. destruct (Z.leb_spec kMaxNumericSize (zlen (data_ b) - cur_ b)).
    + eapply wp_mono; [by apply put_pointer_spec|]. cbv beta. intros _ b' (s & ? & ?). by exists s.
    + unfold wpf. cbn [insert_item]. unfold put_pointer. erewrite bind_ok by done.
      by rewrite too_long_skipped by (done || lia).
  - cbn [need]. destruct (Z.leb_spec kMaxNumericSize (zlen (data_ b) - cur_ b)).
    + eapply wp_mono; [by apply put_double_spec|]. cbv beta. intros _ b' ?. by exists text.
    + unfold wpf. cbn [insert_item]. unfold put_double. erewrite bind_ok by done.
      by rewrite too_long_skipped by (done || lia).
  - by apply (Hstr [c]).
  - by apply (Hstr s).
  - by apply (Hstr null_text).
  - by apply (Hstr s).
Qed.

Definition total_need (items : list item) : Z := foldr (λ i n, need i + n) 0 items.

Lemma need_nonneg i : 0 ≤ need i.
Proof.
  destruct i as [| | | | |[s|]|s]; simpl; unfold kMaxNumericSize; try lia;
    pose proof (zlen_nonneg s); lia.
Qed.

(** The texts of the items, in order; a dropped item contributes nothing. *)
Lemma insert_items_spec items b :
  fb_wf b → Forall item_ok items →
  wp (for_each insert_item items)
     (λ _ b', ∃ texts, Forall2 (λ i s, prints i s ∨ s = []) items texts ∧
        (cur_ b + total_need items ≤ zlen (data_ b) → Forall2 prints items texts) ∧
        written b b' (concat texts)) b.
Proof.
  induction items as [|i items IH] in b |- *; intros Hb Hok; cbn [for_each].
  - wp_go. exists []. split_and!; [done|done|]. split_and!; [done|done|]. by rewrite app_nil_r.
  - apply Forall_cons_1 in Hok as [Hi Hok]. wp_go.
    eapply wp_mono; [by apply insert_item_spec|]. cbv beta. intros _ b1 Hb1.
    assert (∃ s, (prints i s ∨ s = []) ∧ written b b1 s ∧
      (need i ≤ zlen (data_ b) - cur_ b → prints i s ∧ zlen s ≤ need i)) as (s & Hs & Hw & Hfit).
    { revert Hb1. case_cmp.
      - intros (s & Hs & Hw). exists s. split_and!; [by left|done|]. intros _.
        split; [done|by apply prints_need].
      - intros ->. exists []. split_and!; [by right|split_and!; [done|done|by rewrite app_nil_r]|lia]. }
    pose proof Hw as (Hb1' & Hsz & Hcont).
    eapply wp_mono; [by apply IH|]. cbv beta. intros _ b2 (texts & Ht & Hall & Hb2 & Hsz2 & Hc2).
    exists (s :: texts). split; [by apply Forall2_cons_2|]. split; [|split_and!; [done|lia|]].
    + intros Htot. unfold total_need in *. cbn [foldr] in Htot.
      pose proof (zlen_nonneg s).
      assert (0 ≤ foldr (λ i n, need i + n) 0 items).
      { clear. induction items as [|i items IH]; simpl; [done|]. pose proof (need_nonneg i). lia. }
      destruct Hfit as [? ?]; [lia|]. constructor; [done|]. apply Hall.
      assert (cur_ b1 = cur_ b + zlen s) as ->; [|lia].
      by rewrite <- (zlen_contents b1), Hcont, zlen_app, zlen_contents.
    + simpl. by rewrite Hc2, Hcont, <- app_assoc.
Qed.

(** ** Properties *)

(** C38: [formatInteger] is equivalent to [snprintf] with ["%d"], on every branch and for each integer
    type.  With fewer than 32 bytes left the buffer is untouched; otherwise the loop that emits the
    digits backwards, the sign and the reversal append exactly the text [print_int] specifies, inside
    the array, for every value of the type but the most negative one of a signed type, which is
    undefined behaviour because the code negates it. *)
Theorem formatInteger_total t v b :
  fb_wf b → int_width t → in_type t v →
  match bool_decide (kMaxNumericSize ≤ zlen (data_ b) - cur_ b),
        is_signed t && bool_decide (v = - 2 ^ (width t - 1)) with
  | false, _ => formatInteger t v b = Ok (tt, b)
  | true, true => formatInteger t v b = Fault UndefinedBehaviour
  | true, false => ∃ b', formatInteger t v b = Ok (tt, b') ∧ written b b' (print_int v)
  end.
Proof.
  intros Hb Hw Hv. case_bool_decide as Hroom.
  - destruct (is_signed t && bool_decide (v = - 2 ^ (width t - 1))) eqn:E.
    + apply andb_true_iff in E as [Es Ev%bool_decide_eq_true_1].
      apply (faults_bind_r _ _ _ b b b); [done|]. rewrite avail_eq by done.
      unfold when_. rewrite (proj2 (Z.leb_le _ _)) by done.
      assert (Hpos : 0 < 2 ^ (width t - 1)) by (apply Z.pow_pos_nonneg; unfold int_width in *; lia).
      apply faults_bind_l. rewrite (proj2 (Z.ltb_lt v 0)) by lia.
      unfold faults, lift, negate. rewrite Es. unfold checked, in_signed.
      rewrite (proj2 (Z.leb_le _ _)), (proj2 (Z.ltb_ge _ _)) by lia. done.
    + destruct (wp_inv (formatInteger_spec t v b Hb Hw Hv Hroom
        ltac:(intros Hs ->; by rewrite Hs, bool_decide_eq_true_2 in E)))
        as ([] & b' & Hrun & Hs). by exists b'.
  - unfold formatInteger. erewrite bind_ok by done. by apply too_long_skipped.
Qed.

Definition small_buffer : FixedBuffer := FixedBuffer_init (replicate 40 x00).

Lemma small_buffer_wf : fb_wf small_buffer.
Proof. split; vm_compute; intuition discriminate. Qed.

Lemma formatInteger_total_witness :
  (∃ b', formatInteger t_int (-307) small_buffer = Ok (tt, b') ∧
         written small_buffer b' (print_int (-307))) ∧
  formatInteger t_int (- 2 ^ 31) small_buffer = Fault UndefinedBehaviour.
Proof.
  split.
  - apply (formatInteger_total t_int (-307) small_buffer); [apply small_buffer_wf|split; reflexivity || discriminate|].
    vm_compute. split; [discriminate|reflexivity].
  - apply (formatInteger_total t_int (- 2 ^ 31) small_buffer); [apply small_buffer_wf|split; reflexivity || discriminate|].
    vm_compute. split; [discriminate|reflexivity].
Defined.

(** Streaming never leaves the array.  Any sequence of insertions into a well-formed stream
    returns; what is added is the concatenation of the items' texts in order, where an item that did
    not fit is missing as a whole; and when the space the items ask for is free, none is missing. *)
Theorem stream_items items b :
  fb_wf b → Forall item_ok items →
  wp (for_each insert_item items)
     (λ _ b', ∃ texts, Forall2 (λ i s, prints i s ∨ s = []) items texts ∧
        (cur_ b + total_need items ≤ zlen (data_ b) → Forall2 prints items texts) ∧
        fb_wf b' ∧ contents b' = contents b ++ concat texts) b.
Proof.
  intros Hb Hok. eapply wp_mono; [by apply insert_items_spec|].
  cbv beta. intros _ b' (texts & H1 & H2 & H3 & _ & H4). by exists texts.
Qed.

Lemma stream_items_witness :
  wp (for_each insert_item [ICStr None; IInt t_long 15; IChar x3a; IInt t_int 9])
     (λ _ b', ∃ texts, Forall2 (λ i s, prints i s ∨ s = [])
                         [ICStr None; IInt t_long 15; IChar x3a; IInt t_int 9] texts ∧
        (0 + 73 ≤ 40 → Forall2 prints [ICStr None; IInt t_long 15; IChar x3a; IInt t_int 9] texts) ∧
        fb_wf b' ∧ contents b' = [] ++ concat texts) small_buffer.
Proof.
  apply (stream_items [ICStr None; IInt t_long 15; IChar x3a; IInt t_int 9] small_buffer).
  - apply small_buffer_wf.
  - repeat constructor; vm_compute; intros; discriminate.
Defined.
