(* ===== verification/Logger.v ===== *)
(** * Logger: [base::Logger] (base/log/Logger.h, base/log/Logger.cc)

    A [Logger] is a temporary whose constructor writes the time and the level into
    a 4096-byte stream, whose stream the program then inserts into, and whose
    destructor appends the source position and hands the line to the output
    function.  A line of level FATAL flushes and aborts the process.  What the C
    library prints ([strftime], [strerror]) is an argument of the model. *)
From S2P Require Import Prelude LogStream.

(** ** Levels and the statement macros *)

Inductive LogLevel : Type := TRACE | DEBUG | INFO | WARN | ERROR | FATAL.

#[export] Instance LogLevel_eq_dec : EqDecision LogLevel.
Proof. solve_decision. Defined.

(** The enumerators' values. *)
Definition level_value (l : LogLevel) : Z :=
  match l with TRACE => 0 | DEBUG => 1 | INFO => 2 | WARN => 3 | ERROR => 4 | FATAL => 5 end.

Definition LogLevelName (l : LogLevel) : list byte :=
  match l with
  | TRACE => txt "TRACE "
  | DEBUG => txt "DEBUG "
  | INFO => txt "INFO  "
  | WARN => txt "WARN  "
  | ERROR => txt "ERROR "
  | FATAL => txt "FATAL "
  end.

(** The initial value of [g_logLevel]. *)
Definition g_logLevel_init : LogLevel := TRACE.

(** ** SourceFile *)

(** [strrchr(s, '/')]: what follows the last slash, if there is one. *)
Fixpoint strrchr_slash (s : list byte) : option (list byte) :=
  match s with
  | [] => None
  | c :: s' =>
      match strrchr_slash s' with
      | Some r => Some r
      | None => if decide (c = x2f) then Some s' else None
      end
  end.

(** [data_] is a C string, held as its bytes before the NUL. *)
Record SourceFile : Type := mkSourceFile { sf_data : list byte; sf_size : Z }.

(** From an array of [N] chars that holds a string of [N - 1]. *)
Definition SourceFile_array (arr : list byte) : SourceFile :=
  match strrchr_slash arr with
  | Some data => mkSourceFile data (zlen arr - (zlen arr - zlen data))
  | None => mkSourceFile arr (zlen arr)
  end.

Definition SourceFile_cstr (filename : list byte) : SourceFile :=
  let data := default filename (strrchr_slash filename) in
  mkSourceFile data (zlen data).

(** ** Impl *)

Record Impl : Type := mkImpl { stream_ : FixedBuffer; level_ : LogLevel; line_ : Z; basename_ : SourceFile }.

(** [impl.stream_ << i1 << i2 ...]. *)
Definition stream (items : list item) : prog Impl () := λ im,
  match for_each insert_item items (stream_ im) with
  | Ok (_, b) => Ok (tt, mkImpl b (level_ im) (line_ im) (basename_ im))
  | Fault f => Fault f
  end.

(** A decimal digit as a character. *)
Definition dec_char (z : Z) : byte := byte_of_Z (48 + z mod 10).

(** [snprintf(usec, 7, "%06d", v)] for the microseconds of a [timeval]. *)
Definition format_06d (v : Z) : list byte :=
  [dec_char (v / 100000); dec_char (v / 10000); dec_char (v / 1000);
   dec_char (v / 100); dec_char (v / 10); dec_char v].

(** The wall-clock answers of one call: the [strftime] text and [tv_usec]. *)
Record clock_text : Type := mkClockText { strTime : list byte; tv_usec : Z }.

Definition formatTime (tv : clock_text) : prog Impl () :=
  stream [ICStr (Some (strTime tv))] ;;
  stream [ICStr (Some (format_06d (tv_usec tv)))].

Definition finish : prog Impl () :=
  im ← get;
  stream [ICStr (Some (txt " - ")); ICStr (Some (sf_data (basename_ im))); IChar x3a;
          IInt t_int (line_ im); IChar x0a].

Definition errno_items (strerror : list byte) (savedErrno : Z) : list item :=
  [ICStr (Some strerror); ICStr (Some (txt " (errno=")); IInt t_int savedErrno; ICStr (Some (txt ") "))].

Definition Impl_init (tv : clock_text) (strerror : list byte) (level : LogLevel) (savedErrno : Z)
    (file : SourceFile) (line : Z) (uninit : list byte) : outcome Impl :=
  let im := mkImpl (FixedBuffer_init uninit) level line file in
  match (formatTime tv ;;
         stream [ICStr (Some (LogLevelName level))] ;;
         when_ (negb (savedErrno =? 0)) (stream (errno_items strerror savedErrno))) im with
  | Ok (_, im') => Ok im'
  | Fault f => Fault f
  end.

(** ** The statements *)

(** The four constructors. *)
Inductive logger_ctor : Type :=
| Logger_line                                     (** [Logger(file, line)] *)
| Logger_level (level : LogLevel)                 (** [Logger(file, line, level)] *)
| Logger_func (level : LogLevel) (func : list byte) (** [Logger(file, line, level, func)] *)
| Logger_abort (toAbort : bool) (errno : Z) (strerror : list byte). (** [Logger(file, line, toAbort)] *)

Definition Logger_init (tv : clock_text) (c : logger_ctor) (file : SourceFile) (line : Z)
    (uninit : list byte) : outcome Impl :=
  match c with
  | Logger_line => Impl_init tv [] INFO 0 file line uninit
  | Logger_level level => Impl_init tv [] level 0 file line uninit
  | Logger_func level func =>
      match Impl_init tv [] level 0 file line uninit with
      | Ok im =>
          match stream [ICStr (Some func); IChar x20] im with
          | Ok (_, im') => Ok im'
          | Fault f => Fault f
          end
      | Fault f => Fault f
      end
  | Logger_abort toAbort errno strerror =>
      Impl_init tv strerror (if toAbort then FATAL else ERROR) errno file line uninit
  end.

(** What the process does at the end of a statement. *)
Inductive log_event : Type :=
| EOutput (msg : list byte)   (** [g_output(msg, len)] *)
| EFlush                      (** [g_flush()] *)
| EAbort.                     (** [abort()] *)

(** [g_output(buf.data(), buf.length())]. *)
Definition output_of (b : FixedBuffer) : outcome log_event :=
  match mem_read (data_ b) 0 (length_ b) with
  | Ok msg => Ok (EOutput msg)
  | Fault f => Fault f
  end.

Definition Logger_dtor (im : Impl) : outcome (list log_event) :=
  match finish im with
  | Ok (_, im') =>
      match output_of (stream_ im') with
      | Ok e => Ok (e :: (if decide (level_ im' = FATAL) then [EFlush; EAbort] else []))
      | Fault f => Fault f
      end
  | Fault f => Fault f
  end.

(** The macros: the two lowest and INFO look at the threshold, the others do not. *)
Inductive macro : Type :=
| LOG_TRACE (func : list byte) | LOG_DEBUG (func : list byte) | LOG_INFO
| LOG_WARN | LOG_ERROR | LOG_FATAL
| LOG_SYSERR (errno : Z) (strerror : list byte) | LOG_SYSFATAL (errno : Z) (strerror : list byte).

Definition macro_enabled (threshold : LogLevel) (m : macro) : bool :=
  match m with
  | LOG_TRACE _ => level_value threshold <=? level_value TRACE
  | LOG_DEBUG _ => level_value threshold <=? level_value DEBUG
  | LOG_INFO => level_value threshold <=? level_value INFO
  | _ => true
  end.

Definition macro_ctor (m : macro) : logger_ctor :=
  match m with
  | LOG_TRACE func => Logger_func TRACE func
  | LOG_DEBUG func => Logger_func DEBUG func
  | LOG_INFO => Logger_line
  | LOG_WARN => Logger_level WARN
  | LOG_ERROR => Logger_level ERROR
  | LOG_FATAL => Logger_level FATAL
  | LOG_SYSERR errno strerror => Logger_abort false errno strerror
  | LOG_SYSFATAL errno strerror => Logger_abort true errno strerror
  end.

(** [LOG_X << i1 << i2 ...;] in the file [file] (the text of [__FILE__]). *)
Definition log_statement (threshold : LogLevel) (tv : clock_text) (m : macro) (file : list byte)
    (line : Z) (items : list item) (uninit : list byte) : outcome (list log_event) :=
  if macro_enabled threshold m then
    match Logger_init tv (macro_ctor m) (SourceFile_array file) line uninit with
    | Ok im =>
        match stream items im with
        | Ok (_, im') => Logger_dtor im'
        | Fault f => Fault f
        end
    | Fault f => Fault f
    end
  else Ok [].

(** *** Where the lines go *)

Section sinks.
Context {W : Type}.

(** The two functions that statements use. *)
Record Sinks : Type := mkSinks {
  g_output : list byte → W → W;
  g_flush : W → W
}.

(** Standard output, unless they are set. *)
Definition Sinks_init (fwrite : list byte → W → W) (fflush : W → W) : Sinks := mkSinks fwrite fflush.
Definition setOutput (out : list byte → W → W) (s : Sinks) : Sinks := mkSinks out (g_flush s).
Definition setFlush (flush : W → W) (s : Sinks) : Sinks := mkSinks (g_output s) flush.

(** The end of a statement carried out; [true] when the process is gone. *)
Fixpoint perform (s : Sinks) (es : list log_event) (w : W) : bool * W :=
  match es with
  | [] => (false, w)
  | EOutput msg :: es => perform s es (g_output s msg w)
  | EFlush :: es => perform s es (g_flush s w)
  | EAbort :: _ => (true, w)
  end.
End sinks.
Arguments Sinks : clear implicits.

(** ** A statement as one sequence of insertions *)

Definition time_items (tv : clock_text) : list item :=
  [ICStr (Some (strTime tv)); ICStr (Some (format_06d (tv_usec tv)))].

Definition ctor_level (c : logger_ctor) : LogLevel :=
  match c with
  | Logger_line => INFO
  | Logger_level l | Logger_func l _ => l
  | Logger_abort toAbort _ _ => if toAbort then FATAL else ERROR
  end.

Definition ctor_items (c : logger_ctor) : list item :=
  ICStr (Some (LogLevelName (ctor_level c))) ::
  match c with
  | Logger_func _ func => [ICStr (Some func); IChar x20]
  | Logger_abort _ errno strerror => if errno =? 0 then [] else errno_items strerror errno
  | _ => []
  end.

Definition end_items (file : list byte) (line : Z) : list item :=
  [ICStr (Some (txt " - ")); ICStr (Some (default file (strrchr_slash file))); IChar x3a;
   IInt t_int line; IChar x0a].

(** All insertions of a statement, in order. *)
Definition line_items (tv : clock_text) (m : macro) (file : list byte) (line : Z) (items : list item) :
    list item :=
  time_items tv ++ ctor_items (macro_ctor m) ++ items ++ end_items file line.

Definition after_output (l : LogLevel) : list log_event :=
  if decide (l = FATAL) then [EFlush; EAbort] else [].

Lemma SourceFile_array_data file : sf_data (SourceFile_array file) = default file (strrchr_slash file).
Proof. unfold SourceFile_array. by destruct (strrchr_slash file). Qed.


(** Inserting [l] into the object. *)
Definition with_stream (im : Impl) (l : list item) : outcome Impl :=
  match for_each insert_item l (stream_ im) with
  | Ok (_, b) => Ok (mkImpl b (level_ im) (line_ im) (basename_ im))
  | Fault f => Fault f
  end.

Lemma stream_with_stream l im :
  stream l im = match with_stream im l with Ok im' => Ok (tt, im') | Fault f => Fault f end.
Proof. unfold stream, with_stream. by destruct (for_each _ _ _) as [[[] ?]|]. Qed.

Lemma with_stream_app l1 l2 im :
  with_stream im (l1 ++ l2) =
  match with_stream im l1 with Ok im' => with_stream im' l2 | Fault f => Fault f end.
Proof.
  unfold with_stream. rewrite for_each_app. by destruct (for_each _ l1 _) as [[[] ?]|].
Qed.

Lemma Impl_init_items tv strerror level errno file line uninit :
  Impl_init tv strerror level errno file line uninit =
  with_stream (mkImpl (FixedBuffer_init uninit) level line file)
    (time_items tv ++ ICStr (Some (LogLevelName level)) ::
     (if errno =? 0 then [] else errno_items strerror errno)).
Proof.
  change (time_items tv ++ ?x :: ?r) with ([ICStr (Some (strTime tv))] ++
    [ICStr (Some (format_06d (tv_usec tv)))] ++ [x] ++ r).
  rewrite with_stream_app. unfold Impl_init, formatTime.
  unfold mbind, prog_bind. rewrite !stream_with_stream.
  destruct (with_stream _ [ICStr (Some (strTime tv))]) as [i1|]; [|done].
  rewrite stream_with_stream, with_stream_app. destruct (with_stream i1 _) as [i2|]; [|done].
  rewrite stream_with_stream, with_stream_app. destruct (with_stream i2 _) as [i3|]; [|done].
  destruct (errno =? 0); cbn [negb when_].
  - by destruct i3.
  - rewrite stream_with_stream. by destruct (with_stream _ _).
Qed.

Lemma Logger_init_items tv c file line uninit :
  Logger_init tv c file line uninit =
  with_stream (mkImpl (FixedBuffer_init uninit) (ctor_level c) line file) (time_items tv ++ ctor_items c).
Proof.
  destruct c as [|l|l func|toAbort errno strerror]; unfold Logger_init; rewrite Impl_init_items; try done.
  change (0 =? 0) with true. cbn [ctor_items ctor_level].
  transitivity (with_stream (mkImpl (FixedBuffer_init uninit) l line file)
    ((time_items tv ++ [ICStr (Some (LogLevelName l))]) ++ [ICStr (Some func); IChar x20])); [|done].
  set (i := mkImpl _ _ _ _). set (hd := time_items tv ++ [_]).
  rewrite (with_stream_app hd). destruct (with_stream i hd); [|done].
  rewrite stream_with_stream. by destruct (with_stream _ _).
Qed.

(** The level and the position of the object stay. *)
Lemma with_stream_fields im l im' :
  with_stream im l = Ok im' → level_ im' = level_ im ∧ line_ im' = line_ im ∧ basename_ im' = basename_ im.
Proof. unfold with_stream. destruct (for_each _ _ _) as [[[] ?]|]; [|done]. intros. by simplify_eq. Qed.

Lemma log_statement_items threshold tv m file line items uninit :
  macro_enabled threshold m = true →
  log_statement threshold tv m file line items uninit =
  match for_each insert_item (line_items tv m file line items) (FixedBuffer_init uninit) with
  | Ok (_, b) =>
      match output_of b with
      | Ok e => Ok (e :: after_output (ctor_level (macro_ctor m)))
      | Fault f => Fault f
      end
  | Fault f => Fault f
  end.
Proof.
  intros Hen. unfold log_statement. rewrite Hen, Logger_init_items.
  set (im := mkImpl _ _ _ _).
  transitivity (match with_stream im (line_items tv m file line items) with
    | Ok im' => match output_of (stream_ im') with
                | Ok e => Ok (e :: after_output (level_ im)) | Fault f => Fault f end
    | Fault f => Fault f end).
  - unfold line_items. rewrite !with_stream_app.
    destruct (with_stream im _) as [i0|] eqn:E0; [|done]. apply with_stream_fields in E0 as (L0 & N0 & B0).
    rewrite ?with_stream_app. destruct (with_stream i0 _) as [i1|] eqn:E1; [|done]. apply with_stream_fields in E1 as (L1 & N1 & B1).
    rewrite stream_with_stream, with_stream_app.
    destruct (with_stream i1 _) as [i2|] eqn:E2; [|done]. apply with_stream_fields in E2 as (L2 & N2 & B2).
    unfold Logger_dtor, finish. unfold mbind, prog_bind, get. rewrite stream_with_stream.
    rewrite B2, B1, B0, N2, N1, N0. unfold im at 1 2. cbn [basename_ line_]. rewrite SourceFile_array_data.
    unfold end_items. destruct (with_stream i2 _) as [i3|] eqn:E3; [|done].
    apply with_stream_fields in E3 as (L3 & _). unfold after_output. by rewrite L3, L2, L1, L0.
  - unfold with_stream. by destruct (for_each _ _ _) as [[[] ?]|].
Qed.

Lemma output_of_contents b : fb_wf b → output_of b = Ok (EOutput (contents b)).
Proof.
  intros [? ?]. unfold output_of, length_. rewrite to_signed_id; [|lia|].
  - by rewrite mem_read_ok by lia.
  - unfold in_signed. change (32 - 1) with 31. apply andb_true_iff. rewrite Z.leb_le, Z.ltb_lt. lia.
Qed.

(** The split at the last slash. *)
Lemma strrchr_slash_some s r : strrchr_slash s = Some r → ∃ dir, s = dir ++ (x2f :: r) ∧ x2f ∉ r.
Proof.
  assert (Hnone : ∀ s, strrchr_slash s = None → x2f ∉ s).
  { intros s0. induction s0 as [|c s0 IH]; simpl; [set_solver|].
    destruct (strrchr_slash s0); [done|]. case_decide; [done|]. intros _.
    rewrite not_elem_of_cons. split; [done|by apply IH]. }
  induction s as [|c s IH] in r |- *; simpl; [done|].
  destruct (strrchr_slash s) as [r'|] eqn:E.
  - intros [= ->]. destruct (IH r eq_refl) as (dir & -> & ?). by exists (c :: dir).
  - case_decide; [|done]. intros [= ->]. subst. exists []. split; [done|by apply Hnone].
Qed.

Lemma strrchr_slash_none s : strrchr_slash s = None → x2f ∉ s.
Proof.
  induction s as [|c s IH]; simpl; [set_solver|]. destruct (strrchr_slash s); [done|].
  case_decide; [done|]. intros _. rewrite not_elem_of_cons. split; [done|by apply IH].
Qed.

(** ** Properties *)

(** What the statements promise, one by one, without the constructors they use: which of them look at the
    threshold, what stands between the time and the inserted items, and which end the process. *)
Definition written (threshold : LogLevel) (m : macro) : Prop :=
  match m with
  | LOG_TRACE _ => threshold = TRACE
  | LOG_DEBUG _ => threshold = TRACE ∨ threshold = DEBUG
  | LOG_INFO => threshold = TRACE ∨ threshold = DEBUG ∨ threshold = INFO
  | LOG_WARN | LOG_ERROR | LOG_FATAL | LOG_SYSERR _ _ | LOG_SYSFATAL _ _ => True
  end.

Definition system_error (errno : Z) (strerror : list byte) : list item :=
  if decide (errno = 0) then []
  else [ICStr (Some strerror); ICStr (Some (txt " (errno=")); IInt t_int errno; ICStr (Some (txt ") "))].

Definition heading (m : macro) : list item :=
  match m with
  | LOG_TRACE func => [ICStr (Some (txt "TRACE ")); ICStr (Some func); IChar x20]
  | LOG_DEBUG func => [ICStr (Some (txt "DEBUG ")); ICStr (Some func); IChar x20]
  | LOG_INFO => [ICStr (Some (txt "INFO  "))]
  | LOG_WARN => [ICStr (Some (txt "WARN  "))]
  | LOG_ERROR => [ICStr (Some (txt "ERROR "))]
  | LOG_FATAL => [ICStr (Some (txt "FATAL "))]
  | LOG_SYSERR errno strerror => ICStr (Some (txt "ERROR ")) :: system_error errno strerror
  | LOG_SYSFATAL errno strerror => ICStr (Some (txt "FATAL ")) :: system_error errno strerror
  end.

Definition ends_process (m : macro) : bool :=
  match m with LOG_FATAL | LOG_SYSFATAL _ _ => true | _ => false end.

(** [base] is the part of [path] behind its last slash. *)
Definition last_component (path base : list byte) : Prop :=
  (x2f ∉ base) ∧ (path = base ∨ ∃ dir, path = dir ++ (x2f :: base)).

(** The parts of a line, in order. *)
Definition line_parts (tv : clock_text) (m : macro) (base : list byte) (line : Z) (items : list item) : list item :=
  [ICStr (Some (strTime tv)); ICStr (Some (format_06d (tv_usec tv)))] ++ heading m ++ items ++
  [ICStr (Some (txt " - ")); ICStr (Some base); IChar x3a; IInt t_int line; IChar x0a].

Lemma macro_enabled_written threshold m : macro_enabled threshold m = true ↔ written threshold m.
Proof. destruct m, threshold; cbn; split; intros; by try tauto; destruct_or?. Qed.

Lemma last_component_unique path base base' : last_component path base → last_component path base' → base = base'.
Proof.
  assert (Hslash : ∀ dir r, x2f ∈ dir ++ (x2f :: r)) by (intros; apply elem_of_app; right; by left).
  intros [Hn Hb] [Hn' Hb']. destruct Hb as [<-|[dir E]], Hb' as [<-|[dir' E']]; [done|..].
  - destruct Hn. rewrite E'. apply Hslash.
  - destruct Hn'. rewrite E. apply Hslash.
  - rewrite E in E'. clear E. induction dir as [|c dir IH] in dir', E' |- *; destruct dir' as [|c' dir']; cbn in E'.
    + congruence.
    + destruct Hn. injection E' as _ ->. apply Hslash.
    + destruct Hn'. injection E' as _ <-. apply Hslash.
    + eapply IH. by injection E'.
Qed.

Lemma strrchr_last_component file : last_component file (default file (strrchr_slash file)).
Proof.
  unfold last_component. destruct (strrchr_slash file) as [r|] eqn:E; cbn.
  - apply strrchr_slash_some in E as (dir & -> & Hr). split; [done|]. right. by exists dir.
  - split; [by apply strrchr_slash_none|by left].
Qed.

Lemma line_items_parts tv m file base line items :
  last_component file base → line_items tv m file line items = line_parts tv m base line items.
Proof.
  intros Hb. unfold line_items, line_parts, end_items, time_items.
  rewrite (last_component_unique _ _ _ (strrchr_last_component file) Hb). f_equal. f_equal.
  destruct m as [| | | | | |errno s|errno s]; try done; cbn [macro_ctor ctor_items heading]; unfold system_error, errno_items;
    destruct (decide (errno = 0)) as [->|Hne]; try done; unfold ctor_items; by rewrite (proj2 (Z.eqb_neq _ _) Hne).
Qed.

(** C39: what a log statement does.  LOG_TRACE, LOG_DEBUG and LOG_INFO do nothing when the threshold is above their
    level; these otherwise, and the other statements always, give one line to the output function.  The line is the
    concatenation, in this order, of the time, the six digits of the microseconds, the level's name, for LOG_TRACE
    and LOG_DEBUG the function's name, for LOG_SYSERR and LOG_SYSFATAL the error's text and number unless it is 0,
    the inserted items, " - ", what stands behind the last slash of the file's path, ":", the line's number and a
    newline: each text complete, or missing as a whole, and none missing when the space the items ask for is at
    most the 4096 bytes of the stream.  After LOG_FATAL and LOG_SYSFATAL, and no other, the line is flushed and the
    process aborts. *)
Theorem log_statement_line threshold tv m file base line items uninit :
  zlen uninit = kSmallBuffer → last_component file base →
  let parts := line_parts tv m base line items in
  Forall item_ok parts →
  (written threshold m →
    ∃ texts, Forall2 (λ i s, prints i s ∨ s = []) parts texts ∧
      (total_need parts ≤ kSmallBuffer → Forall2 prints parts texts) ∧
      zlen (concat texts) ≤ kSmallBuffer ∧
      log_statement threshold tv m file line items uninit =
        Ok (EOutput (concat texts) :: if ends_process m then [EFlush; EAbort] else [])) ∧
  (¬ written threshold m → log_statement threshold tv m file line items uninit = Ok []).
Proof.
  intros Hlen Hbase parts Hok. rewrite <- macro_enabled_written.
  split; [|intros Hen%not_true_is_false; unfold log_statement; by rewrite Hen]. intros Hen.
  assert (Hwf : fb_wf (FixedBuffer_init uninit)) by (split; simpl; rewrite Hlen; done).
  destruct (wp_inv (insert_items_spec _ _ Hwf Hok)) as ([] & b & Hrun & texts & H1 & H2 & H3 & H4 & H5).
  rewrite contents_init, app_nil_l in H5. cbn [FixedBuffer_init data_ cur_] in *. exists texts.
  rewrite log_statement_items, (line_items_parts _ _ _ _ _ _ Hbase) by done. fold parts.
  rewrite Hrun, output_of_contents, H5 by done. rewrite Hlen in *.
  assert (zlen (concat texts) = cur_ b) as Hc by (by rewrite <- H5, zlen_contents).
  split_and!; [done|done| |by destruct m]. destruct H3 as [H3 _]. simpl in Hc. lia.
Qed.

Definition noon : clock_text := mkClockText (txt "2024-01-31 12:00:00.") 4077.

Lemma log_statement_line_witness :
  let m := LOG_SYSFATAL 24 (txt "Too many open files") in
  let parts := line_parts noon m (txt "a.cc") 81 [IInt t_int 7] in
  ∃ texts, Forall2 prints parts texts ∧ zlen (concat texts) ≤ kSmallBuffer ∧
    log_statement ERROR noon m (txt "src/net/a.cc") 81 [IInt t_int 7] (replicate (Z.to_nat 4096) x00) =
      Ok (EOutput (concat texts) :: [EFlush; EAbort]).
Proof.
  intros m parts.
  destruct (log_statement_line ERROR noon m (txt "src/net/a.cc") (txt "a.cc") 81 [IInt t_int 7] (replicate (Z.to_nat 4096) x00))
    as [Hline _].
  - rewrite zlen_replicate; [reflexivity|discriminate].
  - split; [by apply (bool_decide_eq_true_1 (x2f ∉ txt "a.cc"))|right; by exists (txt "src/net")].
  - repeat constructor; vm_compute; intros; discriminate.
  - destruct (Hline I) as (texts & _ & Hall & Hlen & Hrun). exists texts. split_and!; [|exact Hlen|exact Hrun].
    apply Hall. vm_compute. discriminate.
Defined.

(** Standard output as what has reached it and what is still buffered: a fatal line and all before it are written
    before the process is gone; an output function set later does not change the flush. *)
Example fatal_is_flushed :
  let fwrite msg '(out, buf) := (out, buf ++ msg) in
  let fflush '(out, buf) := (out ++ buf, []) in
  let s := Sinks_init fwrite fflush in
  perform s (EOutput (txt "a") :: [EOutput (txt "b"); EFlush; EAbort]) ([], []) = (true, (txt "ab", [])) ∧
  perform (setOutput (λ _ w, w) s) [EOutput (txt "a"); EFlush] ([], txt "c") = (false, (txt "c", [])).
Proof. by split. Qed.

(** The file name of a line is the part after the last slash: a suffix of the path without a
    slash, preceded by one unless it is the whole path; [size_] is its length, and both constructors
    of [SourceFile] agree. *)
Theorem basename_is_last_component (path : list byte) :
  let sf := SourceFile_array path in
  sf = SourceFile_cstr path ∧ sf_size sf = zlen (sf_data sf) ∧ (x2f ∉ sf_data sf) ∧
  (sf_data sf = path ∨ ∃ dir, path = dir ++ (x2f :: sf_data sf)).
Proof.
  unfold SourceFile_array, SourceFile_cstr. destruct (strrchr_slash path) as [r|] eqn:E; cbn.
  - apply strrchr_slash_some in E as (dir & -> & Hr). split_and!.
    + f_equal. lia.
    + lia.
    + done.
    + right. by exists dir.
  - apply strrchr_slash_none in E. split_and!; [done|done|done|by left].
Qed.
