(* ===== verification/StdSet.v ===== *)
(** * StdSet: what the program uses of [std::set]

    A [std::set] over a strict order is the sorted list of its elements; iterators
    are positions in it.  The order is an interface ([Less]) with instances for
    integers and pairs, as [std::less] has.  Each operation comes with the lemmas
    its clients use: sortedness is kept, the elements, the size, the reported
    result. *)
From Stdlib Require Import Sorting.Sorted.
From S2P Require Import Prelude.

(** [std::less]: a strict total order, decided by a function. *)
Class Less (A : Type) : Type := {
  less : A → A → bool;
  less_irrefl a : less a a = false;
  less_trans a b c : less a b = true → less b c = true → less a c = true;
  less_total a b : less a b = false → less b a = false → a = b
}.

#[export, refine] Instance Z_less : Less Z := {| less := Z.ltb |}.
Proof.
  - apply Z.ltb_irrefl.
  - intros a b c. rewrite !Z.ltb_lt. lia.
  - intros a b. rewrite !Z.ltb_ge. lia.
Defined.

(** [operator<] of [std::pair]. *)
Definition pair_less {A B} `{Less A, Less B} (p q : A * B) : bool :=
  less p.1 q.1 || (negb (less q.1 p.1) && less p.2 q.2).

#[export, refine] Instance pair_Less {A B} `{Less A, Less B} : Less (A * B) := {| less := pair_less |}.
Proof.
  - intros [a b]. unfold pair_less. simpl. by rewrite !less_irrefl.
  - intros [a1 a2] [b1 b2] [c1 c2]. unfold pair_less. simpl.
    rewrite !orb_true_iff, !andb_true_iff, !negb_true_iff. intros [Hab|[Hba Hab]] [Hbc|[Hcb Hbc]].
    + left. by eapply less_trans.
    + left. destruct (less b1 c1) eqn:E; [by eapply less_trans|].
      by rewrite (less_total c1 b1 Hcb E).
    + left. destruct (less a1 b1) eqn:E; [by eapply less_trans|].
      by rewrite (less_total a1 b1 E Hba).
    + destruct (less a1 b1) eqn:E.
      { destruct (less b1 c1) eqn:E2; [left; by eapply less_trans|].
        rewrite <- (less_total b1 c1 E2 Hcb). by left. }
      rewrite (less_total a1 b1 E Hba). destruct (less b1 c1) eqn:E2; [by left|].
      right. split; [done|by eapply less_trans].
  - intros [a1 a2] [b1 b2]. unfold pair_less. simpl.
    rewrite !orb_false_iff, !andb_false_iff, !negb_false_iff. intros [H1 [?|H2]] [H3 [?|H4]]; try congruence.
    f_equal; by apply less_total.
Defined.

Section std_set.
Context {A : Type} `{Less A}.
Implicit Types (s : list A) (x y : A).

(** The representation invariant. *)
Definition set_wf (s : list A) : Prop := StronglySorted (λ a b, less a b = true) s.

(** [insert]: the set and whether the element was new. *)
Fixpoint set_insert (x : A) (s : list A) : list A * bool :=
  match s with
  | [] => ([x], true)
  | y :: s' =>
      if less x y then (x :: s, true)
      else if less y x then let '(s'', b) := set_insert x s' in (y :: s'', b)
      else (s, false)
  end.

(** [erase(key)]: the set and the number of elements removed. *)
Fixpoint set_erase (x : A) (s : list A) : list A * Z :=
  match s with
  | [] => ([], 0)
  | y :: s' =>
      if less x y then (s, 0)
      else if less y x then let '(s'', n) := set_erase x s' in (y :: s'', n)
      else (s', 1)
  end.

(** [find(key) != end()]. *)
Fixpoint set_mem (x : A) (s : list A) : bool :=
  match s with
  | [] => false
  | y :: s' => if less x y then false else if less y x then set_mem x s' else true
  end.

(** [lower_bound(key)]: the elements before the returned position, and those from it on. *)
Fixpoint set_lower_bound (x : A) (s : list A) : list A * list A :=
  match s with
  | [] => ([], [])
  | y :: s' =>
      if less y x then let '(p, q) := set_lower_bound x s' in (y :: p, q) else ([], s)
  end.

Lemma less_asym x y : less x y = true → less y x = false.
Proof.
  intros Hxy. destruct (less y x) eqn:Hyx; [|done].
  pose proof (less_trans x y x Hxy Hyx). by rewrite less_irrefl in *.
Qed.

Lemma set_wf_nil : set_wf [].
Proof. constructor. Qed.

Lemma set_wf_cons x s : set_wf (x :: s) ↔ set_wf s ∧ (∀ y, y ∈ s → less x y = true).
Proof.
  unfold set_wf. split.
  - intros Hs. apply StronglySorted_inv in Hs as [Hs Hall]. split; [done|].
    by rewrite list.Forall_forall in Hall.
  - intros [Hs Hall]. constructor; [done|]. by rewrite list.Forall_forall.
Qed.

Lemma set_wf_app s1 s2 : set_wf (s1 ++ s2) ↔
  set_wf s1 ∧ set_wf s2 ∧ (∀ x y, x ∈ s1 → y ∈ s2 → less x y = true).
Proof.
  induction s1 as [|a s1 IH]; cbn [app].
  { split; [|by intros (_ & ? & _)]. intros. split_and!; [apply set_wf_nil|done|]. by intros ?? ?%elem_of_nil. }
  rewrite !set_wf_cons, IH. setoid_rewrite elem_of_app. setoid_rewrite elem_of_cons. split.
  - intros ((? & ? & H3) & H4). split_and!; [done|by eauto|done|]. intros x y [->|?] ?; eauto.
  - intros ((? & ?) & ? & H4). split_and!; [done|done|by eauto|]. intros y [?|?]; eauto.
Qed.

Lemma less_neq x y : less x y = true → x ≠ y.
Proof. intros Hl ->. by rewrite less_irrefl in Hl. Qed.

Lemma set_mem_elem x s : set_wf s → set_mem x s = true ↔ x ∈ s.
Proof.
  induction s as [|y s IH]; [intros _; by rewrite elem_of_nil|].
  rewrite set_wf_cons, elem_of_cons. intros [Hs Hall]. cbn [set_mem].
  destruct (less x y) eqn:E1; [|destruct (less y x) eqn:E2].
  - split; [done|]. intros [->|Hx]; [by rewrite less_irrefl in E1|].
    apply Hall, less_asym in Hx. congruence.
  - rewrite IH by done. split; [by right|]. intros [->|?]; [by rewrite less_irrefl in E2|done].
  - split; [|done]. intros _. left. by apply less_total.
Qed.

Lemma set_insert_elem x y s : y ∈ (set_insert x s).1 ↔ y = x ∨ y ∈ s.
Proof.
  induction s as [|z s IH]; cbn [set_insert].
  { cbn [fst]. by rewrite elem_of_cons. }
  destruct (less x z) eqn:E1; [|destruct (less z x) eqn:E2].
  - cbn [fst]. by rewrite !elem_of_cons.
  - destruct (set_insert x s) as [s' b]. cbn [fst] in *. rewrite !elem_of_cons, IH. tauto.
  - rewrite (less_total x z E1 E2). cbn [fst]. rewrite !elem_of_cons. tauto.
Qed.

Lemma set_insert_wf x s : set_wf s → set_wf (set_insert x s).1.
Proof.
  induction s as [|z s IH]; cbn [set_insert].
  { intros _. cbn [fst]. apply set_wf_cons. split; [apply set_wf_nil|]. by intros ? ?%elem_of_nil. }
  intros Hz. pose proof Hz as [Hs Hall]%set_wf_cons.
  destruct (less x z) eqn:E1; [|destruct (less z x) eqn:E2]; [|
    pose proof (λ y, set_insert_elem x y s) as Hel; destruct (set_insert x s) as [s' b]|done];
    cbn [fst] in *.
  - apply set_wf_cons. split; [done|]. intros y [->|Hy]%elem_of_cons; [done|].
    by eapply less_trans; [|apply Hall].
  - apply set_wf_cons. split; [by apply IH|]. intros y [->|Hy]%Hel; [done|by apply Hall].
Qed.

Lemma set_insert_new x s : set_wf s → x ∉ s →
  (set_insert x s).2 = true ∧ zlen (set_insert x s).1 = zlen s + 1.
Proof.
  induction s as [|z s IH]; cbn [set_insert]; [done|].
  intros [Hs Hall]%set_wf_cons Hx. apply not_elem_of_cons in Hx as [Hxz Hx].
  destruct (less x z) eqn:E1; [|destruct (less z x) eqn:E2].
  - cbn [fst snd]. by rewrite !zlen_cons, Z.add_comm.
  - destruct (set_insert x s) as [s' b]. cbn [fst snd] in *. rewrite !zlen_cons.
    destruct IH; [done..|]. split; [done|lia].
  - by destruct Hxz; apply less_total.
Qed.

Lemma set_erase_elem x y s : set_wf s → y ∈ (set_erase x s).1 ↔ y ≠ x ∧ y ∈ s.
Proof.
  induction s as [|z s IH]; cbn [set_erase].
  { intros _. cbn [fst]. rewrite elem_of_nil. tauto. }
  intros [Hs Hall]%set_wf_cons.
  destruct (less x z) eqn:E1; [|destruct (less z x) eqn:E2].
  - cbn [fst]. rewrite !elem_of_cons. split; [|tauto]. intros Hy. split; [|done]. intros ->.
    destruct Hy as [->|Hy]; [by rewrite less_irrefl in E1|]. apply Hall, less_asym in Hy. congruence.
  - destruct (set_erase x s) as [s' n]. cbn [fst] in *. rewrite !elem_of_cons, IH by done.
    pose proof (less_neq _ _ E2). split; [|tauto]. intros [->|?]; [by split; [|left]|tauto].
  - rewrite (less_total x z E1 E2). cbn [fst]. rewrite elem_of_cons. split; [|tauto].
    intros Hy. split; [|tauto]. intros ->. apply Hall in Hy. by rewrite less_irrefl in Hy.
Qed.

Lemma set_erase_wf x s : set_wf s → set_wf (set_erase x s).1.
Proof.
  induction s as [|z s IH]; cbn [set_erase]; [done|].
  intros Hz. pose proof Hz as [Hs Hall]%set_wf_cons.
  destruct (less x z) eqn:E1; [|destruct (less z x) eqn:E2]; [done| |done].
  pose proof (λ y, set_erase_elem x y s Hs) as Hel. destruct (set_erase x s) as [s' n].
  cbn [fst] in *. apply set_wf_cons. split; [by apply IH|]. intros y [_ Hy]%Hel. by apply Hall.
Qed.

Lemma set_erase_old x s : set_wf s → x ∈ s →
  (set_erase x s).2 = 1 ∧ zlen (set_erase x s).1 = zlen s - 1.
Proof.
  induction s as [|z s IH]; cbn [set_erase]; [by intros _ ?%elem_of_nil|].
  intros [Hs Hall]%set_wf_cons Hx. apply elem_of_cons in Hx.
  destruct (less x z) eqn:E1; [|destruct (less z x) eqn:E2].
  - destruct Hx as [->|Hx]; [by rewrite less_irrefl in E1|]. apply Hall, less_asym in Hx. congruence.
  - destruct Hx as [->|Hx]; [by rewrite less_irrefl in E2|].
    destruct (set_erase x s) as [s' n]. cbn [fst snd] in *. rewrite !zlen_cons.
    destruct IH; [done..|]. split; [done|lia].
  - cbn [fst snd]. rewrite zlen_cons. split; [done|lia].
Qed.

Lemma set_lower_bound_spec x s : set_wf s →
  s = (set_lower_bound x s).1 ++ (set_lower_bound x s).2 ∧
  (∀ y, y ∈ (set_lower_bound x s).1 → less y x = true) ∧
  (∀ y, y ∈ (set_lower_bound x s).2 → less y x = false).
Proof.
  induction s as [|z s IH]; cbn [set_lower_bound].
  { intros _. cbn [fst snd]. split_and!; [done|by intros ? ?%elem_of_nil..]. }
  intros [Hs Hall]%set_wf_cons. destruct (less z x) eqn:E.
  - destruct (set_lower_bound x s) as [p q]. cbn [fst snd] in *.
    destruct IH as (-> & Hp & Hq); [done|]. split_and!; [done| |done].
    intros y [->|?]%elem_of_cons; [done|by apply Hp].
  - cbn [fst snd]. split_and!; [done|by intros ? ?%elem_of_nil|].
    intros y [->|Hy]%elem_of_cons; [done|]. destruct (less y x) eqn:E2; [|done].
    rewrite <- E. symmetry. by eapply less_trans; [apply Hall|].
Qed.

(** The first element is the least. *)
Lemma set_wf_hd x s y : set_wf (x :: s) → y ∈ x :: s → less y x = false.
Proof.
  intros [Hs Hall]%set_wf_cons [->|Hy]%elem_of_cons; [apply less_irrefl|]. by apply less_asym, Hall.
Qed.

Lemma set_wf_NoDup s : set_wf s → NoDup s.
Proof.
  induction s as [|x s IH]; [constructor|]. intros [Hs Hall]%set_wf_cons. constructor; [|by apply IH].
  intros Hx%Hall. by rewrite less_irrefl in Hx.
Qed.
End std_set.
