(* ===== verification/TimerQueue.v ===== *)
(** * TimerQueue: [Timer], [TimerId], [TimerQueue] (net/timer)

    Timers are heap objects.  [timers_] orders their addresses by expiration,
    [activeTimers_] finds a timer by address and sequence number, [cancelingTimers_]
    remembers what the callbacks of the running round cancelled.  The kernel's
    timerfd is reset whenever the earliest expiration changes.

    User callbacks are scripts of the calls they make back into the queue: since a
    statement quantifies over all scripts, it covers every callback.  The heap is
    explicit: using an address that is not allocated is undefined behaviour, and an
    answer of [operator new] that is not a fresh address stands for a failed
    allocation. *)
From S2P Require Import Prelude Double Timestamp StdSet.

(** ** Timer *)

(** An empty [std::function] is [None]. *)
Definition TimerCallback : Type := option Z.

Record Timer : Type := mkTimer {
  callback_ : TimerCallback;
  expiration_ : Timestamp;
  interval_ : double;
  repeat_ : bool;
  sequence_ : Z
}.

Definition Timer_init (cb : TimerCallback) (when : Timestamp) (interval : double) (sequence : Z) : Timer :=
  mkTimer cb when interval (dgtb interval dzero) sequence.

Definition Timer_run (t : Timer) : outcome () :=
  match callback_ t with Some _ => Ok tt | None => Fault BadFunctionCall end.

Definition Timer_restart (t : Timer) (now : Timestamp) : outcome Timer :=
  if repeat_ t then
    e ← addTime now (interval_ t);
    Ok (mkTimer (callback_ t) e (interval_ t) (repeat_ t) (sequence_ t))
  else Ok (mkTimer (callback_ t) invalid (interval_ t) (repeat_ t) (sequence_ t)).

(** The default [TimerId] is the null pointer with sequence 0. *)
Record TimerId : Type := mkTimerId { id_timer : Z; id_sequence : Z }.
Definition TimerId_default : TimerId := mkTimerId 0 0.

(** ** What the kernel answers *)

(** [gettimeofday n] is the answer of its [n]-th call: seconds and microseconds after
    1970.  [timerfd_settime] accepts a normalized relative time, as documented. *)
Class TimeKernel : Type := {
  gettimeofday : nat → Z * Z;
  gettimeofday_range n : 0 < (gettimeofday n).1 < 2 ^ 39 ∧ 0 ≤ (gettimeofday n).2 < 1000000;
  timerfd_settime : Z → Z → Z;
  timerfd_settime_accepts sec nsec : 0 ≤ sec → 0 ≤ nsec ≤ 999999999 → timerfd_settime sec nsec = 0
}.

(** A one-shot timer that is set: the relative time, and the clock answer it is based on. *)
Record itimer : Type := mkItimer { tv_sec : Z; tv_nsec : Z; set_at : Timestamp }.

(** When it expires, in microseconds. *)
Definition alarm (it : itimer) : Z := set_at it + tv_sec it * 1000000 + tv_nsec it / 1000.

(** ** State *)

(** [std::pair<Timestamp, Timer*>] and [std::pair<Timer*, int64_t>]. *)
Abbreviation Entry := (Z * Z)%type.
Abbreviation ActiveTimer := (Z * Z)%type.

(** What another thread puts into the loop's queue. *)
Inductive functor : Type :=
| AddTimerInLoop (timer : Z)
| CancelInLoop (timerId : TimerId).

Record TimerQueue : Type := mkTimerQueue {
  heap_ : gmap Z Timer;
  s_numCreated_ : Z;
  timers_ : list Entry;
  activeTimers_ : list ActiveTimer;
  cancelingTimers_ : list ActiveTimer;
  callingExpiredTimers_ : bool;
  timerfd_ : option itimer;
  pendingFunctors_ : list functor;
  calls_ : nat   (** of gettimeofday so far *)
}.

Definition TimerQueue_init : TimerQueue := mkTimerQueue ∅ 0 [] [] [] false None [] 0.

Definition set_heap h q := mkTimerQueue h (s_numCreated_ q) (timers_ q) (activeTimers_ q)
  (cancelingTimers_ q) (callingExpiredTimers_ q) (timerfd_ q) (pendingFunctors_ q) (calls_ q).
Definition set_numCreated n q := mkTimerQueue (heap_ q) n (timers_ q) (activeTimers_ q)
  (cancelingTimers_ q) (callingExpiredTimers_ q) (timerfd_ q) (pendingFunctors_ q) (calls_ q).
Definition set_timers l q := mkTimerQueue (heap_ q) (s_numCreated_ q) l (activeTimers_ q)
  (cancelingTimers_ q) (callingExpiredTimers_ q) (timerfd_ q) (pendingFunctors_ q) (calls_ q).
Definition set_active l q := mkTimerQueue (heap_ q) (s_numCreated_ q) (timers_ q) l
  (cancelingTimers_ q) (callingExpiredTimers_ q) (timerfd_ q) (pendingFunctors_ q) (calls_ q).
Definition set_canceling l q := mkTimerQueue (heap_ q) (s_numCreated_ q) (timers_ q) (activeTimers_ q)
  l (callingExpiredTimers_ q) (timerfd_ q) (pendingFunctors_ q) (calls_ q).
Definition set_calling b q := mkTimerQueue (heap_ q) (s_numCreated_ q) (timers_ q) (activeTimers_ q)
  (cancelingTimers_ q) b (timerfd_ q) (pendingFunctors_ q) (calls_ q).
Definition set_timerfd o q := mkTimerQueue (heap_ q) (s_numCreated_ q) (timers_ q) (activeTimers_ q)
  (cancelingTimers_ q) (callingExpiredTimers_ q) o (pendingFunctors_ q) (calls_ q).
Definition set_pending l q := mkTimerQueue (heap_ q) (s_numCreated_ q) (timers_ q) (activeTimers_ q)
  (cancelingTimers_ q) (callingExpiredTimers_ q) (timerfd_ q) l (calls_ q).
Definition set_calls n q := mkTimerQueue (heap_ q) (s_numCreated_ q) (timers_ q) (activeTimers_ q)
  (cancelingTimers_ q) (callingExpiredTimers_ q) (timerfd_ q) (pendingFunctors_ q) n.

Definition UINTPTR_MAX : Z := 2 ^ 64 - 1.

(** [*timer]. *)
Definition deref (timer : Z) : prog TimerQueue Timer :=
  q ← get;
  match heap_ q !! timer with Some t => mret t | None => raise UndefinedBehaviour end.

(** [delete timer]. *)
Definition delete_timer (timer : Z) : prog TimerQueue () :=
  deref timer ;;
  modify (λ q, set_heap (delete timer (heap_ q)) q).

(** [new Timer(cb, when, interval)], where [operator new] answers [addr]. *)
Definition new_timer (cb : TimerCallback) (when : Timestamp) (interval : double) (addr : Z) :
    prog TimerQueue Z :=
  q ← get;
  if bool_decide (heap_ q !! addr = None) && (0 <? addr) && (addr <? UINTPTR_MAX) then
    modify (λ q, set_heap (<[addr := Timer_init cb when interval (s_numCreated_ q)]> (heap_ q))
                   (set_numCreated (to_signed 64 (s_numCreated_ q + 1)) q)) ;;
    mret addr
  else raise BadAlloc.

Definition same_size : prog TimerQueue () :=
  q ← get;
  assert! (zlen (timers_ q) =? zlen (activeTimers_ q)).

(** ** The queue's operations, in the loop's thread *)

Section operations.
Context `{TimeKernel}.

Definition now_ : prog TimerQueue Timestamp :=
  q ← get;
  put (set_calls (S (calls_ q)) q) ;;
  let '(sec, usec) := gettimeofday (calls_ q) in
  lift (Timestamp.now sec usec).

(** A [timespec] and the clock answer it was computed from. *)
Definition howMuchTimeFromNow (when : Timestamp) : prog TimerQueue itimer :=
  now ← now_;
  microseconds ← lift (checked 64 (microSecondsSinceEpoch when - microSecondsSinceEpoch now));
  let microseconds := if microseconds <? 100 then 100 else microseconds in
  mret (mkItimer (Z.quot microseconds kMicroSecondsPerSecond)
                 (Z.rem microseconds kMicroSecondsPerSecond * 1000) now).

(** An interval of zero disarms the timer; a failure is logged. *)
Definition resetTimerfd (expiration : Timestamp) : prog TimerQueue () :=
  newValue ← howMuchTimeFromNow expiration;
  when_ (timerfd_settime (tv_sec newValue) (tv_nsec newValue) =? 0)
    (modify (set_timerfd (if (tv_sec newValue =? 0) && (tv_nsec newValue =? 0)
                          then None else Some newValue))).

Definition insert (timer : Z) : prog TimerQueue bool :=
  same_size ;;
  t ← deref timer;
  let when := expiration_ t in
  q ← get;
  let earliestChanged :=
    match timers_ q with [] => true | (first, _) :: _ => Timestamp.ltb when first end in
  let result := set_insert (when, timer) (timers_ q) in
  modify (set_timers result.1) ;;
  assert! (result.2) ;;
  let result' := set_insert (timer, sequence_ t) (activeTimers_ q) in
  modify (set_active result'.1) ;;
  assert! (result'.2) ;;
  same_size ;;
  mret earliestChanged.

Definition addTimerInLoop (timer : Z) : prog TimerQueue () :=
  earliestChanged ← insert timer;
  when_ earliestChanged (
    t ← deref timer;
    resetTimerfd (expiration_ t)).

Definition cancelInLoop (timerId : TimerId) : prog TimerQueue () :=
  same_size ;;
  let timer := (id_timer timerId, id_sequence timerId) in
  q ← get;
  (if set_mem timer (activeTimers_ q) then
     t ← deref (id_timer timerId);
     let result := set_erase (expiration_ t, id_timer timerId) (timers_ q) in
     modify (set_timers result.1) ;;
     assert! (result.2 =? 1) ;;
     delete_timer (id_timer timerId) ;;
     modify (set_active (set_erase timer (activeTimers_ q)).1)
   else
     when_ (callingExpiredTimers_ q)
       (modify (set_canceling (set_insert timer (cancelingTimers_ q)).1))) ;;
  same_size.

(** The loop of [getExpired] that takes the expired timers out of [activeTimers_]. *)
Definition erase_active (it : Entry) : prog TimerQueue () :=
  t ← deref it.2;
  q ← get;
  let result := set_erase (it.2, sequence_ t) (activeTimers_ q) in
  modify (set_active result.1) ;;
  assert! (result.2 =? 1).

Definition getExpired (now : Timestamp) : prog TimerQueue (list Entry) :=
  same_size ;;
  q ← get;
  let '(expired, rest) := set_lower_bound (now, UINTPTR_MAX) (timers_ q) in
  assert! (match rest with [] => true | (first, _) :: _ => Timestamp.ltb now first end) ;;
  modify (set_timers rest) ;;
  for_each erase_active expired ;;
  same_size ;;
  mret expired.

Definition reset_one (now : Timestamp) (it : Entry) : prog TimerQueue () :=
  t ← deref it.2;
  q ← get;
  if repeat_ t && negb (set_mem (it.2, sequence_ t) (cancelingTimers_ q)) then
    t' ← lift (Timer_restart t now);
    modify (λ q, set_heap (<[it.2 := t']> (heap_ q)) q) ;;
    insert it.2 ;;
    mret tt
  else delete_timer it.2.

Definition reset (expired : list Entry) (now : Timestamp) : prog TimerQueue () :=
  for_each (reset_one now) expired ;;
  q ← get;
  nextExpire ← match timers_ q with
               | [] => mret Timestamp_default
               | (_, first) :: _ => t ← deref first; mret (expiration_ t)
               end;
  when_ (valid nextExpire) (resetTimerfd nextExpire).

(** ** The interface, from any thread *)

(** A call into the queue; [addr] is what [operator new] answers. *)
Inductive action : Type :=
| AddTimer (cb : TimerCallback) (when : Timestamp) (interval : double) (addr : Z)
| Cancel (timerId : TimerId).

(** [EventLoop::runInLoop] of a functor: at once in the loop's thread, queued otherwise. *)
Definition run_functor (f : functor) : prog TimerQueue () :=
  match f with
  | AddTimerInLoop timer => addTimerInLoop timer
  | CancelInLoop timerId => cancelInLoop timerId
  end.

Definition runInLoop (in_loop : bool) (f : functor) : prog TimerQueue () :=
  if in_loop then run_functor f
  else modify (λ q, set_pending (pendingFunctors_ q ++ [f]) q).

(** [addTimer] up to the call of [runInLoop], and what follows it. *)
Definition addTimer_start (in_loop : bool) (cb : TimerCallback) (when : Timestamp) (interval : double)
    (addr : Z) : prog TimerQueue Z :=
  timer ← new_timer cb when interval addr;
  runInLoop in_loop (AddTimerInLoop timer) ;;
  mret timer.

Definition addTimer_return (timer : Z) : prog TimerQueue TimerId :=
  t ← deref timer;
  mret (mkTimerId timer (sequence_ t)).

Definition addTimer (in_loop : bool) (cb : TimerCallback) (when : Timestamp) (interval : double)
    (addr : Z) : prog TimerQueue TimerId :=
  timer ← addTimer_start in_loop cb when interval addr;
  addTimer_return timer.

Definition cancel (in_loop : bool) (timerId : TimerId) : prog TimerQueue () :=
  runInLoop in_loop (CancelInLoop timerId).

(** The loop's interface to it: [EventLoop::runAt], [runAfter], [runEvery], [cancelTimer]. *)
Definition runAt (in_loop : bool) (time : Timestamp) (cb : TimerCallback) (addr : Z) : prog TimerQueue TimerId :=
  addTimer in_loop cb time dzero addr.

Definition runAfter (in_loop : bool) (delay : double) (cb : TimerCallback) (addr : Z) : prog TimerQueue TimerId :=
  now ← now_;
  time ← lift (addTime now delay);
  runAt in_loop time cb addr.

Definition runEvery (in_loop : bool) (interval : double) (cb : TimerCallback) (addr : Z) : prog TimerQueue TimerId :=
  now ← now_;
  time ← lift (addTime now interval);
  addTimer in_loop cb time interval addr.

Definition cancelTimer (in_loop : bool) (timerId : TimerId) : prog TimerQueue () := cancel in_loop timerId.

Definition run_action (in_loop : bool) (a : action) : prog TimerQueue () :=
  match a with
  | AddTimer cb when interval addr => addTimer in_loop cb when interval addr ;; mret tt
  | Cancel timerId => cancel in_loop timerId
  end.

(** [it.second->run()]: the callback makes the calls of its script. *)
Definition run_expired (p : Entry * list action) : prog TimerQueue () :=
  t ← deref p.1.2;
  lift (Timer_run t) ;;
  for_each (run_action true) p.2.

(** The scripts of the callbacks that run, one for each expired timer. *)
Fixpoint with_scripts (expired : list Entry) (scripts : list (list action)) :
    list (Entry * list action) :=
  match expired, scripts with
  | [], _ => []
  | e :: expired', [] => (e, []) :: with_scripts expired' []
  | e :: expired', s :: scripts' => (e, s) :: with_scripts expired' scripts'
  end.

(** [fired]: the one-shot timer has expired (it is then no longer set). *)
Definition handleRead (fired : bool) (scripts : list (list action)) : prog TimerQueue () :=
  when_ fired (modify (set_timerfd None)) ;;
  now ← now_;
  expired ← getExpired now;
  modify (set_calling true) ;;
  modify (set_canceling []) ;;
  for_each run_expired (with_scripts expired scripts) ;;
  modify (set_calling false) ;;
  reset expired now.

(** [doPendingFunctors]: the functors that are queued, in order. *)
Definition run_pending : prog TimerQueue () :=
  q ← get;
  put (set_pending [] q) ;;
  for_each run_functor (pendingFunctors_ q).

(** The destructor's loop. *)
Definition TimerQueue_dtor : prog TimerQueue () :=
  q ← get;
  for_each (λ timer : Entry, delete_timer timer.2) (timers_ q).

(** What can happen to a queue between two points of its loop. *)
Inductive event : Type :=
| EAction (in_loop : bool) (a : action)
| EStart (cb : TimerCallback) (when : Timestamp) (interval : double) (addr : Z)
                        (** another thread's [addTimer] hands its timer over *)
| EReturn (timer : Z)   (** and reads its sequence number *)
| EPending
| EHandleRead (fired : bool) (scripts : list (list action)).

Definition run_event (e : event) : prog TimerQueue () :=
  match e with
  | EAction in_loop a => run_action in_loop a
  | EStart cb when interval addr => addTimer_start false cb when interval addr ;; mret tt
  | EReturn timer => addTimer_return timer ;; mret tt
  | EPending => run_pending
  | EHandleRead fired scripts => handleRead fired scripts
  end.

Definition run_events (es : list event) : prog TimerQueue () := for_each run_event es.
End operations.

(** ** Invariant

    [owned] are the allocated timers that are not in the queue: those of queued
    functors and those of the expired list being processed. *)

(** Callbacks are callable; times and intervals keep the clock's arithmetic in range. *)
Definition timer_ok (t : Timer) : Prop :=
  is_Some (callback_ t) ∧ - 2 ^ 62 ≤ expiration_ t ≤ 2 ^ 62 ∧
  (repeat_ t = true → ∃ d, delta_of (interval_ t) = Ok d ∧ 0 ≤ d ≤ 2 ^ 61).

Record inv (owned : list Z) (q : TimerQueue) : Prop := {
  inv_timers : set_wf (timers_ q);
  inv_active : set_wf (activeTimers_ q);
  inv_canceling : set_wf (cancelingTimers_ q);
  inv_size : zlen (timers_ q) = zlen (activeTimers_ q);
  inv_entry w a : (w, a) ∈ timers_ q ↔
    ∃ t, heap_ q !! a = Some t ∧ (a, sequence_ t) ∈ activeTimers_ q ∧ expiration_ t = w;
  inv_alloc a s : (a, s) ∈ activeTimers_ q → ∃ t, heap_ q !! a = Some t ∧ sequence_ t = s;
  inv_owned : NoDup owned;
  inv_owned_alloc a : a ∈ owned → is_Some (heap_ q !! a) ∧ ∀ s, (a, s) ∉ activeTimers_ q;
  inv_heap a t : heap_ q !! a = Some t →
    timer_ok t ∧ 0 < a < UINTPTR_MAX ∧ ((a, sequence_ t) ∈ activeTimers_ q ∨ a ∈ owned)
}.

(** The timers of the queued additions. *)
Definition pending_adds (fs : list functor) : list Z :=
  omap (λ f, match f with AddTimerInLoop a => Some a | CancelInLoop _ => None end) fs.

#[export] Instance inv_proper : Proper ((≡ₚ) ==> (=) ==> iff) inv.
Proof.
  assert (Hdir : ∀ o1 o2 q, o1 ≡ₚ o2 → inv o1 q → inv o2 q).
  { intros o1 o2 q Ho []. constructor; try done.
    - by rewrite <- Ho.
    - intros a. rewrite <- Ho. eauto.
    - intros a t. rewrite <- Ho. eauto. }
  intros o1 o2 Ho q ? <-. split; by apply Hdir.
Qed.

Lemma inv_init : inv [] TimerQueue_init.
Proof.
  constructor; simpl; try apply set_wf_nil; try done.
  - intros w a. rewrite elem_of_nil. split; [done|]. by intros (t & [=] & _).
  - by intros a s ?%elem_of_nil.
  - apply NoDup_nil_2.
  - by intros a ?%elem_of_nil.
Qed.

Lemma inv_not_owned o q a s : inv o q → (a, s) ∈ activeTimers_ q → a ∉ o.
Proof. intros Hq Ha Ho. apply (inv_owned_alloc _ _ Hq) in Ho as [_ Ho]. by apply (Ho s). Qed.

(** [new]. *)
Lemma inv_new o q addr t n :
  inv o q → heap_ q !! addr = None → 0 < addr < UINTPTR_MAX → timer_ok t →
  inv (addr :: o) (set_heap (<[addr := t]> (heap_ q)) (set_numCreated n q)).
Proof.
  intros Hq Hnone Hr Ht. pose proof Hq as [].
  assert (Hact : ∀ s, (addr, s) ∉ activeTimers_ q).
  { intros s (t' & Ht' & _)%inv_alloc0. by rewrite Hnone in Ht'. }
  constructor; simpl; try done.
  - intros w a. rewrite inv_entry0. split.
    + intros (t' & Ht' & ? & ?). exists t'. rewrite lookup_insert_ne by (intros ->; congruence). done.
    + intros (t' & Ht' & Hin & ?). apply lookup_insert_Some in Ht' as [[<- <-]|[? ?]]; [|by exists t'].
      by apply Hact in Hin.
  - intros a s Hin. destruct (inv_alloc0 a s Hin) as (t' & ? & ?). exists t'.
    rewrite lookup_insert_ne by (intros ->; congruence). done.
  - apply NoDup_cons_2; [|done]. intros [[t' ?] _]%inv_owned_alloc0. congruence.
  - intros a [->|Hin]%elem_of_cons.
    + rewrite lookup_insert_eq. split; [by eexists|apply Hact].
    + destruct (inv_owned_alloc0 a Hin) as [[t' Ht'] ?]. split; [|done].
      rewrite lookup_insert_ne by (intros ->; congruence). by exists t'.
  - intros a t' [[<- <-]|[? Ht']]%lookup_insert_Some.
    + split_and!; [done|lia..|]. right. by left.
    + destruct (inv_heap0 a t' Ht') as (? & ? & [?|?]); split_and!; try done; try lia; [by left|].
      right. by right.
Qed.

(** [delete] of an owned timer. *)
Lemma inv_delete o q a : inv (a :: o) q → inv o (set_heap (delete a (heap_ q)) q).
Proof.
  intros Hq. pose proof Hq as []. apply list.NoDup_cons in inv_owned0 as [Ha Hnd].
  destruct (inv_owned_alloc0 a) as [_ Hact]; [by left|].
  constructor; simpl; try done.
  - intros w b. rewrite inv_entry0. f_equiv. intros t. rewrite lookup_delete_Some.
    split; [|tauto]. intros (? & ? & ?). split_and!; try done. intros ->. by apply Hact in H0.
  - intros b s Hin. destruct (inv_alloc0 b s Hin) as (t & ? & ?). exists t.
    rewrite lookup_delete_Some. split_and!; try done. intros ->. by apply Hact in Hin.
  - intros b Hb. destruct (inv_owned_alloc0 b) as [[t Ht] ?]; [by right|]. split; [|done].
    exists t. rewrite lookup_delete_Some. split; [|done]. by intros ->.
  - intros b t [Hne Ht]%lookup_delete_Some. destruct (inv_heap0 b t Ht) as (? & ? & [?|Hin]);
      split_and!; try done; try lia; [by left|]. right. by apply elem_of_cons in Hin as [->|].
Qed.

(** An owned timer enters the queue. *)
Lemma inv_insert o q a t :
  inv (a :: o) q → heap_ q !! a = Some t →
  let result := set_insert (expiration_ t, a) (timers_ q) in
  let result' := set_insert (a, sequence_ t) (activeTimers_ q) in
  result.2 = true ∧ result'.2 = true ∧ zlen result.1 = zlen result'.1 ∧
  inv o (set_active result'.1 (set_timers result.1 q)).
Proof.
  intros Hq Hheap result result'. pose proof Hq as []. apply list.NoDup_cons in inv_owned0 as [Ha Hnd].
  destruct (inv_owned_alloc0 a) as [_ Hact]; [by left|].
  destruct (set_insert_new (expiration_ t, a) (timers_ q)) as [R1 L1]; [done| |].
  { intros (t' & ? & ?%Hact & ?)%inv_entry0. done. }
  destruct (set_insert_new (a, sequence_ t) (activeTimers_ q)) as [R2 L2]; [done|apply Hact|].
  split_and!; [done|done|unfold result, result'; lia|].
  unfold result, result'. constructor; simpl; try done.
  - by apply set_insert_wf.
  - by apply set_insert_wf.
  - lia.
  - intros w b. rewrite set_insert_elem, inv_entry0. split.
    + intros [[= -> ->]|(t' & ? & ? & ?)].
      * exists t. split_and!; [done| |done]. apply set_insert_elem. by left.
      * exists t'. split_and!; [done| |done]. apply set_insert_elem. by right.
    + intros (t' & Ht' & [[= ->]|Hin]%set_insert_elem & <-); [left; congruence|].
      right. by exists t'.
  - intros b s [[= -> ->]|Hin]%set_insert_elem; [by exists t|by apply inv_alloc0].
  - intros b Hb. destruct (inv_owned_alloc0 b) as [? Hb']; [by right|]. split; [done|].
    intros s [[= -> ->]|Hin]%set_insert_elem; [done|by apply Hb' in Hin].
  - intros b t' Ht'. destruct (inv_heap0 b t' Ht') as (? & ? & Hin). split_and!; try done; try lia.
    rewrite set_insert_elem. destruct Hin as [?|[->|?]%elem_of_cons]; [by left; right| |by right].
    left. left. congruence.
Qed.

(** A timer leaves the queue. *)
Lemma inv_take o q w a :
  inv o q → (w, a) ∈ timers_ q →
  ∃ t, heap_ q !! a = Some t ∧ expiration_ t = w ∧ (a, sequence_ t) ∈ activeTimers_ q ∧
    let result := set_erase (w, a) (timers_ q) in
    let result' := set_erase (a, sequence_ t) (activeTimers_ q) in
    result.2 = 1 ∧ result'.2 = 1 ∧ zlen result.1 = zlen result'.1 ∧
    inv (a :: o) (set_active result'.1 (set_timers result.1 q)).
Proof.
  intros Hq Hin. pose proof Hq as []. pose proof Hin as (t & Ht & Hact & Hw)%inv_entry0.
  exists t. intros. pose proof (inv_not_owned _ _ _ _ Hq Hact) as Hno.
  destruct (set_erase_old _ _ inv_timers0 Hin) as [R1 L1].
  destruct (set_erase_old _ _ inv_active0 Hact) as [R2 L2].
  assert (Hother : ∀ b s, b ≠ a → (b, s) ∈ (set_erase (a, sequence_ t) (activeTimers_ q)).1 ↔
    (b, s) ∈ activeTimers_ q).
  { intros b s Hb. rewrite set_erase_elem by done. split; [tauto|]. intros. split; [congruence|done]. }
  split_and!; try done. cbn zeta. split_and!; [done|done|lia|].
  constructor; simpl; try done.
  - by apply set_erase_wf.
  - by apply set_erase_wf.
  - lia.
  - intros w' b. rewrite set_erase_elem, inv_entry0 by done. split.
    + intros (Hne & t' & Ht' & ? & <-). exists t'. split_and!; [done| |done].
      apply set_erase_elem; [done|]. split; [|done]. intros [= -> Hs]. apply Hne. congruence.
    + intros (t' & Ht' & [Hne ?]%set_erase_elem & <-); [|done]. split; [|by exists t'].
      intros [= ? ->]. apply Hne. congruence.
  - intros b s [_ ?]%set_erase_elem; [by apply inv_alloc0|done].
  - by apply NoDup_cons_2.
  - intros b [->|Hb]%elem_of_cons.
    + split; [by exists t|]. intros s [Hne Hs]%set_erase_elem; [|done].
      apply inv_alloc0 in Hs as (t' & ? & ?). apply Hne. congruence.
    + destruct (inv_owned_alloc0 b Hb) as [? Hb']. split; [done|].
      intros s [_ ?%Hb']%set_erase_elem; done.
  - intros b t' Ht'. destruct (inv_heap0 b t' Ht') as (? & ? & Hor). split_and!; try done; try lia.
    rewrite elem_of_cons. destruct (decide (b = a)) as [->|Hb]; [by right; left|].
    rewrite Hother by done. tauto.
Qed.

(** The invariant looks at four fields only. *)
Lemma inv_ext o q q' :
  heap_ q' = heap_ q → timers_ q' = timers_ q → activeTimers_ q' = activeTimers_ q →
  cancelingTimers_ q' = cancelingTimers_ q → inv o q → inv o q'.
Proof.
  destruct q, q'. simpl. intros -> -> -> -> []. by constructor.
Qed.

(** The alarm is set, no later than 100 microseconds after it was computed or the
    expiration of any timer of the queue. *)
Definition armed (q : TimerQueue) : Prop :=
  ∀ w a, (w, a) ∈ timers_ q →
    ∃ it, timerfd_ q = Some it ∧ 0 < set_at it ∧ alarm it ≤ Z.max w (set_at it + 100).

(** During a round of callbacks the alarm may still be off: then nothing invalid is queued. *)
Definition half_armed (q : TimerQueue) : Prop :=
  armed q ∨ ∀ w a, (w, a) ∈ timers_ q → 0 < w.

(** What a call into the queue keeps; [o] are timers the call does not own. *)
Record keeps (o : list Z) (q q' : TimerQueue) : Prop := {
  keeps_heap a : a ∈ o → heap_ q' !! a = heap_ q !! a;
  keeps_calling : callingExpiredTimers_ q' = callingExpiredTimers_ q;
  keeps_armed : armed q → armed q';
  keeps_half : half_armed q → half_armed q'
}.

Lemma keeps_refl o q : keeps o q q.
Proof. by constructor. Qed.

Lemma keeps_trans o q1 q2 q3 : keeps o q1 q2 → keeps o q2 q3 → keeps o q1 q3.
Proof.
  intros [H1 H2 H3 H4] [K1 K2 K3 K4]. constructor; [|congruence|tauto|tauto].
  intros a Ha. by rewrite K1, H1.
Qed.

Lemma keeps_sub o o' q q' : (∀ a, a ∈ o' → a ∈ o) → keeps o q q' → keeps o' q q'.
Proof. intros Ho []. constructor; eauto. Qed.

(** Fewer timers, the same alarm. *)
Lemma armed_fewer q q' :
  timerfd_ q' = timerfd_ q → (∀ e, e ∈ timers_ q' → e ∈ timers_ q) → armed q → armed q'.
Proof. intros Ht Hsub Hq w a Hin. rewrite Ht. eapply Hq, Hsub, Hin. Qed.

Lemma half_armed_fewer q q' :
  timerfd_ q' = timerfd_ q → (∀ e, e ∈ timers_ q' → e ∈ timers_ q) → half_armed q → half_armed q'.
Proof. intros Ht Hsub [Hq|Hq]; [left; by eapply armed_fewer|right]. intros w a Hin. eapply Hq, Hsub, Hin. Qed.

Lemma earliest_first (l : list Entry) first a w b :
  set_wf ((first, a) :: l) → (w, b) ∈ (first, a) :: l → first ≤ w.
Proof.
  intros Hl Hin. pose proof (set_wf_hd _ _ _ Hl Hin) as Hless. simpl in Hless.
  unfold pair_less in Hless. simpl in Hless. apply orb_false_iff in Hless as [Hless _].
  by apply Z.ltb_ge in Hless.
Qed.

Section specs.
Context `{TimeKernel} {E : fault → Prop}.

(** What the [n]-th reading of the clock is. *)
Definition clock (n : nat) : Timestamp := (gettimeofday n).1 * 1000000 + (gettimeofday n).2.

Lemma now__spec (Q : Timestamp → TimerQueue → Prop) q :
  (∀ n, n = clock (calls_ q) → 0 < n < 2 ^ 60 → Q n (set_calls (S (calls_ q)) q)) → wpf E now_ Q q.
Proof.
  intros HQ. unfold now_, clock in *. wp_go. pose proof (gettimeofday_range (calls_ q)) as [Hs Hu].
  destruct (gettimeofday (calls_ q)) as [sec usec]. simpl in *. unfold Timestamp.now, kMicroSecondsPerSecond.
  rewrite (checked_64_ok (sec * _)) by lia. rewrite checked_64_ok by lia. wp_go. apply HQ; lia.
Qed.

Lemma deref_spec a t (Q : Timer → TimerQueue → Prop) q :
  heap_ q !! a = Some t → Q t q → wpf E (deref a) Q q.
Proof. intros Ht HQ. unfold deref. wp_go. by rewrite Ht. Qed.

Lemma same_size_spec (Q : () → TimerQueue → Prop) q :
  zlen (timers_ q) = zlen (activeTimers_ q) → Q tt q → wpf E same_size Q q.
Proof. intros Hs HQ. unfold same_size. wp_go. apply wp_assert; [by apply Z.eqb_eq|done]. Qed.

(** The relative time is normalized, not zero, and rounds nothing off. *)
Lemma howMuchTimeFromNow_spec when (Q : itimer → TimerQueue → Prop) q :
  - 2 ^ 62 ≤ when ≤ 2 ^ 62 →
  (∀ it, 0 < set_at it < 2 ^ 60 → 0 ≤ tv_sec it → 0 ≤ tv_nsec it ≤ 999999999 →
     0 < tv_sec it ∨ 0 < tv_nsec it →
     alarm it = set_at it + Z.max 100 (when - set_at it) → Q it (set_calls (S (calls_ q)) q)) →
  wpf E (howMuchTimeFromNow when) Q q.
Proof.
  intros Hw HQ. unfold howMuchTimeFromNow. wp_go. apply now__spec. intros n _ Hn. wp_go.
  unfold microSecondsSinceEpoch. eapply wp_lift; [apply checked_64_ok; lia|]. wp_go.
  set (m := if when - n <? 100 then 100 else when - n).
  assert (Hm : m = Z.max 100 (when - n)) by (unfold m; case_cmp; lia).
  unfold kMicroSecondsPerSecond. change (1000 * 1000) with 1000000.
  rewrite Z.quot_div_nonneg, Z.rem_mod_nonneg by lia.
  pose proof (Z.div_mod m 1000000). pose proof (Z.mod_pos_bound m 1000000).
  pose proof (Z.div_pos m 1000000).
  apply HQ; simpl; try lia.
  unfold alarm. simpl. rewrite Z.div_mul by lia. lia.
Qed.

Lemma resetTimerfd_spec e q :
  - 2 ^ 62 ≤ e ≤ 2 ^ 62 →
  wpf E (resetTimerfd e)
    (λ _ q', ∃ it, 0 < set_at it < 2 ^ 60 ∧ alarm it = set_at it + Z.max 100 (e - set_at it) ∧
       q' = set_timerfd (Some it) (set_calls (S (calls_ q)) q)) q.
Proof.
  intros He. unfold resetTimerfd. wp_go. apply howMuchTimeFromNow_spec; [done|].
  intros it Hat Hs Hns Hpos Hal. wp_go. rewrite timerfd_settime_accepts by lia. wp_go.
  exists it. split_and!; [lia..|done|].
  destruct (Z.eqb_spec (tv_sec it) 0); [|done]. destruct (Z.eqb_spec (tv_nsec it) 0); [lia|done].
Qed.

Lemma insert_spec o a q :
  inv (a :: o) q →
  wpf E (insert a)
    (λ b q', ∃ t, heap_ q !! a = Some t ∧ timer_ok t ∧ inv o q' ∧
       q' = set_active (set_insert (a, sequence_ t) (activeTimers_ q)).1
              (set_timers (set_insert (expiration_ t, a) (timers_ q)).1 q) ∧
       if b then ∀ w x, (w, x) ∈ timers_ q → expiration_ t < w
       else ∃ first x, (first, x) ∈ timers_ q ∧ first ≤ expiration_ t) q.
Proof.
  intros Hq. destruct (inv_owned_alloc _ _ Hq a) as [[t Ht] _]; [by left|].
  destruct (inv_heap _ _ Hq a t Ht) as [Hok _].
  destruct (inv_insert _ _ _ _ Hq Ht) as (R1 & R2 & Hlen & Hinv).
  unfold insert. wp_go. apply same_size_spec; [by apply (inv_size (a :: o))|]. wp_go.
  eapply deref_spec; [done|]. wp_go. apply wp_assert; [done|]. wp_go. apply wp_assert; [done|].
  wp_go. apply same_size_spec; [done|]. wp_go. exists t. split_and!; try done.
  pose proof (inv_timers _ _ Hq) as Hwf. destruct (timers_ q) as [|[first x] l].
  - by intros w x ?%elem_of_nil.
  - unfold Timestamp.ltb, microSecondsSinceEpoch. destruct (Z.ltb_spec (expiration_ t) first).
    + intros w y Hin. pose proof (earliest_first _ _ _ _ _ Hwf Hin). lia.
    + exists first, x. split; [by left|lia].
Qed.
(** Setting the alarm for the earliest timer. *)
Lemma armed_by it e q :
  timerfd_ q = Some it → 0 < set_at it → alarm it = set_at it + Z.max 100 (e - set_at it) →
  (∀ w a, (w, a) ∈ timers_ q → e ≤ w) → armed q.
Proof. intros Ht Hat Hal Hmin w a Hin. exists it. pose proof (Hmin w a Hin). split_and!; [done|done|lia]. Qed.

Lemma addTimerInLoop_spec o a q :
  inv (a :: o) q →
  wpf E (addTimerInLoop a)
    (λ _ q', ∃ t, heap_ q !! a = Some t ∧ inv o q' ∧ keeps (a :: o) q q' ∧ heap_ q' = heap_ q ∧
       cancelingTimers_ q' = cancelingTimers_ q ∧ pendingFunctors_ q' = pendingFunctors_ q ∧
       timers_ q' = (set_insert (expiration_ t, a) (timers_ q)).1) q.
Proof.
  intros Hq. unfold addTimerInLoop. wp_go.
  wp_use (by apply (insert_spec o)). destruct H0 as (t & Ht & Hok & Hinv & -> & Hb).
  destruct a0.
  - wp_go. eapply (deref_spec _ t); [done|]. wp_go.
    eapply wp_mono; [apply resetTimerfd_spec; by destruct Hok as (_ & ? & _)|].
    cbv beta. intros _ q' (it & Hat & Hal & ->). exists t.
    assert (Harm : armed (set_timerfd (Some it) (set_calls (S (calls_ q))
      (set_active (set_insert (a, sequence_ t) (activeTimers_ q)).1
         (set_timers (set_insert (expiration_ t, a) (timers_ q)).1 q))))).
    { eapply armed_by; [done|apply Hat|done|]. simpl. intros w x [[= -> ->]|Hin]%set_insert_elem; [done|].
      apply Hb in Hin. lia. }
    split_and!; [done|by eapply inv_ext; [..|exact Hinv]| |done..].
    constructor; try done. intros _. by left.
  - wp_go. exists t. split_and!; [done|done| |done..].
    destruct Hb as (first & x & Hfirst & Hle).
    assert (Harm : armed q → armed (set_active (set_insert (a, sequence_ t) (activeTimers_ q)).1
         (set_timers (set_insert (expiration_ t, a) (timers_ q)).1 q))).
    { intros Harm w y Hin. simpl in *. apply set_insert_elem in Hin as [[= -> ->]|Hin]; [|by eapply Harm].
      destruct (Harm _ _ Hfirst) as (it & ? & ? & ?). exists it. split_and!; [done|done|lia]. }
    constructor; [done|done|done|]. intros [Hh|Hh]; [left; by apply Harm|right].
    intros w y Hin. simpl in Hin. apply set_insert_elem in Hin as [[= -> ->]|Hin]; [|by eapply Hh].
    apply Hh in Hfirst. lia.
Qed.

(** Cancelling: the timer of that address and sequence number is gone; an id of no queued
    timer is remembered during a round of callbacks, and nothing else changes. *)
Lemma cancelInLoop_spec o id q :
  inv o q →
  let x := (id_timer id, id_sequence id) in
  wpf E (cancelInLoop id)
    (λ _ q', inv o q' ∧ keeps o q q' ∧ pendingFunctors_ q' = pendingFunctors_ q ∧
       (∀ y, y ∈ activeTimers_ q' ↔ y ∈ activeTimers_ q ∧ y ≠ x) ∧
       (∀ a, heap_ q' !! a = if decide (a = x.1 ∧ x ∈ activeTimers_ q) then None else heap_ q !! a) ∧
       (∀ y, y ∈ cancelingTimers_ q' ↔ y ∈ cancelingTimers_ q ∨
          (y = x ∧ callingExpiredTimers_ q = true ∧ x ∉ activeTimers_ q))) q.
Proof.
  intros Hq x. unfold cancelInLoop. wp_go. apply same_size_spec; [by apply (inv_size o)|]. wp_go.
  change (id_timer id, id_sequence id) with x. pose proof (inv_active _ _ Hq) as Hwf.
  destruct (set_mem x (activeTimers_ q)) eqn:Hmem.
  - apply set_mem_elem in Hmem; [|done].
    destruct (inv_alloc _ _ Hq _ _ Hmem) as (t & Ht & Hseq).
    destruct (inv_take _ _ (expiration_ t) (id_timer id) Hq) as (t' & Ht' & _ & _ & R1 & _ & Hlen & Hinv).
    { apply inv_entry with (1 := Hq). exists t. by rewrite Hseq. }
    rewrite Ht in Ht'. injection Ht' as <-. rewrite Hseq in Hlen, Hinv.
    change (id_timer id, id_sequence id) with x in Hlen, Hinv.
    wp_go. eapply deref_spec; [done|]. wp_go. apply wp_assert; [by apply Z.eqb_eq|]. wp_go.
    unfold delete_timer. wp_go. eapply deref_spec; [done|]. wp_go.
    apply same_size_spec; [done|]. apply inv_delete in Hinv. simpl in Hinv.
    split_and!.
    + by eapply inv_ext; [..|exact Hinv].
    + pose proof (inv_not_owned _ _ _ _ Hq Hmem) as Hno. constructor; simpl; try done.
      * intros a Ha. apply lookup_delete_ne. by intros <-.
      * apply armed_fewer; [done|]. simpl. by intros e [_ ?]%set_erase_elem; [|apply Hq].
      * apply half_armed_fewer; [done|]. simpl. by intros e [_ ?]%set_erase_elem; [|apply Hq].
    + done.
    + intros y. simpl. rewrite set_erase_elem by done. tauto.
    + intros a. simpl. case_decide as Ha.
      * destruct Ha as [-> _]. apply lookup_delete_eq.
      * apply lookup_delete_ne. intros <-. by apply Ha.
    + intros y. simpl. tauto.
  - assert (Hno : x ∉ activeTimers_ q).
    { intros Hin. apply set_mem_elem in Hin; [|done]. congruence. }
    wp_go. destruct (callingExpiredTimers_ q) eqn:Hcall; wp_go;
      (apply same_size_spec; [exact (inv_size _ _ Hq)|]); simpl; split_and!; try done.
    + destruct Hq. constructor; try done. simpl. by apply set_insert_wf.
    + intros y. split; [|tauto]. intros ?. split; [done|]. by intros ->.
    + intros a. by case_decide as Hx; [destruct Hx|].
    + intros y. rewrite set_insert_elem. tauto.
    + intros y. split; [|tauto]. intros ?. split; [done|]. by intros ->.
    + intros a. by case_decide as Hx; [destruct Hx|].
    + intros y. split; [tauto|]. intros [?|(_ & ? & _)]; [done|congruence].
Qed.

(** ** getExpired *)

Lemma set_erase_head (e : Entry) l : set_erase e (e :: l) = (l, 1).
Proof. cbn [set_erase]. by rewrite less_irrefl. Qed.

Lemma erase_active_all l o rest q :
  timers_ q = rest → inv o (set_timers (l ++ rest) q) →
  wpf E (for_each erase_active l)
    (λ _ q', inv (l.*2 ++ o) q' ∧ ∃ as', q' = set_active as' q) q.
Proof.
  induction l as [|[w a] l IH] in o, q |- *; intros Hrest Hq; cbn [for_each].
  - wp_go. split; [|by exists (activeTimers_ q); destruct q].
    by eapply inv_ext; [..|exact Hq].
  - destruct (inv_take _ _ w a Hq) as (t & Ht & _ & _ & _ & R2 & _ & Hinv); [by left|].
    cbn [app set_timers timers_ activeTimers_] in R2, Hinv. rewrite set_erase_head in Hinv.
    wp_go. eapply (wp_mono _ (λ _ q', q' = set_active (set_erase (a, sequence_ t) (activeTimers_ q)).1 q)).
    { unfold erase_active. wp_go. eapply deref_spec; [exact Ht|]. wp_go.
      apply wp_assert; [by apply Z.eqb_eq|done]. }
    cbv beta. intros _ q1 ->. eapply wp_mono; [apply (IH (a :: o)); [done|by eapply inv_ext; [..|exact Hinv]]|].
    cbv beta. intros _ q' [Hinv' (as' & ->)]. split; [|by exists as'].
    rewrite fmap_cons. cbn [snd app]. by rewrite Permutation_middle.
Qed.

(** Exactly the timers that are due leave the queue, in order. *)
Lemma getExpired_spec o now q :
  inv o q →
  wpf E (getExpired now)
    (λ expired q', inv (expired.*2 ++ o) q' ∧ timers_ q = expired ++ timers_ q' ∧
       (∀ e, e ∈ expired → e.1 ≤ now) ∧ (∀ e, e ∈ timers_ q' → now < e.1) ∧
       ∃ as', q' = set_active as' (set_timers (timers_ q') q)) q.
Proof.
  intros Hq. unfold getExpired. wp_go. apply same_size_spec; [by apply (inv_size o)|]. wp_go.
  destruct (set_lower_bound_spec (now, UINTPTR_MAX) _ (inv_timers _ _ Hq)) as (Hsplit & Hlo & Hhi).
  destruct (set_lower_bound (now, UINTPTR_MAX) (timers_ q)) as [expired rest]. cbn [fst snd] in *.
  assert (Hrange : ∀ e, e ∈ timers_ q → 0 < e.2 < UINTPTR_MAX).
  { intros [w a] (t & Ht & _)%(inv_entry _ _ Hq). by apply (inv_heap _ _ Hq) in Ht as (_ & ? & _). }
  assert (Hlo' : ∀ e, e ∈ expired → e.1 ≤ now).
  { intros [w a] Hin%Hlo. unfold less in Hin. cbn in Hin. unfold pair_less in Hin. cbn in Hin.
    apply orb_true_iff in Hin as [Hin|[Hin _]%andb_true_iff]; cbn.
    - apply Z.ltb_lt in Hin. lia.
    - apply negb_true_iff, Z.ltb_ge in Hin. lia. }
  assert (Hhi' : ∀ e, e ∈ rest → now < e.1).
  { intros [w a] Hin. assert (Ha : a < UINTPTR_MAX).
    { apply (Hrange (w, a)). rewrite Hsplit. apply elem_of_app. by right. }
    apply Hhi in Hin. unfold less in Hin. cbn in Hin. unfold pair_less in Hin. cbn in Hin.
    apply orb_false_iff in Hin as [Hin1 Hin2]. apply Z.ltb_ge in Hin1. cbn.
    apply andb_false_iff in Hin2 as [Hin2|Hin2].
    - apply negb_false_iff, Z.ltb_lt in Hin2. done.
    - apply Z.ltb_ge in Hin2. lia. }
  wp_go. apply wp_assert.
  { destruct rest as [|[first x] rest]; [done|]. apply Z.ltb_lt. apply (Hhi' (first, x)). by left. }
  wp_go. assert (Hq' : inv o (set_timers (expired ++ rest) (set_timers rest q))).
  { rewrite <- Hsplit. by eapply inv_ext; [..|exact Hq]. }
  eapply wp_mono; [by apply (erase_active_all _ o rest)|].
  cbv beta. intros _ q' [Hinv (as' & ->)]. wp_go. apply same_size_spec; [exact (inv_size _ _ Hinv)|].
  wp_go. split_and!; [done|done|done|done|]. by exists as'.
Qed.

(** ** Calls into the queue *)

(** What a client passes; the sequence number is the queue's business. *)
Definition action_ok (a : action) : Prop :=
  match a with
  | AddTimer cb when interval _ => timer_ok (Timer_init cb when interval 0)
  | Cancel _ => True
  end.

Definition cancels (a : action) (x : ActiveTimer) : Prop :=
  a = Cancel (mkTimerId x.1 x.2).

Context (HE : E BadAlloc).

Lemma new_timer_spec o cb when interval addr q :
  inv o q → timer_ok (Timer_init cb when interval 0) →
  wpf E (new_timer cb when interval addr)
    (λ a q', inv (a :: o) q' ∧ a = addr ∧ heap_ q !! a = None ∧
       ∃ t n, q' = set_heap (<[a := t]> (heap_ q)) (set_numCreated n q)) q.
Proof.
  intros Hq Hok. unfold new_timer. wp_go.
  destruct (bool_decide (heap_ q !! addr = None)) eqn:E1; simpl; [|done].
  destruct (Z.ltb_spec 0 addr); simpl; [|done].
  destruct (Z.ltb_spec addr UINTPTR_MAX); simpl; [|done]. wp_go.
  apply bool_decide_eq_true in E1. split_and!; [|done|done|by eexists _, _].
  by apply inv_new.
Qed.

(** What a sequence of calls [acts] does around the timers [o] that it does not own. *)
Record called (o : list Z) (acts : list action) (q q' : TimerQueue) : Prop := {
  called_inv : inv o q';
  called_keeps : keeps o q q';
  called_pending : pendingFunctors_ q' = pendingFunctors_ q;
  called_canceling x : x.1 ∈ o → x ∈ cancelingTimers_ q' ↔
    x ∈ cancelingTimers_ q ∨ (callingExpiredTimers_ q = true ∧ ∃ a, a ∈ acts ∧ cancels a x);
  called_queued x t : x ∈ activeTimers_ q → heap_ q !! x.1 = Some t →
    (∀ a, a ∈ acts → ¬ cancels a x) → x ∈ activeTimers_ q' ∧ heap_ q' !! x.1 = Some t
}.

Lemma called_nil o q : inv o q → called o [] q q.
Proof.
  intros Hq. constructor; [done|apply keeps_refl|done| |done].
  intros x _. split; [by left|]. by intros [?|(_ & a & ?%elem_of_nil & _)].
Qed.

Lemma called_app o acts1 acts2 q1 q2 q3 :
  called o acts1 q1 q2 → called o acts2 q2 q3 → called o (acts1 ++ acts2) q1 q3.
Proof.
  intros [I1 K1 P1 C1 Q1] [I2 K2 P2 C2 Q2]. constructor; [done|by eapply keeps_trans|congruence| |].
  - intros x Hx. rewrite C2, C1 by done. rewrite (keeps_calling _ _ _ K1).
    setoid_rewrite elem_of_app. split.
    + intros [[?|(? & a & ? & ?)]|(? & a & ? & ?)]; [by left|right; eauto..].
    + intros [?|(? & a & [?|?] & ?)]; [by left; left|left; right; eauto|right; eauto].
  - intros x t Hx Ht Hno. setoid_rewrite elem_of_app in Hno.
    destruct (Q1 x t Hx Ht) as [? ?]; [by eauto|]. apply Q2; eauto.
Qed.

Lemma run_action_spec o a q :
  inv o q → action_ok a → wpf E (run_action true a) (λ _ q', called o [a] q q') q.
Proof.
  intros Hq Hok. destruct a as [cb when interval addr|id].
  - cbn [run_action]. unfold addTimer, addTimer_start, runInLoop, run_functor, addTimer_return. wp_go.
    eapply wp_mono; [by apply (new_timer_spec o)|]. cbv beta. intros a q1 (Hinv1 & -> & Hnone & t & n & ->). wp_go.
    eapply wp_mono; [by apply (addTimerInLoop_spec o)|]. cbv beta.
    intros _ q2 (t' & Ht' & Hinv2 & Hkeep & Hheap & Hcan & Hpend & Htimers). wp_go.
    eapply deref_spec; [rewrite Hheap; exact Ht'|]. wp_go. constructor; [done| |done| |].
    + destruct Hkeep as [_ K2 K3 K4]. constructor; [|done..].
      intros b Hb. rewrite Hheap. simpl. apply lookup_insert_ne. intros ->.
      apply (inv_owned_alloc _ _ Hq) in Hb as [[? Hb] _]. congruence.
    + intros x _. rewrite Hcan. simpl. unfold cancels. split; [by left|].
      intros [?|(_ & a & Ha & Hx)]; [done|]. apply list_elem_of_singleton in Ha. congruence.
    + intros [b s] u Hin Hu _. cbn [fst] in *. assert (Hheap' : heap_ q2 !! b = Some u).
      { rewrite Hheap. simpl. rewrite lookup_insert_ne; [done|]. intros ->. congruence. }
      destruct (inv_alloc _ _ Hq _ _ Hin) as (u' & Hu' & <-). rewrite Hu in Hu'. injection Hu' as <-.
      split; [|done]. assert (Hent : (expiration_ u, b) ∈ timers_ q2).
      { rewrite Htimers, set_insert_elem. right. apply (inv_entry _ _ Hq). by exists u. }
      apply (inv_entry _ _ Hinv2) in Hent as (u' & Hu' & ? & _). congruence.
  - cbn [run_action]. unfold cancel, runInLoop, run_functor.
    eapply wp_mono; [by apply (cancelInLoop_spec o)|]. cbv beta.
    intros _ q' (Hinv & Hkeep & Hpend & Hact & Hheap & Hcan). destruct id as [b' s'].
    cbn [fst snd id_timer id_sequence] in *.
    assert (Hc : ∀ x, (∃ a, a ∈ [Cancel (mkTimerId b' s')] ∧ cancels a x) ↔ x = (b', s')).
    { intros [b s]. unfold cancels. cbn [fst snd]. split.
      - intros (a & ->%list_elem_of_singleton & [= -> ->]). done.
      - intros [= -> ->]. eexists. split; [by left|done]. }
    constructor; [done..| |].
    + intros x Hb. rewrite Hcan, Hc. split.
      * intros [?|(-> & ? & _)]; [by left|by right].
      * intros [?|[? ->]]; [by left|]. right. split_and!; [done|done|].
        intros Hin. by eapply inv_not_owned in Hin.
    + intros x t Hx Ht Hno. assert (Hne : x ≠ (b', s')).
      { intros Heq. apply Hc in Heq as (a & Ha & Hca). by apply (Hno a). }
      split; [by apply Hact|]. rewrite Hheap. destruct (decide _) as [Hd|_]; [|done].
      destruct Hd as [Hb Hin]. exfalso. apply Hne. destruct x as [b s]. cbn [fst] in *. subst b.
      apply (inv_alloc _ _ Hq) in Hx as (t1 & Ht1 & <-), Hin as (t2 & Ht2 & <-). congruence.
Qed.

Lemma run_actions_spec o acts q :
  inv o q → Forall action_ok acts → wpf E (for_each (run_action true) acts) (λ _ q', called o acts q q') q.
Proof.
  intros Hq Hok. induction acts as [|a acts IH] in q, Hq, Hok |- *; cbn [for_each].
  - by apply called_nil.
  - apply Forall_cons_1 in Hok as [Ha Hok]. wp_go.
    eapply wp_mono; [by apply (run_action_spec o)|]. cbv beta. intros _ q1 H1.
    eapply wp_mono; [apply IH; [by apply (called_inv _ _ _ _ H1)|done]|]. cbv beta. intros _ q2 H2.
    by apply (called_app _ [a] acts _ _ _ H1).
Qed.

(** The callbacks of the expired timers run, and their timers stay allocated. *)
Lemma run_expired_all o l q :
  inv o q → (∀ p, p ∈ l → p.1.2 ∈ o) → Forall (Forall action_ok) (l.*2) →
  wpf E (for_each run_expired l) (λ _ q', called o (concat (l.*2)) q q') q.
Proof.
  intros Hq Hin Hok. induction l as [|[[w a] s] l IH] in q, Hq, Hin, Hok |- *; cbn [for_each].
  - by apply called_nil.
  - rewrite fmap_cons in Hok |- *. apply Forall_cons_1 in Hok as [Hs Hok]. cbn [snd concat] in *. wp_go.
    assert (Ha : a ∈ o) by (apply (Hin (w, a, s)); by left).
    destruct (inv_owned_alloc _ _ Hq a Ha) as [[t Ht] _].
    destruct (inv_heap _ _ Hq a t Ht) as [([cb Hcb] & _) _].
    unfold run_expired at 1. wp_go. eapply deref_spec; [exact Ht|]. wp_go.
    eapply wp_lift; [unfold Timer_run; by rewrite Hcb|]. cbn [snd].
    eapply wp_mono; [by apply run_actions_spec|]. cbv beta. intros _ q1 H1.
    eapply wp_mono; [apply IH; [by apply (called_inv _ _ _ _ H1)| |done]|].
    { intros p Hp. apply Hin. by right. }
    cbv beta. intros _ q2 H2. by eapply called_app.
Qed.

(** ** reset *)

(** A repeated timer after [restart]. *)
Definition restarted (t : Timer) (e : Timestamp) : Timer :=
  mkTimer (callback_ t) e (interval_ t) (repeat_ t) (sequence_ t).

Lemma inv_update o q a t e :
  inv (a :: o) q → heap_ q !! a = Some t → timer_ok (restarted t e) →
  inv (a :: o) (set_heap (<[a := restarted t e]> (heap_ q)) q).
Proof.
  intros Hq Ht Hok. pose proof Hq as []. destruct (inv_owned_alloc0 a) as [_ Hact]; [by left|].
  assert (Hne : ∀ b s, (b, s) ∈ activeTimers_ q → b ≠ a) by (intros b s Hb ->; by apply Hact in Hb).
  constructor; simpl; try done.
  - intros w b. rewrite inv_entry0. split; intros (u & Hu & Hin & ?); exists u;
      split_and!; try done; pose proof (Hne _ _ Hin); by rewrite lookup_insert_ne in *.
  - intros b s Hin. pose proof (Hne _ _ Hin). rewrite lookup_insert_ne by done. by apply inv_alloc0.
  - intros b Hb. destruct (inv_owned_alloc0 b Hb) as [Hs ?]. split; [|done].
    destruct (decide (a = b)) as [<-|]; [rewrite lookup_insert_eq; by eexists|by rewrite lookup_insert_ne].
  - intros b u [[<- <-]|[Hb Hu]]%lookup_insert_Some; [|by apply inv_heap0].
    destruct (inv_heap0 a t Ht) as (_ & Hr & _). split_and!; [done|lia..|]. right. by left.
Qed.

(** What becomes of an expired timer. *)
Definition after_round (now : Timestamp) (canceling : list ActiveTimer) (a : Z) (t : Timer)
    (q' : TimerQueue) : Prop :=
  if repeat_ t && negb (set_mem (a, sequence_ t) canceling)
  then ∃ d, delta_of (interval_ t) = Ok d ∧ heap_ q' !! a = Some (restarted t (now + d)) ∧
            (now + d, a) ∈ timers_ q' ∧ (a, sequence_ t) ∈ activeTimers_ q'
  else heap_ q' !! a = None.

(** The queue changed in [heap_], [timers_] and [activeTimers_] only, around [o]; what was queued stays. *)
Record resets (q q' : TimerQueue) : Prop := {
  resets_eq : ∃ h ts as', q' = set_heap h (set_active as' (set_timers ts q));
  resets_new e : e ∈ timers_ q' → e ∈ timers_ q ∨ 0 < e.1;
  resets_old e : e ∈ timers_ q → e ∈ timers_ q' ∧ heap_ q' !! e.2 = heap_ q !! e.2;
  resets_active x : x ∈ activeTimers_ q → x ∈ activeTimers_ q'
}.

Lemma reset_one_spec o now w a t q :
  inv (a :: o) q → 0 < now < 2 ^ 60 → heap_ q !! a = Some t →
  wpf E (reset_one now (w, a))
    (λ _ q', inv o q' ∧ resets q q' ∧ after_round now (cancelingTimers_ q) a t q' ∧
       ∀ b, b ≠ a → heap_ q' !! b = heap_ q !! b) q.
Proof.
  intros Hq Hnow Ht. unfold reset_one, after_round. wp_go. cbn [snd]. eapply deref_spec; [done|]. wp_go.
  destruct (inv_heap _ _ Hq a t Ht) as [(Hcb & Hexp & Hrep) _].
  assert (Hnot : ∀ w', (w', a) ∉ timers_ q).
  { intros w' (t' & _ & Hin & _)%(inv_entry _ _ Hq).
    destruct (inv_owned_alloc _ _ Hq a) as [_ Hno]; [by left|]. by apply Hno in Hin. }
  destruct (repeat_ t && _) eqn:Hcase.
  - apply andb_true_iff in Hcase as [Hr _]. destruct (Hrep Hr) as (d & Hd & Hdr).
    wp_go. apply (wp_lift _ (restarted t (now + d))).
    { unfold Timer_restart, addTime. rewrite Hr, Hd. unfold microSecondsSinceEpoch.
      rewrite checked_64_ok by lia. cbn [mbind outcome_bind]. unfold restarted. by rewrite Hr. }
    assert (Hok : timer_ok (restarted t (now + d))).
    { split_and!; simpl; [done|lia|lia|]. intros _. by exists d. }
    wp_go. eapply wp_mono; [by apply (insert_spec o), inv_update|]. cbv beta.
    intros b q' (t' & Ht' & _ & Hinv & -> & _). wp_go. simpl in Ht'. rewrite lookup_insert_eq in Ht'.
    injection Ht' as <-. simpl. split_and!; [done| | |].
    + constructor; simpl.
      * do 3 eexists. reflexivity.
      * intros e [->|?]%set_insert_elem; [right; simpl; lia|by left].
      * intros [w' b'] Hin. split; [rewrite set_insert_elem; by right|]. apply lookup_insert_ne. intros ->.
        by apply Hnot in Hin.
      * intros x Hx. rewrite set_insert_elem. by right.
    + exists d. split_and!; [done|apply lookup_insert_eq|rewrite set_insert_elem; by left..].
    + intros b' Hb. by apply lookup_insert_ne.
  - unfold delete_timer. wp_go. eapply deref_spec; [done|]. wp_go. split_and!.
    + by apply inv_delete.
    + constructor; simpl.
      * exists (delete a (heap_ q)), (timers_ q), (activeTimers_ q). by destruct q.
      * by left.
      * intros [w' b'] Hin. split; [done|]. apply lookup_delete_ne. intros ->. by apply Hnot in Hin.
      * done.
    + apply lookup_delete_eq.
    + intros b' Hb. by apply lookup_delete_ne.
Qed.

Lemma resets_refl q : resets q q.
Proof.
  constructor; [|by left|done|done].
  exists (heap_ q), (timers_ q), (activeTimers_ q). by destruct q.
Qed.

Lemma resets_trans q1 q2 q3 : resets q1 q2 → resets q2 q3 → resets q1 q3.
Proof.
  intros [(h1 & t1 & a1 & E1) N1 O1 A1] [(h2 & t2 & a2 & E2) N2 O2 A2]. constructor.
  - exists h2, t2, a2. by rewrite E2, E1.
  - intros e [He%N1|?]%N2; [done|by right].
  - intros e [? He]%O1. rewrite <- He. by apply O2.
  - eauto.
Qed.

Lemma reset_all o now l q :
  inv (l.*2 ++ o) q → 0 < now < 2 ^ 60 →
  wpf E (for_each (reset_one now) l)
    (λ _ q', inv o q' ∧ resets q q' ∧
       (∀ w a t, (w, a) ∈ l → heap_ q !! a = Some t → after_round now (cancelingTimers_ q) a t q') ∧
       ∀ b, b ∉ l.*2 → heap_ q' !! b = heap_ q !! b) q.
Proof.
  intros Hq Hnow. induction l as [|[w a] l IH] in q, Hq |- *; cbn [for_each].
  - wp_go. split_and!; [done|apply resets_refl| |done]. by intros w a t ?%elem_of_nil.
  - rewrite fmap_cons in Hq. cbn [snd app] in Hq.
    destruct (inv_owned_alloc _ _ Hq a) as [[t Ht] _]; [by left|].
    pose proof (inv_owned _ _ Hq) as [Ha _]%list.NoDup_cons.
    assert (Hal : a ∉ l.*2) by (intros Hin; apply Ha, elem_of_app; by left).
    wp_go. eapply wp_mono; [by apply (reset_one_spec (l.*2 ++ o))|]. cbv beta.
    intros _ q1 (H1 & R1 & Hafter & Hheap1). eapply wp_mono; [by apply IH|]. cbv beta.
    intros _ q2 (H2 & R2 & Hrest & Hheap2).
    assert (Hc : cancelingTimers_ q1 = cancelingTimers_ q).
    { destruct R1 as [(? & ? & ? & ->) _ _ _]. done. }
    split_and!; [done|by eapply resets_trans| |].
    + intros w' a' t' [[= -> ->]|Hin]%elem_of_cons Ht'.
      * rewrite Ht in Ht'. injection Ht' as <-. unfold after_round in *.
        destruct (repeat_ t && _); [|by rewrite Hheap2].
        destruct Hafter as (d & ? & Hh & Hts & Hact). exists d. apply (resets_old _ _ R2) in Hts as [? Hh2].
        cbn [snd] in Hh2. split_and!; [done|by rewrite Hh2|done|by apply (resets_active _ _ R2)].
      * rewrite <- Hc. apply (Hrest w'); [done|]. rewrite Hheap1; [done|]. intros ->.
        apply Hal, list_elem_of_fmap. by exists (w', a).
    + intros b. rewrite fmap_cons. cbn [snd]. rewrite not_elem_of_cons. intros [? ?].
      rewrite Hheap2 by done. by apply Hheap1.
Qed.

(** After the reset the alarm is on for whatever is queued. *)
Lemma reset_spec o now l q :
  inv (l.*2 ++ o) q → 0 < now < 2 ^ 60 → half_armed q →
  wpf E (reset l now)
    (λ _ q', inv o q' ∧ armed q' ∧ callingExpiredTimers_ q' = callingExpiredTimers_ q ∧
       pendingFunctors_ q' = pendingFunctors_ q ∧
       (∀ w a t, (w, a) ∈ l → heap_ q !! a = Some t → after_round now (cancelingTimers_ q) a t q') ∧
       (∀ e, e ∈ timers_ q → e ∈ timers_ q' ∧ heap_ q' !! e.2 = heap_ q !! e.2)) q.
Proof.
  intros Hq Hnow Hhalf. unfold reset. wp_go. eapply wp_mono; [by apply (reset_all o)|]. cbv beta.
  intros _ q1 (H1 & R1 & Hafter & _). pose proof R1 as [(h & ts & as' & E1) Hnew Hold _].
  assert (Hframe : callingExpiredTimers_ q1 = callingExpiredTimers_ q ∧
    pendingFunctors_ q1 = pendingFunctors_ q ∧ timerfd_ q1 = timerfd_ q) by by rewrite E1.
  destruct Hframe as (F1 & F2 & F3). wp_go. destruct (timers_ q1) as [|[w first] rest] eqn:Hts.
  - wp_go. split_and!; try done.
    + intros w a Hin. rewrite Hts in Hin. by apply elem_of_nil in Hin.
    + intros e He. rewrite Hts. by apply Hold.
  - rewrite <- Hts in Hnew, Hold. assert (Hin : (w, first) ∈ timers_ q1) by (rewrite Hts; by left).
    assert (Hmin : ∀ w' a', (w', a') ∈ timers_ q1 → w ≤ w').
    { rewrite Hts. intros w' a' Hin'. eapply earliest_first; [|done]. rewrite <- Hts. apply H1. }
    pose proof Hin as (t & Ht & _ & Hw)%(inv_entry _ _ H1).
    destruct (inv_heap _ _ H1 first t Ht) as [(_ & Hexp & _) _].
    wp_go. eapply deref_spec; [done|]. wp_go. rewrite Hw in *.
    unfold valid. destruct (Z.ltb_spec 0 w).
    + eapply wp_mono; [by apply resetTimerfd_spec|]. cbv beta. intros _ q2 (it & Hat & Hal & ->).
      split_and!; try done.
      * by eapply inv_ext; [..|exact H1].
      * eapply armed_by; [done|apply Hat|done|]. done.
    + split_and!; try done.
      intros w' a' Hin'. destruct (Hnew _ Hin) as [Hq0|]; [|simpl in *; lia].
      destruct Hhalf as [Harm|Hpos]; [|apply Hpos in Hq0; lia].
      destruct (Harm _ _ Hq0) as (it & Hit & Hat & Hal). exists it. rewrite F3.
      split_and!; [done|done|lia].
Qed.

(** ** handleRead *)

(** The timers that are due at [now]. *)
Definition due (now : Timestamp) (q : TimerQueue) : list Entry := filter (λ e, e.1 ≤ now) (timers_ q).

Lemma filter_split (now : Z) (l1 l2 : list Entry) :
  (∀ e, e ∈ l1 → e.1 ≤ now) → (∀ e, e ∈ l2 → now < e.1) → filter (λ e, e.1 ≤ now) (l1 ++ l2) = l1.
Proof.
  intros H1 H2. induction l1 as [|e l1 IH]; cbn [app].
  - induction l2 as [|e l2 IH]; [done|]. rewrite filter_cons_False.
    + apply IH. intros e' He'. apply H2. by right.
    + assert (now < e.1) by (apply H2; by left). lia.
  - rewrite filter_cons_True by (apply H1; by left). f_equal. apply IH. intros e' He'. apply H1. by right.
Qed.

Lemma with_scripts_fst l scripts : (with_scripts l scripts).*1 = l.
Proof. induction l as [|e l IH] in scripts |- *; [done|]. destruct scripts; simpl; by rewrite IH. Qed.

Lemma with_scripts_all l scripts :
  length scripts = length l → concat (with_scripts l scripts).*2 = concat scripts.
Proof.
  induction l as [|e l IH] in scripts |- *; intros Hl; [by destruct scripts|].
  destruct scripts as [|s scripts]; [done|]. simpl in Hl. cbn [with_scripts]. rewrite fmap_cons.
  cbn [snd concat]. by rewrite IH by lia.
Qed.

Lemma with_scripts_ok l scripts :
  Forall (Forall action_ok) scripts → Forall (Forall action_ok) (with_scripts l scripts).*2.
Proof.
  induction l as [|e l IH] in scripts |- *; cbn [with_scripts]; intros Hs; [by constructor|].
  destruct Hs as [|s scripts Hs Hss]; rewrite fmap_cons; constructor; try done; by apply IH.
Qed.

Definition cancelled (acts : list action) (x : ActiveTimer) : Prop := ∃ a, a ∈ acts ∧ cancels a x.

(** What a round makes of the timer [t] at [a] that was due at [now]. *)
Definition fate (now : Timestamp) (acts : list action) (a : Z) (t : Timer) (q' : TimerQueue) : Prop :=
  (repeat_ t = true → ¬ cancelled acts (a, sequence_ t) →
     ∃ d, delta_of (interval_ t) = Ok d ∧ heap_ q' !! a = Some (restarted t (now + d)) ∧
          (now + d, a) ∈ timers_ q' ∧ (a, sequence_ t) ∈ activeTimers_ q') ∧
  (repeat_ t = false ∨ cancelled acts (a, sequence_ t) → heap_ q' !! a = None).

Lemma after_round_fate now acts canceling a t q' :
  set_wf canceling → ((a, sequence_ t) ∈ canceling ↔ cancelled acts (a, sequence_ t)) →
  after_round now canceling a t q' → fate now acts a t q'.
Proof.
  intros Hwf Hc. unfold after_round, fate.
  destruct (set_mem (a, sequence_ t) canceling) eqn:Hmem.
  - apply set_mem_elem in Hmem; [|done]. rewrite andb_false_r. intros Hnone. split; [|done].
    intros _ Hno. by destruct Hno; apply Hc.
  - assert (Hnc : ¬ cancelled acts (a, sequence_ t)).
    { intros Hin%Hc. apply set_mem_elem in Hin; [|done]. congruence. }
    destruct (repeat_ t); simpl; intros Hr; split; try done. by intros [|].
Qed.

Definition round_post (o : list Z) (now : Timestamp) (acts : list action) (q q' : TimerQueue) : Prop :=
  inv o q' ∧ armed q' ∧ callingExpiredTimers_ q' = false ∧
  pendingFunctors_ q' = pendingFunctors_ q ∧
  ∀ w a t, (w, a) ∈ timers_ q → heap_ q !! a = Some t →
    if bool_decide (w ≤ now) then fate now acts a t q'
    else ¬ cancelled acts (a, sequence_ t) → (w, a) ∈ timers_ q' ∧ heap_ q' !! a = Some t.

Lemma handleRead_body o scripts q :
  inv o q → Forall (Forall action_ok) scripts →
  wpf E (handleRead false scripts)
    (λ _ q', round_post o (clock (calls_ q))
       (concat (with_scripts (due (clock (calls_ q)) q) scripts).*2) q q') q.
Proof.
  intros Hq Hok. unfold handleRead. wp_go. apply now__spec. intros now Hn Hnow. rewrite <- Hn. wp_go.
  eapply wp_mono; [apply (getExpired_spec o); by eapply inv_ext; [..|exact Hq]|]. cbv beta.
  intros expired q1 (H1 & Hsplit & Hdue & Hnot & as' & E1). cbn [set_calls timers_] in Hsplit.
  assert (Hexp : due now q = expired) by (unfold due; rewrite Hsplit; by apply filter_split).
  rewrite Hexp. wp_go. set (acts := concat _).
  set (q2 := set_canceling [] (set_calling true q1)).
  assert (H2 : inv (expired.*2 ++ o) q2).
  { destruct H1. constructor; try done. apply set_wf_nil. }
  eapply wp_mono; [apply (run_expired_all (expired.*2 ++ o)); [done| |by apply with_scripts_ok]|].
  { intros p Hp. apply elem_of_app. left. rewrite <- (with_scripts_fst expired scripts).
    apply list_elem_of_fmap. exists p.1. split; [done|]. apply list_elem_of_fmap. by exists p. }
  cbv beta. intros _ q3 H3. fold acts in H3. wp_go.
  pose proof (called_inv _ _ _ _ H3) as I3. pose proof (called_keeps _ _ _ _ H3) as K3.
  assert (Hhalf : half_armed q3).
  { apply (keeps_half _ _ _ K3). right. intros w a Hin. apply Hnot in Hin. simpl in Hin. lia. }
  assert (I3' : inv (expired.*2 ++ o) (set_calling false q3)) by by eapply inv_ext; [..|exact I3].
  eapply wp_mono; [by apply (reset_spec o)|]. cbv beta.
  intros _ q4 (H4 & Harm & Hcall & Hpend & Hafter & Hold). simpl in Hcall, Hpend, Hafter, Hold.
  assert (Hheap2 : heap_ q2 = heap_ q) by (unfold q2; by rewrite E1).
  unfold round_post. split_and!; [done|done|done| |].
  { rewrite Hpend, (called_pending _ _ _ _ H3). unfold q2. by rewrite E1. }
  intros w a t Hin Ht. case_bool_decide as Hw.
  - assert (Hin' : (w, a) ∈ expired) by (rewrite <- Hexp; unfold due; by apply list_elem_of_filter).
    assert (Ha : a ∈ expired.*2 ++ o).
    { apply elem_of_app. left. apply list_elem_of_fmap. by exists (w, a). }
    eapply after_round_fate; [apply (inv_canceling _ _ I3)| |].
    + rewrite (called_canceling _ _ _ _ H3) by done. unfold q2, cancelled. simpl. rewrite elem_of_nil. tauto.
    + apply (Hafter w); [done|]. by rewrite (keeps_heap _ _ _ K3), Hheap2.
  - intros Hno. assert (Hrest : (w, a) ∈ timers_ q1).
    { rewrite Hsplit in Hin. apply elem_of_app in Hin as [Hin|]; [|done]. by apply Hdue in Hin. }
    pose proof Hrest as (t' & Ht' & Hact & Hw')%(inv_entry _ _ H1).
    assert (heap_ q1 = heap_ q) as Hheap1 by by rewrite E1. rewrite Hheap1, Ht in Ht'. injection Ht' as <-.
    destruct (called_queued _ _ _ _ H3 (a, sequence_ t) t) as [Hact3 Ht3].
    { done. } { cbn [fst]. by rewrite Hheap2. } { intros x Hx Hcx. apply Hno. by exists x. }
    cbn [fst] in Ht3. destruct (Hold (w, a)) as [? Hheap4].
    { apply (inv_entry _ _ I3). by exists t. }
    cbn [snd] in Hheap4. by rewrite Hheap4.
Qed.

Lemma handleRead_spec o fired scripts q :
  inv o q → Forall (Forall action_ok) scripts →
  wpf E (handleRead fired scripts)
    (λ _ q', round_post o (clock (calls_ q))
       (concat (with_scripts (due (clock (calls_ q)) q) scripts).*2) q q') q.
Proof.
  intros Hq Hok. destruct fired; [|by apply handleRead_body].
  apply (handleRead_body o scripts (set_timerfd None q)); [|done]. by eapply inv_ext; [..|exact Hq].
Qed.

(** ** Events *)

(** Between two events the queue owns every timer but those of queued functors. *)
Definition consistent (q : TimerQueue) : Prop :=
  inv (pending_adds (pendingFunctors_ q)) q ∧ armed q ∧ callingExpiredTimers_ q = false.

Definition event_ok (e : event) : Prop :=
  match e with
  | EAction _ a => action_ok a
  | EStart cb when interval _ => timer_ok (Timer_init cb when interval 0)
  | EReturn _ | EPending => True
  | EHandleRead _ scripts => Forall (Forall action_ok) scripts
  end.

(** The timers whose [addTimer] has not returned after [e], those in [started] before it; [None] when the loop runs
    its functors before an [addTimer] has returned, or one returns that has not started. *)
Definition not_returned (started : list Z) (e : event) : option (list Z) :=
  match e with
  | EStart _ _ _ addr => Some (addr :: started)
  | EReturn timer => if decide (timer ∈ started) then Some (filter (λ a, a ≠ timer) started) else None
  | EPending => if decide (started = []) then Some [] else None
  | EAction _ _ | EHandleRead _ _ => Some started
  end.
Fixpoint in_time (started : list Z) (es : list event) : Prop :=
  match es with
  | [] => True
  | e :: es' => match not_returned started e with Some started' => in_time started' es' | None => False end
  end.

Lemma pending_adds_app fs1 fs2 : pending_adds (fs1 ++ fs2) = pending_adds fs1 ++ pending_adds fs2.
Proof. apply omap_app. Qed.

Lemma run_functors_spec fs q :
  inv (pending_adds fs ++ pending_adds (pendingFunctors_ q)) q → armed q → callingExpiredTimers_ q = false →
  wpf E (for_each run_functor fs) (λ _, consistent) q.
Proof.
  induction fs as [|f fs IH] in q |- *; intros Hq Harm Hcall; cbn [for_each].
  - wp_go. by split.
  - wp_go. destruct f as [a|id]; cbn [pending_adds omap list_omap app] in Hq; cbn [run_functor].
    + eapply wp_mono; [by apply (addTimerInLoop_spec (pending_adds fs ++ pending_adds (pendingFunctors_ q)))|].
      cbv beta. intros _ q1 (t & _ & H1 & K1 & _ & _ & Hpend & _). apply IH.
      * by rewrite Hpend.
      * by apply (keeps_armed _ _ _ K1).
      * by rewrite (keeps_calling _ _ _ K1).
    + eapply wp_mono; [by apply cancelInLoop_spec|]. cbv beta. intros _ q1 (H1 & K1 & Hpend & _). apply IH.
      * by rewrite Hpend.
      * by apply (keeps_armed _ _ _ K1).
      * by rewrite (keeps_calling _ _ _ K1).
Qed.

Lemma consistent_init : consistent TimerQueue_init.
Proof.
  split_and!; [apply inv_init| |done]. by intros w a ?%elem_of_nil.
Qed.

(** A timer is handed over by another thread. *)
Lemma addTimer_start_spec cb when interval addr started q :
  consistent q → started ⊆ pending_adds (pendingFunctors_ q) → timer_ok (Timer_init cb when interval 0) →
  wpf E (addTimer_start false cb when interval addr)
    (λ a q', a = addr ∧ consistent q' ∧ addr :: started ⊆ pending_adds (pendingFunctors_ q')) q.
Proof.
  intros (Hq & Harm & Hcall) Hs Hok. unfold addTimer_start, runInLoop. wp_go.
  eapply wp_mono; [by apply (new_timer_spec (pending_adds (pendingFunctors_ q)))|]. cbv beta.
  intros a q1 (H1 & -> & _ & t & n & ->). wp_go. cbn [set_pending pendingFunctors_ set_heap set_numCreated].
  unfold consistent. cbn [set_pending pendingFunctors_ set_heap set_numCreated].
  rewrite pending_adds_app. cbn [pending_adds omap list_omap]. split_and!; [done| |done|done|].
  - rewrite <- Permutation_cons_append. by eapply inv_ext; [..|exact H1].
  - intros x [->|Hx]%elem_of_cons; apply elem_of_app; [right; by left|left; by apply Hs].
Qed.

(** Its address can be used as long as its functor has not run. *)
Lemma addTimer_return_spec timer q (Q : TimerId → TimerQueue → Prop) :
  consistent q → timer ∈ pending_adds (pendingFunctors_ q) → (∀ s, Q (mkTimerId timer s) q) →
  wpf E (addTimer_return timer) Q q.
Proof.
  intros (Hq & _) Hin HQ. destruct (inv_owned_alloc _ _ Hq timer Hin) as [[t Ht] _].
  unfold addTimer_return. wp_go. eapply deref_spec; [exact Ht|]. wp_go. apply HQ.
Qed.

Lemma run_event_spec e started started' q :
  consistent q → started ⊆ pending_adds (pendingFunctors_ q) → event_ok e → not_returned started e = Some started' →
  wpf E (run_event e) (λ _ q', consistent q' ∧ started' ⊆ pending_adds (pendingFunctors_ q')) q.
Proof.
  intros Hc Hs Hok Hret. pose proof Hc as (Hq & Harm & Hcall).
  destruct e as [[] a|cb when interval addr|timer| |fired scripts]; cbn [run_event event_ok not_returned] in *; simplify_eq.
  - eapply wp_mono; [by apply (run_action_spec (pending_adds (pendingFunctors_ q)))|]. cbv beta.
    intros _ q' [H1 K1 P1 _ _]. unfold consistent. rewrite P1. split_and!; [done| | |done].
    + by apply (keeps_armed _ _ _ K1).
    + by rewrite (keeps_calling _ _ _ K1).
  - destruct a as [cb when interval addr|id]; cbn [run_action].
    + unfold addTimer. wp_go. eapply wp_mono; [by apply (addTimer_start_spec _ _ _ _ started')|]. cbv beta.
      intros a q1 (-> & H1 & S1). apply addTimer_return_spec; [done|apply S1; by left|]. intros n. wp_go.
      split; [done|]. intros x Hx. apply S1. by right.
    + unfold cancel, runInLoop. wp_go. unfold consistent. cbn [set_pending pendingFunctors_].
      rewrite pending_adds_app. cbn [pending_adds omap list_omap]. rewrite app_nil_r.
      split_and!; [by eapply inv_ext; [..|exact Hq]|done|done|done].
  - wp_go. eapply wp_mono; [by apply (addTimer_start_spec _ _ _ _ started)|]. cbv beta. by intros a q1 (_ & H1 & S1).
  - destruct (decide (timer ∈ started)) as [Hin|]; simplify_eq. wp_go.
    apply addTimer_return_spec; [done|by apply Hs|]. intros n. wp_go. split; [done|].
    intros x [_ Hx]%list_elem_of_filter. by apply Hs.
  - destruct (decide (started = [])); simplify_eq. unfold run_pending. wp_go.
    eapply wp_mono; [apply run_functors_spec; [|done|done]|cbv beta; intros _ q' H1; split; [done|by intros x ?%elem_of_nil]].
    cbn [set_pending pendingFunctors_ pending_adds omap list_omap]. rewrite app_nil_r.
    by eapply inv_ext; [..|exact Hq].
  - eapply wp_mono; [by apply (handleRead_spec (pending_adds (pendingFunctors_ q)))|]. cbv beta.
    intros _ q' (H1 & H2 & H3 & H4 & _). unfold consistent. rewrite H4. by split_and!.
Qed.

Lemma run_events_spec es started q :
  consistent q → started ⊆ pending_adds (pendingFunctors_ q) → Forall event_ok es → in_time started es →
  wpf E (run_events es) (λ _, consistent) q.
Proof.
  intros Hq Hs Hok Hin. unfold run_events. induction es as [|e es IH] in started, q, Hq, Hs, Hok, Hin |- *; cbn [for_each]; [done|].
  apply Forall_cons_1 in Hok as [He Hok]. cbn [in_time] in Hin.
  destruct (not_returned started e) as [started'|] eqn:Hret; [|done].
  wp_go. eapply wp_mono; [by apply (run_event_spec e started started')|].
  cbv beta. intros _ q1 [H1 S1]. by apply (IH started').
Qed.

Lemma run_from_empty es :
  Forall event_ok es → in_time [] es → wpf E (run_events es) (λ _, consistent) TimerQueue_init.
Proof. intros Hok Hin. apply (run_events_spec es []); [|by intros x ?%elem_of_nil|done|done]. apply consistent_init. Qed.
End specs.

(** ** Destruction *)

Lemma delete_all_spec l q :
  NoDup (l.*2) → (∀ a, a ∈ l.*2 → is_Some (heap_ q !! a)) →
  wp (for_each (λ timer : Entry, delete_timer timer.2) l)
    (λ _ q', ∃ h, q' = set_heap h q ∧ ∀ a, h !! a = if decide (a ∈ l.*2) then None else heap_ q !! a) q.
Proof.
  induction l as [|[w a] l IH] in q |- *; cbn [for_each]; rewrite ?fmap_cons; cbn [snd].
  - intros _ _. exists (heap_ q). split; [by destruct q|]. intros a.
    rewrite decide_False; [done|]. by intros ?%elem_of_nil.
  - intros [Ha Hnd]%list.NoDup_cons Hall. destruct (Hall a) as [t Ht]; [by left|]. wp_go.
    unfold delete_timer at 1. wp_go. eapply deref_spec; [done|]. wp_go.
    eapply wp_mono; [apply IH; [done|]|].
    { intros b Hb. simpl. rewrite lookup_delete_ne; [apply Hall; by right|]. by intros ->. }
    cbv beta. intros _ q' (h & -> & Hh). exists h. split; [done|]. intros b. rewrite Hh. simpl.
    destruct (decide (b = a)) as [->|Hb].
    + rewrite lookup_delete_eq, (decide_True (P := a ∈ a :: l.*2)) by left. by destruct (decide _).
    + rewrite lookup_delete_ne by done. destruct (decide (b ∈ l.*2)) as [Hin|Hin].
      * by rewrite decide_True by by right.
      * rewrite decide_False; [done|]. by intros [?|?]%elem_of_cons.
Qed.

Lemma timers_nodup o q : inv o q → NoDup (timers_ q).*2.
Proof.
  intros Hq. apply NoDup_fmap_2_strong; [|apply set_wf_NoDup, Hq].
  intros [w a] [w' a'] (t & Ht & _ & <-)%(inv_entry _ _ Hq) (t' & Ht' & _ & <-)%(inv_entry _ _ Hq).
  simpl. intros <-. congruence.
Qed.

(** ** Properties *)

Definition only_bad_alloc (f : fault) : Prop := f = BadAlloc.

(** A run ended well: the two sets hold the same timers, each allocated, and every allocated
    timer is queued or waits in a functor; or memory ran out. *)
Definition good_end (r : outcome (() * TimerQueue)) : Prop :=
  match r with
  | Ok (_, q) =>
      zlen (timers_ q) = zlen (activeTimers_ q) ∧ set_wf (timers_ q) ∧
      (∀ w a, (w, a) ∈ timers_ q ↔
         ∃ t, heap_ q !! a = Some t ∧ expiration_ t = w ∧ (a, sequence_ t) ∈ activeTimers_ q) ∧
      (∀ a, is_Some (heap_ q !! a) ↔ (∃ w, (w, a) ∈ timers_ q) ∨ a ∈ pending_adds (pendingFunctors_ q)) ∧
      NoDup (timers_ q).*2 ∧ (∀ w a, (w, a) ∈ timers_ q → a ∉ pending_adds (pendingFunctors_ q))
  | Fault f => f = BadAlloc
  end.

(** C33: whatever clients do, the queue stays consistent.  From the empty queue, every sequence of
    calls from the loop and from other threads, of functor runs and of timer expirations (spurious
    ones included), with callbacks that add and cancel timers as they like (themselves, stale ids,
    ids never issued, addresses used again), runs without a failed assertion, without touching a freed
    timer and without overflow, and ends in a state where the two sets hold the same timers, each
    allocated, and every allocated timer is queued or waits in a functor: nothing is leaked or freed
    twice.  Only running out of memory ends it early.  This is so when callbacks are not empty, times are at
    most 2^62 microseconds away from 1970 and intervals of repeated timers at most 2^61 microseconds ([event_ok]), and
    when an [addTimer] of another thread, which hands its timer over and then reads it again, returns before
    the loop next runs its functors ([in_time]); otherwise it may read a freed timer ([addTimer_race]). *)
Theorem timer_queue_consistent `{TimeKernel} es :
  Forall event_ok es → in_time [] es →
  good_end (run_events es TimerQueue_init).
Proof.
  intros Hok Hin. pose proof (run_from_empty (E := only_bad_alloc) eq_refl es Hok Hin) as Hrun.
  unfold wpf, good_end in *. destruct (run_events es TimerQueue_init) as [[[] q]|f]; [|done].
  destruct Hrun as (Hq & _). split_and!; [apply Hq|apply Hq| | |by eapply timers_nodup|].
  - intros w a. rewrite (inv_entry _ _ Hq). split; intros (t & ? & ? & ?); by exists t.
  - intros a. split.
    + intros [t Ht]. pose proof (inv_heap _ _ Hq a t Ht) as (_ & _ & [Hact|Hown]); [left|by right].
      exists (expiration_ t). apply (inv_entry _ _ Hq). by exists t.
    + intros [[w (t & Ht & _)%(inv_entry _ _ Hq)]|Hown]; [by exists t|]. by apply (inv_owned_alloc _ _ Hq).
  - intros w a (t & Ht & Hact & _)%(inv_entry _ _ Hq). by eapply inv_not_owned.
Qed.

(** A clock that advances by a second at each reading. *)
#[local, refine] Instance ticking : TimeKernel := {|
  gettimeofday n := (1000 + Z.of_nat (n mod 1000), 0);
  timerfd_settime _ _ := 0
|}.
Proof.
  - intros n. cbn [fst snd]. pose proof (Nat.mod_upper_bound n 1000). lia.
  - done.
Defined.

(** A repeated timer that cancels itself and adds a second one, a timer from another thread, and a
    third timer that gets the freed address. *)
Definition sample_events : list event :=
  [EAction true (AddTimer (Some 1) 1000000000 (double_of_Z 2) 4096);
   EAction false (AddTimer (Some 2) 5 dzero 8192);
   EStart (Some 5) 7 dzero 16384;
   EAction true (Cancel (mkTimerId 16384 2));
   EReturn 16384;
   EPending;
   EHandleRead true [[]; [];[Cancel (mkTimerId 4096 0); AddTimer (Some 3) 0 dzero 12288]];
   EHandleRead true [];
   EAction true (AddTimer (Some 4) 2000000000 (double_of_Z 1) 4096);
   EAction true (Cancel (mkTimerId 4096 0))].

Lemma once_ok cb when seq : - 2 ^ 62 ≤ when ≤ 2 ^ 62 → timer_ok (Timer_init (Some cb) when dzero seq).
Proof. intros Hw. split_and!; simpl; [by eexists|lia|lia|done]. Qed.

Lemma seconds_ok cb when k seq :
  - 2 ^ 62 ≤ when ≤ 2 ^ 62 → 0 < k < 2 ^ 32 → timer_ok (Timer_init (Some cb) when (double_of_Z k) seq).
Proof.
  intros Hw Hk. split_and!; simpl; [by eexists|lia|lia|]. intros _.
  exists (k * kMicroSecondsPerSecond). unfold kMicroSecondsPerSecond in *.
  split; [|lia]. apply delta_of_seconds; unfold kMicroSecondsPerSecond, prec; lia.
Qed.

Lemma sample_events_ok : Forall event_ok sample_events.
Proof.
  unfold sample_events. rewrite !list.Forall_cons. cbn [event_ok action_ok]. rewrite !list.Forall_cons.
  cbn [action_ok]. split_and!; try done; (by apply seconds_ok) || by apply once_ok.
Qed.

Lemma timer_queue_consistent_witness :
  good_end (run_events sample_events TimerQueue_init) ∧
  (timers_ <$> match run_events sample_events TimerQueue_init with Ok (_, q) => Some q | _ => None end)
    = Some [(2000000000, 4096)].
Proof.
  split; [apply (timer_queue_consistent sample_events sample_events_ok); vm_compute; exact I|]. vm_compute. reflexivity.
Defined.

(** The alarm is always on.  After any such sequence of events, when a timer is queued the
    one-shot timerfd is set, and it expires no later than the timer's expiration, or 100
    microseconds after it was set when that was already past: no timer is ever missed. *)
Theorem alarm_covers_timers `{TimeKernel} es q w a :
  Forall event_ok es → in_time [] es → run_events es TimerQueue_init = Ok (tt, q) → (w, a) ∈ timers_ q →
  ∃ it, timerfd_ q = Some it ∧ 0 < set_at it ∧ alarm it ≤ Z.max w (set_at it + 100).
Proof.
  intros Hok Htime Hrun Hin.
  pose proof (run_from_empty (E := only_bad_alloc) eq_refl es Hok Htime) as Hwp.
  unfold wpf in Hwp. rewrite Hrun in Hwp. destruct Hwp as (_ & Harm & _). by apply (Harm w a).
Qed.

Definition final_queue `{TimeKernel} (es : list event) : TimerQueue :=
  match run_events es TimerQueue_init with Ok (_, q) => q | Fault _ => TimerQueue_init end.

Lemma alarm_covers_timers_witness :
  ∃ it, timerfd_ (final_queue sample_events) = Some it ∧ 0 < set_at it ∧
    alarm it ≤ Z.max 2000000000 (set_at it + 100).
Proof.
  apply (alarm_covers_timers sample_events (final_queue sample_events) 2000000000 4096).
  - exact sample_events_ok.
  - vm_compute. exact I.
  - vm_compute. reflexivity.
  - vm_compute. by left.
Defined.

(** C34: a round of expirations, exactly.  When the timerfd fires, each timer that is due runs its
    callback once; afterwards a repeated one that no callback of the round cancelled is queued again,
    for the round's time plus its interval, and every other one of them is freed, however the callbacks
    used its id; a timer that was not due stays as it was unless a callback cancelled it. *)
Theorem handleRead_round `{TimeKernel} q fired scripts :
  let now := clock (calls_ q) in
  consistent q → length scripts = length (due now q) → Forall (Forall action_ok) scripts →
  wpf only_bad_alloc (handleRead fired scripts)
    (λ _ q', ∀ w a t, (w, a) ∈ timers_ q → heap_ q !! a = Some t →
       if bool_decide (w ≤ now) then
         (repeat_ t = true → ¬ cancelled (concat scripts) (a, sequence_ t) →
            ∃ d, delta_of (interval_ t) = Ok d ∧ heap_ q' !! a = Some (restarted t (now + d)) ∧
                 (now + d, a) ∈ timers_ q' ∧ (a, sequence_ t) ∈ activeTimers_ q') ∧
         (repeat_ t = false ∨ cancelled (concat scripts) (a, sequence_ t) → heap_ q' !! a = None)
       else ¬ cancelled (concat scripts) (a, sequence_ t) → (w, a) ∈ timers_ q' ∧ heap_ q' !! a = Some t) q.
Proof.
  intros now (Hq & _) Hlen Hok. eapply wp_mono; [by eapply (handleRead_spec (E := only_bad_alloc) eq_refl)|].
  cbv beta. intros _ q' (_ & _ & _ & _ & Hpost). fold now in Hpost. rewrite with_scripts_all in Hpost by done.
  exact Hpost.
Qed.

Definition two_due : TimerQueue :=
  final_queue [EAction true (AddTimer (Some 1) 1 (double_of_Z 2) 4096);
               EAction true (AddTimer (Some 2) 2 dzero 8192)].

Lemma two_due_consistent : consistent two_due.
Proof.
  unfold two_due, final_queue. set (es := [_; _]).
  assert (Hok : Forall event_ok es).
  { unfold es. rewrite !list.Forall_cons. cbn [event_ok action_ok].
    split_and!; try done; (by apply seconds_ok) || by apply once_ok. }
  pose proof (run_from_empty (E := only_bad_alloc) eq_refl es Hok I) as Hrun.
  unfold wpf in Hrun. destruct (run_events es TimerQueue_init) as [[[] q]|]; [done|apply consistent_init].
Qed.

Lemma handleRead_round_witness :
  wpf only_bad_alloc (handleRead true [[Cancel (mkTimerId 8192 1)]; []])
    (λ _ q', ∀ w a t, (w, a) ∈ timers_ two_due → heap_ two_due !! a = Some t →
       if bool_decide (w ≤ clock (calls_ two_due)) then
         (repeat_ t = true → ¬ cancelled (concat [[Cancel (mkTimerId 8192 1)]; []]) (a, sequence_ t) →
            ∃ d, delta_of (interval_ t) = Ok d ∧
                 heap_ q' !! a = Some (restarted t (clock (calls_ two_due) + d)) ∧
                 (clock (calls_ two_due) + d, a) ∈ timers_ q' ∧ (a, sequence_ t) ∈ activeTimers_ q') ∧
         (repeat_ t = false ∨ cancelled (concat [[Cancel (mkTimerId 8192 1)]; []]) (a, sequence_ t) →
            heap_ q' !! a = None)
       else ¬ cancelled (concat [[Cancel (mkTimerId 8192 1)]; []]) (a, sequence_ t) →
            (w, a) ∈ timers_ q' ∧ heap_ q' !! a = Some t) two_due.
Proof.
  apply (handleRead_round two_due true [[Cancel (mkTimerId 8192 1)]; []]).
  - exact two_due_consistent.
  - vm_compute. reflexivity.
  - repeat constructor.
Defined.

(** [cancel] removes exactly the timer it names.  In a consistent queue, after
    [cancelInLoop(id)] no queued timer has the id's address and sequence number; every other queued
    timer is untouched, in particular a newer one at the same address; the named timer is freed if
    it was queued and nothing else is. *)
Theorem cancel_exact `{TimeKernel} q id :
  consistent q →
  wp (cancelInLoop id)
    (λ _ q', consistent q' ∧
       (∀ x, x ∈ activeTimers_ q' ↔ x ∈ activeTimers_ q ∧ x ≠ (id_timer id, id_sequence id)) ∧
       (∀ a, heap_ q' !! a =
          if bool_decide (a = id_timer id ∧ (a, id_sequence id) ∈ activeTimers_ q)
          then None else heap_ q !! a)) q.
Proof.
  intros (Hq & Harm & Hcall). eapply wp_mono; [by apply cancelInLoop_spec|]. cbv beta.
  intros _ q' (H1 & K1 & Hpend & Hact & Hheap & _). split_and!.
  - split_and!; [by rewrite Hpend|by apply (keeps_armed _ _ _ K1)|by rewrite (keeps_calling _ _ _ K1)].
  - done.
  - intros a. rewrite Hheap. cbn [fst]. destruct (decide _) as [[-> Hin]|Hno].
    + by rewrite bool_decide_eq_true_2.
    + rewrite bool_decide_eq_false_2; [done|]. intros [-> Hin]. by apply Hno.
Qed.

Lemma cancel_exact_witness :
  wp (cancelInLoop (mkTimerId 4096 0))
    (λ _ q', consistent q' ∧
       (∀ x, x ∈ activeTimers_ q' ↔ x ∈ activeTimers_ two_due ∧ x ≠ (4096, 0)) ∧
       (∀ a, heap_ q' !! a =
          if bool_decide (a = 4096 ∧ (a, 0) ∈ activeTimers_ two_due) then None else heap_ two_due !! a)) two_due.
Proof. apply (cancel_exact two_due (mkTimerId 4096 0)). exact two_due_consistent. Defined.

(** C35: the relative time given to the kernel.  For expirations in range, [howMuchTimeFromNow]
    returns a normalized [timespec] that is never zero (which would disarm the timer) and stands for
    exactly the time to go, or 100 microseconds when less is left. *)
Theorem howMuchTimeFromNow_exact `{TimeKernel} q when :
  - 2 ^ 62 ≤ when ≤ 2 ^ 62 →
  wp (howMuchTimeFromNow when)
    (λ it q', set_at it = clock (calls_ q) ∧ 0 ≤ tv_sec it ∧ 0 ≤ tv_nsec it ≤ 999999999 ∧
       tv_sec it * 1000000000 + tv_nsec it = 1000 * Z.max 100 (when - clock (calls_ q)) ∧
       0 < tv_sec it * 1000000000 + tv_nsec it) q.
Proof.
  intros Hw. unfold howMuchTimeFromNow. wp_go. apply now__spec. intros n Hn Hr. wp_go.
  unfold microSecondsSinceEpoch. eapply wp_lift; [apply checked_64_ok; lia|]. wp_go. simpl. rewrite <- Hn.
  set (m := if when - n <? 100 then 100 else when - n).
  assert (Hm : m = Z.max 100 (when - n)) by (unfold m; case_cmp; lia).
  unfold kMicroSecondsPerSecond. change (1000 * 1000) with 1000000.
  rewrite Z.quot_div_nonneg, Z.rem_mod_nonneg by lia.
  pose proof (Z.div_mod m 1000000). pose proof (Z.mod_pos_bound m 1000000).
  pose proof (Z.div_pos m 1000000). split_and!; lia.
Qed.

Lemma howMuchTimeFromNow_exact_witness :
  wp (howMuchTimeFromNow 1002500000)
    (λ it q', set_at it = clock 0 ∧ 0 ≤ tv_sec it ∧ 0 ≤ tv_nsec it ≤ 999999999 ∧
       tv_sec it * 1000000000 + tv_nsec it = 1000 * Z.max 100 (1002500000 - clock 0) ∧
       0 < tv_sec it * 1000000000 + tv_nsec it) TimerQueue_init.
Proof. apply (howMuchTimeFromNow_exact TimerQueue_init 1002500000). split; vm_compute; discriminate. Defined.

Lemma dtor_frees o q :
  inv o q → wp TimerQueue_dtor (λ _ q', ∀ a, is_Some (heap_ q' !! a) ↔ a ∈ o) q.
Proof.
  intros Hq. unfold TimerQueue_dtor. wp_go. eapply wp_mono.
  { apply delete_all_spec; [by eapply timers_nodup|]. intros a Hin.
    apply list_elem_of_fmap in Hin as ([w a'] & -> & (t & Ht & _)%(inv_entry _ _ Hq)). by exists t. }
  cbv beta. intros _ q' (h & -> & Hh) a. cbn [set_heap heap_]. rewrite Hh. destruct (decide _) as [Hin|Hin].
  - split; [by intros [? ?]|]. intros Hown. exfalso.
    apply list_elem_of_fmap in Hin as ([w a'] & -> & (t & Ht & Hact & _)%(inv_entry _ _ Hq)).
    by eapply inv_not_owned.
  - split; [|by apply (inv_owned_alloc _ _ Hq)]. intros [t Ht].
    destruct (inv_heap _ _ Hq a t Ht) as (_ & _ & [Hact|]); [|done]. exfalso. apply Hin, list_elem_of_fmap.
    exists (expiration_ t, a). split; [done|]. apply (inv_entry _ _ Hq). by exists t.
Qed.

(** Destruction frees the queued timers and only those: what stays allocated are exactly the
    timers that other threads created and whose functors never ran (the queue does not know them, so
    they are leaked). *)
Theorem dtor_frees_queued q :
  consistent q →
  wp TimerQueue_dtor
    (λ _ q', ∀ a, is_Some (heap_ q' !! a) ↔ a ∈ pending_adds (pendingFunctors_ q)) q.
Proof. intros (Hq & _). by apply dtor_frees. Qed.

Lemma dtor_frees_queued_witness :
  wp TimerQueue_dtor
    (λ _ q', ∀ a, is_Some (heap_ q' !! a) ↔ a ∈ pending_adds (pendingFunctors_ two_due)) two_due.
Proof. apply (dtor_frees_queued two_due). exact two_due_consistent. Defined.

(** The race in [addTimer].  Called from another thread, it reads the new timer's sequence
    number after handing the timer to the loop.  When the loop runs the functor, the timer expires
    and its round ends before that read, the timer has been freed: undefined behaviour. *)
Theorem addTimer_race :
  (timer ← addTimer_start false (Some 1) 5 dzero 4096;
   run_pending ;;
   handleRead true [] ;;
   addTimer_return timer) TimerQueue_init = Fault UndefinedBehaviour ∧
  (timer ← addTimer_start false (Some 1) 5 dzero 4096;
   id ← addTimer_return timer;
   run_pending ;;
   handleRead true [] ;;
   mret id) TimerQueue_init ≠ Fault UndefinedBehaviour.
Proof. split; vm_compute; [reflexivity|discriminate]. Qed.
