(* ===== verification/Channel.v ===== *)
(** * Channel: [net::Channel] (net/channel)

    A channel holds the events a file descriptor is watched for, what the last poll
    reported, its registration state in the poller and four callbacks.  Callbacks and
    functors are values of a type [F] that names what is called (a [std::bind] is its
    target and its arguments); running one is an argument of [handleEvent].  The
    operations that go through the loop ([update], [remove]) are in EventLoop. *)
From S2P Require Import Prelude Timestamp.

(** ** Event masks *)

Definition EPOLLIN : Z := 1.
Definition EPOLLPRI : Z := 2.
Definition EPOLLOUT : Z := 4.
Definition EPOLLERR : Z := 8.
Definition EPOLLHUP : Z := 16.
Definition EPOLLRDHUP : Z := 8192.

Definition kNoneEvent : Z := 0.
Definition kReadEvent : Z := Z.lor EPOLLIN EPOLLPRI.
Definition kWriteEvent : Z := EPOLLOUT.

(** [a & b] as a condition. *)
Definition has (a b : Z) : bool := negb (Z.land a b =? 0).

(** The registration states of net/poller/Poller.h. *)
Definition kNew : Z := -1.
Definition kAdded : Z := 1.
Definition kDeleted : Z := 2.

(** ** State *)

Section channel.
Context {F : Type}.

Record Channel : Type := mkChannel {
  fd_ : Z;
  events_ : Z;
  revents_ : Z;
  index_ : Z;
  logHup_ : bool;
  tie_ : option Z;        (** the object behind the weak pointer *)
  tied_ : bool;
  eventHandling_ : bool;
  addedToLoop_ : bool;
  readCallback_ : option F;
  writeCallback_ : option F;
  closeCallback_ : option F;
  errorCallback_ : option F
}.

Definition Channel_init (fd : Z) : Channel :=
  mkChannel fd 0 0 (-1) true None false false false None None None None.

(** ~Channel. *)
Definition Channel_dtor (c : Channel) : outcome () :=
  if eventHandling_ c then Fault AssertFailed
  else if addedToLoop_ c then Fault AssertFailed
  else Ok tt.

Definition set_events ev c := mkChannel (fd_ c) ev (revents_ c) (index_ c) (logHup_ c) (tie_ c) (tied_ c)
  (eventHandling_ c) (addedToLoop_ c) (readCallback_ c) (writeCallback_ c) (closeCallback_ c) (errorCallback_ c).
Definition set_revents rev c := mkChannel (fd_ c) (events_ c) rev (index_ c) (logHup_ c) (tie_ c) (tied_ c)
  (eventHandling_ c) (addedToLoop_ c) (readCallback_ c) (writeCallback_ c) (closeCallback_ c) (errorCallback_ c).
Definition set_index i c := mkChannel (fd_ c) (events_ c) (revents_ c) i (logHup_ c) (tie_ c) (tied_ c)
  (eventHandling_ c) (addedToLoop_ c) (readCallback_ c) (writeCallback_ c) (closeCallback_ c) (errorCallback_ c).
Definition set_eventHandling b c := mkChannel (fd_ c) (events_ c) (revents_ c) (index_ c) (logHup_ c) (tie_ c)
  (tied_ c) b (addedToLoop_ c) (readCallback_ c) (writeCallback_ c) (closeCallback_ c) (errorCallback_ c).
Definition set_addedToLoop b c := mkChannel (fd_ c) (events_ c) (revents_ c) (index_ c) (logHup_ c) (tie_ c)
  (tied_ c) (eventHandling_ c) b (readCallback_ c) (writeCallback_ c) (closeCallback_ c) (errorCallback_ c).
Definition doNotLogHup c := mkChannel (fd_ c) (events_ c) (revents_ c) (index_ c) false (tie_ c) (tied_ c)
  (eventHandling_ c) (addedToLoop_ c) (readCallback_ c) (writeCallback_ c) (closeCallback_ c) (errorCallback_ c).
Definition tie (obj : Z) c := mkChannel (fd_ c) (events_ c) (revents_ c) (index_ c) (logHup_ c) (Some obj) true
  (eventHandling_ c) (addedToLoop_ c) (readCallback_ c) (writeCallback_ c) (closeCallback_ c) (errorCallback_ c).
Definition setReadCallback f c := mkChannel (fd_ c) (events_ c) (revents_ c) (index_ c) (logHup_ c) (tie_ c)
  (tied_ c) (eventHandling_ c) (addedToLoop_ c) f (writeCallback_ c) (closeCallback_ c) (errorCallback_ c).
Definition setWriteCallback f c := mkChannel (fd_ c) (events_ c) (revents_ c) (index_ c) (logHup_ c) (tie_ c)
  (tied_ c) (eventHandling_ c) (addedToLoop_ c) (readCallback_ c) f (closeCallback_ c) (errorCallback_ c).
Definition setCloseCallback f c := mkChannel (fd_ c) (events_ c) (revents_ c) (index_ c) (logHup_ c) (tie_ c)
  (tied_ c) (eventHandling_ c) (addedToLoop_ c) (readCallback_ c) (writeCallback_ c) f (errorCallback_ c).
Definition setErrorCallback f c := mkChannel (fd_ c) (events_ c) (revents_ c) (index_ c) (logHup_ c) (tie_ c)
  (tied_ c) (eventHandling_ c) (addedToLoop_ c) (readCallback_ c) (writeCallback_ c) (closeCallback_ c) f.

Definition isNoneEvent (c : Channel) : bool := events_ c =? kNoneEvent.
Definition isWriting (c : Channel) : bool := has (events_ c) kWriteEvent.
Definition isReading (c : Channel) : bool := has (events_ c) kReadEvent.

(** The new mask of each of the five requests. *)
Definition enableReading_mask (ev : Z) : Z := Z.lor ev kReadEvent.
Definition disableReading_mask (ev : Z) : Z := Z.land ev (Z.lnot kReadEvent).
Definition enableWriting_mask (ev : Z) : Z := Z.lor ev kWriteEvent.
Definition disableWriting_mask (ev : Z) : Z := Z.land ev (Z.lnot kWriteEvent).
Definition disableAll_mask (_ : Z) : Z := kNoneEvent.

(** [reventsToString], [eventsToString]: the names of the bits, after the descriptor. *)
Definition eventsToString (fd : list byte) (ev : Z) : list byte :=
  fd ++ txt ": " ++
  (if has ev EPOLLIN then txt "IN " else []) ++
  (if has ev EPOLLPRI then txt "PRI " else []) ++
  (if has ev EPOLLOUT then txt "OUT " else []) ++
  (if has ev EPOLLHUP then txt "HUP " else []) ++
  (if has ev EPOLLRDHUP then txt "RDHUP " else []) ++
  (if has ev EPOLLERR then txt "ERR " else []).

(** ** Handling an event

    [W] is the world the callbacks run in; the channel itself is reached through it,
    since a callback may change the channel's masks or even unregister it. *)

Section handle.
Context {W : Type}.
Context (alive : Z → W → bool).                    (** [tie_.lock()] of that object succeeds *)
Context (channel_of : Z → prog W Channel).         (** the channel at an address *)
Context (mark_handling : Z → bool → prog W ()).    (** [eventHandling_ = b] *)
Context (call : F → prog W ()).                    (** calls a callback *)
Context (call_read : F → Timestamp → prog W ()).   (** calls the read callback *)

(** [if (cb) cb()]. *)
Definition call_if (f : option F) : prog W () :=
  match f with Some f => call f | None => mret tt end.

Definition handleEventWithGuard (ch : Z) (receiveTime : Timestamp) : prog W () :=
  mark_handling ch true ;;
  c ← channel_of ch;
  when_ (has (revents_ c) EPOLLHUP && negb (has (revents_ c) EPOLLIN)) (call_if (closeCallback_ c)) ;;
  c ← channel_of ch;
  when_ (has (revents_ c) EPOLLERR) (call_if (errorCallback_ c)) ;;
  c ← channel_of ch;
  when_ (has (revents_ c) (Z.lor (Z.lor EPOLLIN EPOLLPRI) EPOLLRDHUP))
    (match readCallback_ c with Some f => call_read f receiveTime | None => mret tt end) ;;
  c ← channel_of ch;
  when_ (has (revents_ c) EPOLLOUT) (call_if (writeCallback_ c)) ;;
  mark_handling ch false.

Definition handleEvent (ch : Z) (receiveTime : Timestamp) : prog W () :=
  c ← channel_of ch;
  w ← get;
  if tied_ c then
    when_ (match tie_ c with Some obj => alive obj w | None => false end)
      (handleEventWithGuard ch receiveTime)
  else handleEventWithGuard ch receiveTime.
End handle.
End channel.
Arguments Channel F : clear implicits.

(** ** Masks *)

Lemma has_zero b : has 0 b = false.
Proof. done. Qed.

(** A mask is within the bits that can be requested. *)
Definition requestable (ev : Z) : Prop := ev ∈ [0; 3; 4; 7].

Lemma enableReading_spec ev : requestable ev →
  requestable (enableReading_mask ev) ∧ has (enableReading_mask ev) kReadEvent = true ∧
  has (enableReading_mask ev) kWriteEvent = has ev kWriteEvent.
Proof.
  unfold requestable. rewrite !elem_of_cons, elem_of_nil.
  intros [->|[->|[->|[->|[]]]]]; (split; [|split]); vm_compute; try tauto.
Qed.
Lemma disableReading_spec ev : requestable ev →
  requestable (disableReading_mask ev) ∧ has (disableReading_mask ev) kReadEvent = false ∧
  has (disableReading_mask ev) kWriteEvent = has ev kWriteEvent.
Proof.
  unfold requestable. rewrite !elem_of_cons, elem_of_nil.
  intros [->|[->|[->|[->|[]]]]]; (split; [|split]); vm_compute; try tauto.
Qed.
Lemma enableWriting_spec ev : requestable ev →
  requestable (enableWriting_mask ev) ∧ has (enableWriting_mask ev) kWriteEvent = true ∧
  has (enableWriting_mask ev) kReadEvent = has ev kReadEvent.
Proof.
  unfold requestable. rewrite !elem_of_cons, elem_of_nil.
  intros [->|[->|[->|[->|[]]]]]; (split; [|split]); vm_compute; try tauto.
Qed.
Lemma disableWriting_spec ev : requestable ev →
  requestable (disableWriting_mask ev) ∧ has (disableWriting_mask ev) kWriteEvent = false ∧
  has (disableWriting_mask ev) kReadEvent = has ev kReadEvent.
Proof.
  unfold requestable. rewrite !elem_of_cons, elem_of_nil.
  intros [->|[->|[->|[->|[]]]]]; (split; [|split]); vm_compute; try tauto.
Qed.

(** ** Properties *)

Section dispatch.
Context {F : Type}.

(** A world that only records which callbacks were called. *)
Definition recorder : Type := Channel F * list F.
Definition record_call (f : F) : prog recorder () := modify (λ w, (w.1, w.2 ++ [f])).

Definition run_handleEvent (locked : bool) (receiveTime : Timestamp) : prog recorder () :=
  handleEvent (λ _ _, locked) (λ _, gets fst)
    (λ _ b, modify (λ w, (set_eventHandling b w.1, w.2)))
    record_call (λ f _, record_call f) 0 receiveTime.

Definition opt_list (b : bool) (f : option F) : list F :=
  if b then match f with Some f => [f] | None => [] end else [].

(** What the ready events call for, in order. *)
Definition dispatched (c : Channel F) : list F :=
  let r := revents_ c in
  opt_list (has r EPOLLHUP && negb (has r EPOLLIN)) (closeCallback_ c) ++
  opt_list (has r EPOLLERR) (errorCallback_ c) ++
  opt_list (has r EPOLLIN || has r EPOLLPRI || has r EPOLLRDHUP) (readCallback_ c) ++
  opt_list (has r EPOLLOUT) (writeCallback_ c).

Lemma has_lor r a b : has r (Z.lor a b) = has r a || has r b.
Proof.
  unfold has. rewrite Z.land_lor_distr_r.
  destruct (Z.eqb_spec (Z.land r a) 0) as [->|Ha]; [by rewrite Z.lor_0_l|].
  destruct (Z.eqb_spec (Z.lor (Z.land r a) (Z.land r b)) 0) as [E|]; [|done].
  by apply Z.lor_eq_0_iff in E as [? _].
Qed.

Lemma when_record b f w :
  when_ b (call_if record_call f) w = Ok (tt, (w.1, w.2 ++ opt_list b f)).
Proof. destruct w, b, f; simpl; by rewrite ?app_nil_r. Qed.

(** Which callbacks an event calls.  For every combination of reported events, a tied channel
    whose object is gone calls nothing; otherwise exactly the set callbacks of these conditions are
    called, in this order: close on a hang-up without input, error on an error, read on input,
    priority input or a peer's half-close, write on output. *)
Theorem handleEvent_dispatch c locked receiveTime trace :
  eventHandling_ c = false →
  run_handleEvent locked receiveTime (c, trace) =
    Ok (tt, (c, trace ++ if tied_ c && negb (locked && bool_decide (tie_ c ≠ None)) then []
                         else dispatched c)).
Proof.
  intros Hh. assert (Hc : set_eventHandling false (set_eventHandling true c) = c).
  { destruct c. simpl in *. by rewrite Hh. }
  assert (Hguard : handleEventWithGuard (λ _, gets fst)
    (λ _ b, modify (λ w, (set_eventHandling b w.1, w.2))) record_call (λ f _, record_call f)
    0 receiveTime (c, trace) = Ok (tt, (c, trace ++ dispatched c))).
  { unfold handleEventWithGuard.
    erewrite bind_ok by reflexivity. erewrite bind_ok by reflexivity.
    erewrite bind_ok by apply when_record. erewrite bind_ok by reflexivity.
    erewrite bind_ok by apply when_record. erewrite bind_ok by reflexivity.
    erewrite bind_ok by apply when_record. erewrite bind_ok by reflexivity.
    erewrite bind_ok by apply when_record. unfold modify. cbn [fst snd].
    rewrite Hc, !has_lor. unfold dispatched. by rewrite <- !app_assoc. }
  unfold run_handleEvent, handleEvent. erewrite bind_ok by reflexivity. erewrite bind_ok by reflexivity.
  cbn [fst]. destruct (tied_ c) eqn:Ht; [|exact Hguard].
  destruct (tie_ c) as [obj|]; cbn [andb negb].
  - rewrite bool_decide_eq_true_2, andb_true_r by done. destruct locked; cbn [negb when_]; [exact Hguard|].
    by rewrite app_nil_r.
  - rewrite bool_decide_eq_false_2, andb_false_r by (intros Hn; by apply Hn). cbn [negb when_].
    by rewrite app_nil_r.
Qed.
End dispatch.

Lemma handleEvent_dispatch_witness :
  run_handleEvent true 0 (mkChannel 7 3 17 1 true (Some 5) true false true (Some 1%nat) None (Some 2%nat) None, []) =
    Ok (tt, (mkChannel 7 3 17 1 true (Some 5) true false true (Some 1%nat) None (Some 2%nat) None,
             [] ++ [1%nat])).
Proof.
  apply (handleEvent_dispatch (mkChannel 7 3 17 1 true (Some 5) true false true (Some 1%nat) None (Some 2%nat) None)
           true 0 []). reflexivity.
Defined.
