(* ===== verification/EPollPoller.v ===== *)
(** * EPollPoller: [net::Poller], [net::EPollPoller] (net/poller)

    The poller keeps the channels it knows ([channels_], by descriptor) and tells
    the kernel which events to watch.  The kernel's side is an interface ([Epoll]):
    its state, what it watches, and the documented effect of [epoll_ctl].  The
    invariant [poller_wf] is the refinement: the kernel watches exactly the channels
    that are registered as added, each for its current events. *)
From S2P Require Import Prelude Timestamp Channel.

(** ** The kernel *)

Inductive epoll_op : Type := EPOLL_CTL_ADD | EPOLL_CTL_DEL | EPOLL_CTL_MOD.

Class Epoll : Type := {
  epoll : Type;
  epoll_create1 : epoll;
  interest : epoll → gmap Z (Z * Z);    (** descriptor to [data.ptr] and [events] *)
  can_watch : Z → Prop;                 (** open, and of a kind that can be watched *)
  epoll_ctl : epoll_op → Z → Z → Z → epoll → Z * epoll;
  epoll_create1_spec : interest epoll_create1 = ∅;
  epoll_ctl_add fd ch ev e : can_watch fd → interest e !! fd = None →
    (epoll_ctl EPOLL_CTL_ADD fd ch ev e).1 = 0 ∧
    interest (epoll_ctl EPOLL_CTL_ADD fd ch ev e).2 = <[fd := (ch, ev)]> (interest e);
  epoll_ctl_mod fd ch ev e x : interest e !! fd = Some x →
    (epoll_ctl EPOLL_CTL_MOD fd ch ev e).1 = 0 ∧
    interest (epoll_ctl EPOLL_CTL_MOD fd ch ev e).2 = <[fd := (ch, ev)]> (interest e);
  epoll_ctl_del fd ch ev e x : interest e !! fd = Some x →
    (epoll_ctl EPOLL_CTL_DEL fd ch ev e).1 = 0 ∧
    interest (epoll_ctl EPOLL_CTL_DEL fd ch ev e).2 = delete fd (interest e)
}.

(** [operationToString]. *)
Definition operationToString (op : epoll_op) : list byte :=
  match op with
  | EPOLL_CTL_ADD => txt "ADD"
  | EPOLL_CTL_DEL => txt "DEL"
  | EPOLL_CTL_MOD => txt "MOD"
  end.

(** ** State *)

Definition kInitEventListSize : Z := 16.

Section poller.
Context {F : Type} `{Epoll}.

(** The poller and the channel objects of its loop, by address. *)
Record EPollPoller : Type := mkPoller {
  heap_ : gmap Z (Channel F);
  channels_ : gmap Z Z;
  epollfd_ : epoll;
  eventsSize_ : Z        (** [events_.size()] *)
}.

Definition EPollPoller_init (heap : gmap Z (Channel F)) : EPollPoller :=
  mkPoller heap ∅ epoll_create1 kInitEventListSize.

Definition set_heap h p := mkPoller h (channels_ p) (epollfd_ p) (eventsSize_ p).
Definition set_channels m p := mkPoller (heap_ p) m (epollfd_ p) (eventsSize_ p).
Definition set_epoll e p := mkPoller (heap_ p) (channels_ p) e (eventsSize_ p).
Definition set_eventsSize n p := mkPoller (heap_ p) (channels_ p) (epollfd_ p) n.

(** [*channel]; a dangling pointer is undefined behaviour. *)
Definition channel_at (ch : Z) : prog EPollPoller (Channel F) :=
  p ← get;
  match heap_ p !! ch with Some c => mret c | None => raise UndefinedBehaviour end.

Definition modify_channel (ch : Z) (f : Channel F → Channel F) : prog EPollPoller () :=
  c ← channel_at ch;
  modify (λ p, set_heap (<[ch := f c]> (heap_ p)) p).

(** [update(operation, channel)]; a failure is only logged. *)
Definition update (op : epoll_op) (ch : Z) : prog EPollPoller () :=
  c ← channel_at ch;
  p ← get;
  put (set_epoll (epoll_ctl op (fd_ c) ch (events_ c) (epollfd_ p)).2 p).

Definition updateChannel (ch : Z) : prog EPollPoller () :=
  c ← channel_at ch;
  if (index_ c =? kNew) || (index_ c =? kDeleted) then
    p ← get;
    (if index_ c =? kNew then
       assert! (bool_decide (channels_ p !! fd_ c = None)) ;;
       modify (λ p, set_channels (<[fd_ c := ch]> (channels_ p)) p)
     else
       assert! (bool_decide (channels_ p !! fd_ c ≠ None)) ;;
       assert! (bool_decide (channels_ p !! fd_ c = Some ch))) ;;
    update EPOLL_CTL_ADD ch ;;
    modify_channel ch (set_index kAdded)
  else if isNoneEvent c then
    update EPOLL_CTL_DEL ch ;;
    modify_channel ch (set_index kDeleted)
  else update EPOLL_CTL_MOD ch.

Definition removeChannel (ch : Z) : prog EPollPoller () :=
  c ← channel_at ch;
  p ← get;
  assert! (bool_decide (channels_ p !! fd_ c ≠ None)) ;;
  assert! (bool_decide (channels_ p !! fd_ c = Some ch)) ;;
  when_ (index_ c =? kAdded) (update EPOLL_CTL_DEL ch) ;;
  modify (λ p, set_channels (delete (fd_ c) (channels_ p)) p) ;;
  modify_channel ch (set_index kNew).

Definition hasChannel (ch : Z) : prog EPollPoller bool :=
  c ← channel_at ch;
  p ← get;
  mret (bool_decide (channels_ p !! fd_ c = Some ch)).

(** The active channels are those of the reported [data.ptr]s, in order. *)
Fixpoint fillActiveChannels (events : list (Z * Z)) : prog EPollPoller (list Z) :=
  match events with
  | [] => mret []
  | (ch, revents) :: events' =>
      modify_channel ch (set_revents revents) ;;
      active ← fillActiveChannels events';
      mret (ch :: active)
  end.

(** [poll], given what [epoll_wait] stored; [None] is a failure, which is logged. *)
Definition poll (answer : option (list (Z * Z))) : prog EPollPoller (list Z) :=
  match answer with
  | None => mret []
  | Some [] => mret []
  | Some events =>
      active ← fillActiveChannels events;
      modify (λ p, if zlen events =? eventsSize_ p then set_eventsSize (eventsSize_ p * 2) p else p) ;;
      mret active
  end.

(** ** Invariant *)

(** The bookkeeping agrees with the kernel's. *)
Record poller_wf (p : EPollPoller) : Prop := {
  wf_channel fd ch : channels_ p !! fd = Some ch →
    ∃ c, heap_ p !! ch = Some c ∧ fd_ c = fd ∧ (index_ c = kAdded ∨ index_ c = kDeleted);
  wf_index ch c : heap_ p !! ch = Some c →
    index_ c = kNew ∨
    ((index_ c = kAdded ∨ index_ c = kDeleted) ∧ channels_ p !! fd_ c = Some ch);
  wf_interest fd ch ev : interest (epollfd_ p) !! fd = Some (ch, ev) ↔
    ∃ c, heap_ p !! ch = Some c ∧ fd_ c = fd ∧ index_ c = kAdded ∧ events_ c = ev;
  wf_deleted ch c : heap_ p !! ch = Some c → index_ c = kDeleted → events_ c = kNoneEvent;
  wf_fd ch c : heap_ p !! ch = Some c → can_watch (fd_ c)
}.

Lemma poller_wf_init heap :
  (∀ ch c, heap !! ch = Some c → index_ c = kNew ∧ can_watch (fd_ c)) → poller_wf (EPollPoller_init heap).
Proof.
  intros Hh. constructor; simpl.
  - by intros fd ch ?%lookup_empty_Some.
  - intros ch c Hc. left. by eapply Hh.
  - intros fd ch ev. rewrite epoll_create1_spec, lookup_empty. split; [done|].
    intros (c & Hc & _ & Hi & _). apply Hh in Hc as [Hn _]. rewrite Hn in Hi. done.
  - intros ch c Hc Hi. apply Hh in Hc as [Hn _]. rewrite Hn in Hi. done.
  - intros ch c Hc. by eapply Hh.
Qed.

Lemma kNew_kAdded : kNew ≠ kAdded. Proof. done. Qed.
Lemma kNew_kDeleted : kNew ≠ kDeleted. Proof. done. Qed.
Lemma kAdded_kDeleted : kAdded ≠ kDeleted. Proof. done. Qed.

(** The registration state after [updateChannel] with the events [ev]. *)
Definition next_index (i ev : Z) : Z :=
  if (i =? kNew) || (i =? kDeleted) then kAdded
  else if ev =? kNoneEvent then kDeleted else kAdded.

(** The state in which a channel has just got a new mask. *)
Definition with_events (ch : Z) (c : Channel F) (ev : Z) (p : EPollPoller) : EPollPoller :=
  set_heap (<[ch := set_events ev c]> (heap_ p)) p.

(** The registered state of a channel: the channel with the events and index it ends in. *)
Definition registered (c : Channel F) (ev : Z) : Channel F :=
  set_index (next_index (index_ c) ev) (set_events ev c).

Context {E : fault → Prop}.

Lemma channel_at_spec ch c (Q : Channel F → EPollPoller → Prop) p :
  heap_ p !! ch = Some c → Q c p → wpf E (channel_at ch) Q p.
Proof. intros Hc HQ. unfold channel_at. wp_go. by rewrite Hc. Qed.

Lemma modify_channel_spec ch c f (Q : () → EPollPoller → Prop) p :
  heap_ p !! ch = Some c → Q tt (set_heap (<[ch := f c]> (heap_ p)) p) → wpf E (modify_channel ch f) Q p.
Proof. intros Hc HQ. unfold modify_channel. wp_go. eapply channel_at_spec; [done|]. by wp_go. Qed.

Lemma update_spec op ch c (Q : () → EPollPoller → Prop) p :
  heap_ p !! ch = Some c →
  Q tt (set_epoll (epoll_ctl op (fd_ c) ch (events_ c) (epollfd_ p)).2 p) → wpf E (update op ch) Q p.
Proof. intros Hc HQ. unfold update. wp_go. eapply channel_at_spec; [done|]. by wp_go. Qed.

(** What an update of one channel leaves: the other channels, and what is watched. *)
Record updated (ch : Z) (c : Channel F) (ev : Z) (p p' : EPollPoller) : Prop := {
  updated_wf : poller_wf p';
  updated_heap : heap_ p' = <[ch := registered c ev]> (heap_ p);
  updated_size : eventsSize_ p' = eventsSize_ p;
  updated_channels : channels_ p' = <[fd_ c := ch]> (channels_ p);
  updated_interest : interest (epollfd_ p') =
    if next_index (index_ c) ev =? kDeleted then delete (fd_ c) (interest (epollfd_ p))
    else <[fd_ c := (ch, ev)]> (interest (epollfd_ p))
}.

(** The common part of the three branches. *)
Lemma updated_intro ch c ev p p' :
  poller_wf p → heap_ p !! ch = Some c →
  (index_ c = kNew → channels_ p !! fd_ c = None) →
  (index_ c = kNew ∨ index_ c = kDeleted ∨ index_ c = kAdded) →
  heap_ p' = <[ch := registered c ev]> (heap_ p) →
  eventsSize_ p' = eventsSize_ p →
  channels_ p' = <[fd_ c := ch]> (channels_ p) →
  interest (epollfd_ p') =
    (if next_index (index_ c) ev =? kDeleted then delete (fd_ c) (interest (epollfd_ p))
     else <[fd_ c := (ch, ev)]> (interest (epollfd_ p))) →
  updated ch c ev p p'.
Proof.
  intros Hp Hc Hnew Hidx Hheap Hsize Hchan Hint. pose proof Hp as [W1 W2 W3 W4 W5].
  assert (Hother : ∀ ch' c', heap_ p !! ch' = Some c' → index_ c' ≠ kNew → fd_ c' = fd_ c → ch' = ch).
  { intros ch' c' Hc' Hi Hfd. destruct (W2 ch' c' Hc') as [?|[_ Hin]]; [done|]. rewrite Hfd in Hin.
    destruct (W2 ch c Hc) as [Hn|[_ Hin']]; [rewrite Hnew in Hin by done; done|congruence]. }
  assert (Hni : next_index (index_ c) ev = kAdded ∨ next_index (index_ c) ev = kDeleted ∧ ev = kNoneEvent).
  { unfold next_index. destruct (_ || _); [by left|]. destruct (Z.eqb_spec ev kNoneEvent); [by right|by left]. }
  constructor; [|done..]. constructor.
  - intros fd ch'. rewrite Hchan, Hheap. intros [[<- <-]|[Hne Hin]]%lookup_insert_Some.
    + exists (registered c ev). rewrite lookup_insert_eq. split_and!; [done|done|]. simpl. tauto.
    + destruct (W1 fd ch' Hin) as (c' & Hc' & Hfd & Hi). exists c'.
      rewrite lookup_insert_ne; [done|]. intros <-. congruence.
  - intros ch' c'. rewrite Hchan, Hheap. intros [[<- <-]|[Hne Hin]]%lookup_insert_Some.
    + right. simpl. rewrite lookup_insert_eq. split; [tauto|done].
    + destruct (W2 ch' c' Hin) as [?|[Hi Hin']]; [by left|]. right. split; [done|].
      rewrite lookup_insert_ne; [done|]. intros Hfd. apply Hne. symmetry.
      apply (Hother ch' c'); [done| |done]. destruct Hi as [->| ->]; done.
  - intros fd ch' ev'. rewrite Hint, Hheap. destruct (Z.eqb_spec (next_index (index_ c) ev) kDeleted) as [Hd|Hd].
    + rewrite lookup_delete_Some, W3. split.
      * intros (Hne & c' & Hc' & Hfd & Hi & Hev). exists c'. rewrite lookup_insert_ne; [done|].
        intros <-. congruence.
      * intros (c' & [[<- <-]|[Hne Hc']]%lookup_insert_Some & Hfd & Hi & Hev).
        { simpl in Hi. rewrite Hd in Hi. done. }
        split; [|by exists c']. intros <-. apply Hne. symmetry. apply (Hother ch' c'); [done| |done].
        by rewrite Hi.
    + assert (Ha : next_index (index_ c) ev = kAdded) by tauto. rewrite lookup_insert_Some, W3. split.
      * intros [[<- [= <- <-]]|(Hne & c' & Hc' & Hfd & Hi & Hev)].
        { exists (registered c ev). rewrite lookup_insert_eq. done. }
        exists c'. rewrite lookup_insert_ne; [done|]. intros <-. congruence.
      * intros (c' & [[<- <-]|[Hne Hc']]%lookup_insert_Some & Hfd & Hi & Hev).
        { left. simpl in *. by subst. }
        right. split; [|by exists c']. intros <-. apply Hne. symmetry.
        apply (Hother ch' c'); [done| |done]. by rewrite Hi.
  - intros ch' c'. rewrite Hheap. intros [[<- <-]|[Hne Hc']]%lookup_insert_Some; [|by eapply W4].
    simpl. intros Hi. destruct Hni as [Ha|[_ ?]]; [|done]. rewrite Ha in Hi. done.
  - intros ch' c'. rewrite Hheap. intros [[<- <-]|[Hne Hc']]%lookup_insert_Some; [|by eapply W5].
    exact (W5 ch c Hc).
Qed.

(** [updateChannel] on a channel that has just got the mask [ev]: no assertion fails and the
    kernel watches the channel for [ev], or no longer when an added channel wants nothing. *)
Lemma updateChannel_spec ch c ev p :
  poller_wf p → heap_ p !! ch = Some c → (index_ c = kNew → channels_ p !! fd_ c = None) →
  wpf E (updateChannel ch) (λ _ p', updated ch c ev p p') (with_events ch c ev p).
Proof.
  intros Hp Hc Hnew. pose proof Hp as [W1 W2 W3 W4 W5].
  assert (Hc' : heap_ (with_events ch c ev p) !! ch = Some (set_events ev c)) by apply lookup_insert_eq.
  assert (Hnone : index_ c = kNew ∨ index_ c = kDeleted → interest (epollfd_ p) !! fd_ c = None).
  { intros Hi. destruct (interest (epollfd_ p) !! fd_ c) as [[ch' ev']|] eqn:Hin; [exfalso|done].
    apply W3 in Hin as (c' & Hc2 & Hfd & Ha & _). destruct (W2 ch' c' Hc2) as [Hn|[_ Hin]].
    { rewrite Ha in Hn. done. }
    rewrite Hfd in Hin. destruct Hi as [Hi|Hi]; [rewrite Hnew in Hin by done; done|].
    destruct (W2 ch c Hc) as [Hn|[_ Hin']]; [rewrite Hi in Hn; done|]. assert (ch' = ch) by congruence.
    subst ch'. rewrite Hc in Hc2. injection Hc2 as ->. rewrite Hi in Ha. done. }
  unfold updateChannel. wp_go. eapply channel_at_spec; [exact Hc'|]. cbn [set_events index_ fd_].
  destruct (Z.eqb_spec (index_ c) kNew) as [Hi|Hi]; simpl.
  - wp_go. cbn [with_events set_heap channels_]. apply wp_assert; [by apply bool_decide_eq_true_2, Hnew|].
    wp_go. eapply update_spec; [exact Hc'|]. eapply modify_channel_spec; [exact Hc'|].
    destruct (epoll_ctl_add (fd_ c) ch ev (epollfd_ p)) as [_ Hctl]; [by eapply W5|by apply Hnone; left|].
    assert (Hni : next_index (index_ c) ev = kAdded) by (unfold next_index; by rewrite Hi).
    apply updated_intro; try done; [by left|..]; cbn.
    + rewrite insert_insert_eq. unfold registered. by rewrite Hni.
    + rewrite Hni. exact Hctl.
  - destruct (Z.eqb_spec (index_ c) kDeleted) as [Hd|Hd]; simpl.
    + wp_go. cbn [with_events set_heap channels_].
      destruct (W2 ch c Hc) as [?|[_ Hin]]; [done|].
      apply wp_assert; [apply bool_decide_eq_true_2; by rewrite Hin|]. wp_go.
      apply wp_assert; [by apply bool_decide_eq_true_2|]. wp_go.
      eapply update_spec; [exact Hc'|]. eapply modify_channel_spec; [exact Hc'|].
      destruct (epoll_ctl_add (fd_ c) ch ev (epollfd_ p)) as [_ Hctl]; [by eapply W5|by apply Hnone; right|].
      assert (Hni : next_index (index_ c) ev = kAdded) by (unfold next_index; by rewrite Hd).
      apply updated_intro; try done; [by right; left|..]; cbn.
      * rewrite insert_insert_eq. unfold registered. by rewrite Hni.
      * by rewrite insert_id.
      * rewrite Hni. exact Hctl.
    + destruct (W2 ch c Hc) as [?|[[Ha|?] Hin]]; [done| |done].
      assert (Hold : interest (epollfd_ p) !! fd_ c = Some (ch, events_ c)).
      { apply W3. by exists c. }
      change (isNoneEvent (set_events ev c)) with (ev =? kNoneEvent).
      destruct (Z.eqb_spec ev kNoneEvent) as [Hev|Hev].
      * wp_go. eapply update_spec; [exact Hc'|]. eapply modify_channel_spec; [exact Hc'|].
        destruct (epoll_ctl_del (fd_ c) ch ev (epollfd_ p) _ Hold) as [_ Hctl].
        assert (Hni : next_index (index_ c) ev = kDeleted) by (unfold next_index; by rewrite Ha, Hev).
        apply updated_intro; try done; [by right; right|..]; cbn.
        -- rewrite insert_insert_eq. unfold registered. by rewrite Hni.
        -- by rewrite insert_id.
        -- rewrite Hni. exact Hctl.
      * eapply update_spec; [exact Hc'|].
        destruct (epoll_ctl_mod (fd_ c) ch ev (epollfd_ p) _ Hold) as [_ Hctl].
        assert (Hni : next_index (index_ c) ev = kAdded).
        { unfold next_index. rewrite Ha. simpl. by rewrite (proj2 (Z.eqb_neq _ _) Hev). }
        apply updated_intro; try done; [by right; right|..]; cbn.
        -- unfold registered. rewrite Hni. destruct c. simpl in *. by subst.
        -- by rewrite insert_id.
        -- rewrite Hni. exact Hctl.
Qed.

Lemma removeChannel_spec ch c p :
  poller_wf p → heap_ p !! ch = Some c → index_ c ≠ kNew →
  wpf E (removeChannel ch)
    (λ _ p', poller_wf p' ∧ heap_ p' = <[ch := set_index kNew c]> (heap_ p) ∧
       eventsSize_ p' = eventsSize_ p ∧ channels_ p' = delete (fd_ c) (channels_ p) ∧
       interest (epollfd_ p') = delete (fd_ c) (interest (epollfd_ p))) p.
Proof.
  intros Hp Hc Hi. pose proof Hp as [W1 W2 W3 W4 W5].
  destruct (W2 ch c Hc) as [?|[Hidx Hin]]; [done|].
  assert (Hown : ∀ ch' c', heap_ p !! ch' = Some c' → index_ c' ≠ kNew → fd_ c' = fd_ c → ch' = ch).
  { intros ch' c' Hc' Hi' Hfd. destruct (W2 ch' c' Hc') as [?|[_ Hin']]; [done|]. congruence. }
  assert (Hgoal : ∀ e', interest e' = delete (fd_ c) (interest (epollfd_ p)) →
    poller_wf (set_heap (<[ch := set_index kNew c]> (heap_ p))
      (set_channels (delete (fd_ c) (channels_ p)) (set_epoll e' p)))).
  { intros e' He'. constructor; simpl.
    - intros fd ch' [Hne Hin']%lookup_delete_Some. destruct (W1 fd ch' Hin') as (c' & Hc' & Hfd & Hi').
      exists c'. rewrite lookup_insert_ne; [done|]. intros <-. congruence.
    - intros ch' c' [[<- <-]|[Hne Hc']]%lookup_insert_Some; [by left|].
      destruct (W2 ch' c' Hc') as [?|[Hi' Hin']]; [by left|]. right. split; [done|].
      rewrite lookup_delete_ne; [done|]. intros Hfd. apply Hne. symmetry. apply (Hown ch' c'); [done| |done].
      destruct Hi' as [->| ->]; done.
    - intros fd ch' ev. rewrite He', lookup_delete_Some, W3. split.
      + intros (Hne & c' & Hc' & Hfd & Ha & Hev). exists c'. rewrite lookup_insert_ne; [done|].
        intros <-. congruence.
      + intros (c' & [[<- <-]|[Hne Hc']]%lookup_insert_Some & Hfd & Ha & Hev); [done|].
        split; [|by exists c']. intros <-. apply Hne. symmetry. apply (Hown ch' c'); [done| |done]. by rewrite Ha.
    - intros ch' c' [[<- <-]|[Hne Hc']]%lookup_insert_Some; [done|by eapply W4].
    - intros ch' c' [[<- <-]|[Hne Hc']]%lookup_insert_Some; [exact (W5 ch c Hc)|by eapply W5]. }
  unfold removeChannel. wp_go. eapply channel_at_spec; [done|]. wp_go.
  apply wp_assert; [apply bool_decide_eq_true_2; by rewrite Hin|]. wp_go.
  apply wp_assert; [by apply bool_decide_eq_true_2|]. wp_go.
  destruct (Z.eqb_spec (index_ c) kAdded) as [Ha|Ha].
  - assert (Hold : interest (epollfd_ p) !! fd_ c = Some (ch, events_ c)) by (apply W3; by exists c).
    destruct (epoll_ctl_del (fd_ c) ch (events_ c) (epollfd_ p) _ Hold) as [_ Hctl].
    eapply update_spec; [done|]. wp_go. eapply modify_channel_spec; [done|].
    split_and!; [by apply Hgoal|done..].
  - wp_go. eapply modify_channel_spec; [done|].
    assert (Hnone : interest (epollfd_ p) = delete (fd_ c) (interest (epollfd_ p))).
    { symmetry. apply delete_id. destruct (interest (epollfd_ p) !! fd_ c) as [[ch' ev']|] eqn:Hx; [exfalso|done].
      apply W3 in Hx as (c' & Hc' & Hfd & Ha' & _). assert (ch' = ch) by (eapply Hown; [done|by rewrite Ha'|done]).
      subst ch'. congruence. }
    split_and!; [by apply (Hgoal (epollfd_ p))|done..].
Qed.
End poller.
Arguments EPollPoller F {_}.

Section poller_more.
Context {F : Type} `{Epoll}.

(** Changes of a channel that the poller does not look at. *)
Lemma poller_wf_touch (p : EPollPoller F) ch c c' :
  poller_wf p → heap_ p !! ch = Some c →
  fd_ c' = fd_ c → index_ c' = index_ c → events_ c' = events_ c →
  poller_wf (set_heap (<[ch := c']> (heap_ p)) p).
Proof.
  intros [W1 W2 W3 W4 W5] Hc Hfd Hi Hev.
  assert (Hsame : ∀ ch' x, <[ch := c']> (heap_ p) !! ch' = Some x →
    ∃ y, heap_ p !! ch' = Some y ∧ fd_ x = fd_ y ∧ index_ x = index_ y ∧ events_ x = events_ y).
  { intros ch' x [[<- <-]|[_ Hx]]%lookup_insert_Some; [by exists c|by exists x]. }
  assert (Hback : ∀ ch' y, heap_ p !! ch' = Some y → ∃ x, <[ch := c']> (heap_ p) !! ch' = Some x ∧
    fd_ x = fd_ y ∧ index_ x = index_ y ∧ events_ x = events_ y).
  { intros ch' y Hy. destruct (decide (ch = ch')) as [<-|Hne].
    - exists c'. rewrite lookup_insert_eq. split; [done|]. by simplify_eq.
    - exists y. by rewrite lookup_insert_ne. }
  constructor; simpl.
  - intros fd ch' Hin. destruct (W1 fd ch' Hin) as (y & Hy & <- & Hiy).
    destruct (Hback _ _ Hy) as (x & Hx & Hfx & Hix & _). exists x. by rewrite Hfx, Hix.
  - intros ch' x Hx. destruct (Hsame _ _ Hx) as (y & Hy & -> & -> & _). by apply W2.
  - intros fd ch' ev. rewrite W3. split.
    + intros (y & Hy & <- & Hiy & <-). destruct (Hback _ _ Hy) as (x & Hx & Hfx & Hix & Hex). exists x.
      by rewrite Hfx, Hix, Hex.
    + intros (x & Hx & Hfx & Hix & Hex). destruct (Hsame _ _ Hx) as (y & Hy & Hfy & Hiy & Hey). exists y.
      by rewrite <- Hfy, <- Hiy, <- Hey.
  - intros ch' x Hx. destruct (Hsame _ _ Hx) as (y & Hy & _ & -> & ->). exact (W4 _ _ Hy).
  - intros ch' x Hx. destruct (Hsame _ _ Hx) as (y & Hy & -> & _). exact (W5 _ _ Hy).
Qed.

(** What the kernel may report: channels it watches, for events asked for, errors and hang-ups. *)
Definition answer_ok (p : EPollPoller F) (events : list (Z * Z)) : Prop :=
  ∀ ch revents, (ch, revents) ∈ events → ∃ fd ev, interest (epollfd_ p) !! fd = Some (ch, ev).

(** Every reported channel is alive and registered, and gets what was reported for it. *)
Lemma fillActiveChannels_spec {E} events (p : EPollPoller F) :
  poller_wf p → answer_ok p events →
  wpf E (fillActiveChannels events)
    (λ active p', active = events.*1 ∧ poller_wf p' ∧ channels_ p' = channels_ p ∧
       epollfd_ p' = epollfd_ p ∧ eventsSize_ p' = eventsSize_ p ∧
       (∀ ch c', heap_ p' !! ch = Some c' → ∃ c, heap_ p !! ch = Some c ∧ ∃ r, c' = set_revents r c) ∧
       (∀ ch c, heap_ p !! ch = Some c → ∃ r, heap_ p' !! ch = Some (set_revents r c))) p.
Proof.
  induction events as [|[ch revents] events IH] in p |- *; intros Hp Hok; cbn [fillActiveChannels].
  - wp_go. split_and!; try done.
    + intros ch c Hc. exists c. split; [done|]. exists (revents_ c). by destruct c.
    + intros ch c Hc. exists (revents_ c). by destruct c.
  - destruct (Hok ch revents) as (fd & ev & Hint); [by left|].
    apply (wf_interest _ Hp) in Hint as (c & Hc & _).
    wp_go. eapply modify_channel_spec; [done|]. wp_go. eapply wp_mono; [apply IH|].
    { by eapply poller_wf_touch. }
    { intros ch' r' Hin. apply (Hok ch' r'). by right. }
    cbv beta. intros active p' (-> & Hwf & Hch & Hep & Hsz & Hback & Hfwd). wp_go. cbn in *.
    split_and!; try done.
    + intros ch' c' Hc'. destruct (Hback _ _ Hc') as (c0 & Hc0 & r & ->).
      apply lookup_insert_Some in Hc0 as [[<- <-]|[Hne Hc0]]; [|by eauto].
      exists c. split; [done|]. by exists r.
    + intros ch' c0 Hc0. destruct (decide (ch = ch')) as [<-|Hne].
      * rewrite Hc in Hc0. injection Hc0 as <-. apply (Hfwd ch (set_revents revents c)). apply lookup_insert_eq.
      * apply Hfwd. by rewrite lookup_insert_ne.
Qed.

(** What was reported for a channel, when it was reported once. *)
Lemma fillActiveChannels_other events ch (p : EPollPoller F) :
  ch ∉ events.*1 → wpf (λ _, True) (fillActiveChannels events) (λ _ p', heap_ p' !! ch = heap_ p !! ch) p.
Proof.
  induction events as [|[ch' r] events IH] in p |- *; rewrite ?fmap_cons, ?not_elem_of_cons; cbn [fillActiveChannels fst];
    [by wp_go|]. intros [Hne Hn]. unfold modify_channel, channel_at. wp_go. destruct (heap_ p !! ch') as [c|]; [|done]. wp_go.
  eapply wp_mono; [by apply IH|]. cbv beta. intros active p' Hp'. wp_go. rewrite Hp'. cbn. by apply lookup_insert_ne.
Qed.

Lemma fillActiveChannels_reported events ch r c (p : EPollPoller F) :
  NoDup events.*1 → (ch, r) ∈ events → heap_ p !! ch = Some c →
  wpf (λ _, True) (fillActiveChannels events) (λ _ p', heap_ p' !! ch = Some (set_revents r c)) p.
Proof.
  induction events as [|[ch' r'] events IH] in p |- *; rewrite ?fmap_cons, ?elem_of_cons; cbn [fillActiveChannels fst];
    [by intros _ ?%elem_of_nil|]. intros [Hn Hnd]%list.NoDup_cons Hin Hc.
  unfold modify_channel, channel_at. wp_go. destruct (heap_ p !! ch') as [c'|] eqn:Hc'; [|done]. wp_go.
  destruct Hin as [[= <- <-]|Hin].
  - eapply wp_mono; [by apply fillActiveChannels_other|]. cbv beta. intros active p' Hp'. wp_go. rewrite Hp'. cbn.
    assert (c' = c) as -> by congruence. apply lookup_insert_eq.
  - eapply wp_mono; [apply IH; [done|done|]|].
    + cbn. rewrite lookup_insert_ne; [done|]. intros ->. apply Hn, list_elem_of_fmap. by exists (ch, r).
    + cbv beta. intros active p' Hp'. by wp_go.
Qed.
End poller_more.

(** ** A kernel for examples *)

#[local, refine] Instance map_epoll : Epoll := {|
  epoll := gmap Z (Z * Z);
  epoll_create1 := ∅;
  interest e := e;
  can_watch _ := True;
  epoll_ctl op fd ch ev e :=
    match op, e !! fd with
    | EPOLL_CTL_ADD, None | EPOLL_CTL_MOD, Some _ => (0, <[fd := (ch, ev)]> e)
    | EPOLL_CTL_DEL, Some _ => (0, delete fd e)
    | _, _ => (-1, e)
    end
|}.
Proof.
  - done.
  - intros fd ch ev e _ ->. done.
  - intros fd ch ev e x ->. done.
  - intros fd ch ev e x ->. done.
Defined.
