(* ===== verification/EventLoop.v ===== *)
(** * EventLoop: [net::EventLoop] (net/eventloop/EventLoop.h, EventLoop.cc) and the
    channel operations that go through it

    One loop owns its poller, its channels and a queue of functors that other threads
    fill.  Operations take the calling thread's id.  Functors and callbacks run in a
    world [W] that contains the loop (an instance of [HasLoop]), so they may call back
    into it; what they do is the argument [exec]. *)
From S2P Require Import Prelude Timestamp Channel EPollPoller.

Section eventloop.
Context {F : Type} `{Epoll}.

(** ** State *)

Record EventLoop : Type := mkEventLoop {
  looping_ : bool;
  quit_ : bool;
  eventHandling_ : bool;
  callingPendingFunctors_ : bool;
  iteration_ : Z;
  threadId_ : Z;
  pollReturnTime_ : Timestamp;
  poller_ : EPollPoller F;
  activeChannels_ : list Z;
  currentActiveChannel_ : option Z;
  pendingFunctors_ : list F;
  wakeups_ : Z    (** what was written to [wakeupFd_] and not yet read *)
}.

Definition EventLoop_init (tid : Z) (p : EPollPoller F) : EventLoop :=
  mkEventLoop false false false false 0 tid 0 p [] None [] 0.

Definition set_looping b l := mkEventLoop b (quit_ l) (eventHandling_ l) (callingPendingFunctors_ l)
  (iteration_ l) (threadId_ l) (pollReturnTime_ l) (poller_ l) (activeChannels_ l)
  (currentActiveChannel_ l) (pendingFunctors_ l) (wakeups_ l).
Definition set_quit b l := mkEventLoop (looping_ l) b (eventHandling_ l) (callingPendingFunctors_ l)
  (iteration_ l) (threadId_ l) (pollReturnTime_ l) (poller_ l) (activeChannels_ l)
  (currentActiveChannel_ l) (pendingFunctors_ l) (wakeups_ l).
Definition set_eventHandling b l := mkEventLoop (looping_ l) (quit_ l) b (callingPendingFunctors_ l)
  (iteration_ l) (threadId_ l) (pollReturnTime_ l) (poller_ l) (activeChannels_ l)
  (currentActiveChannel_ l) (pendingFunctors_ l) (wakeups_ l).
Definition set_callingPending b l := mkEventLoop (looping_ l) (quit_ l) (eventHandling_ l) b
  (iteration_ l) (threadId_ l) (pollReturnTime_ l) (poller_ l) (activeChannels_ l)
  (currentActiveChannel_ l) (pendingFunctors_ l) (wakeups_ l).
Definition set_iteration n l := mkEventLoop (looping_ l) (quit_ l) (eventHandling_ l)
  (callingPendingFunctors_ l) n (threadId_ l) (pollReturnTime_ l) (poller_ l) (activeChannels_ l)
  (currentActiveChannel_ l) (pendingFunctors_ l) (wakeups_ l).
Definition set_pollReturnTime t l := mkEventLoop (looping_ l) (quit_ l) (eventHandling_ l)
  (callingPendingFunctors_ l) (iteration_ l) (threadId_ l) t (poller_ l) (activeChannels_ l)
  (currentActiveChannel_ l) (pendingFunctors_ l) (wakeups_ l).
Definition set_poller p l := mkEventLoop (looping_ l) (quit_ l) (eventHandling_ l)
  (callingPendingFunctors_ l) (iteration_ l) (threadId_ l) (pollReturnTime_ l) p (activeChannels_ l)
  (currentActiveChannel_ l) (pendingFunctors_ l) (wakeups_ l).
Definition set_active a l := mkEventLoop (looping_ l) (quit_ l) (eventHandling_ l)
  (callingPendingFunctors_ l) (iteration_ l) (threadId_ l) (pollReturnTime_ l) (poller_ l) a
  (currentActiveChannel_ l) (pendingFunctors_ l) (wakeups_ l).
Definition set_current c l := mkEventLoop (looping_ l) (quit_ l) (eventHandling_ l)
  (callingPendingFunctors_ l) (iteration_ l) (threadId_ l) (pollReturnTime_ l) (poller_ l)
  (activeChannels_ l) c (pendingFunctors_ l) (wakeups_ l).
Definition set_pending fs l := mkEventLoop (looping_ l) (quit_ l) (eventHandling_ l)
  (callingPendingFunctors_ l) (iteration_ l) (threadId_ l) (pollReturnTime_ l) (poller_ l)
  (activeChannels_ l) (currentActiveChannel_ l) fs (wakeups_ l).
Definition set_wakeups n l := mkEventLoop (looping_ l) (quit_ l) (eventHandling_ l)
  (callingPendingFunctors_ l) (iteration_ l) (threadId_ l) (pollReturnTime_ l) (poller_ l)
  (activeChannels_ l) (currentActiveChannel_ l) (pendingFunctors_ l) n.

Definition on_poller {A} (m : prog (EPollPoller F) A) : prog EventLoop A := λ l,
  match m (poller_ l) with
  | Ok (a, p) => Ok (a, set_poller p l)
  | Fault f => Fault f
  end.

(** ** Operations of the loop itself *)

Definition isInLoopThread (tid : Z) (l : EventLoop) : bool := threadId_ l =? tid.

Definition assertInLoopThread (tid : Z) : prog EventLoop () :=
  l ← get;
  assert! (isInLoopThread tid l).

(** The assertion on the owner holds by construction: a loop's channels are those of its
    poller's heap. *)
Definition updateChannel (tid ch : Z) : prog EventLoop () :=
  assertInLoopThread tid ;;
  on_poller (EPollPoller.updateChannel ch).

Definition removeChannel (tid ch : Z) : prog EventLoop () :=
  assertInLoopThread tid ;;
  l ← get;
  when_ (eventHandling_ l)
    (assert! (bool_decide (currentActiveChannel_ l = Some ch) ||
              bool_decide (ch ∉ activeChannels_ l))) ;;
  on_poller (EPollPoller.removeChannel ch).

Definition hasChannel (tid ch : Z) : prog EventLoop bool :=
  assertInLoopThread tid ;;
  on_poller (EPollPoller.hasChannel ch).

(** [wakeup] and [handleRead]: the eventfd. *)
Definition wakeup : prog EventLoop () := modify (λ l, set_wakeups (wakeups_ l + 1) l).
Definition handleRead : prog EventLoop () := modify (set_wakeups 0).

Definition queueInLoop (tid : Z) (cb : F) : prog EventLoop () :=
  modify (λ l, set_pending (pendingFunctors_ l ++ [cb]) l) ;;
  l ← get;
  when_ (negb (isInLoopThread tid l) || callingPendingFunctors_ l) wakeup.

Definition queueSize (l : EventLoop) : Z := zlen (pendingFunctors_ l).

Definition quit (tid : Z) : prog EventLoop () :=
  modify (set_quit true) ;;
  l ← get;
  when_ (negb (isInLoopThread tid l)) wakeup.

(** ** Channel operations *)

Definition Channel_update (tid ch : Z) : prog EventLoop () :=
  on_poller (modify_channel ch (set_addedToLoop true)) ;;
  updateChannel tid ch.

Definition Channel_remove (tid ch : Z) : prog EventLoop () :=
  c ← on_poller (channel_at ch);
  assert! (isNoneEvent c) ;;
  on_poller (modify_channel ch (set_addedToLoop false)) ;;
  removeChannel tid ch.

Definition change_events (mask : Z → Z) (tid ch : Z) : prog EventLoop () :=
  on_poller (modify_channel ch (λ c, set_events (mask (events_ c)) c)) ;;
  Channel_update tid ch.

Definition enableReading (tid ch : Z) : prog EventLoop () := change_events enableReading_mask tid ch.
Definition disableReading (tid ch : Z) : prog EventLoop () := change_events disableReading_mask tid ch.
Definition enableWriting (tid ch : Z) : prog EventLoop () := change_events enableWriting_mask tid ch.
Definition disableWriting (tid ch : Z) : prog EventLoop () := change_events disableWriting_mask tid ch.
Definition disableAll (tid ch : Z) : prog EventLoop () := change_events disableAll_mask tid ch.

(** The constructor's last steps and the destructor: the channel of the eventfd, at the address
    [wakeupChannel]. *)
Definition EventLoop_ctor (tid wakeupChannel : Z) (readCallback : F) : prog EventLoop () :=
  on_poller (modify_channel wakeupChannel (setReadCallback (Some readCallback))) ;;
  enableReading tid wakeupChannel.

Definition EventLoop_dtor (tid wakeupChannel : Z) : prog EventLoop () :=
  disableAll tid wakeupChannel ;;
  Channel_remove tid wakeupChannel.

(** ** The world around the loop *)

Class HasLoop (W : Type) : Type := {
  loop_of : W → EventLoop;
  set_loop : EventLoop → W → W;
  loop_of_set l w : loop_of (set_loop l w) = l;
  set_loop_of w : set_loop (loop_of w) w = w;
  set_loop_set l l' w : set_loop l (set_loop l' w) = set_loop l w
}.

Definition on_loop {W} `{HasLoop W} {A} (m : prog EventLoop A) : prog W A := λ w,
  match m (loop_of w) with
  | Ok (a, l) => Ok (a, set_loop l w)
  | Fault f => Fault f
  end.

Section world.
Context {W : Type} `{HasLoop W}.
Context (alive : Z → W → bool) (exec : F → prog W ()) (exec_read : F → Timestamp → prog W ()).

Definition runInLoop (tid : Z) (cb : F) : prog W () :=
  w ← get;
  if isInLoopThread tid (loop_of w) then exec cb else on_loop (queueInLoop tid cb).

Definition doPendingFunctors : prog W () :=
  on_loop (modify (set_callingPending true)) ;;
  functors ← on_loop (gets pendingFunctors_);
  on_loop (modify (set_pending [])) ;;
  for_each exec functors ;;
  on_loop (modify (set_callingPending false)).

(** [currentActiveChannel_->handleEvent(pollReturnTime_)]. *)
Definition handle_active (channel : Z) : prog W () :=
  on_loop (modify (set_current (Some channel))) ;;
  w ← get;
  handleEvent alive
    (λ ch, on_loop (on_poller (channel_at ch)))
    (λ ch b, on_loop (on_poller (modify_channel ch (Channel.set_eventHandling b))))
    exec exec_read channel (pollReturnTime_ (loop_of w)).

(** What happens while an iteration waits in [poll]: functors other threads queue, a quit, and
    what the kernel reports at which time. *)
Record poll_input : Type := mkPollInput {
  arrived : list F;
  quit_requested : bool;
  answer : option (list (Z * Z));
  returned_at : Timestamp
}.

(** A thread that is not the loop's. *)
Definition arrivals (other : Z) (i : poll_input) : prog EventLoop () :=
  for_each (queueInLoop other) (arrived i) ;;
  when_ (quit_requested i) (quit other).

Definition iteration (other : Z) (i : poll_input) : prog W () :=
  on_loop (modify (set_active [])) ;;
  on_loop (arrivals other i) ;;
  active ← on_loop (on_poller (poll (answer i)));
  on_loop (modify (set_active active)) ;;
  on_loop (modify (set_pollReturnTime (returned_at i))) ;;
  l ← on_loop get;
  n ← lift (checked 64 (iteration_ l + 1));
  on_loop (modify (set_iteration n)) ;;
  on_loop (modify (set_eventHandling true)) ;;
  for_each handle_active active ;;
  on_loop (modify (set_current None)) ;;
  on_loop (modify (set_eventHandling false)) ;;
  doPendingFunctors.

(** [while (!quit_) ...]; the inputs bound the number of iterations. *)
Fixpoint iterations (other : Z) (inputs : list poll_input) : prog W () :=
  l ← on_loop get;
  if quit_ l then mret tt
  else match inputs with
       | [] => raise OutOfFuel
       | i :: inputs' => iteration other i ;; iterations other inputs'
       end.

Definition loop (tid other : Z) (inputs : list poll_input) : prog W () :=
  l ← on_loop get;
  assert! (negb (looping_ l)) ;;
  on_loop (assertInLoopThread tid) ;;
  on_loop (modify (set_looping true)) ;;
  on_loop (modify (set_quit false)) ;;
  iterations other inputs ;;
  on_loop (modify (set_looping false)).
End world.

(** ** Rules *)

Context {E : fault → Prop}.

Lemma on_poller_spec {A} (m : prog (EPollPoller F) A) (Q : A → EventLoop → Prop) l :
  wpf E m (λ a p, Q a (set_poller p l)) (poller_ l) → wpf E (on_poller m) Q l.
Proof. unfold wpf, on_poller. by destruct (m (poller_ l)) as [[]|]. Qed.

Lemma on_loop_spec {W} `{HasLoop W} {A} (m : prog EventLoop A) (Q : A → W → Prop) w :
  wpf E m (λ a l, Q a (set_loop l w)) (loop_of w) → wpf E (on_loop m) Q w.
Proof. unfold wpf, on_loop. by destruct (m (loop_of w)) as [[]|]. Qed.

Lemma assertInLoopThread_spec tid (Q : () → EventLoop → Prop) l :
  threadId_ l = tid → Q tt l → wpf E (assertInLoopThread tid) Q l.
Proof.
  intros Ht HQ. unfold assertInLoopThread, isInLoopThread. wp_go.
  apply wp_assert; [by apply Z.eqb_eq|done].
Qed.

(** A request of a channel: its new mask is what the kernel watches it for. *)
Lemma change_events_spec mask tid ch c l :
  poller_wf (poller_ l) → threadId_ l = tid → heap_ (poller_ l) !! ch = Some c →
  (index_ c = kNew → channels_ (poller_ l) !! fd_ c = None) →
  wpf E (change_events mask tid ch)
    (λ _ l', ∃ p', l' = set_poller p' l ∧ poller_wf p' ∧
       heap_ p' = <[ch := registered (set_addedToLoop true c) (mask (events_ c))]> (heap_ (poller_ l)) ∧
       channels_ p' = <[fd_ c := ch]> (channels_ (poller_ l)) ∧
       eventsSize_ p' = eventsSize_ (poller_ l)) l.
Proof.
  intros Hp Ht Hc Hnew. unfold change_events, Channel_update, updateChannel. wp_go.
  apply on_poller_spec. eapply modify_channel_spec; [done|]. wp_go.
  apply on_poller_spec. eapply modify_channel_spec; [apply lookup_insert_eq|]. wp_go.
  apply assertInLoopThread_spec; [done|]. apply on_poller_spec. simpl.
  rewrite insert_insert_eq. set (c1 := set_addedToLoop true c).
  set (p1 := set_heap (<[ch := c1]> (heap_ (poller_ l))) (poller_ l)).
  assert (Hp1 : poller_wf p1) by by eapply poller_wf_touch.
  assert (Hc1 : heap_ p1 !! ch = Some c1) by apply lookup_insert_eq.
  pose proof (updateChannel_spec (E := E) ch c1 (mask (events_ c)) p1 Hp1 Hc1 Hnew) as Hspec.
  unfold with_events in Hspec. cbn in Hspec. rewrite insert_insert_eq in Hspec.
  eapply wp_mono; [exact Hspec|]. cbv beta. intros _ p' [U1 U2 U3 U4 _].
  exists p'. split_and!; [done|done| |done|done]. rewrite U2. cbn. by rewrite insert_insert_eq.
Qed.

Lemma Channel_remove_spec tid ch c l :
  poller_wf (poller_ l) → threadId_ l = tid → heap_ (poller_ l) !! ch = Some c →
  events_ c = kNoneEvent → index_ c ≠ kNew →
  (eventHandling_ l = true → currentActiveChannel_ l = Some ch ∨ ch ∉ activeChannels_ l) →
  wpf E (Channel_remove tid ch)
    (λ _ l', ∃ p', l' = set_poller p' l ∧ poller_wf p' ∧
       heap_ p' = <[ch := set_index kNew (set_addedToLoop false c)]> (heap_ (poller_ l)) ∧
       channels_ p' = delete (fd_ c) (channels_ (poller_ l)) ∧
       eventsSize_ p' = eventsSize_ (poller_ l)) l.
Proof.
  intros Hp Ht Hc Hev Hi Hact. unfold Channel_remove, removeChannel. wp_go.
  apply on_poller_spec. eapply channel_at_spec; [done|]. wp_go.
  apply wp_assert; [unfold isNoneEvent; rewrite Hev; done|]. wp_go.
  apply on_poller_spec. eapply modify_channel_spec; [done|]. wp_go.
  apply assertInLoopThread_spec; [done|]. wp_go. cbn.
  assert (Hrest : wpf E (on_poller (EPollPoller.removeChannel ch))
    (λ _ l', ∃ p', l' = set_poller p' l ∧ poller_wf p' ∧
       heap_ p' = <[ch := set_index kNew (set_addedToLoop false c)]> (heap_ (poller_ l)) ∧
       channels_ p' = delete (fd_ c) (channels_ (poller_ l)) ∧
       eventsSize_ p' = eventsSize_ (poller_ l))
    (set_poller (set_heap (<[ch := set_addedToLoop false c]> (heap_ (poller_ l))) (poller_ l))
       (set_poller (poller_ l) l))).
  { apply on_poller_spec. eapply wp_mono.
    { apply (removeChannel_spec ch (set_addedToLoop false c));
        [by eapply poller_wf_touch|apply lookup_insert_eq|done]. }
    cbv beta. intros _ p' (R1 & R2 & R3 & R4 & _). exists p'. split_and!; [done|done| |done|done].
    rewrite R2. cbn. by rewrite insert_insert_eq. }
  destruct (eventHandling_ l); [|exact Hrest]. apply wp_assert; [|exact Hrest].
  destruct (Hact eq_refl); [by rewrite bool_decide_eq_true_2|].
  rewrite orb_true_iff. right. by apply bool_decide_eq_true_2.
Qed.

Lemma queueInLoop_spec tid cb (Q : () → EventLoop → Prop) l :
  (∀ n, wakeups_ l ≤ n → Q tt (set_wakeups n (set_pending (pendingFunctors_ l ++ [cb]) l))) →
  wpf E (queueInLoop tid cb) Q l.
Proof.
  intros HQ. unfold queueInLoop, wakeup. wp_go. case_match.
  - wp_go. cbn. apply (HQ (wakeups_ l + 1)). lia.
  - specialize (HQ (wakeups_ l)). destruct l. apply HQ. simpl. lia.
Qed.

(** The loop between the poll and the handlers of an iteration. *)
Definition prepared (t : Timestamp) (active : list Z) (it : Z) (l : EventLoop) : EventLoop :=
  set_eventHandling true (set_iteration it (set_pollReturnTime t (set_active active l))).

Lemma prepare_spec {W} `{HasLoop W} t active (m : prog W ()) it (R : () → W → Prop) w :
  iteration_ (loop_of w) = it → 0 ≤ it < 2 ^ 62 →
  wpf E m R (set_loop (prepared t active (it + 1) (loop_of w)) w) →
  wpf E
    (on_loop (modify (set_active active)) ;; on_loop (modify (set_pollReturnTime t)) ;;
     l ← on_loop get; n ← lift (checked 64 (iteration_ l + 1));
     on_loop (modify (set_iteration n)) ;; on_loop (modify (set_eventHandling true)) ;; m) R w.
Proof.
  intros Hi Hit Hm. wp_go. repeat (apply on_loop_spec; wp_go).
  eapply wp_lift; [apply checked_64_ok; rewrite ?loop_of_set; cbn; rewrite ?loop_of_set; cbn; lia|].
  wp_go. repeat (apply on_loop_spec; wp_go).
  repeat (rewrite ?loop_of_set, ?set_loop_set; cbn). by rewrite Hi.
Qed.
End eventloop.
Arguments EventLoop F {_}.
Arguments HasLoop F {_} W.

(** ** Properties *)

Section loop_properties.
Context {F : Type} `{Epoll}.

Lemma channel_at_run ch c (l : EventLoop F) :
  heap_ (poller_ l) !! ch = Some c → on_poller (channel_at ch) l = Ok (c, l).
Proof.
  intros Hc. unfold on_poller, channel_at, mbind, prog_bind, get. rewrite Hc. by destruct l.
Qed.

Lemma modify_channel_run ch c f (l : EventLoop F) :
  heap_ (poller_ l) !! ch = Some c →
  on_poller (modify_channel ch f) l =
    Ok (tt, set_poller (set_heap (<[ch := f c]> (heap_ (poller_ l))) (poller_ l)) l).
Proof.
  intros Hc. unfold on_poller, modify_channel, channel_at, mbind, prog_bind, get. by rewrite Hc.
Qed.

Lemma assertInLoopThread_run tid (l : EventLoop F) :
  threadId_ l = tid → assertInLoopThread tid l = Ok (tt, l).
Proof.
  intros Ht. unfold assertInLoopThread, mbind, prog_bind, get, isInLoopThread.
  by rewrite (proj2 (Z.eqb_eq _ _) Ht).
Qed.

(** The five requests. *)
Inductive request : Type := EnableReading | DisableReading | EnableWriting | DisableWriting | DisableAll.

Definition do_request (r : request) : Z → Z → prog (EventLoop F) () :=
  match r with
  | EnableReading => enableReading
  | DisableReading => disableReading
  | EnableWriting => enableWriting
  | DisableWriting => disableWriting
  | DisableAll => disableAll
  end.

Definition mask_of (r : request) : Z → Z :=
  match r with
  | EnableReading => enableReading_mask
  | DisableReading => disableReading_mask
  | EnableWriting => enableWriting_mask
  | DisableWriting => disableWriting_mask
  | DisableAll => disableAll_mask
  end.

(** C26: the kernel watches what the channels ask for.  In a consistent loop, each of the five requests
    of a channel, made in the loop's thread, returns (no assertion fails, whatever the registration
    state, when the descriptor is not another channel's); the channel then has the new mask and no other
    channel changed; and the kernel watches exactly the descriptors of the channels marked added, each
    for its channel's current mask and with its channel's address. *)
Theorem request_kernel_sync (r : request) tid ch c (l : EventLoop F) :
  poller_wf (poller_ l) → threadId_ l = tid → heap_ (poller_ l) !! ch = Some c →
  (index_ c = kNew → channels_ (poller_ l) !! fd_ c = None) →
  wp (do_request r tid ch)
    (λ _ l', poller_wf (poller_ l') ∧
       (∃ c', heap_ (poller_ l') !! ch = Some c' ∧ events_ c' = mask_of r (events_ c) ∧
              index_ c' = next_index (index_ c) (mask_of r (events_ c))) ∧
       (∀ ch', ch' ≠ ch → heap_ (poller_ l') !! ch' = heap_ (poller_ l) !! ch') ∧
       (∀ fd ch' ev, interest (epollfd_ (poller_ l')) !! fd = Some (ch', ev) ↔
          ∃ c', heap_ (poller_ l') !! ch' = Some c' ∧ fd_ c' = fd ∧ index_ c' = kAdded ∧ events_ c' = ev)) l.
Proof.
  intros Hp Ht Hc Hnew.
  assert (Hm : do_request r tid ch = change_events (mask_of r) tid ch) by by destruct r.
  rewrite Hm. eapply wp_mono; [by eapply change_events_spec|]. cbv beta.
  intros _ l' (p' & -> & Hwf & Hheap & _). cbn [set_poller poller_]. rewrite Hheap. split_and!.
  - done.
  - eexists. split; [apply lookup_insert_eq|done].
  - intros ch' Hne. by apply lookup_insert_ne.
  - rewrite <- Hheap. apply Hwf.
Qed.

(** When a channel may be removed.  [Channel::remove] of a registered channel returns exactly when
    the channel asks for nothing and, during event handling, it is the channel being handled or has no
    event pending in this round; the kernel then does not know the channel and its descriptor is free for
    a new one.  Otherwise an assertion fails. *)
Theorem remove_guarded tid ch c (l : EventLoop F) :
  poller_wf (poller_ l) → threadId_ l = tid → heap_ (poller_ l) !! ch = Some c → index_ c ≠ kNew →
  if bool_decide (events_ c = kNoneEvent ∧
       (eventHandling_ l = true → currentActiveChannel_ l = Some ch ∨ ch ∉ activeChannels_ l))
  then wp (Channel_remove tid ch)
         (λ _ l', poller_wf (poller_ l') ∧ channels_ (poller_ l') !! fd_ c = None ∧
            interest (epollfd_ (poller_ l')) !! fd_ c = None) l
  else faults (Channel_remove tid ch) AssertFailed l.
Proof.
  intros Hp Ht Hc Hi. case_bool_decide as Hcase.
  - destruct Hcase as [Hev Hact]. eapply wp_mono; [by eapply Channel_remove_spec|]. cbv beta.
    intros _ l' (p' & -> & Hwf & Hheap & Hch & _). cbn [set_poller poller_]. split_and!; [done| |].
    + rewrite Hch. apply lookup_delete_eq.
    + destruct (interest (epollfd_ p') !! fd_ c) as [[ch' ev]|] eqn:Hin; [exfalso|done].
      apply (wf_interest _ Hwf) in Hin as (c' & Hc' & Hfd & Ha & _).
      destruct (wf_index _ Hwf _ _ Hc') as [Hn|[_ Hn]]; [rewrite Hn in Ha; done|].
      rewrite Hfd, Hch, lookup_delete_eq in Hn. done.
  - unfold Channel_remove. apply (faults_bind_r _ _ _ c l l); [by apply channel_at_run|].
    unfold isNoneEvent. destruct (Z.eqb_spec (events_ c) kNoneEvent) as [Hev|Hev]; [|done].
    destruct (eventHandling_ l) eqn:Hh; [|by destruct Hcase].
    apply (faults_bind_r _ _ _ tt l l); [done|].
    eapply faults_bind_r; [by apply modify_channel_run|]. unfold removeChannel.
    eapply faults_bind_r; [by apply assertInLoopThread_run|].
    eapply faults_bind_r; [done|]. cbn [set_poller eventHandling_ currentActiveChannel_ activeChannels_].
    rewrite Hh. apply faults_bind_l. cbn [when_].
    rewrite bool_decide_eq_false_2; [|intros Hcur; apply Hcase; split; [done|by left]].
    rewrite bool_decide_eq_false_2; [done|]. intros Hnin. apply Hcase. split; [done|]. intros _. by right.
Qed.

(** [disableAll] is not idempotent.  On a watched channel the first call takes the channel from the
    kernel; a second one registers it again, for no events, and the kernel reports errors and hang-ups for
    such a registration. *)
Theorem disableAll_twice tid ch c (l : EventLoop F) :
  poller_wf (poller_ l) → threadId_ l = tid → heap_ (poller_ l) !! ch = Some c → index_ c = kAdded →
  wp (disableAll tid ch ;; gets (λ l, interest (epollfd_ (poller_ l)) !! fd_ c))
     (λ before l1, before = None ∧
        wp (disableAll tid ch)
           (λ _ l2, interest (epollfd_ (poller_ l2)) !! fd_ c = Some (ch, kNoneEvent)) l1) l.
Proof.
  intros Hp Ht Hc Ha. wp_go. unfold disableAll.
  eapply wp_mono; [eapply change_events_spec; [done..|]; by rewrite Ha|]. cbv beta.
  intros _ l1 (p1 & -> & Hwf & Hheap & Hch & _). wp_go. cbn [set_poller poller_].
  set (c1 := registered _ _) in Hheap.
  assert (Hc1 : heap_ p1 !! ch = Some c1) by (rewrite Hheap; apply lookup_insert_eq).
  assert (Hi1 : index_ c1 = kDeleted) by (cbn; unfold next_index; rewrite Ha; done).
  assert (Hfd1 : fd_ c1 = fd_ c) by done. clearbody c1.
  split.
  - destruct (interest (epollfd_ p1) !! fd_ c) as [[ch' ev]|] eqn:Hin; [exfalso|done].
    apply (wf_interest _ Hwf) in Hin as (c' & Hc' & Hfd & Ha' & _).
    assert (Hx : channels_ p1 !! fd_ c = Some ch) by (rewrite Hch; apply lookup_insert_eq).
    destruct (wf_index _ Hwf _ _ Hc') as [Hn|[_ Hn]]; [rewrite Hn in Ha'; done|].
    rewrite Hfd, Hx in Hn. injection Hn as <-. rewrite Hc1 in Hc'. injection Hc' as <-.
    rewrite Hi1 in Ha'. done.
  - eapply wp_mono; [eapply (change_events_spec _ tid ch c1); [done|done|done|]; by rewrite Hi1|]. cbv beta.
    intros _ l2 (p2 & -> & Hwf2 & Hheap2 & _). cbn [set_poller poller_] in *.
    apply (wf_interest _ Hwf2). eexists. split; [rewrite Hheap2; apply lookup_insert_eq|].
    split_and!; [done| |done]. cbn. unfold next_index. by rewrite Hi1.
Qed.
End loop_properties.

(** ** Termination of the loop *)

Section termination.
Context {F : Type} `{Epoll} {W : Type} `{!HasLoop F W}.
Context (alive : Z → W → bool) (exec : F → prog W ()) (exec_read : F → Timestamp → prog W ()).

#[local] Abbreviation lp w := (loop_of (F := F) w).

(** The flags and the counter of the loop. *)
Definition flags (w : W) : bool * bool * Z :=
  (quit_ (loop_of w), looping_ (loop_of w), iteration_ (loop_of w)).

(** The handlers' invariant [I] is about the poller and the rest of the world; the kernel reports
    channels of [S] only. *)
Context (I : W → Prop) (S : Z → Prop).
Context (I_loop : ∀ w l, I w → poller_ l = poller_ (lp w) → I (set_loop l w)).

(** The flags are as they were, and functors were only queued. *)
Record steady (w w' : W) : Prop := {
  steady_flags : flags w' = flags w;
  steady_queue : pendingFunctors_ (lp w) `prefix_of` pendingFunctors_ (lp w')
}.

#[local] Instance steady_preorder : PreOrder steady.
Proof. split; [by split|]. intros w1 w2 w3 [E1 P1] [E2 P2]. split; [congruence|by etrans]. Qed.

(** Code that returns, keeps the invariant, leaves the flags alone and takes no functor from the queue. *)
Definition benign {A} (m : prog W A) : Prop := ∀ w, I w → wp m (λ _ w', I w' ∧ steady w w') w.

Lemma benign_loop {A} (m : prog (EventLoop F) A) w :
  I w → wp m (λ _ l', poller_ l' = poller_ (lp w) ∧ (quit_ l', looping_ l', iteration_ l') = flags w ∧
    pendingFunctors_ l' = pendingFunctors_ (lp w)) (lp w) →
  wp (on_loop m) (λ _ w', I w' ∧ steady w w') w.
Proof.
  intros Hw Hm. apply on_loop_spec. eapply wp_mono; [exact Hm|]. cbv beta. intros a l' (Hp & Hl & Hf).
  split; [by apply I_loop|]. split; [unfold flags in *|]; rewrite loop_of_set; [done|by rewrite Hf].
Qed.

Lemma benign_for_each {A} (f : A → prog W ()) l : (∀ x, x ∈ l → benign (f x)) → benign (for_each f l).
Proof.
  induction l as [|x l IH]; intros Hf w Hw; cbn [for_each]; [done|]. wp_go.
  eapply wp_mono; [apply Hf; [by left|done]|]. cbv beta. intros _ w1 [I1 H1].
  eapply wp_mono; [apply IH; [intros y Hy; apply Hf; by right|done]|]. cbv beta. intros _ w2 [I2 H2].
  split; [done|by etrans].
Qed.

Context (exec_benign : ∀ f, benign (exec f)).
Context (handle_benign : ∀ ch, S ch → benign (handle_active alive exec exec_read ch)).

(** The functors that were queued when [w1] was reached are called one after the other, up to [w']. *)
Definition calls_all (w1 w' : W) : Prop := ∃ w2,
  for_each exec (pendingFunctors_ (lp w1)) (set_loop (set_pending [] (set_callingPending true (lp w1))) w1) = Ok (tt, w2) ∧
  w' = set_loop (set_callingPending false (lp w2)) w2.

Lemma doPendingFunctors_spec w :
  I w → wp (doPendingFunctors exec) (λ _ w', I w' ∧ flags w' = flags w ∧ calls_all w w') w.
Proof.
  intros Hw. set (w0 := set_loop (set_pending [] (set_callingPending true (lp w))) w).
  assert (I0 : I w0) by by apply I_loop.
  destruct (wp_inv (benign_for_each exec (pendingFunctors_ (lp w)) (λ f _, exec_benign f) w0 I0)) as ([] & w2 & Hrun & I2 & [H2 _]).
  assert (Hall : doPendingFunctors exec w = Ok (tt, set_loop (set_callingPending false (lp w2)) w2)).
  { unfold doPendingFunctors. rewrite (bind_ok _ _ tt _ (set_loop (set_callingPending true (lp w)) w)) by done.
    rewrite (bind_ok _ _ (pendingFunctors_ (lp w)) _ (set_loop (set_callingPending true (lp w)) w)).
    2:{ unfold on_loop, gets. by rewrite loop_of_set, set_loop_set. }
    rewrite (bind_ok _ _ tt _ w0).
    2:{ unfold on_loop, modify. by rewrite loop_of_set, set_loop_set. }
    by rewrite (bind_ok _ _ tt _ w2) by exact Hrun. }
  unfold wpf. rewrite Hall. split_and!; [by apply I_loop| |by exists w2].
  unfold flags in *. rewrite loop_of_set. cbn. rewrite H2. unfold w0. by rewrite loop_of_set.
Qed.

Lemma arrivals_spec other (i : poll_input (F := F)) l :
  wp (arrivals other i)
    (λ _ l', quit_ l' = quit_requested i || quit_ l ∧ looping_ l' = looping_ l ∧
             iteration_ l' = iteration_ l ∧ poller_ l' = poller_ l ∧
             pendingFunctors_ l' = pendingFunctors_ l ++ arrived i) l.
Proof.
  unfold arrivals. wp_go. eapply (wp_mono _ (λ _ l', quit_ l' = quit_ l ∧ looping_ l' = looping_ l ∧
             iteration_ l' = iteration_ l ∧ poller_ l' = poller_ l ∧ pendingFunctors_ l' = pendingFunctors_ l ++ arrived i)).
  - generalize (arrived i). intros fs. induction fs as [|f fs IH] in l |- *; cbn [for_each]; [by rewrite app_nil_r|]. wp_go.
    apply queueInLoop_spec. intros n _. eapply wp_mono; [apply IH|]. cbv beta. cbn. by rewrite <- app_assoc.
  - cbv beta. intros _ l1 (Hq & Hl & Hi & Hp & Hf). unfold quit, wakeup. destruct (quit_requested i); [|done].
    wp_go. destruct (negb _); [|done]. by wp_go.
Qed.

(** What the kernel reports can be handled. *)
Definition pollable (i : poll_input (F := F)) : Prop :=
  ∀ w, I w → wp (on_loop (on_poller (poll (answer i)))) (λ active w', I w' ∧ ∀ ch, ch ∈ active → S ch) w.

Lemma poll_benign i w : pollable i → I w →
  wp (on_loop (on_poller (poll (answer i))))
    (λ active w', I w' ∧ steady w w' ∧ ∀ ch, ch ∈ active → S ch) w.
Proof.
  intros Hi Hw. specialize (Hi w Hw). unfold wpf, on_loop, on_poller in *.
  destruct (poll (answer i) (poller_ (lp w))) as [[a p]|]; [|done]. destruct Hi as [? ?].
  split_and!; [done| |done]. split; [unfold flags|]; by rewrite loop_of_set.
Qed.

(** An iteration: from [w] its functors and those that arrive are among the ones it calls, in this order. *)
Lemma iteration_spec other i w :
  I w → pollable i → 0 ≤ iteration_ (lp w) < 2 ^ 62 →
  wp (iteration alive exec exec_read other i)
    (λ _ w', I w' ∧
       flags w' = (quit_requested i || quit_ (lp w), looping_ (lp w), iteration_ (lp w) + 1) ∧
       ∃ w1, pendingFunctors_ (lp w) ++ arrived i `prefix_of` pendingFunctors_ (lp w1) ∧ calls_all w1 w') w.
Proof.
  intros Hw Hi Hr. unfold iteration. wp_go. apply on_loop_spec. wp_go.
  set (w1 := set_loop (set_active [] (lp w)) w). assert (I1 : I w1) by by apply I_loop.
  eapply wp_mono; [apply (on_loop_spec _ (λ _ w', I w' ∧ flags w' =
    (quit_requested i || quit_ (lp w), looping_ (lp w), iteration_ (lp w)) ∧
    pendingFunctors_ (lp w') = pendingFunctors_ (lp w) ++ arrived i))|].
  { eapply wp_mono; [apply arrivals_spec|]. cbv beta. intros _ l' (E1 & E2 & E3 & E4 & E5).
    split; [by apply I_loop|]. unfold flags. rewrite loop_of_set, E1, E2, E3, E5. unfold w1. by rewrite loop_of_set. }
  cbv beta. intros _ w2 (I2 & H2 & P2). wp_go.
  eapply wp_mono; [by apply poll_benign|]. cbv beta. intros active w3 (I3 & H3 & HS). wp_go.
  eapply wp_mono; [by apply benign_loop|]. cbv beta. intros _ w4 [I4 H4]. wp_go.
  eapply wp_mono; [by apply benign_loop|]. cbv beta. intros _ w5 [I5 H5]. wp_go.
  apply on_loop_spec. wp_go. rewrite set_loop_of.
  assert (S5 : steady w2 w5) by (etrans; [exact H3|by etrans]).
  assert (H5' : iteration_ (lp w5) = iteration_ (lp w)) by (pose proof (steady_flags _ _ S5); unfold flags in *; congruence).
  eapply wp_lift; [apply checked_64_ok; rewrite H5'; lia|]. wp_go.
  apply on_loop_spec. wp_go.
  set (w6 := set_loop _ w5). assert (I6 : I w6) by by apply I_loop.
  assert (H6 : flags w6 = (quit_requested i || quit_ (lp w), looping_ (lp w), iteration_ (lp w) + 1)).
  { pose proof (steady_flags _ _ S5). unfold w6, flags in *. rewrite loop_of_set. cbn. congruence. }
  assert (P6 : pendingFunctors_ (lp w) ++ arrived i `prefix_of` pendingFunctors_ (lp w6)).
  { rewrite <- P2. unfold w6. rewrite loop_of_set. apply S5. }
  eapply wp_mono; [by apply benign_loop|]. cbv beta. intros _ w7 [I7 H7]. wp_go.
  eapply wp_mono; [apply benign_for_each; [|done]; intros ch Hch; by apply handle_benign, HS|].
  cbv beta. intros _ w8 [I8 H8]. wp_go.
  eapply wp_mono; [by apply benign_loop|]. cbv beta. intros _ w9 [I9 H9]. wp_go.
  eapply wp_mono; [by apply benign_loop|]. cbv beta. intros _ w10 [I10 H10].
  assert (S10 : steady w6 w10) by (etrans; [exact H7|etrans; [exact H8|by etrans]]).
  eapply wp_mono; [by apply doPendingFunctors_spec|]. cbv beta. intros _ w11 (I11 & H11 & C11).
  split_and!; [done|by rewrite H11, (steady_flags _ _ S10)|]. exists w10. split; [|done]. etrans; [exact P6|apply S10].
Qed.

(** C30: quit ends the loop.  Suppose that handlers and functors return, keep an invariant, leave the loop's flags
    alone and take nothing from the queue of functors.  When some iteration sees a [quit] of another thread, [loop]
    returns: it finishes that iteration, runs no further one, and is not looping any more.  The last thing it does
    is to call, in order, the functors that are queued, and those queued in the meantime are among them: a functor
    queued before a [quit] is called, and only what the last functors queue themselves is left. *)
Theorem loop_quits tid other before i after w :
  I w → threadId_ (lp w) = tid → looping_ (lp w) = false → iteration_ (lp w) = 0 →
  Forall (λ j, pollable j ∧ quit_requested j = false) before → pollable i → quit_requested i = true →
  zlen before < 2 ^ 32 →
  wp (loop alive exec exec_read tid other (before ++ i :: after))
    (λ _ w', quit_ (lp w') = true ∧ looping_ (lp w') = false ∧ iteration_ (lp w') = zlen before + 1 ∧
       ∃ w1 w2, calls_all w1 w2 ∧ w' = set_loop (set_looping false (lp w2)) w2 ∧
         ∃ fs, fs ++ arrived i `prefix_of` pendingFunctors_ (lp w1) ∧
           (before = [] → fs = pendingFunctors_ (lp w))) w.
Proof.
  intros Hw Ht Hl Hn Hbefore Hi Hq Hlen. unfold loop. wp_go. apply on_loop_spec. wp_go. rewrite set_loop_of.
  apply wp_assert; [by rewrite Hl|]. wp_go.
  apply on_loop_spec, assertInLoopThread_spec; [done|]. rewrite set_loop_of. wp_go.
  apply on_loop_spec. wp_go. apply on_loop_spec. wp_go. rewrite loop_of_set, set_loop_set.
  set (w1 := set_loop _ w).
  assert (H1 : flags w1 = (false, true, 0)) by (unfold flags, w1; rewrite loop_of_set; cbn; by rewrite Hn).
  assert (I1 : I w1) by by apply I_loop.
  assert (P1 : pendingFunctors_ (lp w1) = pendingFunctors_ (lp w)) by (unfold w1; by rewrite loop_of_set).
  rewrite <- P1. clearbody w1. clear P1.
  set (last := λ (bs : list (poll_input (F := F))) w0 w', ∃ w1, calls_all w1 w' ∧ ∃ fs, fs ++ arrived i `prefix_of` pendingFunctors_ (lp w1) ∧
    (bs = [] → fs = pendingFunctors_ (lp w0))).
  eapply (wp_mono _ (λ _ w', flags w' = (true, true, 0 + zlen before + 1) ∧ last before w1 w')).
  - assert (Hgen : ∀ n, 0 ≤ n → n + zlen before < 2 ^ 33 → flags w1 = (false, true, n) →
      wp (iterations alive exec exec_read other (before ++ i :: after))
        (λ _ w', flags w' = (true, true, n + zlen before + 1) ∧ last before w1 w') w1); [|by apply Hgen; [done|lia|done]].
    clear H1 Hlen. induction Hbefore as [|j before [Hj Hqj] Hbefore IH] in w1, I1 |- *;
      intros n Hn0 Hlen H1; cbn [app iterations]; wp_go; apply on_loop_spec; wp_go; rewrite set_loop_of;
      assert (Hf : quit_ (lp w1) = false ∧ looping_ (lp w1) = true ∧ iteration_ (lp w1) = n)
        by (unfold flags in H1; split_and!; congruence);
      destruct Hf as (F1 & F2 & F3); rewrite F1; wp_go.
    + eapply wp_mono; [apply iteration_spec; [done|done|rewrite F3; unfold zlen in *; simpl in *; lia]|].
      cbv beta. intros _ w2 (I2 & H2 & w3 & Hpre & Hcalls). rewrite Hq, F2, F3 in H2. cbn in H2.
      assert (F4 : quit_ (lp w2) = true) by (unfold flags in H2; congruence).
      assert (Hend : flags w2 = (true, true, n + zlen (@nil (poll_input (F := F))) + 1) ∧ last [] w1 w2).
      { split; [rewrite H2; by rewrite zlen_nil, Z.add_0_r|]. exists w3. split; [done|]. by exists (pendingFunctors_ (lp w1)). }
      destruct after as [|i' after]; cbn [iterations];
        wp_go; apply on_loop_spec; wp_go; rewrite set_loop_of, F4; wp_go; exact Hend.
    + rewrite zlen_cons in Hlen |- *. pose proof (zlen_nonneg before).
      eapply wp_mono; [apply iteration_spec; [done|done|rewrite F3; lia]|].
      cbv beta. intros _ w2 (I2 & H2 & _). rewrite Hqj, F1, F2, F3 in H2. cbn in H2.
      eapply wp_mono; [apply (IH w2 I2 (n + 1)); [lia|lia|done]|].
      cbv beta. intros _ w' (-> & w3 & Hcalls & fs & Hfs & _). split; [do 2 f_equal; lia|].
      exists w3. split; [done|]. by exists fs.
  - cbv beta. intros _ w' (Hw' & w3 & Hcalls & Hfs). apply on_loop_spec. wp_go. rewrite loop_of_set. cbn.
    unfold flags in Hw'. injection Hw' as Q1 Q2 Q3. split_and!; [done|done|lia|]. by exists w3, w'.
Qed.

(** A quit before the loop is lost.  [loop] clears the flag on entry: when no other quit arrives,
    it does not return within any number of iterations, whether or not [quit] was called before. *)
Theorem quit_before_loop_lost tid other (inputs : list (poll_input (F := F))) w :
  I w → threadId_ (lp w) = tid → looping_ (lp w) = false → iteration_ (lp w) = 0 → zlen inputs < 2 ^ 32 →
  Forall (λ j, pollable j ∧ quit_requested j = false) inputs →
  (on_loop (quit other) ;; loop alive exec exec_read tid other inputs) w = Fault OutOfFuel.
Proof.
  intros Hw Ht Hl Hn Hlen Hin.
  assert (Hquit : ∃ l, quit other (lp w) = Ok (tt, l) ∧ threadId_ l = tid ∧ looping_ l = false ∧ iteration_ l = 0 ∧
    poller_ l = poller_ (lp w)).
  { unfold quit, wakeup, mbind, prog_bind, modify, get, when_, isInLoopThread. cbn.
    destruct (negb _); eexists; (split; [reflexivity|]); done. }
  destruct Hquit as (l & Hrun & Ht' & Hl' & Hn' & Hp').
  rewrite (bind_ok _ _ tt w (set_loop l w)) by (unfold on_loop; by rewrite Hrun).
  unfold loop. rewrite (bind_ok _ _ l (set_loop l w) (set_loop l w)).
  2:{ unfold on_loop, get. by rewrite loop_of_set, set_loop_set. }
  rewrite (bind_ok _ _ tt _ (set_loop l w)) by (by rewrite Hl').
  rewrite (bind_ok _ _ tt _ (set_loop l w)).
  2:{ unfold on_loop. rewrite loop_of_set, assertInLoopThread_run by done. by rewrite set_loop_set. }
  rewrite (bind_ok _ _ tt _ (set_loop (set_looping true l) w)).
  2:{ unfold on_loop, modify. by rewrite loop_of_set, set_loop_set. }
  rewrite (bind_ok _ _ tt _ (set_loop (set_quit false (set_looping true l)) w)).
  2:{ unfold on_loop, modify. by rewrite loop_of_set, set_loop_set. }
  apply (faults_bind_l (iterations alive exec exec_read other inputs)). unfold faults.
  set (w1 := set_loop _ w).
  assert (H1 : flags w1 = (false, true, 0)) by (unfold flags, w1; rewrite loop_of_set; cbn; by rewrite Hn').
  assert (I1 : I w1) by by apply I_loop.
  clearbody w1. assert (Hgen : ∀ n, 0 ≤ n → n + zlen inputs < 2 ^ 33 → flags w1 = (false, true, n) →
    iterations alive exec exec_read other inputs w1 = Fault OutOfFuel); [|by apply (Hgen 0); [done|lia|done]].
  clear - Hin I1 I_loop exec_benign handle_benign. induction Hin as [|j inputs [Hj Hqj] Hin IH] in w1, I1 |- *;
    intros n Hn0 Hlen H1; cbn [iterations];
    assert (Hf : quit_ (lp w1) = false ∧ looping_ (lp w1) = true ∧ iteration_ (lp w1) = n)
      by (unfold flags in H1; split_and!; congruence);
    destruct Hf as (F1 & F2 & F3);
    rewrite (bind_ok _ _ (lp w1) w1 w1) by (unfold on_loop, get; by rewrite set_loop_of); rewrite F1; [done|].
  rewrite zlen_cons in Hlen. pose proof (zlen_nonneg inputs).
  destruct (wp_inv (iteration_spec other j w1 I1 Hj ltac:(rewrite F3; lia))) as ([] & w2 & Hit & I2 & H2 & _).
  rewrite (bind_ok _ _ tt w1 w2) by exact Hit. rewrite Hqj, F1, F2, F3 in H2. apply (IH w2 I2 (n + 1)); [lia|lia|done].
Qed.
End termination.

(** ** Examples *)

#[local] Existing Instance map_epoll.

(** A loop of thread 1 with one channel at address 100, for descriptor 7. *)
Definition example_poller : EPollPoller Z := EPollPoller_init {[ 100 := Channel_init 7 ]}.
Definition example_loop : EventLoop Z := EventLoop_init 1 example_poller.

Lemma example_poller_wf : poller_wf example_poller.
Proof.
  apply poller_wf_init. intros ch c Hc. apply lookup_singleton_Some in Hc as [_ <-]. done.
Qed.

Lemma request_kernel_sync_witness :
  wp (do_request EnableWriting 1 100)
    (λ _ l', poller_wf (poller_ l') ∧
       (∃ c', heap_ (poller_ l') !! 100 = Some c' ∧ events_ c' = 4 ∧ index_ c' = 1) ∧
       (∀ ch', ch' ≠ 100 → heap_ (poller_ l') !! ch' = heap_ (poller_ example_loop) !! ch') ∧
       (∀ fd ch' ev, interest (epollfd_ (poller_ l')) !! fd = Some (ch', ev) ↔
          ∃ c', heap_ (poller_ l') !! ch' = Some c' ∧ fd_ c' = fd ∧ index_ c' = kAdded ∧ events_ c' = ev))
    example_loop.
Proof.
  apply (request_kernel_sync EnableWriting 1 100 (Channel_init 7) example_loop).
  - exact example_poller_wf.
  - reflexivity.
  - reflexivity.
  - intros _. reflexivity.
Defined.

(** The same loop after the channel asked for reading. *)
Definition reading_loop : EventLoop Z :=
  match enableReading 1 100 example_loop with Ok (_, l) => l | Fault _ => example_loop end.
Definition reading_channel : Channel Z :=
  registered (set_addedToLoop true (Channel_init 7)) 3.

Lemma reading_loop_wf : poller_wf (poller_ reading_loop).
Proof.
  assert (Hspec : wp (enableReading 1 100) (λ _ l', poller_wf (poller_ l')) example_loop).
  { eapply wp_mono.
    { eapply (change_events_spec _ 1 100 (Channel_init 7)); [exact example_poller_wf|done..]. }
    cbv beta. by intros _ l' (p' & -> & ? & _). }
  unfold wpf in Hspec. unfold reading_loop.
  destruct (enableReading 1 100 example_loop) as [[[] l]|]; [exact Hspec|exact example_poller_wf].
Qed.

Lemma remove_guarded_witness :
  faults (Channel_remove 1 100) AssertFailed reading_loop.
Proof.
  apply (remove_guarded 1 100 reading_channel reading_loop).
  - exact reading_loop_wf.
  - vm_compute. reflexivity.
  - vm_compute. reflexivity.
  - vm_compute. discriminate.
Defined.

Lemma disableAll_twice_witness :
  wp (disableAll 1 100 ;; gets (λ l, interest (epollfd_ (poller_ l)) !! 7))
     (λ before l1, before = None ∧
        wp (disableAll 1 100)
           (λ _ l2, interest (epollfd_ (poller_ l2)) !! 7 = Some (100, 0)) l1) reading_loop.
Proof.
  apply (disableAll_twice 1 100 reading_channel reading_loop).
  - exact reading_loop_wf.
  - vm_compute. reflexivity.
  - vm_compute. reflexivity.
  - vm_compute. reflexivity.
Defined.

(** The loop alone as the world of handlers that do nothing. *)
#[local, refine] Instance self_loop : HasLoop Z (EventLoop Z) := {|
  loop_of w := w;
  set_loop l _ := l
|}.
Proof. all: done. Defined.

Lemma idle_benign : benign (F := Z) (λ _ : EventLoop Z, True) (mret tt).
Proof. intros w _. split; [exact I|]. split; [done|reflexivity]. Qed.

Definition idle (fs : list Z) (q : bool) : poll_input (F := Z) := mkPollInput fs q None 0.

(** A world that records the functors it calls. *)
Record recorded : Type := mkRecorded { recorded_loop : EventLoop Z; called : list Z }.

#[local, refine] Instance recorded_has_loop : HasLoop Z recorded := {|
  loop_of := recorded_loop;
  set_loop l w := mkRecorded l (called w)
|}.
Proof. all: by intros; try destruct w. Defined.

Definition record (f : Z) : prog recorded () := modify (λ w, mkRecorded (recorded_loop w) (called w ++ [f])).

Lemma record_benign f : benign (λ _, True) (record f).
Proof. intros w _. split; [exact I|]. split; [done|]. reflexivity. Qed.

Lemma record_all fs w w' : for_each record fs w = Ok (tt, w') → called w' = called w ++ fs.
Proof.
  induction fs as [|f fs IH] in w |- *; cbn [for_each]; [intros [= <-]; by rewrite app_nil_r|].
  intros Hrun. rewrite (bind_ok _ _ tt w (mkRecorded (recorded_loop w) (called w ++ [f]))) in Hrun by done.
  rewrite (IH _ Hrun). cbn. by rewrite <- app_assoc.
Qed.

(** The functors that arrive with the quit are called. *)
Lemma loop_quits_witness :
  wp (loop (λ _ _, true) record (λ _ _, mret tt) 1 2 ([idle [5; 6] false; idle [] false] ++ idle [7; 8] true :: []))
    (λ _ w', iteration_ (recorded_loop w') = 3 ∧ looping_ (recorded_loop w') = false ∧ [7; 8] ⊆ called w')
    (mkRecorded example_loop []).
Proof.
  eapply wp_mono.
  - apply (loop_quits (F := Z) (W := recorded) (λ _ _, true) record (λ _ _, mret tt) (λ _, True) (λ _, False)
             (λ _ _ _ _, I) record_benign (λ _ HF, False_ind _ HF)
             1 2 [idle [5; 6] false; idle [] false] (idle [7; 8] true) [] (mkRecorded example_loop [])).
    + exact I.
    + reflexivity.
    + reflexivity.
    + reflexivity.
    + repeat constructor; intros ch Hch; by apply elem_of_nil in Hch.
    + intros w _. split; [exact I|]. intros ch Hch. by apply elem_of_nil in Hch.
    + reflexivity.
    + reflexivity.
  - cbv beta. intros _ w' (_ & Hl & Hi & w1 & w2 & (w3 & Hrun & ->) & -> & fs & [k Hk] & _). split_and!; [exact Hi|exact Hl|].
    cbn. rewrite (record_all _ _ _ Hrun), Hk. intros f Hf. cbn [arrived idle] in *. rewrite !elem_of_app. tauto.
Defined.

Lemma quit_before_loop_lost_witness :
  (on_loop (quit 2) ;; loop (λ _ _, true) (λ _, mret tt) (λ _ _, mret tt) 1 2 [idle [5] false; idle [] false])
    example_loop = Fault OutOfFuel.
Proof.
  apply (quit_before_loop_lost (F := Z) (W := EventLoop Z) (λ _ _, true) (λ _, mret tt) (λ _ _, mret tt) (λ _, True) (λ _, False)
           (λ _ _ _ _, I) (λ _, idle_benign) (λ _ HF, False_ind _ HF)
           1 2 [idle [5] false; idle [] false] example_loop).
  - exact I.
  - reflexivity.
  - reflexivity.
  - reflexivity.
  - reflexivity.
  - repeat constructor; intros ch Hch; by apply elem_of_nil in Hch.
Defined.
