(* ===== verification/Registration.v ===== *)
(** * Registration: what a channel's members say of its registration

    A channel keeps a mask, the poller's mark [index_] and the flag [addedToLoop_]; the poller keeps a map.
    However a loop's channels are requested and removed, these agree, so that the assertion of
    [Channel::~Channel] says what the one that is commented out there says. *)
From S2P Require Import Prelude Channel EPollPoller EventLoop.

Section registration.
Context {F : Type} `{Epoll}.
Context (tid : Z).

(** What the loop's thread does to a channel. *)
Inductive operation : Type :=
| Request (r : request) (ch : Z)
| Remove (ch : Z).

Definition target (o : operation) : Z := match o with Request _ ch | Remove ch => ch end.

Definition run_operation (o : operation) : prog (EventLoop F) () :=
  match o with
  | Request r ch => do_request r tid ch
  | Remove ch => Channel_remove tid ch
  end.

(** A channel's members are in their ranges and agree with each other. *)
Record channel_typed (c : Channel F) : Prop := {
  typed_mask : requestable (events_ c);
  typed_new : index_ c = kNew → events_ c = kNoneEvent;
  typed_added : addedToLoop_ c = negb (index_ c =? kNew);
  typed_idle : Channel.eventHandling_ c = false
}.

(** The loop with the channels of [fds] (their descriptors by address). *)
Record typed (fds : gmap Z Z) (l : EventLoop F) : Prop := {
  typed_wf : poller_wf (poller_ l);
  typed_thread : threadId_ l = tid;
  typed_handling : EventLoop.eventHandling_ l = false;
  typed_fds : fd_ <$> heap_ (poller_ l) = fds;
  typed_channel ch c : heap_ (poller_ l) !! ch = Some c → channel_typed c
}.

(** No two channels have the same descriptor. *)
Definition distinct (fds : gmap Z Z) : Prop :=
  ∀ ch ch' fd, fds !! ch = Some fd → fds !! ch' = Some fd → ch = ch'.

Lemma mask_of_requestable r ev : requestable ev → requestable (mask_of r ev).
Proof.
  intros Hev. destruct r; cbn [mask_of].
  - by apply enableReading_spec.
  - by apply disableReading_spec.
  - by apply enableWriting_spec.
  - by apply disableWriting_spec.
  - by left.
Qed.

(** The channel of [ch] holds its descriptor alone. *)
Lemma new_unlisted fds ch c l :
  typed fds l → distinct fds → heap_ (poller_ l) !! ch = Some c → index_ c = kNew → channels_ (poller_ l) !! fd_ c = None.
Proof.
  intros [Hwf _ _ Hfds _] Hd Hc Hn. destruct (channels_ (poller_ l) !! fd_ c) as [ch'|] eqn:Hin; [exfalso|done].
  apply (wf_channel _ Hwf) in Hin as (c' & Hc' & Hfd & Hi).
  assert (ch = ch') as <-.
  { apply (Hd ch ch' (fd_ c)); rewrite <- Hfds, lookup_fmap; [by rewrite Hc|by rewrite Hc'; cbn; rewrite Hfd]. }
  rewrite Hc in Hc'. injection Hc' as <-. rewrite Hn in Hi. by destruct Hi.
Qed.

Lemma next_index_new i ev : (next_index i ev =? kNew) = false.
Proof. unfold next_index. destruct (_ || _); [done|]. by destruct (ev =? kNoneEvent). Qed.

Lemma request_typed fds r ch c l :
  typed fds l → distinct fds → heap_ (poller_ l) !! ch = Some c →
  wp (do_request r tid ch) (λ _ l', typed fds l' ∧
    heap_ (poller_ l') = <[ch := registered (set_addedToLoop true c) (mask_of r (events_ c))]> (heap_ (poller_ l))) l.
Proof.
  intros Hl Hd Hc. pose proof Hl as [Hwf Ht Hh Hfds Hch].
  assert (Hm : do_request (F := F) r tid ch = change_events (mask_of r) tid ch) by by destruct r.
  rewrite Hm. eapply wp_mono; [apply change_events_spec; [done|done|exact Hc|]|].
  - by apply (new_unlisted fds ch).
  - cbv beta. intros _ l' (p' & -> & Hwf' & Hheap & _). split; [|exact Hheap]. constructor; try done; cbn.
    + rewrite Hheap, fmap_insert. cbn. rewrite insert_id; [done|]. by rewrite lookup_fmap, Hc.
    + intros ch' c'. rewrite Hheap. intros [[<- <-]|[_ Hc']]%lookup_insert_Some; [|by apply (Hch ch')].
      destruct (Hch _ _ Hc) as [Hmask _ _ Hidle]. constructor; cbn.
      * by apply mask_of_requestable.
      * intros Hn. pose proof (next_index_new (index_ c) (mask_of r (events_ c))) as Hni. rewrite Hn in Hni. done.
      * by rewrite next_index_new.
      * done.
Qed.

Lemma remove_typed fds ch c l :
  typed fds l → distinct fds → heap_ (poller_ l) !! ch = Some c →
  if (events_ c =? kNoneEvent) && negb (index_ c =? kNew)
  then wp (Channel_remove tid ch) (λ _ l', typed fds l' ∧
         heap_ (poller_ l') = <[ch := set_index kNew (set_addedToLoop false c)]> (heap_ (poller_ l))) l
  else faults (Channel_remove tid ch) AssertFailed l.
Proof.
  intros Hl Hd Hc. pose proof Hl as [Hwf Ht Hh Hfds Hch]. destruct (Hch _ _ Hc) as [Hmask Hnew Hadd Hidle].
  destruct (Z.eqb_spec (events_ c) kNoneEvent) as [Hev|Hev]; cbn [andb].
  2:{ unfold Channel_remove, faults, mbind, prog_bind. rewrite (channel_at_run ch c) by done. unfold isNoneEvent.
      by rewrite (proj2 (Z.eqb_neq _ _) Hev). }
  destruct (Z.eqb_spec (index_ c) kNew) as [Hn|Hn]; cbn [negb].
  - apply wp_faults. unfold Channel_remove, removeChannel. wp_go. apply on_poller_spec. eapply channel_at_spec; [done|]. wp_go.
    apply wp_assert; [unfold isNoneEvent; by rewrite Hev|]. wp_go. apply on_poller_spec. eapply modify_channel_spec; [done|].
    wp_go. apply assertInLoopThread_spec; [done|]. wp_go. cbn. rewrite Hh. apply on_poller_spec.
    unfold EPollPoller.removeChannel. wp_go. eapply channel_at_spec; [apply lookup_insert_eq|]. wp_go. cbn.
    by rewrite (new_unlisted fds ch c l).
  - eapply wp_mono; [apply (Channel_remove_spec tid ch c); [done..|by rewrite Hh]|]. cbv beta.
    intros _ l' (p' & -> & Hwf' & Hheap & _). split; [|exact Hheap]. constructor; try done; cbn.
    + rewrite Hheap, fmap_insert. cbn. rewrite insert_id; [done|]. by rewrite lookup_fmap, Hc.
    + intros ch' c'. rewrite Hheap. intros [[<- <-]|[_ Hc']]%lookup_insert_Some; [|by apply (Hch ch')]. by constructor.
Qed.

(** What a channel asks for, as input and output, after a request; as a mask, input has the bits EPOLLIN (1) and
    EPOLLPRI (2), output EPOLLOUT (4). *)
Definition wants (w : bool * bool) (r : request) : bool * bool :=
  match r with
  | EnableReading => (true, w.2)
  | DisableReading => (false, w.2)
  | EnableWriting => (w.1, true)
  | DisableWriting => (w.1, false)
  | DisableAll => (false, false)
  end.
Definition mask_for (w : bool * bool) : Z := (if w.1 then 1 + 2 else 0) + (if w.2 then 4 else 0).

Lemma mask_of_wants r w : mask_of r (mask_for w) = mask_for (wants w r).
Proof. by destruct r, w as [[] []]. Qed.

(** What the operations [os] come to for the channel at [ch]: what it asks for, and whether the last one was a
    request. *)
Definition wants_after (ch : Z) (os : list operation) : bool * bool :=
  foldl (λ w o, match o with Request r ch' => if decide (ch' = ch) then wants w r else w | Remove _ => w end) (false, false) os.
Definition mask_after (ch : Z) (os : list operation) : Z := mask_for (wants_after ch os).
Definition listed_after (ch : Z) (os : list operation) : bool :=
  foldl (λ b o, if decide (target o = ch) then match o with Request _ _ => true | Remove _ => false end else b) false os.

(** After [past], every removal in [os] finds its channel registered and asking for nothing. *)
Definition removable (past : list operation) (o : operation) : bool :=
  match o with Request _ _ => true | Remove ch => (mask_after ch past =? kNoneEvent) && listed_after ch past end.
Fixpoint removals_ok (past os : list operation) : bool :=
  match os with [] => true | o :: os => removable past o && removals_ok (past ++ [o]) os end.

(** The loop in which [os] has been done. *)
Record after (fds : gmap Z Z) (os : list operation) (l : EventLoop F) : Prop := {
  after_typed : typed fds l;
  after_channel ch c : heap_ (poller_ l) !! ch = Some c → events_ c = mask_after ch os ∧ addedToLoop_ c = listed_after ch os
}.

Lemma after_one fds os o c l l' :
  after fds os l → typed fds l' → heap_ (poller_ l') = <[target o := c]> (heap_ (poller_ l)) →
  events_ c = mask_after (target o) (os ++ [o]) → addedToLoop_ c = listed_after (target o) (os ++ [o]) → after fds (os ++ [o]) l'.
Proof.
  intros [_ Ha] Hl' Hheap E1 E2. constructor; [done|]. intros ch c'. rewrite Hheap.
  intros [[<- <-]|[Hne Hc']]%lookup_insert_Some; [done|]. destruct (Ha _ _ Hc') as [-> ->].
  unfold mask_after, wants_after, listed_after. rewrite !foldl_app. cbn [foldl]. rewrite (decide_False (P := target o = ch)) by done.
  split; [|done]. destruct o; [|done]. cbn in Hne. by rewrite decide_False.
Qed.

Lemma operation_after fds os o l :
  after fds os l → distinct fds → is_Some (fds !! target o) →
  if removable os o then wp (run_operation o) (λ _ l', after fds (os ++ [o]) l') l
  else faults (run_operation o) AssertFailed l.
Proof.
  intros Hal Hd [fd Hfd]. pose proof Hal as [Hl Ha].
  assert (Hc : ∃ c, heap_ (poller_ l) !! target o = Some c).
  { rewrite <- (typed_fds _ _ Hl), lookup_fmap in Hfd. destruct (heap_ (poller_ l) !! target o) as [c|]; [by exists c|done]. }
  destruct Hc as [c Hc]. destruct (Ha _ _ Hc) as [Hev Hadd].
  assert (Hlast : ∀ o, listed_after (target o) (os ++ [o]) = match o with Request _ _ => true | Remove _ => false end)
    by (intros o'; unfold listed_after; rewrite foldl_app; cbn; by rewrite decide_True).
  destruct o as [r ch|ch]; cbn [run_operation target removable] in *.
  - eapply wp_mono; [by eapply request_typed|]. cbv beta. intros _ l' [Hl' Hheap].
    eapply after_one; [done|done|exact Hheap| |by rewrite Hlast]. unfold mask_after, wants_after. rewrite foldl_app. cbn.
    rewrite decide_True by done. rewrite Hev. apply mask_of_wants.
  - pose proof (remove_typed fds ch c l Hl Hd Hc) as Hr. pose proof (typed_added _ (typed_channel _ _ Hl _ _ Hc)) as Hn.
    rewrite <- Hev, <- Hadd, Hn. destruct ((_ =? _) && _); [|exact Hr].
    eapply wp_mono; [exact Hr|]. cbv beta. intros _ l' [Hl' Hheap].
    eapply after_one; [done|done|exact Hheap| |by rewrite Hlast]. unfold mask_after, wants_after. by rewrite foldl_app.
Qed.

Lemma operations_after fds past os l :
  after fds past l → distinct fds → Forall (λ o, is_Some (fds !! target o)) os →
  if removals_ok past os then wp (for_each run_operation os) (λ _ l', after fds (past ++ os) l') l
  else faults (for_each run_operation os) AssertFailed l.
Proof.
  intros Hl Hd Hos. induction Hos as [|o os Ho Hos IH] in past, l, Hl |- *; cbn [for_each removals_ok]; [by rewrite app_nil_r|].
  pose proof (operation_after fds past o l Hl Hd Ho) as H1. destruct (removable past o); cbn [andb]; [|by apply faults_bind_l].
  destruct (wp_inv H1) as ([] & l1 & Hrun & Hl1). specialize (IH _ _ Hl1). rewrite <- app_assoc in IH.
  destruct (removals_ok _ _); [|by eapply faults_bind_r]. rewrite wp_bind. unfold wpf at 1. by rewrite Hrun.
Qed.

Lemma listed_iff_added fds ch c l :
  typed fds l → distinct fds → heap_ (poller_ l) !! ch = Some c →
  hasChannel tid ch l = Ok (addedToLoop_ c, l).
Proof.
  intros Hl Hd Hc. pose proof Hl as [Hwf Ht Hh Hfds Hch].
  unfold hasChannel. rewrite (bind_ok _ _ tt l l) by by apply assertInLoopThread_run.
  unfold on_poller, EPollPoller.hasChannel. rewrite (bind_ok _ _ c (poller_ l) (poller_ l)).
  2:{ unfold channel_at, mbind, prog_bind, get. by rewrite Hc. }
  unfold mbind, prog_bind, get. cbn. rewrite (typed_added _ (Hch _ _ Hc)).
  assert (Hb : bool_decide (channels_ (poller_ l) !! fd_ c = Some ch) = negb (index_ c =? kNew)).
  { destruct (wf_index _ Hwf ch c Hc) as [Hn|[Hi Hin]].
    - rewrite Hn. apply bool_decide_eq_false_2. by rewrite (new_unlisted fds ch c l).
    - rewrite bool_decide_eq_true_2 by done. by destruct Hi as [->| ->]. }
  rewrite Hb. by destruct l.
Qed.
End registration.

(** C27: channels stay well typed.  Whatever sequence of requests and removals the loop's thread makes on channels
    with descriptors of their own: requests never fail; a removal fails, in an assertion, exactly when its channel
    still asks for something or is not registered (its last operation was not a request).  When none fails, every
    channel has the mask that its requests add up to, which asks for input, output, both or nothing; a channel that
    is not registered asks for nothing; and [addedToLoop_] says exactly whether the poller lists the channel, which
    is whether its last operation was a request, so that [Channel::~Channel] succeeds on a channel, between two
    events, exactly when the assertion commented out there would hold. *)
Theorem channels_well_typed {F} `{Epoll} tid (heap : gmap Z (Channel F)) os :
  (∀ ch c, heap !! ch = Some c → channel_typed c ∧ index_ c = kNew ∧ can_watch (fd_ c)) →
  distinct (fd_ <$> heap) → Forall (λ o, is_Some (heap !! target o)) os →
  if removals_ok [] os then
    wp (for_each (run_operation tid) os)
      (λ _ l, ∀ ch c, heap_ (poller_ l) !! ch = Some c →
         events_ c = mask_after ch os ∧ requestable (events_ c) ∧ (index_ c = kNew → events_ c = kNoneEvent) ∧
         addedToLoop_ c = listed_after ch os ∧ hasChannel tid ch l = Ok (addedToLoop_ c, l) ∧
         (Channel_dtor c = Ok tt ↔ hasChannel tid ch l = Ok (false, l)))
      (EventLoop_init tid (EPollPoller_init heap))
  else faults (for_each (run_operation tid) os) AssertFailed (EventLoop_init tid (EPollPoller_init heap)).
Proof.
  intros Hheap Hd Hos.
  assert (Hstart : after tid (fd_ <$> heap) [] (EventLoop_init tid (EPollPoller_init heap))).
  { constructor; [constructor; try done|].
    - apply poller_wf_init. intros ch c Hc. by destruct (Hheap _ _ Hc) as (_ & ? & ?).
    - intros ch c Hc. by apply (Hheap ch).
    - intros ch c Hc. destruct (Hheap _ _ Hc) as ([_ Hnew Hadd _] & Hi & _). by rewrite Hnew, Hadd, Hi. }
  pose proof (operations_after tid (fd_ <$> heap) [] os _ Hstart Hd) as Hrun. destruct (removals_ok [] os).
  - eapply wp_mono; [apply Hrun|].
    + eapply list.Forall_impl; [exact Hos|]. cbv beta. intros o [c Hc]. rewrite lookup_fmap, Hc. by eexists.
    + cbv beta. intros _ l [Hl Ha] ch c Hc. pose proof (listed_iff_added _ _ _ _ _ Hl Hd Hc) as Hhas.
      destruct (typed_channel _ _ _ Hl _ _ Hc) as [? ? ? Hidle]. destruct (Ha _ _ Hc). split_and!; [done..|]. rewrite Hhas.
      unfold Channel_dtor. rewrite Hidle. destruct (addedToLoop_ c); [|done]. split; [done|]. by intros [=].
  - apply Hrun. eapply list.Forall_impl; [exact Hos|]. cbv beta. intros o [c Hc]. rewrite lookup_fmap, Hc. by eexists.
Qed.

#[local] Existing Instance map_epoll.

(** Two channels: one is requested, silenced, removed and requested again; the removal of the other would fail. *)
Definition two_channels : gmap Z (Channel Z) := {[ 100 := Channel_init 7; 200 := Channel_init 8 ]}.
Definition example_operations : list operation :=
  [Request EnableReading 100; Request EnableWriting 200; Request DisableAll 100; Remove 100; Request EnableWriting 100].

Lemma two_channels_typed ch c : two_channels !! ch = Some c → channel_typed c ∧ index_ c = kNew ∧ can_watch (fd_ c).
Proof.
  unfold two_channels. intros [[_ <-]|[_ [_ <-]%lookup_singleton_Some]]%lookup_insert_Some; (split; [constructor; try done; by left|done]).
Qed.
Lemma two_channels_distinct : distinct (fd_ <$> two_channels).
Proof.
  intros ch ch' fd Hc Hc'. unfold two_channels in *. rewrite fmap_insert, map_fmap_singleton in Hc, Hc'.
  apply lookup_insert_Some in Hc as [[<- <-]|[_ Hc]]; apply lookup_insert_Some in Hc' as [[<- E]|[_ Hc']];
    try (apply lookup_singleton_Some in Hc as [<- <-]); try (apply lookup_singleton_Some in Hc' as [<- E']); done.
Qed.

Lemma channels_well_typed_witness :
  wp (for_each (run_operation 1) example_operations)
    (λ _ l, ∀ ch c, heap_ (poller_ l) !! ch = Some c → events_ c = mask_after ch example_operations)
    (EventLoop_init 1 (EPollPoller_init two_channels)) ∧
  faults (for_each (run_operation 1) (example_operations ++ [Remove 200])) AssertFailed (EventLoop_init 1 (EPollPoller_init two_channels)).
Proof.
  split.
  - eapply wp_mono; [apply (channels_well_typed 1 two_channels example_operations two_channels_typed two_channels_distinct)|].
    + repeat (constructor; [by eexists|]). constructor.
    + cbv beta. intros _ l Hl ch c Hc. by apply (Hl ch c).
  - apply (channels_well_typed 1 two_channels (example_operations ++ [Remove 200]) two_channels_typed two_channels_distinct).
    repeat (constructor; [by eexists|]). constructor.
Defined.
