(* ===== verification/TimerLoop.v ===== *)
(** * TimerLoop: an [EventLoop] with its [TimerQueue]

    A loop owns two channels, one of its eventfd and one of its queue's timerfd, and a queue of functors
    in which other threads' [runAt], [runAfter], [runEvery] and [cancelTimer] wait.  This file puts the
    models of EventLoop.v and TimerQueue.v together: construction, calls from any thread, iterations and
    destruction.  [addTimer] of another thread is two steps: the timer is handed over, and later read again. *)
From S2P Require Import Prelude Double Timestamp StdSet Channel EPollPoller EventLoop TimerQueue.

(** What the loop's functors and callbacks are bound to. *)
Inductive functor : Type :=
| FTimer (f : TimerQueue.functor)      (** [addTimerInLoop], [cancelInLoop] *)
| FUser (calls : list action)          (** a user's functor, by the calls it makes to the timers *)
| FHandleTimer                         (** [TimerQueue::handleRead] *)
| FWakeup.                             (** [EventLoop::handleRead] *)

Section timer_loop.
Context `{Epoll} `{TimeKernel}.

(** [rounds_]: of the rounds of expirations to come, whether the timerfd has expired, and what each
    callback that runs does. *)
Record World : Type := mkWorld {
  loop_ : EventLoop functor;
  queue_ : TimerQueue;
  rounds_ : list (bool * list (list action))
}.

Definition set_loop_ l w := mkWorld l (queue_ w) (rounds_ w).
Definition set_queue q w := mkWorld (loop_ w) q (rounds_ w).
Definition set_rounds rs w := mkWorld (loop_ w) (queue_ w) rs.

#[export, refine] Instance world_loop : HasLoop functor World := {|
  loop_of := loop_;
  set_loop := set_loop_
|}.
Proof. all: by intros; try destruct w. Defined.

Definition on_queue {A} (m : prog TimerQueue A) : prog World A := λ w,
  match m (queue_ w) with
  | Ok (a, q) => Ok (a, set_queue q w)
  | Fault f => Fault f
  end.

(** [tid] is the loop's thread, [other] another one; [tch] and [wch] are the addresses of the two channels,
    [tfd] and [wfd] their descriptors. *)
Context (tid other tch wch tfd wfd : Z).

(** ** The loop's handlers *)

(** [TimerQueue::handleRead]. *)
Definition handleTimer : prog World () :=
  on_loop (assertInLoopThread tid) ;;
  w ← get;
  let '(fired, scripts) := match rounds_ w with r :: _ => r | [] => (false, []) end in
  put (set_rounds (tail (rounds_ w)) w) ;;
  on_queue (TimerQueue.handleRead fired scripts).

Definition exec (f : functor) : prog World () :=
  match f with
  | FTimer f => on_queue (run_functor f)
  | FUser calls => on_queue (for_each (run_action true) calls)
  | FHandleTimer => handleTimer
  | FWakeup => on_loop EventLoop.handleRead
  end.

Definition exec_read (f : functor) (_ : Timestamp) : prog World () := exec f.

(** ** Calls from any thread *)

Definition runInLoop (t : Z) (f : functor) : prog World () := EventLoop.runInLoop exec t f.

(** [TimerQueue::addTimer]; its last step reads the timer it has handed over. *)
Definition addTimer_start (t : Z) (cb : TimerCallback) (when : Timestamp) (interval : double) (addr : Z) : prog World Z :=
  timer ← on_queue (new_timer cb when interval addr);
  runInLoop t (FTimer (AddTimerInLoop timer)) ;;
  mret timer.

Definition addTimer_return (timer : Z) : prog World TimerId := on_queue (TimerQueue.addTimer_return timer).

Definition addTimer (t : Z) (cb : TimerCallback) (when : Timestamp) (interval : double) (addr : Z) : prog World TimerId :=
  timer ← addTimer_start t cb when interval addr;
  addTimer_return timer.

Definition cancel (t : Z) (timerId : TimerId) : prog World () := runInLoop t (FTimer (CancelInLoop timerId)).

Definition call (t : Z) (a : action) : prog World () :=
  match a with
  | AddTimer cb when interval addr => addTimer t cb when interval addr ;; mret tt
  | Cancel timerId => cancel t timerId
  end.

(** ** Construction and destruction *)

(** The results of [timerfd_create] and [eventfd]: without a descriptor the process ends. *)
Definition createTimerfd (ret : Z) : outcome Z := if ret <? 0 then Fault ProcessAborted else Ok ret.
Definition createEventfd (ret : Z) : outcome Z := if ret <? 0 then Fault ProcessAborted else Ok ret.

(** [TimerQueue::TimerQueue] and [~TimerQueue]; the channel is destroyed after the body. *)
Definition TimerQueue_ctor : prog World () :=
  lift (createTimerfd tfd) ;;
  on_loop (on_poller (modify_channel tch (setReadCallback (Some FHandleTimer)))) ;;
  on_loop (enableReading tid tch).

Definition destroy_channel (ch : Z) : prog World () :=
  c ← on_loop (on_poller (channel_at ch));
  lift (Channel_dtor c) ;;
  on_loop (on_poller (modify (λ p, EPollPoller.set_heap (delete ch (EPollPoller.heap_ p)) p))).

Definition TimerQueue_dtor : prog World () :=
  on_loop (disableAll tid tch) ;;
  on_loop (Channel_remove tid tch) ;;
  on_queue TimerQueue.TimerQueue_dtor ;;
  destroy_channel tch.

(** The members [threadId_] and [poller_] are set before [timerQueue_], which is constructed before and
    destroyed after [wakeupChannel_]. *)
Definition EventLoop_ctor : prog World () :=
  TimerQueue_ctor ;;
  lift (createEventfd wfd) ;;
  on_loop (EventLoop.EventLoop_ctor tid wch FWakeup).

Definition EventLoop_dtor : prog World () :=
  on_loop (EventLoop.EventLoop_dtor tid wch) ;;
  destroy_channel wch ;;
  TimerQueue_dtor.

Definition world_init (rounds : list (bool * list (list action))) : World :=
  mkWorld (EventLoop_init tid (EPollPoller_init {[ tch := Channel_init tfd; wch := Channel_init wfd ]}))
    TimerQueue_init rounds.

(** ** What happens to a loop

    Between two iterations, or while the loop polls, any thread makes a call or queues a functor; an
    iteration finds ready what the kernel reports. *)
Inductive step : Type :=
| Call (t : Z) (a : action)
| Start (t : Z) (cb : TimerCallback) (when : Timestamp) (interval : double) (addr : Z)
                          (** another thread's [addTimer] hands its timer over *)
| Return (timer : Z)      (** and reads its sequence number *)
| Queue (t : Z) (calls : list action)
| Poll (reports : list (Z * Z)) (t : Timestamp).

Definition run_step (s : step) : prog World () :=
  match s with
  | Call t a => call t a
  | Start t cb when interval addr => addTimer_start t cb when interval addr ;; mret tt
  | Return timer => addTimer_return timer ;; mret tt
  | Queue t calls => on_loop (queueInLoop t (FUser calls))
  | Poll reports t =>
      iteration (λ _ _, true) exec exec_read other (mkPollInput [] false (Some reports) t)
  end.

(** A loop from its construction to its destruction. *)
Definition lifetime (steps : list step) : prog World () :=
  EventLoop_ctor ;; for_each run_step steps ;; EventLoop_dtor.

(** ** The queue's side

    The timers of the functors in the loop's queue are not the timer queue's yet. *)

Definition timer_functors (fs : list functor) : list TimerQueue.functor :=
  omap (λ f, match f with FTimer f => Some f | _ => None end) fs.
Definition adds (fs : list functor) : list Z := pending_adds (timer_functors fs).

(** What waits in the loop's queue. *)
Definition functor_ok (f : functor) : Prop :=
  match f with FTimer _ => True | FUser calls => Forall action_ok calls | _ => False end.

Record queue_inv (o : list Z) (w : World) : Prop := {
  q_inv : TimerQueue.inv o (queue_ w);
  q_armed : armed (queue_ w);
  q_calling : callingExpiredTimers_ (queue_ w) = false;
  q_rounds : Forall (λ r, Forall (Forall action_ok) r.2) (rounds_ w)
}.

Lemma adds_app fs1 fs2 : adds (fs1 ++ fs2) = adds fs1 ++ adds fs2.
Proof. unfold adds, timer_functors. by rewrite omap_app, pending_adds_app. Qed.

Context {E : fault → Prop} (HE : E BadAlloc).

Lemma on_queue_spec {A} (m : prog TimerQueue A) (Q : A → World → Prop) w :
  wpf E m (λ a q, Q a (set_queue q w)) (queue_ w) → wpf E (on_queue m) Q w.
Proof. unfold wpf, on_queue. by destruct (m (queue_ w)) as [[]|]. Qed.

(** A call that the loop's thread makes is the queue's own call. *)
Lemma call_in_loop a w : threadId_ (loop_ w) = tid → call tid a w = on_queue (run_action true a) w.
Proof.
  intros Ht. assert (Hrun : ∀ f w1, threadId_ (loop_ w1) = tid → runInLoop tid f w1 = exec f w1).
  { intros f w1 Ht1. unfold runInLoop, EventLoop.runInLoop, mbind, prog_bind, get, isInLoopThread. cbn.
    by rewrite Ht1, Z.eqb_refl. }
  destruct a as [cb when interval addr|id]; cbn [call run_action].
  - unfold addTimer, addTimer_start, addTimer_return, TimerQueue.addTimer, TimerQueue.addTimer_start, mbind, prog_bind, on_queue.
    destruct (new_timer cb when interval addr (queue_ w)) as [[a q]|] eqn:Hnew; [|done].
    rewrite (Hrun _ (set_queue q w)) by done. cbn. unfold on_queue. cbn.
    destruct (addTimerInLoop a q) as [[[] q']|]; [|done]. cbn. by destruct (TimerQueue.addTimer_return a q') as [[]|].
  - unfold cancel. rewrite Hrun by done. cbn. unfold on_queue. cbn. by destruct (cancelInLoop id (queue_ w)) as [[[] q]|].
Qed.

Lemma called_queue_inv o acts q' w :
  queue_inv o w → called o acts (queue_ w) q' → queue_inv o (set_queue q' w).
Proof.
  intros [Hi Ha Hc Hr] [Hi' Hk _ _ _]. constructor; cbn; [done|by apply (keeps_armed _ _ _ Hk)| |done].
  by rewrite (keeps_calling _ _ _ Hk).
Qed.

Lemma exec_functor f o w :
  queue_inv (adds [f] ++ o) w → functor_ok f →
  wpf E (exec f) (λ _ w', loop_ w' = loop_ w ∧ queue_inv o w') w.
Proof.
  intros Hq Hf. destruct f as [[a|id]|calls| |]; try done; cbn [exec]; apply on_queue_spec.
  - destruct Hq as [Hi Ha Hc Hr]. eapply wp_mono; [by apply (addTimerInLoop_spec o)|]. cbv beta.
    intros _ q' (t & _ & Hi' & Hk & _). split; [done|]. constructor; cbn; [done|by apply (keeps_armed _ _ _ Hk)| |done].
    by rewrite (keeps_calling _ _ _ Hk).
  - destruct Hq as [Hi Ha Hc Hr]. eapply wp_mono; [by apply (cancelInLoop_spec o)|]. cbv beta.
    intros _ q' (Hi' & Hk & _). split; [done|]. constructor; cbn; [done|by apply (keeps_armed _ _ _ Hk)| |done].
    by rewrite (keeps_calling _ _ _ Hk).
  - eapply wp_mono; [apply (run_actions_spec HE o); [apply Hq|done]|]. cbv beta.
    intros _ q' Hcd. split; [done|]. by eapply called_queue_inv.
Qed.

(** A round of expirations. *)
Lemma handleTimer_spec o w :
  queue_inv o w → threadId_ (loop_ w) = tid →
  wpf E handleTimer
    (λ _ w', loop_ w' = loop_ w ∧ queue_inv o w' ∧ rounds_ w' = tail (rounds_ w) ∧
       ∃ acts, acts = concat (with_scripts (due (clock (calls_ (queue_ w))) (queue_ w))
                                (match rounds_ w with r :: _ => r.2 | [] => [] end)).*2 ∧
         round_post o (clock (calls_ (queue_ w))) acts (queue_ w) (queue_ w')) w.
Proof.
  intros [Hi Ha Hc Hr] Ht. unfold handleTimer. wp_go. apply on_loop_spec, assertInLoopThread_spec; [done|].
  rewrite set_loop_of. wp_go. set (scripts := match rounds_ w with r :: _ => r.2 | [] => [] end).
  assert (Hs : Forall (Forall action_ok) scripts) by (unfold scripts; by destruct Hr).
  assert (Ht' : Forall (λ r, Forall (Forall action_ok) r.2) (tail (rounds_ w))) by by destruct Hr.
  assert (Hgo : ∀ fired, wpf E (on_queue (TimerQueue.handleRead fired scripts))
    (λ _ w', loop_ w' = loop_ w ∧ queue_inv o w' ∧ rounds_ w' = tail (rounds_ w) ∧
       ∃ acts, acts = concat (with_scripts (due (clock (calls_ (queue_ w))) (queue_ w)) scripts).*2 ∧
         round_post o (clock (calls_ (queue_ w))) acts (queue_ w) (queue_ w')) (set_rounds (tail (rounds_ w)) w)).
  { intros fired. apply on_queue_spec. cbn. eapply wp_mono; [by apply (handleRead_spec HE o)|]. cbv beta.
    intros _ q' Hpost. split; [done|]. split; [|split; [done|by eexists]].
    destruct Hpost as (? & ? & ? & _). by constructor. }
  unfold scripts in *. destruct (rounds_ w) as [|[fired s] rs]; wp_go; apply Hgo.
Qed.

(** A batch of functors. *)
Lemma exec_functors fs o w :
  queue_inv (adds fs ++ o) w → Forall functor_ok fs →
  wpf E (for_each exec fs) (λ _ w', loop_ w' = loop_ w ∧ queue_inv o w') w.
Proof.
  intros Hq Hf. induction Hf as [|f fs Hf Hfs IH] in w, Hq |- *; cbn [for_each]; [done|]. wp_go.
  change (f :: fs) with ([f] ++ fs) in Hq. rewrite adds_app, <- app_assoc in Hq.
  eapply wp_mono; [by apply exec_functor|]. cbv beta. intros _ w1 [El H1].
  eapply wp_mono; [by apply IH|]. cbv beta. intros _ w2 [El2 H2]. split; [congruence|done].
Qed.

(** ** The poller's side *)

(** A channel of the loop that is watched for input. *)
Record watching (f : functor) (fd : Z) (c : Channel functor) : Prop := {
  ch_fd : fd_ c = fd;
  ch_events : events_ c = kReadEvent;
  ch_index : index_ c = kAdded;
  ch_added : addedToLoop_ c = true;
  ch_tied : tied_ c = false;
  ch_handling : Channel.eventHandling_ c = false;
  ch_read : readCallback_ c = Some f;
  ch_write : writeCallback_ c = None;
  ch_close : closeCallback_ c = None;
  ch_error : errorCallback_ c = None
}.

Record io (p : EPollPoller functor) : Prop := {
  io_wf : poller_wf p;
  io_dom ch c : EPollPoller.heap_ p !! ch = Some c → ch = tch ∨ ch = wch;
  io_timer : ∃ c, EPollPoller.heap_ p !! tch = Some c ∧ watching FHandleTimer tfd c;
  io_wakeup : ∃ c, EPollPoller.heap_ p !! wch = Some c ∧ watching FWakeup wfd c
}.

Lemma io_at p ch : io p → ch = tch ∨ ch = wch →
  ∃ f fd c, EPollPoller.heap_ p !! ch = Some c ∧ watching f fd c ∧ (ch = tch → f = FHandleTimer) ∧
    (f = FHandleTimer ∨ f = FWakeup).
Proof.
  intros [_ _ (ct & Ht & Hct) (cw & Hw & Hcw)] [->| ->].
  - exists FHandleTimer, tfd, ct. split_and!; [done|done|done|by left].
  - destruct (decide (wch = tch)) as [->|]; [exists FHandleTimer, tfd, ct; split_and!; [done|done|done|by left]|].
    exists FWakeup, wfd, cw. split_and!; [done|done|by intros ->|by right].
Qed.

(** The constructor's steps for one channel. *)
Lemma watch_channel ch f fd l :
  poller_wf (poller_ l) → threadId_ l = tid → EPollPoller.heap_ (poller_ l) !! ch = Some (Channel_init fd) →
  channels_ (poller_ l) !! fd = None →
  wpf E (on_poller (modify_channel ch (setReadCallback (Some f))) ;; enableReading tid ch)
    (λ _ l', ∃ p' c, l' = set_poller p' l ∧ poller_wf p' ∧ watching f fd c ∧
       EPollPoller.heap_ p' = <[ch := c]> (EPollPoller.heap_ (poller_ l)) ∧
       channels_ p' = <[fd := ch]> (channels_ (poller_ l))) l.
Proof.
  intros Hp Ht Hc Hnone. wp_go. apply on_poller_spec. eapply modify_channel_spec; [done|].
  set (c1 := setReadCallback (Some f) (Channel_init fd)). set (l1 := set_poller _ l).
  eapply wp_mono; [apply (change_events_spec _ tid ch c1 l1)|].
  - by eapply poller_wf_touch.
  - done.
  - apply lookup_insert_eq.
  - done.
  - cbv beta. intros _ l' (p' & -> & Hwf & Hh & Hch & _).
    exists p', (registered (set_addedToLoop true c1) (enableReading_mask (events_ c1))).
    split_and!; [done|done|by constructor| |done]. rewrite Hh. cbn. by rewrite insert_insert_eq.
Qed.

(** The destructor's steps for one channel. *)
Lemma unwatch_channel ch f fd c l :
  poller_wf (poller_ l) → threadId_ l = tid → EventLoop.eventHandling_ l = false →
  EPollPoller.heap_ (poller_ l) !! ch = Some c → watching f fd c →
  wpf E (disableAll tid ch ;; Channel_remove tid ch)
    (λ _ l', ∃ p' c', l' = set_poller p' l ∧ poller_wf p' ∧ index_ c' = kNew ∧ Channel_dtor c' = Ok tt ∧
       EPollPoller.heap_ p' = <[ch := c']> (EPollPoller.heap_ (poller_ l))) l.
Proof.
  intros Hp Ht Hh Hc Hw. pose proof Hw as []. wp_go.
  eapply wp_mono; [by apply (change_events_spec _ tid ch c l); rewrite ?ch_index0|]. cbv beta.
  intros _ l1 (p1 & -> & Hwf1 & Hh1 & _). set (c1 := registered _ _) in Hh1.
  eapply wp_mono; [apply (Channel_remove_spec tid ch c1)|].
  - done.
  - done.
  - cbn. rewrite Hh1. apply lookup_insert_eq.
  - done.
  - cbn. unfold next_index. by rewrite ch_index0.
  - cbn. by rewrite Hh.
  - cbv beta. intros _ l2 (p2 & -> & Hwf2 & Hh2 & _). exists p2, (set_index kNew (set_addedToLoop false c1)).
    split_and!; [done|done|done| |].
    + unfold Channel_dtor. cbn. by rewrite ch_handling0.
    + cbn in Hh2. rewrite Hh2, Hh1, insert_insert_eq. done.
Qed.

(** A channel that is not registered can be destroyed. *)
Lemma poller_wf_forget (p : EPollPoller functor) ch c :
  poller_wf p → EPollPoller.heap_ p !! ch = Some c → index_ c = kNew →
  poller_wf (EPollPoller.set_heap (delete ch (EPollPoller.heap_ p)) p).
Proof.
  intros [W1 W2 W3 W4 W5] Hc Hi.
  assert (Hne : ∀ ch' c', EPollPoller.heap_ p !! ch' = Some c' → index_ c' ≠ kNew → ch ≠ ch') by (intros ch' c' ? ? ->; congruence).
  constructor; cbn.
  - intros fd ch' Hin. destruct (W1 fd ch' Hin) as (c' & Hc' & Hfd & Hi'). exists c'.
    rewrite lookup_delete_ne; [done|]. eapply Hne; [done|]. by destruct Hi' as [->| ->].
  - intros ch' c' [_ Hc']%lookup_delete_Some. by apply (W2 ch').
  - intros fd ch' ev. rewrite W3. split; intros (c' & Hc' & Hr).
    + exists c'. rewrite lookup_delete_ne; [done|]. eapply Hne; [done|]. by destruct Hr as (_ & -> & _).
    + apply lookup_delete_Some in Hc' as [_ Hc']. by exists c'.
  - intros ch' c' [_ Hc']%lookup_delete_Some. by apply (W4 ch').
  - intros ch' c' [_ Hc']%lookup_delete_Some. by apply (W5 ch').
Qed.

Lemma destroy_channel_spec ch c w :
  poller_wf (poller_ (loop_ w)) → EPollPoller.heap_ (poller_ (loop_ w)) !! ch = Some c → index_ c = kNew →
  Channel_dtor c = Ok tt →
  wpf E (destroy_channel ch)
    (λ _ w', ∃ p', w' = set_loop_ (set_poller p' (loop_ w)) w ∧ poller_wf p' ∧
       EPollPoller.heap_ p' = delete ch (EPollPoller.heap_ (poller_ (loop_ w)))) w.
Proof.
  intros Hp Hc Hi Hd. unfold destroy_channel. wp_go. apply on_loop_spec, on_poller_spec.
  eapply channel_at_spec; [done|]. wp_go. eapply wp_lift; [done|]. apply on_loop_spec, on_poller_spec. wp_go.
  eexists. split_and!; [done|by eapply poller_wf_forget|done].
Qed.

(** ** One iteration *)

(** The loop's side between two steps: [it] iterations so far. *)
Record loop_inv (it : Z) (l : EventLoop functor) : Prop := {
  l_io : io (poller_ l);
  l_thread : threadId_ l = tid;
  l_handling : EventLoop.eventHandling_ l = false;
  l_iteration : iteration_ l = it;
  l_functors : Forall functor_ok (EventLoop.pendingFunctors_ l)
}.

Definition inv (it : Z) (w : World) : Prop :=
  loop_inv it (loop_ w) ∧ queue_inv (adds (EventLoop.pendingFunctors_ (loop_ w))) w.

Definition ready (revents : Z) : bool := has revents (Z.lor (Z.lor EPOLLIN EPOLLPRI) EPOLLRDHUP).

(** The world after the channel at [ch] became [c]. *)
Definition touch ch (c : Channel functor) (l : EventLoop functor) : EventLoop functor :=
  set_poller (EPollPoller.set_heap (<[ch := c]> (EPollPoller.heap_ (poller_ l))) (poller_ l)) l.

Lemma channel_at_world ch c (Q : Channel functor → World → Prop) w :
  EPollPoller.heap_ (poller_ (loop_ w)) !! ch = Some c → Q c w → wpf E (on_loop (on_poller (channel_at ch))) Q w.
Proof.
  intros Hc HQ. unfold wpf, on_loop, on_poller, channel_at, mbind, prog_bind, get. cbn. rewrite Hc. cbn.
  by destruct w as [[] ? ?].
Qed.

Lemma modify_channel_world ch c f (Q : () → World → Prop) w :
  EPollPoller.heap_ (poller_ (loop_ w)) !! ch = Some c → Q tt (set_loop_ (touch ch (f c) (loop_ w)) w) →
  wpf E (on_loop (on_poller (modify_channel ch f))) Q w.
Proof. intros Hc HQ. apply on_loop_spec, on_poller_spec. by eapply modify_channel_spec. Qed.

Lemma touch_back ch c c' n l :
  EPollPoller.heap_ (poller_ l) !! ch = Some c →
  touch ch c (set_wakeups n (touch ch c' l)) = set_wakeups n l.
Proof.
  intros Hc. unfold touch. cbn. rewrite insert_insert_eq, insert_id by done. by destruct l as [? ? ? ? ? ? ? [] ? ? ? ?].
Qed.

(** The handlers of the loop's channels read; what they do leaves the loop as it is, the count of
    wakeups apart. *)
Lemma handle_active_spec ch c f fd (R : World → Prop) w :
  EPollPoller.heap_ (poller_ (loop_ w)) !! ch = Some c → watching f fd c →
  (∀ l w', R w' → R (set_loop_ l w')) →
  (∀ w1, queue_ w1 = queue_ w → rounds_ w1 = rounds_ w → threadId_ (loop_ w1) = threadId_ (loop_ w) →
     wpf E (exec f) (λ _ w2, (∃ n, loop_ w2 = set_wakeups n (loop_ w1)) ∧ R w2) w1) →
  (ready (revents_ c) = false → R w) →
  wpf E (handle_active (λ _ _, true) exec exec_read ch)
    (λ _ w', (∃ n, loop_ w' = set_wakeups n (set_current (Some ch) (loop_ w))) ∧ R w') w.
Proof.
  intros Hc Hwatch HR Hexec Hidle. pose proof Hwatch as []. unfold handle_active. wp_go. apply on_loop_spec. wp_go.
  cbn [set_loop world_loop loop_of]. set (l0 := set_current (Some ch) (loop_ w)).
  unfold handleEvent. rewrite wp_bind. eapply channel_at_world; [exact Hc|]. wp_go. rewrite ch_tied0.
  unfold handleEventWithGuard. wp_go. eapply modify_channel_world; [exact Hc|].
  set (c1 := Channel.set_eventHandling true c). cbn [loop_ set_loop_]. set (w1 := set_loop_ _ _).
  assert (H1 : EPollPoller.heap_ (poller_ (loop_ w1)) !! ch = Some c1) by apply lookup_insert_eq.
  wp_go. eapply channel_at_world; [exact H1|]. change (closeCallback_ c1) with (closeCallback_ c). rewrite ch_close0.
  assert (Hskip : ∀ b (Q : () → World → Prop) w', Q tt w' → wpf E (when_ b (mret tt)) Q w') by by intros [].
  change (call_if exec None) with (mret tt : prog World ()).
  rewrite wp_bind. apply Hskip. rewrite wp_bind. eapply channel_at_world; [exact H1|].
  change (errorCallback_ c1) with (errorCallback_ c). rewrite ch_error0. change (call_if exec None) with (mret tt : prog World ()).
  rewrite wp_bind. apply Hskip. rewrite wp_bind. eapply channel_at_world; [exact H1|].
  change (readCallback_ c1) with (readCallback_ c). rewrite ch_read0. fold (ready (revents_ c1)).
  change (revents_ c1) with (revents_ c). rewrite wp_bind.
  eapply (wp_mono _ (λ _ w2, (∃ n, loop_ w2 = set_wakeups n (loop_ w1)) ∧ R w2)).
  - rewrite wp_when. destruct (ready (revents_ c)); [by apply Hexec|].
    split; [|by apply HR, HR, Hidle]. exists (wakeups_ (loop_ w)). by destruct w as [[] ? ?].
  - cbv beta. intros _ w2 [[n Hl] H2].
    assert (Hc2 : EPollPoller.heap_ (poller_ (loop_ w2)) !! ch = Some c1) by (rewrite Hl; exact H1).
    rewrite wp_bind. eapply channel_at_world; [exact Hc2|]. change (writeCallback_ c1) with (writeCallback_ c).
    rewrite ch_write0. change (call_if exec None) with (mret tt : prog World ()). rewrite wp_bind. apply Hskip.
    eapply modify_channel_world; [exact Hc2|]. split; [|by apply HR]. exists n. cbn [loop_ set_loop_].
    assert (Hback : Channel.set_eventHandling false c1 = c) by (destruct c; cbn in *; by subst).
    rewrite Hback, Hl. exact (touch_back ch c c1 n l0 Hc).
Qed.

Lemma queue_inv_ext o w w' :
  queue_inv o w → queue_ w' = queue_ w → rounds_ w' = rounds_ w → queue_inv o w'.
Proof. intros [] Hq Hr. constructor; by rewrite ?Hq, ?Hr. Qed.

Lemma io_size n p : io p → io (set_eventsSize n p).
Proof. intros [[W1 W2 W3 W4 W5] Hdom Ht Hw]. constructor; [by constructor|done..]. Qed.

Lemma poll_io reports p :
  io p → Forall (λ x : Z * Z, x.1 = tch ∨ x.1 = wch) reports →
  wpf E (poll (Some reports)) (λ active p', active = reports.*1 ∧ io p') p.
Proof.
  intros Hp Hr. destruct reports as [|r0 reports0] eqn:E0; [done|]. cbn [poll]. rewrite <- E0 in Hr |- *. clear r0 reports0 E0.
  wp_go. eapply wp_mono; [apply fillActiveChannels_spec; [apply Hp|]|].
  - intros ch revents Hin. rewrite list.Forall_forall in Hr. specialize (Hr _ Hin).
    destruct (io_at _ _ Hp Hr) as (f & fd & c & Hc & Hw & _). exists fd, (events_ c).
    apply (wf_interest _ (io_wf _ Hp)). exists c. split_and!; [done|apply Hw|apply Hw|done].
  - cbv beta. intros active p1 (-> & Hwf & _ & _ & _ & Hback & Hfwd). wp_go.
    assert (Hsame : ∀ f fd c r, watching f fd c → watching f fd (set_revents r c)) by (by intros f fd c r []).
    assert (Hio : io p1).
    { destruct Hp as [_ Hdom (ct & Ht & Hct) (cw & Hcw & Hw)]. constructor; [done| | |].
      - intros ch c' (c & Hc & _)%Hback. by eapply Hdom.
      - destruct (Hfwd _ _ Ht) as [r Hr']. eexists. split; [exact Hr'|by apply Hsame].
      - destruct (Hfwd _ _ Hcw) as [r Hr']. eexists. split; [exact Hr'|by apply Hsame]. }
    split; [done|]. destruct (zlen reports =? eventsSize_ p1); [by apply io_size|done].
Qed.

(** The handlers of an iteration. *)
Lemma handlers_spec active o l0 w :
  io (poller_ l0) → threadId_ l0 = tid → Forall (λ ch, ch = tch ∨ ch = wch) active →
  loop_ w = l0 → queue_inv o w →
  wpf E (for_each (handle_active (λ _ _, true) exec exec_read) active)
    (λ _ w', (∃ n cur, loop_ w' = set_wakeups n (set_current cur l0)) ∧ queue_inv o w') w.
Proof.
  intros Hio Ht Hact Hl Hq. induction Hact as [|ch active Hch Hact IH] in w, Hl, Hq, l0, Hio, Ht |- *; cbn [for_each].
  { split; [|done]. exists (wakeups_ l0), (currentActiveChannel_ l0). by destruct l0. }
  subst l0. destruct (io_at _ _ Hio Hch) as (f & fd & c & Hc & Hw & _ & Hf). wp_go.
  eapply wp_mono; [apply (handle_active_spec ch c f fd (queue_inv o)); [done|done| | |done]|].
  - intros l w' Hw'. by eapply queue_inv_ext.
  - intros w1 E1 E2 E3. assert (Hq1 : queue_inv o w1) by by eapply queue_inv_ext.
    destruct Hf as [->| ->]; cbn [exec].
    + eapply wp_mono; [apply (handleTimer_spec o); [done|by rewrite E3]|]. cbv beta. intros _ w2 (El & Hq2 & _).
      split; [|done]. exists (wakeups_ (loop_ w1)). rewrite El. by destruct (loop_ w1).
    + apply on_loop_spec. unfold EventLoop.handleRead. wp_go. split; [by exists 0|by eapply queue_inv_ext].
  - cbv beta. intros _ w1 [[n Hl1] Hq1].
    eapply wp_mono; [apply (IH (loop_ w1)); [by rewrite Hl1|by rewrite Hl1|done|done]|]. cbv beta.
    intros _ w2 [(n' & cur & Hl2) Hq2]. split; [|done]. exists n', cur. by rewrite Hl2, Hl1.
Qed.

(** The functors of an iteration. *)
Lemma pending_spec it w :
  inv it w → wpf E (doPendingFunctors exec) (λ _ w', inv it w') w.
Proof.
  intros [[Hio Ht Hh Hi Hf] Hq]. unfold doPendingFunctors. wp_go. repeat (apply on_loop_spec; wp_go).
  eapply wp_mono; [apply (exec_functors _ []); [|done]|].
  - rewrite app_nil_r. by eapply queue_inv_ext.
  - cbv beta. intros _ w1 [Hl Hq1]. apply on_loop_spec. wp_go. split.
    + by constructor; cbn; rewrite Hl.
    + cbn. rewrite Hl. by eapply queue_inv_ext.
Qed.

Lemma Poll_spec reports t it w :
  inv it w → 0 ≤ it < 2 ^ 62 → Forall (λ x : Z * Z, x.1 = tch ∨ x.1 = wch) reports →
  wpf E (run_step (Poll reports t)) (λ _ w', inv (it + 1) w') w.
Proof.
  intros [[Hio Ht Hh Hi Hf] Hq] Hit Hr. cbn [run_step]. unfold iteration, arrivals.
  cbn [arrived quit_requested answer returned_at for_each when_].
  rewrite wp_bind. apply on_loop_spec. rewrite wp_modify. cbv beta. rewrite wp_bind. apply on_loop_spec. wp_go.
  apply on_loop_spec, on_poller_spec. eapply wp_mono; [by apply poll_io|]. cbv beta. intros active p1 [-> Hio1].
  cbn [set_loop world_loop loop_of]. apply (prepare_spec _ _ _ it); [done|done|].
  rewrite wp_bind. set (w1 := set_loop _ _). set (l1 := loop_ w1).
  eapply wp_mono; [apply (handlers_spec _ (adds (EventLoop.pendingFunctors_ (loop_ w))) l1)|].
  - done.
  - done.
  - by apply list.Forall_fmap.
  - done.
  - by eapply queue_inv_ext.
  - cbv beta. intros _ w2 [(n & cur & Hl2) Hq2]. wp_go. apply on_loop_spec. wp_go. apply on_loop_spec. wp_go.
    apply pending_spec. split; cbn [loop_ loop_of set_loop world_loop set_loop_]; rewrite Hl2; [|by eapply queue_inv_ext].
    by constructor.
Qed.

(** ** Calls *)

(** A functor is queued, with the timer it brings. *)
Lemma queue_step t f it w :
  loop_inv it (loop_ w) → queue_inv (adds (EventLoop.pendingFunctors_ (loop_ w)) ++ adds [f]) w → functor_ok f →
  wpf E (on_loop (queueInLoop t f))
    (λ _ w', inv it w' ∧ queue_ w' = queue_ w ∧
       EventLoop.pendingFunctors_ (loop_ w') = EventLoop.pendingFunctors_ (loop_ w) ++ [f]) w.
Proof.
  intros [Hio Ht Hh Hi Hf] Hq Hok. apply on_loop_spec, queueInLoop_spec. intros n _. split; [|done]. split.
  - constructor; try done. cbn. rewrite list.Forall_app. by split; [|constructor].
  - cbn [loop_ loop_of set_loop world_loop set_loop_ set_wakeups EventLoop.set_pending EventLoop.pendingFunctors_]. rewrite adds_app. by eapply queue_inv_ext.
Qed.

Lemma run_elsewhere t f w : threadId_ (loop_ w) = tid → t ≠ tid → runInLoop t f w = on_loop (queueInLoop t f) w.
Proof.
  intros Ht Hne. unfold runInLoop, EventLoop.runInLoop, mbind, prog_bind, get, isInLoopThread. cbn.
  by rewrite Ht, (proj2 (Z.eqb_neq tid t)) by congruence.
Qed.

Lemma queued_elsewhere t f w (Q : () → World → Prop) :
  threadId_ (loop_ w) = tid → t ≠ tid → wpf E (on_loop (queueInLoop t f)) Q w → wpf E (runInLoop t f) Q w.
Proof. intros Ht Hne. unfold wpf. by rewrite run_elsewhere. Qed.

(** Another thread hands a timer over. *)
Lemma handed_over_spec t cb when interval addr it w :
  inv it w → t ≠ tid → timer_ok (Timer_init cb when interval 0) →
  wpf E (addTimer_start t cb when interval addr)
    (λ a w', a = addr ∧ inv it w' ∧
       adds (EventLoop.pendingFunctors_ (loop_ w')) = adds (EventLoop.pendingFunctors_ (loop_ w)) ++ [addr]) w.
Proof.
  intros [Hl Hq] Hne Hok. pose proof Hl as [Hio Ht Hh Hi Hf]. unfold addTimer_start. wp_go. apply on_queue_spec.
  eapply wp_mono; [by apply (new_timer_spec HE (adds (EventLoop.pendingFunctors_ (loop_ w)))); [apply Hq|]|].
  cbv beta. intros x q1 (H1 & -> & _ & timer & n & ->). wp_go. apply queued_elsewhere; [done|done|].
  eapply wp_mono; [apply (queue_step t _ it); [done| |done]|].
  - destruct Hq. constructor; try done. cbn [queue_ set_queue].
    replace (adds [FTimer (AddTimerInLoop addr)]) with [addr] by done. rewrite <- Permutation_cons_append. exact H1.
  - cbv beta. intros _ w1 (Hw1 & Eq & Ef). wp_go. split_and!; [done|done|]. rewrite Ef. apply adds_app.
Qed.

(** Its address can be used as long as its functor has not run. *)
Lemma timer_read_spec timer it w (Q : TimerId → World → Prop) :
  inv it w → timer ∈ adds (EventLoop.pendingFunctors_ (loop_ w)) → (∀ n, Q (mkTimerId timer n) w) →
  wpf E (addTimer_return timer) Q w.
Proof.
  intros [_ Hq] Hin HQ. apply on_queue_spec. unfold TimerQueue.addTimer_return.
  destruct (inv_owned_alloc _ _ (q_inv _ _ Hq) timer Hin) as [[x Hx] _]. wp_go. eapply deref_spec; [exact Hx|]. wp_go.
  replace (set_queue (queue_ w) w) with w by by destruct w. apply HQ.
Qed.

(** What happens to a loop, in bounds. *)
Definition step_ok (s : step) : Prop :=
  match s with
  | Call _ a => action_ok a
  | Start t cb when interval _ => t ≠ tid ∧ timer_ok (Timer_init cb when interval 0)
  | Return _ => True
  | Queue _ calls => Forall action_ok calls
  | Poll reports _ => Forall (λ x : Z * Z, x.1 = tch ∨ x.1 = wch) reports
  end.

(** The timers whose [addTimer] has not returned after [s], those in [started] before it; [None] when an iteration
    begins before an [addTimer] has returned, or one returns that has not started. *)
Definition not_returned (started : list Z) (s : step) : option (list Z) :=
  match s with
  | Start _ _ _ _ addr => Some (addr :: started)
  | Return timer => if decide (timer ∈ started) then Some (filter (λ a, a ≠ timer) started) else None
  | Poll _ _ => if decide (started = []) then Some [] else None
  | Call _ _ | Queue _ _ => Some started
  end.
Fixpoint in_time (started : list Z) (steps : list step) : Prop :=
  match steps with
  | [] => True
  | s :: steps' => match not_returned started s with Some started' => in_time started' steps' | None => False end
  end.

(** The state between two steps: [it] iterations so far, the timers [started] still to be read. *)
Definition state_inv (it : Z) (started : list Z) (w : World) : Prop :=
  inv it w ∧ started ⊆ adds (EventLoop.pendingFunctors_ (loop_ w)).

Lemma Call_spec t a it started w :
  state_inv it started w → action_ok a → wpf E (call t a) (λ _ w', state_inv it started w') w.
Proof.
  intros [Hw Hs] Ha. pose proof Hw as [Hl Hq]. pose proof Hl as [Hio Ht Hh Hi Hf]. destruct (decide (t = tid)) as [->|Hne].
  { unfold wpf. rewrite call_in_loop by done. apply on_queue_spec.
    eapply wp_mono; [by apply (run_action_spec HE (adds (EventLoop.pendingFunctors_ (loop_ w)))); [apply Hq|]|].
    cbv beta. intros _ q' Hcd. split; [|done]. split; [done|]. by eapply called_queue_inv. }
  destruct a as [cb when interval addr|id]; cbn [call].
  - unfold addTimer. wp_go. eapply wp_mono; [by apply (handed_over_spec t _ _ _ _ it)|]. cbv beta.
    intros x w1 (-> & Hw1 & E1). apply (timer_read_spec _ it); [done|rewrite E1; apply elem_of_app; right; by left|].
    intros n. wp_go. split; [done|]. rewrite E1. intros y Hy. apply elem_of_app. left. by apply Hs.
  - unfold cancel. apply queued_elsewhere; [done|done|]. eapply wp_mono; [apply (queue_step t _ it); [done| |done]|].
    + by rewrite app_nil_r.
    + cbv beta. intros _ w1 (Hw1 & _ & Ef). split; [done|]. rewrite Ef, adds_app, app_nil_r. exact Hs.
Qed.

Lemma run_step_inv s it started started' w :
  state_inv it started w → 0 ≤ it < 2 ^ 62 → step_ok s → not_returned started s = Some started' →
  wpf E (run_step s) (λ _ w', ∃ it', state_inv it' started' w' ∧ it ≤ it' ≤ it + 1) w.
Proof.
  intros Hst Hit Hok Hret. pose proof Hst as [Hw Hs].
  assert (Hstay : ∀ w', state_inv it started' w' → ∃ it', state_inv it' started' w' ∧ it ≤ it' ≤ it + 1).
  { intros w' Hw'. exists it. split; [done|lia]. }
  destruct s as [t a|t cb when interval addr|timer|t calls|reports t]; cbn [run_step step_ok not_returned] in *; simplify_eq.
  - eapply wp_mono; [by apply (Call_spec t a it started')|]. cbv beta. intros _ w'. apply Hstay.
  - wp_go. eapply wp_mono; [by apply (handed_over_spec t _ _ _ _ it); [|apply Hok|apply Hok]|]. cbv beta.
    intros x w' (_ & Hw' & E1). apply Hstay. split; [done|]. rewrite E1.
    intros y [->|Hy]%elem_of_cons; apply elem_of_app; [right; by left|left; by apply Hs].
  - destruct (decide (timer ∈ started)) as [Hin|]; simplify_eq. wp_go.
    apply (timer_read_spec _ it); [done|by apply Hs|]. intros n. apply Hstay. split; [done|].
    intros y [_ Hy]%list_elem_of_filter. by apply Hs.
  - destruct Hw as [Hl Hq]. eapply wp_mono; [apply (queue_step t (FUser calls) it); [done| |done]|].
    + by rewrite app_nil_r.
    + cbv beta. intros _ w' (Hw' & _ & Ef). apply Hstay. split; [done|]. rewrite Ef, adds_app, app_nil_r. exact Hs.
  - destruct (decide (started = [])); simplify_eq. eapply wp_mono; [by apply (Poll_spec reports t it)|]. cbv beta.
    intros _ w' Hw'. exists (it + 1). split; [|lia]. split; [done|by intros y ?%elem_of_nil].
Qed.

Lemma run_steps_inv steps it started w :
  state_inv it started w → 0 ≤ it → it + zlen steps < 2 ^ 62 → Forall step_ok steps → in_time started steps →
  wpf E (for_each run_step steps) (λ _ w', ∃ it', inv it' w' ∧ 0 ≤ it' ≤ it + zlen steps) w.
Proof.
  intros Hw Hit Hlen Hs Hin. induction Hs as [|s steps Hs Hss IH] in it, started, w, Hw, Hit, Hlen, Hin |- *; cbn [for_each].
  { rewrite wp_ret. exists it. split; [apply Hw|]. pose proof (zlen_nonneg (@nil step)). lia. }
  cbn [in_time] in Hin. destruct (not_returned started s) as [started'|] eqn:Hret; [|done].
  rewrite zlen_cons in Hlen |- *. pose proof (zlen_nonneg steps). wp_go.
  eapply wp_mono; [apply (run_step_inv s it started started'); [done|lia|done|done]|]. cbv beta. intros _ w1 (it1 & Hw1 & Hit1).
  eapply wp_mono; [apply (IH it1 started' w1 Hw1); [lia|lia|done]|]. cbv beta. intros _ w2 (it2 & Hw2 & Hit2).
  exists it2. split; [done|lia].
Qed.

(** ** Construction and destruction *)

Lemma on_loop_two (m m' : prog (EventLoop functor) ()) (Q : () → World → Prop) w :
  wpf E (on_loop m ;; on_loop m') Q w = wpf E (on_loop (m ;; m')) Q w.
Proof.
  unfold wpf, on_loop, mbind, prog_bind. cbn. destruct (m (loop_ w)) as [[[] l1]|]; [|done]. cbn.
  by destruct (m' l1) as [[[] l2]|].
Qed.

Lemma loop_ctor_spec rounds :
  tch ≠ wch → tfd ≠ wfd → 0 ≤ tfd → 0 ≤ wfd → can_watch tfd → can_watch wfd →
  Forall (λ r, Forall (Forall action_ok) r.2) rounds →
  wpf E EventLoop_ctor (λ _ w', inv 0 w') (world_init rounds).
Proof.
  intros Hch Hfd Ht0 Hw0 Hwt Hww Hr. set (heap := {[tch := Channel_init tfd; wch := Channel_init wfd]} : gmap Z (Channel functor)).
  assert (Hheap : ∀ ch c, heap !! ch = Some c → (ch = tch ∧ c = Channel_init tfd) ∨ (ch = wch ∧ c = Channel_init wfd)).
  { intros ch c [[<- <-]|[_ [<- <-]%lookup_singleton_Some]]%lookup_insert_Some; [by left|by right]. }
  assert (Ht : heap !! tch = Some (Channel_init tfd)) by apply lookup_insert_eq.
  assert (Hw : heap !! wch = Some (Channel_init wfd)) by (unfold heap; rewrite lookup_insert_ne by done; apply lookup_insert_eq).
  assert (Hwf : poller_wf (EPollPoller_init heap)).
  { apply poller_wf_init. by intros ch c [[_ ->]|[_ ->]]%Hheap. }
  unfold EventLoop_ctor, TimerQueue_ctor.
  unfold createTimerfd, createEventfd. rewrite (proj2 (Z.ltb_ge tfd 0)), (proj2 (Z.ltb_ge wfd 0)) by done.
  rewrite wp_bind, wp_bind, wp_lift_ok, on_loop_two. apply on_loop_spec.
  eapply wp_mono; [by apply (watch_channel tch FHandleTimer tfd)|]. cbv beta.
  intros _ l1 (p1 & ct & -> & Hwf1 & Hct & Hh1 & Hc1). cbn in Hh1, Hc1. fold heap in Hh1.
  rewrite wp_bind, wp_lift_ok.
  apply on_loop_spec. eapply wp_mono; [apply (watch_channel wch FWakeup wfd)|].
  - done.
  - done.
  - cbn. rewrite Hh1, lookup_insert_ne by done. exact Hw.
  - cbn. rewrite Hc1. by rewrite lookup_insert_ne.
  - cbv beta. intros _ l2 (p2 & cw & -> & Hwf2 & Hcw & Hh2 & _). cbn in Hh2. rewrite Hh1 in Hh2.
    split; [|constructor; cbn; [apply inv_init|by intros ? ? ?%elem_of_nil|done|done]].
    constructor; cbn; [constructor; [done| | |]|done|done|done|done].
    + intros ch c. rewrite Hh2. intros [[<- _]|[_ [[<- _]|[_ [[-> _]|[-> _]]%Hheap]]%lookup_insert_Some]]%lookup_insert_Some; tauto.
    + exists ct. split; [|done]. by rewrite Hh2, lookup_insert_ne, lookup_insert_eq.
    + exists cw. split; [|done]. by rewrite Hh2, lookup_insert_eq.
Qed.

(** One channel's end: unregistered, then destroyed. *)
Lemma retire_channel ch f fd c w :
  poller_wf (poller_ (loop_ w)) → threadId_ (loop_ w) = tid → EventLoop.eventHandling_ (loop_ w) = false →
  EPollPoller.heap_ (poller_ (loop_ w)) !! ch = Some c → watching f fd c →
  wpf E (on_loop (disableAll tid ch ;; Channel_remove tid ch))
    (λ _ w1, queue_ w1 = queue_ w ∧ EventLoop.pendingFunctors_ (loop_ w1) = EventLoop.pendingFunctors_ (loop_ w) ∧
       ∀ q, wpf E (destroy_channel ch)
         (λ _ w', ∃ p', w' = set_queue q (set_loop_ (set_poller p' (loop_ w)) w) ∧ poller_wf p' ∧
            EPollPoller.heap_ p' = delete ch (EPollPoller.heap_ (poller_ (loop_ w)))) (set_queue q w1)) w.
Proof.
  intros Hp Ht Hh Hc Hw. apply on_loop_spec. eapply wp_mono; [by apply (unwatch_channel ch f fd c)|]. cbv beta.
  intros _ l1 (p1 & c1 & -> & Hwf & Hi & Hd & Hh1). split_and!; [done|done|]. intros q.
  eapply wp_mono; [apply (destroy_channel_spec ch c1); [done| |done|done]|].
  - cbn. rewrite Hh1. apply lookup_insert_eq.
  - cbv beta. intros _ w' (p2 & -> & Hwf2 & Hh2). exists p2. split_and!; [done|done|].
    rewrite Hh2. cbn. rewrite Hh1. by rewrite delete_insert_eq.
Qed.

Lemma loop_dtor_spec it w :
  tch ≠ wch → inv it w →
  wpf E EventLoop_dtor
    (λ _ w', interest (epollfd_ (poller_ (loop_ w'))) = ∅ ∧
       EventLoop.pendingFunctors_ (loop_ w') = EventLoop.pendingFunctors_ (loop_ w) ∧
       ∀ a, is_Some (heap_ (queue_ w') !! a) ↔ a ∈ adds (EventLoop.pendingFunctors_ (loop_ w))) w.
Proof.
  intros Hne [[[Hwf Hdom (ct & Hct & Hwt) (cw & Hcw & Hww)] Ht Hh Hi Hf] Hq]. unfold EventLoop_dtor, EventLoop.EventLoop_dtor.
  rewrite wp_bind. eapply wp_mono; [by apply (retire_channel wch FWakeup wfd cw)|]. cbv beta.
  intros _ w1 (Eq1 & _ & Hdestroy). rewrite wp_bind. specialize (Hdestroy (queue_ w1)).
  replace (set_queue (queue_ w1) w1) with w1 in Hdestroy by by destruct w1.
  eapply wp_mono; [exact Hdestroy|]. cbv beta. intros _ w2 (p2 & Hw2 & Hwf2 & Hh2).
  rewrite Eq1 in Hw2. subst w2. unfold TimerQueue_dtor.
  apply wp_seq. rewrite on_loop_two. set (w2 := set_queue _ _).
  eapply wp_mono; [apply (retire_channel tch FHandleTimer tfd ct w2)|].
  - done.
  - done.
  - done.
  - cbn. rewrite Hh2. by rewrite lookup_delete_ne.
  - done.
  - cbv beta. intros _ w3 (Eq3 & El3 & Hdestroy3). rewrite wp_bind. apply on_queue_spec. rewrite Eq3.
    eapply wp_mono; [apply wp_weaken, (dtor_frees (adds (EventLoop.pendingFunctors_ (loop_ w)))); apply Hq|].
    cbv beta. intros _ q Hfreed. eapply wp_mono; [exact (Hdestroy3 q)|]. cbv beta. intros _ w4 (p4 & -> & Hwf4 & Hh4).
    split_and!; [|done|exact Hfreed]. cbn. apply map_eq. intros fd. rewrite lookup_empty.
    destruct (interest (epollfd_ p4) !! fd) as [[ch ev]|] eqn:Hin; [exfalso|done].
    apply (wf_interest _ Hwf4) in Hin as (c & Hc & _). rewrite Hh4 in Hc. cbn in Hc. rewrite Hh2 in Hc.
    apply lookup_delete_Some in Hc as [N1 Hc]. apply lookup_delete_Some in Hc as [N2 Hc]. by destruct (Hdom _ _ Hc).
Qed.

(** ** The alarm *)

(** What the callbacks of the next round do. *)
Definition next_scripts (w : World) : list (list action) := match rounds_ w with r :: _ => r.2 | [] => [] end.

Lemma poll_reported reports r (c : Channel functor) (p : EPollPoller functor) :
  io p → Forall (λ x : Z * Z, x.1 = tch ∨ x.1 = wch) reports → NoDup reports.*1 → (tch, r) ∈ reports →
  EPollPoller.heap_ p !! tch = Some c →
  wpf E (poll (Some reports))
    (λ active p', (active = reports.*1 ∧ io p') ∧ EPollPoller.heap_ p' !! tch = Some (set_revents r c)) p.
Proof.
  intros Hp Hr Hnd Hin Hc. apply wp_both; [by apply poll_io|].
  destruct reports as [|r0 reports0] eqn:E0; [by apply elem_of_nil in Hin|]. cbn [poll]. rewrite <- E0 in *. clear r0 reports0 E0.
  wp_go. eapply wp_mono; [by apply (fillActiveChannels_reported reports tch r c)|]. cbv beta. intros active p1 H1.
  wp_go. by destruct (_ =? _).
Qed.

(** The handler of the eventfd leaves the timers alone. *)
Lemma wakeup_handlers active l0 w :
  io (poller_ l0) → Forall (λ ch, ch = wch) active → loop_ w = l0 →
  wpf E (for_each (handle_active (λ _ _, true) exec exec_read) active)
    (λ _ w', (∃ n cur, loop_ w' = set_wakeups n (set_current cur l0)) ∧ queue_ w' = queue_ w ∧ rounds_ w' = rounds_ w) w.
Proof.
  intros Hio Hact Hl. induction Hact as [|ch active -> Hact IH] in w, Hl, l0, Hio |- *; cbn [for_each].
  { split; [|done]. exists (wakeups_ l0), (currentActiveChannel_ l0). by destruct l0. }
  subst l0. destruct (io_wakeup _ Hio) as (c & Hc & Hw). wp_go.
  eapply wp_mono; [apply (handle_active_spec wch c FWakeup wfd (λ w', queue_ w' = queue_ w ∧ rounds_ w' = rounds_ w)); [done|done|done| |done]|].
  - intros w1 E1 E2 E3. cbn [exec]. apply on_loop_spec. unfold EventLoop.handleRead. wp_go. split; [by exists 0|done].
  - cbv beta. intros _ w1 [[n Hl1] [E1 E2]].
    eapply wp_mono; [apply (IH (loop_ w1)); [by rewrite Hl1|done]|]. cbv beta.
    intros _ w2 [(n' & cur & Hl2) [F1 F2]]. split; [|by rewrite F1, F2]. exists n', cur. by rewrite Hl2, Hl1.
Qed.

(** The handlers of an iteration that finds the timerfd ready, wherever it comes among the channels that are
    ready, make a round of expirations. *)
Lemma handlers_round active1 active2 r c o l0 w :
  io (poller_ l0) → threadId_ l0 = tid → Forall (λ ch, ch = wch) active1 → Forall (λ ch, ch = wch) active2 →
  EPollPoller.heap_ (poller_ l0) !! tch = Some (set_revents r c) → watching FHandleTimer tfd c → ready r = true →
  loop_ w = l0 → queue_inv o w →
  let now := clock (calls_ (queue_ w)) in
  wpf E (for_each (handle_active (λ _ _, true) exec exec_read) (active1 ++ tch :: active2))
    (λ _ w', (∃ n cur, loop_ w' = set_wakeups n (set_current cur l0)) ∧
       round_post o now (concat (with_scripts (due now (queue_ w)) (next_scripts w)).*2) (queue_ w) (queue_ w')) w.
Proof.
  intros Hio Ht H1 H2 Hc Hw Hr Hl Hq now. apply wp_for_each_app.
  eapply wp_mono; [by apply (wakeup_handlers active1 l0)|]. cbv beta. intros _ w1 [(n1 & cur1 & Hl1) [E1 F1]].
  cbn [for_each]. wp_go.
  set (R := λ w', round_post o now (concat (with_scripts (due now (queue_ w)) (next_scripts w)).*2) (queue_ w) (queue_ w')).
  eapply wp_mono; [apply (handle_active_spec tch (set_revents r c) FHandleTimer tfd R)|].
  - rewrite Hl1. exact Hc.
  - by destruct Hw.
  - done.
  - intros w2 E2 F2 T2. cbn [exec]. eapply wp_mono.
    { apply (handleTimer_spec o); [eapply queue_inv_ext; [exact Hq|congruence|congruence]|by rewrite T2, Hl1]. }
    cbv beta. intros _ w3 (El & Hq3 & _ & acts & -> & Hpost). split.
    + exists (wakeups_ (loop_ w2)). rewrite El. by destruct (loop_ w2).
    + unfold R, next_scripts, now. rewrite E2, F2, E1, F1 in Hpost. exact Hpost.
  - cbn. intros Hno. congruence.
  - cbv beta. intros _ w2 [[m Hl2] Hpost].
    eapply wp_mono; [apply (wakeup_handlers active2 (loop_ w2)); [by rewrite Hl2, Hl1|done|done]|]. cbv beta.
    intros _ w3 [(n3 & cur3 & Hl3) [E3 _]]. split; [|by rewrite E3].
    exists n3, cur3. by rewrite Hl3, Hl2, Hl1.
Qed.

(** The rest of such an iteration is its functors. *)
Lemma Poll_timer reports r t it w (Q : () → World → Prop) :
  inv it w → 0 ≤ it < 2 ^ 62 → Forall (λ x : Z * Z, x.1 = tch ∨ x.1 = wch) reports → NoDup reports.*1 →
  (tch, r) ∈ reports → ready r = true →
  let now := clock (calls_ (queue_ w)) in
  (∀ w1, round_post (adds (EventLoop.pendingFunctors_ (loop_ w))) now
      (concat (with_scripts (due now (queue_ w)) (next_scripts w)).*2) (queue_ w) (queue_ w1) →
    EventLoop.pendingFunctors_ (loop_ w1) = EventLoop.pendingFunctors_ (loop_ w) →
    wpf E (doPendingFunctors exec) Q w1) →
  wpf E (run_step (Poll reports t)) Q w.
Proof.
  intros [[Hio Ht Hh Hi Hf] Hq] Hit Hrep Hnd Hin Hr now HQ. cbn [run_step]. unfold iteration, arrivals.
  cbn [arrived quit_requested answer returned_at for_each when_].
  rewrite wp_bind. apply on_loop_spec. rewrite wp_modify. cbv beta. rewrite wp_bind. apply on_loop_spec. wp_go.
  apply on_loop_spec, on_poller_spec. destruct (io_timer _ Hio) as (ct & Hct & Hwt).
  eapply wp_mono; [by apply (poll_reported reports r ct)|]. cbv beta. intros active p1 [[-> Hio1] Hct1].
  cbn [set_loop world_loop loop_of]. apply (prepare_spec _ _ _ it); [exact Hi|exact Hit|].
  rewrite wp_bind. set (w1 := set_loop _ _). set (l1 := loop_ w1).
  assert (Hsplit : ∃ active1 active2, reports.*1 = active1 ++ tch :: active2 ∧
    Forall (λ ch, ch = wch) active1 ∧ Forall (λ ch, ch = wch) active2).
  { assert (Hin' : tch ∈ reports.*1) by (apply list_elem_of_fmap; by exists (tch, r)).
    apply list_elem_of_split in Hin' as (a1 & a2 & Ha). exists a1, a2. split; [done|].
    rewrite Ha in Hnd. apply list.NoDup_app in Hnd as (_ & Hn1 & [Hn2 _]%list.NoDup_cons).
    assert (Hall : ∀ ch, ch ∈ a1 ++ tch :: a2 → ch = tch ∨ ch = wch).
    { rewrite <- Ha. intros ch (x & -> & Hx)%list_elem_of_fmap. rewrite list.Forall_forall in Hrep. by apply Hrep. }
    split; apply list.Forall_forall; intros ch Hch.
    - destruct (Hall ch) as [->|?]; [apply elem_of_app; by left| |done]. destruct (Hn1 tch Hch). by left.
    - destruct (Hall ch) as [->|?]; [apply elem_of_app; right; by right| |done]. done. }
  destruct Hsplit as (a1 & a2 & -> & Ha1 & Ha2).
  eapply wp_mono; [apply (handlers_round a1 a2 r ct (adds (EventLoop.pendingFunctors_ (loop_ w))) l1)|]; try done.
  { by eapply queue_inv_ext. }
  cbv beta. intros _ w2 [(n & cur & Hl2) Hpost]. wp_go. apply on_loop_spec. wp_go. apply on_loop_spec. wp_go.
  apply HQ; [exact Hpost|]. cbn. by rewrite Hl2.
Qed.
End timer_loop.

(** C31: a loop and its timers, from construction to destruction.  Whatever timers are added and cancelled, by the
    loop's thread, by others or by callbacks, whatever functors are queued, and whatever the kernel reports for
    the loop's two channels: no assertion of the loop, its poller, its channels or its timer queue fails and no
    freed timer is used; only running out of memory ends it early.  After the destructor the kernel watches
    nothing, and the timers that stay allocated are exactly those of additions that never ran.  This is so when
    callbacks are not empty, times are at most 2^62 microseconds away from 1970 and intervals at most 2^61
    microseconds ([step_ok]), and when an [addTimer] of another thread, which hands its timer over and then reads
    it again, returns before the next iteration begins ([in_time]); otherwise it may read a freed timer
    ([returned_late]). *)
Theorem loop_lifetime `{Epoll} `{TimeKernel} tid other tch wch tfd wfd rounds steps :
  tch ≠ wch → tfd ≠ wfd → 0 ≤ tfd → 0 ≤ wfd → can_watch tfd → can_watch wfd →
  Forall (λ r, Forall (Forall action_ok) r.2) rounds → Forall (step_ok tid tch wch) steps → in_time [] steps →
  zlen steps < 2 ^ 32 →
  wpf only_bad_alloc (lifetime tid other tch wch tfd wfd steps)
    (λ _ w', interest (epollfd_ (poller_ (loop_ w'))) = ∅ ∧
       ∀ a, is_Some (heap_ (queue_ w') !! a) ↔ a ∈ adds (EventLoop.pendingFunctors_ (loop_ w')))
    (world_init tid tch wch tfd wfd rounds).
Proof.
  intros Hch Hfd Ht0 Hw0 Hwt Hww Hr Hs Htime Hlen. unfold lifetime. wp_go.
  eapply wp_mono; [by apply loop_ctor_spec|]. cbv beta. intros _ w1 H1. wp_go.
  eapply wp_mono; [eapply (run_steps_inv (E := only_bad_alloc) tid other tch wch tfd wfd eq_refl steps 0 []);
    [split; [exact H1|by intros a ?%elem_of_nil]|lia|lia|done|done]|].
  cbv beta. intros _ w2 (it & H2 & _). eapply wp_mono; [by apply (loop_dtor_spec tid tch wch tfd wfd it)|]. cbv beta.
  intros _ w3 (Hint & Hpend & Hfreed). split; [done|]. intros a. by rewrite Hpend.
Qed.

(** C32: timers ring.  In every state a loop can get into (under the conditions of C31), while a timer is queued the
    timerfd is set to expire no later than it (or 100 microseconds after it was set), so that the kernel reports
    it; and the iteration that finds the timerfd ready when the timer is due, be it alone or among the loop's
    other descriptors, in whatever order and each once, and with functors queued or not, runs its callback: when
    the handlers are done, and it remains to call the functors that are queued, a timer that is not repeated is
    freed, and a repeated one that no callback cancelled is queued again one interval after the round's time
    (unless memory ran out). *)
Theorem timers_ring `{Epoll} `{TimeKernel} tid other tch wch tfd wfd rounds steps w e a timer reports r t :
  tch ≠ wch → tfd ≠ wfd → 0 ≤ tfd → 0 ≤ wfd → can_watch tfd → can_watch wfd →
  Forall (λ r, Forall (Forall action_ok) r.2) rounds → Forall (step_ok tid tch wch) steps → in_time [] steps →
  zlen steps < 2 ^ 32 →
  (EventLoop_ctor tid tch wch tfd wfd ;; for_each (run_step tid other) steps) (world_init tid tch wch tfd wfd rounds) = Ok (tt, w) →
  (e, a) ∈ timers_ (queue_ w) → heap_ (queue_ w) !! a = Some timer →
  (∃ it, timerfd_ (queue_ w) = Some it ∧ alarm it ≤ Z.max e (set_at it + 100)) ∧
  let now := clock (calls_ (queue_ w)) in
  (step_ok tid tch wch (Poll reports t) → NoDup reports.*1 → (tch, r) ∈ reports → ready r = true → e ≤ now →
   run_step tid other (Poll reports t) w = Fault BadAlloc ∨
   ∃ w1, fate now (concat (with_scripts (due now (queue_ w)) (next_scripts w)).*2) a timer (queue_ w1) ∧
     EventLoop.pendingFunctors_ (loop_ w1) = EventLoop.pendingFunctors_ (loop_ w) ∧
     run_step tid other (Poll reports t) w = doPendingFunctors (exec tid) w1).
Proof.
  intros Hch Hfd Ht0 Hw0 Hwt Hww Hr Hs Htime Hlen Hrun Hin Ht.
  assert (Hinv : wpf only_bad_alloc (EventLoop_ctor tid tch wch tfd wfd ;; for_each (run_step tid other) steps)
    (λ _ w', ∃ it, inv tid tch wch tfd wfd it w' ∧ 0 ≤ it ≤ zlen steps) (world_init tid tch wch tfd wfd rounds)).
  { wp_go. eapply wp_mono; [by apply loop_ctor_spec|]. cbv beta. intros _ w1 H1.
    eapply wp_mono; [eapply (run_steps_inv (E := only_bad_alloc) tid other tch wch tfd wfd eq_refl steps 0 []);
      [split; [exact H1|by intros ? ?%elem_of_nil]|lia|lia|done|done]|]. done. }
  unfold wpf in Hinv. rewrite Hrun in Hinv. destruct Hinv as (it & Hinv & Hit). split.
  { destruct Hinv as [_ Hq]. destruct (q_armed _ _ Hq e a Hin) as (x & ? & _ & ?). by exists x. }
  intros now Hrep Hnd Hready Hr' Hdue.
  set (P := λ w1, fate now (concat (with_scripts (due now (queue_ w)) (next_scripts w)).*2) a timer (queue_ w1) ∧
     EventLoop.pendingFunctors_ (loop_ w1) = EventLoop.pendingFunctors_ (loop_ w)).
  assert (Hwp : wpf (λ f, f = BadAlloc ∨ ∃ w1, P w1 ∧ doPendingFunctors (exec tid) w1 = Fault f) (run_step tid other (Poll reports t))
    (λ x w', ∃ w1, P w1 ∧ doPendingFunctors (exec tid) w1 = Ok (x, w')) w).
  { eapply (Poll_timer tid other tch wch tfd wfd (or_introl eq_refl) reports r t it w); [done|lia|done|done|done|done|].
    intros w1 (_ & _ & _ & _ & Hfate) Hpend. specialize (Hfate e a timer Hin Ht). rewrite bool_decide_eq_true_2 in Hfate by done.
    assert (HP : P w1) by done. unfold wpf. destruct (doPendingFunctors (exec tid) w1) as [[x w2]|f] eqn:Hdo; [by exists w1|right; by exists w1]. }
  unfold wpf in Hwp. destruct (run_step tid other (Poll reports t) w) as [[x w']|f].
  - destruct Hwp as (w1 & [HP1 HP2] & Hdo). right. by exists w1.
  - destruct Hwp as [->|(w1 & [HP1 HP2] & Hdo)]; [by left|right; by exists w1].
Qed.

(** ** Examples *)

#[local] Existing Instance map_epoll.
#[local] Existing Instance ticking.

(** The loop of thread 1: it adds a repeated timer, thread 2 a second one and a functor that cancels the first;
    the eventfd and the timerfd are ready, then the timerfd alone; a last timer comes too late. *)
Definition example_steps : list step :=
  [Call 1 (AddTimer (Some 1) 1000500000 (double_of_Z 2) 4096);
   Call 2 (AddTimer (Some 2) 5 dzero 8192);
   Start 2 (Some 6) 6 dzero 24576;
   Queue 2 [Cancel (mkTimerId 4096 0); AddTimer (Some 3) 1001000000 dzero 12288];
   Return 24576;
   Poll [(300, EPOLLIN); (200, EPOLLIN)] 1;
   Poll [(200, EPOLLIN)] 2;
   Call 2 (AddTimer (Some 4) 9 dzero 16384)].

Lemma example_steps_ok : Forall (step_ok 1 200 300) example_steps.
Proof.
  unfold example_steps. rewrite !list.Forall_cons. cbn [step_ok action_ok]. rewrite !list.Forall_cons. cbn [action_ok].
  split_and!; try done; try (by apply seconds_ok); try (by apply once_ok); cbn; tauto.
Qed.

Example example_lifetime :
  match lifetime 1 2 200 300 4 5 example_steps (world_init 1 200 300 4 5 [(true, []); (true, [[AddTimer (Some 5) 7 dzero 20480]])]) with
  | Ok (_, w) => Some (elements (dom (heap_ (queue_ w))), adds (EventLoop.pendingFunctors_ (loop_ w)))
  | Fault _ => None
  end = Some ([16384], [16384]).
Proof. vm_compute. reflexivity. Qed.

Lemma example_rounds_ok :
  Forall (λ r : bool * list (list action), Forall (Forall action_ok) r.2) [(true, []); (true, [[AddTimer (Some 5) 7 dzero 20480]])].
Proof.
  rewrite !list.Forall_cons. cbn [snd]. rewrite !list.Forall_cons. cbn [action_ok]. by split_and!.
Qed.

Lemma loop_lifetime_witness :
  wpf only_bad_alloc (lifetime 1 2 200 300 4 5 example_steps)
    (λ _ w', interest (epollfd_ (poller_ (loop_ w'))) = ∅ ∧
       ∀ a, is_Some (heap_ (queue_ w') !! a) ↔ a ∈ adds (EventLoop.pendingFunctors_ (loop_ w')))
    (world_init 1 200 300 4 5 [(true, []); (true, [[AddTimer (Some 5) 7 dzero 20480]])]).
Proof.
  apply (loop_lifetime 1 2 200 300 4 5 _ example_steps); try discriminate; try exact I.
  - exact example_rounds_ok.
  - exact example_steps_ok.
  - reflexivity.
Defined.

(** The race in [addTimer]: thread 2 reads the timer it has handed over when it has expired and been freed. *)
Example returned_late :
  (EventLoop_ctor 1 200 300 4 5 ;;
   for_each (run_step 1 2) [Start 2 (Some 1) 5 dzero 4096; Poll [] 1; Poll [(200, EPOLLIN)] 2; Return 4096])
    (world_init 1 200 300 4 5 [(true, [])]) = Fault UndefinedBehaviour.
Proof. vm_compute. reflexivity. Qed.

(** After the first of these steps the repeated timer is queued; a functor waits. *)
Definition example_timer : Timer := Timer_init (Some 1) 1000500000 (double_of_Z 2) 0.
Definition before_ringing : list step := [Call 1 (AddTimer (Some 1) 1000500000 (double_of_Z 2) 4096); Queue 2 []].
Definition example_queued : World :=
  match (EventLoop_ctor 1 200 300 4 5 ;; for_each (run_step 1 2) before_ringing) (world_init 1 200 300 4 5 [(true, [[]])]) with
  | Ok (_, w) => w
  | Fault _ => world_init 1 200 300 4 5 []
  end.
Definition ringing : step := Poll [(300, EPOLLIN); (200, EPOLLIN)] 3.

Lemma timers_ring_witness :
  (∃ it, timerfd_ (queue_ example_queued) = Some it ∧ alarm it ≤ Z.max 1000500000 (set_at it + 100)) ∧
  (run_step 1 2 ringing example_queued = Fault BadAlloc ∨
   ∃ w1, fate 1001000000 (concat (with_scripts (due 1001000000 (queue_ example_queued)) (next_scripts example_queued)).*2)
       4096 example_timer (queue_ w1) ∧
     EventLoop.pendingFunctors_ (loop_ w1) = EventLoop.pendingFunctors_ (loop_ example_queued) ∧
     run_step 1 2 ringing example_queued = doPendingFunctors (exec 1) w1).
Proof.
  pose proof (timers_ring 1 2 200 300 4 5 [(true, [[]])] before_ringing example_queued 1000500000 4096
    example_timer [(300, EPOLLIN); (200, EPOLLIN)] EPOLLIN 3) as Hring.
  assert (Hok : Forall (step_ok 1 200 300) before_ringing).
  { unfold before_ringing. repeat constructor; (by apply seconds_ok) || idtac. }
  specialize (Hring ltac:(discriminate) ltac:(discriminate) ltac:(discriminate) ltac:(discriminate) I I ltac:(repeat constructor)
    Hok I ltac:(reflexivity)).
  specialize (Hring ltac:(vm_compute; reflexivity) ltac:(vm_compute; by left) ltac:(vm_compute; reflexivity)).
  destruct Hring as [Halarm Hring]. split; [exact Halarm|].
  apply Hring; [| | |reflexivity|vm_compute; discriminate].
  - constructor; [by right|]. constructor; [by left|]. constructor.
  - apply (bool_decide_unpack _). vm_compute. exact I.
  - right. by left.
Defined.
