(* ===== verification/Wakeup.v ===== *)
(** * Wakeup: the loop's thread and the threads that queue functors (net/eventloop/EventLoop.cc)

    A step relation at the grain at which threads interleave: a functor is pushed
    under the mutex, the eventfd is written after the mutex is released, the loop
    swaps the queue under the mutex, reads the eventfd in its read handler, and checks
    [quit_] at the top of each iteration.  The ghost fields record which functors were
    queued and which ran. *)
From S2P Require Import Prelude.

Section wakeup.
Context {F : Type}.

(** Where the loop's thread is. *)
Inductive position : Type :=
| NotLooping                       (** before [loop()] *)
| AtTop                            (** about to test [quit_] *)
| InPoll                           (** in [poller_->poll(kPollTimeMs, ...)] *)
| HandlingEvents                   (** in the loop over [activeChannels_] *)
| BeforeSwap                       (** in [doPendingFunctors], flag set, queue not yet taken *)
| Running (functors : list F)      (** in its loop; these are still to be called *)
| Returned.                        (** [loop()] has returned *)

Record state : Type := mkState {
  at_ : position;
  pending : list F;
  calling : bool;         (** [callingPendingFunctors_] *)
  quit_flag : bool;       (** [quit_] *)
  eventfd : Z;            (** the counter behind [wakeupFd_] *)
  writers : Z;            (** threads between the push (or [quit_ = true]) and their [wakeup()] *)
  early : bool;           (** the loop's own thread queued something before its first iteration *)
  queued : list F;        (** ghost: every functor queued, in order *)
  executed : list F       (** ghost: every functor called, in order *)
}.

Definition initial : state := mkState NotLooping [] false false 0 0 false [] [].

(** The loop's thread may run user code (and so call [queueInLoop] or [quit]) here. *)
Definition in_user_code (p : position) : bool :=
  match p with NotLooping | HandlingEvents | Running _ | Returned => true | _ => false end.

Definition before_first_swap (p : position) : bool :=
  match p with NotLooping => true | _ => false end.

Inductive step : state → state → Prop :=
(** [queueInLoop] of another thread: push, then [wakeup]. *)
| step_push_other f p q c k e w b hq hx :
    step (mkState p q c k e w b hq hx) (mkState p (q ++ [f]) c k e (w + 1) b (hq ++ [f]) hx)
| step_wakeup p q c k e w b hq hx :
    0 < w → step (mkState p q c k e w b hq hx) (mkState p q c k (e + 1) (w - 1) b hq hx)
(** [queueInLoop] of the loop's own thread: it wakes up only while functors are being called. *)
| step_push_own f p q c k e w b hq hx :
    in_user_code p = true →
    step (mkState p q c k e w b hq hx)
         (mkState p (q ++ [f]) c k (if c then e + 1 else e) w (b || before_first_swap p) (hq ++ [f]) hx)
(** [quit]: from another thread, and from the loop's own. *)
| step_quit_other p q c k e w b hq hx :
    step (mkState p q c k e w b hq hx) (mkState p q c true e (w + 1) b hq hx)
| step_quit_own p q c k e w b hq hx :
    in_user_code p = true → step (mkState p q c k e w b hq hx) (mkState p q c true e w b hq hx)
(** [loop()]: entry, the test of [quit_], the return of [poll] (an event or the timeout). *)
| step_enter q c k e w b hq hx :
    step (mkState NotLooping q c k e w b hq hx) (mkState AtTop q c false e w b hq hx)
| step_continue q c e w b hq hx :
    step (mkState AtTop q c false e w b hq hx) (mkState InPoll q c false e w b hq hx)
| step_return q c e w b hq hx :
    step (mkState AtTop q c true e w b hq hx) (mkState Returned q c true e w b hq hx)
| step_poll q c k e w b hq hx :
    step (mkState InPoll q c k e w b hq hx) (mkState HandlingEvents q c k e w b hq hx)
(** The read handler of the eventfd. *)
| step_read q c k e w b hq hx :
    step (mkState HandlingEvents q c k e w b hq hx) (mkState HandlingEvents q c k 0 w b hq hx)
(** [doPendingFunctors]. *)
| step_calling q c k e w b hq hx :
    step (mkState HandlingEvents q c k e w b hq hx) (mkState BeforeSwap q true k e w b hq hx)
| step_swap q c k e w b hq hx :
    step (mkState BeforeSwap q c k e w b hq hx) (mkState (Running q) [] c k e w false hq hx)
| step_call f fs q c k e w b hq hx :
    step (mkState (Running (f :: fs)) q c k e w b hq hx) (mkState (Running fs) q c k e w b hq (hx ++ [f]))
| step_done q c k e w b hq hx :
    step (mkState (Running []) q c k e w b hq hx) (mkState AtTop q false k e w b hq hx).

Inductive reachable : state → Prop :=
| reach_initial : reachable initial
| reach_step s s' : reachable s → step s s' → reachable s'.

(** ** Invariant *)

Definition batch (p : position) : list F := match p with Running fs => fs | _ => [] end.

(** A wake-up is under way: the eventfd is readable, or a thread is about to write it. *)
Definition wakeup_due (s : state) : Prop := 0 < eventfd s ∨ 0 < writers s.

(** What has to hold at each position for a queued functor to be run in time. *)
Definition covered (s : state) : Prop :=
  match at_ s with
  | AtTop | InPoll | Running _ => pending s = [] ∨ early s = true ∨ wakeup_due s
  | NotLooping => pending s = [] ∨ early s = true ∨ wakeup_due s
  | HandlingEvents | BeforeSwap | Returned => True
  end.

Record wakeup_inv (s : state) : Prop := {
  inv_fifo : queued s = executed s ++ batch (at_ s) ++ pending s;
  inv_calling : calling s = match at_ s with BeforeSwap | Running _ => true | _ => false end;
  inv_counts : 0 ≤ eventfd s ∧ 0 ≤ writers s;
  inv_covered : covered s
}.

Lemma wakeup_inv_initial : wakeup_inv initial.
Proof. constructor; simpl; try done. by left. Qed.

Lemma wakeup_inv_step s s' : wakeup_inv s → step s s' → wakeup_inv s'.
Proof.
  intros [Hf Hc [He Hw] Hcov] Hstep. destruct Hstep; cbn [at_ pending calling eventfd writers queued executed] in *;
    constructor; cbn [at_ pending calling quit_flag eventfd writers early queued executed]; try done; try lia.
  - rewrite Hf. by rewrite <- !app_assoc.
  - unfold covered, wakeup_due in *. simpl in *. destruct p; try done; right; right; lia.
  - unfold covered, wakeup_due in *. simpl in *. destruct p; try done;
      (destruct Hcov as [?|[?|[?|?]]]; [by left|by right; left|right; right; lia..]).
  - rewrite Hf. by rewrite <- !app_assoc.
  - destruct c; lia.
  - unfold covered, wakeup_due in *. simpl in *. subst c. destruct p; try done.
    + right. left. by rewrite orb_true_r.
    + right. right. left. lia.
  - unfold covered, wakeup_due in *. simpl in *. destruct p; try done; (destruct Hcov as [?|[?|?]]; [by left|by right; left|right; right; lia]).
  - by rewrite app_nil_r.
  - unfold covered. by left.
  - rewrite Hf. simpl. by rewrite <- !app_assoc.
Qed.

Lemma reachable_inv s : reachable s → wakeup_inv s.
Proof. induction 1; [apply wakeup_inv_initial|by eapply wakeup_inv_step]. Qed.

(** While a quit was requested after the loop started, the loop does not wait in [poll] for
    longer than it takes the request's wake-up to arrive. *)
Record quit_inv (s : state) : Prop := {
  quit_covered : quit_flag s = true → at_ s = InPoll → wakeup_due s;
  quit_counts : 0 ≤ eventfd s ∧ 0 ≤ writers s
}.

Lemma quit_inv_step s s' : quit_inv s → step s s' → quit_inv s'.
Proof.
  intros [Hq [He Hw]] Hstep. destruct Hstep; cbn [at_ quit_flag eventfd writers] in *;
    constructor; cbn [at_ quit_flag eventfd writers]; unfold wakeup_due in *; cbn [eventfd writers] in *;
    try done; try lia.
  - intros _ ->. done.
  - destruct c; lia.
  - intros _ ->. done.
Qed.

Lemma reachable_quit_inv s : reachable s → quit_inv s.
Proof. induction 1; [by constructor|by eapply quit_inv_step]. Qed.
End wakeup.

(** ** Properties *)

(** C29: functors run once, in order.  In every reachable state the functors queued so far, by whatever
    threads and however interleaved, are those that ran, in the order in which they ran, then those of
    the batch that is being run, then those still in the queue. *)
Theorem functors_fifo {F} (s : state (F := F)) :
  reachable s → queued s = executed s ++ batch (at_ s) ++ pending s.
Proof. intros Hs. apply (reachable_inv s Hs). Qed.

(** C28: no wake-up is lost.  Whenever the loop is about to wait, or waits, in [poll] while functors are
    queued, the eventfd is readable or a thread is just about to write it, so the wait ends at once; the
    one exception is what the loop's own thread queued before its first iteration.  The same holds for a
    [quit] requested while the loop runs. *)
Theorem no_lost_wakeup {F} (s : state (F := F)) :
  reachable s → at_ s = InPoll →
  (pending s ≠ [] → early s = false → 0 < eventfd s ∨ 0 < writers s) ∧
  (quit_flag s = true → 0 < eventfd s ∨ 0 < writers s).
Proof.
  intros Hs Hp. split.
  - intros Hne He. pose proof (inv_covered s (reachable_inv s Hs)) as Hc. unfold covered in Hc. rewrite Hp in Hc.
    destruct Hc as [?|[?|?]]; [done|congruence|done].
  - intros Hk. by apply (quit_covered s (reachable_quit_inv s Hs)).
Qed.

(** A thread queues a functor while the loop waits. *)
Lemma waiting_reachable :
  reachable (mkState InPoll [7] false false 0 1 false [7] ([] : list Z)).
Proof.
  apply (reach_step (mkState InPoll [] false false 0 0 false [] [])).
  - apply (reach_step (mkState AtTop [] false false 0 0 false [] [])); [|apply step_continue].
    apply (reach_step initial); [apply reach_initial|apply step_enter].
  - apply (step_push_other 7).
Qed.

Lemma functors_fifo_witness :
  queued (mkState InPoll [7] false false 0 1 false [7] ([] : list Z)) = [] ++ [] ++ [7].
Proof. exact (functors_fifo _ waiting_reachable). Defined.

Lemma no_lost_wakeup_witness :
  ([7] ≠ [] → false = false → 0 < 0 ∨ 0 < 1) ∧ (false = true → 0 < 0 ∨ 0 < 1).
Proof.
  exact (no_lost_wakeup (mkState InPoll [7] false false 0 1 false [7] ([] : list Z)) waiting_reachable eq_refl).
Defined.

(** The two gaps.  A functor that the loop's own thread queues before [loop()] does not wake the
    loop: it waits in [poll] with the functor queued and the eventfd not readable.  A [quit] requested
    before [loop()] is cleared on entry: the loop waits with the flag down and no wake-up under way. *)
Theorem wakeup_gaps :
  (∃ s : state (F := Z), reachable s ∧ at_ s = InPoll ∧ pending s = [7] ∧ eventfd s = 0 ∧ writers s = 0) ∧
  (∃ s s' : state (F := Z), reachable s ∧ quit_flag s = true ∧ at_ s = NotLooping ∧ step s s' ∧
     quit_flag s' = false ∧ at_ s' = AtTop).
Proof.
  split.
  - exists (mkState InPoll [7] false false 0 0 true [7] []). split; [|done].
    apply (reach_step (mkState AtTop [7] false false 0 0 true [7] [])); [|apply step_continue].
    apply (reach_step (mkState NotLooping [7] false false 0 0 true [7] [])); [|apply step_enter].
    apply (reach_step initial); [apply reach_initial|].
    exact (step_push_own 7 NotLooping [] false false 0 0 false [] [] eq_refl).
  - exists (mkState NotLooping [] false true 0 1 false [] []), (mkState AtTop [] false false 0 1 false [] []).
    split_and!; try done; [|apply step_enter].
    apply (reach_step initial); [apply reach_initial|]. apply step_quit_other.
Qed.
