(* ===== verification/TcpConnection.v ===== *)
(** * TcpConnection: [net::TcpConnection] (net/Tcp/TcpConnection.h, TcpConnection.cc)

    One connection in the loop that serves it.  The world of its handlers is the loop,
    the connection object, what surrounds it (its owner's map, who holds a pointer, what
    the socket answers) and a log of what happened.  User callbacks are arbitrary: each
    is a function from what happened so far and the bytes waiting in the input buffer to
    the calls it makes. *)
From S2P Require Import Prelude Timestamp Buffer ByteQueue Channel EPollPoller EventLoop.

(** ** Data *)

Inductive StateE : Type := KDisconnected | KConnecting | KConnected | KDisconnecting.

#[export] Instance StateE_eq_dec : EqDecision StateE.
Proof. solve_decision. Defined.

Definition stateToString (s : StateE) : list byte :=
  match s with
  | KDisconnected => txt "kDisconnected"
  | KConnecting => txt "kConnecting"
  | KConnected => txt "kConnected"
  | KDisconnecting => txt "kDisconnecting"
  end.

(** What is bound into a [std::function]: the channel's callbacks and the loop's functors. *)
Inductive functor : Type :=
| FHandleRead | FHandleWrite | FHandleClose | FHandleError
| FConnectEstablished | FConnectDestroyed | FForceCloseInLoop
| FSendInLoop (message : list byte) | FStopReadInLoop | FStartReadInLoop
| FWriteComplete | FHighWaterMark (n : Z).

#[export] Instance functor_eq_dec : EqDecision functor.
Proof. solve_decision. Defined.

(** What the user sees, in order. *)
Inductive event : Type :=
| EvUp                                             (** connection callback, connected *)
| EvMessage (input : list byte) (t : Timestamp)    (** message callback *)
| EvWriteComplete
| EvHighWaterMark (n : Z)
| EvDown.                                          (** connection callback, disconnected *)

#[export] Instance event_eq_dec : EqDecision event.
Proof. solve_decision. Defined.

(** The calls a callback can make on its connection and its input buffer. *)
Inductive call : Type :=
| Send (message : list byte)
| ForceClose
| Retrieve (n : Z)         (** [buf->retrieve(min(n, buf->readableBytes()))] *)
| StartRead
| StopRead.

Definition Callback : Type := list event → list byte → list call.

(** Who set the close callback: a [TcpServer] whose loop is the connection's or another
    thread's, or a [TcpClient]. *)
Inductive owner : Type := ServerInLoop | ServerOtherLoop | Client.

#[export] Instance owner_eq_dec : EqDecision owner.
Proof. solve_decision. Defined.

Record Callbacks : Type := mkCallbacks {
  connectionCallback_ : option Callback;
  messageCallback_ : option Callback;
  writeCompleteCallback_ : option Callback;
  highWaterMarkCallback_ : option Callback;
  closeCallback_ : option owner;
  highWaterMark_ : Z
}.

(** What a [write] meets: room for a number of bytes, or an error; [logged] is what logging it leaves in [errno]. *)
Inductive write_answer : Type := WRoom (n : Z) | WError (errno logged : Z).

Definition EPIPE : Z := 32.
Definition ECONNRESET : Z := 104.
Definition EWOULDBLOCK : Z := 11.

(** ** State *)

Section connection.
Context `{Epoll} {Q : Type} `{!ByteQueue Q}.

Record TcpConnection : Type := mkConn {
  state_ : StateE;
  reading_ : bool;
  inputBuffer_ : Q;
  outputBuffer_ : Q
}.

Definition TcpConnection_init : TcpConnection := mkConn KConnecting true q_init q_init.

(** Around the connection.  A socket whose answers are used up has no room and no data. *)
Record Outside : Type := mkOutside {
  in_map_ : bool;        (** the owner's map (or [connection_]) has it *)
  removals_ : Z;         (** [removeConnectionInLoop]s queued in the server's own loop *)
  holds_ : bool;         (** another thread holds a [TcpConnectionPtr] *)
  freed_ : bool;         (** it was destroyed *)
  writes_ : list write_answer;
  reads_ : list (list Z → readv_answer)
}.

Record Log : Type := mkLog {
  trace_ : list event;
  sent_ : list byte;        (** given to [sendInLoop] while not disconnected *)
  wire_ : list byte;        (** accepted by the kernel *)
  broken_ : bool;           (** a message was dropped after a fatal write error *)
  received_ : list byte;    (** delivered by the kernel *)
  consumed_ : list byte     (** retrieved by the user *)
}.

Record World : Type := mkWorld {
  loop_ : EventLoop functor;
  conn_ : TcpConnection;
  env_ : Outside;
  log_ : Log
}.

Definition set_loop_ l w := mkWorld l (conn_ w) (env_ w) (log_ w).
Definition set_conn c w := mkWorld (loop_ w) c (env_ w) (log_ w).
Definition set_env e w := mkWorld (loop_ w) (conn_ w) e (log_ w).
Definition set_log g w := mkWorld (loop_ w) (conn_ w) (env_ w) g.

#[export, refine] Instance world_loop : HasLoop functor World := {|
  loop_of := loop_;
  set_loop := set_loop_
|}.
Proof.
  - done.
  - by intros [].
  - done.
Defined.

Definition set_state s c := mkConn s (reading_ c) (inputBuffer_ c) (outputBuffer_ c).
Definition set_reading b c := mkConn (state_ c) b (inputBuffer_ c) (outputBuffer_ c).
Definition set_input q c := mkConn (state_ c) (reading_ c) q (outputBuffer_ c).
Definition set_output q c := mkConn (state_ c) (reading_ c) (inputBuffer_ c) q.

Definition set_in_map b e := mkOutside b (removals_ e) (holds_ e) (freed_ e) (writes_ e) (reads_ e).
Definition set_removals n e := mkOutside (in_map_ e) n (holds_ e) (freed_ e) (writes_ e) (reads_ e).
Definition set_holds b e := mkOutside (in_map_ e) (removals_ e) b (freed_ e) (writes_ e) (reads_ e).
Definition set_freed b e := mkOutside (in_map_ e) (removals_ e) (holds_ e) b (writes_ e) (reads_ e).
Definition set_writes l e := mkOutside (in_map_ e) (removals_ e) (holds_ e) (freed_ e) l (reads_ e).
Definition set_reads l e := mkOutside (in_map_ e) (removals_ e) (holds_ e) (freed_ e) (writes_ e) l.

Definition log_event ev g := mkLog (trace_ g ++ [ev]) (sent_ g) (wire_ g) (broken_ g) (received_ g) (consumed_ g).
Definition log_sent d g := mkLog (trace_ g) (sent_ g ++ d) (wire_ g) (broken_ g) (received_ g) (consumed_ g).
Definition log_wire d g := mkLog (trace_ g) (sent_ g) (wire_ g ++ d) (broken_ g) (received_ g) (consumed_ g).
Definition log_broken g := mkLog (trace_ g) (sent_ g) (wire_ g) true (received_ g) (consumed_ g).
Definition log_received d g := mkLog (trace_ g) (sent_ g) (wire_ g) (broken_ g) (received_ g ++ d) (consumed_ g).
Definition log_consumed d g := mkLog (trace_ g) (sent_ g) (wire_ g) (broken_ g) (received_ g) (consumed_ g ++ d).

Definition on_conn {A} (m : prog TcpConnection A) : prog World A := λ w,
  match m (conn_ w) with Ok (a, c) => Ok (a, set_conn c w) | Fault f => Fault f end.
Definition on_input {A} (m : prog Q A) : prog TcpConnection A := λ c,
  match m (inputBuffer_ c) with Ok (a, q) => Ok (a, set_input q c) | Fault f => Fault f end.
Definition on_output {A} (m : prog Q A) : prog TcpConnection A := λ c,
  match m (outputBuffer_ c) with Ok (a, q) => Ok (a, set_output q c) | Fault f => Fault f end.

Definition log (f : Log → Log) : prog World () := modify (λ w, set_log (f (log_ w)) w).
Definition setState (s : StateE) : prog World () := on_conn (modify (set_state s)).

(** [sockets::write]: the result, [errno], and [errno] once an error has been logged. *)
Definition sockets_write (d : list byte) : prog World (Z * Z * Z) :=
  w ← get;
  let a := match writes_ (env_ w) with a :: _ => a | [] => WError EWOULDBLOCK EWOULDBLOCK end in
  put (set_env (set_writes (tail (writes_ (env_ w))) (env_ w)) w) ;;
  match a with
  | WRoom n => let k := (n `max` 0) `min` zlen d in
               log (log_wire (ztake k d)) ;; mret (k, 0, 0)
  | WError errno logged => mret (-1, errno, logged)
  end.

(** What [readv] will answer. *)
Definition next_read : prog World (list Z → readv_answer) :=
  w ← get;
  put (set_env (set_reads (tail (reads_ (env_ w))) (env_ w)) w) ;;
  mret (match reads_ (env_ w) with r :: _ => r | [] => λ _, RvError EWOULDBLOCK end).

(** ** Operations *)

Context (ch tid other fd : Z) (cbs : Callbacks).

(** The constructor's channel, at the address [ch]. *)
Definition conn_channel : Channel functor :=
  setErrorCallback (Some FHandleError) (setCloseCallback (Some FHandleClose)
    (setWriteCallback (Some FHandleWrite) (setReadCallback (Some FHandleRead) (Channel_init fd)))).

(** ~TcpConnection, with the channel it owns. *)
Definition TcpConnection_dtor : prog World () :=
  w ← get;
  assert! (bool_decide (state_ (conn_ w) = KDisconnected)) ;;
  c ← on_loop (on_poller (channel_at ch));
  lift (Channel_dtor c) ;;
  on_loop (on_poller (modify (λ p, set_heap (delete ch (heap_ p)) p))).

Definition channel_ : prog World (Channel functor) := on_loop (on_poller (channel_at ch)).

Definition is_set {A} (o : option A) : bool := match o with Some _ => true | None => false end.

(** The attempt to write at once: bytes written, bytes left and whether the error was fatal. *)
Definition send_directly (message : list byte) (len : Z) : prog World (Z * Z * bool) :=
  c ← channel_;
  w ← get;
  if negb (isWriting c) && (q_readable (outputBuffer_ (conn_ w)) =? 0) then
    d ← lift (mem_read message 0 len);
    '(nwrote, errno, logged) ← sockets_write d;
    if 0 <=? nwrote then
      when_ ((u64 (len - nwrote) =? 0) && is_set (writeCompleteCallback_ cbs))
        (on_loop (queueInLoop tid FWriteComplete)) ;;
      mret (nwrote, u64 (len - nwrote), false)
    else
      mret (0, len, negb (errno =? EWOULDBLOCK) && ((logged =? EPIPE) || (logged =? ECONNRESET)))
  else mret (0, len, false).

(** What is left goes into the output buffer. *)
Definition send_buffered (message : list byte) (nwrote remaining : Z) : prog World () :=
  oldLen ← gets (λ w, q_readable (outputBuffer_ (conn_ w)));
  when_ ((highWaterMark_ cbs <=? u64 (oldLen + remaining)) && (oldLen <? highWaterMark_ cbs)
         && is_set (highWaterMarkCallback_ cbs))
    (on_loop (queueInLoop tid (FHighWaterMark (u64 (oldLen + remaining))))) ;;
  d ← lift (mem_read message nwrote remaining);
  on_conn (on_output (q_append d remaining)) ;;
  c ← channel_;
  when_ (negb (isWriting c)) (on_loop (enableWriting tid ch)).

Definition sendInLoop (message : list byte) (len : Z) : prog World () :=
  on_loop (assertInLoopThread tid) ;;
  w ← get;
  if bool_decide (state_ (conn_ w) = KDisconnected) then mret tt else
  log (log_sent (ztake len message)) ;;
  '(nwrote, remaining, faultError) ← send_directly message len;
  assert! (remaining <=? len) ;;
  if negb faultError && (0 <? remaining) then send_buffered message nwrote remaining
  else when_ faultError (log log_broken).

(** [send(message, len)] from the thread [t]; [len] is an [int].  In another thread than the
    loop's, [runInLoop] queues the functor. *)
Definition send (t : Z) (message : list byte) : prog World () :=
  let len := to_signed 32 (zlen message) in
  w ← get;
  if isInLoopThread t (loop_ w) then sendInLoop message (u64 len)
  else if len <? 0 then raise LengthError    (* of the [std::string] *)
  else runInLoop (λ _, sendInLoop message len) t (FSendInLoop (ztake len message)).

Definition sendInLoop_string (message : list byte) : prog World () := send tid message.

Definition forceClose (t : Z) : prog World () :=
  w ← get;
  when_ (bool_decide (state_ (conn_ w) = KConnected ∨ state_ (conn_ w) = KDisconnecting))
    (setState KDisconnecting ;;
     on_loop (queueInLoop t FForceCloseInLoop)).

Definition stopReadInLoop : prog World () :=
  on_loop (assertInLoopThread tid) ;;
  w ← get;
  c ← channel_;
  when_ (negb (reading_ (conn_ w)) || negb (isReading c))
    (on_loop (enableReading tid ch) ;;
     on_conn (modify (set_reading true))).

Definition startRead (t : Z) : prog World () :=
  runInLoop (λ _, stopReadInLoop) t FStopReadInLoop.

Definition stopRead (t : Z) : prog World () :=
  on_loop (assertInLoopThread t) ;;
  w ← get;
  c ← channel_;
  when_ (reading_ (conn_ w) || isReading c)
    (on_loop (disableReading t ch) ;;
     on_conn (modify (set_reading false))).

(** [startReadInLoop] runs itself in the loop; [fuel] bounds the recursion in the loop's thread. *)
Fixpoint startReadInLoop (fuel : nat) (t : Z) : prog World () :=
  match fuel with
  | O => raise OutOfFuel
  | S fuel => runInLoop (λ _, startReadInLoop fuel t) t FStartReadInLoop
  end.

(** ** User callbacks *)

Definition run_call (c : call) : prog World () :=
  match c with
  | Send message => send tid message
  | ForceClose => forceClose tid
  | Retrieve n =>
      w ← get;
      let q := inputBuffer_ (conn_ w) in
      let k := (n `max` 0) `min` q_readable q in
      log (log_consumed (ztake k (q_bytes q))) ;;
      on_conn (on_input (q_retrieve k))
  | StartRead => startRead tid
  | StopRead => stopRead tid
  end.

Definition call_user (cb : Callback) : prog World () :=
  w ← get;
  for_each run_call (cb (trace_ (log_ w)) (q_bytes (inputBuffer_ (conn_ w)))).

Definition call_user_if (cb : option Callback) : prog World () :=
  match cb with Some cb => call_user cb | None => mret tt end.
Definition call_user_always (cb : option Callback) : prog World () :=
  match cb with Some cb => call_user cb | None => raise BadFunctionCall end.

(** ** Lifecycle *)

Definition connectEstablished : prog World () :=
  on_loop (assertInLoopThread tid) ;;
  w ← get;
  assert! (bool_decide (state_ (conn_ w) = KConnecting)) ;;
  setState KConnected ;;
  on_loop (on_poller (modify_channel ch (tie ch))) ;;
  on_loop (enableReading tid ch) ;;
  log (log_event EvUp) ;;
  call_user_if (connectionCallback_ cbs).

Definition connectDestroyed : prog World () :=
  on_loop (assertInLoopThread tid) ;;
  w ← get;
  when_ (bool_decide (state_ (conn_ w) = KConnected))
    (setState KDisconnected ;;
     on_loop (disableAll tid ch) ;;
     log (log_event EvDown) ;;
     call_user_always (connectionCallback_ cbs)) ;;
  on_loop (Channel_remove tid ch).

(** [TcpServer::removeConnectionInLoop] in the server's thread [t]. *)
Definition removeConnectionInLoop (t : Z) : prog World () :=
  w ← get;
  assert! (in_map_ (env_ w)) ;;
  put (set_env (set_in_map false (env_ w)) w) ;;
  on_loop (queueInLoop t FConnectDestroyed).

(** The close callback: [TcpServer::removeConnection] or [TcpClient::removeConnection]. *)
Definition closeCallback (o : owner) : prog World () :=
  match o with
  | ServerInLoop => removeConnectionInLoop tid
  | ServerOtherLoop => modify (λ w, set_env (set_removals (removals_ (env_ w) + 1) (env_ w)) w)
  | Client =>
      on_loop (assertInLoopThread tid) ;;
      modify (λ w, set_env (set_in_map false (env_ w)) w) ;;
      connectDestroyed
  end.

Definition handleClose : prog World () :=
  on_loop (assertInLoopThread tid) ;;
  w ← get;
  assert! (bool_decide (state_ (conn_ w) = KConnected ∨ state_ (conn_ w) = KDisconnecting)) ;;
  setState KDisconnected ;;
  on_loop (disableAll tid ch) ;;
  log (log_event EvDown) ;;
  call_user_if (connectionCallback_ cbs) ;;
  match closeCallback_ cbs with Some o => closeCallback o | None => mret tt end.

Definition forceCloseInLoop : prog World () :=
  on_loop (assertInLoopThread tid) ;;
  w ← get;
  when_ (bool_decide (state_ (conn_ w) = KConnected ∨ state_ (conn_ w) = KDisconnecting)) handleClose.

(** Only logs. *)
Definition handleError : prog World () := c ← channel_; mret tt.

Definition handleRead (receiveTime : Timestamp) : prog World () :=
  on_loop (assertInLoopThread tid) ;;
  readv ← next_read;
  old ← gets (λ w, q_bytes (inputBuffer_ (conn_ w)));
  '(n, savedErrno) ← on_conn (on_input (q_readFd readv));
  w ← get;
  log (log_received (zdrop (zlen old) (q_bytes (inputBuffer_ (conn_ w))))) ;;
  if 0 <? n then
    log (log_event (EvMessage (q_bytes (inputBuffer_ (conn_ w))) receiveTime)) ;;
    call_user_always (messageCallback_ cbs)
  else if n =? 0 then handleClose
  else handleError.

Definition handleWrite : prog World () :=
  on_loop (assertInLoopThread tid) ;;
  c ← channel_;
  when_ (isWriting c)
    (w ← get;
     d ← lift (q_contents (outputBuffer_ (conn_ w)));
     '(n, _, _) ← sockets_write d;
     when_ (0 <? n)
       (on_conn (on_output (q_retrieve n)) ;;
        w ← get;
        when_ (q_readable (outputBuffer_ (conn_ w)) =? 0)
          (on_loop (disableWriting tid ch) ;;
           when_ (is_set (writeCompleteCallback_ cbs)) (on_loop (queueInLoop tid FWriteComplete)) ;;
           w ← get;
           when_ (bool_decide (state_ (conn_ w) = KDisconnecting)) forceCloseInLoop))).

(** ** Running what is bound *)

Definition exec (f : functor) : prog World () :=
  w ← get;
  if freed_ (env_ w) then raise UndefinedBehaviour else
  match f with
  | FHandleRead => handleRead 0
  | FHandleWrite => handleWrite
  | FHandleClose => handleClose
  | FHandleError => handleError
  | FConnectEstablished => connectEstablished
  | FConnectDestroyed => connectDestroyed
  | FForceCloseInLoop => forceCloseInLoop
  | FSendInLoop message => sendInLoop_string message
  | FStopReadInLoop => stopReadInLoop
  | FStartReadInLoop => startReadInLoop 1 tid
  | FWriteComplete => log (log_event EvWriteComplete) ;; call_user_if (writeCompleteCallback_ cbs)
  | FHighWaterMark n => log (log_event (EvHighWaterMark n)) ;; call_user_if (highWaterMarkCallback_ cbs)
  end.

Definition exec_read (f : functor) (t : Timestamp) : prog World () :=
  match f with FHandleRead => handleRead t | _ => exec f end.

(** ** Running the loop

    The connection is destroyed with its last [shared_ptr]: the owner's, the ones bound into
    queued functors ([send]'s functor and the reading ones bind a bare [this]), and another
    thread's. *)

Definition keeps (f : functor) : bool :=
  match f with FSendInLoop _ | FStopReadInLoop | FStartReadInLoop => false | _ => true end.

Definition referenced (w : World) : bool :=
  in_map_ (env_ w) || holds_ (env_ w) || (0 <? removals_ (env_ w)) ||
  existsb keeps (pendingFunctors_ (loop_ w)).

Definition release : prog World () :=
  w ← get;
  when_ (negb (freed_ (env_ w)) && negb (referenced w))
    (TcpConnection_dtor ;;
     modify (λ w, set_env (set_freed true (env_ w)) w)).

(** What [epoll_wait] reports when [r] happened on the socket: what was asked for, errors and
    hang-ups, if the descriptor is watched. *)
Definition reported (r : Z) (w : World) : list (Z * Z) :=
  match interest (epollfd_ (poller_ (loop_ w))) !! fd with
  | Some (c, ev) => let r' := Z.land r (Z.lor ev (Z.lor EPOLLERR EPOLLHUP)) in
                    if r' =? 0 then [] else [(c, r')]
  | None => []
  end.

Definition poll_once (r : Z) (t : Timestamp) : prog World () :=
  w ← get;
  iteration (λ _ w, negb (freed_ (env_ w))) exec exec_read other
    (mkPollInput [] false (Some (reported r w)) t).

(** What happens around the loop: another thread, once the connection callback has given it the
    connection and as long as it holds it, calls [send] or [forceClose] or lets go of it; the
    server's own loop runs a removal; the connection's loop runs an iteration.  Calls of other
    threads take effect while the loop polls. *)
Inductive step : Type :=
| OtherSend (message : list byte)
| OtherForceClose
| OtherDrop
| MainRemove
| Poll (r : Z) (t : Timestamp).

Definition can_call (w : World) : bool := holds_ (env_ w) && bool_decide (EvUp ∈ trace_ (log_ w)).

Definition run_step (s : step) : prog World () :=
  w ← get;
  match s with
  | OtherSend message => when_ (can_call w) (send other message)
  | OtherForceClose => when_ (can_call w) (forceClose other)
  | OtherDrop => put (set_env (set_holds false (env_ w)) w) ;; release
  | MainRemove =>
      when_ (0 <? removals_ (env_ w))
        (put (set_env (set_removals (removals_ (env_ w) - 1) (env_ w)) w) ;;
         removeConnectionInLoop other)
  | Poll r t => poll_once r t ;; release
  end.

(** The owner's last step of [newConnection]; a server in another thread queues it. *)
Definition establish : prog World () :=
  runInLoop exec (match closeCallback_ cbs with Some ServerOtherLoop => other | _ => tid end)
    FConnectEstablished.

Definition run (steps : list step) : prog World () := establish ;; for_each run_step steps.

(** A new connection in the owner's map. *)
Definition world_init (holds : bool) (ws : list write_answer) (rs : list (list Z → readv_answer)) : World :=
  mkWorld (EventLoop_init tid (EPollPoller_init {[ ch := conn_channel ]})) TcpConnection_init
    (mkOutside true 0 holds false ws rs) (mkLog [] [] [] false [] []).
End connection.
Arguments TcpConnection : clear implicits.
Arguments World {_} Q.
