(* ===== verification/ConnInvariant.v ===== *)
(** * ConnInvariant: the invariant of a connection and its loop

    A connection goes through the phases below, each of which fixes its state, its
    channel's registration, who still refers to it and the shape of the log.  Every
    handler, functor and call of a user keeps the invariant; a user may stop and start to read while
    the connection is up. *)
From S2P Require Import Prelude Timestamp Buffer ByteQueue Channel EPollPoller EventLoop TcpConnection.

(** ** Phases *)

Inductive phase : Type :=
| PConnecting     (** [connectEstablished] is queued *)
| POpen
| PClosing        (** closed, its owner not told *)
| PRequested      (** closed, the removal waits in the server's loop *)
| PRemoved        (** closed and out of the map, [connectDestroyed] is queued *)
| PDestroyed.     (** its channel is out of the poller *)

#[export] Instance phase_eq_dec : EqDecision phase.
Proof. solve_decision. Defined.

Definition is_traffic (e : event) : Prop := e ≠ EvUp ∧ e ≠ EvDown.
Definition is_notice (e : event) : Prop :=
  match e with EvWriteComplete | EvHighWaterMark _ => True | _ => False end.

Definition open_trace (tr : list event) : Prop :=
  ∃ ms, tr = (EvUp :: ms) ∧ Forall is_traffic ms.
Definition closed_trace (tr : list event) : Prop :=
  ∃ ms rest, tr = (EvUp :: ms ++ EvDown :: rest) ∧ Forall is_traffic ms ∧ Forall is_notice rest.

Definition destructions (q : list functor) : nat := length (filter (λ f, f = FConnectDestroyed) q).

(** What an open connection's channel asks for, and its registration then: a channel that asks for nothing is
    taken from the kernel.  One that asked for nothing when it was closed is given to the kernel again. *)
Definition asked (rd : bool) (out : list byte) : Z :=
  Z.lor (if rd then kReadEvent else kNoneEvent) (if decide (out = []) then kNoneEvent else kWriteEvent).
Definition index_for (ev : Z) : Z := if ev =? kNoneEvent then kDeleted else kAdded.
Definition shut (rd : bool) (idx : Z) : Prop := idx = kDeleted ∨ (rd = false ∧ idx = kAdded).

Definition phase_ok (ph : phase) (st : StateE) (rd : bool) (ev idx : Z) (added : bool) (in_map : bool)
    (removals : Z) (out : list byte) (q : list functor) (tr : list event) (reg : option Z) : Prop :=
  match ph with
  | PConnecting =>
      st = KConnecting ∧ idx = kNew ∧ ev = kNoneEvent ∧ added = false ∧ in_map = true ∧ removals = 0 ∧
      out = [] ∧ q = [FConnectEstablished] ∧ tr = [] ∧ reg = None ∧ rd = true
  | POpen =>
      (st = KConnected ∨ st = KDisconnecting) ∧ idx = index_for ev ∧ ev = asked rd out ∧ added = true ∧
      in_map = true ∧ removals = 0 ∧ (FConnectEstablished ∉ q) ∧ destructions q = 0%nat ∧ open_trace tr
  | _ =>
      st = KDisconnected ∧ ev = kNoneEvent ∧ (FConnectEstablished ∉ q) ∧ closed_trace tr ∧
      match ph with
      | PClosing => shut rd idx ∧ added = true ∧ in_map = true ∧ removals = 0 ∧ destructions q = 0%nat
      | PRequested => shut rd idx ∧ added = true ∧ in_map = true ∧ removals = 1 ∧ destructions q = 0%nat
      | PRemoved => shut rd idx ∧ added = true ∧ in_map = false ∧ removals = 0 ∧ destructions q = 1%nat
      | _ => idx = kNew ∧ added = false ∧ in_map = false ∧ removals = 0 ∧ destructions q = 0%nat ∧ reg = None
      end
  end.

(** *** Masks *)

Lemma asked_writing rd out : has (asked rd out) kWriteEvent = bool_decide (out ≠ []).
Proof. unfold asked. by destruct rd, (decide (out = [])), (bool_decide_reflect (out ≠ [])). Qed.
Lemma asked_reading rd out : has (asked rd out) kReadEvent = rd.
Proof. unfold asked. by destruct rd, (decide (out = [])). Qed.
Lemma asked_nothing rd out : asked rd out = kNoneEvent → rd = false ∧ out = [].
Proof. unfold asked. by destruct rd, (decide (out = [])). Qed.

Lemma next_index_for ev ev' :
  ev ≠ kNoneEvent ∨ ev' ≠ kNoneEvent → next_index (index_for ev) ev' = index_for ev'.
Proof.
  unfold index_for. intros Hev. destruct (Z.eqb_spec ev kNoneEvent) as [->|]; cbn; [|done].
  destruct Hev as [?|Hev]; [done|]. by rewrite (proj2 (Z.eqb_neq _ _) Hev).
Qed.
Lemma index_for_registered ev : index_for ev ≠ kNew.
Proof. unfold index_for. by destruct (_ =? _). Qed.
Lemma shut_registered rd idx : shut rd idx → idx ≠ kNew.
Proof. by intros [->|[_ ->]]. Qed.

(** The requests of a channel in these terms. *)
Lemma enableReading_asked rd out : enableReading_mask (asked rd out) = asked true out.
Proof. unfold asked. by destruct rd, (decide (out = [])). Qed.
Lemma disableReading_asked rd out : disableReading_mask (asked rd out) = asked false out.
Proof. unfold asked. by destruct rd, (decide (out = [])). Qed.
Lemma enableWriting_asked rd out d : d ≠ [] → enableWriting_mask (asked rd out) = asked rd d.
Proof. intros Hd. unfold asked. rewrite (decide_False (P := d = [])) by done. by destruct rd, (decide (out = [])). Qed.
Lemma disableWriting_asked rd out : disableWriting_mask (asked rd out) = asked rd [].
Proof. unfold asked. by destruct rd, (decide (out = [])). Qed.

(** Where the loop is: handling events, inside the channel's handler, and the rest of the batch of
    functors it is running. *)
Record place : Type := mkPlace {
  p_loop : bool;
  p_chan : bool;
  p_todo : list functor;
  p_iter : Z;
  p_revents : Z      (** what the last poll reported *)
}.
Definition set_chan b k := mkPlace (p_loop k) b (p_todo k) (p_iter k) (p_revents k).
Definition set_todo q k := mkPlace (p_loop k) (p_chan k) q (p_iter k) (p_revents k).

(** How the callbacks behave: [bounded], they rely on less than 2 GiB being received altogether; [stops], they may
    stop and start to read. *)
Record manners : Type := mkManners { bounded : bool; stops : bool }.

Section invariant.
Context `{Epoll} {Q : Type} `{!ByteQueue Q}.
Context (ch tid other fd : Z) (cbs : Callbacks) (sends : bool) (mn : manners).
Implicit Types (w : World Q) (k : place).

#[local] Abbreviation allowed := (λ f, f = LengthError).

Definition queue (k : place) (w : World Q) : list functor := p_todo k ++ pendingFunctors_ (loop_ w).
Definition out_bytes (w : World Q) : list byte := q_bytes (outputBuffer_ (conn_ w)).

(** What may be queued.  [sends]: another thread holds the connection throughout and may call
    [send], whose functor has a bare [this]. *)
Definition queueable (f : functor) : Prop :=
  match f with
  | FConnectEstablished | FConnectDestroyed | FForceCloseInLoop | FWriteComplete | FHighWaterMark _ => True
  | FSendInLoop m => sends = true ∧ zlen m < 2 ^ 31
  | _ => False
  end.

(** The kernel delivers at most [n] bytes altogether. *)
Definition delivers (readv : list Z → readv_answer) (m : Z) : Prop := ∀ lens d, readv lens = RvData d → zlen d ≤ m.
Definition volume (rs : list (list Z → readv_answer)) (n : Z) : Prop :=
  ∃ ns, Forall2 delivers rs ns ∧ Forall (Z.le 0) ns ∧ foldr Z.add 0 ns ≤ n.

(** The part that holds in every phase; [c] is the connection's channel. *)
Record core (k : place) (w : World Q) (c : Channel functor) : Prop := {
  core_poller : poller_wf (poller_ (loop_ w));
  core_thread : threadId_ (loop_ w) = tid;
  core_handling : EventLoop.eventHandling_ (loop_ w) = p_loop k;
  core_current : p_loop k = true → currentActiveChannel_ (loop_ w) = Some ch;
  core_iter : iteration_ (loop_ w) = p_iter k;
  core_chan : heap_ (poller_ (loop_ w)) !! ch = Some c;
  core_fd : fd_ c = fd;
  core_revents : revents_ c = p_revents k;
  core_chan_handling : Channel.eventHandling_ c = p_chan k;
  core_callbacks : readCallback_ c = Some FHandleRead ∧ writeCallback_ c = Some FHandleWrite ∧
    Channel.closeCallback_ c = Some FHandleClose ∧ errorCallback_ c = Some FHandleError;
  core_input : q_ok (inputBuffer_ (conn_ w));
  core_output : q_ok (outputBuffer_ (conn_ w));
  core_received : received_ (log_ w) = consumed_ (log_ w) ++ q_bytes (inputBuffer_ (conn_ w));
  core_queue : Forall queueable (queue k w);
  core_held : sends = true → holds_ (env_ w) = true;
  core_reading : reading_ (conn_ w) = false → stops mn = true;
  core_freed : freed_ (env_ w) = false;
  core_reads : Forall readv_law (reads_ (env_ w));
  core_volume : bounded mn = true → ∃ n, volume (reads_ (env_ w)) n ∧ zlen (received_ (log_ w)) + n < 2 ^ 31
}.

Definition in_phase (ph : phase) (k : place) (w : World Q) (c : Channel functor) : Prop :=
  phase_ok ph (state_ (conn_ w)) (reading_ (conn_ w)) (events_ c) (index_ c) (addedToLoop_ c) (in_map_ (env_ w))
    (removals_ (env_ w)) (out_bytes w) (queue k w) (trace_ (log_ w))
    (channels_ (poller_ (loop_ w)) !! fd).

(** Everything sent is on the wire, in the output buffer or, while a message is being sent, in
    [rest]; until a message is dropped. *)
Definition sent_ok (rest : list byte) (w : World Q) : Prop :=
  broken_ (log_ w) = false → sent_ (log_ w) = wire_ (log_ w) ++ out_bytes w ++ rest.

Definition live (ph : phase) (k : place) (w : World Q) : Prop :=
  ∃ c, core k w c ∧ sent_ok [] w ∧ in_phase ph k w c.

(** ** Steps on the loop and the channel *)

Lemma destructions_app q1 q2 : destructions (q1 ++ q2) = (destructions q1 + destructions q2)%nat.
Proof. unfold destructions. by rewrite list.filter_app, length_app. Qed.
Lemma destructions_cons f q :
  destructions (f :: q) = ((if decide (f = FConnectDestroyed) then 1 else 0) + destructions q)%nat.
Proof. unfold destructions. rewrite list.filter_cons. by case_decide. Qed.

(** A functor that may be queued at any time while the connection is open. *)
Definition harmless (f : functor) : Prop := f ≠ FConnectEstablished ∧ f ≠ FConnectDestroyed.

Definition pushed (f : functor) (n : Z) (w : World Q) : World Q :=
  set_loop_ (set_wakeups n (set_pending (pendingFunctors_ (loop_ w) ++ [f]) (loop_ w))) w.

Lemma core_push k w c f n :
  core k w c → queueable f → core k (pushed f n w) c.
Proof.
  intros [] Hf. constructor; try done. unfold queue in *. cbn. rewrite app_assoc.
  apply Forall_app. split; [done|]. by apply Forall_singleton.
Qed.

Lemma in_phase_push ph k w c f n :
  ph ≠ PConnecting → harmless f → in_phase ph k w c → in_phase ph k (pushed f n w) c.
Proof.
  intros Hph [Hf1 Hf2]. unfold in_phase, queue. cbn. rewrite app_assoc.
  set (q := p_todo k ++ _).
  assert (Hq : FConnectEstablished ∉ q → FConnectEstablished ∉ q ++ [f]).
  { intros Hn. rewrite elem_of_app, list_elem_of_singleton. intros [?|?]; [done|congruence]. }
  assert (Hd : destructions (q ++ [f]) = destructions q).
  { rewrite destructions_app, destructions_cons. case_decide; [congruence|]. unfold destructions. cbn. lia. }
  unfold out_bytes. cbn. destruct ph; cbn [phase_ok]; rewrite ?Hd; [done|..]; intros; destruct_and!; split_and!; auto.
Qed.

Lemma push_spec {E} ph k w c f t rest :
  core k w c → sent_ok rest w → in_phase ph k w c → ph ≠ PConnecting → harmless f →
  queueable f →
  wpf E (on_loop (queueInLoop t f))
    (λ _ w', core k w' c ∧ sent_ok rest w' ∧ in_phase ph k w' c ∧ conn_ w' = conn_ w ∧
             env_ w' = env_ w ∧ log_ w' = log_ w) w.
Proof.
  intros Hc Hs Hp Hph Hf Hq. apply on_loop_spec, queueInLoop_spec. intros n _.
  change (set_loop _ w) with (pushed f n w).
  split_and!; [by apply core_push|done|by apply in_phase_push|done..].
Qed.

Lemma channel_spec {E} k w c (R : Channel functor → World Q → Prop) :
  core k w c → R c w → wpf E (channel_ ch) R w.
Proof.
  intros Hc HR. unfold channel_. apply on_loop_spec, on_poller_spec.
  eapply channel_at_spec; [by apply Hc|]. by destruct w as [[]].
Qed.

Lemma thread_spec {E} k w c (R : () → World Q → Prop) :
  core k w c → R tt w → wpf E (on_loop (assertInLoopThread tid)) R w.
Proof.
  intros Hc HR. apply on_loop_spec, assertInLoopThread_spec; [by apply Hc|]. by destruct w.
Qed.

(** A request of the connection's channel. *)
Lemma change_spec {E} mask k w c (R : () → World Q → Prop) :
  core k w c → (index_ c = kNew → channels_ (poller_ (loop_ w)) !! fd = None) →
  (∀ p', let w' := set_loop_ (set_poller p' (loop_ w)) w in
         core k w' (registered (set_addedToLoop true c) (mask (events_ c))) →
         channels_ p' !! fd = Some ch → R tt w') →
  wpf E (on_loop (change_events mask tid ch)) R w.
Proof.
  intros Hc Hnew HR. pose proof Hc as []. apply on_loop_spec. eapply wp_mono.
  { eapply change_events_spec; [done|done|done|]. by rewrite core_fd0. }
  cbv beta. intros [] l' (p' & -> & Hwf & Hheap & Hch & _). apply HR.
  - constructor; try done. cbn. rewrite Hheap. apply lookup_insert_eq.
  - rewrite Hch, core_fd0. apply lookup_insert_eq.
Qed.

(** Changes that [core] does not see. *)
Lemma core_frame k w w' c :
  core k w c → loop_ w' = loop_ w → inputBuffer_ (conn_ w') = inputBuffer_ (conn_ w) →
  reading_ (conn_ w') = reading_ (conn_ w) →
  q_ok (outputBuffer_ (conn_ w')) → holds_ (env_ w') = holds_ (env_ w) →
  freed_ (env_ w') = freed_ (env_ w) → reads_ (env_ w') = reads_ (env_ w) →
  received_ (log_ w') = received_ (log_ w) → consumed_ (log_ w') = consumed_ (log_ w) → core k w' c.
Proof.
  intros [] El Ei Erd Ho Eh Ef Er E1 E2. constructor; rewrite ?El, ?Ei, ?Erd, ?Eh, ?Ef, ?Er, ?E1, ?E2; try done.
  unfold queue. by rewrite El.
Qed.

Lemma sockets_write_spec {E} d w (R : Z * Z * Z → World Q → Prop) :
  (∀ ws n, 0 ≤ n ≤ zlen d →
     R (n, 0, 0) (set_log (log_wire (ztake n d) (log_ w)) (set_env (set_writes ws (env_ w)) w))) →
  (∀ ws e l, R (-1, e, l) (set_env (set_writes ws (env_ w)) w)) →
  wpf E (sockets_write d) R w.
Proof.
  intros Hn He. unfold sockets_write, log. wp_go.
  destruct (writes_ (env_ w)) as [|[n|e l] ws]; cbn [tail]; [by wp_go| |by wp_go].
  wp_go. apply Hn. pose proof (zlen_nonneg d). lia.
Qed.

Lemma setState_spec {E} st w (R : () → World Q → Prop) :
  R tt (set_conn (set_state st (conn_ w)) w) → wpf E (setState st) R w.
Proof. done. Qed.

(** ** Sending *)

Lemma u64_len {A} (l : list A) : zlen l < 2 ^ 31 → u64 (zlen l) = zlen l.
Proof. intros Hl. apply u64_small. pose proof (zlen_nonneg l). unfold is_u64, u64_modulus. lia. Qed.

(** What is known while a message is being sent. *)
Definition sending (rest : list byte) (k : place) (w : World Q) (c : Channel functor) : Prop :=
  core k w c ∧ sent_ok rest w ∧ in_phase POpen k w c.

Lemma open_writing k w c : core k w c → in_phase POpen k w c →
  isWriting c = negb (q_readable (outputBuffer_ (conn_ w)) =? 0).
Proof.
  intros Hc Hp. rewrite q_readable_spec by apply Hc. destruct Hp as (_ & _ & He & _).
  unfold isWriting, out_bytes in *. rewrite He, asked_writing.
  destruct (q_bytes _) as [|b l]; [done|]. rewrite zlen_cons. pose proof (zlen_nonneg l).
  destruct (Z.eqb_spec (1 + zlen l) 0); [lia|done].
Qed.

Lemma send_directly_spec message k w c :
  sending message k w c → zlen message < 2 ^ 31 →
  wpf allowed (send_directly ch tid cbs message (zlen message))
    (λ r w', let '(nwrote, remaining, fault) := r in
       0 ≤ nwrote ∧ nwrote + remaining = zlen message ∧ 0 ≤ remaining ∧
       sending (zdrop nwrote message) k w' c ∧ holds_ (env_ w') = holds_ (env_ w)) w.
Proof.
  intros (Hc & Hs & Hp) Hlen. pose proof (zlen_nonneg message) as H0.
  unfold send_directly. wp_go. eapply channel_spec; [done|]. wp_go.
  rewrite (open_writing _ _ _ Hc Hp), negb_involutive.
  destruct (Z.eqb_spec (q_readable (outputBuffer_ (conn_ w))) 0) as [Hq|Hq]; cbn [andb].
  2:{ wp_go. split_and!; try done; lia. }
  rewrite q_readable_spec in Hq by apply Hc. apply zlen_0 in Hq. wp_go.
  assert (Hread : mem_read message 0 (zlen message) = Ok message).
  { unfold mem_read. rewrite (proj2 (Z.leb_le 0 (zlen message))) by lia.
    rewrite (proj2 (Z.leb_le (0 + zlen message) (zlen message))) by lia.
    unfold zslice. rewrite zdrop_0, ztake_ge; [done|lia]. }
  rewrite Hread. wp_go. apply sockets_write_spec.
  - intros ws n Hn. wp_go. rewrite (proj2 (Z.leb_le 0 n)) by lia.
    rewrite u64_small by (unfold is_u64, u64_modulus; lia).
    set (w1 := set_log _ _).
    assert (Hc1 : core k w1 c) by (eapply core_frame; [exact Hc|try done..]; apply Hc).
    assert (Hs1 : sent_ok (zdrop n message) w1).
    { intros Hb. unfold w1, out_bytes in *. cbn in *. rewrite (Hs Hb). unfold out_bytes. rewrite Hq.
      cbn. by rewrite <- app_assoc, ztake_zdrop. }
    assert (Hp1 : in_phase POpen k w1 c) by exact Hp.
    assert (He1 : holds_ (env_ w1) = holds_ (env_ w)) by done. clearbody w1.
    wp_go. destruct (_ && _).
    + eapply wp_mono; [by eapply push_spec|]. cbv beta. intros _ w2 (? & ? & ? & _ & E2 & _). wp_go.
      rewrite E2. split_and!; try done; lia.
    + wp_go. split_and!; try done; lia.
  - intros ws e l. wp_go. split_and!; try done; [lia..|]. split_and!; [|done|done]. eapply core_frame; [exact Hc|try done..]. apply Hc.
Qed.

Lemma send_buffered_spec message nwrote remaining k w c :
  sending (zdrop nwrote message) k w c → 0 ≤ nwrote → 0 < remaining →
  nwrote + remaining = zlen message → zlen message < 2 ^ 31 →
  wpf allowed (send_buffered ch tid cbs message nwrote remaining)
    (λ _ w', live POpen k w' ∧ holds_ (env_ w') = holds_ (env_ w)) w.
Proof.
  intros (Hc & Hs & Hp) Hn Hr Hsum Hlen. unfold send_buffered.
  rewrite wp_bind, wp_gets. cbv beta. rewrite wp_bind, wp_when.
  set (oldLen := q_readable _). clearbody oldLen.
  assert (Hrest : ∀ w1, core k w1 c → sent_ok (zdrop nwrote message) w1 → in_phase POpen k w1 c →
    env_ w1 = env_ w →
    wpf allowed (d ← lift (mem_read message nwrote remaining);
      on_conn (on_output (q_append d remaining)) ;;
      c ← channel_ ch; when_ (negb (isWriting c)) (on_loop (enableWriting tid ch)))
      (λ _ w', live POpen k w' ∧ holds_ (env_ w') = holds_ (env_ w)) w1).
  { clear Hc Hs Hp. intros w1 Hc Hs Hp He. wp_go.
    assert (Hread : mem_read message nwrote remaining = Ok (zdrop nwrote message)).
    { unfold mem_read. rewrite (proj2 (Z.leb_le 0 nwrote)), (proj2 (Z.leb_le 0 remaining)) by lia.
      rewrite (proj2 (Z.leb_le (nwrote + remaining) (zlen message))) by lia.
      unfold zslice. rewrite ztake_ge; [done|]. rewrite zlen_zdrop; lia. }
    rewrite Hread. wp_go. set (d := zdrop nwrote message) in *.
    assert (Hd : zlen d = remaining) by (unfold d; rewrite zlen_zdrop; lia).
    assert (Hd63 : zlen d < 2 ^ 63) by lia.
    assert (Happ := q_append_spec allowed (outputBuffer_ (conn_ w1)) d (core_output _ _ _ Hc) Hd63 eq_refl).
    rewrite Hd in Happ. unfold wpf in Happ.
    unfold wpf at 1, on_conn at 1, on_output at 1. destruct (q_append d remaining _) as [[[] q]|f]; [|done].
    destruct Happ as [Hok Hbytes].
    set (w2 := set_conn _ w1).
    assert (Hc2 : core k w2 c) by (eapply core_frame; [exact Hc|done..]).
    assert (Hs2 : sent_ok [] w2).
    { intros Hb. unfold w2, out_bytes. cbn. rewrite Hbytes, (Hs Hb), app_nil_r. done. }
    assert (Hne : out_bytes w2 ≠ []).
    { unfold w2, out_bytes. cbn. rewrite Hbytes. intros E. apply app_eq_nil in E as [_ E].
      rewrite E, zlen_nil in Hd. lia. }
    assert (He2 : holds_ (env_ w2) = holds_ (env_ w)) by (unfold w2; cbn; by rewrite He).
    destruct Hp as (P1 & P2 & P3 & P4 & P5 & P6 & P7 & P8 & P9).
    assert (Hp2 : ∀ w3 c3, events_ c3 = asked (reading_ (conn_ w2)) (out_bytes w2) → index_ c3 = index_for (events_ c3) →
      addedToLoop_ c3 = true → conn_ w3 = conn_ w2 → env_ w3 = env_ w2 → log_ w3 = log_ w2 →
      pendingFunctors_ (loop_ w3) = pendingFunctors_ (loop_ w2) → in_phase POpen k w3 c3).
    { intros w3 c3 E1 E2 E3 E4 E5 E6 E7. unfold in_phase, phase_ok, queue, out_bytes in *. rewrite E3, E4, E5, E6, E7.
      by split_and!. }
    assert (Hrd : reading_ (conn_ w2) = reading_ (conn_ w1)) by done.
    clearbody w2. wp_go. eapply channel_spec; [done|]. wp_go.
    unfold isWriting. rewrite P3, asked_writing. case_bool_decide as Hev; cbn [negb].
    - split; [|done]. exists c. split_and!; [done|done|]. apply Hp2; try done. rewrite P3, Hrd.
      unfold asked. by rewrite !decide_False.
    - eapply change_spec; [done|by rewrite P2; intros ?%index_for_registered|]. intros p' w3 Hc3 _.
      split; [|done]. eexists. split_and!; [exact Hc3|exact Hs2|].
      assert (Hask : enableWriting_mask (events_ c) = asked (reading_ (conn_ w2)) (out_bytes w2)) by (rewrite P3, Hrd; by apply enableWriting_asked).
      apply Hp2; try done. cbn. rewrite Hask, P2. apply next_index_for. right. by intros [_ ?]%asked_nothing. }
  destruct (_ && _).
  - eapply wp_mono; [by eapply push_spec|]. cbv beta. intros _ w1 (? & ? & ? & _ & He & _). by apply Hrest.
  - by apply Hrest.
Qed.

Lemma live_closed ph k w : live ph k w → ph ≠ PConnecting → ph ≠ POpen → state_ (conn_ w) = KDisconnected.
Proof. intros (c & _ & _ & Hp) H1 H2. by destruct ph; destruct Hp as [? _]. Qed.

Lemma live_open k w : live POpen k w → state_ (conn_ w) = KConnected ∨ state_ (conn_ w) = KDisconnecting.
Proof. by intros (c & _ & _ & ? & _). Qed.

(** What a user's call leaves: the phase, and the loop of a connection that is not open. *)
Definition stays (ph : phase) (w w' : World Q) : Prop :=
  holds_ (env_ w') = holds_ (env_ w) ∧ (ph ≠ POpen → loop_ w' = loop_ w).

Lemma sendInLoop_spec message ph k w :
  live ph k w → ph ≠ PConnecting → zlen message < 2 ^ 31 →
  wpf allowed (sendInLoop ch tid cbs message (zlen message))
    (λ _ w', live ph k w' ∧ stays ph w w') w.
Proof.
  intros Hl Hph Hlen. pose proof Hl as (c & Hc & Hs & Hp). pose proof (zlen_nonneg message).
  unfold sendInLoop, log. wp_go. eapply thread_spec; [done|]. wp_go.
  case_bool_decide as Hst; [by wp_go|].
  assert (ph = POpen) as ->.
  { destruct (decide (ph = POpen)) as [|Hne]; [done|]. destruct Hst. by eapply live_closed. }
  wp_go. rewrite ztake_ge by lia. set (w1 := set_log _ w).
  assert (Hsend : sending message k w1 c).
  { split_and!; [|intros Hb; unfold w1; cbn|exact Hp].
    - eapply core_frame; [exact Hc|try done..]. apply Hc.
    - rewrite (Hs Hb), app_nil_r. unfold out_bytes. cbn. by rewrite <- app_assoc. }
  assert (Hw1 : holds_ (env_ w1) = holds_ (env_ w)) by done. clearbody w1.
  eapply wp_mono; [by apply send_directly_spec|]. cbv beta.
  intros [[nwrote remaining] fault] w2 (? & ? & ? & Hsend2 & Hw2). wp_go.
  apply wp_assert; [apply Z.leb_le; lia|]. wp_go. unfold stays. rewrite <- Hw1, <- Hw2.
  destruct fault; cbn [negb andb].
  - wp_go. destruct Hsend2 as (Hc2 & _ & Hp2). split; [|done]. exists c. split_and!; [|done|done].
    eapply core_frame; [exact Hc2|try done..]. apply Hc2.
  - destruct (Z.ltb_spec 0 remaining) as [Hr|Hr]; wp_go.
    + eapply wp_mono; [by eapply send_buffered_spec|]. cbv beta. intros _ w3 [Hl3 Hh3]. done.
    + destruct Hsend2 as (Hc2 & Hs2 & Hp2). rewrite zdrop_ge in Hs2 by lia. split; [by exists c|done].
Qed.

Lemma send_spec message ph k w :
  live ph k w → ph ≠ PConnecting → zlen message < 2 ^ 31 →
  wpf allowed (send ch tid cbs tid message) (λ _ w', live ph k w' ∧ stays ph w w') w.
Proof.
  intros Hl Hph Hlen. pose proof Hl as (c & Hc & _). unfold send. wp_go.
  unfold isInLoopThread. rewrite (core_thread _ _ _ Hc), Z.eqb_refl.
  rewrite to_signed_id; [|done|].
  - rewrite u64_len by done. by apply sendInLoop_spec.
  - unfold in_signed. pose proof (zlen_nonneg message). change (2 ^ (32 - 1)) with (2 ^ 31).
    rewrite andb_true_iff, Z.leb_le, Z.ltb_lt. lia.
Qed.

Lemma forceClose_spec ph k w :
  live ph k w → ph ≠ PConnecting → ∀ t,
  wpf allowed (forceClose t) (λ _ w', live ph k w' ∧ stays ph w w') w.
Proof.
  intros Hl Hph t. pose proof Hl as (c & Hc & Hs & Hp). unfold forceClose. wp_go.
  case_bool_decide as Hst; [|by wp_go].
  assert (ph = POpen) as ->.
  { destruct (decide (ph = POpen)) as [|Hne]; [done|].
    rewrite (live_closed _ _ _ Hl Hph Hne) in Hst. by destruct Hst. }
  wp_go. apply setState_spec. set (w1 := set_conn _ w).
  assert (Hc1 : core k w1 c) by (eapply core_frame; [exact Hc|try done..]; apply Hc).
  assert (Hp1 : in_phase POpen k w1 c).
  { destruct Hp as (_ & Hp). split; [by right|exact Hp]. }
  eapply wp_mono; [eapply (push_spec _ _ w1); [exact Hc1|exact Hs|exact Hp1|done|done|done]|]. cbv beta.
  intros _ w2 (Hc2 & Hs2 & Hp2 & _ & He2 & _). split; [by exists c|]. split; [by rewrite He2|done].
Qed.

Lemma retrieve_call_spec n ph k w :
  live ph k w → wpf allowed (run_call ch tid cbs (Retrieve n)) (λ _ w', live ph k w' ∧ stays ph w w') w.
Proof.
  intros (c & Hc & Hs & Hp). pose proof Hc as []. cbn [run_call]. unfold log. wp_go.
  rewrite q_readable_spec by done. set (q := inputBuffer_ (conn_ w)) in *.
  pose proof (zlen_nonneg (q_bytes q)). set (m := (n `max` 0) `min` zlen (q_bytes q)).
  assert (Hm : 0 ≤ m ≤ zlen (q_bytes q)) by (unfold m; lia). clearbody m.
  pose proof (q_retrieve_spec allowed q m core_input0 Hm) as Hr. unfold wpf in Hr.
  unfold wpf, on_conn, on_input. cbn. fold q. destruct (q_retrieve m q) as [[[] q']|]; [|done].
  destruct Hr as [Hok Hb]. split; [|done]. exists c. split_and!; [|exact Hs|exact Hp].
  constructor; try done. cbn. rewrite core_received0, Hb, <- app_assoc. by rewrite ztake_zdrop.
Qed.

(** Reading is stopped and started only while the connection is up. *)
Lemma in_phase_reading k w w' c c' :
  in_phase POpen k w c → events_ c' = asked (reading_ (conn_ w')) (out_bytes w') → index_ c' = index_for (events_ c') →
  addedToLoop_ c' = true → state_ (conn_ w') = state_ (conn_ w) → env_ w' = env_ w → log_ w' = log_ w →
  pendingFunctors_ (loop_ w') = pendingFunctors_ (loop_ w) → in_phase POpen k w' c'.
Proof.
  intros (P1 & P2 & P3 & P4 & P5 & P6 & P7 & P8 & P9) E1 E2 E3 E4 E5 E6 E7.
  unfold in_phase, phase_ok, queue in *. rewrite E3, E4, E5, E6, E7. by split_and!.
Qed.

(** A request of an open connection that changes what it reads. *)
Lemma reading_spec {E} mask b k w :
  live POpen k w → stops mn = true → (∀ rd out, mask (asked rd out) = asked b out) →
  b = true ∨ reading_ (conn_ w) = true →
  wpf E (on_loop (change_events mask tid ch) ;; on_conn (modify (set_reading b))) (λ _ w', live POpen k w' ∧ stays POpen w w') w.
Proof.
  intros (c & Hc & Hs & Hp) Hstops Hmask Hb. pose proof Hp as (_ & P2 & P3 & _). rewrite wp_bind.
  eapply change_spec; [exact Hc|by rewrite P2; intros ?%index_for_registered|]. intros p' w1 Hc1 _.
  split; [|done]. set (w2 := set_conn _ _). exists (registered (set_addedToLoop true c) (mask (events_ c))).
  assert (Hev : mask (events_ c) = asked b (out_bytes w)) by (by rewrite P3, Hmask).
  split_and!; [|exact Hs|].
  - destruct Hc1. by constructor.
  - eapply (in_phase_reading k w); [exact Hp|exact Hev| |done..]. cbn. rewrite P2. apply next_index_for. rewrite P3, Hmask.
    destruct Hb as [->|Hb]; [right|left; rewrite Hb]; by intros [? _]%asked_nothing.
Qed.

Lemma stopRead_spec k w :
  live POpen k w → stops mn = true →
  wpf allowed (stopRead ch tid) (λ _ w', live POpen k w' ∧ stays POpen w w') w.
Proof.
  intros Hl Hstops. pose proof Hl as (c & Hc & _ & Hp). unfold stopRead. wp_go. eapply thread_spec; [done|]. wp_go.
  eapply channel_spec; [done|]. wp_go. destruct Hp as (_ & _ & P3 & _). unfold isReading. rewrite P3, asked_reading, orb_diag.
  destruct (reading_ (conn_ w)) eqn:Hr; [|done]. rewrite <- wp_bind.
  apply (reading_spec disableReading_mask false); [done|done|apply disableReading_asked|by right].
Qed.

Lemma startRead_spec k w :
  live POpen k w → stops mn = true →
  wpf allowed (startRead ch tid tid) (λ _ w', live POpen k w' ∧ stays POpen w w') w.
Proof.
  intros Hl Hstops. pose proof Hl as (c & Hc & _ & Hp). unfold startRead, runInLoop, isInLoopThread. wp_go.
  change (loop_of w) with (loop_ w). rewrite (core_thread _ _ _ Hc), Z.eqb_refl. unfold stopReadInLoop. wp_go.
  eapply thread_spec; [done|]. wp_go.
  eapply channel_spec; [done|]. wp_go. destruct Hp as (_ & _ & P3 & _). unfold isReading. rewrite P3, asked_reading, orb_diag.
  destruct (reading_ (conn_ w)) eqn:Hr; [done|]. cbn [negb]. rewrite <- wp_bind.
  apply (reading_spec enableReading_mask true); [done|done|apply enableReading_asked|by left].
Qed.

(** What callbacks may call; [up]: the connection is not down. *)
Definition polite (up : Prop) (c : call) : Prop :=
  match c with Send m => zlen m < 2 ^ 31 | ForceClose | Retrieve _ => True | StartRead | StopRead => stops mn = true ∧ up end.

Lemma run_call_spec a ph k w :
  live ph k w → ph ≠ PConnecting → polite (ph = POpen) a →
  wpf allowed (run_call ch tid cbs a) (λ _ w', live ph k w' ∧ stays ph w w') w.
Proof.
  intros Hl Hph Ha. destruct a as [m| |n| |]; [by apply send_spec|by apply forceClose_spec|by apply retrieve_call_spec|..].
  - destruct Ha as [Hs ->]. by apply startRead_spec.
  - destruct Ha as [Hs ->]. by apply stopRead_spec.
Qed.

(** [bounded]: the connection receives less than 2 GiB, so its input always fits an [int]. *)
Definition polite_callback (cb : Callback) : Prop :=
  ∀ tr input, (bounded mn = true → zlen input < 2 ^ 31) → Forall (polite (EvDown ∉ tr)) (cb tr input).

Lemma volume_nonneg rs n : volume rs n → 0 ≤ n.
Proof.
  intros (ns & _ & Hns & Hsum). assert (0 ≤ foldr Z.add 0 ns); [|lia].
  clear Hsum. induction Hns; cbn; lia.
Qed.

Lemma live_input ph k w :
  live ph k w → bounded mn = true → zlen (q_bytes (inputBuffer_ (conn_ w))) < 2 ^ 31.
Proof.
  intros (c & Hc & _) Hb. destruct (core_volume _ _ _ Hc Hb) as (n & Hn%volume_nonneg & Hlt).
  rewrite (core_received _ _ _ Hc), zlen_app in Hlt. pose proof (zlen_nonneg (consumed_ (log_ w))). lia.
Qed.

Lemma live_up ph k w : live ph k w → ph ≠ PConnecting → EvDown ∉ trace_ (log_ w) → ph = POpen.
Proof.
  intros (c & _ & _ & Hp) Hph Hup. destruct (decide (ph = POpen)) as [|Hne]; [done|]. destruct Hup.
  assert (closed_trace (trace_ (log_ w))) as (ms & rest & -> & _) by (by destruct ph; destruct Hp as (_ & _ & _ & ? & _)).
  right. apply elem_of_app. right. left.
Qed.

Lemma call_user_spec cb ph k w :
  live ph k w → ph ≠ PConnecting → polite_callback cb →
  wpf allowed (call_user ch tid cbs cb) (λ _ w', live ph k w' ∧ stays ph w w') w.
Proof.
  intros Hl Hph Hcb. unfold call_user. wp_go.
  specialize (Hcb (trace_ (log_ w)) (q_bytes (inputBuffer_ (conn_ w))) (live_input _ _ _ Hl)).
  assert (Hcalls : Forall (polite (ph = POpen)) (cb (trace_ (log_ w)) (q_bytes (inputBuffer_ (conn_ w))))).
  { eapply list.Forall_impl; [exact Hcb|]. intros a. destruct a; try done; cbn; by intros [? ?%(live_up _ _ _ Hl Hph)]. }
  eapply wp_mono; [apply (wp_for_each _ (λ l w', Forall (polite (ph = POpen)) l ∧ live ph k w' ∧ stays ph w w')); [done|]|].
  2:{ cbv beta. tauto. }
  intros a l w1 (Ha & Hl1 & [S1 S2]). apply list.Forall_cons in Ha as [Ha Hrest].
  eapply wp_mono; [by eapply run_call_spec|]. cbv beta. intros _ w2 (Hl2 & [S3 S4]).
  split_and!; [done|done|]. split; [congruence|]. intros Hne. by rewrite S4, S2.
Qed.

(** ** Handlers *)

(** Callbacks that stop and start to read only while the connection is up, if at all, and whose messages fit an
    [int]; a message callback is set. *)
Record well_behaved : Prop := {
  polite_connection cb : connectionCallback_ cbs = Some cb → polite_callback cb;
  polite_message : ∃ cb, messageCallback_ cbs = Some cb ∧ polite_callback cb;
  polite_writeComplete cb : writeCompleteCallback_ cbs = Some cb → polite_callback cb;
  polite_highWater cb : highWaterMarkCallback_ cbs = Some cb → polite_callback cb
}.
Context (Hcbs : well_behaved).

Definition is_closed (ph : phase) : Prop := ph ≠ PConnecting ∧ ph ≠ POpen.

(** The phases a connection rests in, given its owner. *)
Definition steady (ph : phase) : Prop :=
  (ph = PClosing → TcpConnection.closeCallback_ cbs = None) ∧
  (ph = PRequested → TcpConnection.closeCallback_ cbs = Some ServerOtherLoop).

(** How a closed connection goes on in its loop. *)
Definition moves (ph ph' : phase) : Prop := ph' = ph ∨ ph' = PDestroyed.

Lemma moves_closed ph ph' : is_closed ph → moves ph ph' → is_closed ph'.
Proof. by intros Hcl [->| ->]. Qed.
Lemma moves_trans ph1 ph2 ph3 : moves ph1 ph2 → moves ph2 ph3 → moves ph1 ph3.
Proof. intros [->| ->] [->| ->]; unfold moves; tauto. Qed.

(** What a handler leaves. *)
Definition handled (ph : phase) (k : place) (w w' : World Q) : Prop :=
  holds_ (env_ w') = holds_ (env_ w) ∧
  ∃ ph', live ph' k w' ∧ steady ph' ∧ ph' ≠ PConnecting ∧
    (is_closed ph → moves ph ph' ∧ pendingFunctors_ (loop_ w') = pendingFunctors_ (loop_ w)).

Lemma handled_stays ph k w w' :
  live ph k w' → stays ph w w' → steady ph → ph ≠ PConnecting → handled ph k w w'.
Proof.
  intros Hl [Hh Hloop] Hst Hph. split; [done|]. exists ph. split_and!; try done.
  intros [_ Hne]. split; [by left|]. by rewrite Hloop.
Qed.

Lemma call_user_if_spec cb ph k w :
  live ph k w → ph ≠ PConnecting → (∀ f, cb = Some f → polite_callback f) →
  wpf allowed (call_user_if ch tid cbs cb) (λ _ w', live ph k w' ∧ stays ph w w') w.
Proof.
  intros Hl Hph Hcb. destruct cb as [f|]; cbn [call_user_if]; [|by wp_go].
  apply call_user_spec; [done|done|by apply Hcb].
Qed.

Lemma remove_spec {E} k w c (R : () → World Q → Prop) :
  core k w c → events_ c = kNoneEvent → index_ c ≠ kNew →
  (∀ p', let w' := set_loop_ (set_poller p' (loop_ w)) w in
         core k w' (set_index kNew (set_addedToLoop false c)) →
         channels_ p' !! fd = None → R tt w') →
  wpf E (on_loop (Channel_remove tid ch)) R w.
Proof.
  intros Hc Hev Hi HR. pose proof Hc as []. apply on_loop_spec. eapply wp_mono.
  { eapply Channel_remove_spec; [done..|]. intros Hh. left. apply core_current0.
    change (loop_of w) with (loop_ w) in Hh. congruence. }
  cbv beta. intros [] l' (p' & -> & Hwf & Hheap & Hch & _). apply HR.
  - constructor; try done. cbn. rewrite Hheap. apply lookup_insert_eq.
  - rewrite Hch, core_fd0. apply lookup_delete_eq.
Qed.

(** A closed connection is taken out of the poller. *)
Lemma connectDestroyed_spec {E} k w c (R : () → World Q → Prop) :
  core k w c → state_ (conn_ w) = KDisconnected → events_ c = kNoneEvent → index_ c ≠ kNew →
  (∀ p', let w' := set_loop_ (set_poller p' (loop_ w)) w in
         core k w' (set_index kNew (set_addedToLoop false c)) →
         channels_ p' !! fd = None → R tt w') →
  wpf E (connectDestroyed ch tid cbs) R w.
Proof.
  intros Hc Hst Hev Hi HR. unfold connectDestroyed. wp_go. eapply thread_spec; [done|]. wp_go.
  rewrite Hst, bool_decide_eq_false_2 by done. wp_go. by eapply remove_spec.
Qed.

Lemma closed_open_trace tr : open_trace tr → closed_trace (tr ++ [EvDown]).
Proof. intros (ms & -> & Hms). exists ms, []. by split_and!. Qed.

Lemma removeConnectionInLoop_spec k w t :
  live PClosing k w →
  wpf allowed (removeConnectionInLoop t)
    (λ _ w', live PRemoved k w' ∧ holds_ (env_ w') = holds_ (env_ w)) w.
Proof.
  intros (c & Hc & Hs & Hp). destruct Hp as (P1 & P2 & P3 & P4 & P5 & P6 & P7 & P8 & P9).
  unfold removeConnectionInLoop. wp_go. rewrite P7. apply wp_assert; [done|]. wp_go.
  apply on_loop_spec, queueInLoop_spec. intros n _. set (w1 := set_env _ w).
  assert (Hc1 : core k w1 c) by (eapply core_frame; [exact Hc|try done..]; apply Hc).
  change (set_loop _ w1) with (pushed FConnectDestroyed n w1). split; [|done].
  exists c. split_and!; [by apply core_push|exact Hs|].
  unfold in_phase, queue, phase_ok, out_bytes in *. cbn. rewrite app_assoc, destructions_app, P9.
  split_and!; try done. rewrite elem_of_app, list_elem_of_singleton. intros [?|?]; done.
Qed.

Lemma closeCallback_spec o k w :
  live PClosing k w → TcpConnection.closeCallback_ cbs = Some o →
  wpf allowed (closeCallback ch tid cbs o) (λ _ w', handled POpen k w w') w.
Proof.
  intros Hl Ho. pose proof Hl as (c & Hc & Hs & Hp).
  destruct Hp as (P1 & P2 & P3 & P4 & P5 & P6 & P7 & P8 & P9).
  assert (Hdone : ∀ ph w', live ph k w' → steady ph → is_closed ph → holds_ (env_ w') = holds_ (env_ w) →
    handled POpen k w w').
  { intros ph w' Hw' Hst Hph Hh. split; [done|]. exists ph.
    split_and!; [done|done|by destruct Hph|by intros [_ ?]]. }
  destruct o; cbn [closeCallback].
  - eapply wp_mono; [by apply removeConnectionInLoop_spec|]. cbv beta. intros _ w' [Hl' Hh].
    by apply (Hdone PRemoved).
  - wp_go. apply (Hdone PRequested); [|done..]. exists c. split_and!; [|exact Hs|].
    + eapply core_frame; [exact Hc|try done..]. apply Hc.
    + unfold in_phase, queue, phase_ok in *. cbn. rewrite P8. by split_and!.
  - wp_go. eapply thread_spec; [done|]. wp_go. set (w1 := set_env _ w).
    assert (Hc1 : core k w1 c) by (eapply core_frame; [exact Hc|try done..]; apply Hc).
    eapply connectDestroyed_spec; [exact Hc1|done|done|by eapply shut_registered|]. intros p' w2 Hc2 Hreg.
    apply (Hdone PDestroyed); [|done..]. eexists. split_and!; [exact Hc2|exact Hs|].
    unfold in_phase, queue, phase_ok in *. cbn. by split_and!.
Qed.

Lemma handleClose_spec k w :
  live POpen k w → wpf allowed (handleClose ch tid cbs) (λ _ w', handled POpen k w w') w.
Proof.
  intros Hl. pose proof Hl as (c & Hc & Hs & Hp).
  destruct Hp as (P1 & P2 & P3 & P4 & P5 & P6 & P7 & P8 & P9).
  unfold handleClose, log. wp_go. eapply thread_spec; [done|]. wp_go.
  apply wp_assert; [by apply bool_decide_eq_true_2|]. wp_go. apply setState_spec. wp_go.
  set (w1 := set_conn _ w).
  assert (Hc1 : core k w1 c) by (eapply core_frame; [exact Hc|try done..]; apply Hc).
  unfold disableAll. eapply change_spec; [exact Hc1|by rewrite P2; intros ?%index_for_registered|]. intros p' w2 Hc2 _. wp_go.
  set (w3 := set_log _ w2). set (c2 := registered _ _) in *.
  assert (Hl3 : live PClosing k w3).
  { exists c2. split_and!; [|exact Hs|].
    - eapply core_frame; [exact Hc2|try done..]. apply Hc2.
    - unfold in_phase, queue, phase_ok, c2 in *. cbn. split_and!; try done; [by apply closed_open_trace|].
      rewrite P2, P3. unfold index_for, shut. destruct (Z.eqb_spec (asked (reading_ (conn_ w)) (out_bytes w)) kNoneEvent) as [E|E]; [right|by left].
      by apply asked_nothing in E as [? _]. }
  assert (Hh3 : holds_ (env_ w3) = holds_ (env_ w)) by done. clearbody w3.
  eapply wp_mono; [apply call_user_if_spec; [exact Hl3|done|apply Hcbs]|]. cbv beta.
  intros _ w4 (Hl4 & [Hh4 _]). destruct (TcpConnection.closeCallback_ cbs) as [o|] eqn:Ho.
  - eapply wp_mono; [by apply closeCallback_spec|]. cbv beta. intros _ w5 [Hh5 H5].
    split; [congruence|]. destruct H5 as (ph & ? & ? & ? & _). exists ph.
    split_and!; [done..|by intros [_ ?]].
  - wp_go. split; [congruence|]. exists PClosing. split_and!; try done. by intros [_ ?].
Qed.

Lemma forceCloseInLoop_spec ph k w :
  live ph k w → steady ph → ph ≠ PConnecting →
  wpf allowed (forceCloseInLoop ch tid cbs) (λ _ w', handled ph k w w') w.
Proof.
  intros Hl Hst Hph. pose proof Hl as (c & Hc & _). unfold forceCloseInLoop. wp_go.
  eapply thread_spec; [done|]. wp_go. case_bool_decide as Hs.
  - assert (ph = POpen) as ->; [|by apply handleClose_spec].
    destruct (decide (ph = POpen)) as [|Hne]; [done|].
    rewrite (live_closed _ _ _ Hl Hph Hne) in Hs. by destruct Hs.
  - wp_go. by apply handled_stays.
Qed.

Lemma handleError_spec {E} k w c (R : () → World Q → Prop) :
  core k w c → R tt w → wpf E (handleError ch) R w.
Proof. intros Hc HR. unfold handleError. wp_go. eapply channel_spec; [done|]. by wp_go. Qed.

Lemma log_event_live ev k w :
  live POpen k w → is_traffic ev → live POpen k (set_log (log_event ev (log_ w)) w).
Proof.
  intros (c & Hc & Hs & Hp) Hev. exists c. split_and!; [|exact Hs|].
  - eapply core_frame; [exact Hc|try done..]. apply Hc.
  - destruct Hp as (P1 & P2 & P3 & P4 & P5 & P6 & P7 & P8 & (ms & Htr & Hms)).
    unfold in_phase, phase_ok, queue, out_bytes in *. cbn. split_and!; try done.
    exists (ms ++ [ev]). rewrite Htr. split; [done|]. apply Forall_app. split; [done|].
    by apply Forall_singleton.
Qed.

Lemma log_notice_live ev ph k w :
  live ph k w → ph ≠ PConnecting → is_notice ev → live ph k (set_log (log_event ev (log_ w)) w).
Proof.
  intros Hl Hph Hev. destruct (decide (ph = POpen)) as [->|Hne].
  { apply log_event_live; [done|]. by destruct ev. }
  destruct Hl as (c & Hc & Hs & Hp). exists c. split_and!; [|exact Hs|].
  - eapply core_frame; [exact Hc|try done..]. apply Hc.
  - assert (Htr : closed_trace (trace_ (log_ w)) → closed_trace (trace_ (log_ w) ++ [ev])).
    { intros (ms & rest & -> & Hms & Hrest). exists ms, (rest ++ [ev]). split_and!; [|done|].
      - by rewrite app_comm_cons, <- !app_assoc.
      - apply Forall_app. split; [done|]. by apply Forall_singleton. }
    unfold in_phase, queue, out_bytes in *. destruct ph; cbn in *; destruct_and!; split_and!; auto; done.
Qed.

(** What a read may add. *)
Definition room_for (readv : list Z → readv_answer) (rs : list (list Z → readv_answer)) w : Prop :=
  bounded mn = true → ∃ m n, 0 ≤ m ∧ delivers readv m ∧ volume rs n ∧ zlen (received_ (log_ w)) + m + n < 2 ^ 31.

Lemma readFd_live k w readv :
  live POpen k w → readv_law readv → room_for readv (reads_ (env_ w)) w →
  wpf allowed
    (on_conn (on_input (q_readFd readv)))
    (λ r w', ∃ d,
       (r = (zlen d, None) ∨ r.1 = -1 ∧ d = []) ∧
       zdrop (zlen (q_bytes (inputBuffer_ (conn_ w)))) (q_bytes (inputBuffer_ (conn_ w'))) = d ∧
       live POpen k (set_log (log_received d (log_ w')) w') ∧
       log_ w' = log_ w ∧ env_ w' = env_ w) w.
Proof.
  intros (c & Hc & Hs & Hp) Hlaw Hroom.
  pose proof (q_readFd_spec allowed _ _ (core_input _ _ _ Hc) Hlaw eq_refl) as Hr.
  unfold wpf, on_conn, on_input in *. destruct (q_readFd readv (inputBuffer_ (conn_ w))) as [[r q]|]; [|done].
  destruct Hr as [Hok Hcase].
  assert (Hd : ∃ d, (r = (zlen d, None) ∨ r.1 = -1 ∧ d = []) ∧ (∀ m, 0 ≤ m → delivers readv m → zlen d ≤ m) ∧
    q_bytes q = q_bytes (inputBuffer_ (conn_ w)) ++ d).
  { destruct Hcase as [(d & lens & Hrd & -> & Hb)|(e & -> & ->)].
    - exists d. split_and!; [by left|by eauto|done].
    - exists []. rewrite app_nil_r. split_and!; [by right|by intros; rewrite zlen_nil|done]. }
  destruct Hd as (d & Hd & Hm & Hb). exists d. cbn. split_and!; [done| | |done|done].
  - rewrite Hb, zdrop_app, zdrop_ge, Z.sub_diag by (pose proof (zlen_nonneg (q_bytes (inputBuffer_ (conn_ w)))); lia).
    done.
  - exists c. split_and!; [|exact Hs|exact Hp]. destruct Hc. constructor; try done; cbn.
    + rewrite core_received0, Hb. by rewrite <- app_assoc.
    + intros (m & n & Hm0 & Hdel & Hn & Hlt)%Hroom. exists n. split; [done|]. rewrite zlen_app.
      specialize (Hm m Hm0 Hdel). lia.
Qed.

Lemma next_read_spec k w c (R : (list Z → readv_answer) → World Q → Prop) :
  core k w c →
  (∀ readv rs, readv_law readv → Forall readv_law rs → room_for readv rs w →
     R readv (set_env (set_reads rs (env_ w)) w)) →
  wpf allowed next_read R w.
Proof.
  intros Hc HR. unfold next_read. wp_go. pose proof (core_reads _ _ _ Hc) as Hlaw.
  pose proof (core_volume _ _ _ Hc) as Hvol. destruct (reads_ (env_ w)) as [|readv rs]; cbn [tail].
  - apply HR; [by intros lens d|done|]. intros (n & ? & ?)%Hvol. exists 0, n. split_and!; [done|by intros lens d|done|lia].
  - apply list.Forall_cons in Hlaw as [??]. apply HR; [done|done|]. intros (n & (ns & Hns & Hpos & Hsum) & Hlt)%Hvol.
    apply Forall2_cons_inv_l in Hns as (m & ns' & Hm & Hns & ->). apply list.Forall_cons in Hpos as [? Hpos].
    cbn in Hsum. exists m, (n - m). split_and!; [done|done| |lia]. exists ns'. split_and!; [done|done|lia].
Qed.

Lemma conn_handleRead_spec t k w :
  live POpen k w → wpf allowed (handleRead ch tid cbs t) (λ _ w', handled POpen k w w') w.
Proof.
  intros Hl. pose proof Hl as (c & Hc & Hs & Hp). unfold handleRead, log. wp_go.
  eapply thread_spec; [done|]. wp_go. eapply next_read_spec; [done|]. intros readv rs Hlaw Hrs Hroom. wp_go.
  set (w1 := set_env _ w).
  assert (Hl1 : live POpen k w1).
  { exists c. split_and!; [|exact Hs|exact Hp]. destruct Hc. constructor; try done. cbn.
    intros (m & n & ? & _ & Hn & ?)%Hroom. exists n. split; [done|lia]. }
  assert (Hroom1 : room_for readv (reads_ (env_ w1)) w1) by exact Hroom.
  assert (Hh1 : holds_ (env_ w1) = holds_ (env_ w)) by done. clearbody w1. clear Hc Hs Hp.
  eapply wp_mono; [by apply readFd_live|]. cbv beta.
  intros [n e] w2 (d & Hr & Hd & Hl2 & Hlog & Henv). wp_go. rewrite Hd.
  set (w3 := set_log _ w2) in *.
  assert (Hh3 : holds_ (env_ w3) = holds_ (env_ w)) by (unfold w3; cbn; by rewrite Henv).
  clearbody w3. clear Hd Hlog Henv.
  assert (Hgoal : ∀ w', handled POpen k w3 w' → handled POpen k w w').
  { intros w' [Hh H3]. split; [congruence|]. destruct H3 as (ph & ? & ? & ? & _). exists ph.
    split_and!; [done..|by intros [_ ?]]. }
  destruct (Z.ltb_spec 0 n) as [Hn|Hn]; wp_go.
  - destruct (polite_message Hcbs) as (cb & Hcb & Hpol). rewrite Hcb. cbn [call_user_always].
    eapply wp_mono; [apply (call_user_spec cb POpen k)|].
    + by apply log_event_live.
    + done.
    + done.
    + cbv beta. intros _ w4 [Hl4 Hs4]. apply Hgoal. by apply handled_stays.
  - destruct (Z.eqb_spec n 0) as [Hn0|Hn0].
    + eapply wp_mono; [by apply handleClose_spec|]. cbv beta. intros _ w4 H4. by apply Hgoal.
    + pose proof Hl2 as (c3 & Hc3 & _). eapply handleError_spec; [done|]. apply Hgoal. by apply handled_stays.
Qed.

(** After the kernel took some bytes of the output buffer. *)
Lemma retrieve_output k w c n :
  core k w c → 0 < n ≤ zlen (out_bytes w) →
  wpf allowed (on_conn (on_output (q_retrieve n)))
    (λ _ w', core k w' c ∧ out_bytes w' = zdrop n (out_bytes w) ∧ env_ w' = env_ w ∧ log_ w' = log_ w ∧
             loop_ w' = loop_ w ∧ state_ (conn_ w') = state_ (conn_ w) ∧ reading_ (conn_ w') = reading_ (conn_ w)) w.
Proof.
  intros Hc Hn. assert (Hn' : 0 ≤ n ≤ zlen (q_bytes (outputBuffer_ (conn_ w)))) by (unfold out_bytes in Hn; lia).
  pose proof (q_retrieve_spec allowed _ n (core_output _ _ _ Hc) Hn') as Hr.
  unfold wpf, on_conn, on_output in *. destruct (q_retrieve n (outputBuffer_ (conn_ w))) as [[[] q]|]; [|done].
  destruct Hr as [Hok Hb]. split_and!; try done. eapply core_frame; [exact Hc|done..].
Qed.

(** The part of [handleWrite] after the buffer was drained. *)
Lemma drained_spec k w c :
  core k w c → sent_ok [] w → out_bytes w = [] →
  (∀ c', events_ c' = asked (reading_ (conn_ w)) [] → index_ c' = index_for (events_ c') →
    addedToLoop_ c' = true → in_phase POpen k w c') →
  (∃ out, out ≠ [] ∧ events_ c = asked (reading_ (conn_ w)) out) → index_ c = kAdded →
  wpf allowed
    (on_loop (disableWriting tid ch) ;;
     when_ (is_set (writeCompleteCallback_ cbs)) (on_loop (queueInLoop tid FWriteComplete)) ;;
     w ← get;
     when_ (bool_decide (state_ (conn_ w) = KDisconnecting)) (forceCloseInLoop ch tid cbs))
    (λ _ w', handled POpen k w w') w.
Proof.
  intros Hc Hs Hout Hp (out & Hne & Hev) Hi. wp_go. unfold disableWriting.
  eapply change_spec; [exact Hc|by rewrite Hi|]. intros p' w1 Hc1 _.
  set (c1 := registered _ _) in *.
  assert (Hev1 : events_ c1 = asked (reading_ (conn_ w)) []) by (unfold c1; cbn; by rewrite Hev, disableWriting_asked).
  assert (Hp1 : in_phase POpen k w1 c1).
  { assert (Hni : index_ c1 = index_for (events_ c1)) by (unfold c1; cbn; by rewrite Hi).
    exact (Hp c1 Hev1 Hni eq_refl). }
  assert (Hs1 : sent_ok [] w1) by exact Hs.
  assert (Hh1 : holds_ (env_ w1) = holds_ (env_ w)) by done. clearbody w1 c1. clear Hp Hev Hi Hc Hs.
  assert (Hrest : ∀ w2, live POpen k w2 → holds_ (env_ w2) = holds_ (env_ w) →
    if bool_decide (state_ (conn_ w2) = KDisconnecting)
    then wpf allowed (forceCloseInLoop ch tid cbs) (λ _ w', handled POpen k w w') w2
    else handled POpen k w w2).
  { intros w2 Hl2 Hh2. case_bool_decide as Hst.
    - eapply wp_mono; [by apply (forceCloseInLoop_spec POpen k w2)|]. cbv beta.
      intros _ w3 [Hh3 H3]. split; [congruence|]. destruct H3 as (ph & ? & ? & ? & _).
      exists ph. split_and!; [done..|by intros [_ ?]].
    - by apply handled_stays. }
  wp_go. destruct (is_set _).
  - eapply wp_mono; [by eapply (push_spec POpen k w1 c1 FWriteComplete tid [])|]. cbv beta.
    intros _ w2 (Hc2 & Hs2 & Hp2 & _ & He2 & _). wp_go. apply Hrest; [by exists c1|congruence].
  - wp_go. apply Hrest; [by exists c1|done].
Qed.

Lemma handleWrite_spec ph k w :
  live ph k w → steady ph → ph ≠ PConnecting →
  wpf allowed (handleWrite ch tid cbs) (λ _ w', handled ph k w w') w.
Proof.
  intros Hl Hst Hph. pose proof Hl as (c & Hc & Hs & Hp). unfold handleWrite.
  rewrite wp_bind. eapply thread_spec; [done|]. rewrite wp_bind. eapply channel_spec; [done|]. rewrite wp_when.
  destruct (isWriting c) eqn:Hw; [|by apply handled_stays].
  assert (ph = POpen) as ->.
  { destruct (decide (ph = POpen)) as [|Hne]; [done|].
    assert (events_ c = kNoneEvent) as He by (by destruct ph; destruct Hp as (_ & ? & _)).
    unfold isWriting in Hw. by rewrite He in Hw. }
  destruct Hp as (P1 & P2 & P3 & P4 & P5 & P6 & P7 & P8 & P9).
  assert (Hout : out_bytes w ≠ []) by (unfold isWriting in Hw; rewrite P3, asked_writing in Hw; by apply bool_decide_eq_true in Hw).
  rewrite wp_bind, wp_get. cbv beta. rewrite wp_bind.
  eapply wp_lift; [by apply q_contents_spec, Hc|]. rewrite wp_bind. apply sockets_write_spec.
  2:{ intros ws e l. cbn. wp_go. apply handled_stays; [|done..].
      exists c. split_and!; [|exact Hs|]. - eapply core_frame; [exact Hc|try done..]; apply Hc.
      - unfold in_phase, phase_ok, queue, out_bytes in *. cbn. split_and!; auto. }
  intros ws n Hn. cbn beta iota. set (w1 := set_log _ _).
  assert (Hc1 : core k w1 c) by (eapply core_frame; [exact Hc|try done..]; apply Hc).
  assert (Hs1 : broken_ (log_ w1) = false → sent_ (log_ w1) = wire_ (log_ w1) ++ zdrop n (out_bytes w1) ++ []).
  { intros Hb. unfold w1. cbn. rewrite (Hs Hb). unfold out_bytes. cbn.
    by rewrite !app_nil_r, <- app_assoc, ztake_zdrop. }
  rewrite wp_when. destruct (Z.ltb_spec 0 n) as [Hn0|Hn0].
  2:{ assert (n = 0) by lia. subst n. apply handled_stays; [|done..]. exists c.
      split_and!; [exact Hc1|by intros Hb; apply Hs1|].
      unfold in_phase, phase_ok, queue, out_bytes in *. cbn. split_and!; auto. }
  rewrite wp_bind. eapply wp_mono; [apply (retrieve_output k w1 c n Hc1); unfold w1, out_bytes; cbn; lia|].
  cbv beta. intros _ w2 (Hc2 & Hout2 & He2 & Hlog2 & Hloop2 & Hst2 & Hrd2).
  assert (Hs2 : sent_ok [] w2) by (intros Hb; rewrite Hout2, !Hlog2 in *; by apply Hs1).
  assert (Hp2 : ∀ c', events_ c' = asked (reading_ (conn_ w2)) (out_bytes w2) → index_ c' = index_for (events_ c') →
    addedToLoop_ c' = true → in_phase POpen k w2 c').
  { intros c' E1 E2 E3. unfold in_phase, phase_ok, queue in *. rewrite Hst2, He2, Hloop2, Hlog2, E3. by split_and!. }
  assert (Hev2 : events_ c = asked (reading_ (conn_ w2)) (out_bytes w)) by (by rewrite Hrd2, P3).
  assert (Hi2 : index_ c = kAdded).
  { rewrite P2. unfold index_for. destruct (Z.eqb_spec (events_ c) kNoneEvent) as [E|]; [|done].
    rewrite P3 in E. by apply asked_nothing in E as [_ ?]. }
  assert (Hh2 : holds_ (env_ w2) = holds_ (env_ w)) by (by rewrite He2).
  clear dependent w1. rewrite wp_bind, wp_get. cbv beta. rewrite wp_when.
  rewrite q_readable_spec by apply Hc2. destruct (Z.eqb_spec (zlen (q_bytes (outputBuffer_ (conn_ w2)))) 0) as [Hz|Hz].
  - apply zlen_0 in Hz. eapply wp_mono.
    { apply (drained_spec k w2 c); [done|done|done| |by exists (out_bytes w)|done].
      intros c' E1 E2 E3. apply Hp2; [|done|done]. unfold out_bytes. by rewrite Hz. }
    cbv beta. intros _ w3 [Hh3 H3]. split; [congruence|]. destruct H3 as (ph & ? & ? & ? & _).
    exists ph. split_and!; [done..|by intros [_ ?]].
  - apply handled_stays; [|done..]. exists c. split_and!; [done|done|].
    apply Hp2; [|done|done]. rewrite Hev2. unfold asked. rewrite !decide_False; [done| |done].
    intros E. unfold out_bytes in E. by rewrite E in Hz.
Qed.

(** [connectEstablished] of a new connection about which nothing is queued. *)
Lemma connectEstablished_spec k w c :
  core k w c → sent_ok [] w → state_ (conn_ w) = KConnecting → index_ c = kNew → events_ c = kNoneEvent →
  in_map_ (env_ w) = true → removals_ (env_ w) = 0 → out_bytes w = [] → queue k w = [] →
  trace_ (log_ w) = [] → channels_ (poller_ (loop_ w)) !! fd = None → reading_ (conn_ w) = true →
  wpf allowed (connectEstablished ch tid cbs) (λ _ w', live POpen k w' ∧ holds_ (env_ w') = holds_ (env_ w)) w.
Proof.
  intros Hc Hs Hst Hi Hev Hmap Hrem Hout Hq Htr Hreg Hrd. unfold connectEstablished, log. wp_go.
  eapply thread_spec; [done|]. wp_go. apply wp_assert; [by apply bool_decide_eq_true_2|]. wp_go.
  apply setState_spec. wp_go. apply on_loop_spec, on_poller_spec.
  eapply modify_channel_spec; [exact (core_chan _ _ _ Hc)|]. wp_go.
  set (w1 := set_loop _ _). set (c1 := tie ch c).
  assert (Hc1 : core k w1 c1).
  { destruct Hc. constructor; try done; cbn; [|apply lookup_insert_eq]. by eapply poller_wf_touch. }
  unfold enableReading. eapply change_spec; [exact Hc1|intros _; exact Hreg|]. intros p' w2 Hc2 _. wp_go.
  set (w3 := set_log _ w2). set (c2 := registered _ _) in *.
  assert (Hl3 : live POpen k w3).
  { exists c2. split_and!; [|exact Hs|].
    - eapply core_frame; [exact Hc2|try done..]. apply Hc2.
    - unfold in_phase, queue, phase_ok, out_bytes, c2 in *. cbn. unfold next_index. rewrite Hi, Hev, Hmap, Hrem, Hout, Hq, Htr, Hrd.
      split_and!; try done; [by left|apply not_elem_of_nil|]. by exists []. }
  assert (Hh3 : holds_ (env_ w3) = holds_ (env_ w)) by done. clearbody w3.
  eapply wp_mono; [apply (call_user_if_spec _ POpen k w3); [exact Hl3|done|apply Hcbs]|]. cbv beta.
  intros _ w4 [Hl4 [Hh4 _]]. split; [done|congruence].
Qed.

(** ** Functors *)

Lemma queue_cons f q k w : queue (set_todo (f :: q) k) w = f :: queue (set_todo q k) w.
Proof. done. Qed.

Lemma core_pop f q k w c : core (set_todo (f :: q) k) w c → core (set_todo q k) w c.
Proof.
  intros []. constructor; try done. unfold queue in *. cbn in *.
  by apply list.Forall_cons in core_queue0 as [_ ?].
Qed.

Lemma live_pop f q ph k w :
  live ph (set_todo (f :: q) k) w → harmless f → live ph (set_todo q k) w.
Proof.
  intros (c & Hc & Hs & Hp) [Hf1 Hf2]. exists c. split_and!; [by eapply core_pop|done|].
  assert (Hd : destructions (queue (set_todo (f :: q) k) w) = destructions (queue (set_todo q k) w)).
  { rewrite queue_cons, destructions_cons. by case_decide. }
  assert (Hq : FConnectEstablished ∉ queue (set_todo (f :: q) k) w → FConnectEstablished ∉ queue (set_todo q k) w).
  { rewrite queue_cons, not_elem_of_cons. tauto. }
  unfold in_phase in *. destruct ph; cbn [phase_ok] in *; rewrite ?Hd in Hp.
  1:{ destruct Hp as (_ & _ & _ & _ & _ & _ & _ & Hp & _). unfold queue in Hp. cbn in Hp. congruence. }
  all: destruct_and!; split_and!; auto.
Qed.

Lemma exec_spec f q ph k w :
  live ph (set_todo (f :: q) k) w → steady ph →
  wpf allowed (exec ch tid cbs f) (λ _ w', handled ph (set_todo q k) w w') w.
Proof.
  intros Hl Hst. pose proof Hl as (c & Hc & Hs & Hp). unfold exec. wp_go. rewrite (core_freed _ _ _ Hc).
  pose proof (core_queue _ _ _ Hc) as Hq. unfold queue in Hq. cbn in Hq.
  apply list.Forall_cons in Hq as [Hf _].
  destruct (decide (f = FConnectEstablished)) as [->|Hf1].
  { destruct (decide (ph = PConnecting)) as [->|Hne].
    - destruct Hp as (P1 & P2 & P3 & P4 & P5 & P6 & P7 & P8 & P9 & P10 & P11).
      apply core_pop in Hc. unfold queue in P8. cbn in P8. injection P8 as P8.
      eapply wp_mono; [by eapply connectEstablished_spec|]. cbv beta. intros _ w' [Hl' Hh].
      split; [done|]. exists POpen. split_and!; [done..|by intros [? _]].
    - exfalso. assert (Hn : FConnectEstablished ∉ queue (set_todo (FConnectEstablished :: q) k) w).
      { by destruct ph; destruct Hp; destruct_and?. }
      apply Hn. unfold queue. cbn. left. }
  assert (Hph : ph ≠ PConnecting).
  { intros ->. destruct Hp as (_ & _ & _ & _ & _ & _ & _ & Hp & _). unfold queue in Hp. cbn in Hp. congruence. }
  destruct (decide (f = FConnectDestroyed)) as [->|Hf2].
  { assert (Hd : destructions (queue (set_todo (FConnectDestroyed :: q) k) w) =
                 S (destructions (queue (set_todo q k) w))).
    { by rewrite queue_cons, destructions_cons. }
    assert (ph = PRemoved) as ->.
    { unfold in_phase in Hp. destruct ph; cbn [phase_ok] in Hp; rewrite ?Hd in Hp; by destruct_and!. }
    destruct Hp as (P1 & P2 & P3 & P4 & P5 & P6 & P7 & P8 & P9). rewrite Hd in P9. injection P9 as P9.
    apply core_pop in Hc. eapply connectDestroyed_spec; [exact Hc|done|done|by eapply shut_registered|].
    intros p' w1 Hc1 Hreg. split; [done|]. exists PDestroyed. split_and!; try done; [|intros _; split; [by right|done]].
    eexists. split_and!; [exact Hc1|exact Hs|]. unfold in_phase, phase_ok, queue in *. cbn. split_and!; try done.
    intros Hin. apply P3. by right. }
  apply live_pop in Hl; [|done].
  destruct f; try done.
  - by apply forceCloseInLoop_spec.
  - destruct Hf as [_ Hlen]. eapply wp_mono; [by apply (send_spec message ph (set_todo q k))|]. cbv beta.
    intros _ w' [? ?]. by apply handled_stays.
  - unfold log. wp_go. eapply wp_mono.
    { apply (call_user_if_spec _ ph (set_todo q k)); [by apply log_notice_live|done|apply Hcbs]. }
    cbv beta. intros _ w' [? ?]. by apply handled_stays.
  - unfold log. wp_go. eapply wp_mono.
    { apply (call_user_if_spec _ ph (set_todo q k)); [by apply log_notice_live|done|apply Hcbs]. }
    cbv beta. intros _ w' [? ?]. by apply handled_stays.
Qed.

(** ** One iteration *)

Definition rest_place (it rv : Z) : place := mkPlace false false [] it rv.

(** A hang-up without input is not accompanied by urgent data. *)
Definition hup_ok (r : Z) : Prop :=
  has r EPOLLHUP = true → has r EPOLLIN = false → has r EPOLLPRI = false.

Definition masked (r ev : Z) : Z := Z.land r (Z.lor ev (Z.lor EPOLLERR EPOLLHUP)).

Lemma reported_spec r ph k w c :
  core k w c → in_phase ph k w c →
  reported fd r w = [] ∨
  ph ≠ PConnecting ∧ (ph ≠ POpen → stops mn = true) ∧ reported fd r w = [(ch, masked r (events_ c))] ∧
  interest (epollfd_ (poller_ (loop_ w))) !! fd = Some (ch, events_ c).
Proof.
  intros Hc Hp. unfold reported. destruct (interest _ !! fd) as [[a ev]|] eqn:Hin; [|by left].
  destruct (core_poller _ _ _ Hc) as [W1 W2 W3 W4 W5].
  pose proof Hin as (c' & Hc' & Hfd & Ha & Hev)%W3.
  destruct (W2 _ _ Hc') as [Hn|[_ Hreg]]; [rewrite Ha in Hn; done|]. rewrite Hfd in Hreg.
  destruct (W2 _ _ (core_chan _ _ _ Hc)) as [Hn|[_ Hreg']].
  { exfalso. unfold in_phase, phase_ok in Hp. destruct ph; destruct_and!; try first [congruence|by eapply shut_registered].
    by match goal with Hi : index_ c = index_for _ |- _ => rewrite Hi in Hn; apply index_for_registered in Hn end. }
  rewrite (core_fd _ _ _ Hc), Hreg in Hreg'. injection Hreg' as ->.
  rewrite (core_chan _ _ _ Hc) in Hc'. injection Hc' as <-.
  assert (Hph : ph ≠ PConnecting ∧ (ph ≠ POpen → stops mn = true)).
  { unfold in_phase, phase_ok in Hp. rewrite Ha in Hp. destruct ph; destruct_and!; try done.
    all: by match goal with Hi : shut _ _ |- _ => destruct Hi as [?|[Hrd _]]; [|apply (core_reading _ _ _ Hc) in Hrd] end. }
  rewrite Hev. destruct (_ =? 0); [by left|]. right. by subst ev; destruct Hph.
Qed.

Lemma masked_bits r ev b : Z.land (Z.lor ev (Z.lor EPOLLERR EPOLLHUP)) b = b → has (masked r ev) b = has r b.
Proof. intros Hb. unfold has, masked. by rewrite <- Z.land_assoc, Hb. Qed.
Lemma masked_none r ev b : Z.land (Z.lor ev (Z.lor EPOLLERR EPOLLHUP)) b = 0 → has (masked r ev) b = false.
Proof. intros Hb. unfold has, masked. by rewrite <- Z.land_assoc, Hb, Z.land_0_r. Qed.

(** A hang-up without input is seen by open connections only and without other input; a closed connection sees
    no input. *)
Definition may_see (ph : phase) (rv : Z) : Prop :=
  (has rv EPOLLHUP && negb (has rv EPOLLIN) = true →
     ph = POpen ∧ has rv (Z.lor (Z.lor EPOLLIN EPOLLPRI) EPOLLRDHUP) = false) ∧
  (ph ≠ POpen → has rv (Z.lor (Z.lor EPOLLIN EPOLLPRI) EPOLLRDHUP) = false).

(** What an iteration is given: when callbacks may stop to read, no hang-up. *)
Definition poll_ok (r : Z) : Prop := hup_ok r ∧ (stops mn = true → has r EPOLLHUP = false).

Lemma reported_seen r ph k w c :
  in_phase ph k w c → ph ≠ PConnecting → (ph ≠ POpen → stops mn = true) → poll_ok r →
  may_see ph (masked r (events_ c)).
Proof.
  intros Hp Hph Hst [Hok Hhup]. destruct (decide (ph = POpen)) as [->|Hne].
  - split; [|done]. destruct Hp as (_ & _ & -> & _). rewrite !has_lor, (masked_bits r _ EPOLLHUP).
    2:{ unfold asked. by destruct (reading_ _), (decide _). }
    rewrite (masked_none r _ EPOLLRDHUP), orb_false_r by (unfold asked; by destruct (reading_ _), (decide _)).
    rewrite andb_true_iff, negb_true_iff. intros [H1 H2]. split; [done|]. rewrite H2. cbn [orb]. destruct (reading_ (conn_ w)).
    + rewrite masked_bits in H2 |- * by (unfold asked; by destruct (decide _)). by apply Hok.
    + apply masked_none. unfold asked. by destruct (decide _).
  - assert (events_ c = kNoneEvent) as -> by (by destruct ph; destruct Hp as (_ & ? & _)).
    assert (Hno : has (masked r kNoneEvent) (Z.lor (Z.lor EPOLLIN EPOLLPRI) EPOLLRDHUP) = false) by (by apply masked_none).
    split; [|done]. rewrite masked_bits, Hhup by auto. done.
Qed.

Lemma call_close_spec k w :
  live POpen k w → wpf allowed (exec ch tid cbs FHandleClose) (λ _ w', handled POpen k w w') w.
Proof.
  intros Hl. pose proof Hl as (c & Hc & _). unfold exec. wp_go. rewrite (core_freed _ _ _ Hc).
  by apply handleClose_spec.
Qed.

Lemma call_error_spec ph k w :
  live ph k w → wpf allowed (exec ch tid cbs FHandleError) (λ _ w', w' = w) w.
Proof.
  intros Hl. pose proof Hl as (c & Hc & _). unfold exec. wp_go. rewrite (core_freed _ _ _ Hc).
  by eapply handleError_spec.
Qed.

Lemma call_write_spec ph k w :
  live ph k w → steady ph → ph ≠ PConnecting →
  wpf allowed (exec ch tid cbs FHandleWrite) (λ _ w', handled ph k w w') w.
Proof.
  intros Hl. pose proof Hl as (c & Hc & _). unfold exec. wp_go. rewrite (core_freed _ _ _ Hc).
  by apply handleWrite_spec.
Qed.

Definition channel_of (a : Z) : prog (World Q) (Channel functor) := on_loop (on_poller (channel_at a)).
Definition mark (a : Z) (b : bool) : prog (World Q) () :=
  on_loop (on_poller (modify_channel a (Channel.set_eventHandling b))).

Lemma mark_live b ph k w (R : () → World Q → Prop) :
  live ph k w → (p_loop k = true → currentActiveChannel_ (loop_ w) = Some ch) →
  (∀ w', live ph (set_chan b k) w' → holds_ (env_ w') = holds_ (env_ w) →
     iteration_ (loop_ w') = iteration_ (loop_ w) → R tt w') →
  wpf allowed (mark ch b) R w.
Proof.
  intros (c & Hc & Hs & Hp) Hcur HR. unfold mark. apply on_loop_spec, on_poller_spec.
  eapply modify_channel_spec; [by apply Hc|]. apply HR; [|done..].
  exists (Channel.set_eventHandling b c). split_and!; [|exact Hs|exact Hp]. destruct Hc.
  constructor; try done; cbn; [by eapply poller_wf_touch|apply lookup_insert_eq].
Qed.

(** The channel's callbacks one after the other, from a connection in phase [ph0]. *)
Section callbacks.
Context (ph0 : phase) (k : place) (w0 : World Q) (t : Timestamp).

Definition came (ph : phase) (w : World Q) : Prop :=
  live ph k w ∧ steady ph ∧ ph ≠ PConnecting ∧ holds_ (env_ w) = holds_ (env_ w0) ∧ (is_closed ph0 → moves ph0 ph).

Lemma channel_callbacks ph w (R : Channel functor → World Q → Prop) :
  live ph k w →
  (∀ c, revents_ c = p_revents k → readCallback_ c = Some FHandleRead → writeCallback_ c = Some FHandleWrite →
     Channel.closeCallback_ c = Some FHandleClose → errorCallback_ c = Some FHandleError → R c w) →
  wpf allowed (channel_of ch) R w.
Proof.
  intros (c & Hc & _) HR. eapply channel_spec; [done|].
  destruct (core_callbacks _ _ _ Hc) as (? & ? & ? & ?). apply HR; try done. by apply Hc.
Qed.

Lemma came_handled ph w w' : came ph w → handled ph k w w' → ∃ ph', came ph' w'.
Proof.
  intros (_ & _ & _ & Hh1 & Hmv) [Hh2 (ph' & ? & ? & ? & Hcl)]. exists ph'. split_and!; [done..|congruence|].
  intros Hc0. eapply moves_trans; [by apply Hmv|]. by eapply Hcl, moves_closed, Hmv.
Qed.

Lemma close_callback ph w (R : () → World Q → Prop) :
  came ph w → may_see ph (p_revents k) →
  (∀ ph' w', came ph' w' → (ph' ≠ POpen → has (p_revents k) (Z.lor (Z.lor EPOLLIN EPOLLPRI) EPOLLRDHUP) = false) → R tt w') →
  wpf allowed
    (c ← channel_of ch;
     when_ (has (revents_ c) EPOLLHUP && negb (has (revents_ c) EPOLLIN))
       (call_if (exec ch tid cbs) (Channel.closeCallback_ c))) R w.
Proof.
  intros Hw [Hhup Hno] HR. rewrite wp_bind. eapply channel_callbacks; [by apply Hw|]. intros c -> _ _ -> _.
  rewrite wp_when. destruct (_ && _) eqn:Hr; cbn [call_if]; [|by apply (HR ph)]. destruct (Hhup eq_refl) as [-> Hin].
  eapply wp_mono; [by apply call_close_spec, Hw|]. cbv beta. intros [] w1 H1.
  destruct (came_handled _ _ _ Hw H1) as [ph' ?]. by apply (HR ph').
Qed.

Lemma error_callback ph w (R : () → World Q → Prop) :
  live ph k w → R tt w →
  wpf allowed
    (c ← channel_of ch; when_ (has (revents_ c) EPOLLERR) (call_if (exec ch tid cbs) (errorCallback_ c))) R w.
Proof.
  intros Hl HR. rewrite wp_bind. eapply channel_callbacks; [done|]. intros c -> _ _ _ ->.
  rewrite wp_when. destruct (has _ _); cbn [call_if]; [|done].
  eapply wp_mono; [by apply (call_error_spec ph k)|]. cbv beta. by intros [] w2 ->.
Qed.

Lemma input_callback ph w (R : () → World Q → Prop) :
  came ph w → (ph ≠ POpen → has (p_revents k) (Z.lor (Z.lor EPOLLIN EPOLLPRI) EPOLLRDHUP) = false) →
  (∀ ph' w', came ph' w' → R tt w') →
  wpf allowed
    (c ← channel_of ch;
     when_ (has (revents_ c) (Z.lor (Z.lor EPOLLIN EPOLLPRI) EPOLLRDHUP))
       (match readCallback_ c with Some f => exec_read ch tid cbs f t | None => mret tt end)) R w.
Proof.
  intros Hw Hno HR. rewrite wp_bind. eapply channel_callbacks; [by apply Hw|]. intros c -> -> _ _ _.
  rewrite wp_when. destruct (has _ _) eqn:Hr; cbn [exec_read]; [|by eapply HR].
  destruct (decide (ph = POpen)) as [->|Hne]; [|by specialize (Hno Hne)].
  eapply wp_mono; [by apply conn_handleRead_spec, Hw|]. cbv beta. intros [] w1 H1.
  destruct (came_handled _ _ _ Hw H1) as [ph' ?]. by apply (HR ph').
Qed.

Lemma output_callback ph w (R : () → World Q → Prop) :
  came ph w → (∀ ph' w', came ph' w' → R tt w') →
  wpf allowed
    (c ← channel_of ch; when_ (has (revents_ c) EPOLLOUT) (call_if (exec ch tid cbs) (writeCallback_ c))) R w.
Proof.
  intros Hw HR. rewrite wp_bind. eapply channel_callbacks; [by apply Hw|]. intros c -> _ -> _ _.
  rewrite wp_when. destruct (has _ _); cbn [call_if]; [|by eapply HR].
  eapply wp_mono; [by apply (call_write_spec ph); apply Hw|]. cbv beta. intros [] w2 H2.
  destruct (came_handled _ _ _ Hw H2) as [ph' ?]. by apply (HR ph').
Qed.
End callbacks.

(** The callbacks an event calls. *)
Lemma guard_spec ph t k w (R : () → World Q → Prop) :
  live ph k w → steady ph → ph ≠ PConnecting → may_see ph (p_revents k) → p_loop k = true → p_chan k = false →
  (∀ ph' w', came ph k w ph' w' → R tt w') →
  wpf allowed (handleEventWithGuard channel_of mark (exec ch tid cbs) (exec_read ch tid cbs) ch t) R w.
Proof.
  intros Hl Hst Hph Hsee Hloop Hchan HR.
  assert (Hk : set_chan false (set_chan true k) = k) by (clear - Hchan; destruct k; simpl in Hchan; by subst).
  unfold handleEventWithGuard. rewrite wp_bind.
  eapply mark_live; [done|by destruct Hl as (c & Hc & _); apply Hc|]. intros w1 Hl1 Hh1 _.
  set (k1 := set_chan true k) in *.
  apply wp_seq. eapply (close_callback ph k1 w ph); [by split_and!; [..|by left]|exact Hsee|].
  intros ph2 w2 Hw2 Hno. apply wp_seq. eapply (error_callback k1); [by apply Hw2|].
  apply wp_seq. eapply (input_callback ph k1 w); [done|exact Hno|].
  clear dependent w2 ph2. intros ph2 w2 Hw2. apply wp_seq. eapply (output_callback ph k1 w); [done|].
  intros ph3 w3 (Hl3 & Hst3 & Hph3 & Hh3 & Hmv3).
  eapply mark_live; [done|by destruct Hl3 as (c & Hc & _); apply Hc|]. intros w4 Hl4 Hh4 _.
  rewrite Hk in Hl4. apply (HR ph3). split_and!; [done..|congruence|done].
Qed.

(** Changes of the loop's own fields. *)
Lemma core_loop k k' w c l :
  core k w c → poller_ l = poller_ (loop_ w) → threadId_ l = threadId_ (loop_ w) →
  EventLoop.eventHandling_ l = p_loop k' → (p_loop k' = true → currentActiveChannel_ l = Some ch) →
  iteration_ l = p_iter k' → p_chan k' = p_chan k → p_revents k' = p_revents k →
  p_todo k' ++ pendingFunctors_ l = queue k w → core k' (set_loop_ l w) c.
Proof.
  intros [] E1 E2 E3 E4 E5 E6 E7 E8.
  constructor; unfold queue in *; cbn in *; rewrite ?E1, ?E2, ?E6, ?E7, ?E8; done.
Qed.

Lemma in_phase_loop ph k k' w c l :
  in_phase ph k w c → poller_ l = poller_ (loop_ w) → p_todo k' ++ pendingFunctors_ l = queue k w →
  in_phase ph k' (set_loop_ l w) c.
Proof. intros Hp E1 E2. unfold in_phase, queue, out_bytes in *. cbn in *. by rewrite E1, E2. Qed.

Lemma live_loop ph k k' w l :
  live ph k w → poller_ l = poller_ (loop_ w) → threadId_ l = threadId_ (loop_ w) →
  EventLoop.eventHandling_ l = p_loop k' → (p_loop k' = true → currentActiveChannel_ l = Some ch) →
  iteration_ l = p_iter k' → p_chan k' = p_chan k → p_revents k' = p_revents k →
  p_todo k' ++ pendingFunctors_ l = queue k w → live ph k' (set_loop_ l w).
Proof.
  intros (c & Hc & Hs & Hp) E1 E2 E3 E4 E5 E6 E7 E8. exists c.
  split_and!; [by eapply core_loop|exact Hs|by eapply in_phase_loop].
Qed.

(** What a batch of functors or an iteration leaves: a connection that is established, and that
    stays closed with nothing queued when it was closed. *)
Definition settles (ph : phase) (k : place) (w w' : World Q) : Prop :=
  holds_ (env_ w') = holds_ (env_ w) ∧
  ∃ ph', live ph' k w' ∧ steady ph' ∧ ph' ≠ PConnecting ∧
    (is_closed ph → moves ph ph' ∧ pendingFunctors_ (loop_ w') = []).

Lemma doPendingFunctors_live ph it rv w :
  live ph (rest_place it rv) w → steady ph →
  wpf allowed (doPendingFunctors (exec ch tid cbs)) (λ _ w', settles ph (rest_place it rv) w w') w.
Proof.
  intros Hl Hst. pose proof Hl as (c & Hc & _). pose proof Hc as []. unfold doPendingFunctors. wp_go.
  apply on_loop_spec. wp_go. apply on_loop_spec. wp_go. apply on_loop_spec. wp_go. cbn.
  set (w1 := set_loop_ _ _). set (fs := pendingFunctors_ (loop_ w)).
  assert (Hl1 : live ph (set_todo fs (rest_place it rv)) w1).
  { change w1 with (set_loop_ (loop_ w1) w). eapply live_loop; [exact Hl|try done..].
    unfold queue. cbn. by rewrite app_nil_r. }
  assert (Hpend : pendingFunctors_ (loop_ w1) = []) by done.
  assert (Hh1 : holds_ (env_ w1) = holds_ (env_ w)) by done. clearbody w1 fs.
  eapply wp_mono.
  { apply (wp_for_each _ (λ l w', holds_ (env_ w') = holds_ (env_ w) ∧ ∃ ph',
      live ph' (set_todo l (rest_place it rv)) w' ∧ steady ph' ∧
      (ph' = PConnecting ∨ is_closed ph → pendingFunctors_ (loop_ w') = []) ∧
      (is_closed ph → moves ph ph'))).
    - split; [done|]. exists ph. split_and!; try done. by left.
    - intros f l w2 (Hh2 & ph2 & Hl2 & Hst2 & Hp2 & Hcl2). eapply wp_mono; [by apply (exec_spec f l ph2)|].
      cbv beta. intros _ w3 (Hh3 & ph3 & Hl3 & Hst3 & Hne3 & Hcl3). split; [congruence|]. exists ph3.
      split_and!; [done|done| |].
      + intros [?|Hcl]; [done|]. rewrite (proj2 (Hcl3 (moves_closed _ _ Hcl (Hcl2 Hcl)))). apply Hp2. by right.
      + intros Hcl. eapply moves_trans; [by apply Hcl2|]. by eapply Hcl3, moves_closed, Hcl2. }
  cbv beta. intros _ w2 (Hh2 & ph2 & Hl2 & Hst2 & Hp2 & Hcl2). apply on_loop_spec. wp_go. cbn.
  split; [done|]. exists ph2. split_and!.
  - pose proof Hl2 as (c2 & Hc2 & _). destruct Hc2. eapply live_loop; [exact Hl2|try done..].
  - done.
  - intros ->. specialize (Hp2 (or_introl eq_refl)).
    destruct Hl2 as (c2 & _ & _ & (_ & _ & _ & _ & _ & _ & _ & Hq & _)).
    unfold queue in Hq. cbn in Hq. by rewrite Hp2 in Hq.
  - intros Hcl. split; [by apply Hcl2|]. apply Hp2. by right.
Qed.

Definition busy_place (it rv : Z) : place := mkPlace true false [] it rv.

(** The channel's handler, in a loop that has started to handle events. *)
Lemma handle_active_live ph rv k it l w :
  live ph k w → steady ph → ph ≠ PConnecting → k = rest_place (p_iter k) rv → may_see ph rv →
  poller_ l = poller_ (loop_ w) → threadId_ l = threadId_ (loop_ w) → EventLoop.eventHandling_ l = true →
  iteration_ l = it → pendingFunctors_ l = pendingFunctors_ (loop_ w) →
  wpf allowed
    (handle_active (λ _ w, negb (freed_ (env_ w))) (exec ch tid cbs) (exec_read ch tid cbs) ch)
    (λ _ w', ∃ ph', came ph (busy_place it rv) w ph' w') (set_loop_ l w).
Proof.
  intros Hl Hst Hph Hk Hsee E1 E2 E3 E4 E5. unfold handle_active, handleEvent.
  rewrite wp_bind. apply on_loop_spec. rewrite wp_modify. cbv beta. set (w1 := set_loop _ _).
  assert (Hl1 : live ph (busy_place it rv) w1).
  { change w1 with (set_loop_ (loop_ w1) w). eapply live_loop; [exact Hl|try done..].
    - by rewrite Hk.
    - by rewrite Hk.
    - unfold queue. rewrite Hk. cbn. by rewrite E5. }
  assert (Hh1 : holds_ (env_ w1) = holds_ (env_ w)) by done. clearbody w1. clear Hl E1 E2 E3 E4 E5 Hk.
  rewrite wp_bind, wp_get. cbv beta. rewrite wp_bind. eapply channel_callbacks; [exact Hl1|].
  intros c _ _ _ _ _. rewrite wp_bind, wp_get. cbv beta.
  assert (Hskip : ∃ ph', came ph (busy_place it rv) w ph' w1) by (exists ph; split_and!; try done; by left).
  assert (Hguard : wpf allowed
    (handleEventWithGuard channel_of mark (exec ch tid cbs) (exec_read ch tid cbs) ch (pollReturnTime_ (loop_of w1)))
    (λ _ w', ∃ ph', came ph (busy_place it rv) w ph' w') w1).
  { eapply guard_spec; [exact Hl1|exact Hst|exact Hph|exact Hsee|done..|].
    intros ph2 w2 (Hl2 & Hst2 & Hph2 & Hh2 & Hmv2). exists ph2. split_and!; [done..|congruence|done]. }
  destruct (tied_ c); [|exact Hguard]. rewrite wp_when.
  destruct (tie_ c); [|exact Hskip]. destruct (negb _); [exact Hguard|exact Hskip].
Qed.

(** A poll that reports the channel. *)
Lemma poll_live ph r it rv w c :
  core (rest_place it rv) w c → sent_ok [] w → in_phase ph (rest_place it rv) w c →
  interest (epollfd_ (poller_ (loop_ w))) !! fd = Some (ch, events_ c) →
  wpf allowed (on_loop (on_poller (poll (Some [(ch, masked r (events_ c))]))))
    (λ active w', active = [ch] ∧ live ph (rest_place it (masked r (events_ c))) w' ∧
       loop_ w' = set_poller (poller_ (loop_ w')) (loop_ w) ∧ env_ w' = env_ w) w.
Proof.
  intros Hc Hs Hp Hin. apply on_loop_spec, on_poller_spec. cbn [poll]. wp_go. cbn [fillActiveChannels]. wp_go.
  eapply modify_channel_spec; [by apply Hc|]. wp_go.
  set (p1 := set_heap _ _). set (c1 := set_revents (masked r (events_ c)) c).
  assert (Hwf : poller_wf p1) by (eapply poller_wf_touch; [apply Hc|apply Hc|done..]).
  assert (Hgo : ∀ p2, poller_wf p2 → heap_ p2 = heap_ p1 → channels_ p2 = channels_ p1 →
    live ph (rest_place it (masked r (events_ c))) (set_loop_ (set_poller p2 (loop_ w)) w)).
  { intros p2 Hwf2 Hheap Hch. exists c1. split_and!; [|exact Hs|].
    - destruct Hc. constructor; try done. cbn. rewrite Hheap. apply lookup_insert_eq.
    - unfold in_phase, queue, out_bytes in *. cbn. rewrite Hch. exact Hp. }
  split_and!; [done| |by destruct (_ =? _)|done].
  apply Hgo; destruct (_ =? _); try done. destruct Hwf. by constructor.
Qed.

Lemma set_set_loop l l' w : set_loop_ l (set_loop_ l' w) = set_loop_ l w.
Proof. done. Qed.

(** The end of an iteration: the loop leaves event handling and runs its functors. *)
Lemma finish_live ph it rv w w0 :
  live ph (rest_place it rv) (set_loop_ (EventLoop.set_eventHandling false (set_current None (loop_ w))) w) →
  steady ph → holds_ (env_ w) = holds_ (env_ w0) →
  wpf allowed
    (on_loop (modify (set_current None)) ;; on_loop (modify (EventLoop.set_eventHandling false)) ;;
     doPendingFunctors (exec ch tid cbs))
    (λ _ w', settles ph (rest_place it rv) w0 w') w.
Proof.
  intros Hl Hst Hh. rewrite wp_bind. apply on_loop_spec. rewrite wp_modify. cbv beta.
  rewrite wp_bind. apply on_loop_spec. rewrite wp_modify. cbv beta.
  eapply wp_mono; [apply doPendingFunctors_live; [exact Hl|done]|]. cbv beta.
  intros _ w' [Hh' H']. split; [by rewrite Hh'|exact H'].
Qed.

(** An iteration in which the kernel reported nothing for the connection. *)
Lemma idle_live ph t it rv w :
  live ph (rest_place it rv) w → steady ph →
  wpf allowed
    (for_each (handle_active (λ _ w, negb (freed_ (env_ w))) (exec ch tid cbs) (exec_read ch tid cbs)) [] ;;
     on_loop (modify (set_current None)) ;; on_loop (modify (EventLoop.set_eventHandling false)) ;;
     doPendingFunctors (exec ch tid cbs))
    (λ _ w', settles ph (rest_place (it + 1) rv) w w') (set_loop_ (prepared t [] (it + 1) (loop_ w)) w).
Proof.
  intros Hl Hst. rewrite wp_bind. cbn [for_each]. rewrite wp_ret.
  eapply finish_live; [|done|done]. rewrite set_set_loop. eapply live_loop; [exact Hl|done..].
Qed.

Lemma active_live ph t rv it w :
  live ph (rest_place it rv) w → steady ph → ph ≠ PConnecting → may_see ph rv →
  wpf allowed
    (for_each (handle_active (λ _ w, negb (freed_ (env_ w))) (exec ch tid cbs) (exec_read ch tid cbs)) [ch] ;;
     on_loop (modify (set_current None)) ;; on_loop (modify (EventLoop.set_eventHandling false)) ;;
     doPendingFunctors (exec ch tid cbs))
    (λ _ w', settles ph (rest_place (it + 1) rv) w w')
    (set_loop_ (prepared t [ch] (it + 1) (loop_ w)) w).
Proof.
  intros Hl Hst Hph Hsee. rewrite wp_bind. cbn [for_each]. rewrite wp_bind.
  eapply wp_mono; [by apply (handle_active_live ph rv (rest_place it rv) (it + 1))|]. cbv beta.
  intros _ w1 (ph1 & Hl1 & Hst1 & Hph1 & Hh1 & Hmv1). rewrite wp_ret.
  eapply wp_mono; [eapply (finish_live ph1 (it + 1) rv w1 w); [|done|done]|].
  - pose proof Hl1 as (c & Hc & _). destruct Hc. eapply live_loop; [exact Hl1|done..].
  - cbv beta. intros _ w2 [Hh2 (ph2 & ? & ? & ? & Hcl2)]. split; [done|]. exists ph2. split_and!; [done..|].
    intros Hcl. destruct (Hcl2 (moves_closed _ _ Hcl (Hmv1 Hcl))) as [Hmv2 ?]. split; [|done]. by eapply moves_trans; [apply Hmv1|].
Qed.

Lemma iteration_live ph r t it rv w :
  live ph (rest_place it rv) w → steady ph → poll_ok r → 0 ≤ it < 2 ^ 62 →
  wpf allowed (poll_once ch tid other fd cbs r t)
    (λ _ w', ∃ rv', settles ph (rest_place (it + 1) rv') w w') w.
Proof.
  intros Hl Hst Hok Hit. pose proof Hl as (c & Hc & Hs & Hp). unfold poll_once, iteration, arrivals.
  cbn [arrived quit_requested answer returned_at for_each when_].
  rewrite wp_bind, wp_get. cbv beta. rewrite wp_bind. apply on_loop_spec. rewrite wp_modify. cbv beta.
  rewrite wp_bind. apply on_loop_spec. wp_go. cbn [set_loop world_loop loop_of].
  set (w1 := set_loop_ _ (set_loop_ _ w)).
  assert (Hc1 : core (rest_place it rv) w1 c).
  { change w1 with (set_loop_ (loop_ w1) w). eapply core_loop; [exact Hc|try apply Hc; done..]. }
  assert (Hp1 : in_phase ph (rest_place it rv) w1 c) by exact Hp.
  assert (Hs1 : sent_ok [] w1) by exact Hs.
  assert (Hh1 : holds_ (env_ w1) = holds_ (env_ w)) by done.
  assert (Hr : reported fd r w = reported fd r w1) by done. rewrite Hr. clearbody w1. clear Hc Hs Hp Hl Hr.
  destruct (reported_spec r _ _ _ _ Hc1 Hp1) as [->|(Hph & Hstops & -> & Hin)].
  - apply on_loop_spec, on_poller_spec. cbn [poll]. rewrite wp_ret.
    set (w2 := set_loop _ w1).
    assert (Hl2 : live ph (rest_place it rv) w2).
    { exists c. split_and!; [|exact Hs1|exact Hp1]. eapply core_loop; [exact Hc1|try apply Hc1; done..]. }
    assert (Hh2 : holds_ (env_ w2) = holds_ (env_ w)) by done. clearbody w2.
    apply (prepare_spec _ _ _ it); [by destruct Hl2 as (c2 & Hc2 & _); apply Hc2|done|].
    eapply wp_mono; [by apply (idle_live ph)|]. cbv beta.
    intros _ w3 [Hh3 H3]. exists rv. split; [congruence|exact H3].
  - eapply wp_mono; [by apply (poll_live ph r it rv)|]. cbv beta. intros active w2 (-> & Hl2 & _ & He2).
    pose proof (reported_seen r ph _ _ _ Hp1 Hph Hstops Hok) as Hsee.
    apply (prepare_spec _ _ _ it); [by destruct Hl2 as (c2 & Hc2 & _); apply Hc2|done|].
    eapply wp_mono; [by apply (active_live ph)|]. cbv beta.
    intros _ w3 [Hh3 H3]. eexists. split; [congruence|exact H3].
Qed.

(** ** Destruction *)

Record gone (it : Z) (w : World Q) : Prop := {
  gone_freed : freed_ (env_ w) = true;
  gone_holds : holds_ (env_ w) = false;
  gone_in_map : in_map_ (env_ w) = false;
  gone_removals : removals_ (env_ w) = 0;
  gone_queue : pendingFunctors_ (loop_ w) = [];
  gone_watched : interest (epollfd_ (poller_ (loop_ w))) !! fd = None;
  gone_iter : iteration_ (loop_ w) = it;
  gone_thread : threadId_ (loop_ w) = tid;
  gone_state : state_ (conn_ w) = KDisconnected;
  gone_trace : closed_trace (trace_ (log_ w));
  gone_sent : sent_ok [] w;
  gone_received : received_ (log_ w) = consumed_ (log_ w) ++ q_bytes (inputBuffer_ (conn_ w))
}.

Lemma unreferenced ph it rv w c :
  core (rest_place it rv) w c → in_phase ph (rest_place it rv) w c → referenced w = false →
  ph = PDestroyed ∧ holds_ (env_ w) = false ∧ pendingFunctors_ (loop_ w) = [].
Proof.
  intros Hc Hp Href. unfold referenced in Href. rewrite !orb_false_iff in Href.
  destruct Href as (((Hmap & Hholds) & Hrem) & Hkeep).
  assert (Hq : pendingFunctors_ (loop_ w) = []).
  { pose proof (core_queue _ _ _ Hc) as Hq. unfold queue in Hq. cbn in Hq.
    destruct (pendingFunctors_ (loop_ w)) as [|f q]; [done|]. exfalso. cbn in Hkeep.
    apply orb_false_iff in Hkeep as [Hf _]. apply list.Forall_cons in Hq as [Hqf _].
    destruct f; try done. destruct Hqf as [Hs _]. apply (core_held _ _ _ Hc) in Hs. congruence. }
  split_and!; [|done|done]. apply Z.ltb_ge in Hrem.
  unfold in_phase, queue in Hp. cbn in Hp. rewrite Hq, Hmap in Hp.
  destruct ph; cbn in Hp; destruct_and!; try done; lia.
Qed.

Lemma release_live ph it rv w :
  live ph (rest_place it rv) w → steady ph →
  wpf allowed (release ch)
    (λ _ w', (w' = w ∧ referenced w = true) ∨ (gone it w' ∧ referenced w = false)) w.
Proof.
  intros (c & Hc & Hs & Hp) Hst. unfold release. wp_go. rewrite (core_freed _ _ _ Hc). cbn [negb andb].
  destruct (referenced w) eqn:Href; cbn [negb]; [by left|].
  destruct (unreferenced _ _ _ _ _ Hc Hp Href) as (-> & Hh & Hq).
  destruct Hp as (P1 & P2 & P3 & P4 & P5 & P6 & P7 & P8 & P9 & P10).
  unfold TcpConnection_dtor. wp_go. apply wp_assert; [by apply bool_decide_eq_true_2|]. wp_go.
  eapply channel_spec; [done|]. wp_go. eapply wp_lift.
  { unfold Channel_dtor. rewrite (core_chan_handling _ _ _ Hc), P6. done. }
  wp_go. apply on_loop_spec, on_poller_spec. wp_go. right. split; [|done].
  destruct Hc. constructor; try done. cbn.
  destruct (interest _ !! fd) as [[a ev]|] eqn:Hin; [exfalso|done].
  apply (wf_interest _ core_poller0) in Hin as (c' & Hc' & Hfd & Ha & _).
  destruct (wf_index _ core_poller0 _ _ Hc') as [Hn|[_ Hn]]; [rewrite Hn in Ha; done|]. congruence.
Qed.

(** Nothing happens to a destroyed connection. *)
Lemma iteration_gone r t it w :
  gone it w → 0 ≤ it < 2 ^ 62 →
  wpf allowed (poll_once ch tid other fd cbs r t) (λ _ w', gone (it + 1) w') w.
Proof.
  intros Hg Hit. pose proof Hg as [].
  assert (Hr : reported fd r w = []) by (unfold reported; by rewrite gone_watched0).
  unfold poll_once, iteration, arrivals. cbn [arrived quit_requested answer returned_at for_each when_].
  rewrite wp_bind, wp_get. cbv beta. rewrite wp_bind. apply on_loop_spec. rewrite wp_modify. cbv beta.
  rewrite wp_bind. apply on_loop_spec. wp_go. rewrite Hr.
  apply on_loop_spec, on_poller_spec. cbn [poll]. rewrite wp_ret.
  apply (prepare_spec _ _ _ it); [done|done|]. cbn [for_each]. wp_go.
  unfold doPendingFunctors. wp_go. repeat (apply on_loop_spec; wp_go). cbn. rewrite gone_queue0. cbn [for_each]. wp_go.
  apply on_loop_spec. wp_go. by constructor.
Qed.

(** ** Steps *)

Definition settled (it : Z) (w : World Q) : Prop :=
  (∃ ph rv, live ph (rest_place it rv) w ∧ steady ph) ∨ gone it w.

Definition step_ok (s : step) : Prop :=
  match s with
  | OtherSend m => sends = true ∧ zlen m < 2 ^ 31
  | OtherDrop => sends = false
  | Poll r _ => poll_ok r
  | _ => True
  end.

Context (Hother : other ≠ tid).

Lemma can_call_live ph it rv w :
  live ph (rest_place it rv) w → can_call w = true → ph ≠ PConnecting.
Proof.
  intros (c & _ & _ & Hp) Hcan ->. unfold can_call in Hcan. apply andb_true_iff in Hcan as [_ Hcan].
  apply bool_decide_eq_true in Hcan. destruct Hp as (_ & _ & _ & _ & _ & _ & _ & _ & Htr & _).
  rewrite Htr in Hcan. by apply elem_of_nil in Hcan.
Qed.

Lemma other_send_live m ph it rv w :
  live ph (rest_place it rv) w → ph ≠ PConnecting → sends = true → zlen m < 2 ^ 31 →
  wpf allowed (send ch tid cbs other m) (λ _ w', live ph (rest_place it rv) w' ∧ holds_ (env_ w') = holds_ (env_ w)) w.
Proof.
  intros (c & Hc & Hs & Hp) Hph Hsends Hlen. unfold send, runInLoop, isInLoopThread. wp_go.
  rewrite (core_thread _ _ _ Hc), (proj2 (Z.eqb_neq _ _)) by done.
  pose proof (zlen_nonneg m). rewrite to_signed_id; [|done|].
  2:{ unfold in_signed. change (2 ^ (32 - 1)) with (2 ^ 31). rewrite andb_true_iff, Z.leb_le, Z.ltb_lt. lia. }
  rewrite (proj2 (Z.ltb_ge _ _)) by done. wp_go. change (loop_of w) with (loop_ w).
  rewrite (core_thread _ _ _ Hc), (proj2 (Z.eqb_neq _ _)) by done. rewrite ztake_ge by lia.
  eapply wp_mono; [by eapply (push_spec ph)|]. cbv beta. intros _ w' (? & ? & ? & _ & -> & _).
  split; [by exists c|done].
Qed.

Lemma drop_live ph it rv w :
  live ph (rest_place it rv) w → sends = false →
  live ph (rest_place it rv) (set_env (set_holds false (env_ w)) w).
Proof.
  intros (c & Hc & Hs & Hp) Hsends. exists c. split_and!; [|exact Hs|exact Hp].
  destruct Hc. constructor; try done. by rewrite Hsends.
Qed.

Lemma main_remove_live ph it rv w :
  live ph (rest_place it rv) w → steady ph → 0 < removals_ (env_ w) →
  wpf allowed (removeConnectionInLoop other) 
    (λ _ w', live PRemoved (rest_place it rv) w' ∧ holds_ (env_ w') = holds_ (env_ w))
    (set_env (set_removals (removals_ (env_ w) - 1) (env_ w)) w).
Proof.
  intros (c & Hc & Hs & Hp) Hst Hrem.
  assert (ph = PRequested) as ->.
  { unfold in_phase in Hp. destruct ph; cbn in Hp; destruct_and!; try done; lia. }
  destruct Hp as (P1 & P2 & P3 & P4 & P5 & P6 & P7 & P8 & P9).
  eapply wp_mono; [apply removeConnectionInLoop_spec|by cbv beta].
  exists c. split_and!; [|exact Hs|].
  - eapply core_frame; [exact Hc|try done..]. apply Hc.
  - unfold in_phase, queue, phase_ok in *. cbn. rewrite P8. by split_and!.
Qed.

Definition stepped (it : Z) (w w' : World Q) : Prop :=
  (holds_ (env_ w) = false → holds_ (env_ w') = false) ∧ ∃ it', it ≤ it' ≤ it + 1 ∧ settled it' w'.

Lemma run_step_spec s it w :
  settled it w → step_ok s → 0 ≤ it < 2 ^ 62 →
  wpf allowed (run_step ch tid other fd cbs s) (λ _ w', stepped it w w') w.
Proof.
  intros [(ph & rv & Hl & Hst)|Hg] Hok Hit; unfold run_step; wp_go.
  - assert (Hsame : ∀ ph w', live ph (rest_place it rv) w' → steady ph → holds_ (env_ w') = holds_ (env_ w) →
      stepped it w w').
    { intros ph' w' Hl' Hst' Hh. split; [congruence|]. exists it. split; [lia|]. left. by exists ph', rv. }
    assert (Hrel : ∀ ph it' rv' w', live ph (rest_place it' rv') w' → steady ph → it ≤ it' ≤ it + 1 →
      (holds_ (env_ w) = false → holds_ (env_ w') = false) →
      wpf allowed (release ch) (λ _ w', stepped it w w') w').
    { intros ph' it' rv' w' Hl' Hst' Hit' Hh. eapply wp_mono; [by eapply release_live|]. cbv beta.
      intros _ w'' [[-> _]|[Hg _]]; (split; [by try (intros _; apply Hg)|]); exists it'; (split; [done|]).
      - left. by exists ph', rv'.
      - by right. }
    destruct s as [m| | | |r t]; wp_go.
    + destruct (can_call w) eqn:Hcan; [|by eapply Hsame]. destruct Hok as [Hs Hlen].
      eapply wp_mono; [by eapply other_send_live, Hlen; [|eapply can_call_live|]|]. cbv beta.
      intros _ w' [Hl' Hh']. by eapply Hsame.
    + destruct (can_call w) eqn:Hcan; [|by eapply Hsame].
      eapply wp_mono; [by eapply forceClose_spec, can_call_live|]. cbv beta. intros _ w' [Hl' [Hh' _]]. by eapply Hsame.
    + eapply Hrel; [by eapply drop_live|done|lia|done].
    + destruct (Z.ltb_spec 0 (removals_ (env_ w))); [|by eapply Hsame]. wp_go.
      eapply wp_mono; [by eapply main_remove_live|]. cbv beta. intros _ w' [Hl' Hh']. by eapply (Hsame PRemoved).
    + eapply wp_mono; [by eapply iteration_live|]. cbv beta.
      intros _ w' (rv' & Hh & ph' & Hl' & Hst' & _). eapply Hrel; [done|done|lia|congruence].
  - pose proof Hg as [].
    assert (Hstay : stepped it w w) by (split; [done|]; exists it; split; [lia|by right]).
    destruct s as [m| | | |r t]; wp_go.
    + unfold can_call. by rewrite gone_holds0.
    + unfold can_call. by rewrite gone_holds0.
    + unfold release. wp_go. cbn. rewrite gone_freed0. split; [done|]. exists it. split; [lia|]. right. by constructor.
    + by rewrite gone_removals0.
    + eapply wp_mono; [by apply (iteration_gone r t it)|]. cbv beta. intros _ w' Hg'.
      unfold release. wp_go. rewrite (gone_freed _ _ Hg'). split; [intros _; apply Hg'|].
      exists (it + 1). split; [lia|by right].
Qed.

(** The next iteration of a closed connection that nobody else holds destroys it. *)
Lemma closed_poll_spec r t it rv ph w :
  live ph (rest_place it rv) w → steady ph → is_closed ph → ph ≠ PRequested → ph ≠ PClosing →
  holds_ (env_ w) = false → poll_ok r → 0 ≤ it < 2 ^ 62 →
  wpf allowed (run_step ch tid other fd cbs (Poll r t)) (λ _ w', gone (it + 1) w') w.
Proof.
  intros Hl Hst Hcl Hn1 Hn2 Hh Hok Hit. unfold run_step. wp_go.
  eapply wp_mono; [by eapply iteration_live|]. cbv beta.
  intros _ w1 (rv1 & Hh1 & ph1 & Hl1 & Hst1 & _ & Hph1). destruct (Hph1 Hcl) as [Hmv Hq].
  eapply wp_mono; [by eapply release_live|]. cbv beta. intros _ w2 [[-> Href]|[Hg _]]; [exfalso|done].
  destruct Hl1 as (c & Hc & _ & Hp). unfold referenced in Href. rewrite Hh1, Hh, Hq in Href. cbn in Href.
  rewrite !orb_false_r in Href. unfold in_phase, queue in Hp. cbn in Hp. rewrite Hq in Hp.
  destruct Hmv as [->| ->]; [destruct ph; try done; try by destruct Hcl|]; cbn in Hp; destruct_and!; try done.
  all: match goal with E : in_map_ _ = _, E' : removals_ _ = _ |- _ => by rewrite E, E' in Href end.
Qed.
End invariant.
