(* ===== verification/ConnSafety.v ===== *)
(** * ConnSafety: what a connection guarantees

    Theorems about [run]: a new connection is established and then any sequence of loop
    iterations, calls of another thread and removals happens, with any kernel answers
    and any callbacks, which may stop and start to read while the connection is up. *)
From S2P Require Import Prelude Timestamp Buffer ByteQueue Channel EPollPoller EventLoop TcpConnection ConnInvariant.

Section safety.
Context `{Epoll} {Q : Type} `{!ByteQueue Q}.
Context (ch tid other fd : Z) (cbs : Callbacks).

#[local] Abbreviation allowed := (λ f, f = LengthError).

(** Sequences of steps: messages fit an [int]; another thread that sends keeps its pointer; the
    kernel does not report urgent data with a hang-up without input. *)
Definition steps_ok (holds : bool) (steps : list step) : Prop :=
  Forall (λ s, match s with
               | OtherSend m => holds = true ∧ (OtherDrop ∉ steps) ∧ zlen m < 2 ^ 31
               | Poll r _ => hup_ok r
               | _ => True
               end) steps.

Definition no_hang_up (s : step) : Prop := match s with Poll r _ => has r EPOLLHUP = false | _ => True end.

(** What the theorems assume of the surroundings: the other thread is not the loop's; a message callback is set;
    callbacks send less than 2 GiB at a time (if that depends on what they receive, less than 2 GiB is received),
    and they stop and start to read only while the connection is up (otherwise [startRead_when_closed]); when they do,
    no hang-up is reported ([hangup_after_stopRead]), and a hang-up without input never comes with urgent data
    ([hangup_with_urgent_data]); a thread that sends less than 2 GiB at a time keeps its pointer to the
    connection ([send_outlives_connection]); epoll takes the descriptor and readv keeps to its vectors; there are
    fewer than 2^32 steps. *)
Record setting (holds : bool) (rs : list (list Z → readv_answer)) (steps : list step) : Prop := {
  set_threads : other ≠ tid;
  set_callbacks : ∃ mn, well_behaved cbs mn ∧ (bounded mn = true → ∃ n, volume rs n ∧ n < 2 ^ 31) ∧
    (stops mn = true → Forall no_hang_up steps);
  set_watch : can_watch fd;
  set_kernel : Forall readv_law rs;
  set_steps : steps_ok holds steps;
  set_length : zlen steps < 2 ^ 32
}.

Definition is_send (s : step) : bool := match s with OtherSend _ => true | _ => false end.

Lemma steps_ok_each holds mn steps :
  steps_ok holds steps → (stops mn = true → Forall no_hang_up steps) → Forall (step_ok (existsb is_send steps) mn) steps.
Proof.
  intros Hok Hhup. apply list.Forall_forall. intros s Hs. unfold steps_ok in Hok. rewrite list.Forall_forall in Hok.
  pose proof (Hok s Hs) as Hs'. destruct s as [m| | | |r t]; try done; cbn.
  3:{ split; [done|]. intros Hst. specialize (Hhup Hst). rewrite list.Forall_forall in Hhup. by apply (Hhup _ Hs). }
  - destruct Hs' as (_ & _ & Hlen). split; [|done]. apply existsb_exists. exists (OtherSend m).
    split; [by apply (proj1 (list_elem_of_In _ _))|done].
  - destruct (existsb is_send steps) eqn:Hsend; [exfalso|done].
    apply existsb_exists in Hsend as (s & Hin & Hs2). destruct s as [m| | | |]; try done.
    apply list_elem_of_In in Hin. by destruct (Hok _ Hin) as (_ & ? & _).
Qed.

Lemma sends_holds holds steps : steps_ok holds steps → existsb is_send steps = true → holds = true.
Proof.
  intros Hok Hsend. apply existsb_exists in Hsend as (s & Hin & Hs). destruct s as [m| | | |]; try done.
  apply list_elem_of_In in Hin. unfold steps_ok in Hok. rewrite list.Forall_forall in Hok. by destruct (Hok _ Hin).
Qed.

(** The initial world, at its first step. *)
Lemma init_core sends mn holds ws rs :
  can_watch fd → Forall readv_law rs → (sends = true → holds = true) →
  (bounded mn = true → ∃ n, volume rs n ∧ n < 2 ^ 31) →
  core ch tid fd sends mn (rest_place 0 0) (world_init ch tid fd holds ws rs) (conn_channel fd).
Proof.
  intros Hfd Hrs Hsends. constructor; try done.
  - apply poller_wf_init. intros a c Ha. apply lookup_singleton_Some in Ha as [_ <-]. done.
  - apply lookup_singleton_eq.
  - apply q_init_ok.
  - apply q_init_ok.
  - cbn. by rewrite q_init_bytes.
Qed.

Lemma establish_spec sends mn holds ws rs :
  other ≠ tid → well_behaved cbs mn → can_watch fd → Forall readv_law rs → (sends = true → holds = true) →
  (bounded mn = true → ∃ n, volume rs n ∧ n < 2 ^ 31) →
  wpf allowed (establish ch tid other cbs) (λ _ w, settled ch tid fd cbs sends mn 0 w ∧ holds_ (env_ w) = holds)
    (world_init ch tid fd holds ws rs).
Proof.
  intros Hother Hcbs Hfd Hrs Hsends Hvol. pose proof (init_core sends mn holds ws rs Hfd Hrs Hsends Hvol) as Hc.
  assert (Hs : sent_ok [] (world_init ch tid fd holds ws rs)).
  { intros _. cbn. unfold out_bytes. cbn. by rewrite q_init_bytes. }
  assert (Hdirect : wpf allowed (exec ch tid cbs FConnectEstablished)
    (λ _ w, settled ch tid fd cbs sends mn 0 w ∧ holds_ (env_ w) = holds) (world_init ch tid fd holds ws rs)).
  { unfold exec. wp_go. cbn [freed_ env_ world_init]. eapply wp_mono.
    { eapply connectEstablished_spec; [done|exact Hc|exact Hs|try done..].
      unfold out_bytes. apply q_init_bytes. }
    cbv beta. intros _ w' [Hl Hh]. split; [left; by exists POpen, 0|done]. }
  unfold establish, runInLoop, isInLoopThread. wp_go. change (threadId_ _) with tid.
  destruct (TcpConnection.closeCallback_ cbs) as [[| |]|]; rewrite ?Z.eqb_refl; try exact Hdirect.
  rewrite (proj2 (Z.eqb_neq _ _)) by done. apply on_loop_spec, queueInLoop_spec. intros n _. split; [left|done].
  exists PConnecting, 0. split; [|done]. exists (conn_channel fd).
  change (set_loop _ _) with (pushed FConnectEstablished n (world_init (Q := Q) ch tid fd holds ws rs)).
  split_and!; [by apply core_push|exact Hs|].
  unfold in_phase, phase_ok, queue, out_bytes. cbn. by rewrite q_init_bytes.
Qed.

Lemma steps_spec sends mn steps it w :
  other ≠ tid → well_behaved cbs mn → settled ch tid fd cbs sends mn it w → Forall (step_ok sends mn) steps →
  0 ≤ it → it + zlen steps < 2 ^ 62 →
  wpf allowed (for_each (run_step ch tid other fd cbs) steps)
    (λ _ w', (holds_ (env_ w) = false → holds_ (env_ w') = false) ∧
       ∃ it', it ≤ it' ≤ it + zlen steps ∧ settled ch tid fd cbs sends mn it' w') w.
Proof.
  intros Hother Hcbs Hw Hok. induction Hok as [|s steps Hs Hok IH] in it, w, Hw |- *; intros Hit Hlen; cbn [for_each].
  - wp_go. split; [done|]. exists it. split; [rewrite zlen_nil; lia|done].
  - rewrite zlen_cons in *. pose proof (zlen_nonneg steps). rewrite wp_bind.
    eapply wp_mono; [eapply (run_step_spec _ _ other); [done|done|exact Hw|done|lia]|]. cbv beta.
    intros _ w1 (Hh1 & it1 & Hit1 & Hw1). eapply wp_mono; [apply (IH it1); [done|lia|lia]|]. cbv beta.
    intros _ w2 (Hh2 & it2 & Hit2 & Hw2). split; [by eauto|]. exists it2. split; [lia|done].
Qed.

(** A run, and what is known of the steps after it. *)
Lemma run_spec holds ws rs steps more :
  setting holds rs (steps ++ more) →
  let sends := existsb is_send (steps ++ more) in
  wpf allowed (run ch tid other fd cbs steps)
    (λ _ w, (holds = false → holds_ (env_ w) = false) ∧
       ∃ mn it, well_behaved cbs mn ∧ Forall (step_ok sends mn) more ∧ 0 ≤ it ≤ zlen steps ∧
         settled ch tid fd cbs sends mn it w)
    (world_init ch tid fd holds ws rs).
Proof.
  intros [? (mn & Hcbs & Hvol & Hhup) ? ? Hok Hlen] sends. rewrite zlen_app in Hlen. pose proof (zlen_nonneg more).
  pose proof (steps_ok_each _ _ _ Hok Hhup) as Heach. apply Forall_app in Heach as [Heach Hmore].
  unfold run. rewrite wp_bind. eapply wp_mono.
  { apply (establish_spec sends mn); try done. by apply sends_holds. }
  cbv beta. intros _ w [Hw Hh]. eapply wp_mono.
  { apply (steps_spec sends mn steps 0); try done. lia. }
  cbv beta. intros _ w' (Hh' & it & Hit & ?). split; [by intros ->; apply Hh'|]. exists mn, it. split_and!; [done|done|lia..|done].
Qed.

Lemma run_then holds ws rs steps more w :
  setting holds rs (steps ++ more) → run ch tid other fd cbs steps (world_init ch tid fd holds ws rs) = Ok (tt, w) →
  let sends := existsb is_send (steps ++ more) in
  (∃ mn it, well_behaved cbs mn ∧ Forall (step_ok sends mn) more ∧ 0 ≤ it ≤ zlen steps ∧
     settled ch tid fd cbs sends mn it w) ∧
  (holds = false → holds_ (env_ w) = false).
Proof.
  intros Hset Hrun. pose proof (run_spec holds ws rs steps more Hset) as Hspec. unfold wpf in Hspec. rewrite Hrun in Hspec.
  by destruct Hspec.
Qed.

Lemma run_settled holds ws rs steps w :
  setting holds rs steps → run ch tid other fd cbs steps (world_init ch tid fd holds ws rs) = Ok (tt, w) →
  (∃ mn it, well_behaved cbs mn ∧ 0 ≤ it ≤ zlen steps ∧
     settled ch tid fd cbs (existsb is_send steps) mn it w) ∧
  (holds = false → holds_ (env_ w) = false).
Proof.
  intros Hset Hrun. rewrite <- (app_nil_r steps) in Hset. destruct (run_then _ _ _ _ _ _ Hset Hrun) as [(mn & it & ? & _ & ?) ?].
  rewrite app_nil_r in *. split; [by exists mn, it|done].
Qed.


(** *** In terms of [settled] *)

Lemma settled_stream sends mn it (w : World Q) :
  settled ch tid fd cbs sends mn it w → broken_ (log_ w) = false → sent_ (log_ w) = wire_ (log_ w) ++ out_bytes w.
Proof.
  intros [(ph & rv & (c & _ & Hs & _) & _)|Hg] Hb.
  - specialize (Hs Hb). by rewrite app_nil_r in Hs.
  - pose proof (gone_sent _ _ _ _ Hg Hb) as Hs. by rewrite app_nil_r in Hs.
Qed.

Lemma settled_received sends mn it (w : World Q) :
  settled ch tid fd cbs sends mn it w → received_ (log_ w) = consumed_ (log_ w) ++ q_bytes (inputBuffer_ (conn_ w)).
Proof. intros [(ph & rv & (c & Hc & _) & _)|Hg]; [apply Hc|apply Hg]. Qed.

Lemma settled_trace sends mn it (w : World Q) :
  settled ch tid fd cbs sends mn it w →
  match state_ (conn_ w) with
  | KConnecting => trace_ (log_ w) = []
  | KConnected | KDisconnecting => open_trace (trace_ (log_ w))
  | KDisconnected => closed_trace (trace_ (log_ w))
  end.
Proof.
  intros [(ph & rv & (c & _ & _ & Hp) & _)|Hg].
  - destruct ph; unfold in_phase, phase_ok in Hp; destruct_and!.
    all: match goal with Hst : state_ _ = _ |- _ => by rewrite Hst | Hst : _ ∨ _ |- _ => idtac end.
    by match goal with Hst : state_ _ = _ ∨ state_ _ = _ |- _ => destruct Hst as [->| ->] end.
  - by rewrite (gone_state _ _ _ _ Hg); apply Hg.
Qed.

(** C5: the life of a connection.  In every state it can reach in its [setting] (in particular with callbacks that do
    not call [startRead] when it is down, and no urgent data with a hang-up), the callbacks a user saw are: none before it
    is established; after that one connection callback first, then only messages and notices; and once it
    is disconnected, exactly one more connection callback, after which no message is delivered any more. *)
Theorem conn_lifecycle holds ws rs steps w :
  setting holds rs steps →
  run ch tid other fd cbs steps (world_init ch tid fd holds ws rs) = Ok (tt, w) →
  match state_ (conn_ w) with
  | KConnecting => trace_ (log_ w) = []
  | KConnected | KDisconnecting => open_trace (trace_ (log_ w))
  | KDisconnected => closed_trace (trace_ (log_ w))
  end.
Proof. intros Hset Hrun. destruct (run_settled _ _ _ _ _ Hset Hrun) as [(mn & it & _ & _ & Hw) _]. by eapply settled_trace. Qed.

(** C2: bytes go out in order, without loss or repetition.  As long as no message was dropped after a
    fatal error of [write], what was sent is what the kernel took followed by what waits in the output
    buffer: through partial writes, full sockets, sends of other threads and closing. *)
Theorem conn_output_stream holds ws rs steps w :
  setting holds rs steps →
  run ch tid other fd cbs steps (world_init ch tid fd holds ws rs) = Ok (tt, w) →
  broken_ (log_ w) = false →
  sent_ (log_ w) = wire_ (log_ w) ++ q_bytes (outputBuffer_ (conn_ w)).
Proof. intros Hset Hrun Hb. destruct (run_settled _ _ _ _ _ Hset Hrun) as [(mn & it & _ & _ & Hw) _]. by eapply settled_stream. Qed.

(** C7: bytes come in in order, without loss or repetition: what the kernel delivered is what the user
    retrieved followed by what waits in the input buffer. *)
Theorem conn_input_stream holds ws rs steps w :
  setting holds rs steps →
  run ch tid other fd cbs steps (world_init ch tid fd holds ws rs) = Ok (tt, w) →
  received_ (log_ w) = consumed_ (log_ w) ++ q_bytes (inputBuffer_ (conn_ w)).
Proof. intros Hset Hrun. destruct (run_settled _ _ _ _ _ Hset Hrun) as [(mn & it & _ & _ & Hw) _]. by eapply settled_received. Qed.

Lemma open_interest k w c sends mn :
  core ch tid fd sends mn k w c → index_ c = kAdded →
  interest (epollfd_ (poller_ (loop_ w))) !! fd = Some (ch, events_ c).
Proof.
  intros Hc Hi. apply (wf_interest _ (core_poller _ _ _ _ _ _ _ _ Hc)). exists c.
  split_and!; [apply Hc|apply Hc|done|done].
Qed.

Lemma closed_interest k w c sends mn :
  core ch tid fd sends mn k w c → index_ c = kDeleted ∨ channels_ (poller_ (loop_ w)) !! fd = None →
  interest (epollfd_ (poller_ (loop_ w))) !! fd = None.
Proof.
  intros Hc Hi. destruct (interest _ !! fd) as [[a ev]|] eqn:Hin; [exfalso|done].
  destruct (core_poller _ _ _ _ _ _ _ _ Hc) as [W1 W2 W3 W4 W5].
  apply W3 in Hin as (c' & Hc' & Hfd & Ha & _).
  destruct (W2 _ _ Hc') as [Hn|[_ Hn]]; [rewrite Hn in Ha; done|]. rewrite Hfd in Hn.
  destruct Hi as [Hd|Hd]; [|congruence].
  destruct (W2 _ _ (core_chan _ _ _ _ _ _ _ _ Hc)) as [Hx|[_ Hx]]; [rewrite Hd in Hx; done|].
  rewrite (core_fd _ _ _ _ _ _ _ _ Hc) in Hx. assert (a = ch) as -> by congruence.
  rewrite (core_chan _ _ _ _ _ _ _ _ Hc) in Hc'. injection Hc' as <-. rewrite Hd in Ha. done.
Qed.

(** C4: what the kernel watches.  In every state that a connection can reach in its [setting] (in particular with
    callbacks that do not call [startRead] when it is down): an open connection is watched for input as long as it reads, and for output
    exactly while bytes wait in the output buffer, so a loop never spins on a writable socket nor forgets buffered
    bytes; when it wants neither it is not watched.  A connection that is not established is not watched, nor is a
    closed one, but that the kernel watches one that had stopped to read for errors and hang-ups until it is destroyed. *)
Theorem conn_watched holds ws rs steps w :
  setting holds rs steps →
  run ch tid other fd cbs steps (world_init ch tid fd holds ws rs) = Ok (tt, w) →
  let watched := interest (epollfd_ (poller_ (loop_ w))) !! fd in
  match state_ (conn_ w) with
  | KConnecting => watched = None
  | KConnected | KDisconnecting =>
      let mask := asked (reading_ (conn_ w)) (q_bytes (outputBuffer_ (conn_ w))) in
      watched = if mask =? kNoneEvent then None else Some (ch, mask)
  | KDisconnected => watched = None ∨ (reading_ (conn_ w) = false ∧ watched = Some (ch, kNoneEvent))
  end.
Proof.
  intros Hset Hrun watched. destruct (run_settled _ _ _ _ _ Hset Hrun) as [(mn & it & _ & _ & [(ph & rv & (c & Hc & _ & Hp) & _)|Hg]) _].
  2:{ rewrite (gone_state _ _ _ _ Hg). left. apply Hg. }
  destruct (decide (ph = POpen)) as [->|Hne].
  - destruct Hp as (P1 & P2 & P3 & _). unfold out_bytes in P3.
    assert (Hw : watched = if events_ c =? kNoneEvent then None else Some (ch, events_ c)).
    { unfold index_for in P2. destruct (events_ c =? kNoneEvent); [eapply closed_interest; [exact Hc|by left]|by eapply open_interest]. }
    rewrite P3 in Hw. by destruct P1 as [->| ->].
  - assert (Hshut : events_ c = kNoneEvent → shut (reading_ (conn_ w)) (index_ c) →
      watched = None ∨ (reading_ (conn_ w) = false ∧ watched = Some (ch, kNoneEvent))).
    { intros Hev [Hi|[Hrd Hi]]; [left; eapply closed_interest; [exact Hc|by left]|right]. split; [done|].
      rewrite <- Hev. by eapply open_interest. }
    destruct ph; try done; unfold in_phase, phase_ok in Hp; destruct_and!;
      match goal with Hst : state_ _ = _ |- _ => rewrite Hst end; try by apply Hshut.
    + eapply closed_interest; [exact Hc|by right].
    + left. eapply closed_interest; [exact Hc|by right].
Qed.

Lemma down_closed ph k w c :
  in_phase fd ph k w c → EvDown ∈ trace_ (log_ w) → is_closed ph.
Proof.
  intros Hp Hin. split; intros ->; unfold in_phase, phase_ok in Hp; destruct_and!.
  - match goal with Htr : trace_ _ = [] |- _ => rewrite Htr in Hin end. by apply elem_of_nil in Hin.
  - match goal with Htr : open_trace _ |- _ => destruct Htr as (ms & Hms1 & Hms) end. rewrite Hms1 in Hin.
    apply elem_of_cons in Hin as [?|Hin]; [done|]. rewrite list.Forall_forall in Hms. by destruct (Hms _ Hin).
Qed.

(** C6: a closed connection is reclaimed.  In its [setting] (in particular with callbacks that do not call [startRead]
    when it is down, and, where they call [stopRead], without a hang-up, in the next iteration either), when no other
    thread holds it, a connection whose user was told
    that it is down is destroyed by the next iteration of its loop, after the removal by its server when
    that runs in another thread: the destructors' assertions hold, the owner does not have it any more,
    nothing is queued for it and its descriptor is not watched. *)
Theorem conn_reclaimed ws rs steps r t w :
  setting false rs (steps ++ [MainRemove; Poll r t]) → TcpConnection.closeCallback_ cbs ≠ None →
  run ch tid other fd cbs steps (world_init ch tid fd false ws rs) = Ok (tt, w) →
  EvDown ∈ trace_ (log_ w) →
  wpf allowed (run_step ch tid other fd cbs MainRemove ;; run_step ch tid other fd cbs (Poll r t))
    (λ _ w', freed_ (env_ w') = true ∧ in_map_ (env_ w') = false ∧ pendingFunctors_ (loop_ w') = [] ∧
       interest (epollfd_ (poller_ (loop_ w'))) !! fd = None) w.
Proof.
  intros Hset Howner Hrun Hdown. destruct (run_then _ _ _ _ _ _ Hset Hrun) as [(mn & it & Hcbs & Hmore & Hit & Hw) Hh].
  specialize (Hh eq_refl). pose proof Hset as [? _ _ _ _ Hlen]. rewrite zlen_app in Hlen. change (zlen [_; _]) with 2 in Hlen.
  set (sends := existsb _ _) in *. assert (Hr : poll_ok mn r) by (by apply list.Forall_cons in Hmore as [_ [? _]%list.Forall_cons]).
  assert (Hgone : ∀ it' w', gone tid fd it' w' → freed_ (env_ w') = true ∧ in_map_ (env_ w') = false ∧
    pendingFunctors_ (loop_ w') = [] ∧ interest (epollfd_ (poller_ (loop_ w'))) !! fd = None).
  { intros it' w' []. done. }
  rewrite wp_bind. destruct Hw as [(ph & rv & Hl & Hst)|Hg].
  - assert (Hcl : is_closed ph).
    { destruct Hl as (c & _ & _ & Hp). by eapply down_closed. }
    assert (Hnc : ph ≠ PClosing) by (intros ->; by apply Howner, Hst).
    unfold run_step at 1. wp_go. destruct (Z.ltb_spec 0 (removals_ (env_ w))) as [Hrem|Hrem]; wp_go.
    + eapply wp_mono; [by eapply (main_remove_live ch tid other fd cbs sends mn ph it rv)|]. cbv beta.
      intros _ w1 [Hl1 Hh1].
      eapply wp_mono; [eapply (closed_poll_spec ch tid other fd cbs sends mn); [done|exact Hl1|done..|congruence|done|lia]|].
      cbv beta. intros _ w2 Hg. by eapply Hgone.
    + assert (Hnr : ph ≠ PRequested).
      { intros ->. destruct Hl as (c & _ & _ & Hp). unfold in_phase, phase_ok in Hp. destruct_and!. lia. }
      eapply wp_mono; [eapply (closed_poll_spec ch tid other fd cbs sends mn); [done|exact Hl|done..|lia]|].
      cbv beta. intros _ w2 Hg. by eapply Hgone.
  - unfold run_step at 1. wp_go. rewrite (gone_removals _ _ _ _ Hg). cbn.
    assert (Hstep : wpf allowed (run_step ch tid other fd cbs (Poll r t)) (λ _ w', gone tid fd (it + 1) w') w).
    { unfold run_step. wp_go. eapply wp_mono; [apply (iteration_gone ch tid other fd cbs r t it); [done|lia]|]. cbv beta.
      intros _ w1 Hg1. unfold release. wp_go. by rewrite (gone_freed _ _ _ _ Hg1). }
    eapply wp_mono; [exact Hstep|]. cbv beta. intros _ w1 Hg1. by eapply Hgone.
Qed.

Lemma settled_down sends mn it (w : World Q) :
  settled ch tid fd cbs sends mn it w → EvDown ∈ trace_ (log_ w) → state_ (conn_ w) = KDisconnected.
Proof.
  intros [(ph & rv & Hl & _)|Hg] Hd; [|apply Hg]. pose proof Hl as (c & _ & _ & Hp).
  destruct (down_closed _ _ _ _ Hp Hd). by eapply live_closed.
Qed.

End safety.

(** ** What the code does not guarantee

    The calls that the theorems above leave out. *)
Section limits.
Context `{Epoll} {Q : Type} `{!ByteQueue Q}.
Context (ch tid other fd : Z) (cbs : Callbacks).

#[local] Abbreviation allowed := (λ f, f = LengthError).

(** A connection that is down and whose destruction is still queued. *)
Definition awaits_destruction (w : World Q) : Prop :=
  state_ (conn_ w) = KDisconnected ∧ FConnectDestroyed ∈ pendingFunctors_ (loop_ w).

Lemma awaits_removed sends holds ws rs steps w :
  setting tid other fd cbs holds rs steps →
  run ch tid other fd cbs steps (world_init ch tid fd holds ws rs) = Ok (tt, w) →
  sends = existsb is_send steps → FConnectDestroyed ∈ pendingFunctors_ (loop_ w) →
  ∃ mn it rv c, core ch tid fd sends mn (rest_place it rv) w c ∧ in_phase fd PRemoved (rest_place it rv) w c.
Proof.
  intros Hset Hrun -> Hin. destruct (run_settled _ _ _ _ _ _ _ _ _ _ Hset Hrun) as [(mn & it & _ & _ & [Hl|Hg]) _].
  2:{ rewrite (gone_queue _ _ _ _ Hg) in Hin. by apply elem_of_nil in Hin. }
  destruct Hl as (ph & rv & (c & Hc & _ & Hp) & _). exists mn, it, rv, c. split; [done|].
  assert (Hd : destructions (queue (rest_place it rv) w) ≠ 0%nat).
  { unfold queue. cbn [p_todo rest_place app]. apply list_elem_of_split in Hin as (l1 & l2 & ->).
    rewrite destructions_app, destructions_cons. case_decide; [lia|done]. }
  unfold in_phase in *. destruct ph; try exact Hp; exfalso; cbn [phase_ok] in Hp; destruct_and!; try done.
  match goal with Hq : queue _ _ = _ |- _ => by rewrite Hq in Hd end.
Qed.

(** [connectDestroyed] does not change the mask of a connection that is not connected. *)
Lemma destroy_watched sends mn k w c :
  core ch tid fd sends mn k w c → events_ c ≠ kNoneEvent → state_ (conn_ w) ≠ KConnected →
  faults (connectDestroyed ch tid cbs) AssertFailed w.
Proof.
  intros Hc Hev Hst. unfold connectDestroyed.
  apply (faults_bind_r _ _ _ tt w w).
  { unfold on_loop. change (loop_of w) with (loop_ w). rewrite assertInLoopThread_run by apply Hc. by destruct w. }
  apply (faults_bind_r _ _ _ w w w); [done|].
  rewrite bool_decide_eq_false_2 by done. apply (faults_bind_r _ _ _ tt w w); [done|].
  unfold faults, on_loop. change (loop_of w) with (loop_ w).
  assert (Hremove : faults (Channel_remove tid ch) AssertFailed (loop_ w)).
  { unfold Channel_remove. eapply faults_bind_r; [by eapply channel_at_run, Hc|].
    apply faults_bind_l. unfold isNoneEvent. by rewrite (proj2 (Z.eqb_neq _ _)). }
  by rewrite Hremove.
Qed.

(** C12: starting to read on a closed connection aborts.  [startRead] does not look at the connection's
    state: on a connection that is down and waits for its destruction it registers the channel again,
    and the assertion of [Channel::remove] in [connectDestroyed] fails. *)
Theorem startRead_when_closed holds ws rs steps w :
  setting tid other fd cbs holds rs steps →
  run ch tid other fd cbs steps (world_init ch tid fd holds ws rs) = Ok (tt, w) →
  FConnectDestroyed ∈ pendingFunctors_ (loop_ w) →
  faults (startRead ch tid tid ;; connectDestroyed ch tid cbs) AssertFailed w.
Proof.
  intros Hset Hrun Hin. destruct (awaits_removed _ _ _ _ _ _ Hset Hrun eq_refl Hin) as (mn & it & rv & c & Hc & Hp).
  destruct Hp as (P1 & P2 & P3 & P4 & P5 & P6 & P7 & P8 & P9).
  set (sends := existsb is_send steps) in *.
  assert (Hstart : wp (startRead ch tid tid)
    (λ _ w', ∃ c', core ch tid fd sends mn (rest_place it rv) w' c' ∧ events_ c' = kReadEvent ∧
       state_ (conn_ w') = KDisconnected) w).
  { unfold startRead, runInLoop, isInLoopThread, stopReadInLoop. wp_go. change (loop_of w) with (loop_ w).
    rewrite (core_thread _ _ _ _ _ _ _ _ Hc), Z.eqb_refl. wp_go. eapply thread_spec; [done|]. wp_go.
    eapply channel_spec; [done|]. wp_go.
    assert (isReading c = false) as -> by (unfold isReading; by rewrite P2). rewrite orb_true_r.
    unfold enableReading. eapply change_spec; [done|by intros ?%(shut_registered _ _ P5)|]. intros p' w1 Hc1 _.
    unfold wpf, on_conn, modify. cbn.
    exists (registered (set_addedToLoop true c) (enableReading_mask (events_ c))).
    split_and!; [|cbn; by rewrite P2|done].
    destruct Hc1. by constructor. }
  destruct (wp_inv Hstart) as ([] & w1 & Hrun1 & c1 & Hc1 & Hev1 & Hst1).
  eapply faults_bind_r; [exact Hrun1|]. eapply destroy_watched; [exact Hc1|by rewrite Hev1|by rewrite Hst1].
Qed.

(** A server that is destroyed while one of its connections is closing aborts.  The server's destructor
    calls [connectDestroyed], which takes a connected channel out of the poller, but not that of a
    connection on which [forceClose] was called; when the channel still asks for something, the assertion of
    [Channel::remove] fails. *)
Theorem destroy_while_disconnecting holds ws rs steps w :
  setting tid other fd cbs holds rs steps →
  run ch tid other fd cbs steps (world_init ch tid fd holds ws rs) = Ok (tt, w) →
  state_ (conn_ w) = KDisconnecting → reading_ (conn_ w) = true ∨ q_bytes (outputBuffer_ (conn_ w)) ≠ [] →
  faults (connectDestroyed ch tid cbs) AssertFailed w.
Proof.
  intros Hset Hrun Hst Hasks. destruct (run_settled _ _ _ _ _ _ _ _ _ _ Hset Hrun) as [(mn & it & _ & _ & [Hl|Hg]) _].
  2:{ by rewrite (gone_state _ _ _ _ Hg) in Hst. }
  destruct Hl as (ph & rv & (c & Hc & _ & Hp) & _). eapply destroy_watched; [exact Hc| |by rewrite Hst].
  unfold in_phase in Hp. destruct ph; cbn [phase_ok] in Hp; destruct_and!; try congruence.
  intros E. destruct (asked_nothing (reading_ (conn_ w)) (out_bytes w)) as [E1 E2]; [congruence|].
  destruct Hasks as [?|Hne]; [congruence|by apply Hne].
Qed.

Lemma closed_has_up tr : closed_trace tr → EvUp ∈ tr.
Proof. intros (ms & rest & -> & _). left. Qed.

(** Running a functor of a destroyed connection. *)
Lemma poll_freed r t it f q w (R : () → World Q → Prop) :
  reported fd r w = [] → iteration_ (loop_ w) = it → 0 ≤ it < 2 ^ 62 → pendingFunctors_ (loop_ w) = f :: q →
  freed_ (env_ w) = true →
  wpf (λ f', f' = UndefinedBehaviour) (poll_once ch tid other fd cbs r t) R w.
Proof.
  intros Hr Hi Hit Hq Hf. unfold poll_once, iteration, arrivals.
  cbn [arrived quit_requested answer returned_at for_each when_].
  rewrite wp_bind, wp_get. cbv beta. rewrite wp_bind. apply on_loop_spec. rewrite wp_modify. cbv beta.
  rewrite wp_bind. apply on_loop_spec. wp_go. rewrite Hr.
  apply on_loop_spec, on_poller_spec. cbn [poll]. rewrite wp_ret.
  apply (prepare_spec _ _ _ it); [done|lia|]. cbn [for_each]. wp_go.
  unfold doPendingFunctors. wp_go. repeat (apply on_loop_spec; wp_go). cbn. rewrite Hq. cbn [for_each]. wp_go.
  unfold exec. wp_go. cbn. rewrite Hf. by apply wp_raise.
Qed.

(** C11: a queued [send] can outlive its connection.  [send] from another thread queues a functor with a
    bare [this].  When the thread holds the last pointer to a connection that was already taken out of
    the poller, sends and lets go, the connection is destroyed with the functor still queued, and the
    loop then uses a destroyed object. *)
Theorem send_outlives_connection holds ws rs steps m r t w :
  setting tid other fd cbs holds rs steps →
  run ch tid other fd cbs steps (world_init ch tid fd holds ws rs) = Ok (tt, w) →
  state_ (conn_ w) = KDisconnected → holds_ (env_ w) = true → in_map_ (env_ w) = false →
  pendingFunctors_ (loop_ w) = [] → freed_ (env_ w) = false → zlen m < 2 ^ 31 →
  for_each (run_step ch tid other fd cbs) [OtherSend m; OtherDrop; Poll r t] w = Fault UndefinedBehaviour.
Proof.
  intros Hset Hrun Hst Hholds Hmap Hq Hfreed Hlen. pose proof (zlen_nonneg m).
  destruct (run_settled _ _ _ _ _ _ _ _ _ _ Hset Hrun) as [(mn & it & _ & Hit & [Hl|Hg]) _].
  2:{ by rewrite (gone_freed _ _ _ _ Hg) in Hfreed. }
  destruct Hl as (ph & rv & (c & Hc & _ & Hp) & _).
  assert (ph = PDestroyed) as ->.
  { unfold in_phase, queue in Hp. cbn [p_todo rest_place app] in Hp. rewrite Hq, Hmap, Hst in Hp.
    destruct ph; cbn in Hp; destruct_and!; try done; by destruct_or!. }
  destruct Hp as (_ & _ & _ & P4 & P5 & P6 & _ & P8 & _ & P10).
  assert (Hin : interest (epollfd_ (poller_ (loop_ w))) !! fd = None).
  { eapply closed_interest; [exact Hc|by right]. }
  pose proof (core_thread _ _ _ _ _ _ _ _ Hc) as Hthread. pose proof Hset as [Hne _ _ _ _ Hsteps].
  apply wp_faults. cbn [for_each]. wp_go.
  (* send *)
  unfold run_step, can_call. wp_go. rewrite Hholds, bool_decide_eq_true_2 by by apply closed_has_up.
  cbn [andb]. unfold send, runInLoop, isInLoopThread. wp_go.
  rewrite Hthread, (proj2 (Z.eqb_neq _ _)) by done.
  rewrite to_signed_id; [|done|].
  2:{ unfold in_signed. change (2 ^ (32 - 1)) with (2 ^ 31). rewrite andb_true_iff, Z.leb_le, Z.ltb_lt. lia. }
  rewrite (proj2 (Z.ltb_ge _ _)) by done. wp_go. change (loop_of w) with (loop_ w).
  rewrite Hthread, (proj2 (Z.eqb_neq _ _)) by done. apply on_loop_spec, queueInLoop_spec. intros n _. cbv beta.
  set (w0 := set_loop _ w).
  assert (He0 : env_ w0 = env_ w) by done. assert (Hst0 : state_ (conn_ w0) = KDisconnected) by done.
  assert (Hp0 : poller_ (loop_ w0) = poller_ (loop_ w)) by done.
  assert (Hi0 : iteration_ (loop_ w0) = it) by apply Hc.
  assert (Hq0 : pendingFunctors_ (loop_ w0) = [FSendInLoop (ztake (zlen m) m)]) by (cbn; by rewrite Hq).
  clearbody w0.
  (* drop *)
  unfold release. wp_go. unfold referenced.
  cbn [env_ set_env set_holds freed_ in_map_ holds_ removals_ loop_].
  rewrite He0, Hfreed, Hmap, P8, Hq0. cbn [negb andb orb existsb keeps Z.ltb Z.compare].
  unfold TcpConnection_dtor. wp_go. apply wp_assert; [by apply bool_decide_eq_true_2|]. wp_go.
  apply on_loop_spec, on_poller_spec. eapply channel_at_spec.
  { cbn. rewrite Hp0. exact (core_chan _ _ _ _ _ _ _ _ Hc). }
  wp_go. eapply wp_lift. { unfold Channel_dtor. rewrite (core_chan_handling _ _ _ _ _ _ _ _ Hc), P6. done. }
  wp_go. apply on_loop_spec, on_poller_spec. wp_go.
  eapply poll_freed; [by unfold reported; cbn; rewrite Hp0, Hin|exact Hi0|lia|exact Hq0|done].
Qed.
End limits.

(** ** An example *)

#[local] Existing Instance map_epoll.

(** An echo connection: it greets, echoes what it gets and keeps quiet when the connection is down. *)
Definition owned_callbacks (o : owner) : Callbacks :=
  mkCallbacks
    (Some (λ tr _, if bool_decide (EvDown ∈ tr) then [] else [Send (txt "hi")]))
    (Some (λ _ input, [Send (ztake 100 input); Retrieve 100]))
    (Some (λ _ _, [])) (Some (λ _ _, [])) (Some o) 64.

(** Its server's loop runs in another thread. *)
Definition example_callbacks : Callbacks := owned_callbacks ServerOtherLoop.

Lemma example_well_behaved o mn : well_behaved (owned_callbacks o) mn.
Proof.
  split.
  - intros cb [= <-] tr input. case_bool_decide; repeat constructor.
  - eexists. split; [reflexivity|]. intros tr input. constructor; [|by repeat constructor].
    cbn. rewrite zlen_ztake_min; lia.
  - intros cb [= <-] tr input. constructor.
  - intros cb [= <-] tr input. constructor.
Qed.

Lemma example_callbacks_ok o rs steps :
  ∃ mn, well_behaved (owned_callbacks o) mn ∧ (bounded mn = true → ∃ n, volume rs n ∧ n < 2 ^ 31) ∧
    (stops mn = true → Forall no_hang_up steps).
Proof. exists (mkManners false false). split; [apply example_well_behaved|done]. Qed.

(** The kernel takes one byte of the greeting, then everything; it delivers three bytes, then the end. *)
Definition example_writes : list write_answer := [WRoom 1; WRoom 100; WRoom 100; WRoom 100].
Definition example_reads : list (list Z → readv_answer) := [sample_kernel 3; sample_kernel 0].
Definition example_steps : list step :=
  [Poll 0 1; OtherSend (txt "bye"); Poll 4 2; Poll 1 3; OtherForceClose; Poll 1 4].
Definition example_init (holds : bool) : World Buffer :=
  world_init 100 1 7 holds example_writes example_reads.
Definition world_after (holds : bool) (steps : list step) : World Buffer :=
  match run 100 1 2 7 example_callbacks steps (example_init holds) with
  | Ok (_, w) => w
  | Fault _ => example_init holds
  end.

Lemma example_kernel : Forall readv_law example_reads.
Proof. repeat constructor; apply sample_kernel_law. Qed.

Lemma example_setting : setting 1 2 7 example_callbacks true example_reads example_steps.
Proof.
  split; [done|exact (example_callbacks_ok _ _ _)|exact I|exact example_kernel| |reflexivity].
  unfold steps_ok, example_steps. rewrite !list.Forall_cons, !not_elem_of_cons. split_and!; try done.
  apply not_elem_of_nil.
Qed.

Definition quiet_steps : list step := [Poll 0 1; Poll 4 2; Poll 1 3; Poll 1 4].
Lemma quiet_setting : setting 1 2 7 example_callbacks false example_reads quiet_steps.
Proof.
  split; [done|exact (example_callbacks_ok _ _ _)|exact I|exact example_kernel| |reflexivity].
  repeat constructor; done.
Qed.

Lemma example_runs : run 100 1 2 7 example_callbacks example_steps (example_init true) =
  Ok (tt, world_after true example_steps).
Proof. vm_compute. reflexivity. Qed.
Lemma quiet_runs : run 100 1 2 7 example_callbacks quiet_steps (example_init false) =
  Ok (tt, world_after false quiet_steps).
Proof. vm_compute. reflexivity. Qed.


Lemma conn_lifecycle_witness : closed_trace (trace_ (log_ (world_after true example_steps))).
Proof.
  exact (conn_lifecycle 100 1 2 7 example_callbacks true example_writes _ _ _ example_setting example_runs).
Defined.

Lemma conn_output_stream_witness :
  txt "hibyeAAA" = wire_ (log_ (world_after true example_steps)) ++
    q_bytes (outputBuffer_ (conn_ (world_after true example_steps))).
Proof.
  exact (conn_output_stream 100 1 2 7 example_callbacks true example_writes _ _ _ example_setting example_runs
           eq_refl).
Defined.

Lemma conn_input_stream_witness :
  txt "AAA" = consumed_ (log_ (world_after true example_steps)) ++
    q_bytes (inputBuffer_ (conn_ (world_after true example_steps))).
Proof.
  exact (conn_input_stream 100 1 2 7 example_callbacks true example_writes _ _ _ example_setting example_runs).
Defined.

(** The test for EPIPE comes after the error has been logged: when logging leaves another [errno] (25, ENOTTY),
    a broken connection is not noticed; the greeting is kept for a [write] that cannot succeed. *)
Definition after_broken (logged : Z) : bool * list byte :=
  match run 100 1 2 7 example_callbacks [Poll 0 1] (world_init 100 1 7 true [WError EPIPE logged] []) with
  | Ok (_, w) => (broken_ (log_ w), q_bytes (outputBuffer_ (conn_ w)))
  | Fault _ => (false, [])
  end.

Example broken_unnoticed : after_broken EPIPE = (true, []) ∧ after_broken 25 = (false, txt "hi").
Proof. split; vm_compute; reflexivity. Qed.

(** It stops to read until its answer has been written. *)
Definition pausing_callbacks : Callbacks :=
  let up := λ (tr : list event) (cs : list call), if bool_decide (EvDown ∈ tr) then [] else cs in
  mkCallbacks None (Some (λ tr input, [Send (ztake 100 input); Retrieve 100] ++ up tr [StopRead]))
    (Some (λ tr _, up tr [StartRead])) None (Some ServerOtherLoop) 64.

Lemma pausing_well_behaved : well_behaved pausing_callbacks (mkManners false true).
Proof.
  split.
  - discriminate.
  - eexists. split; [reflexivity|]. intros tr input _. cbn. constructor; [cbn; rewrite zlen_ztake_min; lia|].
    constructor; [done|]. case_bool_decide; by repeat constructor.
  - intros cb [= <-] tr input _. cbn. case_bool_decide; by repeat constructor.
  - discriminate.
Qed.

Definition pausing_steps : list step := [Poll 0 1; Poll EPOLLIN 2; Poll EPOLLOUT 3; Poll 0 4; Poll EPOLLIN 5].
Definition pausing_init : World Buffer :=
  world_init 100 1 7 true [WRoom 1; WRoom 100; WRoom 2] [sample_kernel 5; sample_kernel 3].
Definition pausing_world (steps : list step) : World Buffer :=
  match run 100 1 2 7 pausing_callbacks steps pausing_init with Ok (_, w) => w | Fault _ => pausing_init end.

Lemma pausing_setting :
  setting 1 2 7 pausing_callbacks true [sample_kernel 5; sample_kernel 3] pausing_steps.
Proof.
  split; [done| |exact I|repeat constructor; apply sample_kernel_law|repeat constructor; done|reflexivity].
  exists (mkManners false true). split_and!; [exact pausing_well_behaved|done|]. intros _. by repeat constructor.
Qed.

Lemma pausing_runs : run 100 1 2 7 pausing_callbacks pausing_steps pausing_init = Ok (tt, pausing_world pausing_steps).
Proof. vm_compute. reflexivity. Qed.

(** What is watched along that run: input; only output while an answer waits; input again. *)
Example pausing_watched :
  map (λ n, snd <$> interest (epollfd_ (poller_ (loop_ (pausing_world (take n pausing_steps))))) !! 7)
    [1; 2; 3; 4; 5]%nat = [Some 3; Some 4; Some 3; Some 3; Some 4].
Proof. vm_compute. reflexivity. Qed.

Lemma conn_watched_witness : interest (epollfd_ (poller_ (loop_ (pausing_world pausing_steps)))) !! 7 = Some (100, 4).
Proof.
  pose proof (conn_watched 100 1 2 7 pausing_callbacks true _ _ _ _ pausing_setting pausing_runs) as Hw.
  vm_compute in Hw |- *. exact Hw.
Defined.

Lemma conn_reclaimed_witness :
  wpf (λ f, f = LengthError)
    (run_step 100 1 2 7 example_callbacks MainRemove ;; run_step 100 1 2 7 example_callbacks (Poll 0 5))
    (λ _ w', freed_ (env_ w') = true ∧ in_map_ (env_ w') = false ∧ pendingFunctors_ (loop_ w') = [] ∧
       interest (epollfd_ (poller_ (loop_ w'))) !! 7 = None) (world_after false quiet_steps).
Proof.
  apply (conn_reclaimed 100 1 2 7 example_callbacks example_writes example_reads quiet_steps 0 5).
  - split; [done|exact (example_callbacks_ok _ _ _)|exact I|exact example_kernel| |reflexivity].
    repeat constructor; done.
  - discriminate.
  - exact quiet_runs.
  - vm_compute. repeat constructor.
Defined.

(** The same connection in the server's own loop, closed by [forceClose]. *)
Definition closing_steps : list step := [Poll 0 1; OtherForceClose; Poll 0 2].
Definition closing_world : World Buffer :=
  match run 100 1 2 7 (owned_callbacks ServerInLoop) closing_steps (example_init true) with
  | Ok (_, w) => w
  | Fault _ => example_init true
  end.

Lemma startRead_when_closed_witness :
  faults (startRead 100 1 1 ;; connectDestroyed 100 1 (owned_callbacks ServerInLoop)) AssertFailed closing_world.
Proof.
  apply (startRead_when_closed 100 1 2 7 (owned_callbacks ServerInLoop) true example_writes example_reads closing_steps).
  - split; [done|exact (example_callbacks_ok _ _ _)|exact I|exact example_kernel| |reflexivity].
    repeat constructor; done.
  - vm_compute. reflexivity.
  - vm_compute. repeat constructor.
Defined.

Definition forced_steps : list step := [Poll 0 1; OtherForceClose].
Lemma destroy_while_disconnecting_witness :
  faults (connectDestroyed 100 1 example_callbacks) AssertFailed (world_after true forced_steps).
Proof.
  apply (destroy_while_disconnecting 100 1 2 7 example_callbacks true example_writes example_reads forced_steps).
  - split; [done|exact (example_callbacks_ok _ _ _)|exact I|exact example_kernel| |reflexivity].
    repeat constructor; done.
  - vm_compute. reflexivity.
  - vm_compute. reflexivity.
  - left. vm_compute. reflexivity.
Defined.

Definition destroyed_steps : list step := quiet_steps ++ [MainRemove; Poll 0 5].
Lemma send_outlives_connection_witness :
  for_each (run_step 100 1 2 7 example_callbacks) [OtherSend (txt "late"); OtherDrop; Poll 0 6]
    (world_after true destroyed_steps) = Fault UndefinedBehaviour.
Proof.
  apply (send_outlives_connection 100 1 2 7 example_callbacks true example_writes example_reads destroyed_steps).
  - split; [done|exact (example_callbacks_ok _ _ _)|exact I|exact example_kernel| |reflexivity].
    repeat constructor; done.
  - vm_compute. reflexivity.
  - vm_compute. reflexivity.
  - vm_compute. reflexivity.
  - vm_compute. reflexivity.
  - vm_compute. reflexivity.
  - vm_compute. reflexivity.
  - reflexivity.
Defined.

(** A hang-up with urgent data and no input closes twice.  The close callback of the channel runs, then
    its read callback; the read meets the end of the stream and [handleClose] asserts that the connection
    was not closed. *)
Theorem hangup_with_urgent_data :
  run 100 1 2 7 example_callbacks [Poll 0 1; Poll (Z.lor EPOLLHUP EPOLLPRI) 2]
    (world_init (Q := Buffer) 100 1 7 false example_writes [sample_kernel 0]) = Fault AssertFailed.
Proof. vm_compute. reflexivity. Qed.

(** A connection that stopped to read is closed twice.  Its message callback stops reading, which takes the
    channel from the kernel, for nothing waits to be written; [handleClose] then disables the channel once more,
    which gives it to the kernel again, for errors and hang-ups ([disableAll_twice]).  When the peer hangs up
    before the server's loop has removed the connection, [handleClose] runs again and its assertion fails. *)
Definition stopping_callbacks : Callbacks :=
  mkCallbacks None (Some (λ _ input, [Retrieve (zlen input); StopRead])) None None (Some ServerOtherLoop) 1.

Theorem hangup_after_stopRead :
  let close := [Poll 0 1; Poll EPOLLIN 2; OtherForceClose; Poll 0 3] in
  let w0 := world_init (Q := Buffer) 100 1 7 true [] [sample_kernel 5] in
  match run 100 1 2 7 stopping_callbacks close w0 with
  | Ok (_, w) => (trace_ (log_ w), interest (epollfd_ (poller_ (loop_ w))) !! 7)
  | Fault _ => ([], None)
  end = ([EvUp; EvMessage (replicate 5 x41) 2; EvDown], Some (100, kNoneEvent)) ∧
  run 100 1 2 7 stopping_callbacks (close ++ [Poll EPOLLHUP 4]) w0 = Fault AssertFailed.
Proof. vm_compute. split; reflexivity. Qed.

(** [forceClose] in another thread races with the close of the connection.  The thread sees a connected
    state; the loop closes the connection; the thread then sets the state to disconnecting and queues
    [forceCloseInLoop].  The loop closes the connection a second time, and its server asserts that it still
    had it. *)
Theorem forceClose_race :
  let checked := λ w : World Buffer,
    bool_decide (state_ (conn_ w) = KConnected ∨ state_ (conn_ w) = KDisconnecting) in
  match run 100 1 2 7 (owned_callbacks ServerInLoop) [Poll 0 1; Poll 4 2; Poll 1 3] (example_init true) with
  | Ok (_, w) =>
      checked w = true ∧
      (run_step 100 1 2 7 (owned_callbacks ServerInLoop) (Poll 1 4) ;;
       setState KDisconnecting ;; on_loop (queueInLoop 2 FForceCloseInLoop) ;;
       run_step 100 1 2 7 (owned_callbacks ServerInLoop) (Poll 0 5)) w = Fault AssertFailed
  | Fault _ => False
  end.
Proof. vm_compute. split; reflexivity. Qed.
