(* ===== verification/ConnFrame.v ===== *)
(** * ConnFrame: what a connection's steps keep

    Partial correctness: an invariant of the connection, its surroundings and its log that the few
    primitive changes keep is kept by every handler, functor and iteration, whatever the state they
    start from. *)
From S2P Require Import Prelude Timestamp Buffer ByteQueue Channel EPollPoller EventLoop TcpConnection.

(** ** Programs that keep an invariant, if they return *)

Definition keeps {S A} (I : S → Prop) (m : prog S A) : Prop :=
  ∀ s, I s → wpf (λ _, True) m (λ _ s', I s') s.

Section keeps.
Context {S : Type} (I : S → Prop).

Lemma keeps_ret {A} (a : A) : keeps I (mret a).
Proof. by intros s. Qed.
Lemma keeps_raise {A} f : keeps I (raise f : prog S A).
Proof. by intros s. Qed.
Lemma keeps_assert b : keeps I (cassert b).
Proof. destruct b; [apply keeps_ret|apply keeps_raise]. Qed.
Lemma keeps_bind {A B} (m : prog S A) (k : A → prog S B) :
  keeps I m → (∀ a, keeps I (k a)) → keeps I (m ≫= k).
Proof. intros Hm Hk s Hs. rewrite wp_bind. eapply wp_mono; [by apply Hm|]. intros a s' Hs'. by apply Hk. Qed.
Lemma keeps_get {A} (k : S → prog S A) : (∀ s, I s → wpf (λ _, True) (k s) (λ _ s', I s') s) → keeps I (get ≫= k).
Proof. intros Hk s Hs. rewrite wp_bind, wp_get. by apply Hk. Qed.
Lemma keeps_gets {A} (f : S → A) : keeps I (gets f).
Proof. by intros s. Qed.
Lemma keeps_when b m : keeps I m → keeps I (when_ b m).
Proof. intros Hm. destruct b; [done|apply keeps_ret]. Qed.
Lemma keeps_lift {A} (o : outcome A) : keeps I (lift o).
Proof. intros s Hs. unfold wpf, lift. by destruct o. Qed.
Lemma keeps_modify f : (∀ s, I s → I (f s)) → keeps I (modify f).
Proof. intros Hf s Hs. by apply Hf. Qed.
Lemma keeps_for_each {A} (f : A → prog S ()) l : (∀ a, a ∈ l → keeps I (f a)) → keeps I (for_each f l).
Proof.
  induction l as [|a l IH]; intros Hf; cbn [for_each]; [apply keeps_ret|].
  apply keeps_bind; [apply Hf; by left|]. intros _. apply IH. intros b Hb. apply Hf. by right.
Qed.
End keeps.

Create HintDb keeps.
#[export] Hint Resolve keeps_ret keeps_raise keeps_assert keeps_gets keeps_lift : keeps.

(** Take a program apart down to what the hints know. *)
Ltac keep_step :=
  first
    [ solve [auto with keeps]
    | apply keeps_when
    | apply keeps_bind; [|intros ?]
    | match goal with
      | |- keeps _ (if ?b then _ else _) => destruct b
      | |- keeps _ (match ?x with _ => _ end) => destruct x
      end ].
Ltac keep := repeat keep_step.

(** *** Next to assertions that allow fewer faults *)

Lemma wpf_any {S A} (E : fault → Prop) (m : prog S A) R s : wpf E m R s → wpf (λ _, True) m R s.
Proof. unfold wpf. by destruct (m s) as [[]|]. Qed.

(** ** Changes of the loop that queue nothing *)

Section quiet.
Context `{Epoll} {F : Type} (K : option F → Prop).
Implicit Types (l : EventLoop F) (p : EPollPoller F).

(** Every callback of a channel satisfies [K], and a tied channel has an object. *)
Definition channel_calls (c : Channel F) : Prop :=
  K (readCallback_ c) ∧ K (writeCallback_ c) ∧ K (Channel.closeCallback_ c) ∧ K (errorCallback_ c) ∧
  (tied_ c = true → tie_ c ≠ None).
Definition poller_calls p : Prop := ∀ a c, heap_ p !! a = Some c → channel_calls c.

Lemma calls_channel_at a p : poller_calls p → wpf (λ _, True) (channel_at a) (λ c p', channel_calls c ∧ p' = p) p.
Proof. intros Hp. unfold channel_at. wp_go. destruct (heap_ p !! a) as [c|] eqn:Hc; [|done]. wp_go. split; [by eapply Hp|done]. Qed.
Lemma calls_insert a c p : poller_calls p → channel_calls c → poller_calls (set_heap (<[a := c]> (heap_ p)) p).
Proof. intros Hp Hc b d. cbn. rewrite lookup_insert_Some. intros [[_ <-]|[_ Hd]]; [done|by eapply Hp]. Qed.

Lemma keeps_channel_at a : keeps poller_calls (channel_at a).
Proof. intros p Hp. eapply wp_mono; [by apply calls_channel_at|]. by intros c p' [_ ->]. Qed.
Lemma keeps_modify_channel a f :
  (∀ c, channel_calls c → channel_calls (f c)) → keeps poller_calls (modify_channel a f).
Proof.
  intros Hf p Hp. unfold modify_channel. rewrite wp_bind. eapply wp_mono; [by apply calls_channel_at|].
  cbv beta. intros c p' [Hc ->]. rewrite wp_modify. by apply calls_insert, Hf.
Qed.
Lemma keeps_tie a o : keeps poller_calls (modify_channel a (tie o)).
Proof. apply keeps_modify_channel. intros c (? & ? & ? & ? & _). by split_and!. Qed.
Lemma keeps_heap f : (∀ p, heap_ (f p) = heap_ p) → keeps poller_calls (modify f).
Proof. intros Hf. apply keeps_modify. intros p Hp a c. rewrite Hf. apply Hp. Qed.
#[local] Hint Resolve keeps_channel_at : keeps.
#[local] Hint Extern 1 (keeps poller_calls get) => by intros ? : keeps.
#[local] Hint Extern 1 (keeps poller_calls (modify_channel _ _)) => by apply keeps_modify_channel : keeps.
#[local] Hint Extern 1 (keeps poller_calls (modify _)) => by apply keeps_heap; intros; try case_match : keeps.

Lemma keeps_update op a : keeps poller_calls (update op a).
Proof. unfold update. apply keeps_bind; [auto with keeps|]. intros c. apply keeps_get. intros p Hp. rewrite wp_put. exact Hp. Qed.
#[local] Hint Resolve keeps_update : keeps.
Lemma keeps_updateChannel a : keeps poller_calls (EPollPoller.updateChannel a).
Proof. unfold EPollPoller.updateChannel. keep. Qed.
Lemma keeps_removeChannel a : keeps poller_calls (EPollPoller.removeChannel a).
Proof. unfold EPollPoller.removeChannel. keep. Qed.
Lemma keeps_poll answer : keeps poller_calls (poll answer).
Proof.
  assert (Hfill : ∀ es, keeps poller_calls (fillActiveChannels es)).
  { induction es as [|[a r] es IH]; cbn [fillActiveChannels]; keep. }
  unfold poll. destruct answer as [[|e es]|]; keep.
Qed.

Definition quiet {A} (m : prog (EventLoop F) A) : Prop :=
  ∀ t q, keeps (λ l, threadId_ l = t ∧ pendingFunctors_ l = q ∧ poller_calls (poller_ l)) m.

Lemma quiet_bind {A B} (m : prog (EventLoop F) A) (k : A → prog (EventLoop F) B) :
  quiet m → (∀ a, quiet (k a)) → quiet (m ≫= k).
Proof. intros Hm Hk t q. apply keeps_bind; [apply Hm|]. intros a. apply Hk. Qed.
Lemma quiet_get : quiet get.
Proof. by intros t q l. Qed.
Lemma quiet_assert b : quiet (cassert b).
Proof. intros t q. apply keeps_assert. Qed.
Lemma quiet_when b m : quiet m → quiet (when_ b m).
Proof. intros Hm t q. apply keeps_when, Hm. Qed.
Lemma quiet_on_poller {A} (m : prog (EPollPoller F) A) : keeps poller_calls m → quiet (on_poller m).
Proof.
  intros Hm t q l (Ht & Hq & Hp). specialize (Hm _ Hp). unfold wpf, on_poller in *. by destruct (m (poller_ l)) as [[]|].
Qed.
Lemma quiet_modify f :
  (∀ l, threadId_ (f l) = threadId_ l ∧ pendingFunctors_ (f l) = pendingFunctors_ l ∧ poller_ (f l) = poller_ l) →
  quiet (modify f).
Proof. intros Hf t q. apply keeps_modify. intros l (<- & <- & Hp). by destruct (Hf l) as (? & ? & ->). Qed.

Lemma quiet_assertInLoopThread tid : quiet (assertInLoopThread tid).
Proof. apply quiet_bind; [apply quiet_get|]. intros l. apply quiet_assert. Qed.
Lemma quiet_change_events mask tid a : quiet (change_events mask tid a).
Proof.
  apply quiet_bind; [by apply quiet_on_poller, keeps_modify_channel|]. intros _.
  apply quiet_bind; [by apply quiet_on_poller, keeps_modify_channel|]. intros _.
  apply quiet_bind; [apply quiet_assertInLoopThread|]. intros _. apply quiet_on_poller, keeps_updateChannel.
Qed.
Lemma quiet_Channel_remove tid a : quiet (Channel_remove tid a).
Proof.
  apply quiet_bind; [by apply quiet_on_poller, keeps_channel_at|]. intros c. apply quiet_bind; [apply quiet_assert|]. intros _.
  apply quiet_bind; [by apply quiet_on_poller, keeps_modify_channel|]. intros _.
  apply quiet_bind; [apply quiet_assertInLoopThread|]. intros _.
  apply quiet_bind; [apply quiet_get|]. intros l. apply quiet_bind; [apply quiet_when, quiet_assert|]. intros _.
  apply quiet_on_poller, keeps_removeChannel.
Qed.
End quiet.

#[export] Hint Resolve quiet_get quiet_assert quiet_assertInLoopThread quiet_change_events quiet_Channel_remove
  quiet_on_poller keeps_channel_at keeps_tie keeps_poll : keeps.
#[export] Hint Extern 1 (keeps (poller_calls _) (modify_channel _ _)) => by apply keeps_modify_channel : keeps.
#[export] Hint Extern 1 (quiet _ (modify _)) => by apply quiet_modify : keeps.
#[export] Hint Extern 1 (quiet _ _) =>
  progress unfold enableReading, disableReading, enableWriting, disableWriting, disableAll : keeps.

(** ** The frame of a connection *)

Section frame.
Context `{Epoll} {Q : Type} `{!ByteQueue Q}.
Context (ch tid other fd : Z) (cbs : Callbacks).
Context (I : World Q → Prop) (P : functor → Prop).
Implicit Types (w : World Q).

(** What [I] must keep: it does not look at the loop, the output buffer or the trace. *)
Record frame : Prop := {
  frame_loop l w : I w → I (set_loop_ l w);
  frame_output q w : I w → I (set_conn (set_output q (conn_ w)) w);
  frame_reading b w : I w → I (set_conn (set_reading b (conn_ w)) w);
  frame_event ev w : I w → I (set_log (log_event ev (log_ w)) w);
  frame_broken w : I w → I (set_log (log_broken (log_ w)) w);
  frame_freed w : I w → I (set_env (set_freed true (env_ w)) w);
  frame_establish w : I w → state_ (conn_ w) = KConnecting → I (set_conn (set_state KConnected (conn_ w)) w);
  frame_force w : I w → state_ (conn_ w) = KConnected ∨ state_ (conn_ w) = KDisconnecting →
    I (set_conn (set_state KDisconnecting (conn_ w)) w);
  frame_close w : I w → state_ (conn_ w) = KConnected ∨ state_ (conn_ w) = KDisconnecting →
    I (set_conn (set_state KDisconnected (conn_ w)) w);
  frame_write d : keeps I (sockets_write d);
  frame_read w readv r q :
    I w → readv = match reads_ (env_ w) with r :: _ => r | [] => λ _, RvError EWOULDBLOCK end →
    q_readFd readv (inputBuffer_ (conn_ w)) = Ok (r, q) →
    I (set_log (log_received (zdrop (zlen (q_bytes (inputBuffer_ (conn_ w)))) (q_bytes q)) (log_ w))
         (set_conn (set_input q (conn_ w)) (set_env (set_reads (tail (reads_ (env_ w))) (env_ w)) w)));
  frame_queue f : match f with FForceCloseInLoop | FWriteComplete | FHighWaterMark _ => True | _ => False end → P f
}.

(** The callbacks of channels. *)
Definition handler (f : option functor) : Prop :=
  match f with
  | None | Some (FHandleRead | FHandleWrite | FHandleClose | FHandleError) => True
  | _ => False
  end.

(** With the loop: everything queued satisfies [P]. *)
Definition framed w : Prop :=
  threadId_ (loop_ w) = tid ∧ poller_calls handler (poller_ (loop_ w)) ∧ Forall P (pendingFunctors_ (loop_ w)) ∧ I w.

Context (HI : frame).

Lemma keeps_on_loop {A} (m : prog (EventLoop functor) A) : quiet handler m → keeps framed (on_loop m).
Proof.
  intros Hm w (Ht & Hk & Hq & Hw). specialize (Hm _ _ (loop_ w) (conj eq_refl (conj eq_refl Hk))). unfold wpf, on_loop in *.
  cbn [loop_of world_loop] in *. destruct (m (loop_ w)) as [[a l]|]; [|done]. destruct Hm as (E1 & E2 & Hk').
  split_and!; cbn; [congruence|done|by rewrite E2|]. by apply (frame_loop HI).
Qed.
Lemma keeps_push t f : P f → keeps framed (on_loop (queueInLoop t f)).
Proof.
  intros Hf w (Ht & Hk & Hq & Hw). apply on_loop_spec, queueInLoop_spec. intros n _. split_and!; [done|done| |by apply (frame_loop HI)].
  cbn. apply Forall_app. split; [done|]. by apply Forall_singleton.
Qed.
Lemma keeps_frame {A} (m : prog (World Q) A) :
  keeps I m → (∀ w, wpf (λ _, True) m (λ _ w', loop_ w' = loop_ w) w) → keeps framed m.
Proof.
  intros Hm Hl w (Ht & Hk & Hq & Hw). eapply wp_mono; [apply wp_and; [by apply Hm|apply Hl]|]. cbv beta.
  intros _ w' [? El]. unfold framed. by rewrite El.
Qed.
Lemma keeps_log f : (∀ w, I w → I (set_log (f (log_ w)) w)) → keeps framed (log f).
Proof. intros Hf. apply keeps_frame; [|done]. by apply keeps_modify. Qed.
Lemma keeps_channel : keeps framed (channel_ ch).
Proof. apply keeps_on_loop. auto with keeps. Qed.
Lemma keeps_output {A} (m : prog Q A) : keeps framed (on_conn (on_output m)).
Proof.
  intros w (Ht & Hk & Hq & Hw). unfold wpf, on_conn, on_output. destruct (m _) as [[]|]; [|done].
  split_and!; [done|done|done|]. by apply (frame_output HI).
Qed.
Lemma keeps_sockets_write d : keeps framed (sockets_write d).
Proof.
  apply keeps_frame; [apply (frame_write HI)|]. intros w. unfold sockets_write, log. wp_go.
  destruct (match writes_ _ with [] => _ | a :: _ => a end); by wp_go.
Qed.
#[local] Hint Resolve keeps_on_loop keeps_push keeps_channel keeps_output keeps_sockets_write : keeps.
#[local] Hint Extern 1 (keeps framed get) => by intros ? : keeps.
#[local] Hint Extern 1 (P _) => apply (frame_queue HI); exact Logic.I : keeps.

(** *** Sending *)

Lemma keeps_send_directly message len : keeps framed (send_directly ch tid cbs message len).
Proof. unfold send_directly. keep. Qed.
Lemma keeps_send_buffered message nwrote remaining : keeps framed (send_buffered ch tid cbs message nwrote remaining).
Proof. unfold send_buffered. keep. Qed.

(** *** Changes of the state, after the check of the code *)

Lemma keeps_set_state st w (m : prog (World Q) ()) :
  framed w → (I w → I (set_conn (set_state st (conn_ w)) w)) → keeps framed m →
  wpf (λ _, True) (setState st ;; m) (λ _ w', framed w') w.
Proof.
  intros (Ht & Hk & Hq & Hw) Hst Hm. rewrite wp_bind. change (wpf (λ _, True) m (λ _ w', framed w') (set_conn (set_state st (conn_ w)) w)).
  apply Hm. split_and!; [done..|by apply Hst].
Qed.
Lemma wp_check {S A} b (m : prog S A) R s :
  (b = true → wpf (λ _, True) m R s) → wpf (λ _, True) (assert! b ;; m) R s.
Proof. intros Hm. rewrite wp_bind. destruct b; [by apply Hm|done]. Qed.

Lemma keeps_forceClose t : keeps framed (forceClose t).
Proof.
  apply keeps_get. intros w Hw. rewrite wp_when. case_bool_decide as Hst; [|done].
  apply keeps_set_state; [done| |keep]. intros Hi. by apply (frame_force HI).
Qed.
#[local] Hint Resolve keeps_send_directly keeps_send_buffered keeps_forceClose : keeps.

Lemma keeps_reading b : keeps framed (on_conn (modify (set_reading b))).
Proof. intros w (Ht & Hk & Hq & Hw). split_and!; [done..|]. by apply (frame_reading HI). Qed.
#[local] Hint Resolve keeps_reading : keeps.
Lemma keeps_stopReadInLoop : keeps framed (stopReadInLoop ch tid).
Proof. unfold stopReadInLoop. keep. Qed.
Lemma keeps_stopRead t : keeps framed (stopRead ch t).
Proof. unfold stopRead. keep. Qed.
Lemma keeps_startRead : keeps framed (startRead ch tid tid).
Proof.
  apply keeps_get. intros w Hw. unfold isInLoopThread. change (loop_of w) with (loop_ w). rewrite (proj1 Hw), Z.eqb_refl.
  by apply keeps_stopReadInLoop.
Qed.

(** [sendInLoop], when the invariant holds once the message is taken to be sent. *)
Lemma frame_sendInLoop message len w :
  framed (if bool_decide (state_ (conn_ w) = KDisconnected) then w
          else set_log (log_sent (ztake len message) (log_ w)) w) →
  wpf (λ _, True) (sendInLoop ch tid cbs message len) (λ _ w', framed w') w.
Proof.
  intros Hw. unfold sendInLoop. rewrite wp_bind. apply on_loop_spec. unfold assertInLoopThread. rewrite wp_bind, wp_get.
  cbv beta. unfold isInLoopThread. change (loop_of w) with (loop_ w).
  destruct (threadId_ (loop_ w) =? tid); [|done]. change (wpf _ (cassert true) ?R ?s) with (R tt s).
  cbv beta. change (set_loop (loop_ w) w) with (set_loop (loop_of w) w). rewrite set_loop_of. rewrite wp_bind, wp_get.
  cbv beta. destruct (bool_decide _); [done|]. rewrite wp_bind. unfold log at 1. rewrite wp_modify. revert Hw.
  match goal with |- framed ?w1 → wpf _ ?m _ _ => assert (Hm : keeps framed m); [|apply Hm] end.
  keep. apply keeps_log, (frame_broken HI).
Qed.

(** *** When anybody may send and retrieve *)

Section free.
(** Anybody may send and retrieve. *)
Record free_frame : Prop := {
  frame_sent d w : I w → I (set_log (log_sent d (log_ w)) w);
  frame_consumed k q w : I w → q_retrieve k (inputBuffer_ (conn_ w)) = Ok (tt, q) →
    I (set_conn (set_input q (conn_ w)) (set_log (log_consumed (ztake k (q_bytes (inputBuffer_ (conn_ w)))) (log_ w)) w));
  frame_send m : P (FSendInLoop m)
}.

(** The owner, and a thread that holds the connection, may do what they like. *)
Record owner_frame : Prop := {
  frame_in_map b w : I w → I (set_env (set_in_map b (env_ w)) w);
  frame_removals n w : I w → I (set_env (set_removals n (env_ w)) w);
  frame_holds b w : I w → I (set_env (set_holds b (env_ w)) w);
  frame_tasks : P FConnectEstablished ∧ P FConnectDestroyed
}.

Context (HF : free_frame).

Lemma keeps_sendInLoop message len : keeps framed (sendInLoop ch tid cbs message len).
Proof.
  intros w Hw. apply frame_sendInLoop. destruct Hw as (? & ? & ? & ?). case_bool_decide; split_and!; try done.
  by apply (frame_sent HF).
Qed.
#[local] Hint Resolve keeps_sendInLoop : keeps.
Lemma keeps_send t m : keeps framed (send ch tid cbs t m).
Proof. unfold send. keep. apply keeps_push, (frame_send HF). Qed.
Lemma keeps_call_user cb : keeps framed (call_user ch tid cbs cb).
Proof.
  unfold call_user. keep. apply keeps_for_each. intros [m| |n| |] _; cbn [run_call].
  - apply keeps_send.
  - by apply keeps_forceClose.
  - apply keeps_get. intros w (Ht & Hk & Hq & Hw). unfold log. wp_go. unfold wpf, on_conn, on_input. cbn.
    destruct (q_retrieve _ _) as [[[] q]|] eqn:Hr; [|done]. split_and!; [done..|]. by apply (frame_consumed HF).
  - by apply keeps_startRead.
  - by apply keeps_stopRead.
Qed.
Lemma keeps_other_send m : keeps framed (run_step ch tid other fd cbs (OtherSend m)).
Proof. apply keeps_get. intros w Hw. rewrite wp_when. destruct (can_call w); [|done]. by apply keeps_send. Qed.
End free.

(** What sending and the calls of users keep depends on the invariant. *)
Definition user_callbacks : list (option Callback) :=
  [connectionCallback_ cbs; messageCallback_ cbs; writeCompleteCallback_ cbs; highWaterMarkCallback_ cbs].
Context (Hsend : ∀ m, P (FSendInLoop m) → keeps framed (send ch tid cbs tid m)).
Context (Huser : ∀ cb, Some cb ∈ user_callbacks → keeps framed (call_user ch tid cbs cb)).
Context (Howner : ∀ o, TcpConnection.closeCallback_ cbs = Some o → keeps framed (closeCallback ch tid cbs o)).

Lemma keeps_user_if o : o ∈ user_callbacks → keeps framed (call_user_if ch tid cbs o).
Proof. destruct o as [cb|]; cbn [call_user_if]; [apply Huser|intros _; apply keeps_ret]. Qed.
Lemma keeps_user_always o : o ∈ user_callbacks → keeps framed (call_user_always ch tid cbs o).
Proof. destruct o as [cb|]; cbn [call_user_always]; [apply Huser|intros _; apply keeps_raise]. Qed.
Lemma keeps_event ev : keeps framed (log (log_event ev)).
Proof. apply keeps_log. apply (frame_event HI). Qed.
#[local] Hint Resolve keeps_user_if keeps_user_always keeps_event : keeps.
#[local] Hint Extern 1 (_ ∈ user_callbacks) => unfold user_callbacks; rewrite !elem_of_cons; tauto : keeps.

(** *** Handlers *)

Lemma keeps_connectEstablished : keeps framed (connectEstablished ch tid cbs).
Proof.
  apply keeps_bind; [auto with keeps|]. intros _. apply keeps_get. intros w Hw. apply wp_check.
  intros Hst%bool_decide_eq_true. apply keeps_set_state; [done| |keep]. intros Hi. by apply (frame_establish HI).
Qed.
Lemma keeps_connectDestroyed : keeps framed (connectDestroyed ch tid cbs).
Proof.
  apply keeps_bind; [auto with keeps|]. intros _. apply keeps_get. intros w Hw. rewrite wp_bind.
  eapply (wp_mono _ (λ _ w', framed w')); [|by intros; apply keeps_on_loop; auto with keeps].
  rewrite wp_when. case_bool_decide as Hst; [|done]. apply keeps_set_state; [done| |keep].
  intros Hi. apply (frame_close HI); [done|by left].
Qed.
Lemma keeps_handleClose : keeps framed (handleClose ch tid cbs).
Proof.
  apply keeps_bind; [auto with keeps|]. intros _. apply keeps_get. intros w Hw. apply wp_check.
  intros Hst%bool_decide_eq_true. apply keeps_set_state; [done|by intros; apply (frame_close HI)|].
  keep.
Qed.
#[local] Hint Resolve keeps_connectEstablished keeps_connectDestroyed keeps_handleClose : keeps.
Lemma keeps_forceCloseInLoop : keeps framed (forceCloseInLoop ch tid cbs).
Proof. unfold forceCloseInLoop. keep. Qed.
#[local] Hint Resolve keeps_forceCloseInLoop : keeps.

(** [handleWrite] after the write. *)
Lemma keeps_written n : keeps framed
  (when_ (0 <? n)
     (on_conn (on_output (q_retrieve n)) ;;
      w ← get;
      when_ (q_readable (outputBuffer_ (conn_ w)) =? 0)
        (on_loop (disableWriting tid ch) ;;
         when_ (is_set (writeCompleteCallback_ cbs)) (on_loop (queueInLoop tid FWriteComplete)) ;;
         w ← get;
         when_ (bool_decide (state_ (conn_ w) = KDisconnecting)) (forceCloseInLoop ch tid cbs)))).
Proof. keep. Qed.
Lemma keeps_handleWrite : keeps framed (handleWrite ch tid cbs).
Proof. unfold handleWrite. keep. Qed.
Lemma keeps_handleError : keeps framed (handleError ch).
Proof. unfold handleError. keep. Qed.
Lemma keeps_handleRead t : keeps framed (handleRead ch tid cbs t).
Proof.
  apply keeps_bind; [auto with keeps|]. intros _ w (Ht & Hk & Hq & Hw). unfold next_read, log. wp_go.
  cbn [conn_ set_env]. set (readv := match reads_ (env_ w) with r :: _ => r | [] => _ end).
  unfold wpf at 1, on_conn, on_input. cbn [conn_ set_env].
  destruct (q_readFd readv (inputBuffer_ (conn_ w))) as [[[n e] q]|f] eqn:Hr; [|done]. wp_go.
  pose proof (frame_read HI w readv (n, e) q Hw eq_refl Hr) as Hw1. cbn [conn_ set_conn set_input inputBuffer_].
  set (w1 := set_log _ _) in *. assert (Hf : framed w1) by by split_and!. clearbody w1.
  assert (Hk1 : ∀ m : prog (World Q) (), keeps framed m → wpf (λ _, True) m (λ _ w', framed w') w1) by (intros m Hm; by apply Hm).
  destruct (0 <? n); [|destruct (n =? 0)].
  - apply (Hk1 (log _ ;; _)). keep.
  - apply Hk1. auto with keeps.
  - apply Hk1, keeps_handleError.
Qed.
#[local] Hint Resolve keeps_stopReadInLoop keeps_handleWrite keeps_handleError keeps_handleRead : keeps.

(** *** Functors and iterations *)

Lemma keeps_exec f : (∀ m, f = FSendInLoop m → P f) → keeps framed (exec ch tid cbs f).
Proof.
  intros Hf. apply keeps_get. intros w Hw. destruct (freed_ (env_ w)); [done|].
  assert (Hk : ∀ m : prog (World Q) (), keeps framed m → wpf (λ _, True) m (λ _ w', framed w') w) by (intros m Hm; by apply Hm).
  destruct f; apply Hk; auto with keeps; [|cbn [startReadInLoop]|keep..].
  - by apply (Hsend message), (Hf message).
  - apply keeps_get. intros w' Hw'. unfold isInLoopThread. change (loop_of w') with (loop_ w').
    by rewrite (proj1 Hw'), Z.eqb_refl.
Qed.
Lemma keeps_handler f t : handler (Some f) → keeps framed (exec ch tid cbs f) ∧ keeps framed (exec_read ch tid cbs f t).
Proof.
  intros Hf. assert (He : keeps framed (exec ch tid cbs f)) by (apply keeps_exec; by destruct f).
  split; [done|]. destruct f; try done. apply keeps_handleRead.
Qed.

Lemma keeps_doPendingFunctors : keeps framed (doPendingFunctors (exec ch tid cbs)).
Proof.
  apply keeps_bind; [auto with keeps|]. intros _ w (Ht & Hk & Hq & Hw). rewrite wp_bind. apply on_loop_spec. wp_go.
  rewrite set_loop_of. apply on_loop_spec. wp_go. change (loop_of w) with (loop_ w).
  assert (Hrest : keeps framed (for_each (exec ch tid cbs) (pendingFunctors_ (loop_ w)) ;; on_loop (modify (set_callingPending false)))).
  { apply keeps_bind; [|intros _; auto with keeps]. apply keeps_for_each. intros f Hf. apply keeps_exec. intros m _.
    rewrite list.Forall_forall in Hq. by apply Hq. }
  specialize (Hrest (set_loop (set_pending [] (loop_ w)) w)). rewrite wp_bind in Hrest. apply Hrest.
  split_and!; [done..|]. by apply (frame_loop HI).
Qed.

#[local] Hint Resolve keeps_doPendingFunctors : keeps.

Lemma keeps_channel_of {A} a (k : Channel functor → prog (World Q) A) :
  (∀ c, channel_calls handler c → keeps framed (k c)) → keeps framed (on_loop (on_poller (channel_at a)) ≫= k).
Proof.
  intros Hk w Hw. pose proof Hw as (Ht & Hc & Hq & Hi). rewrite wp_bind. apply on_loop_spec, on_poller_spec.
  eapply wp_mono; [by apply calls_channel_at|]. cbv beta. intros c p [Hcc ->]. apply Hk; [done|].
  split_and!; [done..|]. by apply (frame_loop HI).
Qed.

Lemma keeps_call_if o : handler o → keeps framed (call_if (exec ch tid cbs) o).
Proof. destruct o as [f|]; cbn [call_if]; [intros Hf; by apply keeps_handler|intros _; apply keeps_ret]. Qed.

Lemma keeps_guard a t : keeps framed (handleEventWithGuard
  (λ ch, on_loop (on_poller (channel_at ch))) (λ ch b, on_loop (on_poller (modify_channel ch (Channel.set_eventHandling b))))
  (exec ch tid cbs) (exec_read ch tid cbs) a t).
Proof.
  apply keeps_bind; [auto with keeps|]. intros _.
  apply keeps_channel_of. intros c (_ & _ & Hc & _). apply keeps_bind; [by apply keeps_when, keeps_call_if|]. intros _.
  apply keeps_channel_of. clear c Hc. intros c (_ & _ & _ & Hc & _). apply keeps_bind; [by apply keeps_when, keeps_call_if|]. intros _.
  apply keeps_channel_of. clear c Hc. intros c (Hc & _). apply keeps_bind.
  { apply keeps_when. destruct (readCallback_ c) as [f|]; [by apply keeps_handler|apply keeps_ret]. }
  intros _. apply keeps_channel_of. clear c Hc. intros c (_ & Hc & _).
  apply keeps_bind; [by apply keeps_when, keeps_call_if|]. intros _. auto with keeps.
Qed.

Lemma keeps_handle_active alive a : keeps framed (handle_active alive (exec ch tid cbs) (exec_read ch tid cbs) a).
Proof.
  apply keeps_bind; [auto with keeps|]. intros _. apply keeps_get. intros w Hw.
  assert (Hh : ∀ t, keeps framed (handleEvent alive (λ ch, on_loop (on_poller (channel_at ch)))
    (λ ch b, on_loop (on_poller (modify_channel ch (Channel.set_eventHandling b)))) (exec ch tid cbs) (exec_read ch tid cbs) a t)).
  { intros t. apply keeps_channel_of. intros c _. apply keeps_get. intros w' Hw'.
    destruct (tied_ c); [|by apply keeps_guard]. rewrite wp_when. destruct (match tie_ c with Some _ => _ | None => _ end); [|done].
    by apply keeps_guard. }
  by apply Hh.
Qed.

Lemma keeps_poll_once r t : keeps framed (poll_once ch tid other fd cbs r t).
Proof.
  apply keeps_get. intros w Hw. revert Hw. apply keeps_bind; [auto with keeps|]. intros _.
  apply keeps_bind; [|intros _]. { apply keeps_on_loop. unfold arrivals. cbn [arrived quit_requested for_each when_]. by intros ??? l. }
  keep. apply keeps_for_each. intros x _. apply keeps_handle_active.
Qed.

Lemma keeps_release : keeps framed (release ch).
Proof.
  apply keeps_get. intros w Hw. rewrite wp_when. destruct (_ && _); [|done]. revert Hw.
  apply keeps_bind; [|intros _].
  - unfold TcpConnection_dtor. keep. apply keeps_on_loop, quiet_on_poller, keeps_modify. intros p Hp b c.
    cbn. rewrite lookup_delete_Some. intros [_ Hc]. by eapply Hp.
  - apply keeps_frame; [|done]. apply keeps_modify. apply (frame_freed HI).
Qed.

Lemma keeps_Poll r t : keeps framed (run_step ch tid other fd cbs (Poll r t)).
Proof.
  apply keeps_get. intros w Hw. revert Hw. apply keeps_bind; [apply keeps_poll_once|]. intros _. apply keeps_release.
Qed.
Lemma keeps_other_forceClose : keeps framed (run_step ch tid other fd cbs OtherForceClose).
Proof.
  apply keeps_get. intros w Hw. rewrite wp_when. destruct (can_call w); [|done]. by apply keeps_forceClose.
Qed.
Lemma keeps_other_drop :
  (∀ w, I w → I (set_env (set_holds false (env_ w)) w)) → keeps framed (run_step ch tid other fd cbs OtherDrop).
Proof.
  intros Hd. apply keeps_get. intros w Hw. rewrite wp_bind, wp_put. apply keeps_release.
  destruct Hw as (? & ? & ? & ?). split_and!; [done..|by apply Hd].
Qed.


(** *** What holds of every reachable state *)

Lemma keeps_run holds ws rs steps w :
  I (world_init ch tid fd holds ws rs) → P FConnectEstablished →
  (∀ s, s ∈ steps → keeps framed (run_step ch tid other fd cbs s)) →
  run ch tid other fd cbs steps (world_init ch tid fd holds ws rs) = Ok (tt, w) → framed w.
Proof.
  intros Hi HP Hsteps Hrun.
  assert (Hk : keeps framed (run ch tid other fd cbs steps)).
  { unfold run. apply keeps_bind; [|intros _; by apply keeps_for_each]. unfold establish, runInLoop.
    apply keeps_get. intros w' Hw'. destruct (isInLoopThread _ _); [by apply keeps_exec|by apply keeps_push]. }
  specialize (Hk (world_init ch tid fd holds ws rs)). unfold wpf in Hk. rewrite Hrun in Hk. apply Hk.
  split_and!; [done| |by apply Forall_nil|done]. intros a c Hc. cbn in Hc. apply lookup_singleton_Some in Hc as [_ <-]. by split_and!.
Qed.
End frame.

(** *** Steps that send nothing from another thread *)

Section owned.
Context `{Epoll} {Q : Type} `{!ByteQueue Q}.
Context (ch tid other fd : Z) (cbs : Callbacks).
Context (I : World Q → Prop) (P : functor → Prop) (HI : frame I P) (HO : owner_frame I P).

#[local] Abbreviation framed := (framed tid I P).

Context (Huser : ∀ cb, Some cb ∈ user_callbacks cbs → keeps framed (call_user ch tid cbs cb)).

Lemma keeps_env f :
  (∀ w, I w → I (set_env (f w) w)) → keeps framed (modify (λ w, set_env (f w) w)).
Proof. intros Hf. apply keeps_frame; [|done]. by apply keeps_modify. Qed.
Lemma keeps_removeConnectionInLoop t : keeps framed (removeConnectionInLoop t).
Proof.
  apply keeps_get. intros w Hw. apply wp_check. intros _. rewrite wp_bind, wp_put.
  apply keeps_push; [done|apply HO|]. destruct Hw as (? & ? & ? & ?). split_and!; [done..|by apply (frame_in_map _ _ HO)].
Qed.
Lemma keeps_closeCallback o : keeps framed (closeCallback ch tid cbs o).
Proof.
  destruct o; cbn [closeCallback].
  - apply keeps_removeConnectionInLoop.
  - apply keeps_env. intros w. apply (frame_removals _ _ HO).
  - apply keeps_bind; [apply keeps_on_loop; [done|auto with keeps]|]. intros _. apply keeps_bind; [|intros _].
    + apply keeps_env. intros w. apply (frame_in_map _ _ HO).
    + by apply keeps_connectDestroyed.
Qed.

Context (Hsend : ∀ m, P (FSendInLoop m) → keeps framed (send ch tid cbs tid m)).

Definition sends_nothing (s : step) : Prop := match s with OtherSend _ => False | _ => True end.

Lemma keeps_owned_step s : sends_nothing s → keeps framed (run_step ch tid other fd cbs s).
Proof.
  assert (Howner : ∀ o, TcpConnection.closeCallback_ cbs = Some o → keeps framed (closeCallback ch tid cbs o)).
  { intros o _. apply keeps_closeCallback. }
  destruct s as [m| | | |r t]; [done|intros _..].
  - by apply keeps_other_forceClose.
  - apply keeps_other_drop; [done|]. intros w. apply (frame_holds _ _ HO).
  - apply keeps_get. intros w Hw. rewrite wp_when. destruct (_ <? _); [|done]. rewrite wp_bind, wp_put.
    apply keeps_removeConnectionInLoop. destruct Hw as (? & ? & ? & ?). split_and!; [done..|by apply (frame_removals _ _ HO)].
  - by apply keeps_Poll.
Qed.

Lemma run_owned holds ws rs steps w :
  I (world_init ch tid fd holds ws rs) → Forall sends_nothing steps →
  run ch tid other fd cbs steps (world_init ch tid fd holds ws rs) = Ok (tt, w) → framed w.
Proof.
  intros Hi Hs. apply keeps_run; try done; [|by apply HO|].
  - intros o _. apply keeps_closeCallback.
  - intros s Hin. apply keeps_owned_step. rewrite list.Forall_forall in Hs. by apply Hs.
Qed.
End owned.

(** *** When everything is allowed *)

Section free.
Context `{Epoll} {Q : Type} `{!ByteQueue Q}.
Context (ch tid other fd : Z) (cbs : Callbacks).
Context (I : World Q → Prop) (P : functor → Prop) (HI : frame I P) (HO : owner_frame I P) (HF : free_frame I P).

#[local] Abbreviation framed := (framed tid I P).

Lemma keeps_user cb : Some cb ∈ user_callbacks cbs → keeps framed (call_user ch tid cbs cb).
Proof. intros _. by apply keeps_call_user. Qed.
Lemma keeps_any_send m : P (FSendInLoop m) → keeps framed (send ch tid cbs tid m).
Proof. intros _. by apply keeps_send. Qed.
Lemma keeps_any_owner o : TcpConnection.closeCallback_ cbs = Some o → keeps framed (closeCallback ch tid cbs o).
Proof. intros _. apply keeps_closeCallback; [done|done|apply keeps_user]. Qed.

(** Every step and every run keeps the invariant. *)
Lemma keeps_step s : keeps framed (run_step ch tid other fd cbs s).
Proof.
  destruct s as [m| | | |r t]; [by apply keeps_other_send|..].
  all: by apply keeps_owned_step; [done|done|apply keeps_user|apply keeps_any_send|].
Qed.
Lemma run_keeps holds ws rs steps w :
  I (world_init ch tid fd holds ws rs) →
  run ch tid other fd cbs steps (world_init ch tid fd holds ws rs) = Ok (tt, w) → framed w.
Proof.
  intros Hi. apply keeps_run; [done|apply keeps_any_send|apply keeps_user|apply keeps_any_owner|done|by apply HO|].
  intros s _. apply keeps_step.
Qed.
End free.

(** *** No invariant at all: the callbacks of the channels are the connection's *)

Abbreviation anything := (λ _ : functor, True).

Section any.
Context `{Epoll} {Q : Type} `{!ByteQueue Q}.

Lemma sockets_write_keeps (I : World Q → Prop) d :
  (∀ w ws, I w → ws = tail (writes_ (env_ w)) → I (set_env (set_writes ws (env_ w)) w)) →
  (∀ w n, I w → 0 ≤ n → I (set_log (log_wire (ztake n d) (log_ w)) w)) →
  keeps I (sockets_write d).
Proof.
  intros H1 H2 w Hw. unfold sockets_write, log. wp_go. specialize (H1 w _ Hw eq_refl).
  destruct (match writes_ _ with [] => _ | a :: _ => a end) as [n|e]; wp_go; [|done].
  apply H2; [done|]. pose proof (zlen_nonneg d). lia.
Qed.

Lemma any_frame : frame (λ _ : World Q, True) anything.
Proof. split; try done. intros d. by apply sockets_write_keeps. Qed.

Definition any (tid : Z) : World Q → Prop := framed tid (λ _, True) anything.

Lemma run_any ch tid other fd cbs holds ws rs steps w :
  run ch tid other fd cbs steps (world_init ch tid fd holds ws rs) = Ok (tt, w) → any tid w.
Proof. by apply (run_keeps ch tid other fd cbs _ _ any_frame). Qed.
End any.
