(* ===== verification/ConnLocality.v ===== *)
(** * ConnLocality: what a connection's steps look at

    Two loops that agree on a connection's channel, its descriptor's entry and its functors are the same to the
    connection, whatever other channels they have: every handler, functor and callback does the same in both,
    and leaves the other channels and functors of each alone. *)
From S2P Require Import Prelude Timestamp Buffer ByteQueue Channel EPollPoller EventLoop TcpConnection.

Section locality.
Context `{Epoll} {Q : Type} `{!ByteQueue Q}.
Context (ch tid fd : Z).
Implicit Types (w : World Q) (l : EventLoop functor) (p : EPollPoller functor).

(** ** Worlds that are the same to the connection *)

Record own_channel p (c : Channel functor) : Prop := {
  own_fd : fd_ c = fd;
  own_new : index_ c = kNew → channels_ p !! fd = None;
  own_registered : addedToLoop_ c = false → index_ c = kNew;
  own_tie : tie_ c = None ∨ tie_ c = Some ch
}.

(** The loops agree on the connection's channel, which is there until the connection is destroyed. *)
Definition same_channel (freed : bool) p1 p2 : Prop :=
  if freed then heap_ p1 !! ch = None ∧ heap_ p2 !! ch = None
  else channels_ p1 !! fd = channels_ p2 !! fd ∧
       ∃ c, heap_ p1 !! ch = Some c ∧ heap_ p2 !! ch = Some c ∧ own_channel p1 c.

Record alike w1 w2 : Prop := {
  alike_conn : conn_ w1 = conn_ w2;
  alike_env : env_ w1 = env_ w2;
  alike_log : log_ w1 = log_ w2;
  alike_thread : threadId_ (loop_ w1) = tid ∧ threadId_ (loop_ w2) = tid;
  alike_handling : EventLoop.eventHandling_ (loop_ w1) = EventLoop.eventHandling_ (loop_ w2);
  alike_time : EventLoop.eventHandling_ (loop_ w1) = true → pollReturnTime_ (loop_ w1) = pollReturnTime_ (loop_ w2);
  alike_pending : pendingFunctors_ (loop_ w1) = pendingFunctors_ (loop_ w2);
  alike_wf : poller_wf (poller_ (loop_ w1)) ∧ poller_wf (poller_ (loop_ w2));
  alike_channel : same_channel (freed_ (env_ w1)) (poller_ (loop_ w1)) (poller_ (loop_ w2))
}.

(** While the connection runs: inside its channel's handler, or outside of all handlers. *)
Record working w1 w2 : Prop := {
  working_alike : alike w1 w2;
  working_freed : freed_ (env_ w1) = false;
  working_current : EventLoop.eventHandling_ (loop_ w1) = true →
    currentActiveChannel_ (loop_ w1) = Some ch ∧ currentActiveChannel_ (loop_ w2) = Some ch
}.

(** What the kernel watches the descriptor for. *)
Lemma own_interest p c :
  poller_wf p → heap_ p !! ch = Some c → own_channel p c →
  interest (epollfd_ p) !! fd = if index_ c =? kAdded then Some (ch, events_ c) else None.
Proof.
  intros [W1 W2 W3 W4 W5] Hc [O1 O2 O3 O4]. destruct (Z.eqb_spec (index_ c) kAdded) as [Hi|Hi]; [apply W3; by exists c|].
  destruct (interest (epollfd_ p) !! fd) as [[a ev]|] eqn:Hin; [exfalso|done]. apply W3 in Hin as (d & Hd & Hfd & Ha & _).
  destruct (W2 _ _ Hd) as [Hn|[_ Hin]]; [by rewrite Ha in Hn|]. rewrite Hfd in Hin.
  destruct (W2 _ _ Hc) as [Hn|[_ Hin']]; [by rewrite O2 in Hin|]. rewrite O1 in Hin'. congruence.
Qed.

Lemma alike_interest w1 w2 :
  alike w1 w2 → freed_ (env_ w1) = false →
  interest (epollfd_ (poller_ (loop_ w1))) !! fd = interest (epollfd_ (poller_ (loop_ w2))) !! fd ∧
  ∀ a ev, interest (epollfd_ (poller_ (loop_ w2))) !! fd = Some (a, ev) → a = ch.
Proof.
  intros Ha Hf. pose proof (alike_channel _ _ Ha) as Hc. rewrite Hf in Hc. destruct Hc as (Ec & c & Hc1 & Hc2 & Hown).
  pose proof (alike_wf _ _ Ha) as [W1 W2]. rewrite (own_interest _ c W1 Hc1 Hown), (own_interest _ c W2 Hc2).
  - split; [done|]. intros a ev. destruct (_ =? _); [|done]. by intros [= <- _].
  - destruct Hown. constructor; try done. by rewrite <- Ec.
Qed.

(** What the connection leaves alone: the other channels, what is queued, and the rest of the loop. *)
Record beside w w' : Prop := {
  beside_loop : ∃ p n q, loop_ w' = set_wakeups n (set_pending (pendingFunctors_ (loop_ w) ++ q) (set_poller p (loop_ w)));
  beside_heap a : a ≠ ch → heap_ (poller_ (loop_ w')) !! a = heap_ (poller_ (loop_ w)) !! a;
  beside_channels f : f ≠ fd → channels_ (poller_ (loop_ w')) !! f = channels_ (poller_ (loop_ w)) !! f;
  beside_freed : freed_ (env_ w) = true → poller_ (loop_ w') = poller_ (loop_ w) ∧ freed_ (env_ w') = true
}.

#[export] Instance beside_preorder : PreOrder beside.
Proof.
  split.
  - intros w. constructor; try done. exists (poller_ (loop_ w)), (wakeups_ (loop_ w)), []. rewrite app_nil_r. by destruct (loop_ w).
  - intros w1 w2 w3 [(p1 & n1 & q1 & E1) H1 C1 F1] [(p2 & n2 & q2 & E2) H2 C2 F2]. constructor.
    + exists p2, n2, (q1 ++ q2). rewrite E2, E1. cbn. by rewrite app_assoc.
    + intros a Ha. by rewrite H2, H1.
    + intros f Hf. by rewrite C2, C1.
    + intros Hf. destruct (F1 Hf) as [Ep Hf']. destruct (F2 Hf') as [Ep' ?]. split; [congruence|done].
Qed.

(** Only the loop matters, and of it only the poller and the functors. *)
Lemma beside_intro w w' p n q :
  freed_ (env_ w) = false →
  loop_ w' = set_wakeups n (set_pending (pendingFunctors_ (loop_ w) ++ q) (set_poller p (loop_ w))) →
  (∀ a, a ≠ ch → heap_ p !! a = heap_ (poller_ (loop_ w)) !! a) →
  (∀ f, f ≠ fd → channels_ p !! f = channels_ (poller_ (loop_ w)) !! f) → beside w w'.
Proof. intros Hf E H1 H2. constructor; [by exists p, n, q|by rewrite E|by rewrite E|by rewrite Hf]. Qed.

(** ** Programs that do the same in both *)

Definition agreed {A} (P : World Q → World Q → Prop) (o1 o2 : outcome (A * World Q)) w1 w2 : Prop :=
  match o1, o2 with
  | Ok (a1, w1'), Ok (a2, w2') => a1 = a2 ∧ P w1' w2' ∧ beside w1 w1' ∧ beside w2 w2'
  | Fault f1, Fault f2 => f1 = f2
  | _, _ => False
  end.

Definition agree {A} (m1 m2 : prog (World Q) A) w1 w2 : Prop := agreed working (m1 w1) (m2 w2) w1 w2.
Definition local {A} (m : prog (World Q) A) : Prop := ∀ w1 w2, working w1 w2 → agree m m w1 w2.

Lemma agreed_after {A} P (o1 o2 : outcome (A * World Q)) w1 w2 w1' w2' :
  beside w1 w1' → beside w2 w2' → agreed P o1 o2 w1' w2' → agreed P o1 o2 w1 w2.
Proof.
  unfold agreed. intros H1 H2. destruct o1 as [[a1 v1]|], o2 as [[a2 v2]|]; try done.
  intros (-> & HP & B1 & B2). split_and!; [done|done|by etrans|by etrans].
Qed.

Lemma agree_bind {A B} (m1 m2 : prog (World Q) A) (k1 k2 : A → prog (World Q) B) w1 w2 :
  agree m1 m2 w1 w2 →
  (∀ a w1' w2', working w1' w2' → agree (k1 a) (k2 a) w1' w2') → agree (m1 ≫= k1) (m2 ≫= k2) w1 w2.
Proof.
  unfold agree. unfold mbind, prog_bind. intros Hm Hk. destruct (m1 w1) as [[a1 v1]|], (m2 w2) as [[a2 v2]|]; try done.
  destruct Hm as (-> & Hw & B1 & B2). eapply agreed_after; [done|done|by apply Hk].
Qed.

Lemma local_ret {A} (a : A) : local (mret a).
Proof. by intros w1 w2 Hw. Qed.
Lemma local_raise {A} f : local (raise f : prog (World Q) A).
Proof. by intros w1 w2 _. Qed.
Lemma local_assert b : local (cassert b).
Proof. destruct b; [apply local_ret|apply local_raise]. Qed.
Lemma local_lift {A} (o : outcome A) : local (lift o).
Proof. destruct o; [apply local_ret|apply local_raise]. Qed.
Lemma local_bind {A B} (m : prog (World Q) A) (k : A → prog (World Q) B) :
  local m → (∀ a, local (k a)) → local (m ≫= k).
Proof. intros Hm Hk w1 w2 Hw. apply agree_bind; [by apply Hm|]. intros a w1' w2' Hw'. by apply Hk. Qed.
Lemma local_when b m : local m → local (when_ b m).
Proof. intros Hm. destruct b; [done|apply local_ret]. Qed.
Lemma local_for_each {A} (f : A → prog (World Q) ()) xs : (∀ a, a ∈ xs → local (f a)) → local (for_each f xs).
Proof.
  induction xs as [|a xs IH]; intros Hf; cbn [for_each]; [apply local_ret|].
  apply local_bind; [apply Hf; by left|]. intros _. apply IH. intros b Hb. apply Hf. by right.
Qed.

(** Reading the world: what is done with it must only depend on the connection's part. *)
Lemma local_get {A} (k : World Q → prog (World Q) A) :
  (∀ w1 w2, working w1 w2 → agree (k w1) (k w2) w1 w2) → local (get ≫= k).
Proof. intros Hk w1 w2 Hw. by apply Hk. Qed.

Lemma local_gets {A B} (f : World Q → A) (k : A → prog (World Q) B) :
  (∀ w1 w2, working w1 w2 → agree (k (f w1)) (k (f w2)) w1 w2) → local (gets f ≫= k).
Proof. intros Hk w1 w2 Hw. by apply Hk. Qed.

(** The connection, its surroundings and its log. *)
Lemma working_members w1 w2 c e g :
  working w1 w2 → freed_ e = false →
  working (mkWorld (loop_ w1) c e g) (mkWorld (loop_ w2) c e g).
Proof. intros [[] Hf Hc] He. constructor; [|done|done]. constructor; try done. cbn. by rewrite He, <- Hf. Qed.
Lemma beside_members w c e g : freed_ (env_ w) = false → beside w (mkWorld (loop_ w) c e g).
Proof.
  intros Hf. eapply (beside_intro _ _ (poller_ (loop_ w)) (wakeups_ (loop_ w)) []); [done| |done|done].
  cbn. rewrite app_nil_r. by destruct (loop_ w).
Qed.

(** A program that does not look at the loop. *)
Lemma local_members {A} (m : prog (World Q) A) :
  (∀ l1 l2 c e g, freed_ e = false →
     match m (mkWorld l1 c e g), m (mkWorld l2 c e g) with
     | Ok (a1, w1), Ok (a2, w2) =>
         a1 = a2 ∧ freed_ (env_ w1) = false ∧ ∃ c' e' g', w1 = mkWorld l1 c' e' g' ∧ w2 = mkWorld l2 c' e' g'
     | Fault f1, Fault f2 => f1 = f2
     | _, _ => False
     end) → local m.
Proof.
  intros Hm [l1 c1 e1 g1] [l2 c2 e2 g2] Hw. pose proof Hw as [Ha Hf _]. pose proof (alike_conn _ _ Ha) as E1.
  pose proof (alike_env _ _ Ha) as E2. pose proof (alike_log _ _ Ha) as E3. cbn in E1, E2, E3. subst c2 e2 g2.
  specialize (Hm l1 l2 c1 e1 g1 Hf). unfold agree, agreed.
  destruct (m (mkWorld l1 c1 e1 g1)) as [[a1 w1]|], (m (mkWorld l2 c1 e1 g1)) as [[a2 w2]|]; try done.
  destruct Hm as (-> & Hf' & c' & e' & g' & -> & ->). split_and!; [done|..].
  - by apply (working_members (mkWorld l1 c1 e1 g1) (mkWorld l2 c1 e1 g1)).
  - by apply (beside_members (mkWorld l1 c1 e1 g1)).
  - by apply (beside_members (mkWorld l2 c1 e1 g1)).
Qed.

Lemma local_on_conn {A} (m : prog (TcpConnection Q) A) : local (on_conn m).
Proof.
  apply local_members. intros l1 l2 c e g He. unfold on_conn. cbn. destruct (m c) as [[a c']|]; [|done].
  split_and!; [done|done|]. by exists c', e, g.
Qed.
Lemma local_log f : local (log f).
Proof. apply local_members. intros l1 l2 c e g He. split_and!; [done|done|]. by eexists _, _, _. Qed.
Lemma local_put_env (f : Outside → Outside) : (∀ e, freed_ (f e) = freed_ e) → local (modify (λ w, set_env (f (env_ w)) w)).
Proof.
  intros Hf. apply local_members. intros l1 l2 c e g He. split_and!; [done|cbn; by rewrite Hf|]. by eexists _, _, _.
Qed.
Lemma local_sockets_write d : local (sockets_write d).
Proof.
  apply local_members. intros l1 l2 c e g He. unfold sockets_write. unfold mbind, prog_bind. cbn.
  destruct (writes_ e) as [|[n|n] ws]; cbn; (split_and!; [done|done|]); by eexists _, _, _.
Qed.
Lemma local_next_read : local next_read.
Proof.
  apply local_members. intros l1 l2 c e g He. split_and!; [done|done|]. by eexists _, _, _.
Qed.

(** ** The operations of the loop *)

(** Both loops have the same new channel of the connection, in pollers that changed nowhere else. *)
Lemma agree_channel {A} (a : A) p1 p2 c c' w1 w2 :
  working w1 w2 →
  heap_ (poller_ (loop_ w1)) !! ch = Some c →
  poller_wf p1 → poller_wf p2 →
  heap_ p1 = <[ch := c']> (heap_ (poller_ (loop_ w1))) → heap_ p2 = <[ch := c']> (heap_ (poller_ (loop_ w2))) →
  channels_ p1 !! fd = channels_ p2 !! fd →
  (∀ f, f ≠ fd → channels_ p1 !! f = channels_ (poller_ (loop_ w1)) !! f) →
  (∀ f, f ≠ fd → channels_ p2 !! f = channels_ (poller_ (loop_ w2)) !! f) →
  own_channel p1 c' →
  agreed working (Ok (a, set_loop_ (set_poller p1 (loop_ w1)) w1)) (Ok (a, set_loop_ (set_poller p2 (loop_ w2)) w2)) w1 w2.
Proof.
  intros [Ha Hf Hcur] Hc Hwf1 Hwf2 E1 E2 Ech C1 C2 Hown. pose proof (alike_env _ _ Ha) as Ee. split_and!; [done|..].
  - constructor; [|done|done]. destruct Ha. constructor; try done. cbn. rewrite Hf. split; [done|].
    exists c'. by rewrite E1, E2, !lookup_insert_eq.
  - eapply (beside_intro _ _ p1 (wakeups_ (loop_ w1)) []); [done| |intros b Hb; by rewrite E1, lookup_insert_ne|done].
    cbn. rewrite app_nil_r. by destruct (loop_ w1).
  - eapply (beside_intro _ _ p2 (wakeups_ (loop_ w2)) []); [congruence| |intros b Hb; by rewrite E2, lookup_insert_ne|done].
    cbn. rewrite app_nil_r. by destruct (loop_ w2).
Qed.

Lemma working_channel w1 w2 :
  working w1 w2 →
  ∃ c, heap_ (poller_ (loop_ w1)) !! ch = Some c ∧ heap_ (poller_ (loop_ w2)) !! ch = Some c ∧
       own_channel (poller_ (loop_ w1)) c ∧ channels_ (poller_ (loop_ w1)) !! fd = channels_ (poller_ (loop_ w2)) !! fd.
Proof. intros [Ha Hf _]. pose proof (alike_channel _ _ Ha) as Hc. rewrite Hf in Hc. destruct Hc as (? & c & ? & ? & ?). by exists c. Qed.

(** An operation of the loop that changes only its poller. *)
Lemma local_on_loop {A} (m : prog (EventLoop functor) A) :
  (∀ w1 w2 c, working w1 w2 → heap_ (poller_ (loop_ w1)) !! ch = Some c → heap_ (poller_ (loop_ w2)) !! ch = Some c →
     own_channel (poller_ (loop_ w1)) c → channels_ (poller_ (loop_ w1)) !! fd = channels_ (poller_ (loop_ w2)) !! fd →
     agree (on_loop m) (on_loop m) w1 w2) → local (on_loop m).
Proof. intros Hm w1 w2 Hw. destruct (working_channel _ _ Hw) as (c & ? & ? & ? & ?). by eapply Hm. Qed.

Lemma agree_ok {A} (m1 m2 : prog (World Q) A) a1 a2 w1 w2 w1' w2' :
  m1 w1 = Ok (a1, w1') → m2 w2 = Ok (a2, w2') → agreed working (Ok (a1, w1')) (Ok (a2, w2')) w1 w2 → agree m1 m2 w1 w2.
Proof. unfold agree. by intros -> ->. Qed.
Lemma agree_fault {A} (m1 m2 : prog (World Q) A) f w1 w2 : m1 w1 = Fault f → m2 w2 = Fault f → agree m1 m2 w1 w2.
Proof. unfold agree. by intros -> ->. Qed.

Lemma on_loop_run {A} (m : prog (EventLoop functor) A) (R : A → EventLoop functor → Prop) w :
  wp m R (loop_ w) → ∃ a l, on_loop m w = Ok (a, set_loop_ l w) ∧ R a l.
Proof. intros Hm. destruct (wp_inv Hm) as (a & l & Hrun & HR). exists a, l. unfold on_loop. cbn. by rewrite Hrun. Qed.
Lemma on_loop_faults {A} (m : prog (EventLoop functor) A) f w :
  wpf (λ f', f' = f) m (λ _ _, False) (loop_ w) → on_loop m w = Fault f.
Proof. intros Hm%wp_faults. unfold on_loop. cbn. by rewrite Hm. Qed.

Lemma local_assertInLoopThread t : local (on_loop (assertInLoopThread t)).
Proof.
  intros w1 w2 Hw. pose proof (alike_thread _ _ (working_alike _ _ Hw)) as [E1 E2].
  assert (Hrun : ∀ w, threadId_ (loop_ w) = tid →
    on_loop (assertInLoopThread t) w = if tid =? t then Ok (tt, w) else Fault AssertFailed).
  { intros w Ht. unfold on_loop, assertInLoopThread, isInLoopThread. unfold mbind, prog_bind. cbn. rewrite Ht.
    destruct (tid =? t); [|done]. cbn. by destruct w. }
  unfold agree. rewrite (Hrun _ E1), (Hrun _ E2). by destruct (tid =? t).
Qed.

Lemma local_queueInLoop t f : local (on_loop (queueInLoop t f)).
Proof.
  intros w1 w2 Hw. pose proof Hw as [Ha Hf Hcur].
  assert (Hq : ∀ w, ∃ n, on_loop (queueInLoop t f) w =
    Ok (tt, set_loop_ (set_wakeups n (set_pending (pendingFunctors_ (loop_ w) ++ [f]) (loop_ w))) w)).
  { intros w. destruct (on_loop_run (queueInLoop t f)
      (λ _ l, ∃ n, l = set_wakeups n (set_pending (pendingFunctors_ (loop_ w) ++ [f]) (loop_ w))) w) as ([] & l & Hrun & n & ->).
    - apply queueInLoop_spec. intros n _. by exists n.
    - by exists n. }
  destruct (Hq w1) as [n1 E1], (Hq w2) as [n2 E2]. eapply agree_ok; [exact E1|exact E2|].
  pose proof (alike_env _ _ Ha) as Ee. split_and!; [done|..].
  - constructor; [|done|done]. destruct Ha. constructor; try done. cbn. by rewrite alike_pending0.
  - by eapply (beside_intro _ _ (poller_ (loop_ w1)) n1 [f]).
  - by eapply (beside_intro _ _ (poller_ (loop_ w2)) n2 [f]); [congruence|..].
Qed.

Lemma local_channel : local (channel_ ch).
Proof.
  apply local_on_loop. intros w1 w2 c Hw Hc1 Hc2 _ _.
  assert (Hrun : ∀ w, heap_ (poller_ (loop_ w)) !! ch = Some c → channel_ ch w = Ok (c, w)).
  { intros w Hc. unfold channel_, on_loop, on_poller, channel_at. unfold mbind, prog_bind. cbn. rewrite Hc. cbn. by destruct w as [[]]. }
  eapply agree_ok; [by apply Hrun|by apply Hrun|]. by split_and!.
Qed.

(** A change of the channel that the poller does not look at. *)
Lemma local_modify_channel (f : Channel functor → Channel functor) :
  (∀ c, fd_ (f c) = fd_ c ∧ index_ (f c) = index_ c ∧ events_ (f c) = events_ c ∧ addedToLoop_ (f c) = addedToLoop_ c ∧
     (tie_ (f c) = tie_ c ∨ tie_ (f c) = Some ch)) →
  local (on_loop (on_poller (modify_channel ch f))).
Proof.
  intros Hf. apply local_on_loop. intros w1 w2 c Hw Hc1 Hc2 Hown Hch. destruct (Hf c) as (F1 & F2 & F3 & F4 & F5).
  assert (Hrun : ∀ w, heap_ (poller_ (loop_ w)) !! ch = Some c →
    on_loop (on_poller (modify_channel ch f)) w =
      Ok (tt, set_loop_ (set_poller (set_heap (<[ch := f c]> (heap_ (poller_ (loop_ w)))) (poller_ (loop_ w))) (loop_ w)) w)).
  { intros w Hc. unfold on_loop, on_poller, modify_channel, channel_at. unfold mbind, prog_bind. cbn. by rewrite Hc. }
  pose proof (alike_wf _ _ (working_alike _ _ Hw)) as [W1 W2].
  eapply agree_ok; [by apply Hrun|by apply Hrun|]. eapply agree_channel; try done; [by eapply poller_wf_touch..|].
  destruct Hown as [O1 O2 O3 O4]. constructor; cbn; [congruence|by rewrite F2|by rewrite F4, F2|].
  destruct F5 as [->|?]; [done|by right].
Qed.

Lemma next_index_registered i ev : next_index i ev ≠ kNew.
Proof. unfold next_index. by destruct (_ || _), (ev =? kNoneEvent). Qed.

Lemma local_change_events mask : local (on_loop (change_events mask tid ch)).
Proof.
  apply local_on_loop. intros w1 w2 c Hw Hc1 Hc2 Hown Hch. pose proof (working_alike _ _ Hw) as Ha.
  pose proof (alike_wf _ _ Ha) as [W1 W2]. pose proof (alike_thread _ _ Ha) as [T1 T2]. destruct Hown as [O1 O2 O3 O4].
  destruct (on_loop_run _ _ _ (change_events_spec (E := λ _, False) mask tid ch c (loop_ w1) W1 T1 Hc1 ltac:(by rewrite O1)))
    as ([] & l1 & R1 & p1 & -> & V1 & H1 & C1 & _).
  destruct (on_loop_run _ _ _ (change_events_spec (E := λ _, False) mask tid ch c (loop_ w2) W2 T2 Hc2 ltac:(by rewrite O1, <- Hch)))
    as ([] & l2 & R2 & p2 & -> & V2 & H2 & C2 & _).
  rewrite O1 in C1, C2.
  eapply agree_ok; [exact R1|exact R2|]. eapply agree_channel; try done.
  - by rewrite C1, C2, !lookup_insert_eq.
  - intros f Hf. by rewrite C1, lookup_insert_ne.
  - intros f Hf. by rewrite C2, lookup_insert_ne.
  - constructor; [done|by intros Hn%next_index_registered|done|done].
Qed.

Lemma local_Channel_remove : local (on_loop (Channel_remove tid ch)).
Proof.
  apply local_on_loop. intros w1 w2 c Hw Hc1 Hc2 Hown Hch. pose proof Hw as [Ha Hfr Hcur].
  pose proof (alike_wf _ _ Ha) as [W1 W2]. pose proof (alike_thread _ _ Ha) as [T1 T2]. destruct Hown as [O1 O2 O3 O4].
  pose proof (alike_handling _ _ Ha) as Eh.
  destruct (decide (events_ c = kNoneEvent)) as [Hev|Hev].
  2:{ assert (Hfail : ∀ w, heap_ (poller_ (loop_ w)) !! ch = Some c → on_loop (Channel_remove tid ch) w = Fault AssertFailed).
      { intros w Hc. apply on_loop_faults. unfold Channel_remove. rewrite wp_bind. apply on_poller_spec.
        eapply channel_at_spec; [done|]. rewrite wp_bind. unfold isNoneEvent. by rewrite (proj2 (Z.eqb_neq _ _)). }
      eapply agree_fault; by apply Hfail. }
  destruct (decide (index_ c = kNew)) as [Hi|Hi].
  - assert (Hfail : ∀ w, heap_ (poller_ (loop_ w)) !! ch = Some c → channels_ (poller_ (loop_ w)) !! fd = None →
      threadId_ (loop_ w) = tid → on_loop (Channel_remove tid ch) w = Fault AssertFailed).
    { intros w Hc Hn Ht. apply on_loop_faults. unfold Channel_remove, removeChannel. rewrite wp_bind. apply on_poller_spec.
      eapply channel_at_spec; [done|]. rewrite wp_bind. apply wp_assert; [unfold isNoneEvent; by rewrite Hev|].
      rewrite wp_bind. apply on_poller_spec. eapply modify_channel_spec; [done|]. rewrite wp_bind.
      apply assertInLoopThread_spec; [done|]. rewrite wp_bind, wp_get, wp_bind.
      assert (Hrest : ∀ l, heap_ (poller_ l) !! ch = Some (set_addedToLoop false c) → channels_ (poller_ l) !! fd = None →
        wpf (λ f', f' = AssertFailed) (on_poller (EPollPoller.removeChannel ch)) (λ _ _, False) l).
      { intros l Hl Hnl. apply on_poller_spec. unfold EPollPoller.removeChannel. rewrite wp_bind.
        eapply channel_at_spec; [exact Hl|]. rewrite wp_bind, wp_get, wp_bind. cbn. rewrite O1, Hnl. done. }
      rewrite wp_when. cbn. case_match.
      - unfold cassert. case_match; [|done]. apply Hrest; [apply lookup_insert_eq|done].
      - apply Hrest; [apply lookup_insert_eq|done]. }
    eapply agree_fault; apply Hfail; try done; [by apply O2|by rewrite <- Hch; apply O2].
  - assert (Hspec : ∀ w, poller_wf (poller_ (loop_ w)) → threadId_ (loop_ w) = tid → heap_ (poller_ (loop_ w)) !! ch = Some c →
      (EventLoop.eventHandling_ (loop_ w) = true → currentActiveChannel_ (loop_ w) = Some ch) →
      ∃ p', on_loop (Channel_remove tid ch) w = Ok (tt, set_loop_ (set_poller p' (loop_ w)) w) ∧ poller_wf p' ∧
        heap_ p' = <[ch := set_index kNew (set_addedToLoop false c)]> (heap_ (poller_ (loop_ w))) ∧
        channels_ p' = delete fd (channels_ (poller_ (loop_ w)))).
    { intros w W T Hc Hcw. destruct (on_loop_run _ _ _ (Channel_remove_spec (E := λ _, False) tid ch c (loop_ w) W T Hc Hev Hi ltac:(auto)))
        as ([] & l' & R & p' & -> & V & Hh & C & _). exists p'. by rewrite <- O1. }
    destruct (Hspec w1) as (p1 & R1 & V1 & H1 & C1); [done..|by intros [? ?]%Hcur|].
    destruct (Hspec w2) as (p2 & R2 & V2 & H2 & C2); [done..|by rewrite <- Eh; intros [? ?]%Hcur|].
    eapply agree_ok; [exact R1|exact R2|]. eapply agree_channel; try done.
    + by rewrite C1, C2, !lookup_delete_eq.
    + intros f Hf. by rewrite C1, lookup_delete_ne.
    + intros f Hf. by rewrite C2, lookup_delete_ne.
    + constructor; cbn; [done| |done|done]. intros _. by rewrite C1, lookup_delete_eq.
Qed.

(** ** Everything a connection does *)

Lemma working_conn w1 w2 : working w1 w2 → conn_ w1 = conn_ w2.
Proof. intros [[] _ _]. done. Qed.
Lemma working_env w1 w2 : working w1 w2 → env_ w1 = env_ w2.
Proof. intros [[] _ _]. done. Qed.
Lemma working_log w1 w2 : working w1 w2 → log_ w1 = log_ w2.
Proof. intros [[] _ _]. done. Qed.
Lemma working_thread w1 w2 t : working w1 w2 → isInLoopThread t (loop_ w1) = isInLoopThread t (loop_ w2).
Proof. intros [[] _ _]. unfold isInLoopThread. by destruct alike_thread0 as [-> ->]. Qed.

Lemma local_at {A} (m : prog (World Q) A) w1 w2 : local m → working w1 w2 → agree m m w1 w2.
Proof. intros Hm. apply Hm. Qed.

Create HintDb local.
#[local] Hint Resolve local_ret local_raise local_assert local_lift local_on_conn local_log local_sockets_write local_next_read
  local_assertInLoopThread local_queueInLoop local_channel local_change_events local_Channel_remove : local.
#[local] Hint Extern 1 (local _) => progress unfold enableReading, disableReading, enableWriting, disableWriting, disableAll, setState : local.

(** Take a program apart; after [get], what is done only depends on the connection's part. *)
Ltac local_same w1 w2 Hw :=
  cbv beta; change (@loop_of functor _ (World Q) _ w1) with (loop_ w1); change (@loop_of functor _ (World Q) _ w2) with (loop_ w2);
  rewrite ?(working_conn _ _ Hw), ?(working_env _ _ Hw), ?(working_log _ _ Hw);
  try match goal with |- context [isInLoopThread ?t (loop_ w1)] => rewrite (working_thread _ _ t Hw) end;
  apply local_at; [|exact Hw].
Ltac local_read := let w1 := fresh "w" in let w2 := fresh "w" in let Hw := fresh "Hw" in
  apply local_get; intros w1 w2 Hw; local_same w1 w2 Hw.
Ltac local_reads := let w1 := fresh "w" in let w2 := fresh "w" in let Hw := fresh "Hw" in
  apply local_gets; intros w1 w2 Hw; local_same w1 w2 Hw.
Ltac local_step :=
  first
    [ solve [auto with local]
    | match goal with
      | |- local (get ≫= _) => local_read
      | |- local (gets _ ≫= _) => local_reads
      | |- local (when_ _ _) => apply local_when
      | |- local (_ ≫= _) => apply local_bind; [|intros ?]
      | |- local (if ?b then _ else _) => destruct b
      | |- local (match ?x with _ => _ end) => destruct x
      end ].
Ltac locals := repeat local_step.

Context (cbs : Callbacks).

Lemma local_sendInLoop message len : local (sendInLoop ch tid cbs message len).
Proof. unfold sendInLoop, send_directly, send_buffered. locals. Qed.
#[local] Hint Resolve local_sendInLoop : local.

Lemma local_send t message : local (send ch tid cbs t message).
Proof. unfold send, runInLoop. locals. Qed.
Lemma local_forceClose t : local (forceClose t).
Proof. unfold forceClose. locals. Qed.
Lemma local_stopReadInLoop : local (stopReadInLoop ch tid).
Proof. unfold stopReadInLoop. locals. Qed.
#[local] Hint Resolve local_send local_forceClose local_stopReadInLoop : local.
Lemma local_startRead t : local (startRead ch tid t).
Proof. unfold startRead, runInLoop. locals. Qed.
Lemma local_stopRead : local (stopRead ch tid).
Proof. unfold stopRead. locals. Qed.
Lemma local_startReadInLoop fuel t : local (startReadInLoop fuel t).
Proof. induction fuel as [|fuel IH]; cbn [startReadInLoop]; [apply local_raise|]. unfold runInLoop. locals. Qed.
#[local] Hint Resolve local_startRead local_stopRead local_startReadInLoop : local.

Lemma local_call_user cb : local (call_user ch tid cbs cb).
Proof.
  unfold call_user. locals. apply local_for_each. intros [m| |n| |] _; cbn [run_call]; locals.
Qed.
#[local] Hint Resolve local_call_user : local.
Lemma local_call_user_if cb : local (call_user_if ch tid cbs cb).
Proof. unfold call_user_if. locals. Qed.
Lemma local_call_user_always cb : local (call_user_always ch tid cbs cb).
Proof. unfold call_user_always. locals. Qed.
#[local] Hint Resolve local_call_user_if local_call_user_always : local.

Lemma local_connectEstablished : local (connectEstablished ch tid cbs).
Proof. unfold connectEstablished. locals. apply local_modify_channel. intros c. split_and!; auto. Qed.
Lemma local_connectDestroyed : local (connectDestroyed ch tid cbs).
Proof. unfold connectDestroyed. locals. Qed.
#[local] Hint Resolve local_connectEstablished local_connectDestroyed : local.

(** A change of the surroundings after they were looked at. *)
Lemma agree_put_env {A} (f : Outside → Outside) (m1 m2 : prog (World Q) A) w1 w2 :
  (∀ e, freed_ (f e) = freed_ e) → (∀ w1 w2, working w1 w2 → agree m1 m2 w1 w2) → working w1 w2 →
  agree (put (set_env (f (env_ w1)) w1) ;; m1) (put (set_env (f (env_ w2)) w2) ;; m2) w1 w2.
Proof.
  intros Hf Hm Hw. rewrite <- (working_env _ _ Hw). pose proof (working_freed _ _ Hw) as Hfr.
  assert (Hfr' : freed_ (env_ w2) = false) by (by rewrite <- (working_env _ _ Hw)).
  assert (Hw' : working (set_env (f (env_ w1)) w1) (set_env (f (env_ w1)) w2)).
  { unfold set_env. rewrite <- (working_conn _ _ Hw), <- (working_log _ _ Hw).
    apply working_members; [done|by rewrite Hf]. }
  eapply agreed_after; [by apply beside_members|by apply beside_members|by apply Hm].
Qed.

Lemma local_removeConnectionInLoop t : local (removeConnectionInLoop t).
Proof.
  apply local_get. intros w1 w2 Hw. assert (E : in_map_ (env_ w1) = in_map_ (env_ w2)) by by rewrite (working_env _ _ Hw).
  destruct (in_map_ (env_ w1)), (in_map_ (env_ w2)); try done.
  refine (agree_put_env (set_in_map false) _ _ w1 w2 _ _ Hw); [done|]. by apply local_queueInLoop.
Qed.
#[local] Hint Resolve local_removeConnectionInLoop : local.
Lemma local_closeCallback o : local (closeCallback ch tid cbs o).
Proof.
  destruct o; cbn [closeCallback]; locals.
  - by apply (local_put_env (λ e, set_removals (removals_ e + 1) e)).
  - by apply (local_put_env (set_in_map false)).
Qed.
#[local] Hint Resolve local_closeCallback : local.
Lemma local_handleClose : local (handleClose ch tid cbs).
Proof. unfold handleClose. locals. Qed.
#[local] Hint Resolve local_handleClose : local.
Lemma local_forceCloseInLoop : local (forceCloseInLoop ch tid cbs).
Proof. unfold forceCloseInLoop. locals. Qed.
Lemma local_handleRead t : local (handleRead ch tid cbs t).
Proof. unfold handleRead, handleError. locals. Qed.
#[local] Hint Resolve local_forceCloseInLoop local_handleRead : local.
Lemma local_handleWrite : local (handleWrite ch tid cbs).
Proof. unfold handleWrite. locals. Qed.
#[local] Hint Resolve local_handleWrite : local.

Lemma local_exec f : local (exec ch tid cbs f).
Proof.
  unfold exec. locals.
  all: first [apply local_handleRead|unfold handleError, sendInLoop_string; locals].
Qed.
Lemma local_exec_read f t : local (exec_read ch tid cbs f t).
Proof. destruct f; first [apply local_handleRead|apply local_exec]. Qed.

Lemma local_establish other : local (establish ch tid other cbs).
Proof. unfold establish, runInLoop. locals. apply local_exec. Qed.

(** *** Destruction *)

Lemma poller_wf_delete p c :
  poller_wf p → heap_ p !! ch = Some c → index_ c = kNew → poller_wf (set_heap (delete ch (heap_ p)) p).
Proof.
  intros [W1 W2 W3 W4 W5] Hc Hi. constructor; cbn.
  - intros f a Hin. destruct (W1 f a Hin) as (c' & Hc' & ? & Hr). exists c'. rewrite lookup_delete_ne; [done|].
    intros <-. assert (c' = c) as -> by congruence. rewrite Hi in Hr. by destruct Hr.
  - intros a c' [_ Hc']%lookup_delete_Some. by apply W2.
  - intros f a ev. rewrite W3. split.
    + intros (c' & Hc' & ? & Ha & ?). exists c'. rewrite lookup_delete_ne; [done|].
      intros <-. assert (c' = c) as -> by congruence. by rewrite Hi in Ha.
    + intros (c' & [_ Hc']%lookup_delete_Some & ?). by exists c'.
  - intros a c' [_ Hc']%lookup_delete_Some. by apply (W4 a).
  - intros a c' [_ Hc']%lookup_delete_Some. by apply (W5 a).
Qed.

Lemma referenced_alike w1 w2 : alike w1 w2 → referenced w1 = referenced w2.
Proof. intros []. unfold referenced. by rewrite alike_env0, alike_pending0. Qed.

(** The connection and its channel are deleted. *)
Definition deleted w : World Q :=
  let p := poller_ (loop_ w) in
  set_env (set_freed true (env_ w)) (set_loop_ (set_poller (set_heap (delete ch (heap_ p)) p) (loop_ w)) w).

Lemma release_run w c :
  freed_ (env_ w) = false → heap_ (poller_ (loop_ w)) !! ch = Some c →
  release ch w =
    if referenced w then Ok (tt, w)
    else if bool_decide (state_ (conn_ w) = KDisconnected) && negb (Channel.eventHandling_ c) && negb (addedToLoop_ c)
    then Ok (tt, deleted w) else Fault AssertFailed.
Proof.
  intros Hf Hc. unfold release. unfold mbind, prog_bind. cbn. rewrite Hf. destruct (referenced w); [done|]. cbn.
  unfold TcpConnection_dtor. unfold mbind, prog_bind. cbn. destruct (bool_decide _); [|done]. cbn.
  unfold on_loop, on_poller, channel_at. unfold mbind, prog_bind. cbn. rewrite Hc. cbn. unfold Channel_dtor.
  destruct (Channel.eventHandling_ c); [done|]. destruct (addedToLoop_ c); [done|]. by destruct w as [[]].
Qed.

Lemma deleted_alike w1 w2 c :
  alike w1 w2 → freed_ (env_ w1) = false → heap_ (poller_ (loop_ w1)) !! ch = Some c →
  heap_ (poller_ (loop_ w2)) !! ch = Some c → index_ c = kNew → alike (deleted w1) (deleted w2).
Proof.
  intros [] Hf Hc1 Hc2 Hi. constructor; try done.
  - cbn. by rewrite alike_env0.
  - destruct alike_wf0. split; by eapply poller_wf_delete.
  - split; apply lookup_delete_eq.
Qed.
Lemma deleted_beside w : freed_ (env_ w) = false → beside w (deleted w).
Proof.
  intros Hf. eapply (beside_intro _ _ (poller_ (loop_ (deleted w))) (wakeups_ (loop_ w)) []); [done| | |].
  - cbn. rewrite app_nil_r. by destruct (loop_ w).
  - intros a Ha. cbn. by rewrite lookup_delete_ne.
  - done.
Qed.

(** A step outside of the connection's handlers. *)
Definition agree_outside {A} (m : prog (World Q) A) w1 w2 : Prop := agreed alike (m w1) (m w2) w1 w2.

Lemma release_outside w1 w2 : alike w1 w2 → agree_outside (release ch) w1 w2.
Proof.
  intros Ha. pose proof (alike_env _ _ Ha) as Ee. pose proof (alike_channel _ _ Ha) as Hc. unfold agree_outside.
  destruct (freed_ (env_ w1)) eqn:Hf.
  - assert (Hr : ∀ w, freed_ (env_ w) = true → release ch w = Ok (tt, w)).
    { intros w Hw. unfold release. unfold mbind, prog_bind. cbn. by rewrite Hw. }
    rewrite !Hr by congruence. by split_and!.
  - destruct Hc as (_ & c & Hc1 & Hc2 & [_ _ Hi _]). rewrite (release_run w1 c), (release_run w2 c) by congruence.
    rewrite <- (referenced_alike _ _ Ha), <- (alike_conn _ _ Ha). destruct (referenced w1); [by split_and!|].
    destruct (addedToLoop_ c); [by destruct (_ && negb (Channel.eventHandling_ c))|].
    destruct (_ && _); [|done]. split_and!; [done|..].
    + eapply deleted_alike; try done. by apply Hi.
    + by apply deleted_beside.
    + apply deleted_beside. congruence.
Qed.

Lemma local_outside {A} (m : prog (World Q) A) w1 w2 :
  local m → alike w1 w2 → freed_ (env_ w1) = false → EventLoop.eventHandling_ (loop_ w1) = false → agree_outside m w1 w2.
Proof.
  intros Hm Ha Hf Hh. assert (Hw : working w1 w2) by (constructor; [done|done|congruence]).
  specialize (Hm _ _ Hw). unfold agree, agreed in Hm. unfold agree_outside, agreed.
  destruct (m w1) as [[a1 v1]|], (m w2) as [[a2 v2]|]; try done. destruct Hm as (? & [] & ? & ?). by split_and!.
Qed.

(** *** The steps between iterations: calls of other threads, and the removal by the server *)

Lemma alike_members w1 w2 c e g :
  alike w1 w2 → freed_ e = freed_ (env_ w1) → alike (mkWorld (loop_ w1) c e g) (mkWorld (loop_ w2) c e g).
Proof. intros [] He. constructor; try done. cbn. by rewrite He. Qed.
Lemma beside_same w c e g : freed_ e = freed_ (env_ w) → beside w (mkWorld (loop_ w) c e g).
Proof.
  intros He. constructor; try done.
  - exists (poller_ (loop_ w)), (wakeups_ (loop_ w)), []. rewrite app_nil_r. by destruct (loop_ w).
  - intros Hf. split; [done|]. cbn. congruence.
Qed.

Lemma outside_members {A} (m : prog (World Q) A) w1 w2 c e g :
  alike w1 w2 → freed_ e = freed_ (env_ w1) →
  agree_outside m (mkWorld (loop_ w1) c e g) (mkWorld (loop_ w2) c e g) →
  agreed alike (m (mkWorld (loop_ w1) c e g)) (m (mkWorld (loop_ w2) c e g)) w1 w2.
Proof.
  intros Ha He Hm. eapply agreed_after; [by apply beside_same|apply beside_same|exact Hm].
  by rewrite <- (alike_env _ _ Ha).
Qed.

Lemma queue_outside t f w1 w2 : alike w1 w2 → agree_outside (on_loop (queueInLoop t f)) w1 w2.
Proof.
  intros Ha.
  assert (Hq : ∀ w, ∃ n, on_loop (queueInLoop t f) w =
    Ok (tt, set_loop_ (set_wakeups n (set_pending (pendingFunctors_ (loop_ w) ++ [f]) (loop_ w))) w)).
  { intros w. destruct (on_loop_run (queueInLoop t f)
      (λ _ l, ∃ n, l = set_wakeups n (set_pending (pendingFunctors_ (loop_ w) ++ [f]) (loop_ w))) w) as ([] & l & Hrun & n & ->).
    - apply queueInLoop_spec. intros n _. by exists n.
    - by exists n. }
  destruct (Hq w1) as [n1 E1], (Hq w2) as [n2 E2]. unfold agree_outside. rewrite E1, E2. split_and!; [done|..].
  - destruct Ha. constructor; try done. cbn. by rewrite alike_pending0.
  - constructor; try done. by exists (poller_ (loop_ w1)), n1, [f].
  - constructor; try done. by exists (poller_ (loop_ w2)), n2, [f].
Qed.

Lemma step_outside other s w1 w2 :
  other ≠ tid → alike w1 w2 → match s with Poll _ _ => False | _ => True end →
  agree_outside (run_step ch tid other fd cbs s) w1 w2.
Proof.
  intros Hother Ha Hs. destruct w1 as [l1 c1 e1 g1], w2 as [l2 c e g].
  pose proof (alike_conn _ _ Ha) as E1. pose proof (alike_env _ _ Ha) as E2. pose proof (alike_log _ _ Ha) as E3.
  cbn in E1, E2, E3. subst c1 e1 g1. set (w1 := mkWorld l1 c e g) in *. set (w2 := mkWorld l2 c e g) in *.
  pose proof (alike_thread _ _ Ha) as [T1 T2]. cbn in T1, T2.
  assert (Hsame : agreed alike (Ok (tt, w1)) (Ok (tt, w2)) w1 w2) by by split_and!.
  destruct s as [m| | | |r t]; [..|done]; unfold agree_outside, run_step; unfold mbind, prog_bind; cbn [get].
  - change (can_call w2) with (can_call w1). destruct (can_call w1); [|done]. cbn [when_].
    assert (Hsend : ∀ l, threadId_ l = tid → send ch tid cbs other m (mkWorld l c e g) =
      let len := to_signed 32 (zlen m) in
      if len <? 0 then Fault LengthError else on_loop (queueInLoop other (FSendInLoop (ztake len m))) (mkWorld l c e g)).
    { intros l Ht. unfold send, runInLoop, isInLoopThread. unfold mbind, prog_bind. cbn. rewrite Ht, (proj2 (Z.eqb_neq _ _)) by done.
      destruct (_ <? 0); [done|]. cbn [loop_]. by rewrite Ht, (proj2 (Z.eqb_neq _ _)). }
    unfold w1, w2. rewrite !Hsend by done. cbv zeta. destruct (_ <? 0); [done|]. by apply queue_outside.
  - change (can_call w2) with (can_call w1). destruct (can_call w1); [|done]. unfold forceClose. unfold mbind, prog_bind. cbn [when_ get].
    change (conn_ w2) with (conn_ w1). destruct (bool_decide _); [|done].
    apply (outside_members (on_loop (queueInLoop other FForceCloseInLoop)) w1 w2); [done|done|].
    by apply queue_outside, (alike_members w1 w2).
  - apply (outside_members (release ch) w1 w2); [done|done|]. by apply release_outside, (alike_members w1 w2).
  - change (env_ w2) with (env_ w1). destruct (0 <? _); [|done]. cbn [when_]. unfold removeConnectionInLoop.
    unfold mbind, prog_bind. cbn [get put]. change (env_ w2) with (env_ w1). cbn [set_env env_ set_removals in_map_].
    destruct (in_map_ (env_ w1)); [|done].
    apply (outside_members (on_loop (queueInLoop other FConnectDestroyed)) w1 w2); [done|done|].
    by apply queue_outside, (alike_members w1 w2).
Qed.
End locality.
