(* ===== verification/ConnSimulation.v ===== *)
(** * ConnSimulation: following a connection with the record its owner keeps of it

    TcpServer and TcpClient keep of a connection only how far its life has come and what is queued about it.
    Here: the stages of a connection's life, how far each step takes it for each kind of owner, and the rule by
    which events of an owner's model that match one step after the other match a whole run. *)
From S2P Require Import Prelude Timestamp Buffer ByteQueue Channel EPollPoller EventLoop TcpConnection ConnInvariant ConnSafety ConnFrame.

Section simulation.
Context `{Epoll} {Q : Type} `{!ByteQueue Q}.
Context (ch tid other fd : Z) (cbs : Callbacks) (sends : bool) (mn : manners) (o : owner).
Hypothesis (Hother : other ≠ tid).
Hypothesis (Howner : TcpConnection.closeCallback_ cbs = Some o).
Hypothesis (Hcbs : well_behaved cbs mn).
Implicit Types (w : World Q).

#[local] Abbreviation settled := (settled ch tid fd cbs sends mn).
#[local] Abbreviation step_of := (run_step ch tid other fd cbs).

(** ** Stages

    Queued to be established, established, told to close, closed but known to its owner, forgotten by it,
    destroyed ([connectDestroyed]). *)
Definition stage w : nat :=
  match state_ (conn_ w) with
  | KConnecting => 0
  | KConnected => 1
  | KDisconnecting => 2
  | KDisconnected =>
      if in_map_ (env_ w) then 3
      else if decide (FConnectDestroyed ∈ pendingFunctors_ (loop_ w)) then 4 else 5
  end%nat.

Lemma stage_le w : (stage w ≤ 5)%nat.
Proof. unfold stage. destruct (state_ (conn_ w)); try lia. destruct (in_map_ _); [lia|]. case_decide; lia. Qed.

Definition rank (st : StateE) : nat :=
  match st with KConnecting => 0 | KConnected => 1 | KDisconnecting => 2 | KDisconnected => 3 end.

(** *** What holds throughout, given the owner *)

(** Only a server in another thread queues a removal; a client destroys the connection itself. *)
Definition no_removal w : Prop := o ≠ ServerOtherLoop → removals_ (env_ w) = 0.
Definition destroyed_by (f : functor) : Prop := o = Client → f ≠ FConnectDestroyed.

Definition kept : World Q → Prop := framed tid no_removal destroyed_by.

Lemma no_removal_frame : frame no_removal destroyed_by.
Proof.
  unfold no_removal. split; try done.
  - intros d. by apply sockets_write_keeps.
  - intros f Hf _ ->. done.
Qed.
Lemma no_removal_free : free_frame no_removal destroyed_by.
Proof. by split. Qed.

(** *** What an iteration does not undo *)

Definition onward (w0 w : World Q) : Prop :=
  (rank (state_ (conn_ w0)) ≤ rank (state_ (conn_ w)))%nat ∧
  (in_map_ (env_ w) = true → in_map_ (env_ w0) = true) ∧
  (o = ServerOtherLoop → in_map_ (env_ w) = in_map_ (env_ w0)) ∧
  (freed_ (env_ w0) = true → freed_ (env_ w) = true).
(** [connectDestroyed] was queued already, or is when a server in the same loop forgets the connection. *)
Definition from_queue (w0 : World Q) (f : functor) : Prop :=
  f = FConnectDestroyed →
  FConnectDestroyed ∈ pendingFunctors_ (loop_ w0) ∨ (o = ServerInLoop ∧ in_map_ (env_ w0) = true).

Lemma onward_frame w0 : frame (onward w0) (from_queue w0).
Proof.
  unfold onward. split; try done.
  - intros w (Hr & ? & ? & _). by split_and!.
  - intros w (Hr & ? & ? & ?) Hst. split_and!; try done. rewrite Hst in Hr. cbn in *. lia.
  - intros w (Hr & ? & ? & ?) Hst. split_and!; try done. cbn. by destruct Hst as [E|E]; rewrite E in Hr; cbn in Hr; lia.
  - intros w (Hr & ? & ? & ?) Hst. split_and!; try done. cbn. by destruct Hst as [E|E]; rewrite E in Hr; cbn in Hr; lia.
  - intros d. apply sockets_write_keeps; [|done]. by intros w ws Hw _.
  - by intros [].
Qed.
Lemma onward_free w0 : free_frame (onward w0) (from_queue w0).
Proof. by split. Qed.

(** *** Every step *)

(** What the owner's callback must keep. *)
Lemma keeps_owner (I : World Q → Prop) (P : functor → Prop) :
  frame I P → free_frame I P →
  (o = ServerInLoop → ∀ w, I w → in_map_ (env_ w) = true → I (set_env (set_in_map false (env_ w)) w) ∧ P FConnectDestroyed) →
  (o = ServerOtherLoop → ∀ n w, I w → I (set_env (set_removals n (env_ w)) w)) →
  (o = Client → ∀ w, I w → I (set_env (set_in_map false (env_ w)) w)) →
  ∀ o', TcpConnection.closeCallback_ cbs = Some o' → keeps (framed tid I P) (closeCallback ch tid cbs o').
Proof.
  intros HI HF H1 H2 H3 o'. rewrite Howner. intros [= <-]. destruct o; cbn [closeCallback].
  - apply keeps_get. intros w (Ht & Hk & Hq & Hw). apply wp_check. intros Hmap. rewrite wp_bind, wp_put.
    destruct (H1 eq_refl w Hw Hmap) as [Hw' HP]. apply keeps_push; [done|done|]. by split_and!.
  - apply keeps_env. intros w Hw. by apply H2.
  - apply keeps_bind; [apply keeps_on_loop; [done|auto with keeps]|]. intros _. apply keeps_bind; [|intros _].
    + apply keeps_env. intros w Hw. by apply H3.
    + by apply keeps_connectDestroyed; [|apply keeps_user].
Qed.

Lemma poll_keeps (I : World Q → Prop) (P : functor → Prop) r t w :
  frame I P → free_frame I P →
  (∀ o', TcpConnection.closeCallback_ cbs = Some o' → keeps (framed tid I P) (closeCallback ch tid cbs o')) →
  framed tid I P w → wpf (λ _, True) (step_of (Poll r t)) (λ _ w', framed tid I P w') w.
Proof.
  intros HI HF Ho Hw. apply (keeps_Poll ch tid other fd cbs I P); [exact HI|by apply keeps_any_send|by apply keeps_user|exact Ho|exact Hw].
Qed.

Lemma kept_owner o' : TcpConnection.closeCallback_ cbs = Some o' → keeps kept (closeCallback ch tid cbs o').
Proof.
  apply keeps_owner; [apply no_removal_frame|apply no_removal_free|..].
  - intros Ho w Hw _. split; [exact Hw|]. by unfold destroyed_by; rewrite Ho.
  - intros Ho n w _. by unfold no_removal; rewrite Ho.
  - intros _ w Hw. exact Hw.
Qed.

Lemma kept_step s w : kept w → wpf (λ _, True) (step_of s) (λ _ w', kept w') w.
Proof.
  destruct s as [m| | | |r t].
  - by apply keeps_other_send; [apply no_removal_frame|apply no_removal_free].
  - by apply keeps_other_forceClose, no_removal_frame.
  - by apply keeps_other_drop; [apply no_removal_frame|].
  - revert w. apply keeps_get. intros w Hw. rewrite wp_when. destruct (Z.ltb_spec 0 (removals_ (env_ w))) as [Hrem|]; [|done].
    assert (Ho : o = ServerOtherLoop).
    { destruct (decide (o = ServerOtherLoop)); [done|]. destruct Hw as (_ & _ & _ & Hw). rewrite Hw in Hrem; [lia|done]. }
    rewrite wp_bind, wp_put. destruct Hw as (Ht & Hk & Hq & Hw).
    unfold removeConnectionInLoop. rewrite wp_bind, wp_get. apply wp_check. intros _. rewrite wp_bind, wp_put.
    apply keeps_push; [apply no_removal_frame|by unfold destroyed_by; rewrite Ho|].
    split_and!; [done..|]. by unfold no_removal; rewrite Ho.
  - apply poll_keeps; [apply no_removal_frame|apply no_removal_free|apply kept_owner].
Qed.

(** *** How far a step takes a connection *)

Lemma settled_in_map it w : settled it w → state_ (conn_ w) ≠ KDisconnected → in_map_ (env_ w) = true.
Proof.
  intros [(ph & rv & (c & _ & _ & Hp) & _)|Hg] Hst; [|by rewrite (gone_state _ _ _ _ Hg) in Hst].
  unfold in_phase in Hp. destruct ph; cbn in Hp; by destruct_and!.
Qed.

Lemma settled_freed it w : settled it w → freed_ (env_ w) = true → stage w = 5%nat.
Proof.
  intros [(ph & rv & (c & Hc & _) & _)|Hg] Hf; [by rewrite (core_freed _ _ _ _ _ _ _ _ Hc) in Hf|].
  unfold stage. rewrite (gone_state _ _ _ _ Hg), (gone_in_map _ _ _ _ Hg), (gone_queue _ _ _ _ Hg).
  rewrite decide_False; [done|]. apply not_elem_of_nil.
Qed.

(** A server in the same loop forgets a closed connection at once; a client destroys it at once. *)
Lemma settled_stage it w :
  settled it w → kept w →
  match o with ServerInLoop => stage w ≠ 3 | ServerOtherLoop => True | Client => stage w ≠ 3 ∧ stage w ≠ 4 end%nat.
Proof.
  intros Hw (_ & _ & Hq & Hr). assert (Hcl : o ≠ ServerOtherLoop → state_ (conn_ w) = KDisconnected → in_map_ (env_ w) = false).
  { intros Ho Hst. destruct Hw as [(ph & rv & (c & _ & _ & Hp) & H1 & H2)|Hg]; [|by apply Hg].
    rewrite Howner in H1, H2. unfold in_phase in Hp.
    destruct ph; cbn in Hp; destruct_and!; try done.
    - congruence.
    - destruct_or!; congruence.
    - by specialize (H1 eq_refl).
    - specialize (H2 eq_refl). congruence. }
  assert (Hst : ∀ k : nat, stage w = k → (3 ≤ k)%nat → state_ (conn_ w) = KDisconnected).
  { unfold stage. intros k. destruct (state_ (conn_ w)); intros; [done|lia..]. }
  assert (H3 : o ≠ ServerOtherLoop → stage w ≠ 3%nat).
  { intros Ho E. pose proof (Hst 3%nat E (le_n _)) as Hd. unfold stage in E. rewrite Hd, (Hcl Ho Hd) in E. by case_decide. }
  destruct o eqn:Ho; [by apply H3|done|]. split; [by apply H3|]. intros E. pose proof (Hst 4%nat E ltac:(lia)) as Hd.
  unfold stage in E. rewrite Hd, Hcl in E by done. case_decide as Hin; [|done]. rewrite list.Forall_forall in Hq. by apply (Hq _ Hin Ho).
Qed.

Definition advances (s : step) w w' : Prop :=
  let a := stage w in let b := stage w' in
  match s with
  | Poll _ _ => a ≤ b ∧ (o = ServerOtherLoop → a ≤ 3 → b ≤ 3) ∧ (freed_ (env_ w) = true → freed_ (env_ w') = true)
  | MainRemove => (b = a ∨ (o = ServerOtherLoop ∧ a = 3 ∧ b = 4)) ∧ freed_ (env_ w') = freed_ (env_ w)
  | OtherForceClose => (b = a ∨ (a = 1 ∧ b = 2)) ∧ freed_ (env_ w') = freed_ (env_ w)
  | OtherDrop => b = a ∧ (freed_ (env_ w) = true → freed_ (env_ w') = true)
  | OtherSend _ => b = a ∧ freed_ (env_ w') = freed_ (env_ w)
  end%nat.

Lemma poll_advances it r t w :
  settled it w → kept w → wpf (λ _, True) (step_of (Poll r t)) (λ _ w', advances (Poll r t) w w') w.
Proof.
  intros Hset Hk. eapply wp_mono.
  { apply (poll_keeps (onward w) (from_queue w)); [apply onward_frame|apply onward_free| |].
    - apply keeps_owner; [apply onward_frame|apply onward_free|..].
      + intros Ho w1 (? & Hm & ? & ?) Hmap. split; [split_and!; try done; by rewrite Ho|]. intros _. right. auto.
      + by intros _ n w1.
      + intros Ho w1 (? & ? & ? & ?). split_and!; try done. by rewrite Ho.
    - destruct Hk as (Ht & Hk & _). split_and!; [done|done| |by split_and!]. apply list.Forall_forall. intros f Hf ->. by left. }
  cbv beta. intros _ w' (_ & _ & Hq & Hr & Hm & Heq & Hf). rewrite list.Forall_forall in Hq. unfold from_queue in Hq.
  pose proof (settled_in_map it w Hset) as Hin.
  assert (Hd : FConnectDestroyed ∈ pendingFunctors_ (loop_ w') →
    FConnectDestroyed ∈ pendingFunctors_ (loop_ w) ∨ in_map_ (env_ w) = true).
  { intros Hin'. destruct (Hq _ Hin' eq_refl) as [?|[_ ?]]; [by left|by right]. }
  split_and!; [| |done].
  - unfold stage. destruct (state_ (conn_ w)), (state_ (conn_ w')); cbn in Hr; try lia.
    all: destruct (in_map_ (env_ w)), (in_map_ (env_ w')); repeat case_decide; try lia; exfalso; first [by specialize (Hm eq_refl)|by destruct Hd].
  - intros Ho. specialize (Heq Ho). unfold stage. rewrite Heq.
    destruct (state_ (conn_ w)), (state_ (conn_ w')); try lia; try (rewrite Hin by done; lia).
    all: destruct (in_map_ (env_ w)); [lia|]; repeat case_decide; lia.
Qed.

(** The other steps queue a functor or change one member. *)
Lemma stage_pushed f n w : f ≠ FConnectDestroyed → stage (pushed f n w) = stage w.
Proof.
  intros Hf. unfold stage, pushed. cbn. destruct (state_ (conn_ w)); [|done..]. destruct (in_map_ (env_ w)); [done|].
  assert (Hin : FConnectDestroyed ∈ pendingFunctors_ (loop_ w) ++ [f] ↔ FConnectDestroyed ∈ pendingFunctors_ (loop_ w)).
  { rewrite elem_of_app, list_elem_of_singleton. split; [intros [?|?]; [done|congruence]|by left]. }
  by destruct (decide (_ ∈ _ ++ _)), (decide (_ ∈ pendingFunctors_ (loop_ w))); tauto.
Qed.

Lemma push_stage t f w (R : () → World Q → Prop) :
  f ≠ FConnectDestroyed → (∀ w', stage w' = stage w → freed_ (env_ w') = freed_ (env_ w) → R tt w') →
  wpf (λ _, True) (on_loop (queueInLoop t f)) R w.
Proof. intros Hf HR. apply on_loop_spec, queueInLoop_spec. intros n _. apply HR; [|done]. by apply (stage_pushed f n w). Qed.

Lemma send_advances m w :
  kept w → wpf (λ _, True) (send ch tid cbs other m) (λ _ w', stage w' = stage w ∧ freed_ (env_ w') = freed_ (env_ w)) w.
Proof.
  intros (Ht & _). unfold send, runInLoop, isInLoopThread. wp_go. change (loop_of w) with (loop_ w).
  rewrite Ht, (proj2 (Z.eqb_neq _ _)) by done. destruct (_ <? 0); [done|]. wp_go. change (loop_of w) with (loop_ w).
  rewrite Ht, (proj2 (Z.eqb_neq _ _)) by done. by apply push_stage.
Qed.

Lemma forceClose_advances t w :
  wpf (λ _, True) (forceClose t)
    (λ _ w', (stage w' = stage w ∨ (stage w = 1 ∧ stage w' = 2)%nat) ∧ freed_ (env_ w') = freed_ (env_ w)) w.
Proof.
  unfold forceClose. wp_go. case_bool_decide as Hst; [|by split; [left|]]. wp_go. apply setState_spec.
  apply push_stage; [done|]. intros w' -> ->. split; [|done]. unfold stage. cbn. destruct Hst as [->| ->]; auto.
Qed.

Lemma release_advances w :
  wpf (λ _, True) (release ch) (λ _ w', stage w' = stage w ∧ (freed_ (env_ w) = true → freed_ (env_ w') = true)) w.
Proof.
  unfold release, TcpConnection_dtor. wp_go. destruct (_ && _); [|done]. wp_go. destruct (bool_decide _); [|done].
  change (wpf ?E (cassert true) ?R ?s) with (R tt s). cbv beta. wp_go.
  apply on_loop_spec, on_poller_spec. unfold channel_at. wp_go. destruct (heap_ _ !! ch) as [c|]; [|done]. wp_go.
  destruct (Channel_dtor c) as [[]|]; [|done]. wp_go. apply on_loop_spec, on_poller_spec. by wp_go.
Qed.

Lemma remove_advances it w :
  settled it w → 0 < removals_ (env_ w) →
  wpf (λ _, True) (removeConnectionInLoop other)
    (λ _ w', (stage w = 3 ∧ stage w' = 4)%nat ∧ freed_ (env_ w') = freed_ (env_ w))
    (set_env (set_removals (removals_ (env_ w) - 1) (env_ w)) w).
Proof.
  intros Hw Hrem. assert (Hst : state_ (conn_ w) = KDisconnected ∧ in_map_ (env_ w) = true).
  { destruct Hw as [(ph & rv & (c & _ & _ & Hp) & _)|Hg]; [|by rewrite (gone_removals _ _ _ _ Hg) in Hrem].
    unfold in_phase in Hp. destruct ph; cbn in Hp; destruct_and!; try done; lia. }
  destruct Hst as [Hst Hmap]. unfold removeConnectionInLoop. wp_go. apply wp_assert; [exact Hmap|]. wp_go.
  apply on_loop_spec, queueInLoop_spec. intros n _. unfold stage. cbn. rewrite Hst, Hmap. split_and!; [done| |done].
  rewrite decide_True; [done|]. apply elem_of_app. right. left.
Qed.

Lemma step_advances s it w :
  settled it w → kept w → wpf (λ _, True) (step_of s) (λ _ w', advances s w w') w.
Proof.
  intros Hw Hk. destruct s as [m| | | |r t]; [unfold run_step; wp_go..|by apply (poll_advances it)].
  - destruct (can_call w); [by apply send_advances|done].
  - destruct (can_call w); [by apply forceClose_advances|by split; [left|]].
  - apply (release_advances (set_env (set_holds false (env_ w)) w)).
  - destruct (Z.ltb_spec 0 (removals_ (env_ w))) as [Hrem|]; [|by split; [left|]]. wp_go.
    assert (Ho : o = ServerOtherLoop).
    { destruct (decide (o = ServerOtherLoop)); [done|]. destruct Hk as (_ & _ & _ & Hr). rewrite Hr in Hrem; [lia|done]. }
    eapply wp_mono; [by eapply remove_advances|]. cbv beta. intros _ w' [[E1 E2] E3]. split; [by right|done].
Qed.

(** *** The connection once it is established

    A server in another thread has queued [connectEstablished]; the other owners have called it, and the
    connection callback may have forced the end. *)
Definition established w : Prop :=
  freed_ (env_ w) = false ∧
  (if decide (o = ServerOtherLoop) then stage w = 0 else stage w = 1 ∨ stage w = 2)%nat.

Lemma establish_kept : keeps kept (establish ch tid other cbs).
Proof.
  unfold establish, runInLoop. apply keeps_get. intros w Hw.
  destruct (isInLoopThread _ _); [|apply keeps_push; [apply no_removal_frame|done|done]].
  apply (keeps_exec ch tid cbs _ _ no_removal_frame); [..|done|done].
  - by apply keeps_any_send; [apply no_removal_frame|apply no_removal_free].
  - by apply keeps_user; [apply no_removal_frame|apply no_removal_free].
  - apply kept_owner.
Qed.

Lemma init_kept holds ws rs : kept (world_init ch tid fd holds ws rs).
Proof.
  split_and!; [done| |by apply Forall_nil|done]. intros a c Hc. cbn in Hc.
  apply lookup_singleton_Some in Hc as [_ <-]. by split_and!.
Qed.

Lemma establish_staged holds ws rs :
  can_watch fd → Forall readv_law rs → (sends = true → holds = true) →
  (bounded mn = true → ∃ n, volume rs n ∧ n < 2 ^ 31) →
  wpf (λ f, f = LengthError) (establish ch tid other cbs) (λ _ w, settled 0 w ∧ kept w ∧ established w)
    (world_init ch tid fd holds ws rs).
Proof.
  intros Hfd Hrs Hsends Hvol. set (w0 := world_init ch tid fd holds ws rs).
  eapply wp_mono; [eapply wp_both; [by apply (ConnSafety.establish_spec ch tid other fd cbs sends mn)|]|].
  { apply wp_and; [apply establish_kept, init_kept|].
    instantiate (1 := λ _ w, established w).
    unfold established, establish, runInLoop, isInLoopThread. wp_go. change (threadId_ (loop_ w0)) with tid. rewrite Howner.
    destruct (decide (o = ServerOtherLoop)) as [Ho|Ho].
    { rewrite Ho, (proj2 (Z.eqb_neq _ _)) by done. by apply (push_stage other). }
    assert (match o with ServerOtherLoop => other | _ => tid end = tid) as -> by (by destruct o).
    rewrite Z.eqb_refl. unfold exec. wp_go. change (freed_ (env_ w0)) with false.
    pose proof (init_core ch tid fd sends mn holds ws rs Hfd Hrs Hsends Hvol) as Hc.
    eapply wpf_any, wp_mono.
    { eapply (connectEstablished_spec ch tid fd cbs sends mn Hcbs); [exact Hc| |try done..].
      - intros _. unfold out_bytes. cbn. by rewrite q_init_bytes.
      - apply q_init_bytes. }
    cbv beta. intros _ w [(c & Hc1 & _ & Hp) _]. split; [by apply (core_freed _ _ _ _ _ _ _ _ Hc1)|].
    destruct Hp as (Hst & _). unfold stage. destruct Hst as [->| ->]; auto. }
  cbv beta. by intros _ w ([Hw _] & Hk & He).
Qed.

(** *** From steps to runs *)

Context {V Ev : Type} (handle : Ev → prog V ()) (matched : step → list Ev → Prop) (R : World Q → V → Prop).

(** Events of the other model match each step from states in [R]. *)
Hypothesis (Hmatch : ∀ s it it' w w' v,
  settled it w → kept w → settled it' w' → kept w' → advances s w w' → R w v →
  ∃ es, matched s es ∧ wp (for_each handle es) (λ _ v', R w' v') v).

Lemma simulation_steps steps it w v :
  settled it w → kept w → Forall (step_ok sends mn) steps → 0 ≤ it → it + zlen steps < 2 ^ 62 → R w v →
  wpf (λ f, f = LengthError) (for_each step_of steps)
    (λ _ w', ∃ ess, Forall2 matched steps ess ∧ wp (for_each handle (concat ess)) (λ _ v', R w' v') v) w.
Proof.
  intros Hw Hk Hok. induction Hok as [|s steps Hs Hok IH] in it, w, v, Hw, Hk |- *; intros Hit Hlen Hv; cbn [for_each].
  - rewrite wp_ret. exists []. by split.
  - rewrite zlen_cons in Hlen. pose proof (zlen_nonneg steps). rewrite wp_bind. eapply wp_mono.
    { apply wp_both; [eapply (run_step_spec ch tid other fd cbs); [done|done|exact Hw|done|lia]|].
      apply wp_and; [by apply kept_step|by apply (step_advances s it)]. }
    cbv beta. intros _ w1 ((_ & it1 & Hit1 & Hw1) & Hk1 & Hadv).
    destruct (Hmatch s it it1 w w1 v Hw Hk Hw1 Hk1 Hadv Hv) as (es & Hes & Hrun).
    destruct (wp_inv Hrun) as ([] & v1 & Hrun1 & Hv1).
    eapply wp_mono; [apply (IH it1 w1 v1); [done|done|lia|lia|done]|].
    cbv beta. intros _ w2 (ess & Hess & Hv2). exists (es :: ess). split; [by constructor|].
    cbn [concat]. apply wp_for_each_app. unfold wpf at 1. by rewrite Hrun1.
Qed.
End simulation.

(** ** Runs

    [R] relates a connection to a state of its owner's model.  When events of the model match every step from
    related states, and lead to a state related to the connection once it is established, they match the run. *)
Lemma simulation `{Epoll} {Q : Type} `{!ByteQueue Q} {V Ev : Type} ch tid other fd cbs o holds ws rs steps (w : World Q)
    (handle : Ev → prog V ()) (matched : step → list Ev → Prop) (R : World Q → V → Prop) (first : list Ev → Prop) v :
  setting tid other fd cbs holds rs steps → TcpConnection.closeCallback_ cbs = Some o →
  (∀ mn s it it' w w' v, settled ch tid fd cbs (existsb is_send steps) mn it w → kept tid o w →
     settled ch tid fd cbs (existsb is_send steps) mn it' w' → kept tid o w' → advances o s w w' → R w v →
     ∃ es, matched s es ∧ wp (for_each handle es) (λ _ v', R w' v') v) →
  (∀ mn w, settled ch tid fd cbs (existsb is_send steps) mn 0 w → kept tid o w → established o w →
     ∃ es, first es ∧ wp (for_each handle es) (λ _ v', R w v') v) →
  run ch tid other fd cbs steps (world_init ch tid fd holds ws rs) = Ok (tt, w) →
  ∃ es ess, first es ∧ Forall2 matched steps ess ∧ wp (for_each handle (es ++ concat ess)) (λ _ v', R w v') v.
Proof.
  intros Hset Howner Hmatch Hfirst Hrun. pose proof Hset as [Hother (mn & Hcbs & Hvol & Hhup) Hwatch Hkernel Hsteps Hlen].
  assert (Hsim : wpf (λ f, f = LengthError) (run ch tid other fd cbs steps)
    (λ _ w, ∃ es ess, first es ∧ Forall2 matched steps ess ∧ wp (for_each handle (es ++ concat ess)) (λ _ v', R w v') v)
    (world_init ch tid fd holds ws rs)); [|unfold wpf in Hsim; by rewrite Hrun in Hsim].
  unfold run. rewrite wp_bind. eapply wp_mono.
  { apply (establish_staged ch tid other fd cbs (existsb is_send steps) mn o); try done. by apply sends_holds. }
  cbv beta. intros _ w0 (Hw0 & Hk0 & He). destruct (Hfirst mn w0 Hw0 Hk0 He) as (es & Hes & Hplay).
  destruct (wp_inv Hplay) as ([] & v0 & Hplay0 & Hv0). eapply wp_mono.
  { apply (simulation_steps ch tid other fd cbs (existsb is_send steps) mn o) with (it := 0) (matched := matched)
      (handle := handle) (R := R) (v := v0); try done; [exact (Hmatch mn)|by eapply steps_ok_each|lia]. }
  cbv beta. intros _ w1 (ess & Hess & Hv1). exists es, ess. split_and!; [done|done|].
  apply wp_for_each_app. unfold wpf at 1. by rewrite Hplay0.
Qed.
