(* ===== verification/ConnFlush.v ===== *)
(** * ConnFlush: a connection's buffered output gets to the kernel

    Progress: as long as the connection is not closed, polls that report the socket writable and
    writes that take at least a byte bring every byte that waited in the output buffer to the
    kernel, whatever is sent meanwhile. *)
From S2P Require Import Prelude Timestamp Buffer ByteQueue Channel EPollPoller EventLoop TcpConnection ConnInvariant ConnSafety ConnFrame.

Section flush.
Context `{Epoll} {Q : Type} `{!ByteQueue Q}.
Context (ch tid other fd : Z) (cbs : Callbacks).
Implicit Types (w : World Q).

(** Every write takes something. *)
Definition roomy (a : write_answer) : Prop := match a with WRoom n => 1 ≤ n | WError _ _ => False end.

(** *** What only grows *)

Record grown (w0 w : World Q) : Prop := {
  grown_sent : sent_ (log_ w0) `prefix_of` sent_ (log_ w);
  grown_wire : zlen (wire_ (log_ w0)) ≤ zlen (wire_ (log_ w));
  grown_trace : trace_ (log_ w0) `prefix_of` trace_ (log_ w);
  grown_broken : broken_ (log_ w0) = true → broken_ (log_ w) = true;
  grown_writes : writes_ (env_ w0) = [] → writes_ (env_ w) = [];
  grown_roomy : Forall roomy (writes_ (env_ w0)) → Forall roomy (writes_ (env_ w))
}.

Lemma grown_refl w : grown w w.
Proof. by constructor. Qed.

Lemma grown_frame w0 : frame (grown w0) anything.
Proof.
  split; try (intros; match goal with Hg : grown _ _ |- _ => destruct Hg end; by constructor).
  - intros ev w []. constructor; try done. cbn. by apply prefix_app_r.
  - intros d. apply sockets_write_keeps.
    + intros w ws [] ->. constructor; try done; cbn.
      * intros E. by rewrite (grown_writes0 E).
      * intros Hr. specialize (grown_roomy0 Hr). by destruct grown_roomy0.
    + intros w n [] Hn. constructor; try done. cbn. rewrite zlen_app. pose proof (zlen_nonneg (ztake n d)). lia.
  - done.
Qed.
Lemma grown_free w0 : free_frame (grown w0) anything.
Proof.
  split; try (intros; match goal with Hg : grown _ _ |- _ => destruct Hg end; by constructor); [|done].
  intros d w []. constructor; try done. cbn. by apply prefix_app_r.
Qed.
Lemma grown_owner w0 : owner_frame (grown w0) anything.
Proof. by split; try (intros; match goal with Hg : grown _ _ |- _ => destruct Hg end; by constructor). Qed.

(** More than [n] bytes are on the wire. *)
Definition wired (n : Z) (w : World Q) : Prop := n < zlen (wire_ (log_ w)).

Lemma wired_frame n : frame (wired n) anything.
Proof.
  unfold wired. split; try done. intros d. apply sockets_write_keeps; [done|]. intros w k Hw Hk. cbn. rewrite zlen_app.
  pose proof (zlen_nonneg (ztake k d)). lia.
Qed.
Lemma wired_free n : free_frame (wired n) anything.
Proof. by split. Qed.
Lemma wired_owner n : owner_frame (wired n) anything.
Proof. by split. Qed.

(** *** A poll that reports the socket writable *)

Lemma keeps_then {S A} (J : S → Prop) (m : prog S A) (R : A → S → Prop) s :
  keeps J m → J s → (∀ a s', J s' → R a s') → wpf (λ _, True) m R s.
Proof. intros Hm Hs HR. eapply wp_mono; [by apply Hm|]. done. Qed.

(** An operation of the loop changes nothing else. *)
Lemma on_loop_only {A} (m : prog (EventLoop functor) A) w :
  wpf (λ _, True) (on_loop m) (λ _ w', ∃ l, w' = set_loop_ l w) w.
Proof. apply on_loop_spec. unfold wpf. destruct (m _) as [[a l]|]; [by exists l|done]. Qed.

Context (sends : bool) (mn : manners).

#[local] Abbreviation live := (live ch tid fd sends mn).

Lemma sockets_write_room {E} d n ws w (R : Z * Z * Z → World Q → Prop) :
  writes_ (env_ w) = WRoom n :: ws →
  let m := (n `max` 0) `min` zlen d in
  R (m, 0, 0) (set_log (log_wire (ztake m d) (log_ w)) (set_env (set_writes ws (env_ w)) w)) → wpf E (sockets_write d) R w.
Proof. intros Hws m HR. unfold sockets_write, log. wp_go. rewrite Hws. wp_go. exact HR. Qed.

(** The handler puts at least a byte on the wire. *)
Lemma handleWrite_grows k w :
  live POpen k w → framed tid (λ _, True) anything w → out_bytes w ≠ [] → writes_ (env_ w) ≠ [] →
  Forall roomy (writes_ (env_ w)) →
  wpf (λ _, True) (exec ch tid cbs FHandleWrite)
    (λ _ w', framed tid (wired (zlen (wire_ (log_ w)))) anything w') w.
Proof.
  intros (c & Hc & Hs & Hp) Hf Hout Hne Hroom.
  unfold exec. rewrite wp_bind, wp_get. cbv beta. rewrite (core_freed _ _ _ _ _ _ _ _ Hc). unfold handleWrite.
  rewrite wp_bind. eapply thread_spec; [done|]. rewrite wp_bind. eapply channel_spec; [done|].
  rewrite (open_writing _ _ _ _ _ _ _ _ Hc Hp), q_readable_spec by apply Hc.
  assert (Hlen : 0 < zlen (q_bytes (outputBuffer_ (conn_ w)))).
  { unfold out_bytes in Hout. destruct (q_bytes _); [done|]. rewrite zlen_cons. pose proof (zlen_nonneg l). lia. }
  rewrite (proj2 (Z.eqb_neq _ _)) by lia. cbn [negb when_]. rewrite wp_bind, wp_get. cbv beta. rewrite wp_bind.
  eapply wp_lift; [by apply q_contents_spec, Hc|]. rewrite wp_bind.
  destruct (writes_ (env_ w)) as [|a ws] eqn:Hws; [done|]. apply list.Forall_cons in Hroom as [Ha _].
  destruct a as [n|]; [|done]. cbn in Ha. eapply sockets_write_room; [exact Hws|]. cbv beta iota.
  set (m := (n `max` 0) `min` _). assert (Hm : 0 < m) by lia.
  set (G := wired _). pose proof (wired_frame (zlen (wire_ (log_ w)))) as HG. pose proof (wired_free (zlen (wire_ (log_ w)))) as HF.
  pose proof (wired_owner (zlen (wire_ (log_ w)))) as HO.
  eapply (keeps_then (framed tid G anything)); [| |done].
  { apply keeps_written; [done|by apply keeps_user|by apply keeps_any_owner]. }
  destruct Hf as (Ht & Hk & _ & _). split_and!; [done|done|by apply list.Forall_forall|]. unfold G, wired. cbn.
  rewrite zlen_app, zlen_ztake by lia. lia.
Qed.

#[local] Abbreviation any := (any tid).


(** A change of the loop that [live] allows. *)
Lemma loop_change {A} (m : prog (EventLoop functor) A) (R : A → World Q → Prop) w :
  any w → quiet handler m → wpf (λ f, f = LengthError) (on_loop m) R w →
  wpf (λ _, True) (on_loop m) (λ a w', R a w' ∧ any w' ∧ ∃ l, w' = set_loop_ l w) w.
Proof.
  intros Hw Hm HR. apply wp_and; [by eapply wpf_any|]. apply wp_and; [|apply on_loop_only].
  by apply (keeps_on_loop tid _ _ any_frame).
Qed.

Lemma guard_grows t k w :
  live POpen k w → any w → p_loop k = true → p_revents k = EPOLLOUT →
  out_bytes w ≠ [] → writes_ (env_ w) ≠ [] → Forall roomy (writes_ (env_ w)) →
  wpf (λ _, True) (handleEventWithGuard channel_of mark (exec ch tid cbs) (exec_read ch tid cbs) ch t)
    (λ _ w', framed tid (wired (zlen (wire_ (log_ w)))) anything w') w.
Proof.
  intros Hl Ha Hloop Hrv Hout Hne Hroom. unfold handleEventWithGuard. rewrite wp_bind. eapply wp_mono.
  { apply (loop_change _ (λ _ w', live POpen (set_chan true k) w')); [done|apply quiet_on_poller; by apply keeps_modify_channel|].
    eapply (mark_live ch tid fd sends mn true); [exact Hl|by destruct Hl as (c & Hc & _); apply Hc|done]. }
  cbv beta. intros _ w1 (Hl1 & Ha1 & l & ->).
  assert (Hsee : ∀ R, (∀ c, revents_ c = EPOLLOUT → writeCallback_ c = Some FHandleWrite → R c (set_loop_ l w)) →
    wpf (λ _, True) (channel_of ch) R (set_loop_ l w)).
  { intros R HR. eapply wpf_any, channel_callbacks; [exact Hl1|]. intros c Hc _ Hcw _ _. apply HR; [by rewrite Hc|done]. }
  rewrite wp_bind. apply Hsee. intros c -> _. rewrite wp_bind.
  change (has EPOLLOUT EPOLLHUP && negb (has EPOLLOUT EPOLLIN)) with false. rewrite wp_when, wp_bind.
  apply Hsee. clear c. intros c -> _. rewrite wp_bind. change (has EPOLLOUT EPOLLERR) with false. rewrite wp_when, wp_bind.
  apply Hsee. clear c. intros c -> _. rewrite wp_bind.
  change (has EPOLLOUT (Z.lor (Z.lor EPOLLIN EPOLLPRI) EPOLLRDHUP)) with false. rewrite wp_when, wp_bind.
  apply Hsee. clear c. intros c -> ->. rewrite wp_bind. change (has EPOLLOUT EPOLLOUT) with true. rewrite wp_when. cbn [call_if].
  eapply wp_mono; [by apply (handleWrite_grows (set_chan true k))|]. cbv beta. intros _ w2 Hw2.
  eapply keeps_on_loop; [apply wired_frame|apply quiet_on_poller; by apply keeps_modify_channel|exact Hw2].
Qed.

Lemma handle_active_grows it k l w :
  live POpen k w → k = rest_place it EPOLLOUT → any w →
  poller_ l = poller_ (loop_ w) → threadId_ l = threadId_ (loop_ w) → EventLoop.eventHandling_ l = true →
  pendingFunctors_ l = pendingFunctors_ (loop_ w) →
  out_bytes w ≠ [] → writes_ (env_ w) ≠ [] → Forall roomy (writes_ (env_ w)) →
  wpf (λ _, True) (handle_active (λ _ w, negb (freed_ (env_ w))) (exec ch tid cbs) (exec_read ch tid cbs) ch)
    (λ _ w', framed tid (wired (zlen (wire_ (log_ w)))) anything w') (set_loop_ l w).
Proof.
  intros Hl Hk (At & Ak & Aq & _) E1 E2 E3 E4 Hout Hne Hroom. unfold handle_active, handleEvent.
  rewrite wp_bind. apply on_loop_spec. rewrite wp_modify. cbv beta. set (l1 := set_current (Some ch) _).
  change (set_loop l1 (set_loop_ l w)) with (set_loop_ l1 w).
  assert (Hl1 : live POpen (busy_place (iteration_ l1) EPOLLOUT) (set_loop_ l1 w)).
  { eapply live_loop; [exact Hl|try done; try (by rewrite Hk) ..]. }
  assert (Ha1 : any (set_loop_ l1 w)) by (split_and!; cbn; [congruence|by rewrite E1|by rewrite E4|done]).
  clearbody l1. rewrite wp_bind, wp_get. cbv beta. rewrite wp_bind.
  pose proof Hl1 as (c & Hc & _). apply on_loop_spec, on_poller_spec.
  eapply channel_at_spec; [exact (core_chan _ _ _ _ _ _ _ _ Hc)|].
  pose proof (proj1 (proj2 Ha1) _ _ (core_chan _ _ _ _ _ _ _ _ Hc)) as (_ & _ & _ & _ & Htie).
  rewrite wp_bind, wp_get. cbv beta.
  match goal with |- context [handleEventWithGuard _ _ _ _ _ ?t] =>
    pose proof (guard_grows t (busy_place (iteration_ l1) EPOLLOUT) (set_loop_ l1 w) Hl1 Ha1 eq_refl eq_refl Hout Hne Hroom) as Hg end.
  assert (Hfree : freed_ (env_ w) = false) by apply (core_freed _ _ _ _ _ _ _ _ Hc).
  destruct (tied_ c); [|exact Hg]. destruct (tie_ c) as [o|]; [|by destruct Htie].
  rewrite wp_when. lazymatch goal with |- context [negb ?b] => change b with (freed_ (env_ w)) end. rewrite Hfree. exact Hg.
Qed.

(** Only the loop changes between the poll and the handler. *)
Lemma poll_grows t it rv w :
  live POpen (rest_place it rv) w → any w → 0 ≤ it < 2 ^ 62 →
  out_bytes w ≠ [] → writes_ (env_ w) ≠ [] → Forall roomy (writes_ (env_ w)) →
  wpf (λ _, True) (run_step ch tid other fd cbs (Poll EPOLLOUT t)) (λ _ w', wired (zlen (wire_ (log_ w))) w') w.
Proof.
  intros Hl Ha Hit Hout Hne Hroom. pose proof Hl as (c & Hc & Hs & Hp).
  set (G := framed tid (wired (zlen (wire_ (log_ w)))) anything).
  assert (Hend : ∀ w', G w' → wpf (λ _, True) (release ch) (λ _ w', wired (zlen (wire_ (log_ w))) w') w').
  { intros w' Hw'. eapply (keeps_then G); [apply keeps_release, wired_frame|done|]. by intros _ w'' (_ & _ & _ & ?). }
  assert (Hev : events_ c = asked (reading_ (conn_ w)) (out_bytes w)) by apply Hp.
  assert (Hidx : index_ c = kAdded).
  { destruct Hp as (_ & -> & -> & _). unfold index_for, asked. rewrite decide_False by done. by destruct (reading_ _). }
  assert (Hmask : masked EPOLLOUT (events_ c) = EPOLLOUT).
  { rewrite Hev. unfold asked. rewrite decide_False by done. by destruct (reading_ _). }
  assert (Hrep : reported fd EPOLLOUT w = [(ch, masked EPOLLOUT (events_ c))]).
  { unfold reported. rewrite (open_interest _ _ _ _ _ _ _ _ Hc Hidx). fold (masked EPOLLOUT (events_ c)). by rewrite Hmask. }
  unfold run_step. rewrite wp_bind, wp_get. cbv beta. rewrite wp_bind.
  eapply (wp_mono _ (λ _, G)); [|cbv beta; intros []; exact Hend].
  unfold poll_once, iteration, arrivals. cbn [arrived quit_requested answer returned_at for_each when_].
  rewrite wp_bind, wp_get. cbv beta. rewrite wp_bind. apply on_loop_spec. rewrite wp_modify. cbv beta.
  rewrite wp_bind. apply on_loop_spec. rewrite wp_bind, !wp_ret, wp_bind. set (w1 := set_loop _ (set_loop _ w)).
  assert (Hc1 : core ch tid fd sends mn (rest_place it rv) w1 c).
  { change w1 with (set_loop_ (loop_ w1) w). eapply core_loop; [exact Hc|try apply Hc; done..]. }
  rewrite Hrep. eapply wp_mono.
  { eapply (loop_change _ _ w1); [exact Ha|apply quiet_on_poller; auto with keeps|]. apply (poll_live ch tid fd sends mn POpen EPOLLOUT it rv);
      [exact Hc1|exact Hs|exact Hp|exact (open_interest _ _ _ _ _ _ _ _ Hc Hidx)]. }
  cbv beta. intros active w2 ((-> & Hl2 & _ & _) & Ha2 & l2 & ->). rewrite Hmask in Hl2.
  apply (prepare_spec _ _ _ it); [by destruct Hl2 as (c2 & Hc2 & _); apply Hc2|done|].
  rewrite wp_bind. cbn [for_each]. rewrite wp_bind. eapply wp_mono.
  { eapply (handle_active_grows it (rest_place it EPOLLOUT)); [exact Hl2|done|exact Ha2|done..]. }
  cbv beta. change (wire_ (log_ (set_loop_ l2 w1))) with (wire_ (log_ w)). intros _ w3 Hw3. rewrite wp_ret.
  pose proof (wired_frame (zlen (wire_ (log_ w)))) as HG. pose proof (wired_free (zlen (wire_ (log_ w)))) as HF.
  pose proof (wired_owner (zlen (wire_ (log_ w)))) as HO.
  rewrite wp_bind. eapply (keeps_then G); [apply keeps_on_loop; [exact HG|auto with keeps]|exact Hw3|]. intros _ w4 Hw4.
  rewrite wp_bind. eapply (keeps_then G); [apply keeps_on_loop; [exact HG|auto with keeps]|exact Hw4|]. intros _ w5 Hw5.
  eapply (keeps_then G); [|exact Hw5|done]. apply keeps_doPendingFunctors; [done| |by apply keeps_user|by apply keeps_any_owner].
  intros m _. by apply keeps_send.
Qed.

(** *** Poll after poll *)

Lemma grown_trans w1 w2 w3 : grown w1 w2 → grown w2 w3 → grown w1 w3.
Proof. intros [] []. constructor; try tauto; [by etrans|lia|by etrans]. Qed.

Lemma any_step s w : any w → wpf (λ _, True) (run_step ch tid other fd cbs s) (λ _ w', any w' ∧ grown w w') w.
Proof.
  intros (Ht & Hk & Hq & _). eapply wp_mono; [apply (keeps_step _ _ _ _ _ _ _ (grown_frame w) (grown_owner w) (grown_free w))|].
  - split_and!; [done|done|by apply list.Forall_forall|apply grown_refl].
  - cbv beta. intros _ w' (? & ? & ? & ?). by split_and!.
Qed.

(** [n] more polls bring to the wire all that had been sent at [w0]. *)
Definition flushing (w0 : World Q) (n : Z) w : Prop :=
  writes_ (env_ w) = [] ∨ broken_ (log_ w) = true ∨ EvDown ∈ trace_ (log_ w) ∨
  zlen (sent_ (log_ w0)) ≤ zlen (wire_ (log_ w)) + n.

Lemma flushing_grown w0 n w w' : flushing w0 n w → grown w w' → flushing w0 n w'.
Proof.
  unfold flushing. intros [?|[?|[Hd|?]]] []; [tauto..| |do 3 right; lia].
  do 2 right. left. destruct grown_trace0 as [r ->]. apply elem_of_app. by left.
Qed.

Lemma closed_has_down tr : closed_trace tr → EvDown ∈ tr.
Proof. intros (ms & rest & -> & _). right. apply elem_of_app. right. left. Qed.

Lemma flushing_step w0 n t it w :
  settled ch tid fd cbs sends mn it w → well_behaved cbs mn → other ≠ tid → 0 ≤ it < 2 ^ 62 →
  any w → grown w0 w → Forall roomy (writes_ (env_ w)) → 0 ≤ n → flushing w0 (1 + n) w →
  wpf (λ f, f = LengthError) (run_step ch tid other fd cbs (Poll EPOLLOUT t))
    (λ _ w', (∃ it', it ≤ it' ≤ it + 1 ∧ settled ch tid fd cbs sends mn it' w') ∧ any w' ∧ grown w w' ∧ flushing w0 n w') w.
Proof.
  intros Hw Hcbs Hother Hit Ha Hg Hroom Hn Hf.
  assert (Hgo : flushing w0 n w ∨ wpf (λ _, True) (run_step ch tid other fd cbs (Poll EPOLLOUT t)) (λ _ w', wired (zlen (wire_ (log_ w))) w') w).
  { destruct Hf as [?|[?|[?|Hf]]]; [left; unfold flushing; tauto..|].
    destruct (decide (writes_ (env_ w) = [])) as [|Hne]; [left; by left|].
    destruct (broken_ (log_ w)) eqn:Hb; [left; right; by left|].
    destruct (decide (EvDown ∈ trace_ (log_ w))) as [|Hup]; [left; right; right; by left|].
    destruct (Z.le_gt_cases (zlen (sent_ (log_ w0))) (zlen (wire_ (log_ w)))) as [|Hlt]; [left; do 3 right; lia|].
    destruct Hw as [(ph & rv & Hl & _)|Hgone]; [|by destruct Hup; apply closed_has_down, Hgone].
    pose proof Hl as (c & Hc & Hs & Hp). specialize (Hs Hb). rewrite app_nil_r in Hs.
    assert (Hlen : zlen (sent_ (log_ w0)) ≤ zlen (sent_ (log_ w))) by (destruct (grown_sent _ _ Hg) as [r ->]; rewrite zlen_app; pose proof (zlen_nonneg r); lia).
    assert (Hout : out_bytes w ≠ []) by (intros E; rewrite Hs, E, app_nil_r in Hlen; lia).
    right. assert (ph = POpen) as ->; [|by eapply poll_grows].
    destruct ph; try done; unfold in_phase, phase_ok in Hp; destruct_and!; [done|destruct Hup; by apply closed_has_down..]. }
  assert (Hgrow : wpf (λ _, True) (run_step ch tid other fd cbs (Poll EPOLLOUT t))
    (λ _ w', flushing w0 n w' ∨ wired (zlen (wire_ (log_ w))) w') w).
  { destruct Hgo as [Hgo|Hgo]; [|eapply wp_mono; [exact Hgo|by right]].
    eapply wp_mono; [by apply (any_step (Poll EPOLLOUT t))|]. intros _ w' [_ Hg']. left. by eapply flushing_grown. }
  eapply wp_mono.
  { apply wp_both; [eapply (run_step_spec ch tid other fd cbs); [done|done|exact Hw|done|done]|].
    apply wp_and; [by apply (any_step (Poll EPOLLOUT t))|exact Hgrow]. }
  cbv beta. intros _ w' ((_ & it' & Hit' & Hw') & (Ha' & Hg') & Hf'). split_and!; [by exists it'|done|done|].
  destruct Hf' as [?|Hwired]; [done|]. unfold wired in Hwired.
  destruct Hf as [Hf|[Hf|[Hf|Hf]]]; [| | |do 3 right; lia].
  all: apply (flushing_grown w0 n w); [unfold flushing; tauto|done].
Qed.

Lemma flushing_steps w0 ts it w :
  settled ch tid fd cbs sends mn it w → well_behaved cbs mn → other ≠ tid → 0 ≤ it → it + zlen ts < 2 ^ 62 →
  any w → grown w0 w → Forall roomy (writes_ (env_ w0)) → flushing w0 (zlen ts) w →
  wpf (λ f, f = LengthError) (for_each (run_step ch tid other fd cbs) (Poll EPOLLOUT <$> ts))
    (λ _ w', grown w0 w' ∧ flushing w0 0 w' ∧ ∃ it', settled ch tid fd cbs sends mn it' w') w.
Proof.
  intros Hw Hcbs Hother. induction ts as [|t ts IH] in it, w, Hw |- *; intros Hit Hlen Ha Hg Hroom Hf; cbn [fmap list_fmap for_each].
  { rewrite wp_ret. split_and!; [done|exact Hf|by exists it]. }
  rewrite zlen_cons in Hlen, Hf. pose proof (zlen_nonneg ts). rewrite wp_bind. eapply wp_mono.
  { apply (flushing_step w0 (zlen ts) t it w); [done|done|done|lia|done|done|by apply Hg|lia|done]. }
  cbv beta. intros _ w1 ((it1 & Hit1 & Hw1) & Ha1 & Hg1 & Hf1). apply (IH it1); try done; [lia|lia|by eapply grown_trans].
Qed.
End flush.

Section theorem.
Context `{Epoll} {Q : Type} `{!ByteQueue Q}.
Context (ch tid other fd : Z) (cbs : Callbacks).

(** C3: buffered output gets out.  From any state a connection can reach, in which [n] bytes wait in the output
    buffer: [n] polls that find the socket writable, with writes that take at least a byte each, bring all that
    was sent so far to the kernel, in order, whatever callbacks send or retrieve meanwhile.  The exceptions are
    that the connection was closed (which drops the buffer), that the kernel's answers ran out, or that a message
    was dropped. *)
Theorem output_flushed holds ws rs steps ts w :
  setting tid other fd cbs holds rs steps → zlen ts < 2 ^ 32 →
  run ch tid other fd cbs steps (world_init (Q := Q) ch tid fd holds ws rs) = Ok (tt, w) →
  Forall roomy (writes_ (env_ w)) → zlen (q_bytes (outputBuffer_ (conn_ w))) ≤ zlen ts →
  wpf (λ f, f = LengthError) (for_each (run_step ch tid other fd cbs) (Poll EPOLLOUT <$> ts))
    (λ _ w', broken_ (log_ w') = false → writes_ (env_ w') ≠ [] → state_ (conn_ w') ≠ KDisconnected →
       (wire_ (log_ w) ++ q_bytes (outputBuffer_ (conn_ w))) `prefix_of` wire_ (log_ w')) w.
Proof.
  intros Hset Hts Hrun Hroom Hlen.
  destruct (run_settled _ _ _ _ _ _ _ _ _ _ Hset Hrun) as [(mn & it & Hcbs & Hit & Hw) _].
  destruct Hset. eapply wp_mono.
  { apply (flushing_steps ch tid other fd cbs (existsb is_send steps) mn w ts it w); try done; [lia|lia|..].
    - by eapply run_any.
    - destruct (broken_ (log_ w)) eqn:Hb; [right; by left|]. do 3 right.
      rewrite (settled_stream _ _ _ _ _ _ _ _ Hw Hb), zlen_app. unfold out_bytes. lia. }
  cbv beta. intros _ w' (Hg & Hf & it' & Hw') Hb Hne Hst.
  assert (Hb0 : broken_ (log_ w) = false) by (destruct (broken_ (log_ w)) eqn:E; [by rewrite (grown_broken _ _ Hg E) in Hb|done]).
  destruct Hf as [?|[?|[Hd|Hlong]]]; [done|congruence|by destruct Hst; eapply settled_down|].
  pose proof (settled_stream _ _ _ _ _ _ _ _ Hw Hb0) as E0. pose proof (settled_stream _ _ _ _ _ _ _ _ Hw' Hb) as E1.
  fold (out_bytes w). rewrite <- E0.
  destruct (prefix_weak_total (sent_ (log_ w)) (wire_ (log_ w')) (sent_ (log_ w'))) as [|Hp]; [by apply Hg|rewrite E1; by apply prefix_app_r|done|].
  rewrite (prefix_length_eq _ _ Hp); [done|]. unfold zlen in Hlong. lia.
Qed.
End theorem.

(** ** An example *)

#[local] Existing Instance map_epoll.

(** The kernel takes a byte of the greeting, then a byte at a time. *)
Definition slow_writes : list write_answer := [WRoom 1; WRoom 1; WRoom 1].
Definition slow_world : World Buffer :=
  match run 100 1 2 7 example_callbacks [Poll 0 1] (world_init 100 1 7 false slow_writes example_reads) with
  | Ok (_, w) => w
  | Fault _ => world_init 100 1 7 false [] []
  end.

Lemma output_flushed_witness :
  wpf (λ f, f = LengthError) (for_each (run_step 100 1 2 7 example_callbacks) (Poll EPOLLOUT <$> [2]))
    (λ _ w', broken_ (log_ w') = false → writes_ (env_ w') ≠ [] → state_ (conn_ w') ≠ KDisconnected →
       (wire_ (log_ slow_world) ++ q_bytes (outputBuffer_ (conn_ slow_world))) `prefix_of` wire_ (log_ w')) slow_world.
Proof.
  apply (output_flushed 100 1 2 7 example_callbacks false slow_writes example_reads [Poll 0 1] [2]).
  - split; [done|exact (example_callbacks_ok _ _ _)|exact I|exact example_kernel| |reflexivity].
    repeat constructor; done.
  - reflexivity.
  - vm_compute. reflexivity.
  - vm_compute. repeat constructor; discriminate.
  - vm_compute. discriminate.
Defined.

(** What it comes to. *)
Example slow_output :
  match for_each (run_step 100 1 2 7 example_callbacks) (Poll EPOLLOUT <$> [2]) slow_world with
  | Ok (_, w) => (wire_ (log_ slow_world), wire_ (log_ w), zlen (writes_ (env_ w)), state_ (conn_ w))
  | Fault _ => ([], [], 0, KConnecting)
  end = (txt "h", txt "hi", 1, KConnected).
Proof. vm_compute. reflexivity. Qed.
