(* ===== verification/SharedLoop.v ===== *)
(** * SharedLoop: connections that share a loop

    The loop of TcpConnection.v has one connection.  Here a loop has any number of them: they join one after the
    other, the kernel reports several at once, their functors wait in one queue, and a descriptor is used again
    when its connection has been destroyed.  Each connection runs the code of TcpConnection.v on the whole loop,
    with its poller and all its channels.  The theorem is that they do not interfere: what happens to a
    connection is what would happen to it alone. *)
From S2P Require Import Prelude Timestamp Buffer ByteQueue Channel EPollPoller EventLoop TcpConnection ConnInvariant ConnSafety ConnLocality.

(** ** Data

    A functor or a callback of a channel is bound to a connection, which is named by the address of its channel. *)

Section channel_map.
Context {A B : Type} (f : A → B).
Definition channel_map (c : Channel A) : Channel B :=
  mkChannel (fd_ c) (events_ c) (revents_ c) (index_ c) (logHup_ c) (tie_ c) (tied_ c) (Channel.eventHandling_ c)
    (addedToLoop_ c) (f <$> readCallback_ c) (f <$> writeCallback_ c) (f <$> Channel.closeCallback_ c) (f <$> errorCallback_ c).
End channel_map.

(** What of a queue is bound to [i]. *)
Definition mine {A} (i : Z) (q : list (Z * A)) : list A := omap (λ e, if decide (e.1 = i) then Some e.2 else None) q.
Arguments mine : simpl never.

Section shared.
Context `{Epoll} {Q : Type} `{!ByteQueue Q}.

(** A connection with its descriptor, its callbacks, its surroundings and its log. *)
Record Member : Type := mkMember {
  fd_of : Z;
  cbs_of : Callbacks;
  member_conn : TcpConnection Q;
  member_env : Outside;
  member_log : Log
}.

Record Shared : Type := mkShared {
  base_ : EventLoop (Z * functor);
  members_ : gmap Z Member
}.

#[export, refine] Instance shared_loop : HasLoop (Z * functor) Shared := {|
  loop_of := base_;
  set_loop l S := mkShared l (members_ S)
|}.
Proof.
  - done.
  - by intros [].
  - done.
Defined.

(** *** The loop as a connection sees it, and as it leaves it *)

Definition unbound (p : EPollPoller (Z * functor)) : EPollPoller functor :=
  mkPoller (channel_map snd <$> heap_ p) (channels_ p) (epollfd_ p) (eventsSize_ p).
Definition bound (p : EPollPoller functor) : EPollPoller (Z * functor) :=
  mkPoller (map_imap (λ a c, Some (channel_map (pair a) c)) (heap_ p)) (channels_ p) (epollfd_ p) (eventsSize_ p).

Definition seen (i : Z) (l : EventLoop (Z * functor)) : EventLoop functor :=
  mkEventLoop (looping_ l) (quit_ l) (EventLoop.eventHandling_ l) (callingPendingFunctors_ l) (iteration_ l) (threadId_ l)
    (pollReturnTime_ l) (unbound (poller_ l)) (activeChannels_ l) (currentActiveChannel_ l)
    (mine i (pendingFunctors_ l)) (wakeups_ l).
(** What the connection has queued goes behind all that was queued. *)
Definition left_by (i : Z) (l : EventLoop (Z * functor)) (l' : EventLoop functor) : EventLoop (Z * functor) :=
  mkEventLoop (looping_ l') (quit_ l') (EventLoop.eventHandling_ l') (callingPendingFunctors_ l') (iteration_ l') (threadId_ l')
    (pollReturnTime_ l') (bound (poller_ l')) (activeChannels_ l') (currentActiveChannel_ l')
    (pendingFunctors_ l ++ (pair i <$> drop (length (mine i (pendingFunctors_ l))) (pendingFunctors_ l'))) (wakeups_ l').

Definition view (i : Z) (x : Member) (S : Shared) : World Q :=
  mkWorld (seen i (base_ S)) (member_conn x) (member_env x) (member_log x).

(** A call on connection [i]. *)
Definition on_connection {A} (i : Z) (m : Member → prog (World Q) A) : prog Shared A := λ S,
  match members_ S !! i with
  | None => Fault UndefinedBehaviour
  | Some x =>
      match m x (view i x S) with
      | Ok (a, w) => Ok (a, mkShared (left_by i (base_ S) (loop_ w))
                              (<[i := mkMember (fd_of x) (cbs_of x) (conn_ w) (env_ w) (log_ w)]> (members_ S)))
      | Fault f => Fault f
      end
  end.

(** ** Steps *)

Context (tid other : Z).

Definition exec_of (f : Z * functor) : prog Shared () := on_connection f.1 (λ x, exec f.1 tid (cbs_of x) f.2).
Definition exec_read_of (f : Z * functor) (t : Timestamp) : prog Shared () :=
  on_connection f.1 (λ x, exec_read f.1 tid (cbs_of x) f.2 t).
Definition alive_of (i : Z) (S : Shared) : bool :=
  match members_ S !! i with Some x => negb (freed_ (member_env x)) | None => false end.

(** What [epoll_wait] reports when [r] happened on the socket [fd]. *)
Definition reported_on (S : Shared) (e : Z * Z) : list (Z * Z) :=
  match interest (epollfd_ (poller_ (base_ S))) !! e.1 with
  | Some (c, ev) => let r := Z.land e.2 (Z.lor ev (Z.lor EPOLLERR EPOLLHUP)) in if r =? 0 then [] else [(c, r)]
  | None => []
  end.

(** An iteration of the loop, at the end of which connections to which no pointer is left are destroyed. *)
Definition poll_shared (rs : list (Z * Z)) (t : Timestamp) : prog Shared () :=
  S ← get;
  iteration alive_of exec_of exec_read_of other (mkPollInput [] false (Some (rs ≫= reported_on S)) t) ;;
  S ← get;
  for_each (λ e, on_connection e.1 (λ _, release e.1)) (map_to_list (const tt <$> members_ S)).

(** A new connection: its descriptor, the callbacks set on it, whether another thread will hold it, and what the
    kernel will answer. *)
Record Newcomer : Type := mkNewcomer {
  new_fd : Z;
  new_cbs : Callbacks;
  new_holds : bool;
  new_writes : list write_answer;
  new_reads : list (list Z → readv_answer)
}.

(** The address is new, and the descriptor is not open: no connection has it that still exists. *)
Definition fresh (i fd : Z) (S : Shared) : Prop :=
  members_ S !! i = None ∧ map_Forall (λ _ x, freed_ (member_env x) = true ∨ fd_of x ≠ fd) (members_ S).

#[export] Instance fresh_dec i fd S : Decision (fresh i fd S).
Proof. unfold fresh. apply _. Defined.

Definition joined (i : Z) (o : Newcomer) (S : Shared) : Shared :=
  let p := poller_ (base_ S) in
  mkShared (set_poller (set_heap (<[i := channel_map (pair i) (conn_channel (new_fd o))]> (heap_ p)) p) (base_ S))
    (<[i := mkMember (new_fd o) (new_cbs o) TcpConnection_init
              (mkOutside true 0 (new_holds o) false (new_writes o) (new_reads o)) (mkLog [] [] [] false [] [])]> (members_ S)).

Inductive happening : Type :=
| Joins (i : Z) (o : Newcomer)                  (** a connection is made and established *)
| Does (i : Z) (s : step)                       (** another thread, or the server, does something to one *)
| Polled (rs : list (Z * Z)) (t : Timestamp).   (** an iteration: what happened on which socket *)

Definition is_poll (s : step) : bool := match s with Poll _ _ => true | _ => false end.

Definition happen (h : happening) : prog Shared () :=
  match h with
  | Joins i o =>
      S ← get;
      when_ (bool_decide (fresh i (new_fd o) S))
        (put (joined i o S) ;; on_connection i (λ x, establish i tid other (cbs_of x)))
  | Does i s =>
      S ← get;
      when_ (bool_decide (is_Some (members_ S !! i)) && negb (is_poll s))
        (on_connection i (λ x, run_step i tid other (fd_of x) (cbs_of x) s))
  | Polled rs t => poll_shared rs t
  end.

Definition shared_run (hs : list happening) : prog Shared () := for_each happen hs.
Definition shared_init : Shared := mkShared (EventLoop_init tid (EPollPoller_init ∅)) ∅.

(** ** What a connection sees of them *)

Definition steps_in (i fd : Z) (h : happening) : list step :=
  match h with
  | Joins _ _ => []
  | Does j s => if decide (j = i) then if is_poll s then [] else [s] else []
  | Polled rs t => [Poll (default 0 ((list_to_map rs : gmap Z Z) !! fd)) t]
  end.
Definition steps_for (i fd : Z) (hs : list happening) : list step := hs ≫= steps_in i fd.
End shared.
Arguments Member : clear implicits.
Arguments Shared {_} Q.

(** ** The loop as seen and as left *)

Lemma channel_map_id {A B} (f : A → B) (g : B → A) (c : Channel A) :
  (∀ a, g (f a) = a) → channel_map g (channel_map f c) = c.
Proof.
  intros Hg. destruct c. unfold channel_map. cbn. f_equal; rewrite <- option_fmap_compose;
    by match goal with |- _ <$> ?o = ?o => destruct o; cbn; [by rewrite Hg|] end.
Qed.

Lemma mine_app {A} i (q1 q2 : list (Z * A)) : mine i (q1 ++ q2) = mine i q1 ++ mine i q2.
Proof. apply omap_app. Qed.
Lemma mine_pair {A} i (q : list A) : mine i (pair i <$> q) = q.
Proof. induction q as [|a q IH]; [done|]. unfold mine in *. cbn. rewrite decide_True by done. by rewrite IH. Qed.
Lemma mine_other {A} i j (q : list A) : i ≠ j → mine i (pair j <$> q) = [].
Proof. intros Hne. induction q as [|a q IH]; [done|]. unfold mine in *. cbn. by rewrite decide_False by congruence. Qed.
Lemma mine_cons {A} i (e : Z * A) q : mine i (e :: q) = if decide (e.1 = i) then e.2 :: mine i q else mine i q.
Proof. unfold mine. cbn. by case_decide. Qed.

Section views.
Context `{Epoll} {Q : Type} `{!ByteQueue Q}.

Lemma unbound_bound (p : EPollPoller functor) : unbound (bound p) = p.
Proof.
  unfold unbound, bound. destruct p as [h c e n]. cbn. f_equal. apply map_eq. intros a.
  rewrite lookup_fmap, map_lookup_imap. destruct (h !! a) as [d|]; cbn; [|done]. by rewrite channel_map_id.
Qed.

Lemma heap_bound (p : EPollPoller functor) a : heap_ (bound p) !! a = channel_map (pair a) <$> heap_ p !! a.
Proof. cbn. rewrite map_lookup_imap. by destruct (heap_ p !! a). Qed.

(** What a connection sees after a call on it, when the call only added to the queue. *)
Lemma seen_left i (l : EventLoop (Z * functor)) (l' : EventLoop functor) p n q :
  l' = set_wakeups n (set_pending (pendingFunctors_ (seen i l) ++ q) (set_poller p (seen i l))) →
  seen i (left_by i l l') = l' ∧
  left_by i l l' = set_wakeups n (set_pending (pendingFunctors_ l ++ (pair i <$> q)) (set_poller (bound p) l)).
Proof.
  intros ->. unfold seen, left_by. cbn. rewrite drop_app_length. split; [|done].
  rewrite mine_app, mine_pair, unbound_bound. by destruct l.
Qed.
End views.

(** ** The parts of an iteration *)

Section iteration.
Context `{Epoll} {F W : Type} `{!HasLoop F W}.
Context (alive : Z → W → bool) (exec : F → prog W ()) (exec_read : F → Timestamp → prog W ()) (other : Z).

Lemma on_loop_modify_run {A} f (k : () → prog W A) (w : W) :
  (on_loop (modify f) ≫= k) w = k tt (set_loop (f (loop_of w)) w).
Proof. done. Qed.
Lemma on_loop_bind {A B} (m : prog (EventLoop F) A) (k : A → prog (EventLoop F) B) (w : W) :
  on_loop (m ≫= k) w = (on_loop m ≫= λ a, on_loop (k a)) w.
Proof.
  unfold on_loop, mbind, prog_bind. destruct (m (loop_of w)) as [[a l]|f]; [|done]. rewrite loop_of_set.
  destruct (k a l) as [[b l']|]; [|done]. by rewrite set_loop_set.
Qed.
Lemma on_poller_bind {A B} (m : prog (EPollPoller F) A) (k : A → prog (EPollPoller F) B) l :
  on_poller (m ≫= k) l = (on_poller m ≫= λ a, on_poller (k a)) l.
Proof. unfold on_poller, mbind, prog_bind. destruct (m (poller_ l)) as [[a p]|f]; [|done]. cbn. by destruct (k a p) as [[]|]. Qed.

(** The poll stores what is reported in one channel after the other. *)
Definition store (e : Z * Z) : prog W () := on_loop (on_poller (modify_channel e.1 (set_revents e.2))).

Definition sized (es : list (Z * Z)) (p : EPollPoller F) : EPollPoller F :=
  match es with
  | [] => p
  | _ => if zlen es =? eventsSize_ p then set_eventsSize (eventsSize_ p * 2) p else p
  end.

Lemma fill_run es (w : W) :
  on_loop (on_poller (fillActiveChannels es)) w =
    match for_each store es w with Ok (_, w') => Ok (es.*1, w') | Fault f => Fault f end.
Proof.
  induction es as [|[a r] es IH] in w |- *; cbn [fillActiveChannels for_each].
  - unfold on_loop, on_poller. cbn. replace (set_poller (poller_ (loop_of w)) (loop_of w)) with (loop_of w) by (by destruct (loop_of w)).
    by rewrite set_loop_of.
  - transitivity ((store (a, r) ;; l ← on_loop (on_poller (fillActiveChannels es)); mret (a :: l)) w).
    + unfold store, on_loop, on_poller, mbind, prog_bind. cbn [fst snd].
      destruct (modify_channel a (set_revents r) (poller_ (loop_of w))) as [[[] p]|]; [|done]. rewrite loop_of_set. cbn [poller_ set_poller].
      destruct (fillActiveChannels es p) as [[l p']|]; [|done]. cbn. by rewrite set_loop_set.
    + unfold mbind, prog_bind. cbn. destruct (store (a, r) w) as [[[] w1]|]; [|done]. rewrite IH.
      by destruct (for_each store es w1) as [[]|].
Qed.

Lemma poll_run es (w : W) :
  on_loop (on_poller (poll (Some es))) w =
    match for_each store es w with
    | Ok (_, w') => Ok (es.*1, set_loop (set_poller (sized es (poller_ (loop_of w'))) (loop_of w')) w')
    | Fault f => Fault f
    end.
Proof.
  destruct es as [|e es]; [done|]. pose proof (fill_run (e :: es) w) as Hf. set (es' := e :: es) in *.
  change (poll (Some es')) with (active ← fillActiveChannels es';
    modify (λ p : EPollPoller F, if zlen es' =? eventsSize_ p then set_eventsSize (eventsSize_ p * 2) p else p) ;; mret active).
  change (sized es') with (λ p : EPollPoller F, if zlen es' =? eventsSize_ p then set_eventsSize (eventsSize_ p * 2) p else p).
  unfold on_loop, on_poller, mbind, prog_bind in *. destruct (fillActiveChannels es' (poller_ (loop_of w))) as [[l p]|].
  - destruct (for_each store es' w) as [[[] w']|]; [|done]. injection Hf as -> <-. rewrite loop_of_set. cbn. by rewrite set_loop_set.
  - by destruct (for_each store es' w) as [[[] w']|].
Qed.

(** What the loop is between the poll and the handlers, and between the handlers and the functors. *)
Definition polled (es : list (Z * Z)) (t : Timestamp) (l : EventLoop F) : EventLoop F :=
  prepared t es.*1 (iteration_ l + 1) (set_poller (sized es (poller_ l)) l).
Definition leaving (l : EventLoop F) : EventLoop F :=
  set_pending [] (set_callingPending true (EventLoop.set_eventHandling false (set_current None l))).

Lemma prepare_run t active (m : prog W ()) (w : W) :
  0 ≤ iteration_ (loop_of w) < 2 ^ 62 →
  (on_loop (modify (set_active active)) ;; on_loop (modify (set_pollReturnTime t)) ;;
   l ← on_loop get; n ← lift (checked 64 (iteration_ l + 1));
   on_loop (modify (set_iteration n)) ;; on_loop (modify (EventLoop.set_eventHandling true)) ;; m) w =
  m (set_loop (prepared t active (iteration_ (loop_of w) + 1) (loop_of w)) w).
Proof.
  intros Hit. rewrite !on_loop_modify_run. unfold mbind, prog_bind. unfold on_loop at 1. cbn [get].
  rewrite !set_loop_of, !loop_of_set, !set_loop_set. cbn [iteration_ set_pollReturnTime set_active].
  rewrite checked_64_ok by lia. cbn. by rewrite !loop_of_set, !set_loop_set.
Qed.

Lemma leave_run (w : W) :
  (on_loop (modify (set_current None)) ;; on_loop (modify (EventLoop.set_eventHandling false)) ;; doPendingFunctors exec) w =
  (for_each exec (pendingFunctors_ (loop_of w)) ;; on_loop (modify (set_callingPending false)))
    (set_loop (leaving (loop_of w)) w).
Proof.
  rewrite !on_loop_modify_run. unfold doPendingFunctors. rewrite on_loop_modify_run, !loop_of_set, !set_loop_set.
  unfold mbind at 1, prog_bind at 1. unfold on_loop at 1. cbn [gets]. rewrite !set_loop_of, !loop_of_set. cbn [pendingFunctors_].
  by rewrite on_loop_modify_run, !loop_of_set, !set_loop_set.
Qed.

Lemma store_run es (w w1 : W) :
  for_each store es w = Ok (tt, w1) → ∃ p, w1 = set_loop (set_poller p (loop_of w)) w.
Proof.
  induction es as [|e es IH] in w |- *; cbn [for_each].
  - intros [= <-]. exists (poller_ (loop_of w)). replace (set_poller (poller_ (loop_of w)) (loop_of w)) with (loop_of w) by (by destruct (loop_of w)).
    by rewrite set_loop_of.
  - unfold mbind, prog_bind. unfold store at 1. unfold on_loop, on_poller.
    destruct (modify_channel _ _ _) as [[[] p]|]; [|done]. intros (p' & ->)%IH. exists p'. by rewrite loop_of_set, set_loop_set.
Qed.

(** Nothing arrives while the loop polls. *)
Lemma iteration_run es t (w : W) :
  0 ≤ iteration_ (loop_of w) < 2 ^ 62 →
  iteration alive exec exec_read other (mkPollInput [] false (Some es) t) w =
    match for_each store es (set_loop (set_active [] (loop_of w)) w) with
    | Ok (_, w1) =>
        (for_each (handle_active alive exec exec_read) es.*1 ;;
         on_loop (modify (set_current None)) ;; on_loop (modify (EventLoop.set_eventHandling false)) ;; doPendingFunctors exec)
          (set_loop (polled es t (loop_of w1)) w1)
    | Fault f => Fault f
    end.
Proof.
  intros Hit. unfold iteration. rewrite on_loop_modify_run. set (w0 := set_loop (set_active [] (loop_of w)) w).
  unfold mbind at 1, prog_bind at 1. unfold on_loop at 1. change (arrivals other _ (loop_of w0)) with (Ok (tt, loop_of w0) : outcome (() * EventLoop F)).
  cbv iota beta. rewrite set_loop_of. unfold mbind at 1, prog_bind at 1. cbn [answer returned_at]. rewrite poll_run.
  destruct (for_each store es w0) as [[[] w1]|] eqn:Hst; [|done]. apply store_run in Hst as (p & ->). unfold w0.
  rewrite prepare_run; rewrite ?loop_of_set; [|exact Hit]. by rewrite !set_loop_set.
Qed.

(** The same for assertions. *)
Definition after_poll (es : list (Z * Z)) : prog W () :=
  for_each (handle_active alive exec exec_read) es.*1 ;;
  on_loop (modify (set_current None)) ;; on_loop (modify (EventLoop.set_eventHandling false)) ;; doPendingFunctors exec.

Lemma iteration_wp E es t R (w : W) :
  0 ≤ iteration_ (loop_of w) < 2 ^ 62 →
  wpf E (iteration alive exec exec_read other (mkPollInput [] false (Some es) t)) R w =
  wpf E (for_each store es) (λ _ w1, wpf E (after_poll es) R (set_loop (polled es t (loop_of w1)) w1))
    (set_loop (set_active [] (loop_of w)) w).
Proof. intros Hit. unfold wpf. rewrite iteration_run by done. by destruct (for_each store es _) as [[[] w1]|]. Qed.
Lemma leave_wp E R (w : W) :
  wpf E (on_loop (modify (set_current None)) ;; on_loop (modify (EventLoop.set_eventHandling false)) ;; doPendingFunctors exec) R w =
  wpf E (for_each exec (pendingFunctors_ (loop_of w)))
    (λ _ w', R tt (set_loop (set_callingPending false (loop_of w')) w')) (set_loop (leaving (loop_of w)) w).
Proof. unfold wpf. rewrite leave_run. unfold mbind, prog_bind. by destruct (for_each exec _ _) as [[[] w1]|]. Qed.
End iteration.

Lemma for_each_fmap {S A B} (f : B → prog S ()) (g : A → B) xs : for_each f (g <$> xs) = for_each (λ a, f (g a)) xs.
Proof. induction xs as [|x xs IH]; [done|]. cbn. by rewrite IH. Qed.

Lemma sized_same {F} `{Epoll} es (p : EPollPoller F) :
  heap_ (sized es p) = heap_ p ∧ channels_ (sized es p) = channels_ p ∧ epollfd_ (sized es p) = epollfd_ p.
Proof. unfold sized. destruct es; [done|]. by destruct (_ =? _). Qed.

Lemma mine_unique {A} i x (l : list (Z * A)) : NoDup l.*1 → (i, x) ∈ l → mine i l = [x].
Proof.
  assert (Hnone : ∀ l : list (Z * A), i ∉ l.*1 → mine i l = []).
  { clear l. induction l as [|e l IH]; [done|]. cbn. rewrite not_elem_of_cons. intros [Hne Hn].
    by rewrite mine_cons, decide_False, IH by done. }
  induction l as [|e l IH]; [by intros _ ?%elem_of_nil|]. cbn. intros [Hn Hnd]%list.NoDup_cons [<-|Hin]%elem_of_cons; rewrite mine_cons; cbn.
  - by rewrite decide_True, Hnone.
  - rewrite decide_False; [by apply IH|]. intros E. apply Hn. rewrite E. apply list_elem_of_fmap. by exists (i, x).
Qed.
