(* ===== verification/Following.v ===== *)
(** * Following: a shared loop follows its connections

    [joint] relates a loop of several connections to worlds in which each of them is alone.  Whatever a connection
    does to the shared loop, a functor, a callback of its channel, a step of another thread, its destruction, it
    does to its own world ([does]); what the loop does to all of them, an iteration, it does to each
    ([poll_together]). *)
From S2P Require Import Prelude Timestamp Buffer ByteQueue Channel EPollPoller EventLoop TcpConnection ConnInvariant ConnSafety ConnLocality SharedLoop.

(** ** The loop and the connections, each alone *)

Section follow.
Context `{Epoll} {Q : Type} `{!ByteQueue Q}.
Context (tid other : Z) (Hother : other ≠ tid).
Context (fds : Z → Z) (calls : Z → Callbacks).
Implicit Types (S : Shared Q) (w : World Q) (ws : gmap Z (World Q)).

(** Each member is alike to a world in which it is alone.  [busy]: the loop handles events; [n]: its iterations. *)
Record joint (busy : bool) (n : Z) S ws : Prop := {
  joint_wf : poller_wf (unbound (poller_ (base_ S)));
  joint_thread : threadId_ (base_ S) = tid;
  joint_busy : EventLoop.eventHandling_ (base_ S) = busy;
  joint_iter : iteration_ (base_ S) = n;
  joint_bound a c : heap_ (poller_ (base_ S)) !! a = Some c →
    is_Some (members_ S !! a) ∧ channel_map (pair a) (channel_map snd c) = c;
  joint_queue e : e ∈ pendingFunctors_ (base_ S) → is_Some (members_ S !! e.1);
  joint_dom i : is_Some (members_ S !! i) ↔ is_Some (ws !! i);
  joint_info i x : members_ S !! i = Some x → fd_of x = fds i ∧ cbs_of x = calls i;
  joint_alike i x w : members_ S !! i = Some x → ws !! i = Some w → alike i tid (fds i) (view i x S) w;
  joint_small i w : ws !! i = Some w → 0 ≤ iteration_ (loop_ w) ≤ n;
  joint_alone i w a : ws !! i = Some w → a ≠ i → heap_ (poller_ (loop_ w)) !! a = None;
  joint_fd i j x y : members_ S !! i = Some x → members_ S !! j = Some y → i ≠ j →
    freed_ (member_env x) = false → freed_ (member_env y) = false → fds i ≠ fds j
}.

(** The handler of connection [i] is running, or no handler is. *)
Definition at_work (busy : bool) i S w : Prop :=
  busy = true → currentActiveChannel_ (base_ S) = Some i ∧ currentActiveChannel_ (loop_ w) = Some i.

(** Something done on the shared loop is what [m] does to connection [i] alone. *)
Definition follows {A} busy n (i : Z) (M : prog (Shared Q) A) (m : prog (World Q) A) S ws w : Prop :=
  match m w with
  | Ok (a, w') => ∃ S', M S = Ok (a, S') ∧ joint busy n S' (<[i := w']> ws) ∧ (at_work busy i S w → at_work busy i S' w')
  | Fault f => M S = Fault f
  end.

Lemma beside_current i fd w w' : beside i fd w w' → currentActiveChannel_ (loop_ w') = currentActiveChannel_ (loop_ w).
Proof. intros [(p & n & q & ->) _ _ _]. done. Qed.
Lemma beside_iteration i fd w w' : beside i fd w w' → iteration_ (loop_ w') = iteration_ (loop_ w).
Proof. intros [(p & n & q & ->) _ _ _]. done. Qed.

(** A call that changes nothing outside of the connection's part. *)
Lemma view_left i x S w1 :
  beside i (fds i) (view i x S) w1 →
  let S' := mkShared (left_by i (base_ S) (loop_ w1))
              (<[i := mkMember (fd_of x) (cbs_of x) (conn_ w1) (env_ w1) (log_ w1)]> (members_ S)) in
  view i (mkMember (fd_of x) (cbs_of x) (conn_ w1) (env_ w1) (log_ w1)) S' = w1 ∧
  ∃ n q, base_ S' = set_wakeups n (set_pending (pendingFunctors_ (base_ S) ++ (pair i <$> q))
                      (set_poller (bound (poller_ (loop_ w1))) (base_ S))).
Proof.
  intros [(p & n & q & E) _ _ _] S'. destruct (seen_left i (base_ S) (loop_ w1) p n q E) as [E1 E2].
  split; [unfold view, S'; cbn; rewrite E1; by destruct w1|]. exists n, q. unfold S'. cbn [base_]. rewrite E2. by rewrite E.
Qed.

(** Another connection is as before. *)
Lemma view_other i j x y S w1 w :
  beside i (fds i) (view i x S) w1 → poller_wf (poller_ (loop_ w1)) → i ≠ j →
  (freed_ (member_env x) = false → freed_ (member_env y) = false → fds i ≠ fds j) →
  alike j tid (fds j) (view j y S) w →
  alike j tid (fds j) (view j y (mkShared (left_by i (base_ S) (loop_ w1))
    (<[i := mkMember (fd_of x) (cbs_of x) (conn_ w1) (env_ w1) (log_ w1)]> (members_ S)))) w.
Proof.
  intros Hb Hwf Hne Hfd Ha. destruct (view_left i x S w1 Hb) as (_ & n & q & E). cbn [base_] in E.
  destruct Ha as [A1 A2 A3 A4 A5 A6 A7 [_ A8] A9]. unfold view in *. cbn [base_ loop_ conn_ env_ log_] in *. rewrite E.
  set (l' := seen j _). assert (Ep : poller_ l' = poller_ (loop_ w1)) by apply unbound_bound.
  constructor; try done; cbn [loop_ env_]; rewrite ?Ep.
  - cbn in *. by rewrite mine_app, mine_other, app_nil_r.
  - done.
  - cbn in A9. clearbody l'. pose proof (beside_heap _ _ _ _ Hb j ltac:(done)) as Eh. cbn in Eh. unfold same_channel in *. cbn in *.
    destruct (freed_ (member_env y)) eqn:Hy; [by rewrite Eh|].
    assert (Ec : channels_ (poller_ (loop_ w1)) !! fds j = channels_ (poller_ (base_ S)) !! fds j).
    { destruct (freed_ (member_env x)) eqn:Hx.
      - by destruct (beside_freed _ _ _ _ Hb Hx) as [-> _].
      - pose proof (beside_channels _ _ _ _ Hb (fds j)) as C. cbn in C. apply C. intros Ej. by apply Hfd. }
    rewrite Ec, Eh. destruct A9 as (? & c & Hc1 & Hc2 & []). split; [done|]. exists c. split_and!; [done..|].
    constructor; try done. by rewrite Ec.
Qed.

Lemma on_connection_follows {A} i (M : Member Q → prog (World Q) A) (m : prog (World Q) A) busy n S ws x w :
  joint busy n S ws → members_ S !! i = Some x → ws !! i = Some w →
  agreed i (fds i) (alike i tid (fds i)) (M x (view i x S)) (m w) (view i x S) w →
  follows busy n i (on_connection i M) m S ws w.
Proof.
  intros Hj Hx Hw Hm. unfold follows, on_connection. rewrite Hx. unfold agreed in Hm.
  destruct (M x (view i x S)) as [[a w1]|f], (m w) as [[a' w']|f']; try done; [|by subst].
  destruct Hm as (-> & Ha & B1 & B2). eexists. split; [done|].
  destruct (view_left i x S w1 B1) as (Ev & k & q & Eb). cbv zeta in Ev. cbn [base_] in Eb.
  pose proof (beside_current _ _ _ _ B2) as Ec.
  assert (Hwf : poller_wf (poller_ (loop_ w1))) by apply Ha.
  pose proof Hj as [J1 J2 J3 J4 J5 J6 J7 J8 J9 J10 J11 J12].
  split; [|unfold at_work; by rewrite Ec, Eb]. constructor; cbn [members_ base_]; try (rewrite Eb; cbn; done).
  - rewrite Eb. cbn. by rewrite unbound_bound.
  - intros b c. rewrite Eb. cbn [poller_ set_wakeups set_pending set_poller]. rewrite heap_bound. intros (d & Hd & ->)%fmap_Some.
    split; [|by rewrite (channel_map_id (pair b) snd)]. apply lookup_insert_is_Some. destruct (decide (i = b)) as [|Hne]; [by left|right].
    split; [done|]. pose proof (beside_heap _ _ _ _ B1 b ltac:(congruence)) as Eh. cbn in Eh. rewrite lookup_fmap in Eh.
    rewrite Eh in Hd. apply fmap_Some in Hd as (d' & Hd' & _). by eapply J5.
  - intros e. rewrite Eb. cbn. intros [He|He]%elem_of_app; apply lookup_insert_is_Some.
    + destruct (decide (i = e.1)); [by left|right]. split; [done|]. by apply J6.
    + left. apply list_elem_of_fmap in He as (f & -> & _). done.
  - intros j. rewrite !lookup_insert_is_Some, J7. done.
  - intros j y [[<- <-]|[_ Hy]]%lookup_insert_Some; [by apply (J8 i x)|by apply J8].
  - intros j y v [[<- <-]|[Hne Hy]]%lookup_insert_Some [[? <-]|[Hne' Hv]]%lookup_insert_Some; try done.
    + by rewrite Ev.
    + apply view_other; try done; [|by eapply J9]. intros. by eapply (J12 i j x y).
  - intros j v [[_ <-]|[_ Hv]]%lookup_insert_Some; [|by eapply J10].
    rewrite (beside_iteration _ _ _ _ B2). by eapply J10.
  - intros j v a [[<- <-]|[_ Hv]]%lookup_insert_Some Hne; [|by eapply J11].
    rewrite (beside_heap _ _ _ _ B2) by done. by eapply J11.
  - assert (Hold : ∀ j y, <[i := mkMember (fd_of x) (cbs_of x) (conn_ w1) (env_ w1) (log_ w1)]> (members_ S) !! j = Some y →
      freed_ (member_env y) = false → ∃ z, members_ S !! j = Some z ∧ freed_ (member_env z) = false).
    { intros j y [[<- <-]|[_ Hy]]%lookup_insert_Some Hfr; [|by exists y]. exists x. split; [done|].
      destruct (freed_ (member_env x)) eqn:Hfx; [|done]. destruct (beside_freed _ _ _ _ B1 Hfx) as [_ Ht]. cbn in Hfr. congruence. }
    intros j1 j2 y1 y2 H1 H2 Hne F1 F2. destruct (Hold _ _ H1 F1) as (z1 & ? & ?), (Hold _ _ H2 F2) as (z2 & ? & ?).
    by apply (J12 j1 j2 z1 z2).
Qed.

(** *** The channel *)

Lemma joint_working busy n S ws i x w :
  joint busy n S ws → members_ S !! i = Some x → ws !! i = Some w → at_work busy i S w → freed_ (member_env x) = false →
  working i tid (fds i) (view i x S) w.
Proof. intros Hj Hx Hw Hat Hf. constructor; [by eapply joint_alike|done|]. cbn. rewrite (joint_busy _ _ _ _ Hj). exact Hat. Qed.

Lemma joint_member busy n S ws i w :
  joint busy n S ws → ws !! i = Some w → ∃ x, members_ S !! i = Some x ∧ member_env x = env_ w ∧
    fd_of x = fds i ∧ cbs_of x = calls i.
Proof.
  intros Hj Hw. destruct (proj2 (joint_dom _ _ _ _ Hj i)) as [x Hx]; [by exists w|]. exists x. split; [done|].
  split; [by apply (alike_env _ _ _ _ _ (joint_alike _ _ _ _ Hj _ _ _ Hx Hw))|by eapply joint_info].
Qed.

(** Its two forms: bound to the connection, and as the connection alone has it. *)
Lemma joint_channel busy n S ws i w :
  joint busy n S ws → ws !! i = Some w →
  heap_ (poller_ (base_ S)) !! i = channel_map (pair i) <$> heap_ (poller_ (loop_ w)) !! i ∧
  (freed_ (env_ w) = true → heap_ (poller_ (loop_ w)) !! i = None) ∧
  (∀ c, heap_ (poller_ (loop_ w)) !! i = Some c → tie_ c = None ∨ tie_ c = Some i).
Proof.
  intros Hj Hw. destruct (joint_member _ _ _ _ _ _ Hj Hw) as (x & Hx & Ee & _).
  pose proof (alike_channel _ _ _ _ _ (joint_alike _ _ _ _ Hj _ _ _ Hx Hw)) as Hc. unfold same_channel in Hc. cbn in Hc.
  rewrite Ee in Hc. assert (E : channel_map snd <$> heap_ (poller_ (base_ S)) !! i = heap_ (poller_ (loop_ w)) !! i ∧
    (freed_ (env_ w) = true → heap_ (poller_ (loop_ w)) !! i = None) ∧
    (∀ c, heap_ (poller_ (loop_ w)) !! i = Some c → tie_ c = None ∨ tie_ c = Some i)).
  { rewrite lookup_fmap in Hc. destruct (freed_ (env_ w)); [destruct Hc as [-> ->]; by split_and!|].
    destruct Hc as (_ & c & -> & -> & []). split_and!; [done..|]. by intros c' [= <-]. }
  destruct E as (<- & Hn & Htie). split; [|done]. destruct (heap_ (poller_ (base_ S)) !! i) as [c|] eqn:Hc'; [|done]. cbn.
  by destruct (joint_bound _ _ _ _ Hj _ _ Hc') as [_ ->].
Qed.

Lemma in_channel_at {F W} `{HasLoop F W} a (w : W) :
  on_loop (on_poller (channel_at a)) w =
    match heap_ (poller_ (loop_of w)) !! a with Some c => Ok (c, w) | None => Fault UndefinedBehaviour end.
Proof.
  unfold on_loop, on_poller, channel_at. unfold mbind, prog_bind. cbn. destruct (heap_ _ !! a) as [c|]; [|done]. cbn.
  replace (set_poller (poller_ (loop_of w)) (loop_of w)) with (loop_of w) by (by destruct (loop_of w)). by rewrite set_loop_of.
Qed.

Lemma in_modify_channel {F W} `{HasLoop F W} a f (w : W) :
  on_loop (on_poller (modify_channel a f)) w =
    match heap_ (poller_ (loop_of w)) !! a with
    | Some c => Ok (tt, set_loop (set_poller (set_heap (<[a := f c]> (heap_ (poller_ (loop_of w)))) (poller_ (loop_of w))) (loop_of w)) w)
    | None => Fault UndefinedBehaviour
    end.
Proof.
  unfold on_loop, on_poller, modify_channel, channel_at. unfold mbind, prog_bind. cbn. by destruct (heap_ _ !! a) as [c|].
Qed.

(** A change of the channel that does not touch its callbacks is one that the connection makes. *)
Lemma modify_follows busy n S ws i w (F : Channel (Z * functor) → Channel (Z * functor)) (f : Channel functor → Channel functor) :
  joint busy n S ws → ws !! i = Some w → at_work busy i S w →
  (∀ c, F (channel_map (pair i) c) = channel_map (pair i) (f c)) →
  (∀ c, fd_ (f c) = fd_ c ∧ index_ (f c) = index_ c ∧ events_ (f c) = events_ c ∧ addedToLoop_ (f c) = addedToLoop_ c ∧
     (tie_ (f c) = tie_ c ∨ tie_ (f c) = Some i)) →
  follows busy n i (on_loop (on_poller (modify_channel i F))) (on_loop (on_poller (modify_channel i f))) S ws w.
Proof.
  intros Hj Hw Hat HF Hf. destruct (joint_member _ _ _ _ _ _ Hj Hw) as (x & Hx & Ee & _).
  destruct (joint_channel _ _ _ _ _ _ Hj Hw) as (Hc & Hn & _).
  destruct (heap_ (poller_ (loop_ w)) !! i) as [c|] eqn:Hcw; cbn in Hc.
  2:{ unfold follows. rewrite !in_modify_channel. change (loop_of w) with (loop_ w). change (loop_of S) with (base_ S). by rewrite Hc, Hcw. }
  assert (Hfr : freed_ (env_ w) = false) by (destruct (freed_ (env_ w)); [by specialize (Hn eq_refl)|done]).
  assert (Hsame : on_loop (on_poller (modify_channel i F)) S =
    on_connection i (λ _, on_loop (on_poller (modify_channel i f))) S).
  { rewrite in_modify_channel. change (loop_of S) with (base_ S). rewrite Hc. unfold on_connection. rewrite Hx, in_modify_channel.
    cbn [loop_of world_loop view loop_ seen poller_ unbound heap_]. rewrite lookup_fmap, Hc. cbn [fmap option_fmap option_map].
    f_equal. f_equal. destruct S as [l ms]. cbn in *. f_equal; [|by rewrite insert_id; destruct x].
    set (p1 := set_heap (<[i := f _]> _) _). destruct (seen_left i l (set_poller p1 (seen i l)) p1 (wakeups_ l) []) as [_ E].
    { rewrite app_nil_r. by destruct l. }
    cbn [set_loop_ loop_]. etrans; [|symmetry; exact E]. rewrite app_nil_r. destruct l as [l1 l2 l3 l4 l5 l6 l7 p l9 l10 l11 l12]. cbn in *.
    unfold set_poller, set_wakeups, set_pending. cbn. f_equal. destruct p as [h cs e sz]. unfold bound, set_heap. cbn. f_equal.
    apply map_eq. intros a. rewrite map_lookup_imap. destruct (decide (i = a)) as [<-|Hne].
    - rewrite !lookup_insert_eq. cbn. by rewrite HF, (channel_map_id (pair i) snd).
    - rewrite !lookup_insert_ne, lookup_fmap by done. destruct (h !! a) as [d|] eqn:Hd; [|done]. cbn.
      by destruct (joint_bound _ _ _ _ Hj a d) as [_ ->]. }
  unfold follows. rewrite Hsame. eapply on_connection_follows; [done..|].
  assert (Hwk : working i tid (fds i) (view i x S) w) by (eapply joint_working; [done..|by rewrite Ee]).
  pose proof (local_modify_channel i tid (fds i) f Hf _ _ Hwk) as Hl. unfold agree, agreed in *.
  destruct (on_loop _ (view i x S)) as [[a1 v1]|], (on_loop _ w) as [[a2 v2]|]; try done.
  destruct Hl as (? & [] & ? & ?). by split_and!.
Qed.

(** *** Programs that follow *)

Lemma follows_bind {A B} busy n i (M : prog (Shared Q) A) (m : prog (World Q) A) K (k : A → prog (World Q) B) S ws w :
  follows busy n i M m S ws w → at_work busy i S w →
  (∀ a S' w', joint busy n S' (<[i := w']> ws) → at_work busy i S' w' → follows busy n i (K a) (k a) S' (<[i := w']> ws) w') →
  follows busy n i (M ≫= K) (m ≫= k) S ws w.
Proof.
  unfold follows, mbind, prog_bind. intros Hm Hat Hk. destruct (m w) as [[a w1]|f]; [|by rewrite Hm].
  destruct Hm as (S1 & -> & Hj1 & Hat1). specialize (Hk a S1 w1 Hj1 (Hat1 Hat)). destruct (k a w1) as [[b w2]|f]; [|done].
  destruct Hk as (S2 & -> & Hj2 & Hat2). rewrite insert_insert_eq in Hj2. exists S2. split_and!; [done|done|tauto].
Qed.
Lemma follows_ret {A} busy n i (a : A) S ws w :
  joint busy n S ws → ws !! i = Some w → follows busy n i (mret a) (mret a) S ws w.
Proof. intros Hj Hw. exists S. by rewrite insert_id. Qed.
Lemma follows_when busy n i b M m S ws w :
  joint busy n S ws → ws !! i = Some w → (b = true → follows busy n i M m S ws w) →
  follows busy n i (when_ b M) (when_ b m) S ws w.
Proof. intros Hj Hw Hm. destruct b; [by apply Hm|by apply follows_ret]. Qed.

Lemma follows_channel {B} busy n i K (k : Channel functor → prog (World Q) B) S ws w :
  joint busy n S ws → ws !! i = Some w →
  (∀ c, freed_ (env_ w) = false → tie_ c = None ∨ tie_ c = Some i → follows busy n i (K (channel_map (pair i) c)) (k c) S ws w) →
  follows busy n i (on_loop (on_poller (channel_at i)) ≫= K) (on_loop (on_poller (channel_at i)) ≫= k) S ws w.
Proof.
  intros Hj Hw Hk. destruct (joint_channel _ _ _ _ _ _ Hj Hw) as (Hc & Hfr & Htie).
  unfold follows, mbind, prog_bind. rewrite !in_channel_at. change (loop_of w) with (loop_ w). change (loop_of S) with (base_ S).
  rewrite Hc. destruct (heap_ (poller_ (loop_ w)) !! i) as [c|]; [|done]. apply Hk; [|by apply Htie].
  destruct (freed_ (env_ w)); [by specialize (Hfr eq_refl)|done].
Qed.

(** A call on a connection that does the same there as alone. *)
Lemma local_follows {A} busy n i M (m : prog (World Q) A) S ws w :
  joint busy n S ws → ws !! i = Some w → at_work busy i S w → local i tid (fds i) m →
  (∀ x, fd_of x = fds i → cbs_of x = calls i → M x = m) → freed_ (env_ w) = false →
  follows busy n i (on_connection i M) m S ws w.
Proof.
  intros Hj Hw Hat Hm HM Hf. destruct (joint_member _ _ _ _ _ _ Hj Hw) as (x & Hx & Ee & Efd & Ecb).
  eapply on_connection_follows; [done..|]. rewrite HM by done.
  specialize (Hm _ _ (joint_working _ _ _ _ _ _ _ Hj Hx Hw Hat ltac:(by rewrite Ee))). unfold agree, agreed in *.
  destruct (m (view i x S)) as [[a1 v1]|], (m w) as [[a2 v2]|]; try done. destruct Hm as (? & [] & ? & ?). by split_and!.
Qed.

(** Nothing of a destroyed connection is called. *)
Lemma exec_follows busy n i f S ws w :
  joint busy n S ws → ws !! i = Some w → at_work busy i S w →
  follows busy n i (exec_of tid (i, f)) (exec i tid (calls i) f) S ws w.
Proof.
  intros Hj Hw Hat. destruct (freed_ (env_ w)) eqn:Hf.
  - destruct (joint_member _ _ _ _ _ _ Hj Hw) as (x & Hx & Ee & _). unfold follows, exec_of, on_connection. cbn [fst snd]. rewrite Hx.
    unfold exec, mbind, prog_bind. cbn [get view env_]. by rewrite Ee, Hf.
  - eapply local_follows; try done; [apply local_exec|]. by intros x _ ->.
Qed.
Lemma exec_read_follows busy n i f t S ws w :
  joint busy n S ws → ws !! i = Some w → at_work busy i S w → freed_ (env_ w) = false →
  follows busy n i (exec_read_of tid (i, f) t) (exec_read i tid (calls i) f t) S ws w.
Proof. intros Hj Hw Hat Hf. eapply local_follows; try done; [apply local_exec_read|]. by intros x _ ->. Qed.

(** *** The handler of a channel *)

Lemma call_if_follows busy n i (get_cb : ∀ F, Channel F → option F) c S ws w :
  (∀ c : Channel functor, get_cb _ (channel_map (pair i) c) = pair i <$> get_cb _ c) →
  joint busy n S ws → ws !! i = Some w → at_work busy i S w →
  follows busy n i (call_if (exec_of tid) (get_cb _ (channel_map (pair i) c))) (call_if (exec i tid (calls i)) (get_cb _ c)) S ws w.
Proof.
  intros Hcb Hj Hw Hat. rewrite Hcb. destruct (get_cb _ c) as [f|]; [by apply exec_follows|by apply follows_ret].
Qed.

(** What comes after a part of the handler. *)
Lemma then_follows busy n i M (m : prog (World Q) ()) K (k : prog (World Q) ()) S ws w :
  follows busy n i M m S ws w → at_work busy i S w →
  (∀ S' ws' w', joint busy n S' ws' → ws' !! i = Some w' → at_work busy i S' w' → follows busy n i K k S' ws' w') →
  follows busy n i (M ;; K) (m ;; k) S ws w.
Proof.
  intros Hm Hat Hk. apply follows_bind; [done|done|]. intros _ S' w' Hj' Hat'. apply Hk; [done|apply lookup_insert_eq|done].
Qed.

Lemma guard_follows n i t S ws w :
  joint true n S ws → ws !! i = Some w → at_work true i S w →
  follows true n i
    (handleEventWithGuard (λ a, on_loop (on_poller (channel_at a)))
       (λ a b, on_loop (on_poller (modify_channel a (Channel.set_eventHandling b)))) (exec_of tid) (exec_read_of tid) i t)
    (handleEventWithGuard (λ a, on_loop (on_poller (channel_at a)))
       (λ a b, on_loop (on_poller (modify_channel a (Channel.set_eventHandling b)))) (exec i tid (calls i)) (exec_read i tid (calls i)) i t)
    S ws w.
Proof.
  intros Hj Hw Hat. unfold handleEventWithGuard.
  apply then_follows; [apply modify_follows; try done; intros c; split_and!; auto|done|]. clear S ws w Hj Hw Hat. intros S ws w Hj Hw Hat.
  apply follows_channel; [done..|]. intros c _ _. cbn [revents_ channel_map].
  apply then_follows; [|done|].
  { apply follows_when; [done..|]. intros _. by apply (call_if_follows _ _ _ (λ F, @Channel.closeCallback_ F)). }
  clear S ws w Hj Hw Hat c. intros S ws w Hj Hw Hat. apply follows_channel; [done..|]. intros c _ _. cbn [revents_ channel_map].
  apply then_follows; [|done|].
  { apply follows_when; [done..|]. intros _. by apply (call_if_follows _ _ _ (λ F, @errorCallback_ F)). }
  clear S ws w Hj Hw Hat c. intros S ws w Hj Hw Hat. apply follows_channel; [done..|]. intros c Hf _. cbn [revents_ channel_map readCallback_].
  apply then_follows; [|done|].
  { apply follows_when; [done..|]. intros _. destruct (readCallback_ c) as [f|]; [by apply exec_read_follows|by apply follows_ret]. }
  clear S ws w Hj Hw Hat c Hf. intros S ws w Hj Hw Hat. apply follows_channel; [done..|]. intros c _ _. cbn [revents_ channel_map].
  apply then_follows; [|done|].
  { apply follows_when; [done..|]. intros _. by apply (call_if_follows _ _ _ (λ F, @writeCallback_ F)). }
  clear S ws w Hj Hw Hat c. intros S ws w Hj Hw Hat.
  apply modify_follows; try done. intros c. split_and!; auto.
Qed.

(** *** Changes of the loops that are no connection's *)

Definition same_poller {F} (p p' : EPollPoller F) : Prop :=
  heap_ p = heap_ p' ∧ channels_ p = channels_ p' ∧ epollfd_ p = epollfd_ p'.

Record tracks i busy n (L : EventLoop (Z * functor)) (l : EventLoop functor) : Prop := {
  tracks_thread : threadId_ L = tid ∧ threadId_ l = tid;
  tracks_handling : EventLoop.eventHandling_ L = busy ∧ EventLoop.eventHandling_ l = busy;
  tracks_time : busy = true → pollReturnTime_ L = pollReturnTime_ l;
  tracks_pending : pendingFunctors_ l = mine i (pendingFunctors_ L);
  tracks_iteration : 0 ≤ iteration_ l ≤ n
}.

Lemma joint_tracks busy n S ws i w : joint busy n S ws → ws !! i = Some w → tracks i busy n (base_ S) (loop_ w).
Proof.
  intros Hj Hw. destruct (joint_member _ _ _ _ _ _ Hj Hw) as (x & Hx & _).
  pose proof (joint_alike _ _ _ _ Hj _ _ _ Hx Hw) as [A1 A2 A3 [A4 A4'] A5 A6 A7 _ _]. cbn in *.
  pose proof (joint_busy _ _ _ _ Hj) as Eb. constructor; try done.
  - split; [done|congruence].
  - intros ->. auto.
  - by eapply joint_small.
Qed.

Lemma same_poller_wf {F} (p p' : EPollPoller F) : same_poller p p' → poller_wf p' → poller_wf p.
Proof. intros (E1 & E2 & E3) [W1 W2 W3 W4 W5]. constructor; rewrite ?E1, ?E2, ?E3; done. Qed.

Lemma joint_update busy n busy' n' L S ws ws' :
  joint busy n S ws → same_poller (poller_ L) (poller_ (base_ S)) → threadId_ L = tid → EventLoop.eventHandling_ L = busy' →
  iteration_ L = n' → (∀ e, e ∈ pendingFunctors_ L → e ∈ pendingFunctors_ (base_ S)) →
  (∀ i, is_Some (ws !! i) → is_Some (ws' !! i)) →
  (∀ i w', ws' !! i = Some w' → ∃ w l, ws !! i = Some w ∧ w' = set_loop_ l w ∧
     same_poller (poller_ l) (poller_ (loop_ w)) ∧ tracks i busy' n' L l) →
  joint busy' n' (mkShared L (members_ S)) ws'.
Proof.
  intros Hj (E1 & E2 & E3) Ht Hb Hn Hq Hdom Hws. pose proof Hj as [J1 J2 J3 J4 J5 J6 J7 J8 J9 J10 J11].
  assert (Hwf : poller_wf (unbound (poller_ L))).
  { eapply same_poller_wf; [|exact J1]. split_and!; cbn; [by rewrite E1|done..]. }
  constructor; cbn [base_ members_]; try done.
  - intros a c. rewrite E1. apply J5.
  - intros e He. by apply J6, Hq.
  - intros i. rewrite J7. split; [apply Hdom|]. intros [w' Hw']. destruct (Hws _ _ Hw') as (w & l & Hw & _). by exists w.
  - intros i x w' Hx Hw'. destruct (Hws _ _ Hw') as (w & l & Hw & -> & (F1 & F2 & F3) & [T1 T2 T3 T4 T5]).
    pose proof (J9 i x w Hx Hw) as [A1 A2 A3 A4 A5 A6 A7 [_ A8] A9]. constructor; try done.
    + cbn. destruct T2 as [-> ->]. done.
    + cbn. intros Hbt. apply T3. congruence.
    + split; [done|]. cbn. by eapply same_poller_wf; [|exact A8].
    + unfold same_channel in *. cbn in *. rewrite E1, E2, F1, F2. destruct (freed_ (member_env x)); [done|].
      destruct A9 as (? & c & ? & ? & []). split; [done|]. exists c. split_and!; [done..|]. constructor; try done. cbn in *. by rewrite E2.
  - intros i w' Hw'. destruct (Hws _ _ Hw') as (w & l & Hw & -> & _ & []). done.
  - intros i w' a Hw' Hne. destruct (Hws _ _ Hw') as (w & l & Hw & -> & (F1 & _) & _). cbn. rewrite F1. by eapply J11.
Qed.

(** *** One connection after the other *)

(** [M] does to the loop what [m] does to connection [i] alone. *)
Definition does busy n i (M : prog (Shared Q) ()) (m : prog (World Q) ()) : Prop := ∀ S ws w,
  joint busy n S ws → ws !! i = Some w →
  match m w with
  | Ok (_, w') => ∃ S', M S = Ok (tt, S') ∧ joint busy n S' (<[i := w']> ws)
  | Fault f => M S = Fault f
  end.

Lemma follows_does n i M (m : prog (World Q) ()) :
  (∀ S ws w, joint false n S ws → ws !! i = Some w → follows false n i M m S ws w) → does false n i M m.
Proof.
  intros Hm S ws w Hj Hw. specialize (Hm S ws w Hj Hw). unfold follows in Hm. destruct (m w) as [[[] w']|]; [|done].
  destruct Hm as (S' & ? & ? & _). by exists S'.
Qed.

Lemma handle_active_does n i :
  does true n i (handle_active (@alive_of _ Q) (exec_of tid) (exec_read_of tid) i)
    (handle_active (λ _ w, negb (freed_ (env_ w))) (exec i tid (calls i)) (exec_read i tid (calls i)) i).
Proof.
  intros S ws w Hj Hw. pose proof (joint_tracks _ _ _ _ _ _ Hj Hw) as Ht.
  set (S1 := mkShared (set_current (Some i) (base_ S)) (members_ S)).
  set (w1 := set_loop_ (set_current (Some i) (loop_ w)) w). set (ws1 := <[i := w1]> ws).
  assert (Hj1 : joint true n S1 ws1).
  { apply (joint_update true n true n (set_current (Some i) (base_ S)) S ws); try done; try apply Hj.
    - intros j. unfold ws1. rewrite lookup_insert_is_Some'. by right.
    - intros j w' [[<- <-]|[_ Hw']]%lookup_insert_Some.
      + exists w, (set_current (Some i) (loop_ w)). split_and!; try done. by destruct Ht.
      + exists w', (loop_ w'). split_and!; try done; [by destruct w'|by destruct (joint_tracks _ _ _ _ _ _ Hj Hw')]. }
  assert (Hw1 : ws1 !! i = Some w1) by apply lookup_insert_eq.
  assert (Hat : at_work true i S1 w1) by by split.
  unfold handle_active, mbind, prog_bind. cbn [get on_loop modify]. unfold on_loop. cbn [modify].
  change (set_loop (set_current (Some i) (loop_of S)) S) with S1. change (set_loop (set_current (Some i) (loop_of w)) w) with w1.
  change (pollReturnTime_ (loop_of S1)) with (pollReturnTime_ (base_ S)). change (pollReturnTime_ (loop_of w1)) with (pollReturnTime_ (loop_ w)).
  rewrite (tracks_time _ _ _ _ _ Ht eq_refl). set (t := pollReturnTime_ (loop_ w)).
  assert (Hf : follows true n i
    (handleEvent (@alive_of _ Q) (λ a, on_loop (on_poller (channel_at a)))
       (λ a b, on_loop (on_poller (modify_channel a (Channel.set_eventHandling b)))) (exec_of tid) (exec_read_of tid) i t)
    (handleEvent (λ _ w, negb (freed_ (env_ w))) (λ a, on_loop (on_poller (channel_at a)))
       (λ a b, on_loop (on_poller (modify_channel a (Channel.set_eventHandling b)))) (exec i tid (calls i)) (exec_read i tid (calls i)) i t)
    S1 ws1 w1).
  { unfold handleEvent. apply follows_channel; [done..|]. intros c _ Htie. unfold follows, mbind, prog_bind. cbn [get].
    pose proof (guard_follows n i t S1 ws1 w1 Hj1 Hw1 Hat) as Hg. change (tied_ (channel_map (pair i) c)) with (tied_ c).
    change (tie_ (channel_map (pair i) c)) with (tie_ c). destruct (tied_ c); [|exact Hg].
    destruct (joint_member _ _ _ _ _ _ Hj1 Hw1) as (x & Hx & Ee & _).
    assert (Halive : alive_of i S1 = negb (freed_ (env_ w1))) by (unfold alive_of; by rewrite Hx, Ee).
    assert (Hskip : follows true n i (mret tt) (mret tt) S1 ws1 w1) by by apply follows_ret.
    destruct Htie as [->| ->]; [exact Hskip|]. rewrite Halive. by destruct (negb _). }
  unfold follows in Hf. destruct (handleEvent _ _ _ _ _ _ _ w1) as [[[] w2]|f]; [|exact Hf].
  destruct Hf as (S2 & Hrun & Hj2 & _). exists S2. split; [exact Hrun|]. unfold ws1 in Hj2. by rewrite insert_insert_eq in Hj2.
Qed.

Lemma exec_does n i f : does false n i (exec_of tid (i, f)) (exec i tid (calls i) f).
Proof. apply follows_does. intros S ws w Hj Hw. by apply exec_follows. Qed.

(** A call that does the same on alike connections, outside of handlers. *)
Lemma outside_does n i M (m : prog (World Q) ()) :
  (∀ x, fd_of x = fds i → cbs_of x = calls i → M x = m) →
  (∀ w1 w2, alike i tid (fds i) w1 w2 → EventLoop.eventHandling_ (loop_ w1) = false → agree_outside i tid (fds i) m w1 w2) →
  does false n i (on_connection i M) m.
Proof.
  intros HM Hm. apply follows_does. intros S ws w Hj Hw. destruct (joint_member _ _ _ _ _ _ Hj Hw) as (x & Hx & _ & Efd & Ecb).
  eapply on_connection_follows; [done..|]. rewrite HM by done. apply Hm; [by eapply joint_alike|by apply Hj].
Qed.

Lemma release_does n i : does false n i (on_connection i (λ _, release i)) (release i).
Proof. apply outside_does; [done|]. intros w1 w2 Ha _. by apply release_outside. Qed.

(** When what is done to each connection has the outcome [P] alone, all have it together. *)
Lemma together {B} (E : fault → Prop) (big : Z * B → prog (Shared Q) ()) (small : Z → B → prog (World Q) ()) busy n (P : Z → World Q → Prop) K S ws :
  (∀ i x, does busy n i (big (i, x)) (small i x)) → joint busy n S ws → (∀ e, e ∈ K → is_Some (ws !! e.1)) →
  (∀ i w, ws !! i = Some w → wpf E (for_each (small i) (mine i K)) (λ _, P i) w) →
  wpf E (for_each big K) (λ _ S', ∃ ws', joint busy n S' ws' ∧ dom ws' = dom ws ∧ ∀ i w, ws' !! i = Some w → P i w) S.
Proof.
  intros Hdoes. induction K as [|[i x] K IH] in S, ws |- *; intros Hj Hdom Hall; cbn [for_each].
  - rewrite wp_ret. exists ws. split_and!; [done|done|]. intros i w Hw. by apply (Hall i w).
  - destruct (Hdom (i, x)) as [w Hw]; [by left|]. cbn in Hw. pose proof (Hall i w Hw) as Hi.
    rewrite mine_cons, decide_True in Hi by done. cbn [for_each snd] in Hi. rewrite wp_bind in Hi.
    specialize (Hdoes i x S ws w Hj Hw). rewrite wp_bind. unfold wpf at 1 in Hi. unfold wpf at 1.
    destruct (small i x w) as [[[] w']|f]; [|by rewrite Hdoes]. destruct Hdoes as (S' & -> & Hj').
    assert (Hd : dom (<[i := w']> ws) = dom ws) by (apply dom_insert_lookup_L; by exists w).
    rewrite <- Hd. apply IH; [done|..].
    + intros e He. apply elem_of_dom. rewrite Hd. apply elem_of_dom, Hdom. by right.
    + intros j v [[<- <-]|[Hne Hv]]%lookup_insert_Some; [exact Hi|].
      specialize (Hall j v Hv). rewrite mine_cons, decide_False in Hall; [exact Hall|done].
Qed.

(** *** An iteration *)

Definition happened_on (rs : list (Z * Z)) (fd : Z) : Z := default 0 ((list_to_map rs : gmap Z Z) !! fd).

(** What the kernel reports, it reports of a connection that exists. *)
Lemma reported_member busy n S ws e a r :
  joint busy n S ws → (a, r) ∈ reported_on S e →
  ∃ x, members_ S !! a = Some x ∧ freed_ (member_env x) = false ∧ fds a = e.1.
Proof.
  intros Hj Hin. unfold reported_on in Hin. destruct (interest _ !! e.1) as [[b ev]|] eqn:Hint; [|by apply elem_of_nil in Hin].
  assert (a = b) as -> by (destruct (_ =? 0); [by apply elem_of_nil in Hin|by apply list_elem_of_singleton in Hin as [= -> ->]]).
  apply (wf_interest _ (joint_wf _ _ _ _ Hj)) in Hint as (c & Hc & Hfd & _). cbn in Hc. pose proof Hc as Hc0. rewrite lookup_fmap in Hc.
  apply fmap_Some in Hc as (d & Hd & _). destruct (joint_bound _ _ _ _ Hj _ _ Hd) as [[x Hx] _]. exists x. split; [done|].
  destruct (proj1 (joint_dom _ _ _ _ Hj b)) as [w Hw]; [by exists x|].
  pose proof (alike_channel _ _ _ _ _ (joint_alike _ _ _ _ Hj _ _ _ Hx Hw)) as Hch. unfold same_channel in Hch. cbn in Hch.
  destruct (freed_ (member_env x)); [destruct Hch as [Hn _]; congruence|]. destruct Hch as (_ & c' & Hc' & _ & []).
  split; [done|]. assert (c' = c) as -> by congruence. congruence.
Qed.

Lemma reported_one busy n S ws i w e :
  joint busy n S ws → ws !! i = Some w → freed_ (env_ w) = false →
  pair i <$> mine i (reported_on S e) = if decide (e.1 = fds i) then reported (fds i) e.2 w else [].
Proof.
  intros Hj Hw Hf. destruct (joint_member _ _ _ _ _ _ Hj Hw) as (x & Hx & Ee & _).
  destruct (alike_interest _ _ _ _ _ (joint_alike _ _ _ _ Hj _ _ _ Hx Hw)) as [Hi Ha]; [cbn; by rewrite Ee|]. cbn in Hi.
  case_decide as Hfd.
  - unfold reported_on, reported. rewrite Hfd, Hi. destruct (interest (epollfd_ (poller_ (loop_ w))) !! fds i) as [[a ev]|] eqn:Hint; [|done].
    rewrite (Ha _ _ eq_refl). destruct (_ =? 0); [done|]. unfold mine. cbn. by rewrite decide_True.
  - assert (Hno : mine i (reported_on S e) = []); [|by rewrite Hno].
    destruct (reported_on S e) as [|[a r] [|]] eqn:Hr.
    + done.
    + destruct (reported_member _ _ _ _ e a r Hj) as (_ & _ & _ & Hfa); [rewrite Hr; by left|].
      unfold mine. cbn. rewrite decide_False; [done|]. intros ->. by destruct Hfd.
    + unfold reported_on in Hr. destruct (interest _ !! e.1) as [[b ev]|]; [|done]. by destruct (_ =? 0).
Qed.

(** A destroyed connection is not watched. *)
Lemma freed_silent busy n S ws i w r :
  joint busy n S ws → ws !! i = Some w → freed_ (env_ w) = true → reported (fds i) r w = [].
Proof.
  intros Hj Hw Hf. destruct (joint_member _ _ _ _ _ _ Hj Hw) as (x & Hx & _).
  destruct (joint_channel _ _ _ _ _ _ Hj Hw) as (_ & Hn & _). unfold reported.
  destruct (interest _ !! fds i) as [[a ev]|] eqn:Hint; [exfalso|done].
  apply (wf_interest _ (proj2 (alike_wf _ _ _ _ _ (joint_alike _ _ _ _ Hj _ _ _ Hx Hw)))) in Hint as (c & Hc & _).
  destruct (decide (a = i)) as [->|Hne]; [rewrite Hn in Hc by done; done|]. by rewrite (joint_alone _ _ _ _ Hj _ _ _ Hw Hne) in Hc.
Qed.

Lemma mine_bind {A B} i (f : A → list (Z * B)) xs : mine i (xs ≫= f) = xs ≫= λ x, mine i (f x).
Proof. induction xs as [|x xs IH]; [done|]. cbn. by rewrite mine_app, IH. Qed.

Lemma reports_mine busy n S ws i w rs :
  joint busy n S ws → ws !! i = Some w → NoDup rs.*1 →
  pair i <$> mine i (rs ≫= reported_on S) = reported (fds i) (happened_on rs (fds i)) w.
Proof.
  intros Hj Hw Hnd. rewrite mine_bind. destruct (freed_ (env_ w)) eqn:Hf.
  - rewrite (freed_silent _ _ _ _ _ _ _ Hj Hw Hf). clear Hnd. induction rs as [|e rs IH]; [done|]. cbn. rewrite fmap_app, IH, app_nil_r.
    destruct (mine i (reported_on S e)) as [|r l] eqn:Hm; [done|exfalso].
    assert (Hin : r ∈ mine i (reported_on S e)) by (rewrite Hm; by left). unfold mine in Hin.
    apply list_elem_of_omap in Hin as ([a r'] & Hin & Heq). cbn in Heq. case_decide; [subst|done].
    destruct (reported_member _ _ _ _ _ _ _ Hj Hin) as (x & Hx & Hfx & _).
    destruct (joint_member _ _ _ _ _ _ Hj Hw) as (y & Hy & Ee & _). congruence.
  - assert (Hnone : ∀ rs, fds i ∉ rs.*1 → pair i <$> (rs ≫= λ x, mine i (reported_on S x)) = []).
    { clear rs Hnd. intros rs. induction rs as [|e rs IH]; [done|]. cbn. rewrite not_elem_of_cons. intros [Hne Hnin].
      by rewrite fmap_app, IH, app_nil_r, (reported_one _ _ _ _ _ _ _ Hj Hw Hf), decide_False by done. }
    induction rs as [|[fd r] rs IH].
    + unfold happened_on, reported. cbn. destruct (interest _ !! _) as [[a ev]|]; done.
    + apply list.NoDup_cons in Hnd as [Hnin Hnd]. cbn. rewrite fmap_app, (reported_one _ _ _ _ _ _ _ Hj Hw Hf). unfold happened_on. cbn in *.
      case_decide as Hfd.
      * subst fd. rewrite Hnone, app_nil_r by done. by rewrite lookup_insert_eq.
      * rewrite lookup_insert_ne by done. by apply IH.
Qed.

(** All loops change at once. *)
Definition all_loops (g : Z → EventLoop functor → EventLoop functor) ws : gmap Z (World Q) :=
  map_imap (λ i w, Some (set_loop_ (g i (loop_ w)) w)) ws.

Lemma all_loops_dom g ws : dom (all_loops g ws) = dom ws.
Proof.
  apply set_eq. intros i. unfold all_loops. rewrite !elem_of_dom, map_lookup_imap. destruct (ws !! i); cbn; [|done].
  split; intros _; by eexists.
Qed.
Lemma all_loops_lookup g ws i w' : all_loops g ws !! i = Some w' → ∃ w, ws !! i = Some w ∧ w' = set_loop_ (g i (loop_ w)) w.
Proof. unfold all_loops. rewrite map_lookup_imap. destruct (ws !! i) as [w|]; [|done]. intros [= <-]. by exists w. Qed.

Lemma joint_all busy n busy' n' L g S ws :
  joint busy n S ws → same_poller (poller_ L) (poller_ (base_ S)) → threadId_ L = tid → EventLoop.eventHandling_ L = busy' →
  iteration_ L = n' → (∀ e, e ∈ pendingFunctors_ L → e ∈ pendingFunctors_ (base_ S)) →
  (∀ i w, ws !! i = Some w → tracks i busy n (base_ S) (loop_ w) →
     same_poller (poller_ (g i (loop_ w))) (poller_ (loop_ w)) ∧ tracks i busy' n' L (g i (loop_ w))) →
  joint busy' n' (mkShared L (members_ S)) (all_loops g ws).
Proof.
  intros Hj Hp Ht Hb Hn Hq Hg. eapply joint_update; try done.
  - intros i. rewrite <- !elem_of_dom. by rewrite all_loops_dom.
  - intros i w' (w & Hw & ->)%all_loops_lookup. exists w, (g i (loop_ w)).
    destruct (Hg i w Hw); [by eapply joint_tracks|]. by split_and!.
Qed.

Lemma store_does n i r : does false n i (store (i, r)) (store (i, r)).
Proof.
  apply follows_does. intros S ws w Hj Hw. apply modify_follows; try done. intros c. split_and!; auto.
Qed.

(** The functors, and the end of the iteration: the connections nothing points to are destroyed. *)
Lemma functors_together (E : fault → Prop) (P : Z → World Q → Prop) n S ws :
  joint true n S ws →
  (∀ i w, ws !! i = Some w →
     wpf E (on_loop (modify (set_current None)) ;; on_loop (modify (EventLoop.set_eventHandling false)) ;;
            doPendingFunctors (exec i tid (calls i))) (λ _ w', wpf E (release i) (λ _, P i) w') w) →
  wpf E (on_loop (modify (set_current None)) ;; on_loop (modify (EventLoop.set_eventHandling false)) ;; doPendingFunctors (exec_of tid))
    (λ _ S', wpf E (S ← get; for_each (λ e, on_connection e.1 (λ _, release e.1)) (map_to_list (const tt <$> members_ S)))
       (λ _ S', ∃ ws', joint false n S' ws' ∧ dom ws' = dom ws ∧ ∀ i w, ws' !! i = Some w → P i w) S') S.
Proof.
  intros Hj Hall. rewrite leave_wp. change (loop_of S) with (base_ S). change (set_loop (leaving (base_ S)) S) with (mkShared (leaving (base_ S)) (members_ S)).
  set (batch := pendingFunctors_ (base_ S)). set (g := λ (_ : Z) (l : EventLoop functor), leaving l).
  assert (Hj1 : joint false n (mkShared (leaving (base_ S)) (members_ S)) (all_loops g ws)).
  { eapply joint_all; [exact Hj|done|apply Hj|done|apply Hj|by intros e ?%elem_of_nil|].
    intros i w Hw []. by split_and!. }
  eapply wp_mono.
  - eapply (together E (exec_of tid) (λ i f, exec i tid (calls i) f) false n
      (λ i w', wpf E (release i) (λ _, P i) (set_loop_ (set_callingPending false (loop_ w')) w')) batch _ (all_loops g ws)).
    + intros i f. apply exec_does.
    + exact Hj1.
    + intros e He. apply elem_of_dom. rewrite all_loops_dom. apply elem_of_dom. rewrite <- (joint_dom _ _ _ _ Hj). by apply (joint_queue _ _ _ _ Hj).
    + intros i w' (w & Hw & ->)%all_loops_lookup. specialize (Hall i w Hw). rewrite leave_wp in Hall.
      change (loop_of w) with (loop_ w) in Hall. by rewrite (tracks_pending _ _ _ _ _ (joint_tracks _ _ _ _ _ _ Hj Hw)) in Hall.
  - cbv beta. intros _ S2 (ws2 & Hj2 & Hdom2 & Hall2). rewrite all_loops_dom in Hdom2.
    change (loop_of S2) with (base_ S2). change (set_loop (set_callingPending false (base_ S2)) S2) with (mkShared (set_callingPending false (base_ S2)) (members_ S2)).
    set (S3 := mkShared _ _). set (g3 := λ (_ : Z) (l : EventLoop functor), set_callingPending false l).
    assert (Hj3 : joint false n S3 (all_loops g3 ws2)).
    { eapply joint_all; [exact Hj2|done|apply Hj2|apply Hj2|apply Hj2|done|]. intros i w Hw []. by split_and!. }
    rewrite wp_bind, wp_get. eapply wp_mono.
    + eapply (together E (λ e : Z * (), on_connection e.1 (λ _, release e.1)) (λ i _, release i) false n P _ S3 (all_loops g3 ws2)).
      * intros i x. apply release_does.
      * exact Hj3.
      * intros [i []] He. apply elem_of_map_to_list in He. rewrite lookup_fmap in He. apply fmap_Some in He as (x & Hx & _).
        apply (joint_dom _ _ _ _ Hj3). by exists x.
      * intros i w' Hw'. destruct (proj2 (joint_dom _ _ _ _ Hj3 i)) as [x Hx]; [by exists w'|].
        apply all_loops_lookup in Hw' as (w & Hw & ->). rewrite (mine_unique i tt).
        -- cbn [for_each]. rewrite wp_bind. eapply wp_mono; [apply (Hall2 i w Hw)|]. by intros [] w'.
        -- apply NoDup_fst_map_to_list.
        -- apply elem_of_map_to_list. by rewrite lookup_fmap, Hx.
    + cbv beta. intros _ S4 (ws4 & Hj4 & Hdom4 & Hall4). exists ws4. split_and!; [done| |done].
      by rewrite Hdom4, all_loops_dom.
Qed.

(** An iteration is for each connection the iteration it would see alone. *)
Lemma poll_together (E : fault → Prop) (P : Z → World Q → Prop) n rs t S ws :
  joint false n S ws → NoDup rs.*1 → 0 ≤ n < 2 ^ 62 →
  (∀ i w, ws !! i = Some w → wpf E (run_step i tid other (fds i) (calls i) (Poll (happened_on rs (fds i)) t)) (λ _, P i) w) →
  wpf E (poll_shared tid other rs t)
    (λ _ S', ∃ ws', joint false (n + 1) S' ws' ∧ dom ws' = dom ws ∧ ∀ i w, ws' !! i = Some w → P i w) S.
Proof.
  intros Hj Hnd Hn Hall. unfold poll_shared. rewrite wp_bind, wp_get, wp_bind. set (es := rs ≫= reported_on S).
  rewrite iteration_wp by (change (loop_of S) with (base_ S); by rewrite (joint_iter _ _ _ _ Hj)).
  set (own := λ i, pair i <$> mine i es).
  assert (Hall' : ∀ i w, ws !! i = Some w →
    wpf E (for_each (λ r, store (i, r)) (mine i es))
      (λ _ w1, wpf E (after_poll (λ _ w, negb (freed_ (env_ w))) (exec i tid (calls i)) (exec_read i tid (calls i)) (own i))
        (λ _ w', wpf E (release i) (λ _, P i) w') (set_loop_ (polled (own i) t (loop_ w1)) w1))
      (set_loop_ (set_active [] (loop_ w)) w)).
  { intros i w Hw. specialize (Hall i w Hw). unfold run_step in Hall. rewrite wp_bind, wp_get, wp_bind in Hall.
    unfold poll_once in Hall. rewrite wp_bind, wp_get in Hall.
    pose proof (joint_small _ _ _ _ Hj _ _ Hw). rewrite iteration_wp in Hall by (change (loop_of w) with (loop_ w); lia).
    rewrite <- (reports_mine _ _ _ _ _ _ _ Hj Hw Hnd) in Hall. fold es in Hall. fold (own i) in Hall.
    unfold own in Hall at 1. by rewrite for_each_fmap in Hall. }
  clear Hall. set (g := λ (_ : Z) (l : EventLoop functor), set_active [] l).
  assert (Hknown : ∀ e, e ∈ es → is_Some (ws !! e.1)).
  { intros [a r] He. apply list_elem_of_bind in He as (e & He & _). destruct (reported_member _ _ _ _ _ _ _ Hj He) as (x & Hx & _).
    apply (joint_dom _ _ _ _ Hj). by exists x. }
  assert (Hj1 : joint false n (mkShared (set_active [] (base_ S)) (members_ S)) (all_loops g ws)).
  { eapply joint_all; [exact Hj|done|apply Hj|apply Hj|apply Hj|done|]. intros i w Hw []. by split_and!. }
  eapply wp_mono.
  { eapply (together E store (λ i r, store (i, r)) false n _ es _ (all_loops g ws)); [intros; apply store_does|exact Hj1|..].
    - intros e He. apply elem_of_dom. rewrite all_loops_dom. by apply elem_of_dom, Hknown.
    - intros i w' (w & Hw & ->)%all_loops_lookup. by apply Hall'. }
  cbv beta. intros _ S2 (ws2 & Hj2 & Hdom2 & Hall2). rewrite all_loops_dom in Hdom2.
  set (g3 := λ (i : Z) (l : EventLoop functor), polled (own i) t l).
  set (S3 := mkShared (polled es t (base_ S2)) (members_ S2)). change (set_loop (polled es t (loop_of S2)) S2) with S3.
  assert (Hj3 : joint true (n + 1) S3 (all_loops g3 ws2)).
  { pose proof (joint_iter _ _ _ _ Hj2) as En. eapply joint_all; [exact Hj2|apply sized_same|apply Hj2|done|cbn; by rewrite En|done|].
    intros i w Hw []. split; [apply sized_same|]. constructor; try done. cbn. lia. }
  unfold after_poll. rewrite wp_bind. eapply wp_mono.
  { rewrite for_each_fmap.
    eapply (together E (λ e : Z * Z, handle_active (@alive_of _ Q) (exec_of tid) (exec_read_of tid) e.1)
      (λ i _, handle_active (λ _ w, negb (freed_ (env_ w))) (exec i tid (calls i)) (exec_read i tid (calls i)) i) true (n + 1)
      _ es S3 (all_loops g3 ws2)); [intros; apply handle_active_does|exact Hj3|..].
    - intros e He. apply elem_of_dom. rewrite all_loops_dom, Hdom2. by apply elem_of_dom, Hknown.
    - intros i w' (w & Hw & ->)%all_loops_lookup. specialize (Hall2 i w Hw). unfold after_poll in Hall2. rewrite wp_bind in Hall2.
      unfold own in Hall2 at 1. rewrite <- list_fmap_compose, for_each_fmap in Hall2. exact Hall2. }
  cbv beta. intros _ S4 (ws4 & Hj4 & Hdom4 & Hall4). rewrite all_loops_dom, Hdom2 in Hdom4. rewrite <- Hdom4.
  by apply functors_together.
Qed.

(** *** The other steps *)

Lemma step_does n i s :
  is_poll s = false →
  does false n i (on_connection i (λ x, run_step i tid other (fd_of x) (cbs_of x) s)) (run_step i tid other (fds i) (calls i) s).
Proof.
  intros Hs. apply outside_does; [by intros x -> ->|]. intros w1 w2 Ha _. apply step_outside; [done|done|]. by destruct s.
Qed.

Lemma establish_does n i :
  does false n i (on_connection i (λ x, establish i tid other (cbs_of x))) (establish i tid other (calls i)).
Proof.
  apply outside_does; [by intros x _ ->|]. intros w1 w2 Ha Hh. destruct (freed_ (env_ w1)) eqn:Hf.
  - pose proof (alike_env _ _ _ _ _ Ha) as Ee. pose proof (alike_thread _ _ _ _ _ Ha) as [T1 T2].
    set (t := match TcpConnection.closeCallback_ (calls i) with Some ServerOtherLoop => other | _ => tid end).
    unfold agree_outside, establish, runInLoop, mbind, prog_bind. cbn [get]. fold t. unfold isInLoopThread.
    change (loop_of w1) with (loop_ w1). change (loop_of w2) with (loop_ w2). rewrite T1, T2. destruct (tid =? t).
    + unfold exec, mbind, prog_bind. cbn [get]. by rewrite <- Ee, Hf.
    + by apply queue_outside.
  - apply local_outside; [apply local_establish|done..].
Qed.

End follow.
