(* ===== verification/NonInterference.v ===== *)
(** * NonInterference: connections that share a loop do not interfere

    A run of a shared loop, with connections that join and are destroyed, is for each of its connections the run
    that it has alone; so each keeps what ConnSafety.v shows for it, and a loop whose connections are down gives
    everything back.  The first run at the end has three connections,
    two of which have the same descriptor one after the other. *)
From S2P Require Import Prelude Timestamp Buffer ByteQueue Channel EPollPoller EventLoop TcpConnection ConnInvariant ConnSafety ConnLocality SharedLoop Following.

(** ** Joining *)

Section join.
Context `{Epoll} {Q : Type} `{!ByteQueue Q}.
Context (tid other : Z).
Implicit Types (S : Shared Q) (w : World Q) (ws : gmap Z (World Q)).

Lemma poller_wf_add {F} (p : EPollPoller F) a c :
  poller_wf p → heap_ p !! a = None → index_ c = kNew → can_watch (fd_ c) → poller_wf (set_heap (<[a := c]> (heap_ p)) p).
Proof.
  intros [W1 W2 W3 W4 W5] Ha Hi Hw. constructor; cbn.
  - intros f b Hin. destruct (W1 f b Hin) as (d & Hd & ?). exists d. rewrite lookup_insert_ne; [done|congruence].
  - intros b d [[<- <-]|[_ Hd]]%lookup_insert_Some; [by left|by apply W2].
  - intros f b ev. rewrite W3. split.
    + intros (d & Hd & ?). exists d. rewrite lookup_insert_ne; [done|congruence].
    + intros (d & [[<- <-]|[_ Hd]]%lookup_insert_Some & ? & Hk & ?); [by rewrite Hi in Hk|by exists d].
  - intros b d [[<- <-]|[_ Hd]]%lookup_insert_Some; [by rewrite Hi|by apply (W4 b)].
  - intros b d [[<- <-]|[_ Hd]]%lookup_insert_Some; [done|by apply (W5 b)].
Qed.

Definition newcomer_world i (o : Newcomer) : World Q :=
  world_init i tid (new_fd o) (new_holds o) (new_writes o) (new_reads o).

Lemma mine_none {A} i (q : list (Z * A)) : (∀ e, e ∈ q → e.1 ≠ i) → mine i q = [].
Proof.
  induction q as [|e q IH]; intros Hq; [done|]. rewrite mine_cons, decide_False by (apply Hq; by left).
  apply IH. intros e' He. apply Hq. by right.
Qed.

(** A fresh descriptor is not registered. *)
Lemma fresh_unregistered fds calls busy n S ws i fd :
  joint tid fds calls busy n S ws → fresh i fd S → channels_ (poller_ (base_ S)) !! fd = None.
Proof.
  intros Hj [_ Hfresh]. destruct (channels_ _ !! fd) as [a|] eqn:Ha; [exfalso|done].
  destruct (wf_channel _ (joint_wf _ _ _ _ _ _ _ Hj) fd a Ha) as (c & Hc & Hfd & _). pose proof Hc as Hc'. cbn in Hc. rewrite lookup_fmap in Hc.
  apply fmap_Some in Hc as (d & Hd & _). destruct (joint_bound _ _ _ _ _ _ _ Hj _ _ Hd) as [[x Hx] _].
  destruct (proj1 (joint_dom _ _ _ _ _ _ _ Hj a)) as [w Hw]; [by exists x|].
  pose proof (alike_channel _ _ _ _ _ (joint_alike _ _ _ _ _ _ _ Hj _ _ _ Hx Hw)) as Hch. unfold same_channel in Hch. cbn [env_ view] in Hch.
  destruct (joint_info _ _ _ _ _ _ _ Hj _ _ Hx) as [Ef _].
  destruct (freed_ (member_env x)) eqn:Hfr.
  - destruct Hch as [Hn _]. cbn in Hn, Hc'. congruence.
  - destruct Hch as (_ & c' & Hc2 & _ & []). cbn in Hc2, Hc'. assert (c' = c) as -> by congruence.
    destruct (Hfresh a x Hx) as [?|Hne]; [congruence|]. apply Hne. congruence.
Qed.

Definition upd {A} i (a : A) (f : Z → A) : Z → A := λ j, if decide (j = i) then a else f j.
Lemma upd_eq {A} i (a : A) f : upd i a f i = a.
Proof. unfold upd. by rewrite decide_True. Qed.
Lemma upd_ne {A} i j (a : A) f : j ≠ i → upd i a f j = f j.
Proof. intros. unfold upd. by rewrite decide_False. Qed.

Lemma joint_joined fds calls n S ws i o :
  joint tid fds calls false n S ws → 0 ≤ n → fresh i (new_fd o) S → can_watch (new_fd o) →
  joint tid (upd i (new_fd o) fds) (upd i (new_cbs o) calls) false n (joined i o S) (<[i := newcomer_world i o]> ws).
Proof.
  intros Hj Hn Hfresh Hwatch. pose proof (fresh_unregistered _ _ _ _ _ _ _ _ Hj Hfresh) as Hch. destruct Hfresh as [Hi Hfresh].
  pose proof Hj as [J1 J2 J3 J4 J5 J6 J7 J8 J9 J10 J11 J12].
  assert (Hh : heap_ (poller_ (base_ S)) !! i = None).
  { destruct (heap_ _ !! i) as [c|] eqn:Hc; [|done]. destruct (J5 _ _ Hc) as [[x Hx] _]. congruence. }
  assert (Hwi : ws !! i = None).
  { destruct (ws !! i) as [w|] eqn:Hw; [|done]. destruct (proj2 (J7 i)) as [x Hx]; [by exists w|congruence]. }
  set (c0 := conn_channel (new_fd o)).
  assert (Eh : ∀ h : gmap Z (Channel (Z * functor)), channel_map snd <$> <[i := channel_map (pair i) c0]> h = <[i := c0]> (channel_map snd <$> h)).
  { intros h. by rewrite fmap_insert, channel_map_id. }
  assert (Hwf : poller_wf (unbound (poller_ (base_ (joined i o S))))).
  { unfold unbound. cbn. rewrite Eh. apply (poller_wf_add (unbound (poller_ (base_ S)))); [done| |done|done]. cbn. by rewrite lookup_fmap, Hh. }
  constructor; try done.
  - intros a c. cbn. intros [[<- <-]|[Hne Hc]]%lookup_insert_Some; rewrite lookup_insert_is_Some.
    + split; [by left|]. by rewrite (channel_map_id (pair i) snd).
    + destruct (J5 _ _ Hc). split; [by right|done].
  - intros e He. cbn. rewrite lookup_insert_is_Some. right. split; [|by apply J6]. intros ->. destruct (J6 e He). congruence.
  - intros j. cbn. rewrite !lookup_insert_is_Some, J7. done.
  - intros j x. cbn. intros [[<- <-]|[Hne Hx]]%lookup_insert_Some; [by rewrite !upd_eq|]. rewrite !upd_ne by done. by apply J8.
  - intros j x w. cbn. intros [[<- <-]|[Hne Hx]]%lookup_insert_Some [[Hne' <-]|[Hne' Hw]]%lookup_insert_Some; try done.
    + rewrite upd_eq. constructor; try done.
      * cbn. by rewrite J3.
      * cbn. apply mine_none. intros e He E. destruct (J6 e He). congruence.
      * split; [done|]. apply poller_wf_init. intros a c [<- <-]%lookup_singleton_Some. done.
      * unfold same_channel. cbn. rewrite Eh. split; [by rewrite Hch|]. exists c0. rewrite lookup_insert_eq, lookup_singleton_eq.
        split_and!; [done..|]. constructor; try done. by left.
    + rewrite upd_ne by done. pose proof (J9 j x w Hx Hw) as [A1 A2 A3 A4 A5 A6 A7 [_ A8] A9]. constructor; try done.
      unfold same_channel in *. cbn in *. rewrite Eh, lookup_insert_ne by done. destruct (freed_ (member_env x)); [done|].
      destruct A9 as (? & c & ? & ? & []). split; [done|]. exists c. by split_and!.
  - intros j w [[<- <-]|[_ Hw]]%lookup_insert_Some; [cbn; lia|by eapply J10].
  - intros j w a [[<- <-]|[_ Hw]]%lookup_insert_Some Hne; [cbn; by rewrite lookup_singleton_ne|by eapply J11].
  - intros j k x y. cbn. intros [[<- <-]|[Hne Hx]]%lookup_insert_Some [[<- <-]|[Hne' Hy]]%lookup_insert_Some Hjk F1 F2; [done|..].
    + rewrite upd_eq, upd_ne by done. destruct (Hfresh k y Hy) as [?|Hd]; [congruence|]. destruct (J8 k y Hy). congruence.
    + rewrite upd_eq, upd_ne by done. destruct (Hfresh j x Hx) as [?|Hd]; [congruence|]. destruct (J8 j x Hx). congruence.
    + rewrite !upd_ne by done. by apply (J12 j k x y).
Qed.

(** ** Runs *)

(** The run of connection [i] alone, which joined as [o], through [hs]. *)
Definition alone (i : Z) (o : Newcomer) (hs : list happening) : prog (World Q) () :=
  run i tid other (new_fd o) (new_cbs o) (steps_for i (new_fd o) hs).

(** Every connection is where its run alone is. *)
Definition accompanied (past : list happening) fds calls ws : Prop :=
  ∀ i w, ws !! i = Some w → ∃ before o after, past = before ++ Joins i o :: after ∧ fds i = new_fd o ∧ calls i = new_cbs o ∧
    alone i o after (newcomer_world i o) = Ok (tt, w).

Lemma steps_for_app i fd hs hs' : steps_for i fd (hs ++ hs') = steps_for i fd hs ++ steps_for i fd hs'.
Proof. apply bind_app. Qed.

Lemma alone_run i o hs w0 :
  alone i o hs w0 =
    match establish i tid other (new_cbs o) w0 with
    | Ok (_, w) => for_each (run_step i tid other (new_fd o) (new_cbs o)) (steps_for i (new_fd o) hs) w
    | Fault f => Fault f
    end.
Proof. done. Qed.

Lemma for_each_app_run {W A} (f : A → prog W ()) xs ys s :
  for_each f (xs ++ ys) s = match for_each f xs s with Ok (_, s') => for_each f ys s' | Fault e => Fault e end.
Proof.
  induction xs as [|x xs IH] in s |- *; [done|]. cbn [app for_each]. unfold mbind, prog_bind. destruct (f x s) as [[a s']|]; [|done].
  apply IH.
Qed.

Lemma alone_app i o hs hs' w0 w :
  alone i o hs w0 = Ok (tt, w) →
  alone i o (hs ++ hs') w0 = for_each (run_step i tid other (new_fd o) (new_cbs o)) (steps_for i (new_fd o) hs') w.
Proof.
  rewrite !alone_run, steps_for_app. destruct (establish _ _ _ _ w0) as [[[] w1]|]; [|done].
  rewrite for_each_app_run. by intros ->.
Qed.

(** The run alone goes on with the next step, as it does not fault later. *)
Lemma alone_next (E : fault → Prop) i o after h rest s w :
  wpf E (alone i o (after ++ h :: rest)) (λ _ _, True) (newcomer_world i o) →
  alone i o after (newcomer_world i o) = Ok (tt, w) → steps_in i (new_fd o) h = [s] →
  wpf E (run_step i tid other (new_fd o) (new_cbs o) s) (λ _ w', alone i o (after ++ [h]) (newcomer_world i o) = Ok (tt, w')) w.
Proof.
  intros Hrun Hw Hs. rewrite (alone_app _ _ _ [h] _ _ Hw). unfold wpf in *. rewrite (alone_app _ _ _ (h :: rest) _ _ Hw) in Hrun.
  unfold steps_for in *. cbn [mbind list_bind] in *. rewrite Hs in *. cbn [app for_each] in *. unfold mbind, prog_bind in *.
  destruct (run_step _ _ _ _ _ s w) as [[[] w']|]; [done|exact Hrun].
Qed.
Lemma alone_same i o after h w :
  alone i o after (newcomer_world i o) = Ok (tt, w) → steps_in i (new_fd o) h = [] →
  alone i o (after ++ [h]) (newcomer_world i o) = Ok (tt, w).
Proof. intros Hw Hs. rewrite (alone_app _ _ _ _ _ _ Hw). unfold steps_for. cbn [mbind list_bind]. by rewrite Hs. Qed.

(** What is assumed: the kernel reports a descriptor once, and no connection faults when it is alone. *)
Definition polled_once (h : happening) : Prop := match h with Polled rs _ => NoDup rs.*1 | _ => True end.
Definition alone_safe (E : fault → Prop) (hs : list happening) : Prop := ∀ before i o after,
  hs = before ++ Joins i o :: after →
  can_watch (new_fd o) ∧ wpf E (alone i o after) (λ _ _, True) (newcomer_world i o).

Lemma accompanied_same past fds calls ws h :
  accompanied past fds calls ws → (∀ i w, ws !! i = Some w → steps_in i (fds i) h = []) → accompanied (past ++ [h]) fds calls ws.
Proof.
  intros Hacc Hs i w Hw. destruct (Hacc i w Hw) as (before & o & after & -> & Ef & Ec & Hrun).
  exists before, o, (after ++ [h]). split_and!; [by rewrite <- app_assoc|done..|]. apply alone_same; [done|]. rewrite <- Ef. by eapply Hs.
Qed.

Context (Hother : other ≠ tid).

(** The connections that join, each with what happens afterwards. *)
Fixpoint joins_of (hs : list happening) : list (Z * Newcomer * list happening) :=
  match hs with
  | [] => []
  | Joins i o :: hs => (i, o, hs) :: joins_of hs
  | _ :: hs => joins_of hs
  end.

(** Where the loop and its connections [ws] are when after [past], with [n] iterations, also [hs] has happened. *)
Definition stands past hs n ws S : Prop := ∃ fds calls n' ws',
  joint tid fds calls false n' S ws' ∧ accompanied (past ++ hs) fds calls ws' ∧ n ≤ n' ≤ n + zlen hs ∧
  (joins_of hs = [] → dom ws' = dom ws).

Lemma stands_same past fds calls n S ws h :
  joint tid fds calls false n S ws → accompanied past fds calls ws → (∀ i w, ws !! i = Some w → steps_in i (fds i) h = []) →
  stands past [h] n ws S.
Proof. intros Hj Hacc Hs. exists fds, calls, n, ws. split_and!; [done|by apply accompanied_same|unfold zlen; cbn; lia..|done]. Qed.

Lemma accompanied_step (E : fault → Prop) past h rest fds calls ws i w s :
  accompanied past fds calls ws → alone_safe E (past ++ h :: rest) → ws !! i = Some w → steps_in i (fds i) h = [s] →
  wpf E (run_step i tid other (fds i) (calls i) s)
    (λ _ w', ∃ before o after, past ++ [h] = before ++ Joins i o :: after ∧ fds i = new_fd o ∧ calls i = new_cbs o ∧
       alone i o after (newcomer_world i o) = Ok (tt, w')) w.
Proof.
  intros Hacc Hsafe Hw Hs. destruct (Hacc i w Hw) as (before & o & after & -> & Ef & Ec & Hrun). rewrite Ef, Ec in *. eapply wp_mono.
  - eapply (alone_next E i o after h rest s w); [|done|done]. apply (Hsafe before i o). by rewrite <- app_assoc.
  - cbv beta. intros [] w' Hw'. exists before, o, (after ++ [h]). by rewrite <- app_assoc.
Qed.

Lemma joins_each (E : fault → Prop) past i o rest fds calls n S ws :
  joint tid fds calls false n S ws → accompanied past fds calls ws → alone_safe E (past ++ Joins i o :: rest) →
  0 ≤ n < 2 ^ 62 → wpf E (happen tid other (Joins i o)) (λ _, stands past [Joins i o] n ws) S.
Proof.
  intros Hj Hacc Hsafe Hn. cbn [happen]. rewrite wp_bind, wp_get, wp_when.
  case_bool_decide as Hfresh; [|by eapply stands_same]. rewrite wp_bind, wp_put.
  destruct (Hsafe past i o rest eq_refl) as [Hwatch Halone].
  pose proof (joint_joined _ _ _ _ _ _ _ Hj ltac:(lia) Hfresh Hwatch) as Hj1.
  pose proof (establish_does tid other (upd i (new_fd o) fds) (upd i (new_cbs o) calls) n i _ _ _ Hj1 (lookup_insert_eq _ _ _)) as Hest.
  rewrite upd_eq in Hest. unfold alone, run in Halone. rewrite wp_bind in Halone. unfold wpf in Halone at 1. unfold wpf.
  destruct (establish i tid other (new_cbs o) (newcomer_world i o)) as [[[] w1]|f] eqn:Hes; [|by rewrite Hest].
  destruct Hest as (S' & -> & Hj2). rewrite insert_insert_eq in Hj2.
  exists (upd i (new_fd o) fds), (upd i (new_cbs o) calls), n, (<[i := w1]> ws). split_and!; [done| |unfold zlen; cbn; lia..|done].
  intros j w [[<- <-]|[Hne Hw]]%lookup_insert_Some.
  - exists past, o, []. rewrite !upd_eq. split_and!; [done..|]. unfold alone, run, mbind, prog_bind. by rewrite Hes.
  - rewrite !upd_ne by done. destruct (Hacc j w Hw) as (before & o' & after & -> & Ef & Ec & Hrun).
    exists before, o', (after ++ [Joins i o]). split_and!; [by rewrite <- app_assoc|done..|]. by apply alone_same.
Qed.

Lemma does_each (E : fault → Prop) past i s rest fds calls n S ws :
  joint tid fds calls false n S ws → accompanied past fds calls ws → alone_safe E (past ++ Does i s :: rest) →
  wpf E (happen tid other (Does i s)) (λ _, stands past [Does i s] n ws) S.
Proof.
  intros Hj Hacc Hsafe. cbn [happen]. rewrite wp_bind, wp_get, wp_when.
  destruct (is_poll s) eqn:Hp; [rewrite andb_false_r; eapply stands_same; [done..|]; intros j w _; cbn; rewrite Hp; by case_decide|].
  rewrite andb_true_r. case_bool_decide as Hmem.
  2:{ eapply stands_same; [done..|]. intros j w Hw. cbn. rewrite decide_False; [done|]. intros ->.
      apply Hmem, (joint_dom _ _ _ _ _ _ _ Hj). by exists w. }
  apply (joint_dom _ _ _ _ _ _ _ Hj) in Hmem as [w Hw].
  pose proof (step_does tid other Hother fds calls n i s Hp _ _ _ Hj Hw) as Hdo.
  assert (Hi : steps_in i (fds i) (Does i s) = [s]) by (cbn; by rewrite decide_True, Hp).
  pose proof (accompanied_step E past _ rest _ _ _ i w s Hacc Hsafe Hw Hi) as Hnext. unfold wpf in *.
  destruct (run_step i tid other (fds i) (calls i) s w) as [[[] w']|f]; [|by rewrite Hdo].
  destruct Hdo as (S' & -> & Hj'). exists fds, calls, n, (<[i := w']> ws). split_and!; [done| |unfold zlen; cbn; lia..|intros _; rewrite dom_insert_lookup_L; [done|by exists w]].
  intros j v [[<- <-]|[Hne Hv]]%lookup_insert_Some; [exact Hnext|].
  apply (accompanied_same past fds calls (delete i ws)).
  - intros k u [_ Hu]%lookup_delete_Some. by apply Hacc.
  - intros k u [Hk _]%lookup_delete_Some. cbn. by rewrite decide_False.
  - by rewrite lookup_delete_ne.
Qed.

(** One more happening. *)
Lemma happen_each (E : fault → Prop) past h rest fds calls n S ws :
  joint tid fds calls false n S ws → accompanied past fds calls ws → alone_safe E (past ++ h :: rest) → polled_once h →
  0 ≤ n < 2 ^ 62 → wpf E (happen tid other h) (λ _, stands past [h] n ws) S.
Proof.
  intros Hj Hacc Hsafe Hpoll Hn. destruct h as [i o|i s|rs t]; [by eapply joins_each|by eapply does_each|]. cbn [happen]. eapply wp_mono.
  - eapply (poll_together tid other fds calls E _ n rs t S ws); [done..|]. intros i w Hw. by eapply accompanied_step.
  - cbv beta. intros _ S' (ws' & Hj' & Hdom & Hall). exists fds, calls, (n + 1), ws'. split_and!; [done|exact Hall|unfold zlen; cbn; lia..|done].
Qed.

Lemma shared_init_joint : joint tid (λ _, 0) (λ _, mkCallbacks None None None None None 0) false 0 (shared_init tid) (∅ : gmap Z (World Q)).
Proof.
  constructor; cbn; try done.
  - unfold unbound, EPollPoller_init. cbn. rewrite fmap_empty. apply (poller_wf_init (∅ : gmap Z (Channel functor))).
    by intros a c ?%lookup_empty_Some.
  - by intros e ?%elem_of_nil.
  - intros i. by split; intros [? ?%lookup_empty_Some].
Qed.

Lemma shared_run_each (E : fault → Prop) past hs fds calls n S ws :
  joint tid fds calls false n S ws → accompanied past fds calls ws → alone_safe E (past ++ hs) → Forall polled_once hs →
  0 ≤ n → n + zlen hs < 2 ^ 62 →
  wpf E (shared_run tid other hs) (λ _, stands past hs n ws) S.
Proof.
  intros Hj Hacc Hsafe Hp. unfold shared_run. induction Hp as [|h hs Hh Hp IH] in past, fds, calls, n, S, ws, Hj, Hacc, Hsafe |- *;
    intros Hn Hlen; cbn [for_each].
  - rewrite wp_ret. exists fds, calls, n, ws. rewrite app_nil_r. split_and!; [done..|unfold zlen; cbn; lia|done].
  - rewrite zlen_cons in Hlen. pose proof (zlen_nonneg hs). rewrite wp_bind. eapply wp_mono; [eapply happen_each; [done..|lia]|].
    cbv beta. intros _ S1 (fds1 & calls1 & n1 & ws1 & Hj1 & Hacc1 & Hn1 & Hd1). change (zlen [h]) with 1 in Hn1.
    assert (E1 : past ++ h :: hs = (past ++ [h]) ++ hs) by by rewrite <- app_assoc. rewrite E1 in *.
    eapply wp_mono; [by apply (IH (past ++ [h]) fds1 calls1 n1 S1 ws1); [..|lia|lia]|]. cbv beta. intros _ S2 (fds2 & calls2 & n2 & ws2 & Hj2 & Hacc2 & Hn2 & Hd2).
    exists fds2, calls2, n2, ws2. rewrite E1, zlen_cons. split_and!; [done..|lia|lia|]. intros Hno.
    rewrite Hd2, Hd1; [done|by destruct h|by destruct h].
Qed.

Lemma elem_of_joins_of before i o after : (i, o, after) ∈ joins_of (before ++ Joins i o :: after).
Proof. induction before as [|h before IH]; cbn; [by left|]. destruct h; [by right|done..]. Qed.

(** Connection [i] of the loop is as it is at the end of its run alone. *)
Record as_alone (S : Shared Q) i (x : Member Q) (o : Newcomer) w : Prop := {
  as_fd : fd_of x = new_fd o;
  as_conn : member_conn x = conn_ w;
  as_env : member_env x = env_ w;
  as_log : member_log x = log_ w;
  as_pending : mine i (pendingFunctors_ (base_ S)) = pendingFunctors_ (loop_ w);
  as_watched : freed_ (member_env x) = false →
    interest (epollfd_ (poller_ (base_ S))) !! fd_of x = interest (epollfd_ (poller_ (loop_ w))) !! fd_of x
}.

(** What a descriptor is watched for goes to the one connection that has it. *)
Definition watched_apart (S : Shared Q) : Prop := ∀ fd i ev,
  interest (epollfd_ (poller_ (base_ S))) !! fd = Some (i, ev) →
  ∃ x, members_ S !! i = Some x ∧ fd_of x = fd ∧ freed_ (member_env x) = false ∧
       ∀ j y, members_ S !! j = Some y → fd_of y = fd → freed_ (member_env y) = false → j = i.

Definition settings (hs : list happening) : Prop :=
  Forall (λ '(i, o, after), setting tid other (new_fd o) (new_cbs o) (new_holds o) (new_reads o) (steps_for i (new_fd o) after))
    (joins_of hs).

Lemma settings_safe hs more : settings (hs ++ more) → alone_safe (λ f, f = LengthError) hs.
Proof.
  intros Hset before i o after ->. unfold settings in Hset. rewrite list.Forall_forall in Hset.
  rewrite <- app_assoc in Hset. specialize (Hset _ (elem_of_joins_of before i o (after ++ more))).
  cbn in Hset. rewrite steps_for_app in Hset. split; [by apply Hset|]. eapply wp_mono; [by apply run_spec|]. done.
Qed.

Lemma joint_watched fds calls n S ws : joint tid fds calls false n S ws → watched_apart S.
Proof.
  intros Hj fd i ev (c & Hc & Hfd & _)%(wf_interest _ (joint_wf _ _ _ _ _ _ _ Hj)).
  pose proof Hc as Hc'. cbn in Hc'. rewrite lookup_fmap in Hc'. apply fmap_Some in Hc' as (d & Hd & _).
  destruct (joint_bound _ _ _ _ _ _ _ Hj _ _ Hd) as [[x Hx] _]. destruct (proj1 (joint_dom _ _ _ _ _ _ _ Hj i)) as [w Hw]; [by exists x|].
  pose proof (alike_channel _ _ _ _ _ (joint_alike _ _ _ _ _ _ _ Hj _ _ _ Hx Hw)) as Hch. unfold same_channel in Hch.
  change (poller_ (loop_ (view i x S))) with (unbound (poller_ (base_ S))) in Hch. rewrite Hc in Hch. cbn [view env_] in Hch.
  destruct (freed_ (member_env x)) eqn:Hf; [by destruct Hch|]. destruct Hch as (_ & c' & [= <-] & _ & [Hown _ _ _]).
  destruct (joint_info _ _ _ _ _ _ _ Hj _ _ Hx) as [Ef _]. exists x. split_and!; [done|congruence|done|].
  intros j y Hy Hfy Hfry. destruct (joint_info _ _ _ _ _ _ _ Hj _ _ Hy) as [Efy _]. destruct (decide (j = i)) as [|Hne]; [done|].
  exfalso. apply (joint_fd _ _ _ _ _ _ _ Hj j i y x); [done..|congruence].
Qed.

(** What a run of the loop comes to. *)
Lemma shared_run_spec hs more :
  zlen hs < 2 ^ 32 → Forall polled_once hs → settings (hs ++ more) →
  wpf (λ f, f = LengthError) (shared_run tid other hs)
    (λ _ S, ∃ fds calls n ws, joint tid fds calls false n S ws ∧ accompanied hs fds calls ws ∧ 0 ≤ n ≤ zlen hs)
    (shared_init (Q := Q) tid).
Proof.
  intros Hlen Hp Hset. eapply wp_mono; [eapply (shared_run_each _ [] hs);
    [apply shared_init_joint|by intros i w ?%lookup_empty_Some|by eapply settings_safe|done|lia|lia]|].
  cbv beta. intros _ S (fds & calls & n & ws & Hj & Hacc & Hn & _). by exists fds, calls, n, ws.
Qed.

Lemma joint_as_alone hs fds calls n S ws i x :
  joint tid fds calls false n S ws → accompanied hs fds calls ws → members_ S !! i = Some x →
  ∃ o after w, (i, o, after) ∈ joins_of hs ∧ alone i o after (newcomer_world i o) = Ok (tt, w) ∧ as_alone S i x o w.
Proof.
  intros Hj Hacc Hx. destruct (proj1 (joint_dom _ _ _ _ _ _ _ Hj i)) as [w Hw]; [by exists x|].
  destruct (Hacc i w Hw) as (before & o & after & -> & Ef & Ec & Hrun). exists o, after, w. split_and!; [apply elem_of_joins_of|done|].
  destruct (joint_info _ _ _ _ _ _ _ Hj _ _ Hx) as [Efd _]. pose proof (joint_alike _ _ _ _ _ _ _ Hj _ _ _ Hx Hw) as Ha.
  constructor; [congruence|apply Ha..|]. intros Hf. destruct (alike_interest _ _ _ _ _ Ha Hf) as [Hi _]. rewrite Efd. exact Hi.
Qed.

(** C8: connections that share a loop do not interfere.  However many connections join a loop, each in the [setting] of
    ConnSafety.v, and each descriptor being reported once in an iteration; whichever of their
    sockets the kernel reports together and in whatever order, and though a descriptor is used again once its
    connection has been destroyed: the loop does not fault, each connection is at every point where its own run
    alone in a loop would be, with the same functors of its own queued, and each watched descriptor
    belongs to exactly one connection that exists. *)
Theorem loop_of_connections hs :
  zlen hs < 2 ^ 32 → Forall polled_once hs → settings hs →
  wpf (λ f, f = LengthError) (shared_run tid other hs)
    (λ _ S, watched_apart S ∧ ∀ i x, members_ S !! i = Some x → ∃ o after w,
       (i, o, after) ∈ joins_of hs ∧ alone i o after (newcomer_world i o) = Ok (tt, w) ∧ as_alone S i x o w)
    (shared_init (Q := Q) tid).
Proof.
  intros Hlen Hp Hset. eapply wp_mono; [apply (shared_run_spec hs []); [done..|by rewrite app_nil_r]|]. cbv beta. intros _ S (fds & calls & n & ws & Hj & Hacc & _).
  split; [by eapply joint_watched|]. intros i x Hx. by eapply joint_as_alone.
Qed.

(** C9: so each of them keeps what a connection promises, under the same conditions: its output reaches the kernel in order, its input the user,
    and its callbacks come in the documented order. *)
Theorem shared_connections_keep hs :
  zlen hs < 2 ^ 32 → Forall polled_once hs → settings hs →
  wpf (λ f, f = LengthError) (shared_run tid other hs)
    (λ _ S, ∀ i x, members_ S !! i = Some x →
       let c := member_conn x in let g := member_log x in
       (broken_ g = false → sent_ g = wire_ g ++ q_bytes (outputBuffer_ c)) ∧
       received_ g = consumed_ g ++ q_bytes (inputBuffer_ c) ∧
       match state_ c with
       | KConnecting => trace_ g = []
       | KConnected | KDisconnecting => open_trace (trace_ g)
       | KDisconnected => closed_trace (trace_ g)
       end)
    (shared_init (Q := Q) tid).
Proof.
  intros Hlen Hp Hset. eapply wp_mono; [apply (shared_run_spec hs []); [done..|by rewrite app_nil_r]|]. cbv beta. intros _ S (fds & calls & n & ws & Hj & Hacc & _) i x Hx.
  destruct (joint_as_alone _ _ _ _ _ _ _ _ Hj Hacc Hx) as (o & after & w & Hin & Hrun & [_ -> _ -> _ _]).
  unfold settings in Hset. rewrite list.Forall_forall in Hset. specialize (Hset _ Hin). cbn in Hset.
  destruct (run_settled _ _ _ _ _ _ _ _ _ _ Hset Hrun) as [(mn & it & _ & _ & Hw) _].
  split_and!; [by eapply settled_stream|by eapply settled_received|by eapply settled_trace].
Qed.

(** *** Giving connections back *)

(** Each connection has an address of its own. *)
Definition named (j : Z * Newcomer * list happening) : Z := j.1.1.
Definition told_apart (hs : list happening) : Prop := NoDup (named <$> joins_of hs).

Lemma joins_of_more hs more : joins_of more = [] → joins_of (hs ++ more) = (λ '(i, o, after), (i, o, after ++ more)) <$> joins_of hs.
Proof. intros Hm. induction hs as [|[i o|i s|rs t] hs IH]; cbn; [done|by rewrite IH|done|done]. Qed.

Lemma joins_unique hs i o o' after after' :
  told_apart hs → (i, o, after) ∈ joins_of hs → (i, o', after') ∈ joins_of hs → o = o' ∧ after = after'.
Proof.
  unfold told_apart. induction (joins_of hs) as [|j l IH]; [by intros _ ?%elem_of_nil|]. cbn. intros [Hn Hnd]%list.NoDup_cons.
  assert (Hnot : ∀ o after, (i, o, after) ∈ l → named j ≠ i).
  { intros o1 a1 Hin <-. apply Hn, list_elem_of_fmap. by exists (named j, o1, a1). }
  rewrite !elem_of_cons. intros [E1|H1] [E2|H2]; [by simplify_eq| | |by apply IH].
  - by destruct (Hnot _ _ H2); rewrite <- E1.
  - by destruct (Hnot _ _ H1); rewrite <- E2.
Qed.

(** The servers remove the connections [ids], and the loop makes one more iteration. *)
Definition given_back (ids : list Z) (rs : list (Z * Z)) (t : Timestamp) : list happening :=
  ((λ i, Does i MainRemove) <$> ids) ++ [Polled rs t].

Lemma given_back_joins ids rs t : joins_of (given_back ids rs t) = [].
Proof. unfold given_back. by induction ids. Qed.

Lemma given_back_steps ids rs t i fd :
  NoDup ids → i ∈ ids → steps_for i fd (given_back ids rs t) = [MainRemove; Poll (happened_on rs fd) t].
Proof.
  intros Hnd Hin. unfold given_back. rewrite steps_for_app.
  assert (Hnone : ∀ l, i ∉ l → steps_for i fd ((λ j, Does j MainRemove) <$> l) = []).
  { induction l as [|j l IH]; [done|]. intros [Hne Hl]%not_elem_of_cons. unfold steps_for in *. cbn.
    rewrite decide_False by done. by apply IH. }
  assert (Hone : steps_for i fd ((λ j, Does j MainRemove) <$> ids) = [MainRemove]).
  { induction ids as [|j l IH]; [by apply elem_of_nil in Hin|]. apply list.NoDup_cons in Hnd as [Hj Hnd].
    unfold steps_for in *. cbn. apply elem_of_cons in Hin as [<-|Hin].
    - rewrite decide_True by done. cbn. f_equal. by apply Hnone.
    - rewrite decide_False by (by intros ->). by apply IH. }
  by rewrite Hone.
Qed.

Lemma alone_reclaimed i o after ids rs t w w' :
  setting tid other (new_fd o) (new_cbs o) (new_holds o) (new_reads o) (steps_for i (new_fd o) (after ++ given_back ids rs t)) →
  new_holds o = false → TcpConnection.closeCallback_ (new_cbs o) ≠ None → NoDup ids → i ∈ ids →
  alone i o after (newcomer_world i o) = Ok (tt, w) → EvDown ∈ trace_ (log_ w) →
  alone i o (after ++ given_back ids rs t) (newcomer_world i o) = Ok (tt, w') →
  freed_ (env_ w') = true ∧ pendingFunctors_ (loop_ w') = [].
Proof.
  intros Hset Hholds Howner Hnd Hin Hrun Hdown Hrun'.
  rewrite steps_for_app, given_back_steps in Hset by done. rewrite Hholds in Hset.
  rewrite (alone_app _ _ _ _ _ _ Hrun), given_back_steps in Hrun' by done.
  unfold alone, newcomer_world in Hrun. rewrite Hholds in Hrun.
  pose proof (conn_reclaimed _ _ _ _ _ _ _ _ _ _ _ Hset Howner Hrun Hdown) as Hback.
  unfold wpf in Hback. cbn [for_each] in Hrun'. unfold mbind, prog_bind in *.
  destruct (run_step _ _ _ _ _ MainRemove w) as [[[] w1]|]; [|done].
  destruct (run_step _ _ _ _ _ (Poll _ _) w1) as [[[] w2]|]; [|done].
  injection Hrun' as <-. by destruct Hback as (? & _ & ? & _).
Qed.

(** A loop all of whose connections are destroyed. *)
Lemma joint_empty fds calls n S ws :
  joint tid fds calls false n S ws → (∀ i w, ws !! i = Some w → freed_ (env_ w) = true ∧ pendingFunctors_ (loop_ w) = []) →
  map_Forall (λ _ x, freed_ (member_env x) = true) (members_ S) ∧
  pendingFunctors_ (base_ S) = [] ∧ heap_ (poller_ (base_ S)) = ∅ ∧ interest (epollfd_ (poller_ (base_ S))) = ∅.
Proof.
  intros Hj Hall.
  assert (Hmem : ∀ i x, members_ S !! i = Some x → freed_ (member_env x) = true ∧ mine i (pendingFunctors_ (base_ S)) = [] ∧
    heap_ (poller_ (base_ S)) !! i = None).
  { intros i x Hx. destruct (proj1 (joint_dom _ _ _ _ _ _ _ Hj i)) as [w Hw]; [by exists x|]. destruct (Hall i w Hw) as [Hf Hq].
    pose proof (joint_alike _ _ _ _ _ _ _ Hj _ _ _ Hx Hw) as Ha. pose proof (alike_channel _ _ _ _ _ Ha) as Hch.
    rewrite (alike_env _ _ _ _ _ Ha), Hf in Hch. destruct Hch as [Hch _]. cbn in Hch. rewrite lookup_fmap, fmap_None in Hch.
    split_and!; [|etrans; [apply Ha|done]|done]. change (freed_ (env_ (view i x S)) = true). by rewrite (alike_env _ _ _ _ _ Ha). }
  split_and!.
  - intros i x Hx. by apply (Hmem i x).
  - destruct (pendingFunctors_ (base_ S)) as [|e q] eqn:Eq; [done|]. exfalso.
    destruct (joint_queue _ _ _ _ _ _ _ Hj e) as [x Hx]; [rewrite Eq; by left|]. destruct (Hmem _ _ Hx) as (_ & Hm & _).
    by rewrite mine_cons, decide_True in Hm.
  - apply map_empty. intros a. destruct (heap_ _ !! a) as [c|] eqn:Hc; [|done]. exfalso.
    destruct (joint_bound _ _ _ _ _ _ _ Hj _ _ Hc) as [[x Hx] _]. destruct (Hmem _ _ Hx) as (_ & _ & Hn). congruence.
  - apply map_empty. intros fd. destruct (interest _ !! fd) as [[i ev]|] eqn:Hi; [|done]. exfalso.
    destruct (joint_watched _ _ _ _ _ Hj fd i ev Hi) as (x & Hx & _ & Hf & _). destruct (Hmem _ _ Hx). congruence.
Qed.

(** C10: a shared loop gives everything back.  Each connection being in the [setting] of ConnSafety.v, the last iteration
    included (no hang-up is reported where callbacks stop to read, and no callback calls [startRead] when its
    connection is down), under an address and with an owner of its own: when every connection's user was told that it is down, and no other
    thread holds one, the removals by their servers and one more iteration of the loop destroy them all; then
    nothing waits in the loop's queue, no channel is left, and the kernel watches nothing. *)
Theorem shared_reclaimed hs ids rs t S :
  let back := given_back ids rs t in
  zlen (hs ++ back) < 2 ^ 32 → Forall polled_once (hs ++ back) → settings (hs ++ back) → told_apart hs →
  Forall (λ '(i, o, after), new_holds o = false ∧ TcpConnection.closeCallback_ (new_cbs o) ≠ None) (joins_of hs) →
  shared_run tid other hs (shared_init (Q := Q) tid) = Ok (tt, S) →
  NoDup ids → (∀ i x, members_ S !! i = Some x → i ∈ ids ∧ EvDown ∈ trace_ (member_log x)) →
  wpf (λ f, f = LengthError) (shared_run tid other back)
    (λ _ S', dom (members_ S') = dom (members_ S) ∧ map_Forall (λ _ x, freed_ (member_env x) = true) (members_ S') ∧
       pendingFunctors_ (base_ S') = [] ∧ heap_ (poller_ (base_ S')) = ∅ ∧ interest (epollfd_ (poller_ (base_ S'))) = ∅) S.
Proof.
  intros back Hlen Hp Hset Happ Hfree Hrun Hnd Hdown. rewrite zlen_app in Hlen. pose proof (zlen_nonneg back). pose proof (zlen_nonneg hs).
  pose proof Hp as [Hp1 Hp2]%Forall_app. pose proof (shared_run_spec hs back ltac:(lia) Hp1 Hset) as Hspec. unfold wpf in Hspec.
  rewrite Hrun in Hspec. destruct Hspec as (fds & calls & n & ws & Hj & Hacc & Hn).
  eapply wp_mono; [eapply (shared_run_each _ hs back); [exact Hj|exact Hacc|apply (settings_safe _ []); by rewrite app_nil_r|done|lia..]|].
  cbv beta. intros _ S' (fds' & calls' & n' & ws' & Hj' & Hacc' & _ & Hdom). specialize (Hdom (given_back_joins _ _ _)).
  split.
  { apply set_eq. intros i. rewrite !elem_of_dom, (joint_dom _ _ _ _ _ _ _ Hj i), (joint_dom _ _ _ _ _ _ _ Hj' i).
    by rewrite <- !elem_of_dom, Hdom. }
  eapply joint_empty; [exact Hj'|]. intros i w' Hw'.
  assert (is_Some (ws !! i)) as [w Hw] by (rewrite <- elem_of_dom, <- Hdom, elem_of_dom; by exists w').
  destruct (proj2 (joint_dom _ _ _ _ _ _ _ Hj i)) as [x Hx]; [by exists w|].
  destruct (Hdown i x Hx) as [Hin Hd]. destruct (joint_as_alone _ _ _ _ _ _ _ _ Hj Hacc Hx) as (o & after & w1 & Hj1 & Hrun1 & Has).
  rewrite (as_log _ _ _ _ _ Has) in Hd. destruct (Hacc' i w' Hw') as (before' & o' & after' & Eh & _ & _ & Hrun').
  pose proof (elem_of_joins_of before' i o' after') as Hj2. rewrite <- Eh in Hj2.
  assert (Hj3 : (i, o, after ++ back) ∈ joins_of (hs ++ back)).
  { rewrite joins_of_more by apply given_back_joins. apply list_elem_of_fmap. by exists (i, o, after). }
  assert (Hap : told_apart (hs ++ back)).
  { unfold told_apart. rewrite joins_of_more by apply given_back_joins. rewrite <- list_fmap_compose.
    rewrite (list_fmap_ext _ named); [exact Happ|]. by intros _ [[? ?] ?] _. }
  destruct (joins_unique _ _ _ _ _ _ Hap Hj3 Hj2) as [<- <-]. unfold settings in Hset. rewrite list.Forall_forall in Hset.
  rewrite list.Forall_forall in Hfree. destruct (Hfree _ Hj1). specialize (Hset _ Hj3). by apply (alone_reclaimed i o after ids rs t w1 w').
Qed.
End join.

(** ** An example *)

#[local] Existing Instance map_epoll.

(** Two echo connections share a loop; the first is in its server's loop.  Its peer closes, it is destroyed, and the
    next connection gets its descriptor. *)
Definition newcomer (fd : Z) (o : owner) (ws : list write_answer) (ns : list nat) : Newcomer :=
  mkNewcomer fd (owned_callbacks o) false ws (sample_kernel <$> ns).
Definition shared_steps : list happening :=
  [Joins 100 (newcomer 7 ServerInLoop [WRoom 100; WRoom 100] [3; 0]%nat);
   Joins 200 (newcomer 8 ServerOtherLoop [WRoom 1; WRoom 100; WRoom 100] [2]%nat);
   Polled [] 1;
   Polled [(8, Z.lor EPOLLIN EPOLLOUT); (7, EPOLLIN)] 2;
   Polled [(7, EPOLLIN); (8, EPOLLOUT)] 3;
   Joins 300 (newcomer 7 ServerInLoop [WRoom 100; WRoom 100] [4]%nat);
   Polled [(7, EPOLLIN)] 4].

Definition shared_world : Shared Buffer :=
  match shared_run 1 2 shared_steps (shared_init 1) with Ok (_, s) => s | Fault _ => shared_init 1 end.

(** What became of them: what was written, the state, and whether they were destroyed. *)
Example shared_outcome :
  (λ i, (λ x, (wire_ (member_log x), state_ (member_conn x), freed_ (member_env x))) <$> members_ shared_world !! i) <$> [100; 200; 300] =
  [Some (txt "hiAAA", KDisconnected, true); Some (txt "hiAA", KConnected, false); Some (txt "hiAAAA", KConnected, false)].
Proof. vm_compute. reflexivity. Qed.

(** A run that returns, without what it returns. *)
Definition returns (o : outcome (() * Shared Buffer)) : bool := match o with Ok _ => true | Fault _ => false end.
Lemma returns_run o s : returns o = true → o = Ok (tt, match o with Ok (_, s) => s | Fault _ => s end).
Proof. by destruct o as [[[] ?]|]. Qed.

Lemma shared_world_run : shared_run 1 2 shared_steps (shared_init 1) = Ok (tt, shared_world).
Proof. apply returns_run. vm_compute. reflexivity. Qed.

Lemma shared_settings : settings 1 2 shared_steps.
Proof.
  repeat constructor; try done; try exact (example_callbacks_ok _ _ _); by apply sample_kernel_law.
Qed.
Lemma shared_polls : Forall polled_once shared_steps.
Proof. repeat constructor. all: by rewrite ?list_elem_of_singleton; try apply not_elem_of_nil. Qed.

Lemma loop_of_connections_witness :
  watched_apart shared_world ∧
  (λ x, (fd_of x, state_ (member_conn x), freed_ (member_env x))) <$> members_ shared_world !! 300 = Some (7, KConnected, false).
Proof.
  pose proof (loop_of_connections 1 2 ltac:(done) shared_steps ltac:(done) shared_polls shared_settings) as Hrun.
  unfold wpf in Hrun. rewrite shared_world_run in Hrun. split; [apply Hrun|vm_compute; reflexivity].
Defined.

(** After four iterations the first connection is gone, and the third has written what it read. *)
Lemma shared_connections_keep_witness :
  (∀ i x, members_ shared_world !! i = Some x → broken_ (member_log x) = false →
     sent_ (member_log x) = wire_ (member_log x) ++ q_bytes (outputBuffer_ (member_conn x))) ∧
  size (members_ shared_world) = 3%nat.
Proof.
  pose proof (shared_connections_keep 1 2 ltac:(done) shared_steps ltac:(done) shared_polls shared_settings) as Hrun.
  unfold wpf in Hrun. rewrite shared_world_run in Hrun. split; [by intros i x [Hout _]%Hrun|vm_compute; reflexivity].
Defined.

(** Two connections whose peers close; the one of a server in another loop is not destroyed yet. *)
Definition closing_two : list happening :=
  [Joins 100 (newcomer 7 ServerInLoop [WRoom 100] [0]%nat);
   Joins 200 (newcomer 8 ServerOtherLoop [WRoom 100; WRoom 100] [2; 0]%nat);
   Polled [] 1;
   Polled [(8, EPOLLIN)] 2;
   Polled [(8, EPOLLIN); (7, EPOLLIN)] 3].

Definition closed_two : Shared Buffer :=
  match shared_run 1 2 closing_two (shared_init 1) with Ok (_, s) => s | Fault _ => shared_init 1 end.

Lemma closed_two_run : shared_run 1 2 closing_two (shared_init 1) = Ok (tt, closed_two).
Proof. apply returns_run. vm_compute. reflexivity. Qed.

Definition given_back_two : list happening := given_back [200; 100] [(8, EPOLLIN)] 4.

Lemma closing_settings : settings 1 2 (closing_two ++ given_back_two).
Proof.
  repeat constructor; try done; try exact (example_callbacks_ok _ _ _); by apply sample_kernel_law.
Qed.
Lemma closing_polls : Forall polled_once (closing_two ++ given_back_two).
Proof. repeat constructor. all: by rewrite ?list_elem_of_singleton; try apply not_elem_of_nil. Qed.

Lemma closed_two_down i x : members_ closed_two !! i = Some x → i ∈ [200; 100] ∧ EvDown ∈ trace_ (member_log x).
Proof.
  intros Hx. assert (Hall : map_Forall (λ i x, i ∈ [200; 100] ∧ EvDown ∈ trace_ (member_log x)) (members_ closed_two))
    by (refine (bool_decide_unpack _ _); vm_compute; exact I). by apply (Hall i x).
Qed.

Lemma shared_reclaimed_witness :
  match shared_run 1 2 given_back_two closed_two with
  | Ok (_, s) => map_Forall (λ _ x, freed_ (member_env x) = true) (members_ s)
  | Fault _ => False
  end ∧ (λ x, freed_ (member_env x)) <$> members_ closed_two !! 200 = Some false.
Proof.
  split; [|vm_compute; reflexivity].
  assert (Hret : returns (shared_run 1 2 given_back_two closed_two) = true) by (vm_compute; reflexivity).
  pose proof (shared_reclaimed 1 2 ltac:(done) closing_two [200; 100] [(8, EPOLLIN)] 4 closed_two ltac:(done) closing_polls
    closing_settings ltac:(by refine (bool_decide_unpack _ _)) ltac:(by repeat constructor) closed_two_run ltac:(by refine (bool_decide_unpack _ _))
    closed_two_down) as Hback.
  unfold wpf in Hback. fold given_back_two in Hback. destruct (shared_run 1 2 given_back_two closed_two) as [[[] s]|f]; [apply Hback|done].
Defined.
