(* ===== verification/Sockets.v ===== *)
(** * Sockets: [net::sockets], [net::Socket] (net/socket), [net::InetAddress] (net/inetaddress)

    Addresses and their text, and the descriptors of the process.  The kernel is an
    interface: how many descriptors are left, the connections waiting at the listening
    socket and the failures waiting there, and the documented effect of [accept4], [close] and [open]. *)
From S2P Require Import Prelude Printf.

(** ** Addresses *)

(** [struct sockaddr_in]: the four bytes of the address and the port, in network order. *)
Record sockaddr_in : Type := mkSockaddr {
  sin_addr : Z * Z * Z * Z;
  sin_port : Z
}.

#[export] Instance sockaddr_eq_dec : EqDecision sockaddr_in.
Proof. solve_decision. Defined.

(** [htons] and [ntohs] of a little-endian machine. *)
Definition htons (p : Z) : Z := Z.lor (Z.shiftl (Z.land p 255) 8) (Z.shiftr p 8).
Definition ntohs (p : Z) : Z := htons p.

(** [inet_ntop] of an IPv4 address. *)
Definition inet_ntop (a : Z * Z * Z * Z) : list byte :=
  let '(a1, a2, a3, a4) := a in
  print_dec a1 ++ txt "." ++ print_dec a2 ++ txt "." ++ print_dec a3 ++ txt "." ++ print_dec a4.

Definition sockets_toIpPort (size : Z) (addr : sockaddr_in) : list byte :=
  let ip := inet_ntop (sin_addr addr) in
  ip ++ snprintf (size - zlen ip) (print_dec (ntohs (sin_port addr))).

Definition InetAddress : Type := sockaddr_in.

Definition InetAddress_any (port : Z) : InetAddress := mkSockaddr (0, 0, 0, 0) (htons port).

(** [InetAddress(ip, port)], [inet_pton] having understood [ip]. *)
Definition InetAddress_of (ip : Z * Z * Z * Z) (port : Z) : InetAddress := mkSockaddr ip (htons port).

Definition toIpPort (a : InetAddress) : list byte := sockets_toIpPort 64 a.

(** [sockets::fromIpPort]: [inet_pton] stores an address only when it understands the text. *)
Definition sockets_fromIpPort (inet_pton : list byte → option (Z * Z * Z * Z)) (ip : list byte) (port : Z)
    (addr : sockaddr_in) : sockaddr_in :=
  mkSockaddr (default (sin_addr addr) (inet_pton ip)) (htons port).

(** [InetAddress(ip, port)] on the memory [indeterminate], which is not cleared. *)
Definition InetAddress_text inet_pton (indeterminate : sockaddr_in) (ip : list byte) (port : Z) : InetAddress :=
  sockets_fromIpPort inet_pton ip port indeterminate.

(** [sockets::getLocalAddr] and [sockets::getPeerAddr]: zeros when the kernel stores nothing. *)
Definition sockets_getLocalAddr (stored : option sockaddr_in) : sockaddr_in := default (mkSockaddr (0, 0, 0, 0) 0) stored.
Definition sockets_getPeerAddr (stored : option sockaddr_in) : sockaddr_in := default (mkSockaddr (0, 0, 0, 0) 0) stored.

(** ** Descriptors *)

Definition EPERM : Z := 1.
Definition EINTR : Z := 4.
Definition EAGAIN : Z := 11.
Definition EMFILE : Z := 24.
Definition EPROTO : Z := 71.
Definition ECONNABORTED : Z := 103.

(** Socket options by level and name, as [setsockopt] stores them; its result is ignored. *)
Abbreviation options := (gmap (Z * Z) Z).
Definition IPPROTO_TCP : Z := 6.
Definition TCP_NODELAY : Z := 1.
Definition SOL_SOCKET : Z := 1.
Definition SO_REUSEADDR : Z := 2.
Definition SO_KEEPALIVE : Z := 9.
Definition SO_REUSEPORT : Z := 15.

Definition setTcpNoDelay (on : bool) (o : options) : options := <[(IPPROTO_TCP, TCP_NODELAY) := Z.b2z on]> o.
Definition setReuseAddr (on : bool) (o : options) : options := <[(SOL_SOCKET, SO_REUSEADDR) := Z.b2z on]> o.
Definition setReusePort (on : bool) (o : options) : options := <[(SOL_SOCKET, SO_REUSEPORT) := Z.b2z on]> o.
Definition setKeepAlive (on : bool) (o : options) : options := <[(SOL_SOCKET, SO_KEEPALIVE) := Z.b2z on]> o.

(** What the program does with the results of [socket] and [bind]: LOG_SYSFATAL ends the process. *)
Definition createNonblockingSocket (ret : Z) : outcome Z := if ret <? 0 then Fault ProcessAborted else Ok ret.
Definition createBlockingSocket (ret : Z) : outcome Z := if ret <? 0 then Fault ProcessAborted else Ok ret.
Definition sockets_bind (ret : Z) : outcome () := if ret <? 0 then Fault ProcessAborted else Ok tt.

(** [sockets::listen]: a failure is only logged. *)
Definition sockets_listen (ret : Z) : outcome () := Ok tt.

(** [sockets::connect]: the result of [connect] and [errno] after it; a failure other than EINPROGRESS is
    logged with LOG_SYSERR, which may leave another [errno]. *)
Definition EINPROGRESS : Z := 115.
Definition sockets_connect (ret errno logged : Z) : Z * Z :=
  (ret, if ret <? 0 then (if errno =? EINPROGRESS then errno else logged) else errno).

(** What waits at a listening socket: a connection, or a failure that the next [accept4] reports. *)
Inductive failure : Type := Aborted | Interrupted | BadProtocol | Forbidden.
Inductive arrival : Type :=
| Peer (p : sockaddr_in)
| Failed (f : failure).

Definition errno_of (f : failure) : Z :=
  match f with Aborted => ECONNABORTED | Interrupted => EINTR | BadProtocol => EPROTO | Forbidden => EPERM end.

(** The process and one listening socket. *)
Class Descriptors : Type := {
  kernel : Type;
  listener : Z;                            (** the listening socket, on which [accept4] works *)
  free : kernel → Z;                       (** descriptors the process may still open *)
  is_open : kernel → Z → Prop;
  backlog : kernel → list arrival;         (** what waits to be accepted *)
  accept4 : kernel → (Z + Z * sockaddr_in) * kernel;    (** an errno, or a descriptor and the peer *)
  close_fd : Z → kernel → kernel;
  open_null : kernel → Z * kernel;
  connects : arrival → kernel → kernel;    (** a peer connects or fails to, the queue having room *)
  is_open_nonneg k fd : is_open k fd → 0 ≤ fd;
  free_nonneg k : 0 ≤ free k;
  accept4_none k : is_open k listener → backlog k = [] → accept4 k = (inl EAGAIN, k);
  accept4_full k p ps : is_open k listener → backlog k = p :: ps → free k = 0 → accept4 k = (inl EMFILE, k);
  accept4_failed k f ps : is_open k listener → backlog k = Failed f :: ps → 0 < free k →
    ∃ k', accept4 k = (inl (errno_of f), k') ∧ free k' = free k ∧ backlog k' = ps ∧ (∀ x, is_open k' x ↔ is_open k x);
  accept4_some k p ps : is_open k listener → backlog k = Peer p :: ps → 0 < free k →
    ∃ fd k', accept4 k = (inr (fd, p), k') ∧ 0 ≤ fd ∧ ¬ is_open k fd ∧
      free k' = free k - 1 ∧ backlog k' = ps ∧ (∀ x, is_open k' x ↔ is_open k x ∨ x = fd);
  close_fd_open k fd : is_open k fd →
    free (close_fd fd k) = free k + 1 ∧ (fd ≠ listener → backlog (close_fd fd k) = backlog k) ∧
    (∀ x, is_open (close_fd fd k) x ↔ is_open k x ∧ x ≠ fd);
  close_fd_bad k fd : ¬ is_open k fd → close_fd fd k = k;
  open_null_some k : 0 < free k →
    ∃ fd k', open_null k = (fd, k') ∧ 0 ≤ fd ∧ ¬ is_open k fd ∧
      free k' = free k - 1 ∧ backlog k' = backlog k ∧ (∀ x, is_open k' x ↔ is_open k x ∨ x = fd);
  open_null_full k : free k = 0 → open_null k = (-1, k);
  connects_queued p k : free (connects p k) = free k ∧ backlog (connects p k) = backlog k ++ [p] ∧
    (∀ x, is_open (connects p k) x ↔ is_open k x)
}.

Section sockets.
Context `{Descriptors}.

(** [sockets::close]; it leaves descriptor 0 alone. *)
Definition sockets_close (sockfd : Z) : prog kernel () :=
  when_ (0 <? sockfd) (modify (close_fd sockfd)).

(** ~Socket. *)
Definition Socket_dtor (sockfd : Z) : prog kernel () := sockets_close sockfd.

(** The errors after which [accept] is tried again; all others abort. *)
Definition transient (e : Z) : bool :=
  (e =? EAGAIN) || (e =? ECONNABORTED) || (e =? EINTR) || (e =? EPROTO) || (e =? EPERM) || (e =? EMFILE).

(** [sockets::accept]: the descriptor and the peer, or -1 and [errno]. *)
Definition sockets_accept : prog kernel (Z + Z * sockaddr_in) :=
  k ← get;
  put (accept4 k).2 ;;
  match (accept4 k).1 with
  | inl e => if transient e then mret (inl e) else raise ProcessAborted
  | inr c => mret (inr c)
  end.

(** The members of [Socket] that forward. *)
Definition Socket_accept : prog kernel (Z + Z * InetAddress) := sockets_accept.
Definition Socket_bindAddress (ret : Z) : outcome () := sockets_bind ret.
Definition Socket_listen (ret : Z) : outcome () := sockets_listen ret.
End sockets.

(** ** Addresses and texts *)

(** [htons] swaps the two bytes. *)
Lemma htons_spec p : 0 ≤ p < 65536 → htons p = 256 * (p mod 256) + p / 256.
Proof.
  intros Hp. unfold htons. change 255 with (Z.ones 8).
  rewrite Z.shiftr_div_pow2, Z.land_ones, Z.shiftl_mul_pow2 by lia.
  change (2 ^ 8) with 256.
  assert (Hq : 0 ≤ p / 256 < 2 ^ 8) by (split; [apply Z.div_pos|apply Z.div_lt_upper_bound]; lia).
  assert (Hdisj : Z.land (p mod 256 * 256) (p / 256) = 0).
  { apply Z.bits_inj'. intros n Hn. rewrite Z.land_spec, Z.bits_0. change 256 with (2 ^ 8) at 2.
    destruct (Z.lt_ge_cases n 8) as [?|?]; [by rewrite Z.mul_pow2_bits_low by lia|].
    rewrite (proj1 (Z.bounded_iff_bits_nonneg 8 (p / 256) ltac:(lia) ltac:(lia))) by lia. by rewrite andb_false_r. }
  rewrite <- Z.lxor_lor, <- Z.add_nocarry_lxor by done. lia.
Qed.

Lemma ntohs_htons p : 0 ≤ p < 65536 → ntohs (htons p) = p.
Proof.
  intros Hp. assert (0 ≤ p / 256 < 256) by (split; [apply Z.div_pos|apply Z.div_lt_upper_bound]; lia).
  pose proof (Z.mod_pos_bound p 256). pose proof (Z.div_mod p 256).
  unfold ntohs. rewrite !htons_spec by (try rewrite htons_spec by lia; lia).
  replace (256 * (p mod 256) + p / 256) with (p / 256 + p mod 256 * 256) by lia.
  rewrite Z_mod_plus_full, Z.div_add by lia.
  rewrite (Z.mod_small (p / 256)), (Z.div_small (p / 256)) by lia. lia.
Qed.

(** The text of an address does not separate the address from the port: two endpoints share one. *)
Lemma toIpPort_ambiguous :
  toIpPort (InetAddress_of (1, 1, 1, 1) 23) = toIpPort (InetAddress_of (1, 1, 1, 12) 3).
Proof. vm_compute. reflexivity. Qed.

(** A text that is no address leaves what the memory held. *)
Example InetAddress_text_garbage :
  sin_addr (InetAddress_text (λ _, None) (mkSockaddr (222, 173, 190, 239) 0) (txt "localhost") 80) = (222, 173, 190, 239).
Proof. reflexivity. Qed.
