(* ===== verification/Acceptor.v ===== *)
(** * Acceptor: [net::Acceptor] (net/acceptor)

    The listening socket's handler.  One descriptor is kept in reserve so that, when the
    process has no other left, a waiting connection can still be taken and refused. *)
From S2P Require Import Prelude Sockets Channel EPollPoller EventLoop.

Section acceptor.
Context `{Epoll} `{Descriptors} {F C : Type}.

Record Acceptor : Type := mkAcceptor {
  listening_ : bool;
  idleFd_ : Z
}.

(** The acceptor, its loop, the kernel, and the state of whoever sets the callback. *)
Record AcceptorWorld : Type := mkAcceptorWorld {
  loop_ : EventLoop F;
  kernel_ : kernel;
  acceptor_ : Acceptor;
  client_ : C
}.

#[export, refine] Instance acceptor_loop : HasLoop F AcceptorWorld := {|
  loop_of := loop_;
  set_loop l w := mkAcceptorWorld l (kernel_ w) (acceptor_ w) (client_ w)
|}.
Proof.
  - done.
  - by intros [].
  - done.
Defined.

Definition set_idle fd a := mkAcceptor (listening_ a) fd.
Definition set_listening b a := mkAcceptor b (idleFd_ a).
Definition set_acceptor a w := mkAcceptorWorld (loop_ w) (kernel_ w) a (client_ w).
Definition set_kernel k w := mkAcceptorWorld (loop_ w) k (acceptor_ w) (client_ w).
Definition set_client c w := mkAcceptorWorld (loop_ w) (kernel_ w) (acceptor_ w) c.

Definition on_kernel {A} (m : prog kernel A) : prog AcceptorWorld A := λ w,
  match m (kernel_ w) with Ok (a, k) => Ok (a, set_kernel k w) | Fault f => Fault f end.
Definition set_idleFd (fd : Z) : prog AcceptorWorld () := modify (λ w, set_acceptor (set_idle fd (acceptor_ w)) w).

(** [::open], [::close] and [::accept] used directly. *)
Definition sys_close (fd : Z) : prog AcceptorWorld () := on_kernel (modify (close_fd fd)).
Definition sys_accept : prog AcceptorWorld Z :=
  on_kernel (k ← get; put (accept4 k).2 ;;
             mret (match (accept4 k).1 with inl _ => -1 | inr (fd, _) => fd end)).
Definition sys_open : prog AcceptorWorld Z := on_kernel (k ← get; put (open_null k).2 ;; mret (open_null k).1).

Context (tid ch : Z).
Context (logged : Z → Z).    (** what logging leaves in [errno] *)
Context (newConnectionCallback_ : option (Z → InetAddress → prog AcceptorWorld ())).

(** The constructor, given what [socket], [open] and [bind] returned: the listening descriptor with its
    options, and the acceptor.  Opening the reserve may have failed. *)
Definition Acceptor_init (socket idleFd bind : Z) (reuseport : bool) : outcome (Z * options * Acceptor) :=
  sockfd ← createNonblockingSocket socket;
  let o := if reuseport then setReusePort true ∅ else ∅ in
  let o := setReusePort reuseport (setReuseAddr true (setTcpNoDelay true o)) in
  _ ← Socket_bindAddress bind;
  Ok (sockfd, o, mkAcceptor false idleFd).

Definition listen (ret : Z) : prog AcceptorWorld () :=
  on_loop (assertInLoopThread tid) ;;
  modify (λ w, set_acceptor (set_listening true (acceptor_ w)) w) ;;
  lift (Socket_listen ret) ;;
  on_loop (enableReading tid ch).

Definition Acceptor_dtor : prog AcceptorWorld () :=
  w ← get;
  sys_close (idleFd_ (acceptor_ w)) ;;
  on_loop (disableAll tid ch) ;;
  on_loop (Channel_remove tid ch).

(** The branch for EMFILE: with the reserve given up, one waiting connection is taken and refused. *)
Definition refuse_waiting : prog AcceptorWorld () :=
  w ← get;
  sys_close (idleFd_ (acceptor_ w)) ;;
  fd ← sys_accept;
  set_idleFd fd ;;
  sys_close fd ;;
  fd ← sys_open;
  set_idleFd fd.

Definition handleRead : prog AcceptorWorld () :=
  on_loop (assertInLoopThread tid) ;;
  c ← on_kernel Socket_accept;
  match c with
  | inr (connfd, peerAddr) =>
      match newConnectionCallback_ with
      | Some cb => cb connfd peerAddr
      | None => on_kernel (sockets_close connfd)
      end
  | inl errno => when_ (logged errno =? EMFILE) refuse_waiting
  end.
End acceptor.
Arguments AcceptorWorld {_ _} F C.

(** ** Rules *)

Section rules.
Context `{Epoll} `{Descriptors} {F C : Type}.
Implicit Types (w : AcceptorWorld F C).

Lemma on_kernel_spec {E A} (m : prog kernel A) (R : A → AcceptorWorld F C → Prop) w :
  wpf E m (λ a k, R a (set_kernel k w)) (kernel_ w) → wpf E (on_kernel m) R w.
Proof. unfold wpf, on_kernel. by destruct (m (kernel_ w)) as [[]|]. Qed.

Lemma sockets_accept_spec {E} k e (R : Z + Z * sockaddr_in → kernel → Prop) :
  accept4 k = e → (∀ x, e.1 = inl x → transient x = true) → R e.1 e.2 → wpf E sockets_accept R k.
Proof.
  intros He Ht HR. unfold sockets_accept. wp_go. rewrite He.
  destruct e as [[x|c] k']; simpl in *; [by rewrite Ht|]. by wp_go.
Qed.

(** *** The branch for EMFILE, from any state *)

(** The descriptors the reserve takes: one, or none when it could not be opened. *)
Definition reserve (idle : Z) : Z := if idle =? -1 then 0 else 1.
Definition reserve_ok k idle : Prop := is_open k idle ∨ idle = -1.

(** The reserve [idle'] of [k'] takes the place of [idle] of [k]; what waited first is gone, if there was a
    descriptor to take it with. *)
Record renewed k idle k' idle' : Prop := {
  renewed_open x : is_open k' x ↔ (is_open k x ∧ x ≠ idle) ∨ (x = idle' ∧ idle' ≠ -1);
  renewed_fresh : idle' ≠ -1 → 0 ≤ idle' ∧ ¬ (is_open k idle' ∧ idle' ≠ idle);
  renewed_free : free k' + reserve idle' = free k + reserve idle;
  renewed_backlog : backlog k' = if free k + reserve idle =? 0 then backlog k else tail (backlog k);
  renewed_kept : idle ≠ -1 → idle' ≠ -1
}.

Lemma not_open_negative k : ¬ is_open k (-1).
Proof. intros Hk%is_open_nonneg. lia. Qed.

Lemma reserve_closed k idle : reserve_ok k idle →
  free (close_fd idle k) = free k + reserve idle ∧ (idle ≠ listener → backlog (close_fd idle k) = backlog k) ∧
  ∀ x, is_open (close_fd idle k) x ↔ is_open k x ∧ x ≠ idle.
Proof.
  unfold reserve. intros [Hi| ->].
  - pose proof (is_open_nonneg _ _ Hi). rewrite (proj2 (Z.eqb_neq idle (-1))) by lia. by apply close_fd_open.
  - rewrite close_fd_bad by apply not_open_negative. split_and!; [cbn; lia|done|]. intros x. split; [|tauto].
    intros Hx. split; [done|]. intros ->. by apply not_open_negative in Hx.
Qed.

(** What [::accept] gives is closed again. *)
Lemma take_and_close k :
  is_open k listener →
  let fd := match (accept4 k).1 with inl _ => -1 | inr (fd, _) => fd end in
  let k' := close_fd fd (accept4 k).2 in
  free k' = free k ∧ (∀ x, is_open k' x ↔ is_open k x) ∧
  backlog k' = if free k =? 0 then backlog k else tail (backlog k).
Proof.
  intros Hl. pose proof (λ k, close_fd_bad k (-1) (not_open_negative k)) as Hbad. pose proof (free_nonneg k).
  destruct (backlog k) as [|a ps] eqn:Hb.
  { rewrite (accept4_none k Hl Hb). cbn. rewrite Hbad, Hb. by destruct (_ =? _). }
  destruct (Z.eqb_spec (free k) 0) as [Hf|Hf].
  { rewrite (accept4_full k a ps Hl Hb Hf). cbn. by rewrite Hbad, Hb. }
  destruct a as [p|f].
  - destruct (accept4_some k p ps Hl Hb ltac:(lia)) as (fd & k1 & -> & _ & Hno & F1 & B1 & O1). cbn.
    destruct (close_fd_open k1 fd) as (F2 & B2 & O2); [apply O1; by right|].
    assert (Hfl : fd ≠ listener) by by intros ->. specialize (B2 Hfl).
    split_and!; [lia| |by rewrite B2, B1].
    intros x. rewrite O2, O1. split; [tauto|]. intros Hx. split; [by left|]. by intros ->.
  - destruct (accept4_failed k f ps Hl Hb ltac:(lia)) as (k1 & -> & F1 & B1 & O1). cbn. by rewrite Hbad.
Qed.

Lemma renew k idle : reserve_ok k idle → is_open k listener → idle ≠ listener →
  let k1 := close_fd idle k in
  let fd := match (accept4 k1).1 with inl _ => -1 | inr (fd, _) => fd end in
  let k2 := close_fd fd (accept4 k1).2 in
  renewed k idle (open_null k2).2 (open_null k2).1.
Proof.
  intros Hok Hl Hne k1 fd k2. destruct (reserve_closed k idle Hok) as (F1 & B1 & O1). specialize (B1 Hne).
  destruct (take_and_close k1) as (F2 & O2 & B2); [by apply O1|].
  fold k1 in F1, B1, O1. fold fd k2 in F2, O2, B2. rewrite B1, F1 in B2. clearbody k1. clearbody fd. clearbody k2.
  assert (Hopen : ∀ x, is_open k2 x ↔ is_open k x ∧ x ≠ idle) by (intros x; by rewrite O2, O1).
  pose proof (free_nonneg k). destruct (decide (free k2 = 0)) as [Hf|Hf].
  - rewrite (open_null_full k2 Hf). cbn. assert (Hr : reserve idle = 0) by (unfold reserve in *; destruct (idle =? -1); lia).
    constructor; cbn.
    + intros x. rewrite Hopen. tauto.
    + done.
    + change (reserve (-1)) with 0. lia.
    + done.
    + intros Hi%Z.eqb_neq. unfold reserve in Hr. by rewrite Hi in Hr.
  - pose proof (free_nonneg k2). destruct (open_null_some k2) as (fd' & k3 & -> & Hpos & Hno & F3 & B3 & O3); [lia|]. cbn.
    constructor; cbn.
    + intros x. rewrite O3, Hopen. assert (fd' ≠ -1) by lia. tauto.
    + rewrite <- Hopen. tauto.
    + unfold reserve at 1. rewrite (proj2 (Z.eqb_neq fd' (-1))) by lia. lia.
    + by rewrite B3.
    + lia.
Qed.

Lemma refuse_waiting_spec {E} (R : () → AcceptorWorld F C → Prop) w :
  reserve_ok (kernel_ w) (idleFd_ (acceptor_ w)) →
  is_open (kernel_ w) listener → idleFd_ (acceptor_ w) ≠ listener →
  (∀ k' idle', renewed (kernel_ w) (idleFd_ (acceptor_ w)) k' idle' →
     R tt (set_acceptor (set_idle idle' (acceptor_ w)) (set_kernel k' w))) →
  wpf E refuse_waiting R w.
Proof.
  intros Hok Hl Hne HR. pose proof (HR _ _ (renew _ _ Hok Hl Hne)) as H'.
  unfold refuse_waiting, sys_close, sys_accept, sys_open, set_idleFd.
  do 4 (wp_go; apply on_kernel_spec). wp_go. exact H'.
Qed.

(** An [accept4] that failed: what waited first may be gone. *)
Record passed_over k k' : Prop := {
  passed_free : free k' = free k;
  passed_open x : is_open k' x ↔ is_open k x;
  passed_backlog : backlog k' = backlog k ∨ ∃ f, backlog k = Failed f :: backlog k'
}.

(** One call with any callback: a connection is handed over; or the call fails, and the reserve may be renewed. *)
Lemma acceptor_handleRead_spec {E} tid logged cb (R : () → AcceptorWorld F C → Prop) w :
  threadId_ (loop_ w) = tid → reserve_ok (kernel_ w) (idleFd_ (acceptor_ w)) →
  is_open (kernel_ w) listener → idleFd_ (acceptor_ w) ≠ listener →
  (∀ fd p ps k', backlog (kernel_ w) = Peer p :: ps → 0 ≤ fd → ¬ is_open (kernel_ w) fd →
     free k' = free (kernel_ w) - 1 → backlog k' = ps → (∀ x, is_open k' x ↔ is_open (kernel_ w) x ∨ x = fd) →
     wpf E (cb fd p) R (set_kernel k' w)) →
  (∀ k', passed_over (kernel_ w) k' →
     R tt (set_kernel k' w) ∧
     ∀ k'' idle', renewed k' (idleFd_ (acceptor_ w)) k'' idle' →
       R tt (set_acceptor (set_idle idle' (acceptor_ w)) (set_kernel k'' w))) →
  wpf E (handleRead tid logged (Some cb)) R w.
Proof.
  intros Ht Hok Hl Hne Htaken Hfailed. unfold handleRead. wp_go.
  apply on_loop_spec, assertInLoopThread_spec; [done|]. wp_go. apply on_kernel_spec. unfold Socket_accept.
  replace (set_loop (loop_of w) w) with w by by destruct w.
  assert (Hfail : ∀ e k', passed_over (kernel_ w) k' → wpf E (when_ (logged e =? EMFILE) refuse_waiting) R (set_kernel k' w)).
  { intros e k' Hk. destruct (Hfailed k' Hk) as [Hstay Hrenewed]. destruct Hk as [_ Ho _]. wp_go.
    destruct (logged e =? EMFILE); [|done]. apply refuse_waiting_spec; cbn; [|by rewrite Ho|done|done].
    destruct Hok as [?|?]; [left; by rewrite Ho|by right]. }
  assert (Hsame : passed_over (kernel_ w) (kernel_ w)) by (constructor; [done|done|by left]).
  pose proof (free_nonneg (kernel_ w)). destruct (backlog (kernel_ w)) as [|a ps] eqn:Hb.
  { eapply sockets_accept_spec; [by apply accept4_none|by intros ? [= <-]|]. by apply Hfail. }
  destruct (decide (free (kernel_ w) = 0)) as [Hf|Hf].
  { eapply sockets_accept_spec; [by eapply accept4_full|by intros ? [= <-]|]. by apply Hfail. }
  destruct a as [p|f].
  - destruct (accept4_some (kernel_ w) p ps Hl Hb ltac:(lia)) as (fd & k1 & Hacc & Hpos & Hno & F1 & B1 & O1).
    eapply sockets_accept_spec; [exact Hacc|done|]. cbn [fst snd]. by apply (Htaken fd p ps k1).
  - destruct (accept4_failed (kernel_ w) f ps Hl Hb ltac:(lia)) as (k1 & Hacc & F1 & B1 & O1).
    eapply sockets_accept_spec; [exact Hacc|intros e [= <-]; by destruct f|]. cbn [fst snd]. apply Hfail.
    constructor; [done|done|]. right. exists f. by rewrite Hb, B1.
Qed.
End rules.

(** ** Properties *)

Section properties.
Context `{Epoll} `{Descriptors} {F : Type}.
Context (tid : Z) (logged : Z → Z).
Hypothesis Hlogged : ∀ e, logged e = EMFILE ↔ e = EMFILE.

(** A callback that keeps the connections it is given. *)
#[local] Abbreviation World := (AcceptorWorld F (list (Z * InetAddress))).
#[local] Abbreviation taken_ := client_.
Implicit Types (w : World).

Definition keep_connection (connfd : Z) (peerAddr : InetAddress) : prog World () :=
  modify (λ w, set_client (taken_ w ++ [(connfd, peerAddr)]) w).

(** The listening socket is reported readable [n] times. *)
Definition rounds (n : nat) : prog World () :=
  for_each (λ _, handleRead tid logged (Some keep_connection)) (replicate n tt).

Definition waiting w : list arrival := backlog (kernel_ w).
Definition has_reserve w : bool := negb (idleFd_ (acceptor_ w) =? -1).

(** The connections among what waits, and what is left when [room] of them have been taken. *)
Definition callers (q : list arrival) : list sockaddr_in :=
  omap (λ a, match a with Peer p => Some p | Failed _ => None end) q.
Fixpoint beyond (room : Z) (q : list arrival) : list arrival :=
  match q with
  | [] => []
  | a :: q' => if room =? 0 then q else beyond (match a with Peer _ => room - 1 | Failed _ => room end) q'
  end.

(** The loop's thread runs, the socket listens; the reserve is open, or it could not be opened. *)
Definition ready w : Prop :=
  threadId_ (loop_ w) = tid ∧
  reserve_ok (kernel_ w) (idleFd_ (acceptor_ w)) ∧
  is_open (kernel_ w) listener ∧ idleFd_ (acceptor_ w) ≠ listener.

(** One call: nothing waits; a descriptor is left; the reserve is used; nothing can be done. *)
Definition one_round w w' : Prop :=
  ready w' ∧ has_reserve w' = has_reserve w ∧
  match waiting w with
  | [] => waiting w' = [] ∧ taken_ w' = taken_ w
  | a :: q =>
      if 0 <? free (kernel_ w) then
        waiting w' = q ∧
        match a with
        | Peer p => free (kernel_ w') = free (kernel_ w) - 1 ∧ (taken_ w').*2 = (taken_ w).*2 ++ [p]
        | Failed _ => free (kernel_ w') = free (kernel_ w) ∧ taken_ w' = taken_ w
        end
      else
        waiting w' = (if has_reserve w then q else a :: q) ∧ free (kernel_ w') = 0 ∧ taken_ w' = taken_ w
  end.

(** The reserve in use. *)
Lemma refuse_round w a q :
  ready w → waiting w = a :: q → free (kernel_ w) = 0 → wp refuse_waiting (λ _ w', one_round w w') w.
Proof.
  intros (Ht & Hr & Hl & Hil) Hb Hf. apply refuse_waiting_spec; [done..|]. intros k' idle' [R1 R2 R3 R4 R5].
  pose proof (free_nonneg k'). rewrite Hf in *. unfold waiting in Hb. unfold one_round, ready, has_reserve, waiting. cbn. rewrite Hb, Hf in *. cbn.
  unfold reserve in *. destruct (Z.eqb_spec (idleFd_ (acceptor_ w)) (-1)) as [E|Hne]; cbn in *.
  - destruct (decide (idle' = -1)) as [->|Hn]; [|rewrite (proj2 (Z.eqb_neq idle' (-1)) Hn) in R3; lia]. cbn in *.
    split_and!; [done|by right| |congruence|done|done|lia|done]. apply R1. left. split; [done|congruence].
  - specialize (R5 Hne). destruct (R2 R5) as [Hpos Hno]. rewrite (proj2 (Z.eqb_neq idle' (-1)) R5) in *. cbn.
    split_and!; [done| | | |done|done|lia|done].
    + left. apply R1. by right.
    + apply R1. left. by split.
    + intros ->. apply Hno. by split.
Qed.

Lemma accept_round w :
  ready w → wp (handleRead tid logged (Some keep_connection)) (λ _ w', one_round w w') w.
Proof.
  intros Hw. pose proof Hw as (Ht & Hr & Hl & Hil). pose proof (free_nonneg (kernel_ w)) as Hfree. unfold handleRead. wp_go.
  apply on_loop_spec, assertInLoopThread_spec; [done|]. wp_go. apply on_kernel_spec. unfold Socket_accept.
  replace (set_loop (loop_of w) w) with w by by destruct w.
  assert (Hother : ∀ e, e ≠ EMFILE → (logged e =? EMFILE) = false).
  { intros e He. apply Z.eqb_neq. by intros ?%(proj1 (Hlogged e)). }
  destruct (waiting w) as [|a q] eqn:Hb.
  { eapply sockets_accept_spec; [by apply accept4_none|by intros ? [= <-]|]. cbn [fst snd]. wp_go.
    rewrite Hother by done. unfold one_round. rewrite Hb. by split_and!. }
  destruct (Z.ltb_spec 0 (free (kernel_ w))) as [Hf|Hf].
  2:{ eapply sockets_accept_spec; [eapply accept4_full; [done|exact Hb|lia]|by intros ? [= <-]|]. cbn [fst snd]. wp_go.
      rewrite (proj2 (Z.eqb_eq _ _) (proj2 (Hlogged EMFILE) eq_refl)).
      replace (set_kernel (kernel_ w) w) with w by by destruct w. eapply refuse_round; [done|exact Hb|lia]. }
  unfold one_round. rewrite Hb, (proj2 (Z.ltb_lt _ _) Hf). destruct a as [p|f].
  - destruct (accept4_some (kernel_ w) p q Hl Hb Hf) as (fd & k1 & Hacc & _ & _ & F1 & B1 & O1).
    eapply sockets_accept_spec; [exact Hacc|done|]. cbn [fst snd]. unfold keep_connection. wp_go. cbn.
    split_and!; [|done|done|done|by rewrite fmap_app]. split_and!; [done| |apply O1; by left|done].
    destruct Hr as [Hr|Hr]; [left; apply O1; by left|by right].
  - destruct (accept4_failed (kernel_ w) f q Hl Hb Hf) as (k1 & Hacc & F1 & B1 & O1).
    eapply sockets_accept_spec; [exact Hacc|intros e [= <-]; by destruct f|]. cbn [fst snd]. wp_go.
    rewrite Hother by by destruct f. split_and!; [|done|done|done|done]. split_and!; [done| |by apply O1|done].
    destruct Hr as [Hr|Hr]; [left; by apply O1|by right].
Qed.

(** When nothing waits, or nothing can be accepted or refused, nothing changes any more. *)
Lemma rounds_still n w :
  ready w → waiting w = [] ∨ (has_reserve w = false ∧ free (kernel_ w) = 0) →
  wp (rounds n)
    (λ _ w', taken_ w' = taken_ w ∧ waiting w' = waiting w ∧ ready w' ∧ has_reserve w' = has_reserve w) w.
Proof.
  intros Hw Hs. unfold rounds. induction n as [|n IH] in w, Hw, Hs |- *; cbn [replicate for_each]; wp_go; [done|].
  eapply wp_mono; [by apply accept_round|]. cbv beta. intros _ w1 (Hw1 & Hn1 & H1).
  assert (Hsame : waiting w1 = waiting w ∧ taken_ w1 = taken_ w ∧
                  (waiting w1 = [] ∨ (has_reserve w1 = false ∧ free (kernel_ w1) = 0))).
  { destruct Hs as [Hs|[Hs Hf]]; [rewrite Hs in *; tauto|]. destruct (waiting w); [tauto|].
    rewrite Hf, Hs in H1. destruct H1 as (? & ? & ?). split_and!; [done|done|right; split; [congruence|done]]. }
  destruct Hsame as (E1 & E2 & E3). eapply wp_mono; [by apply IH|]. cbv beta.
  intros _ w2 (? & ? & ? & ?). split_and!; [congruence|congruence|done|congruence].
Qed.

(** C22: the reserve descriptor keeps the acceptor going.  When the listening socket is reported readable
    at least as often as something waits there, and whatever failures wait between the connections, exactly
    the first connections for which the process has descriptors are accepted, in order.  When the reserve is
    open, all others are refused and nothing is left waiting; when it could not be opened, what comes after
    the last connection taken stays in the queue (and the loop reports it again and again).  This is so when
    logging a failure does not turn EMFILE into another [errno] nor another into EMFILE ([Hlogged]); without
    that connections are left waiting ([errno_lost]). *)
Theorem acceptor_drains n w :
  ready w → zlen (waiting w) ≤ Z.of_nat n →
  wp (rounds n)
    (λ _ w', (taken_ w').*2 = (taken_ w).*2 ++ ztake (free (kernel_ w)) (callers (waiting w)) ∧
       waiting w' = (if has_reserve w then [] else beyond (free (kernel_ w)) (waiting w)) ∧
       ready w') w.
Proof.
  intros Hw Hlen. unfold rounds. induction n as [|n IH] in w, Hw, Hlen |- *.
  { pose proof (zlen_nonneg (waiting w)). rewrite (zlen_0 (waiting w)) by lia. cbn [replicate for_each]. wp_go.
    unfold ztake. cbn [callers omap list_omap]. rewrite take_nil, app_nil_r. split_and!; [done| |done].
    rewrite (zlen_0 (waiting w)) by lia. by destruct (has_reserve w). }
  destruct (decide (waiting w = [] ∨ (has_reserve w = false ∧ free (kernel_ w) = 0))) as [Hs|Hs].
  { eapply wp_mono; [by apply (rounds_still (S n))|]. cbv beta. intros _ w1 (-> & -> & Hw1 & _).
    destruct Hs as [->|[-> ->]].
    - unfold ztake. cbn [callers omap list_omap]. rewrite take_nil, app_nil_r. by destruct (has_reserve w).
    - rewrite ztake_0, app_nil_r. by destruct (waiting w). }
  cbn [replicate for_each]. wp_go. eapply wp_mono; [by apply accept_round|]. cbv beta.
  intros _ w1 (Hw1 & Hn1 & H1). destruct (waiting w) as [|a q] eqn:Hwait; [destruct Hs; by left|].
  rewrite zlen_cons in Hlen. pose proof (free_nonneg (kernel_ w)) as Hfree.
  destruct (Z.ltb_spec 0 (free (kernel_ w))) as [Hf|Hf].
  - destruct H1 as (E1 & E23). eapply wp_mono; [apply IH; [done|rewrite E1; lia]|]. cbv beta.
    intros _ w2 (T2 & W2 & Hw2). rewrite T2, W2, E1, Hn1. cbn [beyond]. rewrite (proj2 (Z.eqb_neq (free (kernel_ w)) 0)) by lia.
    destruct a as [p|f]; destruct E23 as [-> ->]; [|done]. unfold ztake, callers.
    replace (Z.to_nat (free (kernel_ w))) with (S (Z.to_nat (free (kernel_ w) - 1))) by lia.
    cbn. by rewrite <- app_assoc.
  - assert (Hf0 : free (kernel_ w) = 0) by lia. destruct (has_reserve w) eqn:Hres; [|destruct Hs; by right].
    destruct H1 as (E1 & E2 & E3). eapply wp_mono; [apply IH; [done|rewrite E1; lia]|]. cbv beta.
    intros _ w2 (T2 & W2 & Hw2). by rewrite T2, W2, E2, E3, Hn1, Hf0, !ztake_0.
Qed.
End properties.

(** ** A process for examples *)

Record process : Type := mkProcess { room : nat; opened : list nat; arriving : list arrival }.

Definition unused (l : list nat) : nat := S (foldr Nat.max 0%nat l).

Lemma unused_fresh l : unused l ∉ l.
Proof.
  assert (Hmax : ∀ x, x ∈ l → (x ≤ foldr Nat.max 0 l)%nat) by (induction 1; simpl; lia).
  unfold unused. intros H%Hmax. lia.
Qed.

#[local, refine] Instance process_descriptors : Descriptors := {|
  kernel := process;
  listener := 3;
  free k := Z.of_nat (room k);
  is_open k fd := 0 ≤ fd ∧ Z.to_nat fd ∈ opened k;
  backlog := arriving;
  accept4 k :=
    match arriving k, room k with
    | [], _ => (inl EAGAIN, k)
    | _, O => (inl EMFILE, k)
    | Failed f :: ps, S n => (inl (errno_of f), mkProcess (S n) (opened k) ps)
    | Peer p :: ps, S n => (inr (Z.of_nat (unused (opened k)), p), mkProcess n (unused (opened k) :: opened k) ps)
    end;
  close_fd fd k :=
    if decide (0 ≤ fd ∧ Z.to_nat fd ∈ opened k)
    then mkProcess (S (room k)) (filter (λ x, x ≠ Z.to_nat fd) (opened k)) (if fd =? 3 then [] else arriving k) else k;
  open_null k :=
    match room k with
    | O => (-1, k)
    | S n => (Z.of_nat (unused (opened k)), mkProcess n (unused (opened k) :: opened k) (arriving k))
    end;
  connects p k := mkProcess (room k) (opened k) (arriving k ++ [p])
|}.
Proof.
  - by intros k fd [? _].
  - lia.
  - by intros k _ ->.
  - intros k a ps _ -> Hf. by destruct a, (room k).
  - intros k f ps _ -> Hf. destruct (room k) as [|n]; [done|]. by eexists.
  - intros k p ps _ -> Hf. destruct (room k) as [|n]; [done|]. do 2 eexists. split; [done|]. cbn.
    split_and!; [lia| |lia|done|].
    + intros [_ Hin]. rewrite Nat2Z.id in Hin. by apply unused_fresh in Hin.
    + intros x. rewrite elem_of_cons. split; [|intros [[??]| ->]; [tauto|rewrite Nat2Z.id; split; [lia|by left]]].
      intros [? [E|?]]; [right; lia|by left].
  - intros k fd Hfd. rewrite decide_True by done. cbn. split_and!; [lia|by intros ->%Z.eqb_neq|].
    intros x. rewrite list_elem_of_filter. split.
    + intros (? & Hne & ?). split; [done|]. by intros ->.
    + intros [[??] Hne]. split_and!; [done| |done]. lia.
  - intros k fd Hfd. by rewrite decide_False.
  - intros k Hf. destruct (room k) as [|n] eqn:Hr; [done|]. do 2 eexists. split; [done|]. cbn.
    split_and!; [lia| |lia|done|].
    + intros [_ Hin]. rewrite Nat2Z.id in Hin. by apply unused_fresh in Hin.
    + intros x. rewrite elem_of_cons. split; [|intros [[??]| ->]; [tauto|rewrite Nat2Z.id; split; [lia|by left]]].
      intros [? [E|?]]; [right; lia|by left].
  - intros k Hf. by destruct (room k).
  - done.
Defined.

#[local] Existing Instance map_epoll.

Definition caller (n : Z) : sockaddr_in := mkSockaddr (10, 0, 0, n) (htons 4000).
Definition peer (n : Z) : arrival := Peer (caller n).

(** One descriptor left, the reserve open, three connections and two failures waiting. *)
Definition busy_process : AcceptorWorld Z (list (Z * InetAddress)) :=
  mkAcceptorWorld (EventLoop_init 1 (EPollPoller_init ∅)) (mkProcess 1 [0; 3; 4]%nat [Failed Aborted; peer 1; peer 2; Failed Interrupted; peer 3])
    (mkAcceptor true 4) [].

Lemma acceptor_drains_witness :
  wp (rounds 1 id 5)
    (λ _ w', (client_ w').*2 = [] ++ [caller 1] ∧ waiting w' = [] ∧ ready 1 w') busy_process.
Proof.
  apply (acceptor_drains 1 id (λ _, iff_refl _) 5 busy_process).
  - split; [reflexivity|]. split; [left; split; [done|]; vm_compute; repeat constructor|].
    split; [split; [done|]; vm_compute; repeat constructor|discriminate].
  - vm_compute. discriminate.
Defined.

(** The test for EMFILE comes after the failure has been logged: when logging leaves another [errno] (a first
    write to a standard output that is no terminal leaves ENOTTY), the reserve is not used and the connection
    stays in the queue. *)
Definition full_process : AcceptorWorld Z (list (Z * InetAddress)) :=
  mkAcceptorWorld (EventLoop_init 1 (EPollPoller_init ∅)) (mkProcess 0 [0; 3; 4]%nat [peer 1]) (mkAcceptor true 4) [].
Definition ENOTTY : Z := 25.

Example errno_lost :
  wp (rounds 1 (λ _, ENOTTY) 3) (λ _ w', waiting w' = [peer 1]) full_process ∧
  wp (rounds 1 id 3) (λ _ w', waiting w' = []) full_process.
Proof. split; vm_compute; reflexivity. Qed.
