(* ===== verification/EventLoopThread.v ===== *)
(** * EventLoopThread: [net::EventLoopThread], [net::EventLoopThreadPool] (net/eventloop)

    A thread that runs a loop on its stack and its owner, as a step relation at the grain
    of the mutex, the condition variable with its spurious wake-ups, and the reads of [loop_]; and the pool that hands out such loops in
    turn. *)
From S2P Require Import Prelude.

(** ** One thread *)

Module Thread.

(** Where [threadFunc] is. *)
Inductive thread_at : Type :=
| TNone          (** no thread *)
| TStarted       (** before it has the mutex *)
| TLocked        (** before [loop_ = &loop] *)
| TAssigned      (** before [cond_.notify_all()] *)
| TNotified      (** before the mutex is released *)
| TPublished     (** before [loop.loop()] cleared the quit flag *)
| TLooping
| TReturned      (** before [loop_ = nullptr] *)
| TNulled        (** before the loop object is destroyed *)
| TGone.

(** Where the owner is. *)
Inductive owner_at : Type :=
| OIdle          (** constructed *)
| OStarted       (** in [startLoop], before it has the mutex *)
| OLocked        (** with the mutex, about to test the predicate of [cond_.wait] *)
| OWaiting       (** asleep on the condition variable *)
| OWoken         (** woken, before it has the mutex again *)
| OTested        (** the predicate held: about to read [loop_] *)
| OTaken         (** [loop_] read, before the mutex is released *)
| OReturned      (** [startLoop] returned *)
| OQuitting      (** in the destructor, [loop_] read and not null *)
| OJoining       (** in [thread_.join()] *)
| ODestroyed
| ONull          (** [quit] called through a null pointer *)
| ODangling.     (** [quit] called on a destroyed loop *)

Inductive party : Type := TheThread | TheOwner.

Record state : Type := mkState {
  thread_ : thread_at;
  owner_ : owner_at;
  mutex_ : option party;   (** who holds it *)
  loop_ : bool;            (** [loop_] is not null *)
  quit_ : bool;            (** the loop's flag *)
  got_ : bool              (** what [startLoop] read is not null *)
}.

Definition initial : state := mkState TNone OIdle None false false false.

(** [notify_all]: who sleeps on the condition variable wakes; nothing is remembered for later. *)
Definition notify_all (o : owner_at) : owner_at := match o with OWaiting => OWoken | _ => o end.

Inductive step : state → state → Prop :=
(** [startLoop]. *)
| step_start m l q g : step (mkState TNone OIdle m l q g) (mkState TStarted OStarted m l q g)
| step_owner_lock t l q g : step (mkState t OStarted None l q g) (mkState t OLocked (Some TheOwner) l q g)
| step_test_false t m q g : step (mkState t OLocked m false q g) (mkState t OWaiting None false q g)
| step_spurious t m l q g : step (mkState t OWaiting m l q g) (mkState t OWoken m l q g)
| step_relock t l q g : step (mkState t OWoken None l q g) (mkState t OLocked (Some TheOwner) l q g)
| step_test_true t m q g : step (mkState t OLocked m true q g) (mkState t OTested m true q g)
| step_take t m l q g : step (mkState t OTested m l q g) (mkState t OTaken m l q l)
| step_owner_unlock t m l q g : step (mkState t OTaken m l q g) (mkState t OReturned None l q g)
(** [threadFunc]. *)
| step_thread_lock o l q g : step (mkState TStarted o None l q g) (mkState TLocked o (Some TheThread) l q g)
| step_assign o m l q g : step (mkState TLocked o m l q g) (mkState TAssigned o m true q g)
| step_notify o m l q g : step (mkState TAssigned o m l q g) (mkState TNotified (notify_all o) m l q g)
| step_thread_unlock o m l q g : step (mkState TNotified o m l q g) (mkState TPublished o None l q g)
| step_enter o m l q g : step (mkState TPublished o m l q g) (mkState TLooping o m l false g)
| step_leave o m l g : step (mkState TLooping o m l true g) (mkState TReturned o m l true g)
| step_null o m l q g : step (mkState TReturned o m l q g) (mkState TNulled o m false q g)
| step_gone o m l q g : step (mkState TNulled o m l q g) (mkState TGone o m l q g)
(** Code that got the loop from [startLoop] calls [quit] on it, while it exists. *)
| step_user_quit t m l q : t ≠ TGone → step (mkState t OReturned m l q true) (mkState t OReturned m l true true)
(** The destructor. *)
| step_read_null t o m q g : o = OIdle ∨ o = OReturned → step (mkState t o m false q g) (mkState t ONull m false q g)
| step_read t o m q g : o = OIdle ∨ o = OReturned → step (mkState t o m true q g) (mkState t OQuitting m true q g)
| step_quit t m l q g : t ≠ TGone → step (mkState t OQuitting m l q g) (mkState t OJoining m l true g)
| step_quit_dangling m l q g : step (mkState TGone OQuitting m l q g) (mkState TGone ODangling m l q g)
| step_join m l q g : step (mkState TGone OJoining m l q g) (mkState TGone ODestroyed m l q g).

Inductive reachable : state → Prop :=
| reach_initial : reachable initial
| reach_step s s' : reachable s → step s s' → reachable s'.

(** The loop object exists and runs or is about to. *)
Definition loop_alive (t : thread_at) : bool :=
  match t with TAssigned | TNotified | TPublished | TLooping => true | _ => false end.

(** The owner is in [startLoop]. *)
Definition starting (o : owner_at) : bool :=
  match o with OStarted | OLocked | OWaiting | OWoken | OTested | OTaken => true | _ => false end.

(** The wake-up of a waiting owner that nobody asked for, which the standard allows. *)
Definition spurious (s s' : state) : Prop :=
  owner_ s = OWaiting ∧ owner_ s' = OWoken ∧ thread_ s' = thread_ s.

(** How far the thread is from its loop and the owner from the return of [startLoop]. *)
Definition distance (s : state) : nat :=
  let thread := match thread_ s with
                | TStarted => 6 | TLocked => 5 | TAssigned => 4 | TNotified => 3 | TPublished => 2 | TLooping => 1
                | _ => 0 end%nat in
  let owner := match owner_ s with
               | OStarted | OWoken => 5 | OLocked => 4 | OTested => 3 | OTaken => 2 | OWaiting => 1 | _ => 0 end%nat in
  (6 * thread + owner)%nat.

(** *** The invariant *)

(** Who is between its lock and its unlock. *)
Definition holder (t : thread_at) (o : owner_at) (m : option party) : bool :=
  match t, o with
  | (TLocked | TAssigned | TNotified), (OLocked | OTested | OTaken) => false
  | (TLocked | TAssigned | TNotified), _ => match m with Some TheThread => true | _ => false end
  | _, (OLocked | OTested | OTaken) => match m with Some TheOwner => true | _ => false end
  | _, _ => match m with None => true | _ => false end
  end.

(** Where the thread can be, from where the owner is: a sleeping owner is still to be notified, and nobody
    asks the loop to quit before [startLoop] returned. *)
Definition together (t : thread_at) (o : owner_at) (q g : bool) : bool :=
  match o, t with
  | OIdle, TNone | ONull, TNone => negb q
  | OIdle, _ | _, TNone => false
  | (OStarted | OLocked | OWoken), (TStarted | TLocked) => negb q
  | OWaiting, (TStarted | TLocked | TAssigned) => negb q
  | OWaiting, _ | _, (TStarted | TLocked) => false
  | (OStarted | OLocked | OWoken | OTested), _ => loop_alive t && negb q
  | OTaken, _ => loop_alive t && negb q && g
  | _, _ => (loop_alive t || q) && g
  end.

Definition inv (s : state) : bool :=
  holder (thread_ s) (owner_ s) (mutex_ s) &&
  eqb (loop_ s) (match thread_ s with TAssigned | TNotified | TPublished | TLooping | TReturned => true | _ => false end) &&
  together (thread_ s) (owner_ s) (quit_ s) (got_ s).

Ltac all_states :=
  repeat match goal with
         | x : thread_at |- _ => destruct x
         | x : owner_at |- _ => destruct x
         | x : option party |- _ => destruct x as [[]|]
         | x : bool |- _ => destruct x
         end.

Lemma inv_step s s' : inv s = true → step s s' → inv s' = true.
Proof. intros Hi Hstep. destruct Hstep; destruct_or?; subst; all_states; first [discriminate Hi|done]. Qed.

Lemma thread_inv s : reachable s → inv s = true.
Proof. induction 1; [done|by eapply inv_step]. Qed.

(** In [startLoop] somebody can go on, other than by a wake-up nobody asked for. *)
Lemma starting_goes_on s :
  inv s = true → starting (owner_ s) = true → ∃ s', step s s' ∧ ¬ spurious s s'.
Proof.
  intros Hi Hs. destruct s as [t o m l q g].
  assert (Hgo : ∀ s', step (mkState t o m l q g) s' → owner_ s' ≠ OWoken ∨ t ≠ thread_ s' →
                      ∃ s', step (mkState t o m l q g) s' ∧ ¬ spurious (mkState t o m l q g) s').
  { intros s' Hstep Hne. exists s'. split; [done|]. intros (_ & ? & ?). cbn in *. destruct Hne; congruence. }
  destruct m as [[]|].
  - destruct t; try (by destruct o).
    + eapply Hgo; [constructor|right; done].
    + eapply Hgo; [constructor|right; done].
    + eapply Hgo; [constructor|right; done].
  - destruct o; try (by destruct t).
    + destruct l; (eapply Hgo; [constructor|left; done]).
    + eapply Hgo; [constructor|left; done].
    + eapply Hgo; [constructor|left; done].
  - destruct o; try (by destruct t).
    + eapply Hgo; [constructor|left; done].
    + destruct t; try (by destruct l, q). eapply Hgo; [apply step_thread_lock|right; done].
    + eapply Hgo; [apply step_relock|left; done].
Qed.

Lemma starting_step s s' :
  inv s = true → starting (owner_ s) = true → step s s' → spurious s s' ∨ (distance s' < distance s)%nat.
Proof.
  intros Hi Hs Hstep.
  destruct Hstep; try discriminate Hs; try (by left); right; destruct_or?; subst; try discriminate Hs;
    unfold distance; cbn -[Nat.mul Nat.add]; try (destruct o; try discriminate Hs; cbn -[Nat.mul Nat.add]); try lia.
  all: all_states; first [discriminate Hi|cbn; lia].
Qed.

(** C23: [startLoop] returns a live loop.  In every interleaving of the thread and its owner, while the owner
    is in [startLoop]: some thread can always go on, other than by a spurious wake-up (so the notification is
    not lost and no lock is waited for forever); every step, a spurious wake-up apart, brings the return
    nearer, so it comes; and when it comes, the loop has been constructed, its address is what is returned, it
    runs or is about to, and nobody has asked it to quit. *)
Theorem startLoop_live s :
  reachable s → starting (owner_ s) = true →
  (∃ s', step s s' ∧ ¬ spurious s s') ∧
  (∀ s', step s s' → spurious s s' ∨ (distance s' < distance s)%nat) ∧
  (∀ s', step s s' → starting (owner_ s') = false →
     owner_ s' = OReturned ∧ got_ s' = true ∧ loop_ s' = true ∧ loop_alive (thread_ s') = true ∧ quit_ s' = false).
Proof.
  intros Hr Hs. pose proof (thread_inv s Hr) as Hi. split_and!; [by apply starting_goes_on|by intros s'; apply starting_step|].
  intros s' Hstep. destruct Hstep; destruct_or?; subst; all_states; first [discriminate Hi|discriminate Hs|done].
Qed.

(** The destructor after the loop was entered and with nobody else calling [quit]: it ends. *)
Inductive orderly : state → Prop :=
| orderly_loop : orderly (mkState TLooping OReturned None true false true)
| orderly_step s s' : orderly s → step s s' → owner_ s' ≠ OReturned → orderly s'.

Lemma orderly_cases s : orderly s →
  s = mkState TLooping OReturned None true false true ∨ s = mkState TLooping OQuitting None true false true ∨
  s = mkState TLooping OJoining None true true true ∨ s = mkState TReturned OJoining None true true true ∨
  s = mkState TNulled OJoining None false true true ∨ s = mkState TGone OJoining None false true true ∨
  s = mkState TGone ODestroyed None false true true.
Proof.
  induction 1 as [|s s' _ IH Hstep Hne]; [by left|].
  destruct IH as [->|[->|[->|[->|[->|[->| ->]]]]]]; inversion Hstep; subst; cbn in *; try done; first [solve [auto 8]|by destruct_or?].
Qed.

(** The states [startLoop] goes through when the thread is first. *)
Lemma started_fast : reachable (mkState TPublished OReturned None true false true).
Proof.
  eapply reach_step; [|apply step_owner_unlock]. eapply reach_step; [|apply step_take].
  eapply reach_step; [|apply step_test_true]. eapply reach_step; [|apply step_owner_lock].
  eapply reach_step; [|apply step_thread_unlock]. eapply reach_step; [|apply (step_notify OStarted)].
  eapply reach_step; [|apply step_assign]. eapply reach_step; [|apply step_thread_lock].
  eapply reach_step; [apply reach_initial|apply step_start].
Qed.

(** C24: when the destructor is safe, and when not.  Once the thread is in its loop and when only the
    destructor calls [quit], it is never stuck before the owner is destroyed and uses no null or dangling
    pointer.  Otherwise it can call [quit] through a null pointer (a loop never started, or one that ended
    before), join a thread that never ends (its [quit] came before [loop()] cleared the flag), or call
    [quit] on a loop that is gone. *)
Theorem destructor_outcomes :
  (∀ s, orderly s → owner_ s ≠ ONull ∧ owner_ s ≠ ODangling ∧ (owner_ s = ODestroyed ∨ ∃ s', step s s' ∧ orderly s')) ∧
  (∃ s, reachable s ∧ thread_ s = TNone ∧ owner_ s = ONull) ∧
  (∃ s, reachable s ∧ owner_ s = OJoining ∧ ∀ s', ¬ step s s') ∧
  (∃ s, reachable s ∧ owner_ s = ODangling).
Proof.
  split_and!.
  - intros s Hs. pose proof (orderly_cases s Hs) as Hc.
    assert (Hgo : ∀ s', step s s' → owner_ s' ≠ OReturned → ∃ s', step s s' ∧ orderly s').
    { intros s' Hstep Hne. exists s'. split; [done|]. by eapply orderly_step. }
    destruct Hc as [->|[->|[->|[->|[->|[->| ->]]]]]]; (split_and!; [done|done|]); try (by left); right.
    + eapply Hgo; [apply step_read; by right|done].
    + eapply Hgo; [by apply step_quit|done].
    + eapply Hgo; [apply step_leave|done].
    + eapply Hgo; [apply step_null|done].
    + eapply Hgo; [apply step_gone|done].
    + eapply Hgo; [apply step_join|done].
  - exists (mkState TNone ONull None false false false). split_and!; [|done|done].
    eapply reach_step; [apply reach_initial|]. apply step_read_null. by left.
  - exists (mkState TLooping OJoining None true false true). split_and!; [|done|].
    + eapply reach_step; [|apply step_enter]. eapply reach_step; [|by apply step_quit].
      eapply reach_step; [|apply step_read; by right]. apply started_fast.
    + intros s' Hstep. inversion Hstep; by destruct_or?.
  - exists (mkState TGone ODangling None false true true). split; [|done].
    eapply reach_step; [|apply step_quit_dangling]. eapply reach_step; [|apply step_gone].
    eapply reach_step; [|apply step_null]. eapply reach_step; [|apply step_leave].
    eapply reach_step; [|apply step_read; by right]. eapply reach_step; [|by apply step_user_quit].
    eapply reach_step; [|apply step_enter]. apply started_fast.
Qed.

(** An owner asleep when the thread has stored the pointer. *)
Lemma startLoop_live_witness :
  (∃ s', step (mkState TAssigned OWaiting (Some TheThread) true false false) s' ∧
         ¬ spurious (mkState TAssigned OWaiting (Some TheThread) true false false) s') ∧
  (∀ s', step (mkState TAssigned OWaiting (Some TheThread) true false false) s' →
         spurious (mkState TAssigned OWaiting (Some TheThread) true false false) s' ∨ (distance s' < 25)%nat) ∧
  (∀ s', step (mkState TAssigned OWaiting (Some TheThread) true false false) s' → starting (owner_ s') = false →
     owner_ s' = OReturned ∧ got_ s' = true ∧ loop_ s' = true ∧ loop_alive (thread_ s') = true ∧ quit_ s' = false).
Proof.
  apply (startLoop_live (mkState TAssigned OWaiting (Some TheThread) true false false)).
  - eapply reach_step; [|apply step_assign]. eapply reach_step; [|apply step_thread_lock].
    eapply reach_step; [|apply step_test_false]. eapply reach_step; [|apply step_owner_lock].
    eapply reach_step; [apply reach_initial|apply step_start].
  - reflexivity.
Defined.
End Thread.

(** ** The pool *)

Module Pool.

(** Loops are named by their addresses. *)
Record EventLoopThreadPool : Type := mkPool {
  numThreads_ : Z;
  next_ : Z;
  started_ : bool;
  loops_ : list Z
}.

Section pool.
Context (baseLoop_ : Z).

(** [started_] is not initialised by the constructor; nothing reads it. *)
Definition EventLoopThreadPool_init (started : bool) : EventLoopThreadPool := mkPool 0 0 started [].

Definition setThreadNum (numThreads : Z) : prog EventLoopThreadPool () :=
  modify (λ p, mkPool numThreads (next_ p) (started_ p) (loops_ p)).

(** [start()] in the base loop's thread; [startLoop] gives the [i]-th new loop. *)
Definition start (in_base : bool) (startLoop : nat → Z) : prog EventLoopThreadPool () :=
  assert! in_base ;;
  modify (λ p, mkPool (numThreads_ p) (next_ p) true (loops_ p)) ;;
  p ← get;
  for_each (λ i, modify (λ p, mkPool (numThreads_ p) (next_ p) (started_ p) (loops_ p ++ [startLoop i])))
    (seq 0 (Z.to_nat (numThreads_ p))).

Definition getNextLoop (in_base : bool) : prog EventLoopThreadPool Z :=
  assert! in_base ;;
  p ← get;
  if numThreads_ p =? 0 then mret baseLoop_ else
  loop ← lift (if next_ p <? 0 then Fault UndefinedBehaviour else
               match loops_ p !! Z.to_nat (next_ p) with Some l => Ok l | None => Fault UndefinedBehaviour end);
  next ← lift (checked 32 (next_ p + 1));
  put (mkPool (numThreads_ p) (if next =? numThreads_ p then 0 else next) (started_ p) (loops_ p)) ;;
  mret loop.

(** The loops of the next [k] connections. *)
Fixpoint next_loops (k : nat) : prog EventLoopThreadPool (list Z) :=
  match k with
  | O => mret []
  | S k => l ← getNextLoop true; ls ← next_loops k; mret (l :: ls)
  end.

(** The pool started with [n] threads and is at its turn [j]. *)
Definition running (n j : Z) (loops : list Z) (p : EventLoopThreadPool) : Prop :=
  numThreads_ p = n ∧ next_ p = j ∧ loops_ p = loops.

Lemma start_spec (startLoop : nat → Z) p :
  wp (start true startLoop)
    (λ _ p', running (numThreads_ p) (next_ p) (loops_ p ++ (startLoop <$> seq 0 (Z.to_nat (numThreads_ p)))) p') p.
Proof.
  unfold start. wp_go. apply wp_assert; [done|]. wp_go. cbn [numThreads_].
  eapply wp_mono.
  { apply (wp_for_each _ (λ l p', numThreads_ p' = numThreads_ p ∧ next_ p' = next_ p ∧
      loops_ p' ++ (startLoop <$> l) = loops_ p ++ (startLoop <$> seq 0 (Z.to_nat (numThreads_ p))))); [done|].
    intros i l p1 (E1 & E2 & E3). wp_go. cbn. split_and!; [done|done|]. by rewrite <- app_assoc. }
  cbv beta. intros _ p' (E1 & E2 & E3). split_and!; [done|done|]. cbn in E3. by rewrite app_nil_r in E3.
Qed.

Lemma getNextLoop_spec n j loops p l :
  running n j loops p → 0 ≤ j < n → n < 2 ^ 31 → loops !! Z.to_nat j = Some l →
  wp (getNextLoop true) (λ l' p', l' = l ∧ running n ((j + 1) mod n) loops p') p.
Proof.
  intros (E1 & E2 & E3) Hj Hn Hl. unfold getNextLoop. wp_go. apply wp_assert; [done|]. wp_go.
  rewrite E1, E2, E3, Hl. destruct (Z.eqb_spec n 0); [lia|]. rewrite (proj2 (Z.ltb_ge j 0)) by lia. wp_go.
  eapply wp_lift.
  { unfold checked, in_signed. change (2 ^ (32 - 1)) with (2 ^ 31).
    rewrite (proj2 (Z.leb_le _ _)), (proj2 (Z.ltb_lt _ _)) by lia. done. }
  wp_go. split; [done|]. unfold running. cbn. split_and!; [done| |done].
  destruct (Z.eqb_spec (j + 1) n) as [->|]; [by rewrite Z.mod_same by lia|]. by rewrite Z.mod_small by lia.
Qed.

Lemma next_loops_spec (f : nat → Z) n j k p :
  running n j (f <$> seq 0 (Z.to_nat n)) p → 0 ≤ j < n → n < 2 ^ 31 →
  wp (next_loops k)
    (λ ls p', ls = (λ i, f (Z.to_nat ((j + Z.of_nat i) mod n))) <$> seq 0 k ∧
       running n ((j + Z.of_nat k) mod n) (f <$> seq 0 (Z.to_nat n)) p') p.
Proof.
  induction k as [|k IH] in j, p |- *; intros Hp Hj Hn; cbn [next_loops].
  - wp_go. split; [done|]. by rewrite Z.add_0_r, Z.mod_small by lia.
  - wp_go. eapply wp_mono.
    { apply (getNextLoop_spec n j _ p (f (Z.to_nat j)) Hp Hj Hn).
      rewrite list_lookup_fmap, lookup_seq_lt by lia. done. }
    cbv beta. intros l p1 [-> Hp1]. wp_go. eapply wp_mono.
    { apply (IH ((j + 1) mod n) p1 Hp1); [apply Z.mod_pos_bound; lia|done]. }
    cbv beta. intros ls p2 [-> Hp2]. wp_go.
    assert (Hidx : ∀ i, ((j + 1) mod n + Z.of_nat i) mod n = (j + Z.of_nat (S i)) mod n).
    { intros i. rewrite Z.add_mod_idemp_l by lia. f_equal. lia. }
    split; [|by rewrite <- Hidx]. cbn [seq fmap list_fmap]. f_equal.
    + by rewrite Z.add_0_r, Z.mod_small by lia.
    + rewrite <- fmap_S_seq, <- list_fmap_compose. apply list_fmap_ext. intros _ i _. cbn. by rewrite <- Hidx.
Qed.

(** Connections go to the loops in turn.  A pool told to use [n] threads and started gives its [i]-th
    connection the loop of thread [i] modulo [n], or the base loop when [n] is zero; the index never
    leaves the vector of loops. *)
Theorem pool_round_robin (startLoop : nat → Z) n k started :
  0 ≤ n < 2 ^ 31 →
  wp (setThreadNum n ;; start true startLoop ;; next_loops k)
    (λ ls _, ls = (λ i, if n =? 0 then baseLoop_ else startLoop (Z.to_nat (Z.of_nat i mod n))) <$> seq 0 k)
    (EventLoopThreadPool_init started).
Proof.
  intros Hn. unfold setThreadNum. wp_go. eapply wp_mono; [apply start_spec|]. cbv beta. intros _ p Hp. cbn in Hp.
  destruct (Z.eqb_spec n 0) as [->|Hne].
  - destruct Hp as (E1 & _). clear Hn. eapply (wp_mono _ (λ ls p', ls = (λ _, baseLoop_) <$> seq 0 k ∧ numThreads_ p' = 0)).
    + generalize 0%nat. induction k as [|k IH] in p, E1 |- *; intros i; cbn [next_loops]; [by wp_go|].
      unfold getNextLoop at 1. wp_go. apply wp_assert; [done|]. wp_go. rewrite E1. cbn [Z.eqb]. wp_go.
      eapply wp_mono; [by apply (IH p E1 (S i))|]. cbv beta. intros ls p' [-> ?]. by wp_go.
    + cbv beta. by intros ls p' [-> _].
  - eapply wp_mono; [apply (next_loops_spec startLoop n 0 k p Hp); lia|]. cbv beta. intros ls p' [-> _]. done.
Qed.
End pool.

Lemma pool_round_robin_witness :
  wp (setThreadNum 3 ;; start true (λ i, 10 + Z.of_nat i) ;; next_loops 1 4)
    (λ ls _, ls = [10; 11; 12; 10]) (EventLoopThreadPool_init false).
Proof. apply (pool_round_robin 1 (λ i, 10 + Z.of_nat i) 3 4 false). split; [discriminate|reflexivity]. Defined.

(** The number of threads may not change after [start]. *)
Example setThreadNum_after_start :
  (setThreadNum 1 ;; start true (λ i, 10 + Z.of_nat i) ;; setThreadNum 3 ;; next_loops 1 2)
    (EventLoopThreadPool_init false) = Fault UndefinedBehaviour.
Proof. reflexivity. Qed.
End Pool.
