(* ===== verification/TcpServer.v ===== *)
(** * TcpServer: [net::TcpServer] (net/Tcp)

    The map of connections, their names, the loop each is given, and the three tasks that
    travel between the base loop and a connection's loop.  A connection is kept as far as
    the server takes part in it; ConnInvariant and ConnSafety model what it does on its own,
    and show that it reports its end at most once and only after it was established. *)
From S2P Require Import Prelude Printf Sockets EventLoopThread.
Import Pool.

#[export, refine] Instance byte_countable : Countable byte :=
  inj_countable' Z_of_byte byte_of_Z _.
Proof. apply byte_of_Z_of_byte. Defined.

(** ** Data *)

(** [state_] and what became of the channel. *)
Inductive phase : Type :=
| Connecting   (** constructed *)
| Connected    (** established *)
| Disconnecting  (** established, [forceClose] was called *)
| Closed       (** [handleClose] has run *)
| Destroyed.   (** [connectDestroyed] has run *)

#[export] Instance phase_eq_dec : EqDecision phase.
Proof. solve_decision. Defined.

Definition is_up (p : phase) : bool := match p with Connected | Disconnecting => true | _ => false end.

Record TcpConnection : Type := mkConn {
  conn_name : list byte;
  conn_loop : Z;
  conn_fd : Z;
  localAddr_ : InetAddress;
  peerAddr_ : InetAddress;
  conn_phase : phase
}.

(** A [TcpConnectionPtr] is a position in the list of the connections made so far. *)
Abbreviation TcpConnectionPtr := nat (only parsing).

Record TcpServer : Type := mkServer {
  ipPort_ : list byte;
  name_ : list byte;
  listening_ : bool;                         (** of [acceptor_] *)
  threadPool_ : EventLoopThreadPool;
  started_ : bool;
  nextConnId_ : Z;
  connections_ : gmap (list byte) TcpConnectionPtr
}.

(** What the server gives to loops. *)
Inductive task : Type :=
| ConnectEstablished (c : TcpConnectionPtr)
| RemoveConnectionInLoop (c : TcpConnectionPtr)
| ConnectDestroyed (c : TcpConnectionPtr).

Record World : Type := mkWorld {
  thread : Z;                                (** the loop whose thread runs *)
  server : option TcpServer;                 (** [None]: destroyed *)
  heap : list TcpConnection;
  pendingFunctors : gmap Z (list task)       (** of each loop, the server's tasks *)
}.

Definition conn_of (t : task) : TcpConnectionPtr :=
  match t with ConnectEstablished c | RemoveConnectionInLoop c | ConnectDestroyed c => c end.
Definition queue (l : Z) (w : World) : list task := default [] (pendingFunctors w !! l).

Definition set_phase (p : phase) (c : TcpConnection) : TcpConnection :=
  mkConn (conn_name c) (conn_loop c) (conn_fd c) (localAddr_ c) (peerAddr_ c) p.
Definition set_connections m (s : TcpServer) : TcpServer :=
  mkServer (ipPort_ s) (name_ s) (listening_ s) (threadPool_ s) (started_ s) (nextConnId_ s) m.
Definition set_server s (w : World) : World := mkWorld (thread w) s (heap w) (pendingFunctors w).
Definition set_heap h (w : World) : World := mkWorld (thread w) (server w) h (pendingFunctors w).
Definition set_queue l q (w : World) : World :=
  mkWorld (thread w) (server w) (heap w) (<[l := q]> (pendingFunctors w)).
Definition set_thread l (w : World) : World := mkWorld l (server w) (heap w) (pendingFunctors w).

Section server.
Context (loop_ : Z) (getLocalAddr : Z → InetAddress).

(** Using the server through [this], which may be gone. *)
Definition this : prog World TcpServer := λ w,
  match server w with Some s => Ok (s, w) | None => Fault UndefinedBehaviour end.
Definition update_this (f : TcpServer → TcpServer) : prog World () :=
  s ← this; modify (set_server (Some (f s))).
Definition on_pool {A} (m : prog EventLoopThreadPool A) : prog World A :=
  s ← this;
  r ← lift (m (threadPool_ s));
  update_this (λ s, mkServer (ipPort_ s) (name_ s) (listening_ s) r.2 (started_ s) (nextConnId_ s) (connections_ s)) ;;
  mret r.1.
Definition conn (c : TcpConnectionPtr) : prog World TcpConnection := λ w,
  match heap w !! c with Some x => Ok (x, w) | None => Fault UndefinedBehaviour end.
Definition update_conn (c : TcpConnectionPtr) (p : phase) : prog World () :=
  modify (λ w, set_heap (alter (set_phase p) c (heap w)) w).

Definition isInLoopThread (l : Z) : prog World bool := gets (λ w, thread w =? l).
Definition assertInLoopThread (l : Z) : prog World () := b ← isInLoopThread l; assert! b.
Definition queueInLoop (l : Z) (t : task) : prog World () := modify (λ w, set_queue l (queue l w ++ [t]) w).

(** *** The connection's side *)

Definition connectEstablished (c : TcpConnectionPtr) : prog World () :=
  x ← conn c;
  assertInLoopThread (conn_loop x) ;;
  assert! (bool_decide (conn_phase x = Connecting)) ;;
  update_conn c Connected.

(** [state_] kConnected: the channel is disabled and removed; otherwise only removed, which fails when it was
    never added, is removed already, or still asks for events as in state kDisconnecting. *)
Definition connectDestroyed (c : TcpConnectionPtr) : prog World () :=
  x ← conn c;
  assertInLoopThread (conn_loop x) ;;
  assert! (bool_decide (conn_phase x = Connected ∨ conn_phase x = Closed)) ;;
  update_conn c Destroyed.

(** *** The server's *)

Definition connectionName (s : TcpServer) (id : Z) : list byte :=
  name_ s ++ snprintf 64 (txt "-" ++ ipPort_ s ++ txt "#" ++ print_dec id).

Definition removeConnectionInLoop (c : TcpConnectionPtr) : prog World () :=
  assertInLoopThread loop_ ;;
  s ← this;
  x ← conn c;
  update_this (set_connections (delete (conn_name x) (connections_ s))) ;;
  assert! (bool_decide (is_Some (connections_ s !! conn_name x))) ;;
  queueInLoop (conn_loop x) (ConnectDestroyed c).

Definition run_task (t : task) : prog World () :=
  match t with
  | ConnectEstablished c => connectEstablished c
  | RemoveConnectionInLoop c => removeConnectionInLoop c
  | ConnectDestroyed c => connectDestroyed c
  end.

Definition runInLoop (l : Z) (t : task) : prog World () :=
  isInLoopThread l ≫= λ here : bool, if here then run_task t else queueInLoop l t.

Definition TcpServer_init (listenAddr : InetAddress) (nameArg : list byte) (started pool_started : bool) : TcpServer :=
  mkServer (toIpPort listenAddr) nameArg false (EventLoopThreadPool_init pool_started) started 1 ∅.

Definition setThreadNum (numThreads : Z) : prog World () :=
  assert! (0 <=? numThreads) ;;
  on_pool (Pool.setThreadNum numThreads).

(** [start] in the base loop's thread, where [runInLoop] calls [Acceptor::listen] at once. *)
Definition start (startLoop : nat → Z) : prog World () :=
  update_this (λ s, mkServer (ipPort_ s) (name_ s) (listening_ s) (threadPool_ s) true (nextConnId_ s) (connections_ s)) ;;
  in_base ← isInLoopThread loop_;
  on_pool (Pool.start in_base startLoop) ;;
  s ← this;
  assert! (negb (listening_ s)) ;;
  update_this (λ s, mkServer (ipPort_ s) (name_ s) true (threadPool_ s) (started_ s) (nextConnId_ s) (connections_ s)).

Definition newConnection (sockfd : Z) (peerAddr : InetAddress) : prog World () :=
  assertInLoopThread loop_ ;;
  in_base ← isInLoopThread loop_;
  ioLoop ← on_pool (getNextLoop loop_ in_base);
  s ← this;
  update_this (λ s, mkServer (ipPort_ s) (name_ s) (listening_ s) (threadPool_ s) (started_ s)
                      (to_signed 64 (nextConnId_ s + 1)) (connections_ s)) ;;
  let connName := connectionName s (nextConnId_ s) in
  c ← gets (λ w, length (heap w));
  modify (λ w, set_heap (heap w ++ [mkConn connName ioLoop sockfd (getLocalAddr sockfd) peerAddr Connecting]) w) ;;
  update_this (λ s, set_connections (<[connName := c]> (connections_ s)) s) ;;
  runInLoop ioLoop (ConnectEstablished c).

Definition removeConnection (c : TcpConnectionPtr) : prog World () :=
  _ ← this;
  runInLoop loop_ (RemoveConnectionInLoop c).

(** The end of a connection, in its loop's thread: [closeCallback_]. *)
Definition handleClose (c : TcpConnectionPtr) : prog World () :=
  update_conn c Closed ;;
  removeConnection c.

(** *** What can happen next *)

Inductive event : Type :=
| Accept (sockfd : Z) (peerAddr : InetAddress)   (** the acceptor has a connection *)
| ForceClose (c : TcpConnectionPtr)              (** somebody forces an established connection to close *)
| Close (c : TcpConnectionPtr)                   (** an established connection ends *)
| Run (l : Z).                                   (** a loop calls its next functor *)

Definition handle (e : event) : prog World () :=
  match e with
  | Accept sockfd peerAddr =>
      modify (set_thread loop_) ;;
      newConnection sockfd peerAddr
  | ForceClose c =>
      w ← get;
      match heap w !! c with
      | Some x => when_ (is_up (conn_phase x)) (update_conn c Disconnecting)
      | None => mret tt
      end
  | Close c =>
      w ← get;
      match heap w !! c with
      | Some x => when_ (is_up (conn_phase x)) (modify (set_thread (conn_loop x)) ;; handleClose c)
      | None => mret tt
      end
  | Run l =>
      w ← get;
      match queue l w with
      | t :: q => modify (set_thread l) ;; modify (set_queue l q) ;; run_task t
      | [] => mret tt
      end
  end.

Definition handle_all (es : list event) : prog World () := for_each handle es.

(** *** The destructor *)

(** Its body goes over the map in an order that is not specified.  Then the members go: the map, and the pool,
    which asks its loops to quit and joins their threads; [meanwhile] is what these do until then, and what they
    have not done of their functors is lost with them. *)
Definition TcpServer_dtor (items : list TcpConnectionPtr) (meanwhile : list event) : prog World () :=
  assertInLoopThread loop_ ;;
  for_each (λ c, x ← conn c; runInLoop (conn_loop x) (ConnectDestroyed c)) items ;;
  s ← this;
  modify (set_server None) ;;
  handle_all meanwhile ;;
  modify (set_thread loop_) ;;
  for_each (λ l, modify (set_queue l [])) (loops_ (threadPool_ s)).

(** A server constructed, configured and started in the base loop's thread. *)
Definition boot (numThreads : Z) (startLoop : nat → Z) : prog World () :=
  setThreadNum numThreads ;; start startLoop.
End server.

Definition World_init (base : Z) (s : TcpServer) : World := mkWorld base (Some s) [] ∅.

(** ** The bookkeeping invariant *)

Definition wf_address (a : InetAddress) : Prop :=
  let '(a1, a2, a3, a4) := sin_addr a in Forall (λ o, 0 ≤ o < 256) [a1; a2; a3; a4].

(** The tasks of connection [i]. *)
Definition about (i : TcpConnectionPtr) (q : list task) : list task := filter (λ t, conn_of t = i) q.

Lemma about_app i q1 q2 : about i (q1 ++ q2) = about i q1 ++ about i q2.
Proof. apply list.filter_app. Qed.
Lemma about_one i t : about i [t] = if decide (conn_of t = i) then [t] else [].
Proof. unfold about. rewrite list.filter_cons, filter_nil. by destruct (decide _). Qed.
Lemma about_cons i t q : about i (t :: q) = about i [t] ++ about i q.
Proof. by rewrite <- about_app. Qed.

Lemma queue_set_queue l q w l' : queue l' (set_queue l q w) = if decide (l = l') then q else queue l' w.
Proof.
  unfold queue, set_queue. cbn. destruct (decide (l = l')) as [->|]; [by rewrite lookup_insert_eq|].
  by rewrite lookup_insert_ne.
Qed.

Lemma print_dec_octet v : 0 ≤ v < 256 → zlen (print_dec v) ≤ 3.
Proof. intros Hv. unfold zlen. pose proof (dec_text_short 3 20 v). change (10 ^ Z.of_nat 3) with 1000 in *. unfold print_dec. lia. Qed.

Lemma toIpPort_length a : wf_address a → zlen (toIpPort a) ≤ 35.
Proof.
  unfold wf_address, toIpPort, sockets_toIpPort. destruct (sin_addr a) as [[[a1 a2] a3] a4].
  rewrite !list.Forall_cons. intros (H1 & H2 & H3 & H4 & _). cbn [inet_ntop]. unfold snprintf.
  assert (Hip : 0 ≤ zlen (inet_ntop (a1, a2, a3, a4)) ≤ 15).
  { split; [apply zlen_nonneg|]. cbn [inet_ntop]. rewrite !zlen_app. change (zlen (txt ".")) with 1.
    pose proof (print_dec_octet a1 H1). pose proof (print_dec_octet a2 H2).
    pose proof (print_dec_octet a3 H3). pose proof (print_dec_octet a4 H4). lia. }
  pose proof (print_dec_length (ntohs (sin_port a))). rewrite zlen_app, zlen_ztake_min by (cbn [inet_ntop] in Hip; lia).
  cbn [inet_ntop] in Hip. lia.
Qed.

Section invariant.
Context (loop_ : Z) (getLocalAddr : Z → InetAddress) (n : Z) (startLoop : nat → Z).
Context (ipPort nameArg : list byte).
Hypothesis Hn : 0 ≤ n < 2 ^ 31.
Hypothesis Hip : zlen ipPort ≤ 35.
Implicit Types (w : World) (s : TcpServer) (x : TcpConnection) (i c : TcpConnectionPtr).

Definition name_of (i : TcpConnectionPtr) : list byte :=
  nameArg ++ txt "-" ++ ipPort ++ txt "#" ++ print_dec (1 + Z.of_nat i).

(** The loop of the [i]-th connection. *)
Definition loop_for (i : nat) : Z := if n =? 0 then loop_ else startLoop (Z.to_nat (Z.of_nat i mod n)).

Definition registered s i x : bool := bool_decide (connections_ s !! conn_name x = Some i).

(** The tasks that are to be found in loop [l]'s queue for a connection. *)
Definition expected s i x (l : Z) : list task :=
  match conn_phase x with
  | Connecting => if decide (l = conn_loop x) then [ConnectEstablished i] else []
  | Closed =>
      if registered s i x then (if decide (l = loop_) then [RemoveConnectionInLoop i] else [])
      else (if decide (l = conn_loop x) then [ConnectDestroyed i] else [])
  | Connected | Disconnecting | Destroyed => []
  end.

(** The task about to be run or queued. *)
Definition owed (e : option (Z * task)) i (l : Z) : list task :=
  match e with Some (l', t) => if decide (l' = l) then about i [t] else [] | None => [] end.

Definition pool_at (k : nat) (p : EventLoopThreadPool) : Prop :=
  numThreads_ p = n ∧ (n ≠ 0 → running n (Z.of_nat k mod n) (startLoop <$> seq 0 (Z.to_nat n)) p).

Record inv (e : option (Z * task)) s w : Prop := {
  inv_server : server w = Some s;
  inv_texts : name_ s = nameArg ∧ ipPort_ s = ipPort;
  inv_pool : pool_at (length (heap w)) (threadPool_ s);
  inv_id : nextConnId_ s = 1 + Z.of_nat (length (heap w));
  inv_bound : 1 + Z.of_nat (length (heap w)) < 2 ^ 63;
  inv_conn i x : heap w !! i = Some x → conn_name x = name_of i ∧ conn_loop x = loop_for i;
  inv_open i x : heap w !! i = Some x → conn_phase x = Connecting ∨ is_up (conn_phase x) = true → registered s i x = true;
  inv_end i x : heap w !! i = Some x → conn_phase x = Destroyed → registered s i x = false;
  inv_base i x : heap w !! i = Some x → conn_phase x = Connecting → conn_loop x = loop_ →
    e = Some (loop_, ConnectEstablished i);
  inv_map k i : connections_ s !! k = Some i → ∃ x, heap w !! i = Some x ∧ conn_name x = k;
  inv_queue i l : owed e i l ++ about i (queue l w) =
    match heap w !! i with Some x => expected s i x l | None => [] end
}.

Lemma name_of_inj i j : 1 + Z.of_nat i < 2 ^ 63 → 1 + Z.of_nat j < 2 ^ 63 → name_of i = name_of j → i = j.
Proof.
  intros Hi Hj E. unfold name_of in E. apply app_inv_head, app_inv_head, app_inv_head, app_inv_head in E.
  apply print_dec_inj in E; lia.
Qed.

Lemma inv_name_inj e s w i j x y :
  inv e s w → heap w !! i = Some x → heap w !! j = Some y → conn_name x = conn_name y → i = j.
Proof.
  intros Hw Hi Hj E. pose proof (inv_bound _ _ _ Hw).
  pose proof (lookup_lt_Some _ _ _ Hi). pose proof (lookup_lt_Some _ _ _ Hj).
  apply (inv_conn _ _ _ Hw) in Hi as [Ei _], Hj as [Ej _].
  apply name_of_inj; [lia|lia|congruence].
Qed.

Lemma connectionName_id s i :
  name_ s = nameArg → ipPort_ s = ipPort → connectionName s (1 + Z.of_nat i) = name_of i.
Proof.
  intros E1 E2. unfold connectionName, name_of, snprintf. rewrite E1, E2. f_equal. rewrite ztake_ge; [done|].
  rewrite !zlen_app. change (zlen (txt "-")) with 1. change (zlen (txt "#")) with 1.
  pose proof (print_dec_length (1 + Z.of_nat i)). lia.
Qed.

(** One connection moves on: its phase, its entry of the map, its tasks. *)
Lemma inv_change {e e' s w c x} p (reg : bool) w' :
  inv e s w → heap w !! c = Some x →
  let m := if reg then <[conn_name x := c]> (connections_ s) else delete (conn_name x) (connections_ s) in
  server w' = Some (set_connections m s) →
  heap w' = <[c := set_phase p x]> (heap w) →
  p ≠ Connecting → (is_up p = true → reg = true) → (p = Destroyed → reg = false) →
  (∀ i, i ≠ c → e = Some (loop_, ConnectEstablished i) → e' = Some (loop_, ConnectEstablished i)) →
  (∀ i l, i ≠ c → owed e' i l ++ about i (queue l w') = owed e i l ++ about i (queue l w)) →
  (∀ l, owed e' c l ++ about c (queue l w') = expected (set_connections m s) c (set_phase p x) l) →
  inv e' (set_connections m s) w'.
Proof.
  intros Hw Hx m Hs Hh Hnc Hopen Hend Hbase Hother Hown. pose proof (lookup_lt_Some _ _ _ Hx) as Hlt.
  assert (Hreg : registered (set_connections m s) c (set_phase p x) = reg).
  { unfold registered. cbn. unfold m. destruct reg; [by rewrite lookup_insert_eq, bool_decide_true|].
    by rewrite lookup_delete_eq, bool_decide_false. }
  assert (Hregs : ∀ i y, i ≠ c → heap w !! i = Some y → registered (set_connections m s) i y = registered s i y).
  { intros i y Hne Hy. unfold registered. cbn. apply bool_decide_ext.
    assert (conn_name x ≠ conn_name y) by (intros E; apply Hne; by eapply inv_name_inj).
    unfold m. destruct reg; [by rewrite lookup_insert_ne|by rewrite lookup_delete_ne]. }
  assert (Hat : ∀ i y, heap w' !! i = Some y → (i = c ∧ y = set_phase p x) ∨ (i ≠ c ∧ heap w !! i = Some y)).
  { intros i y. rewrite Hh. destruct (decide (i = c)) as [->|Hne].
    - rewrite list_lookup_insert_eq by done. intros [= <-]. by left.
    - rewrite list_lookup_insert_ne by done. by right. }
  assert (Hlen : length (heap w') = length (heap w)) by (by rewrite Hh, length_insert).
  constructor; rewrite ?Hlen; try apply Hw; try done.
  - intros i y Hy. destruct (Hat i y Hy) as [[-> ->]|[_ Hy']]; [by apply (inv_conn _ _ _ Hw) in Hx|by apply (inv_conn _ _ _ Hw)].
  - intros i y Hy Hp. destruct (Hat i y Hy) as [[-> ->]|[Hne Hy']]; [rewrite Hreg; by destruct Hp; auto|].
    rewrite Hregs by done. by apply (inv_open _ _ _ Hw).
  - intros i y Hy Hp. destruct (Hat i y Hy) as [[-> ->]|[Hne Hy']]; [rewrite Hreg; auto|].
    rewrite Hregs by done. by apply (inv_end _ _ _ Hw).
  - intros i y Hy Hp Hl. destruct (Hat i y Hy) as [[-> ->]|[Hne Hy']]; [done|].
    apply Hbase; [done|]. by eapply (inv_base _ _ _ Hw).
  - intros k i. cbn. intros Hk.
    assert (Hold : (i = c ∧ k = conn_name x) ∨ connections_ s !! k = Some i).
    { revert Hk. unfold m. destruct reg; [|intros Hk; right; by apply lookup_delete_Some in Hk as [_ ?]].
      intros [[-> ->]|[_ ?]]%lookup_insert_Some; [by left|by right]. }
    destruct (decide (i = c)) as [->|Hne].
    + exists (set_phase p x). rewrite Hh, list_lookup_insert_eq by done. split; [done|]. cbn.
      destruct Hold as [[_ ->]|Hold]; [done|]. destruct (inv_map _ _ _ Hw _ _ Hold) as (y & Hy & <-). congruence.
    + destruct Hold as [[-> _]|Hold]; [done|]. rewrite Hh, list_lookup_insert_ne by done. by apply (inv_map _ _ _ Hw).
  - intros i l. destruct (decide (i = c)) as [->|Hne].
    + rewrite Hh, list_lookup_insert_eq by done. apply Hown.
    + rewrite Hh, list_lookup_insert_ne, Hother, (inv_queue _ _ _ Hw) by done.
      destruct (heap w !! i) as [y|] eqn:Hy; [|done]. unfold expected. by rewrite Hregs.
Qed.

(** The task that is owed says where its connection is. *)
Lemma owed_case {l t s w} : inv (Some (l, t)) s w →
  ∃ x, heap w !! conn_of t = Some x ∧
    match t with
    | ConnectEstablished i => conn_phase x = Connecting ∧ l = conn_loop x
    | RemoveConnectionInLoop i => conn_phase x = Closed ∧ registered s i x = true ∧ l = loop_
    | ConnectDestroyed i => conn_phase x = Closed ∧ registered s i x = false ∧ l = conn_loop x
    end ∧ ∀ l', about (conn_of t) (queue l' w) = [].
Proof.
  intros Hw. pose proof (inv_queue _ _ _ Hw (conn_of t)) as Hq. unfold owed in Hq.
  rewrite about_one, (decide_True (P := conn_of t = conn_of t)) in Hq by done.
  destruct (heap w !! conn_of t) as [x|] eqn:Hx.
  2:{ specialize (Hq l). rewrite decide_True in Hq by done. done. }
  exists x. split; [done|].
  assert (Hone : ∀ l', l' = l → ∃ q, expected s (conn_of t) x l' = t :: q).
  { intros l' ->. eexists. rewrite <- Hq, decide_True by done. done. }
  destruct (Hone l eq_refl) as [q Ht]. revert Hq Ht. unfold expected.
  destruct (conn_phase x) eqn:Hp; [|done|done| |done]; [|destruct (registered s (conn_of t) x) eqn:Hr].
  all: intros Hq; case_decide as El; [|done]; intros [= <- _].
  all: cbn in *; split; [auto|]; intros l'; specialize (Hq l').
  all: destruct (decide (l = l')) as [<-|]; [rewrite decide_True in Hq by done; by injection Hq|].
  all: by rewrite decide_False in Hq by congruence.
Qed.

Lemma touch_registered s c x :
  set_connections (if registered s c x then <[conn_name x := c]> (connections_ s)
                   else delete (conn_name x) (connections_ s)) s = s ∨
  registered s c x = false ∧ is_Some (connections_ s !! conn_name x).
Proof.
  unfold registered. destruct (bool_decide_reflect (connections_ s !! conn_name x = Some c)) as [E|E].
  - left. rewrite insert_id by done. by destruct s.
  - destruct (connections_ s !! conn_name x) eqn:E'; [right; by eauto|left].
    rewrite delete_id by done. by destruct s.
Qed.

(** The entry under a connection's name is its own. *)
Lemma registered_name {e s w c x} : inv e s w → heap w !! c = Some x →
  registered s c x = false → connections_ s !! conn_name x = None.
Proof.
  intros Hw Hx Hr. apply bool_decide_eq_false in Hr. destruct (connections_ s !! conn_name x) as [j|] eqn:Hj; [|done].
  destruct (inv_map _ _ _ Hw _ _ Hj) as (y & Hy & En). destruct Hr. by rewrite (inv_name_inj _ _ _ _ _ _ _ Hw Hx Hy).
Qed.

(** A change that leaves the map alone. *)
Lemma inv_phase {e e' s w c x} p w' :
  inv e s w → heap w !! c = Some x →
  server w' = Some s → heap w' = <[c := set_phase p x]> (heap w) →
  p ≠ Connecting → (is_up p = true → registered s c x = true) → (p = Destroyed → registered s c x = false) →
  (∀ i, i ≠ c → e = Some (loop_, ConnectEstablished i) → e' = Some (loop_, ConnectEstablished i)) →
  (∀ i l, i ≠ c → owed e' i l ++ about i (queue l w') = owed e i l ++ about i (queue l w)) →
  (∀ l, owed e' c l ++ about c (queue l w') = expected s c (set_phase p x) l) →
  inv e' s w'.
Proof.
  intros Hw Hx Hs Hh Hnc Ho He Hb Hq Hown.
  assert (E : set_connections (if registered s c x then <[conn_name x := c]> (connections_ s)
                               else delete (conn_name x) (connections_ s)) s = s).
  { destruct (touch_registered s c x) as [E|[Hr [j Hj]]]; [done|].
    by rewrite (registered_name Hw Hx Hr) in Hj. }
  rewrite <- E. eapply (inv_change p (registered s c x)); try done; by rewrite E.
Qed.

Definition peers (w : World) : list (Z * InetAddress) := (λ x, (conn_fd x, peerAddr_ x)) <$> heap w.

Lemma peers_insert w w' c x p :
  heap w !! c = Some x → heap w' = <[c := set_phase p x]> (heap w) → peers w' = peers w.
Proof.
  intros Hx Hh. unfold peers. rewrite Hh, list_fmap_insert. apply list_insert_id. by rewrite list_lookup_fmap, Hx.
Qed.

Lemma alter_insert w c x p : heap w !! c = Some x → alter (set_phase p) c (heap w) = <[c := set_phase p x]> (heap w).
Proof.
  intros Hx. pose proof (lookup_lt_Some _ _ _ Hx). apply list_eq. intros i. destruct (decide (i = c)) as [->|].
  - by rewrite list_lookup_alter_eq, list_lookup_insert_eq, Hx by done.
  - by rewrite list_lookup_alter_ne, list_lookup_insert_ne.
Qed.

Lemma server_conn_spec (Q : TcpConnection → World → Prop) c x w : heap w !! c = Some x → Q x w → wp (conn c) Q w.
Proof. intros Hx HQ. unfold wpf, conn. by rewrite Hx. Qed.

Lemma server_this_spec (Q : TcpServer → World → Prop) s w : server w = Some s → Q s w → wp this Q w.
Proof. intros Hs HQ. unfold wpf, this. by rewrite Hs. Qed.

Lemma update_this_spec (Q : () → World → Prop) f s w :
  server w = Some s → Q tt (set_server (Some (f s)) w) → wp (update_this f) Q w.
Proof. intros Hs HQ. unfold update_this. wp_go. eapply server_this_spec; [done|]. by wp_go. Qed.

Lemma server_thread_spec (Q : () → World → Prop) l w : thread w = l → Q tt w → wp (assertInLoopThread l) Q w.
Proof.
  intros Hl HQ. unfold assertInLoopThread, isInLoopThread. wp_go. apply wp_assert; [|done]. by apply Z.eqb_eq.
Qed.

(** What a task does to the invariant. *)
Definition settled (w0 : World) : () → World → Prop := λ _ w, ∃ s, inv None s w ∧ peers w = peers w0.

Lemma run_task_spec l t s w :
  inv (Some (l, t)) s w → thread w = l → wp (run_task loop_ t) (settled w) w.
Proof.
  intros Hw Ht. destruct (owed_case Hw) as (x & Hx & Hcase & Hnone).
  assert (Hother : ∀ i l', i ≠ conn_of t → owed None i l' ++ about i (queue l' w) = owed (Some (l, t)) i l' ++ about i (queue l' w)).
  { intros i l' Hne. unfold owed. rewrite about_one, (decide_False (P := conn_of t = i)) by congruence. by case_decide. }
  destruct t as [c|c|c]; cbn [run_task conn_of] in *;
    [destruct Hcase as [Hp ->]|destruct Hcase as (Hp & Hr & ->)|destruct Hcase as (Hp & Hr & ->)].
  - unfold connectEstablished, update_conn. wp_go. eapply server_conn_spec; [done|]. wp_go.
    apply server_thread_spec; [done|]. wp_go. apply wp_assert; [by apply bool_decide_true|]. wp_go.
    exists s. rewrite (alter_insert _ _ _ _ Hx). split; [|by eapply peers_insert].
    eapply (inv_phase Connected); [exact Hw|exact Hx|apply Hw|done|done| |done|by intros i Hne [= _ ->]|exact Hother|].
    + intros _. eapply (inv_open _ _ _ Hw); [done|]. by left.
    + intros l. apply Hnone.
  - unfold removeConnectionInLoop, queueInLoop. wp_go. apply server_thread_spec; [done|]. wp_go.
    eapply server_this_spec; [apply Hw|]. wp_go. eapply server_conn_spec; [done|]. wp_go.
    eapply update_this_spec; [apply Hw|]. wp_go.
    apply wp_assert. { apply bool_decide_true. exists c. by apply bool_decide_eq_true in Hr. }
    wp_go. eexists. split; [|done].
    assert (Hid : set_phase Closed x = x) by (unfold set_phase; rewrite <- Hp; by destruct x).
    eapply (inv_change Closed false); [exact Hw|exact Hx|done|..].
    + cbn. rewrite Hid. by rewrite list_insert_id.
    + done.
    + done.
    + done.
    + by intros i Hne [= _ ?].
    + intros i l Hne. rewrite queue_set_queue. rewrite <- Hother by done. cbn [owed app].
      case_decide as El; [subst l|done]. rewrite about_app, about_one, decide_False by (cbn; congruence). by rewrite app_nil_r.
    + intros l. rewrite queue_set_queue, Hid. cbn [owed app]. unfold expected. rewrite Hp.
      unfold registered. cbn. rewrite lookup_delete_eq, bool_decide_false by done.
      case_decide as El; [subst l|].
      * rewrite about_app, about_one, !decide_True by done. change (queue (conn_loop x) _) with (queue (conn_loop x) w) at 1. by rewrite Hnone.
      * rewrite decide_False by congruence. apply Hnone.
  - unfold connectDestroyed, update_conn. wp_go. eapply server_conn_spec; [done|]. wp_go.
    apply server_thread_spec; [done|]. wp_go. apply wp_assert; [apply bool_decide_true; by right|]. wp_go.
    exists s. rewrite (alter_insert _ _ _ _ Hx). split; [|by eapply peers_insert].
    eapply (inv_phase Destroyed); [exact Hw|exact Hx|apply Hw|done|done|done|done|by intros i Hne [= _ ?]|exact Hother|].
    + intros l. apply Hnone.
Qed.

Lemma runInLoop_spec l t s w :
  inv (Some (l, t)) s w → (match t with ConnectEstablished _ => thread w = loop_ | _ => True end) → wp (runInLoop loop_ l t) (settled w) w.
Proof.
  intros Hw Hthread. unfold runInLoop, isInLoopThread. wp_go. destruct (Z.eqb_spec (thread w) l) as [Hl|Hl].
  { by eapply run_task_spec. }
  unfold queueInLoop. wp_go. exists s. split; [|done]. constructor; try apply Hw.
  { intros i x Hx Hp Hb. pose proof (inv_base _ _ _ Hw i x Hx Hp Hb) as [= -> ->]. by destruct Hl. }
  intros i l'. rewrite queue_set_queue. etrans; [|apply (inv_queue _ _ _ Hw i l')]. unfold owed.
  destruct (decide (l = l')) as [<-|]; [|done]. cbn [app]. rewrite about_app.
  rewrite about_one. case_decide as Ei; [|by rewrite app_nil_r]. subst i.
  destruct (owed_case Hw) as (x & _ & _ & Hnone). by rewrite Hnone.
Qed.

(** *** A new connection *)

Definition set_pool (p : EventLoopThreadPool) (s : TcpServer) : TcpServer :=
  mkServer (ipPort_ s) (name_ s) (listening_ s) p (started_ s) (nextConnId_ s) (connections_ s).

Lemma on_pool_spec {A} (m : prog EventLoopThreadPool A) (Q : A → World → Prop) s w :
  server w = Some s → wp m (λ a p, Q a (set_server (Some (set_pool p s)) w)) (threadPool_ s) → wp (on_pool m) Q w.
Proof.
  intros Hs (a & p & Hm & HQ)%wp_inv. unfold on_pool. wp_go. eapply server_this_spec; [done|]. wp_go.
  eapply wp_lift; [exact Hm|]. wp_go. eapply update_this_spec; [done|]. by wp_go.
Qed.

Lemma getNextLoop_at k p :
  pool_at k p → wp (getNextLoop loop_ true) (λ l p', l = loop_for k ∧ pool_at (S k) p') p.
Proof.
  intros [En Hp]. unfold loop_for. destruct (Z.eqb_spec n 0) as [E|Hne].
  - unfold getNextLoop. wp_go. apply wp_assert; [done|]. wp_go. rewrite En, E. cbn [Z.eqb]. wp_go. done.
  - specialize (Hp Hne). pose proof (Z.mod_pos_bound (Z.of_nat k) n ltac:(lia)) as Hj. eapply wp_mono.
    { apply (getNextLoop_spec loop_ n _ _ p (startLoop (Z.to_nat (Z.of_nat k mod n))) Hp Hj); [lia|].
      rewrite list_lookup_fmap, lookup_seq_lt by lia. done. }
    cbv beta. intros l p' [-> Hp']. split; [done|]. split; [apply Hp'|]. intros _.
    rewrite Nat2Z.inj_succ. unfold Z.succ. by rewrite <- (Z.add_mod_idemp_l (Z.of_nat k)) by lia.
Qed.

(** The connection made: at the end of the heap, under a fresh name, its task owed. *)
Lemma inv_accept s w p fd addr :
  inv None s w → pool_at (S (length (heap w))) p → 2 + Z.of_nat (length (heap w)) < 2 ^ 63 →
  let k := length (heap w) in
  let s' := mkServer (ipPort_ s) (name_ s) (listening_ s) p (started_ s) (nextConnId_ s + 1)
              (<[name_of k := k]> (connections_ s)) in
  inv (Some (loop_for k, ConnectEstablished k)) s'
    (set_server (Some s') (set_heap (heap w ++ [mkConn (name_of k) (loop_for k) fd (getLocalAddr fd) addr Connecting]) w)).
Proof.
  intros Hw Hp Hb k s'. set (x := mkConn _ _ _ _ _ _).
  assert (Hat : ∀ i y, (heap w ++ [x]) !! i = Some y → (i = k ∧ y = x) ∨ (heap w !! i = Some y ∧ i ≠ k ∧ conn_name y ≠ name_of k)).
  { intros i y [Hy|[Hi Hy]]%lookup_app_Some.
    - right. pose proof (lookup_lt_Some _ _ _ Hy). split_and!; [done|unfold k; lia|].
      rewrite (proj1 (inv_conn _ _ _ Hw _ _ Hy)). intros E%name_of_inj; unfold k in *; lia.
    - left. apply list_lookup_singleton_Some in Hy as [??]. split; [unfold k; lia|done]. }
  assert (Hnew : (heap w ++ [x]) !! k = Some x) by by apply list_lookup_middle.
  assert (Hregs : ∀ i y, conn_name y ≠ name_of k → registered s' i y = registered s i y).
  { intros i y Hne. unfold registered. cbn. by rewrite lookup_insert_ne. }
  assert (Hreg : registered s' k x = true).
  { unfold registered. cbn. by rewrite lookup_insert_eq, bool_decide_true. }
  constructor; cbn; rewrite ?length_app; try done.
  - apply Hw.
  - by replace (length (heap w) + length [x])%nat with (S (length (heap w))) by (cbn; lia).
  - rewrite (inv_id _ _ _ Hw). cbn. lia.
  - cbn. lia.
  - intros i y [[-> ->]|[Hy _]]%Hat; [done|]. by apply (inv_conn _ _ _ Hw).
  - intros i y [[-> ->]|(Hy & _ & Hne)]%Hat; [done|]. rewrite Hregs by done. by apply (inv_open _ _ _ Hw).
  - intros i y [[-> ->]|(Hy & _ & Hne)]%Hat; [done|]. rewrite Hregs by done. by apply (inv_end _ _ _ Hw).
  - intros i y [[-> ->]|(Hy & _ & Hne)]%Hat Hpy Hl; [by rewrite <- Hl|]. by apply (inv_base _ _ _ Hw i y Hy Hpy) in Hl.
  - intros nm i [[<- <-]|[_ Hi]]%lookup_insert_Some; [by exists x|].
    destruct (inv_map _ _ _ Hw _ _ Hi) as (y & Hy & E). exists y. split; [|done]. by apply lookup_app_l_Some.
  - intros i l. pose proof (inv_queue _ _ _ Hw i l) as Hq. cbn [owed app] in Hq.
    change (owed (Some (loop_for k, ConnectEstablished k)) i l ++ about i (queue l w) =
            match (heap w ++ [x]) !! i with Some y => expected s' i y l | None => [] end).
    rewrite Hq. cbn [owed]. rewrite about_one. cbn [conn_of]. destruct (decide (k = i)) as [<-|Hne].
    + rewrite Hnew. unfold k. rewrite (lookup_ge_None_2 (heap w)) by lia. unfold expected. cbn.
      fold k. rewrite app_nil_r. case_decide as E1; case_decide as E2; [done|by destruct E2|by destruct E1|done].
    + replace (if decide (loop_for k = l) then [] else []) with (@nil task) by by case_decide.
      cbn [app]. destruct (heap w !! i) as [y|] eqn:Hy.
      * rewrite (lookup_app_l_Some _ _ _ _ Hy). destruct (Hat i y) as [[-> _]|(_ & _ & Hn')]; [by apply lookup_app_l_Some|done|].
        unfold expected. by rewrite Hregs.
      * destruct ((heap w ++ [x]) !! i) as [y|] eqn:Hy'; [|done]. destruct (Hat i y Hy') as [[-> _]|[? _]]; congruence.
Qed.

Lemma newConnection_spec s w fd addr :
  inv None s w → thread w = loop_ → 2 + Z.of_nat (length (heap w)) < 2 ^ 63 →
  wp (newConnection loop_ getLocalAddr fd addr)
    (λ _ w', ∃ s', inv None s' w' ∧ peers w' = peers w ++ [(fd, addr)]) w.
Proof.
  intros Hw Ht Hb. unfold newConnection, isInLoopThread. wp_go. apply server_thread_spec; [done|]. wp_go.
  rewrite Ht, Z.eqb_refl. eapply on_pool_spec; [apply Hw|]. eapply wp_mono; [apply getNextLoop_at, Hw|].
  cbv beta. intros l p [-> Hp]. wp_go. eapply server_this_spec; [done|]. wp_go. eapply update_this_spec; [done|]. wp_go.
  eapply update_this_spec; [done|]. wp_go. cbn [nextConnId_ set_pool heap set_server].
  assert (Hid : to_signed 64 (nextConnId_ s + 1) = nextConnId_ s + 1).
  { rewrite (inv_id _ _ _ Hw). apply to_signed_id; [done|]. apply in_signed_64. lia. }
  rewrite Hid, (inv_id _ _ _ Hw).
  assert (Hnm : connectionName (set_pool p s) (1 + Z.of_nat (length (heap w))) = name_of (length (heap w))).
  { apply connectionName_id; apply (inv_texts _ _ _ Hw). }
  rewrite Hnm. eapply wp_mono.
  { eapply runInLoop_spec; [|exact Ht]. rewrite <- (inv_id _ _ _ Hw). exact (inv_accept s w p fd addr Hw Hp Hb). }
  cbv beta. intros _ w' (s' & Hw' & Hpeers). exists s'. split; [done|]. rewrite Hpeers. unfold peers. cbn.
  by rewrite fmap_app.
Qed.

(** *** Events *)

Lemma inv_thread e s w l : inv e s w → inv e s (set_thread l w).
Proof. intros Hw. constructor; apply Hw. Qed.

(** Nothing of an established connection is queued. *)
Lemma up_nothing {s w c x} l :
  inv None s w → heap w !! c = Some x → is_up (conn_phase x) = true → about c (queue l w) = [].
Proof.
  intros Hw Hx Hp. pose proof (inv_queue _ _ _ Hw c l) as Hq. rewrite Hx in Hq. unfold expected in Hq.
  by destruct (conn_phase x).
Qed.

Lemma forceClose_inv s w c x :
  inv None s w → heap w !! c = Some x → is_up (conn_phase x) = true → wp (update_conn c Disconnecting) (settled w) w.
Proof.
  intros Hw Hx Hp. unfold update_conn. wp_go. rewrite (alter_insert _ _ _ _ Hx). exists s. split; [|by eapply peers_insert].
  eapply (inv_phase Disconnecting); [exact Hw|exact Hx|apply Hw|done|done| |done|done|done|].
  - intros _. apply (inv_open _ _ _ Hw); [done|by right].
  - intros l. by apply (up_nothing l Hw Hx Hp).
Qed.

Lemma closing_spec s w c x :
  inv None s w → heap w !! c = Some x → is_up (conn_phase x) = true → wp (handleClose loop_ c) (settled w) w.
Proof.
  intros Hw Hx Hp. unfold handleClose, removeConnection, update_conn. wp_go. rewrite (alter_insert _ _ _ _ Hx).
  eapply server_this_spec; [apply Hw|]. wp_go.
  assert (Hreg : registered s c x = true) by (apply (inv_open _ _ _ Hw); [done|by right]).
  assert (Hnone : ∀ l, about c (queue l w) = []) by (intros l; by apply (up_nothing l Hw Hx Hp)).
  eapply wp_mono.
  { eapply runInLoop_spec; [|done].
    eapply (inv_phase (e' := Some (loop_, RemoveConnectionInLoop c)) Closed); [exact Hw|exact Hx|apply Hw|done|done|done|done|done|..].
    - intros i l Hne. unfold owed. rewrite about_one, (decide_False (P := conn_of _ = i)) by (cbn; congruence). by case_decide.
    - intros l. change (queue l (set_heap _ _)) with (queue l w). rewrite Hnone, app_nil_r. unfold owed, expected. cbn [set_phase conn_phase].
      change (registered s c (set_phase Closed x)) with (registered s c x). rewrite Hreg, about_one, (decide_True (P := conn_of _ = c)) by done.
      case_decide as E1; case_decide as E2; [done|by destruct E2|by destruct E1|done]. }
  cbv beta. intros ? w' (s' & Hw' & Hpe). exists s'. split; [done|]. rewrite Hpe. by eapply peers_insert.
Qed.

Lemma run_next_spec s w l t q :
  inv None s w → queue l w = t :: q → wp (run_task loop_ t) (settled w) (set_queue l q (set_thread l w)).
Proof.
  intros Hw Hq. eapply wp_mono; [eapply (run_task_spec l t s); [|done]|done].
  constructor; try apply Hw.
  { intros i x Hx Hp Hb. by apply (inv_base _ _ _ Hw i x Hx Hp) in Hb. }
  intros i l'. etrans; [|apply (inv_queue _ _ _ Hw i l')].
  rewrite queue_set_queue. cbn [owed app]. destruct (decide (l = l')) as [<-|]; [|done]. by rewrite Hq, (about_cons i t q).
Qed.

Definition accepted (es : list event) : list (Z * InetAddress) :=
  omap (λ e, match e with Accept fd addr => Some (fd, addr) | _ => None end) es.

Lemma handle_spec s w e :
  inv None s w → 2 + Z.of_nat (length (heap w)) < 2 ^ 63 →
  wp (handle loop_ getLocalAddr e) (λ _ w', ∃ s', inv None s' w' ∧ peers w' = peers w ++ accepted [e]) w.
Proof.
  intros Hw Hb. assert (Hstay : ∀ (m : prog World ()) w0, wp m (settled w) w0 →
    wp m (λ _ w', ∃ s', inv None s' w' ∧ peers w' = peers w ++ []) w0).
  { intros m w0 Hm. eapply wp_mono; [exact Hm|]. cbv beta. intros ? w' (s' & ? & ->). exists s'. by rewrite app_nil_r. }
  destruct e as [fd addr|c|c|l]; unfold handle.
  - wp_go. apply (newConnection_spec s (set_thread loop_ w)); [by apply inv_thread|done|done].
  - apply Hstay. wp_go. destruct (heap w !! c) as [x|] eqn:Hx; [|wp_go; by exists s].
    wp_go. destruct (is_up (conn_phase x)) eqn:Hp; [|by exists s]. by eapply forceClose_inv.
  - apply Hstay. wp_go. destruct (heap w !! c) as [x|] eqn:Hx; [|wp_go; by exists s].
    wp_go. destruct (is_up (conn_phase x)) eqn:Hp; [|by exists s]. eapply wp_mono; [eapply (closing_spec s (set_thread _ w)); [by apply inv_thread|exact Hx|done]|done].
  - apply Hstay. wp_go. destruct (queue l w) as [|t q] eqn:Hq; [wp_go; by exists s|]. wp_go. by eapply run_next_spec.
Qed.

Lemma handle_all_spec s w es :
  inv None s w → 1 + Z.of_nat (length (heap w) + length es) < 2 ^ 63 →
  wp (handle_all loop_ getLocalAddr es) (λ _ w', ∃ s', inv None s' w' ∧ peers w' = peers w ++ accepted es) w.
Proof.
  unfold handle_all. revert s w. induction es as [|e es IH]; intros s w Hw Hb; cbn [for_each]; wp_go.
  { exists s. by rewrite app_nil_r. }
  cbn [length] in Hb. eapply wp_mono; [apply (handle_spec s); [done|lia]|]. cbv beta. intros _ w1 (s1 & Hw1 & E1).
  assert (Hlen : (length (heap w1) ≤ S (length (heap w)))%nat).
  { assert (length (peers w1) = (length (peers w) + length (accepted [e]))%nat) as E by by rewrite E1, length_app.
    unfold peers in E. rewrite !length_fmap in E. assert (length (accepted [e]) ≤ 1)%nat by (destruct e; cbn; lia). lia. }
  eapply wp_mono; [apply (IH s1 w1 Hw1); lia|]. cbv beta. intros _ w2 (s2 & Hw2 & E2). exists s2. split; [done|].
  rewrite E2, E1, <- app_assoc. f_equal. by destruct e.
Qed.

Lemma boot_spec s started :
  server (World_init loop_ s) = Some s → name_ s = nameArg → ipPort_ s = ipPort → listening_ s = false →
  threadPool_ s = EventLoopThreadPool_init started → nextConnId_ s = 1 → connections_ s = ∅ →
  wp (boot loop_ n startLoop) (λ _ w, ∃ s', inv None s' w ∧ heap w = []) (World_init loop_ s).
Proof.
  intros Hs E1 E2 E3 E4 E5 E6. unfold boot, setThreadNum, start, isInLoopThread. wp_go.
  apply wp_assert; [apply Z.leb_le; lia|]. wp_go. eapply on_pool_spec; [done|]. rewrite E4. unfold Pool.setThreadNum. wp_go.
  eapply update_this_spec; [done|]. wp_go. cbn [thread World_init set_server]. rewrite Z.eqb_refl.
  eapply on_pool_spec; [done|]. eapply wp_mono; [apply start_spec|]. cbv beta. intros _ p Hp. cbn in Hp. wp_go.
  eapply server_this_spec; [done|]. wp_go. apply wp_assert; [cbn; by rewrite E3|]. wp_go. eapply update_this_spec; [done|].
  eexists. split; [|done]. constructor; try done.
  - split; [apply Hp|]. intros Hne. cbn. rewrite Z.mod_0_l by done. exact Hp.
  - cbn. rewrite E6. intros k i. by rewrite lookup_empty.
Qed.
End invariant.

(** ** Properties *)

(** Nothing of the server's is left in any queue. *)
Definition idle (w : World) : Prop := ∀ l, queue l w = [].

(** [c] is in the map, under its own name. *)
Definition in_map (s : TcpServer) (c : TcpConnectionPtr) (x : TcpConnection) : Prop :=
  connections_ s !! conn_name x = Some c.

(** The invariant holds of all that events can lead to. *)
Lemma run_inv loop_ getLocalAddr n startLoop listenAddr nameArg b1 b2 es :
  wf_address listenAddr → 0 ≤ n < 2 ^ 31 → 1 + zlen es < 2 ^ 63 →
  wp (boot loop_ n startLoop ;; handle_all loop_ getLocalAddr es)
    (λ _ w, ∃ s, inv loop_ n startLoop (toIpPort listenAddr) nameArg None s w ∧ peers w = accepted es)
    (World_init loop_ (TcpServer_init listenAddr nameArg b1 b2)).
Proof.
  intros Ha%toIpPort_length Hn Hes. rewrite wp_bind. eapply wp_mono.
  { by apply (boot_spec loop_ n startLoop (toIpPort listenAddr) nameArg Hn _ b2). }
  cbv beta. intros _ w0 (s0 & Hw0 & Hheap). eapply wp_mono.
  { apply (handle_all_spec loop_ getLocalAddr n startLoop (toIpPort listenAddr) nameArg Hn Ha s0); [done|].
    rewrite Hheap. unfold zlen in Hes. cbn. lia. }
  cbv beta. intros _ w (s & Hw & Hpeers). exists s. split; [done|]. rewrite Hpeers. unfold peers. by rewrite Hheap.
Qed.

(** At rest a connection is established and in the map, or destroyed and not. *)
Lemma inv_idle {loop_ n startLoop ipPort nameArg s w i x} :
  inv loop_ n startLoop ipPort nameArg None s w → idle w → heap w !! i = Some x →
  (is_up (conn_phase x) = true ∧ in_map s i x) ∨ (conn_phase x = Destroyed ∧ ¬ in_map s i x).
Proof.
  intros Hw Hidle Hx. pose proof (inv_queue _ _ _ _ _ _ _ _ Hw i) as Hq. rewrite Hx in Hq. unfold expected in Hq.
  pose proof (inv_open _ _ _ _ _ _ _ _ Hw i x Hx) as Hopen. pose proof (inv_end _ _ _ _ _ _ _ _ Hw i x Hx) as Hend.
  assert (Hmap : registered s i x = true ↔ in_map s i x) by apply bool_decide_eq_true.
  destruct (conn_phase x) eqn:Hp.
  - specialize (Hq (conn_loop x)). by rewrite Hidle, decide_True in Hq.
  - left. split; [done|]. apply Hmap, Hopen. by right.
  - left. split; [done|]. apply Hmap, Hopen. by right.
  - destruct (registered s i x); [specialize (Hq loop_)|specialize (Hq (conn_loop x))]; by rewrite Hidle, decide_True in Hq.
  - right. split; [done|]. intros Hin%Hmap. by rewrite Hend in Hin.
Qed.

(** C13: the server's bookkeeping.  Booted with [n] threads, whatever connections arrive, whenever
    established ones end and in whatever order the loops call their functors: no assertion fails (every
    removal finds its entry, every connection is established before it is destroyed, and each once, all in
    the right threads); there is one connection per accepted descriptor, the [i]-th in the loop of thread
    [i] modulo [n]; all names differ; a connection that is not yet closed is in the map under its name, one
    that is destroyed is not, and the map holds nothing else.  When no functor is left, the map holds
    exactly the connections that are established, and all others are destroyed. *)
Theorem server_bookkeeping loop_ getLocalAddr n startLoop listenAddr nameArg b1 b2 es :
  wf_address listenAddr → 0 ≤ n < 2 ^ 31 → 1 + zlen es < 2 ^ 63 →
  wp (boot loop_ n startLoop ;; handle_all loop_ getLocalAddr es)
    (λ _ w, ∃ s, server w = Some s ∧
       (λ x, (conn_fd x, peerAddr_ x)) <$> heap w = accepted es ∧
       NoDup (conn_name <$> heap w) ∧
       (∀ i x, heap w !! i = Some x →
          conn_loop x = (if n =? 0 then loop_ else startLoop (Z.to_nat (Z.of_nat i mod n))) ∧
          (conn_phase x = Connecting ∨ is_up (conn_phase x) = true → in_map s i x) ∧
          (conn_phase x = Destroyed → ¬ in_map s i x)) ∧
       (∀ k i, connections_ s !! k = Some i → ∃ x, heap w !! i = Some x ∧ conn_name x = k) ∧
       (idle w → ∀ i x, heap w !! i = Some x →
          (is_up (conn_phase x) = true ∧ in_map s i x) ∨ (conn_phase x = Destroyed ∧ ¬ in_map s i x)))
    (World_init loop_ (TcpServer_init listenAddr nameArg b1 b2)).
Proof.
  intros Ha Hn Hes. eapply wp_mono; [by apply run_inv|]. cbv beta. intros _ w (s & Hw & Hpeers). exists s.
  unfold peers in Hpeers.
  pose proof (λ i x, inv_open loop_ n startLoop _ _ _ _ _ Hw i x) as Hopen. pose proof (λ i x, inv_end loop_ n startLoop _ _ _ _ _ Hw i x) as Hend.
  assert (Hmap : ∀ i x, registered s i x = true ↔ in_map s i x) by (intros; apply bool_decide_eq_true).
  split_and!; [apply Hw|done| | |apply Hw|].
  - apply NoDup_alt. intros i j k Hi Hj. rewrite list_lookup_fmap in Hi, Hj.
    destruct (heap w !! i) as [x|] eqn:Ex; [|done]. destruct (heap w !! j) as [y|] eqn:Ey; [|done].
    eapply (inv_name_inj loop_ n startLoop (toIpPort listenAddr) nameArg); [exact Hw|exact Ex|exact Ey|].
    cbn in Hi, Hj. congruence.
  - intros i x Hx. split_and!; [by destruct (inv_conn loop_ n startLoop _ _ _ _ _ Hw i x Hx)|intros; apply Hmap; by eapply Hopen|].
    intros Hp Hin%Hmap. by rewrite (Hend i x Hx Hp) in Hin.
  - intros Hidle i x. apply (inv_idle Hw Hidle).
Qed.

(** Two threads' loops (10 and 11), the base loop (1), three connections, the second of which ends. *)
Definition example_listen : InetAddress := InetAddress_of (0, 0, 0, 0) 8080.
Definition example_peer : InetAddress := InetAddress_of (10, 0, 0, 1) 4000.
Definition example_boot : prog World () := boot 1 2 (λ i, 10 + Z.of_nat i).
Definition example_server : World := World_init 1 (TcpServer_init example_listen (txt "echo") false false).
Definition example_events : list event :=
  [Accept 5 example_peer; Accept 6 example_peer; Run 11; Close 1%nat; Accept 7 example_peer; Run 1; Run 11; Run 10; Run 10].

Lemma server_bookkeeping_witness :
  wp (example_boot ;; handle_all 1 (λ _, example_listen) example_events)
    (λ _ w, ∃ s, server w = Some s ∧
       (λ x, (conn_fd x, peerAddr_ x)) <$> heap w = accepted example_events ∧
       NoDup (conn_name <$> heap w) ∧
       (∀ i x, heap w !! i = Some x →
          conn_loop x = (if 2 =? 0 then 1 else 10 + Z.of_nat (Z.to_nat (Z.of_nat i mod 2))) ∧
          (conn_phase x = Connecting ∨ is_up (conn_phase x) = true → in_map s i x) ∧
          (conn_phase x = Destroyed → ¬ in_map s i x)) ∧
       (∀ k i, connections_ s !! k = Some i → ∃ x, heap w !! i = Some x ∧ conn_name x = k) ∧
       (idle w → ∀ i x, heap w !! i = Some x →
          (is_up (conn_phase x) = true ∧ in_map s i x) ∨ (conn_phase x = Destroyed ∧ ¬ in_map s i x)))
    example_server.
Proof.
  apply (server_bookkeeping 1 (λ _, example_listen) 2 (λ i, 10 + Z.of_nat i) example_listen (txt "echo") false false example_events).
  - unfold wf_address. cbn. repeat constructor; discriminate.
  - split; [discriminate|reflexivity].
  - reflexivity.
Defined.

(** What the run comes to. *)
Definition phases (w : World) : list (list byte * phase) := (λ x, (conn_name x, conn_phase x)) <$> heap w.

Example example_run :
  (phases ∘ snd <$> match (example_boot ;; handle_all 1 (λ _, example_listen) example_events) example_server with
                    | Ok r => Some r | Fault _ => None end) =
  Some [(txt "echo-0.0.0.08080#1", Connected); (txt "echo-0.0.0.08080#2", Destroyed); (txt "echo-0.0.0.08080#3", Connected)].
Proof. vm_compute. reflexivity. Qed.

(** [start] is not idempotent. *)
Example start_twice :
  (example_boot ;; start 1 (λ i, 20 + Z.of_nat i)) example_server = Fault AssertFailed.
Proof. vm_compute. reflexivity. Qed.

(** A removal on its way when the server is destroyed: its functor uses the server that is gone. *)
Example destroyed_before_removal :
  (example_boot ;; handle_all 1 (λ _, example_listen) [Accept 5 example_peer; Run 10; Close 0%nat] ;;
   modify (set_thread 1) ;; TcpServer_dtor 1 (λ _, example_listen) [0%nat] [Run 10] ;; handle 1 (λ _, example_listen) (Run 1)) example_server =
  Fault UndefinedBehaviour.
Proof. vm_compute. reflexivity. Qed.

(** A connection that ends in its own loop while the pool is being joined uses the server that is gone. *)
Example ended_during_destruction :
  (example_boot ;; handle_all 1 (λ _, example_listen) [Accept 5 example_peer; Run 10] ;;
   modify (set_thread 1) ;; TcpServer_dtor 1 (λ _, example_listen) [0%nat] [Close 0%nat; Run 10]) example_server =
  Fault UndefinedBehaviour.
Proof. vm_compute. reflexivity. Qed.

(** A loop that is gone before it has run its functors leaves its connection as it was. *)
Example functors_lost :
  (phases ∘ snd <$> match (example_boot ;; handle_all 1 (λ _, example_listen) [Accept 5 example_peer; Run 10] ;;
      modify (set_thread 1) ;; TcpServer_dtor 1 (λ _, example_listen) [0%nat] []) example_server with Ok r => Some r | Fault _ => None end) =
  Some [(txt "echo-0.0.0.08080#1", Connected)].
Proof. vm_compute. reflexivity. Qed.

(** Destroyed with the base loop alone, it ends its established connections at once. *)
Example destroyed_alone :
  (phases ∘ snd <$> match (boot 1 0 (λ _, 10) ;; handle_all 1 (λ _, example_listen) [Accept 5 example_peer; Accept 6 example_peer] ;;
      TcpServer_dtor 1 (λ _, example_listen) [1%nat; 0%nat] []) example_server with Ok r => Some r | Fault _ => None end) =
  Some [(txt "echo-0.0.0.08080#1", Destroyed); (txt "echo-0.0.0.08080#2", Destroyed)].
Proof. vm_compute. reflexivity. Qed.
