(* ===== verification/ServerShutdown.v ===== *)
(** * ServerShutdown: [TcpServer::~TcpServer] and what runs after it

    The destructor gives every connection of the map to [connectDestroyed] in the connection's own
    loop, and joins the threads of its pool.  The base loop then runs what is still in its queue, without the
    server. *)
From S2P Require Import Prelude Sockets EventLoopThread TcpServer.

(** No connection of the map is being force-closed or waits for its removal. *)
Definition none_closing (s : TcpServer) (w : World) : Prop :=
  ∀ i x, heap w !! i = Some x → in_map s i x → conn_phase x = Connecting ∨ conn_phase x = Connected.

(** Each loop of the pool runs, in the order [turns], the functors it has and those the destructor gives it. *)
Definition pool_runs (s : TcpServer) (items : list TcpConnectionPtr) (turns : list Z) (w : World) : Prop :=
  ∀ l, l ∈ Pool.loops_ (threadPool_ s) → (length (queue l w) + length items ≤ count_occ Z.eq_dec turns l)%nat.

Section shutdown.
Context (loop_ : Z) (getLocalAddr : Z → InetAddress) (n : Z) (startLoop : nat → Z) (ipPort nameArg : list byte).
Context (loops : list Z).    (** the pool's *)
Implicit Types (w : World) (x : TcpConnection) (i c : TcpConnectionPtr).

#[local] Abbreviation inv := (inv loop_ n startLoop ipPort nameArg None).

(** The tasks left to a connection of a server that is gone. *)
Definition last_tasks i x : list task :=
  match conn_phase x with
  | Connecting => [ConnectEstablished i; ConnectDestroyed i]
  | Connected | Closed => [ConnectDestroyed i]
  | Disconnecting | Destroyed => []
  end.

Definition doomed i x w : Prop :=
  conn_phase x ≠ Disconnecting ∧
  ((conn_loop x = loop_ ∧ (conn_phase x = Closed ∨ conn_phase x = Destroyed)) ∨ conn_loop x ∈ loops) ∧
  ∀ l, about i (queue l w) = if decide (l = conn_loop x) then last_tasks i x else [].

(** A connection the destructor has still to deal with. *)
Definition calm i x w : Prop :=
  (conn_loop x = loop_ ∨ conn_loop x ∈ loops) ∧
  ((conn_phase x = Connected ∧ ∀ l, about i (queue l w) = []) ∨
   (conn_phase x = Connecting ∧ conn_loop x ≠ loop_ ∧
    ∀ l, about i (queue l w) = if decide (l = conn_loop x) then [ConnectEstablished i] else [])).

(** No task is about a connection that was never made. *)
Definition no_orphans w : Prop := ∀ i l, heap w !! i = None → about i (queue l w) = [].

(** In the destructor, before [rest]. *)
Definition destroying (rest : list TcpConnectionPtr) (h : list TcpConnection) w : Prop :=
  thread w = loop_ ∧ NoDup rest ∧ Forall (λ c, is_Some (heap w !! c)) rest ∧ length (heap w) = length h ∧ no_orphans w ∧
  ∀ i x, heap w !! i = Some x → if decide (i ∈ rest) then calm i x w else doomed i x w.

(** After it. *)
Definition dying (h : list TcpConnection) w : Prop :=
  server w = None ∧ length (heap w) = length h ∧ no_orphans w ∧ ∀ i x, heap w !! i = Some x → doomed i x w.

(** A change of one connection's phase and tasks. *)
Lemma change_one c p w w' (P P' : TcpConnectionPtr → TcpConnection → World → Prop) x :
  heap w !! c = Some x → heap w' = alter (set_phase p) c (heap w) →
  P' c (set_phase p x) w' →
  (∀ i y, i ≠ c → heap w !! i = Some y → P' i y w') →
  length (heap w') = length (heap w) ∧ ∀ i y, heap w' !! i = Some y → P' i y w'.
Proof.
  intros Hx Hh Hc Hother. split; [by rewrite Hh, length_alter|]. intros i y. rewrite Hh.
  destruct (decide (i = c)) as [->|Hne].
  - rewrite list_lookup_alter_eq, Hx. by intros [= <-].
  - rewrite list_lookup_alter_ne by done. by apply Hother.
Qed.

(** The tasks of other connections do not change when one is queued or taken. *)
Lemma about_other i t q : conn_of t ≠ i → about i (q ++ [t]) = about i q ∧ about i (t :: q) = about i q.
Proof.
  intros Hne. split.
  - rewrite about_app, about_one, decide_False by done. by rewrite app_nil_r.
  - by rewrite about_cons, about_one, decide_False by done.
Qed.

Lemma destroy_one h c rest w :
  destroying (c :: rest) h w →
  wp (x ← conn c; runInLoop loop_ (conn_loop x) (ConnectDestroyed c))
    (λ _ w', destroying rest h w' ∧ server w' = server w ∧ ∀ l, (length (queue l w') ≤ S (length (queue l w)))%nat) w.
Proof.
  intros (Ht & [Hnin Hnd]%list.NoDup_cons & [[x Hx] Hall]%list.Forall_cons & Hlen & Horph & Hconns).
  assert (Hc : calm c x w) by (specialize (Hconns c x Hx); by rewrite decide_True in Hconns by (by left)).
  assert (Hrest : ∀ w' i y, i ≠ c → heap w !! i = Some y → (∀ l, about i (queue l w') = about i (queue l w)) →
    if decide (i ∈ rest) then calm i y w' else doomed i y w').
  { intros w' i y Hne Hy Hq. specialize (Hconns i y Hy). destruct (decide (i ∈ rest)) as [Hin|Hin].
    - rewrite decide_True in Hconns by (by right). unfold calm in *. by setoid_rewrite Hq.
    - rewrite decide_False in Hconns by (rewrite elem_of_cons; tauto). unfold doomed in *. by setoid_rewrite Hq. }
  wp_go. eapply server_conn_spec; [done|]. unfold runInLoop, isInLoopThread. wp_go. rewrite Ht.
  destruct (Z.eqb_spec loop_ (conn_loop x)) as [Hl|Hl].
  - destruct Hc as [Hpl [[Hp Hq]|(_ & Hne & _)]]; [|by symmetry in Hl].
    cbn [run_task]. unfold connectDestroyed, update_conn. wp_go. eapply server_conn_spec; [done|]. wp_go.
    apply server_thread_spec; [congruence|]. wp_go. apply wp_assert; [apply bool_decide_true; by left|]. wp_go.
    set (w' := set_heap _ w). split; [|split; [done|intros l; apply Nat.le_succ_diag_r]].
    destruct (change_one c Destroyed w w' calm (λ i y w', if decide (i ∈ rest) then calm i y w' else doomed i y w') x)
      as [Hlen' Hconns']; [done|done| | |].
    + rewrite decide_False by done. split_and!; [done|left; split; [done|by right]|]. intros l. cbn. destruct (decide _); apply Hq.
    + intros i y Hne Hy. by apply Hrest.
    + split_and!; [done|done| |congruence| |exact Hconns'].
      2:{ intros i l Hi. apply lookup_ge_None in Hi. apply Horph, lookup_ge_None. lia. }
      apply (list.Forall_impl _ _ _ Hall). intros i [y Hy]. cbn. rewrite <- not_eq_None_Some, list_lookup_alter.
      case_decide; [subst; by rewrite Hx|by rewrite Hy].
  - unfold queueInLoop. wp_go. split; [|split; [done|]].
    2:{ intros l. rewrite queue_set_queue. case_decide; [subst l; rewrite length_app; cbn; lia|lia]. }
    split_and!; [done|done|done|done| |].
    { intros i l Hi. change (heap w !! i = None) in Hi. rewrite queue_set_queue. case_decide; [subst l|by apply Horph].
      assert (Hne : c ≠ i) by (intros ->; by rewrite Hx in Hi).
      rewrite (proj1 (about_other i (ConnectDestroyed c) _ Hne)). by apply Horph. }
    intros i y Hy. change (heap w !! i = Some y) in Hy.
    destruct (decide (i = c)) as [->|Hne].
    + assert (y = x) as -> by congruence. rewrite decide_False by done.
      assert (Hq : ∀ l, about c (queue l (set_queue (conn_loop x) (queue (conn_loop x) w ++ [ConnectDestroyed c]) w)) =
        about c (queue l w) ++ if decide (l = conn_loop x) then [ConnectDestroyed c] else []).
      { intros l. rewrite queue_set_queue. destruct (decide (conn_loop x = l)) as [<-|].
        - rewrite about_app, about_one, !decide_True by done. done.
        - rewrite decide_False by congruence. by rewrite app_nil_r. }
      unfold doomed, last_tasks. destruct Hc as [[Hb|Hpl] Hc]; [by symmetry in Hb|].
      destruct Hc as [[Hp Hq0]|(Hp & _ & Hq0)]; rewrite Hp; (split_and!; [done|by right|]);
        intros l; rewrite Hq, Hq0; by destruct (decide (l = conn_loop x)).
    + apply Hrest; [done|done|]. intros l. rewrite queue_set_queue. case_decide; [subst l|done]. by apply about_other.
Qed.

(** A loop runs its next task. *)
Lemma dying_run h l w : dying h w →
  wp (handle loop_ getLocalAddr (Run l))
    (λ _ w', dying h w' ∧ ∀ l', queue l' w' = if decide (l = l') then tail (queue l w) else queue l' w) w.
Proof.
  intros (Hs & Hlen & Horph & Hconns). unfold handle. wp_go. destruct (queue l w) as [|t q] eqn:Hq.
  { wp_go. split; [by split_and!|]. intros l'. case_decide; [by subst|done]. }
  wp_go.
  set (w1 := set_queue l q (set_thread l w)).
  assert (Hq1 : ∀ l', queue l' w1 = if decide (l = l') then q else queue l' w) by (intros l'; unfold w1; by rewrite queue_set_queue).
  assert (Ht : about (conn_of t) (queue l w) = t :: about (conn_of t) q).
  { by rewrite Hq, about_cons, about_one, decide_True. }
  destruct (heap w !! conn_of t) as [x|] eqn:Hx; [|by rewrite (Horph _ _ Hx) in Ht].
  destruct (Hconns _ _ Hx) as (Hnd & Hpl & Ha). pose proof (Ha l) as Hal. rewrite Ht in Hal.
  destruct (decide (l = conn_loop x)) as [El|]; [|done].
  assert (Hothers : ∀ i l', i ≠ conn_of t → about i (queue l' w1) = about i (queue l' w)).
  { intros i l' Hne. rewrite Hq1. case_decide; [subst l'|done]. rewrite Hq. by rewrite (proj2 (about_other i t q ltac:(congruence))). }
  assert (Hgo : ∀ p, p ≠ Disconnecting → (conn_phase x = Closed → p = Closed ∨ p = Destroyed) →
    conn_phase x ≠ Destroyed → last_tasks (conn_of t) (set_phase p x) = about (conn_of t) q →
    dying h (set_heap (alter (set_phase p) (conn_of t) (heap w1)) w1) ∧
    ∀ l', queue l' (set_heap (alter (set_phase p) (conn_of t) (heap w1)) w1) = if decide (l = l') then tail (t :: q) else queue l' w).
  { intros p Hp Hpc Hpd Hlast. split; [|exact Hq1]. set (w' := set_heap _ w1).
    destruct (change_one (conn_of t) p w w' doomed doomed x) as [Hlen' Hconns']; [done|done| | |].
    - split_and!; [done|destruct Hpl as [[? [?|?]]|?]; [left; split; [done|by apply Hpc]|done|by right]|].
      intros l'. rewrite Hlast. change (queue l' w') with (queue l' w1). rewrite Hq1.
      change (conn_loop (set_phase p x)) with (conn_loop x). destruct (decide (l = l')) as [<-|Hne]; [by rewrite decide_True|].
      rewrite Ha, !decide_False by congruence. done.
    - intros i y Hne Hy. destruct (Hconns _ _ Hy) as (? & ? & Hay). split_and!; [done|done|]. intros l'. rewrite <- Hay. by apply Hothers.
    - split_and!; [done|congruence| |done]. intros i l' Hi.
      assert (Hi' : heap w !! i = None) by (apply lookup_ge_None; apply lookup_ge_None in Hi; lia).
      change (queue l' w') with (queue l' w1). rewrite Hothers by congruence. by apply Horph. }
  unfold last_tasks in Hal. destruct t as [c|c|c]; cbn [run_task conn_of] in *; destruct (conn_phase x) eqn:Hp; try done;
    injection Hal as Hal; [unfold connectEstablished|unfold connectDestroyed..]; wp_go.
  all: eapply server_conn_spec; [done|]; wp_go; apply server_thread_spec; [done|]; wp_go.
  all: apply wp_assert; [apply bool_decide_true; tauto|]; unfold update_conn; wp_go.
  all: apply Hgo; [done|intros; first [by right|congruence]|congruence|by rewrite Hal].
Qed.

(** The loops run what they are asked to. *)
Lemma dying_runs h ls w : dying h w →
  wp (handle_all loop_ getLocalAddr (Run <$> ls))
    (λ _ w', dying h w' ∧ ∀ l, queue l w' = drop (count_occ Z.eq_dec ls l) (queue l w)) w.
Proof.
  unfold handle_all. induction ls as [|l ls IH] in w |- *; intros Hw; cbn [fmap list_fmap for_each]; wp_go; [done|].
  eapply wp_mono; [by apply dying_run|]. cbv beta. intros _ w1 [Hw1 Hq1]. eapply wp_mono; [by apply IH|]. cbv beta.
  intros _ w2 [Hw2 Hq2]. split; [done|]. intros l'. rewrite Hq2, Hq1. cbn [count_occ].
  destruct (Z.eq_dec l l') as [->|Hne]; [|by rewrite decide_False]. rewrite decide_True by done.
  destruct (queue l' w); cbn; [by rewrite drop_nil|done].
Qed.

(** Nothing is left in the pool's loops. *)
Definition pool_done w : Prop := ∀ l, l ∈ loops → queue l w = [].

Lemma drop_queues h ls w : dying h w → pool_done w → ls ⊆ loops →
  wp (for_each (λ l, modify (set_queue l [])) ls) (λ _ w', dying h w' ∧ pool_done w') w.
Proof.
  induction ls as [|l ls IH] in w |- *; intros Hw Hd Hls; cbn [for_each]; wp_go; [done|].
  assert (Hq : ∀ l', queue l' (set_queue l [] w) = queue l' w).
  { intros l'. rewrite queue_set_queue. case_decide; [subst l'|done]. symmetry. apply Hd, Hls. by left. }
  apply IH; [|intros l' Hl'; rewrite Hq; by apply Hd|intros l' Hl'; apply Hls; by right].
  destruct Hw as (H1 & H2 & H3 & H4). split_and!; [done|done| |].
  - intros i l' Hi. rewrite Hq. by apply H3.
  - intros i x Hx. destruct (H4 i x Hx) as (? & ? & Hl). split_and!; [done|done|]. intros l'. rewrite Hq. apply Hl.
Qed.

(** The destructor, when the pool's loops run all functors they have before their threads end. *)
Lemma dtor_spec s items turns h w :
  destroying items h w → server w = Some s → Pool.loops_ (threadPool_ s) = loops →
  (∀ l, l ∈ loops → (length (queue l w) + length items ≤ count_occ Z.eq_dec turns l)%nat) →
  wp (TcpServer_dtor loop_ getLocalAddr items (Run <$> turns)) (λ _ w', dying h w' ∧ pool_done w') w.
Proof.
  intros Hw Hs Hloops Hturns. unfold TcpServer_dtor. wp_go. apply server_thread_spec; [apply Hw|]. wp_go.
  eapply wp_mono; [apply (wp_for_each _ (λ l w', destroying l h w' ∧ server w' = server w ∧
    ∀ li, (length (queue li w') + length l ≤ length (queue li w) + length items)%nat)); [done|]|].
  { intros c l w1 (Hw1 & Hs1 & Hq1). eapply wp_mono; [by apply (destroy_one h)|]. cbv beta. intros _ w2 (? & ? & Hq2).
    split_and!; [done|congruence|]. intros li. specialize (Hq1 li). specialize (Hq2 li). cbn in Hq1. lia. }
  cbv beta. intros _ w1 ((_ & _ & _ & Hlen & Horph & Hconns) & Hs1 & Hq1). wp_go.
  eapply server_this_spec; [by rewrite Hs1, Hs|]. wp_go.
  eapply wp_mono; [apply (dying_runs h)|].
  { split_and!; [done|done|done|]. intros i x Hx. specialize (Hconns i x Hx).
    by rewrite decide_False in Hconns by apply not_elem_of_nil. }
  cbv beta. intros _ w2 [Hw2 Hq2]. wp_go. rewrite Hloops. apply drop_queues; [exact Hw2| |done].
  intros l Hl. change (queue l w2 = []). rewrite Hq2. change (queue l (set_server None w1)) with (queue l w1).
  apply drop_ge. specialize (Hq1 l). specialize (Hturns l Hl). cbn in Hq1. lia.
Qed.

(** Without the server and the pool: a connection is destroyed, or ended and about to be destroyed in the base loop. *)
Definition over h w : Prop := dying h w ∧ pool_done w.

Lemma over_phase h w i x : over h w → heap w !! i = Some x →
  conn_phase x = Destroyed ∨ (conn_phase x = Closed ∧ conn_loop x = loop_ ∧ ConnectDestroyed i ∈ queue loop_ w).
Proof.
  intros [(_ & _ & _ & Hconns) Hd] Hx. destruct (Hconns i x Hx) as (Hnd & Hpl & Hq). specialize (Hq (conn_loop x)).
  rewrite decide_True in Hq by done. destruct Hpl as [[El [Hp|Hp]]|Hl]; [right|by left|left].
  - split_and!; [done|done|]. rewrite El in Hq. unfold last_tasks in Hq. rewrite Hp in Hq.
    assert (Hin : ConnectDestroyed i ∈ about i (queue loop_ w)) by (rewrite Hq; by left).
    by apply list_elem_of_filter in Hin as [_ ?].
  - rewrite (Hd _ Hl) in Hq. unfold last_tasks in Hq. by destruct (conn_phase x).
Qed.

Lemma over_idle h w i x : over h w → idle w → heap w !! i = Some x → conn_phase x = Destroyed.
Proof.
  intros Ho Hi Hx. destruct (over_phase h w i x Ho Hx) as [?|(_ & _ & Hq)]; [done|]. rewrite Hi in Hq. by apply elem_of_nil in Hq.
Qed.

(** Nothing but a new connection can go wrong then. *)
Lemma over_step h e w : accepted [e] = [] → over h w → wp (handle loop_ getLocalAddr e) (λ _ w', over h w') w.
Proof.
  intros He Ho. assert (Hup : ∀ i x, heap w !! i = Some x → is_up (conn_phase x) = false).
  { intros i x Hx. by destruct (over_phase h w i x Ho Hx) as [->|[-> _]]. }
  destruct e as [fd peer|c|c|l]; [done|..].
  1, 2: unfold handle; wp_go; destruct (heap w !! c) as [x|] eqn:Hx; wp_go; [rewrite (Hup c x Hx)|]; done.
  destruct Ho as [Hw Hd]. eapply wp_mono; [by apply dying_run|]. cbv beta. intros _ w' [Hw' Hq]. split; [done|].
  intros l' Hl'. rewrite Hq. case_decide; [subst l'|by apply Hd]. by rewrite Hd.
Qed.

Lemma over_steps h es w : accepted es = [] → over h w → wp (handle_all loop_ getLocalAddr es) (λ _ w', over h w') w.
Proof.
  unfold handle_all. induction es as [|e es IH] in w |- *; intros He Hw; cbn [for_each]; wp_go; [done|].
  assert (He' : accepted [e] = [] ∧ accepted es = []) by by destruct e.
  eapply wp_mono; [apply (over_step h); [apply He'|done]|]. cbv beta. intros _ w1 Hw1. by apply IH; [apply He'|].
Qed.

(** The destructor starts from the bookkeeping invariant. *)
Lemma destroying_start s w items :
  inv s w → Pool.loops_ (threadPool_ s) = loops → 0 ≤ n → thread w = loop_ → items ≡ₚ (map_to_list (connections_ s)).*2 →
  (∀ i x, heap w !! i = Some x → in_map s i x → conn_phase x = Connecting ∨ conn_phase x = Connected) →
  destroying items (heap w) w.
Proof.
  intros Hw Hloops Hn Ht Hitems Hcalm.
  assert (Hpl : ∀ i x, heap w !! i = Some x → conn_loop x = loop_ ∨ conn_loop x ∈ loops).
  { intros i x Hx. destruct (inv_conn _ _ _ _ _ _ _ _ Hw i x Hx) as [_ ->]. unfold loop_for.
    destruct (Z.eqb_spec n 0) as [|Hne]; [by left|right]. destruct (inv_pool _ _ _ _ _ _ _ _ Hw) as [_ Hp].
    destruct (Hp Hne) as (_ & _ & El). rewrite <- Hloops, El. apply list_elem_of_fmap. eexists. split; [done|].
    apply elem_of_seq. pose proof (Z.mod_pos_bound (Z.of_nat i) n). lia. }
  assert (Hin : ∀ i, i ∈ items ↔ ∃ x, heap w !! i = Some x ∧ in_map s i x).
  { intros i. rewrite Hitems, list_elem_of_fmap. split.
    - intros ([k j] & -> & Hk%elem_of_map_to_list). destruct (inv_map _ _ _ _ _ _ _ _ Hw _ _ Hk) as (x & Hx & <-). by exists x.
    - intros (x & Hx & Hm). exists (conn_name x, i). split; [done|]. by apply elem_of_map_to_list. }
  split_and!; [done| | |done| |].
  - rewrite Hitems. apply NoDup_fmap_2_strong; [|apply NoDup_map_to_list].
    intros [k1 i1] [k2 i2] H1%elem_of_map_to_list H2%elem_of_map_to_list. cbn. intros <-.
    destruct (inv_map _ _ _ _ _ _ _ _ Hw _ _ H1) as (x1 & Hx1 & <-).
    destruct (inv_map _ _ _ _ _ _ _ _ Hw _ _ H2) as (x2 & Hx2 & <-). congruence.
  - apply list.Forall_forall. intros i (x & Hx & _)%Hin. by exists x.
  - intros i l Hi. pose proof (inv_queue _ _ _ _ _ _ _ _ Hw i l) as Hq. by rewrite Hi in Hq.
  - intros i x Hx. pose proof (λ l, inv_queue _ _ _ _ _ _ _ _ Hw i l) as Hq. rewrite Hx in Hq. cbn [owed app] in Hq.
    assert (Hreg : in_map s i x ↔ registered s i x = true) by (symmetry; apply bool_decide_eq_true).
    pose proof (inv_open _ _ _ _ _ _ _ _ Hw i x Hx) as Hopen. pose proof (inv_end _ _ _ _ _ _ _ _ Hw i x Hx) as Hend.
    pose proof (inv_base _ _ _ _ _ _ _ _ Hw i x Hx) as Hbase. unfold expected in Hq.
    destruct (decide (i ∈ items)) as [Hi|Hi].
    + apply Hin in Hi as (y & Hy & Hm). assert (y = x) as -> by congruence.
      split; [by eapply Hpl|]. destruct (Hcalm i x Hx Hm) as [Hp|Hp]; rewrite Hp in *; [right|by left].
      split_and!; [done| |done]. intros El. by specialize (Hbase eq_refl El).
    + assert (Hm : registered s i x = false).
      { apply not_true_is_false. intros Hm. apply Hi, Hin. exists x. split; [done|by apply Hreg]. }
      assert (Hpl' : conn_phase x = Closed ∨ conn_phase x = Destroyed →
        (conn_loop x = loop_ ∧ (conn_phase x = Closed ∨ conn_phase x = Destroyed)) ∨ conn_loop x ∈ loops).
      { intros Hp. destruct (Hpl i x Hx) as [?|?]; [by left|by right]. }
      unfold doomed, last_tasks. rewrite Hm in *. destruct (conn_phase x) eqn:Hp; try done.
      * by specialize (Hopen (or_introl eq_refl)).
      * by specialize (Hopen (or_intror eq_refl)).
      * by specialize (Hopen (or_intror eq_refl)).
      * split_and!; [done|by auto|]. intros l. rewrite Hq. by case_decide.
      * split_and!; [done|by auto|]. intros l. rewrite Hq. by case_decide.
Qed.
End shutdown.

(** C14: shutting the server down.  After any connections, closes and functors, when no connection of the map is
    being force-closed or waits for its removal, when none ends in its own loop while the destructor runs, and
    when each loop of the pool runs the functors it has been given before its thread ends: the destructor,
    whatever the order in which it goes over the map, and all that happens after it to the connections there
    are (forced closes, ends, functors of the base loop) fails no assertion and does not use the destroyed
    server; when it is done, [connectDestroyed] has run for every connection, but for those that had ended
    before in the base loop and whose [connectDestroyed] is in its queue; and when nothing is left in the queues it
    has run for all.  (Without the conditions: [destroyed_before_removal], [ended_during_destruction] and
    [functors_lost].) *)
Theorem server_shutdown loop_ getLocalAddr n startLoop listenAddr nameArg b1 b2 es w s items turns rest :
  wf_address listenAddr → 0 ≤ n < 2 ^ 31 → 1 + zlen es < 2 ^ 63 →
  (boot loop_ n startLoop ;; handle_all loop_ getLocalAddr es)
    (World_init loop_ (TcpServer_init listenAddr nameArg b1 b2)) = Ok (tt, w) →
  server w = Some s → items ≡ₚ (map_to_list (connections_ s)).*2 →
  none_closing s w → pool_runs s items turns w →
  accepted rest = [] →
  wp (modify (set_thread loop_) ;; TcpServer_dtor loop_ getLocalAddr items (Run <$> turns) ;; handle_all loop_ getLocalAddr rest)
    (λ _ w', server w' = None ∧ length (heap w') = length (heap w) ∧
       (∀ i x, heap w' !! i = Some x → conn_phase x = Destroyed ∨
          (conn_phase x = Closed ∧ conn_loop x = loop_ ∧ ConnectDestroyed i ∈ queue loop_ w')) ∧
       (idle w' → ∀ i x, heap w' !! i = Some x → conn_phase x = Destroyed)) w.
Proof.
  intros Ha Hn Hes Hrun Hs Hitems Hcalm Hturns Hrest.
  pose proof (run_inv loop_ getLocalAddr n startLoop listenAddr nameArg b1 b2 es Ha Hn Hes) as Hinv.
  unfold wpf in Hinv. rewrite Hrun in Hinv. destruct Hinv as (s' & Hw & _).
  assert (s' = s) as -> by (pose proof (inv_server _ _ _ _ _ _ _ _ Hw); congruence).
  rewrite wp_bind, wp_modify. rewrite wp_bind. eapply wp_mono.
  { apply (dtor_spec loop_ getLocalAddr startLoop (Pool.loops_ (threadPool_ s)) s items turns (heap (set_thread loop_ w))); [|done|done|done].
    eapply destroying_start; [by apply inv_thread|done|lia|done|done|done]. }
  cbv beta. intros _ w1 Hw1. eapply wp_mono; 
    [by apply (over_steps loop_ getLocalAddr startLoop (Pool.loops_ (threadPool_ s)) (heap (set_thread loop_ w)))|]. cbv beta.
  intros _ w2 Hw2. pose proof Hw2 as [(Hs2 & Hlen2 & _) _]. split_and!; [done|done| |].
  - intros i x. by eapply over_phase.
  - intros Hidle i x. by eapply over_idle.
Qed.

(** Of three connections one has ended; one is not established yet. *)
Definition before_shutdown : list event :=
  [Accept 5 example_peer; Accept 6 example_peer; Run 11; Close 1%nat; Run 1; Run 11; Accept 7 example_peer; Run 10].

Definition after_events : World :=
  match (example_boot ;; handle_all 1 (λ _, example_listen) before_shutdown) example_server with
  | Ok (_, w) => w
  | Fault _ => example_server
  end.
Definition server_then : TcpServer := default (TcpServer_init example_listen [] false false) (server after_events).

Lemma server_shutdown_witness :
  wp (modify (set_thread 1) ;; TcpServer_dtor 1 (λ _, example_listen) [2%nat; 0%nat] (Run <$> [10; 10; 11; 10; 11; 10; 11; 11]) ;;
      handle_all 1 (λ _, example_listen) [Close 0%nat; Run 1; ForceClose 2%nat])
    (λ _ w', server w' = None ∧ length (heap w') = length (heap after_events) ∧
       (∀ i x, heap w' !! i = Some x → conn_phase x = Destroyed ∨
          (conn_phase x = Closed ∧ conn_loop x = 1 ∧ ConnectDestroyed i ∈ queue 1 w')) ∧
       (idle w' → ∀ i x, heap w' !! i = Some x → conn_phase x = Destroyed)) after_events.
Proof.
  apply (server_shutdown 1 (λ _, example_listen) 2 (λ i, 10 + Z.of_nat i) example_listen (txt "echo") false false
           before_shutdown after_events server_then [2%nat; 0%nat] [10; 10; 11; 10; 11; 10; 11; 11]
           [Close 0%nat; Run 1; ForceClose 2%nat]).
  - unfold wf_address. cbn. repeat constructor; discriminate.
  - split; [discriminate|reflexivity].
  - reflexivity.
  - vm_compute. reflexivity.
  - vm_compute. reflexivity.
  - vm_compute. reflexivity.
  - intros i x Hx Hm. destruct i as [|[|[|i]]].
    + right. revert Hx. vm_compute. by intros [= <-].
    + exfalso. assert (Hk : conn_name x = txt "echo-0.0.0.08080#2") by (revert Hx; vm_compute; by intros [= <-]).
      unfold in_map in Hm. rewrite Hk in Hm. revert Hm. vm_compute. discriminate.
    + left. revert Hx. vm_compute. by intros [= <-].
    + revert Hx. vm_compute. discriminate.
  - intros l Hl. assert (Hl' : l ∈ [10; 11]) by exact Hl. rewrite !elem_of_cons, elem_of_nil in Hl'.
    destruct Hl' as [->|[->|[]]]; vm_compute; repeat constructor.
  - reflexivity.
Defined.
