(* ===== verification/ServerLoop.v ===== *)
(** * ServerLoop: the acceptor, the server and the descriptors of the process

    [Acceptor::handleRead] with [TcpServer::newConnection] as its callback, over the process's descriptors.
    A connection's [Socket] closes its descriptor when the last [TcpConnectionPtr] to the connection goes: the
    server's are the entry of its map and the functors bound to the connection. *)
From S2P Require Import Prelude Sockets Channel EPollPoller EventLoop Registration Acceptor EventLoopThread TcpServer ServerShutdown.

(** ** Data *)

(** The server's world, and the connections that have been deleted. *)
Record Service : Type := mkService {
  world_ : World;
  gone_ : gset TcpConnectionPtr
}.

(** Some [TcpConnectionPtr] of the server's to [c] is left. *)
Definition held (c : TcpConnectionPtr) (w : World) : bool :=
  match server w with
  | Some s => bool_decide (c ∈ (map_to_list (connections_ s)).*2)
  | None => false
  end || bool_decide (c ∈ conn_of <$> mjoin (map_to_list (pendingFunctors w)).*2).

(** The descriptors [fds] of the connections from the [i]-th on, less those of the deleted ones. *)
Fixpoint live_from (i : nat) (gone : gset TcpConnectionPtr) (fds : list Z) : list Z :=
  match fds with
  | [] => []
  | fd :: fds => if decide (i ∈ gone) then live_from (S i) gone fds else fd :: live_from (S i) gone fds
  end.

Section server_loop.
Context `{Epoll} `{Descriptors} {F : Type}.

Definition Process : Type := AcceptorWorld F Service.

Definition world (p : Process) : World := world_ (client_ p).
Definition gone (p : Process) : gset TcpConnectionPtr := gone_ (client_ p).
Definition set_world (w : World) (p : Process) : Process := set_client (mkService w (gone p)) p.
Definition set_gone (g : gset TcpConnectionPtr) (p : Process) : Process := set_client (mkService (world p) g) p.

(** The descriptors of the connections that exist. *)
Definition live (p : Process) : list Z := live_from 0 (gone p) (conn_fd <$> heap (world p)).

Definition on_server {A} (m : prog World A) : prog Process A := λ p,
  match m (world p) with Ok (a, w) => Ok (a, set_world w p) | Fault f => Fault f end.

Context (loop_ ch : Z) (logged : Z → Z) (getLocalAddr : Z → InetAddress).

(** What the constructor of the server binds to the acceptor. *)
Definition newConnectionCallback (connfd : Z) (peerAddr : InetAddress) : prog Process () :=
  on_server (newConnection loop_ getLocalAddr connfd peerAddr).

(** [start] of a server with [n] threads in the base loop's thread; [ret] is what [listen] returns. *)
Definition start_up (n : Z) (startLoop : nat → Z) (ret : Z) : prog Process () :=
  on_server (boot loop_ n startLoop) ;;
  listen loop_ ch ret.

(** [~TcpConnection] ([state_] is kDisconnected), [~Channel] (it is in no loop), [~Socket]. *)
Definition delete_connection (c : TcpConnectionPtr) : prog Process () :=
  x ← on_server (conn c);
  assert! (bool_decide (conn_phase x = Closed ∨ conn_phase x = Destroyed)) ;;
  assert! (bool_decide (conn_phase x = Connecting ∨ conn_phase x = Destroyed)) ;;
  on_kernel (Socket_dtor (conn_fd x)) ;;
  modify (λ p, set_gone ({[c]} ∪ gone p) p).

(** Whoever else had a [TcpConnectionPtr] to [c] has let go of it. *)
Definition release (c : TcpConnectionPtr) : prog Process () :=
  p ← get;
  when_ (bool_decide (is_Some (heap (world p) !! c)) && negb (held c (world p)) && bool_decide (c ∉ gone p))
    (delete_connection c).

(** [~TcpServer]: its body, the threads of its pool, and then [~Acceptor] with its channel and its socket. *)
Definition stop (items : list TcpConnectionPtr) (meanwhile : list event) : prog Process () :=
  on_server (modify (set_thread loop_)) ;;
  on_server (TcpServer_dtor loop_ getLocalAddr items meanwhile) ;;
  Acceptor_dtor loop_ ch ;;
  c ← on_loop (on_poller (channel_at ch));
  lift (Channel_dtor c) ;;
  on_kernel (Socket_dtor listener).

(** The descriptors of the channels loop [l]'s poller can hold: those of its connections that are not destroyed,
    and in the base loop that of the acceptor (under the key -1). *)
Definition connections_at (l : Z) (p : Process) : gmap Z Z :=
  kmap Z.of_nat (omap (λ x, if decide (conn_loop x = l ∧ conn_phase x ≠ Destroyed) then Some (conn_fd x) else None)
    (map_seq 0 (heap (world p)) : gmap nat TcpConnection)).
Definition channels_at (l : Z) (p : Process) : gmap Z Z :=
  if l =? loop_ then <[-1 := listener]> (connections_at l p) else connections_at l p.

(** What can happen next. *)
Inductive happening : Type :=
| Dial (peer : arrival)                (** a peer connects, or a failure waits to be reported *)
| Readable                             (** the listening socket is reported readable *)
| Forced (c : TcpConnectionPtr)        (** somebody forces an established connection to close *)
| Ended (c : TcpConnectionPtr)         (** an established connection ends *)
| Turn (l : Z)                         (** a loop calls its next functor *)
| Released (c : TcpConnectionPtr).     (** the application has no pointer to a connection any more *)

Definition happen (h : happening) : prog Process () :=
  match h with
  | Dial peer => on_kernel (modify (connects peer))
  | Readable =>
      on_server (modify (set_thread loop_)) ;;
      handleRead loop_ logged (Some newConnectionCallback)
  | Forced c => on_server (handle loop_ getLocalAddr (ForceClose c))
  | Ended c => on_server (handle loop_ getLocalAddr (Close c))
  | Turn l => on_server (handle loop_ getLocalAddr (Run l))
  | Released c => release c
  end.

Definition happen_all (hs : list happening) : prog Process () := for_each happen hs.

Definition dialled (hs : list happening) : list arrival :=
  omap (λ h, match h with Dial peer => Some peer | _ => None end) hs.
End server_loop.
Arguments Process {_ _} F.

(** ** Live descriptors *)

Lemma live_from_app i g l k : live_from i g (l ++ k) = live_from i g l ++ live_from (i + length l) g k.
Proof.
  induction l as [|fd l IH] in i |- *; cbn [live_from app length]; [by rewrite Nat.add_0_r|].
  rewrite IH, Nat.add_succ_r. by case_decide.
Qed.

Lemma live_from_outside i c g l : (c < i ∨ i + length l ≤ c)%nat → live_from i ({[c]} ∪ g) l = live_from i g l.
Proof.
  induction l as [|fd l IH] in i |- *; cbn [live_from length]; intros Hc; [done|]. rewrite IH by lia.
  assert (Hi : i ∈ {[c]} ∪ g ↔ i ∈ g) by (rewrite elem_of_union, elem_of_singleton; split; [intros [->|?]; [lia|done]|by right]).
  by rewrite (decide_ext _ _ _ _ Hi).
Qed.

(** A connection is deleted: its descriptor is no longer one of them. *)
Lemma live_from_remove c g fds fd :
  fds !! c = Some fd → c ∉ g → live_from 0 g fds ≡ₚ fd :: live_from 0 ({[c]} ∪ g) fds.
Proof.
  intros Hfd Hc. pose proof (lookup_lt_Some _ _ _ Hfd). rewrite <- (take_drop_middle _ _ _ Hfd), !live_from_app.
  rewrite length_take, Nat.min_l by lia. cbn [live_from]. rewrite decide_False, decide_True by set_solver.
  rewrite !live_from_outside by (rewrite ?length_take; lia). by rewrite Permutation_middle.
Qed.

Lemma elem_of_live_from fd i g fds :
  fd ∈ live_from i g fds ↔ ∃ j, fds !! j = Some fd ∧ (i + j)%nat ∉ g.
Proof.
  induction fds as [|fd' fds IH] in i |- *; cbn [live_from].
  { split; [by intros ?%elem_of_nil|by intros (? & ? & _)]. }
  assert (Hrec : fd ∈ live_from (S i) g fds ↔ ∃ j, fds !! j = Some fd ∧ (i + S j)%nat ∉ g).
  { rewrite IH. by setoid_rewrite Nat.add_succ_r. }
  case_decide as Hi; rewrite ?elem_of_cons, Hrec; split.
  - intros (j & ? & ?). by exists (S j).
  - intros ([|j] & Hj & Hn); [by rewrite Nat.add_0_r in Hn|by exists j].
  - intros [->|(j & ? & ?)]; [exists 0%nat; by rewrite Nat.add_0_r|by exists (S j)].
  - intros ([|j] & Hj & Hn); [injection Hj as ->; by left|right; by exists j].
Qed.

(** The descriptors that are left tell the connections apart. *)
Lemma live_from_inj i g fds a b fd :
  NoDup (live_from i g fds) → fds !! a = Some fd → fds !! b = Some fd → (i + a)%nat ∉ g → (i + b)%nat ∉ g → a = b.
Proof.
  revert i a b. induction fds as [|fd' fds IH]; intros i a b Hnd Ha Hb Hga Hgb; [done|]. cbn [live_from] in Hnd.
  assert (Hrest : NoDup (live_from (S i) g fds)) by (case_decide; [done|by apply list.NoDup_cons in Hnd as [_ ?]]).
  assert (Hhead : ∀ j, fd' = fd → (i + 0)%nat ∉ g → fds !! j = Some fd → (i + S j)%nat ∉ g → False).
  { intros j -> Hi Hj Hgj. rewrite Nat.add_0_r in Hi. rewrite decide_False in Hnd by done.
    apply list.NoDup_cons in Hnd as [Hn _]. apply Hn, elem_of_live_from. exists j. by rewrite Nat.add_succ_r in Hgj. }
  destruct a as [|a], b as [|b]; cbn in Ha, Hb; [done|..].
  - injection Ha as ->. by destruct (Hhead b).
  - injection Hb as ->. by destruct (Hhead a).
  - f_equal. apply (IH (S i)); [done..| |]; by rewrite Nat.add_succ_r in *.
Qed.

(** ** Who owns the descriptors *)

Section ownership.
Context `{Descriptors}.

(** Of [total] descriptors beyond those in [base], the reserve [idle] takes one when it is open, and each of
    the connections' descriptors [fds] one. *)
Record owns (base : Z → Prop) (total idle : Z) (fds : list Z) (k : kernel) : Prop := {
  owns_open x : is_open k x ↔ base x ∨ (x = idle ∧ idle ≠ -1) ∨ x ∈ fds;
  owns_reserve : idle ≠ -1 → ¬ base idle ∧ idle ∉ fds;
  owns_fresh x : x ∈ fds → ¬ base x;
  owns_nodup : NoDup fds;
  owns_free : free k + reserve idle + zlen fds = total
}.

Lemma owns_permutation base total idle fds fds' k :
  fds ≡ₚ fds' → owns base total idle fds k → owns base total idle fds' k.
Proof.
  intros E [O1 O2 O3 O4 O5]. constructor.
  - intros x. by rewrite <- E.
  - rewrite <- E. done.
  - intros x. rewrite <- E. apply O3.
  - by rewrite <- E.
  - unfold zlen in *. by rewrite <- E.
Qed.

Lemma owns_reserve_ok base total idle fds k : owns base total idle fds k → reserve_ok k idle.
Proof.
  intros Ho. destruct (decide (idle = -1)) as [|Hne]; [by right|left]. apply (owns_open _ _ _ _ _ Ho). auto.
Qed.

(** A peer connects. *)
Lemma owns_connects base total idle fds p k : owns base total idle fds k → owns base total idle fds (connects p k).
Proof.
  intros [O1 O2 O3 O4 O5]. destruct (connects_queued p k) as (F1 & B1 & Q1). constructor; try done.
  - intros x. by rewrite Q1.
  - by rewrite F1.
Qed.

Lemma owns_same base total idle fds k k' :
  owns base total idle fds k → free k' = free k → (∀ x, is_open k' x ↔ is_open k x) → owns base total idle fds k'.
Proof. intros [O1 O2 O3 O4 O5] F1 Q1. constructor; try done; [|by rewrite F1]. intros x. by rewrite Q1. Qed.

(** A connection's descriptor is new. *)
Lemma owns_accept base total idle fds k fd k' :
  owns base total idle fds k → ¬ is_open k fd → free k' = free k - 1 →
  (∀ x, is_open k' x ↔ is_open k x ∨ x = fd) → owns base total idle (fds ++ [fd]) k'.
Proof.
  intros [O1 O2 O3 O4 O5] Hno F1 Q1. rewrite O1 in Hno. constructor.
  - intros x. rewrite Q1, O1, elem_of_app, list_elem_of_singleton. tauto.
  - intros Hne. destruct (O2 Hne). split; [done|]. rewrite elem_of_app, list_elem_of_singleton. intros [?| ->]; tauto.
  - intros x [Hx|Hx]%elem_of_app; [by apply O3|]. apply list_elem_of_singleton in Hx as ->. tauto.
  - apply list.NoDup_app. split_and!; [done| |apply NoDup_singleton]. intros x Hx ->%list_elem_of_singleton. tauto.
  - rewrite F1, zlen_app. change (zlen [fd]) with 1. lia.
Qed.

(** A connection's descriptor is closed. *)
Lemma owns_close base total idle fds k fd :
  owns base total idle (fd :: fds) k → owns base total idle fds (close_fd fd k).
Proof.
  intros [O1 O2 O3 O4 O5]. apply list.NoDup_cons in O4 as [Hnin Hnd].
  destruct (close_fd_open k fd) as (F1 & B1 & Q1); [apply O1; right; right; by left|].
  assert (Hnb : ¬ base fd) by (apply O3; by left).
  assert (Hidle : idle ≠ -1 → idle ≠ fd). { intros Hne ->. destruct (O2 Hne) as [_ Hn]. apply Hn. by left. }
  constructor.
  - intros x. rewrite Q1, O1, elem_of_cons. split; [tauto|].
    intros [?|[[-> ?]|?]]; (split; [tauto|]); [by intros ->|auto|by intros ->].
  - intros Hne. destruct (O2 Hne) as [? Hn]. split; [done|]. intros ?. apply Hn. by right.
  - intros x Hx. apply O3. by right.
  - done.
  - rewrite F1. rewrite zlen_cons in O5. lia.
Qed.

(** The reserve is renewed. *)
Lemma owns_renewed base total idle fds k k' idle' :
  owns base total idle fds k → renewed k idle k' idle' → owns base total idle' fds k'.
Proof.
  intros Ho Hr. pose proof Ho as [O1 O2 O3 O4 O5]. pose proof Hr as [R1 R2 R3 _ _].
  assert (Hold : ∀ x, is_open k x ∧ x ≠ idle ↔ base x ∨ x ∈ fds).
  { intros x. rewrite O1. destruct (decide (idle = -1)) as [->|Hne].
    - split; [tauto|]. intros Hx. split; [tauto|]. intros ->.
      apply (not_open_negative k), O1. tauto.
    - destruct (O2 Hne). split; [tauto|]. intros Hx. split; [tauto|]. intros ->. tauto. }
  constructor; try done.
  - intros x. rewrite R1, Hold. tauto.
  - intros Hne. destruct (R2 Hne) as [_ Hn]. rewrite Hold in Hn. tauto.
  - lia.
Qed.

(** The reserve and one of the other descriptors are closed. *)
Lemma owns_stop base total idle fds k fd :
  owns base total idle fds k → base fd →
  owns (λ x, base x ∧ x ≠ fd) (total + 1) (-1) fds (close_fd fd (close_fd idle k)).
Proof.
  intros Ho Hb. pose proof Ho as [O1 O2 O3 O4 O5].
  destruct (reserve_closed k idle) as (F1 & _ & Q1); [by eapply owns_reserve_ok|].
  assert (Hne : fd ≠ idle).
  { intros ->. destruct (decide (idle = -1)) as [->|Hne]; [|by destruct (O2 Hne)].
    apply (not_open_negative k), O1. by left. }
  destruct (close_fd_open (close_fd idle k) fd) as (F2 & _ & Q2).
  { apply Q1. split; [apply O1; by left|done]. }
  assert (Hnf : fd ∉ fds) by (intros Hin; by apply (O3 fd)).
  assert (Hni : ∀ x, base x ∨ x ∈ fds → x ≠ idle).
  { intros x Hx ->. destruct (decide (idle = -1)) as [->|Hn]; [|destruct (O2 Hn); tauto].
    apply (not_open_negative k), O1. tauto. }
  constructor; try done.
  - intros x. rewrite Q2, Q1, O1. specialize (Hni x). split.
    + tauto.
    + intros [[? ?]|[[? ?]|Hx]]; [tauto|done|]. split; [tauto|]. by intros ->.
  - intros x Hx [? _]. by apply (O3 x).
  - change (reserve (-1)) with 0. lia.
Qed.
End ownership.

(** ** What a step of the server leaves of the connections *)

(** A connection's phases come in this order. *)
Definition rank (p : phase) : nat :=
  match p with Connecting => 0 | Connected => 1 | Disconnecting => 2 | Closed => 3 | Destroyed => 4 end.

(** Each connection is still there, with its descriptor and peer, and has not gone back. *)
Definition later (w w' : World) : Prop :=
  ∀ i x, heap w !! i = Some x → ∃ x', heap w' !! i = Some x' ∧ conn_fd x' = conn_fd x ∧ peerAddr_ x' = peerAddr_ x ∧
    (rank (conn_phase x) ≤ rank (conn_phase x'))%nat.

#[export] Instance later_preorder : PreOrder later.
Proof.
  split; [by intros w i x Hx; exists x|]. intros w1 w2 w3 H12 H23 i x Hx.
  destruct (H12 i x Hx) as (y & Hy & ? & ? & ?). destruct (H23 i y Hy) as (z & Hz & ? & ? & ?).
  exists z. split_and!; [done|congruence|congruence|by etrans].
Qed.

Lemma later_heap w w' : heap w' = heap w → later w w'.
Proof. intros E i x Hx. exists x. by rewrite E. Qed.

Lemma later_phase w c x p :
  heap w !! c = Some x → (rank (conn_phase x) ≤ rank p)%nat → later w (set_heap (alter (set_phase p) c (heap w)) w).
Proof.
  intros Hx Hp i y Hy. cbn. destruct (decide (i = c)) as [->|Hne].
  - assert (y = x) as -> by congruence. rewrite list_lookup_alter_eq, Hx. by exists (set_phase p x).
  - rewrite list_lookup_alter_ne by done. by exists y.
Qed.

Lemma later_app w x : later w (set_heap (heap w ++ [x]) w).
Proof. intros i y Hy. exists y. split; [by apply lookup_app_l_Some|done]. Qed.

Lemma later_peers w w' : later w w' → length (heap w') = length (heap w) → peers w' = peers w.
Proof.
  intros Hl Hlen. unfold peers. apply list_eq_same_length with (length (heap w)); [by rewrite length_fmap|by rewrite length_fmap, Hlen|].
  intros i a b _ Ha Hb. apply list_lookup_fmap_Some in Ha as (x' & -> & Hx'), Hb as (x & -> & Hx).
  destruct (Hl i x Hx) as (y & Hy & E1 & E2 & _). assert (y = x') as -> by congruence. by rewrite E1, E2.
Qed.

Section later.
Context (loop_ : Z) (getLocalAddr : Z → InetAddress).

(** [m], if it returns, leaves a later state. *)
#[local] Abbreviation any := (λ _ : fault, True).
#[local] Abbreviation moves m := (∀ w, wpf any m (λ _ w', later w w') w).

Lemma any_conn c (Q : TcpConnection → World → Prop) w :
  (∀ x, heap w !! c = Some x → Q x w) → wpf any (conn c) Q w.
Proof. unfold wpf, conn. destruct (heap w !! c); auto. Qed.
Lemma any_assert b (Q : () → World → Prop) w : (b = true → Q tt w) → wpf any (cassert b) Q w.
Proof. destruct b; cbn; auto. Qed.
Lemma any_this (Q : TcpServer → World → Prop) w : (∀ s, Q s w) → wpf any this Q w.
Proof. unfold wpf, this. destruct (server w); auto. Qed.
Lemma any_update_this f (Q : () → World → Prop) w : (∀ s, Q tt (set_server s w)) → wpf any (update_this f) Q w.
Proof. intros HQ. unfold update_this. wp_go. apply any_this. intros s. by wp_go. Qed.
Lemma any_lift {A} (o : outcome A) (Q : A → World → Prop) w : (∀ a, Q a w) → wpf any (lift o) Q w.
Proof. destruct o; cbn; auto. Qed.
Lemma any_on_pool {A} (m : prog EventLoopThread.Pool.EventLoopThreadPool A) (Q : A → World → Prop) w :
  (∀ a s, Q a (set_server s w)) → wpf any (on_pool m) Q w.
Proof.
  intros HQ. unfold on_pool. wp_go. apply any_this. intros s. wp_go. apply any_lift. intros r. wp_go.
  apply any_update_this. intros s'. wp_go. apply HQ.
Qed.
Lemma any_thread l (Q : () → World → Prop) w : Q tt w → wpf any (assertInLoopThread l) Q w.
Proof. intros HQ. unfold assertInLoopThread, isInLoopThread. wp_go. by apply any_assert. Qed.

Lemma run_task_moves t : moves (run_task loop_ t).
Proof.
  intros w. destruct t as [c|c|c]; cbn [run_task];
    [unfold connectEstablished|unfold removeConnectionInLoop|unfold connectDestroyed]; wp_go.
  2:{ apply any_thread. wp_go. apply any_this. intros s. wp_go. apply any_conn. intros x _. wp_go.
      apply any_update_this. intros s'. wp_go. apply any_assert. intros _. unfold queueInLoop. wp_go. by apply later_heap. }
  all: apply any_conn; intros x Hx; wp_go; apply any_thread; wp_go; apply any_assert; intros Hp%bool_decide_eq_true.
  all: unfold update_conn; wp_go; eapply later_phase; [done|]; cbn; first [rewrite Hp; cbn; lia|destruct Hp as [->| ->]; cbn; lia].
Qed.

Lemma runInLoop_moves l t : moves (runInLoop loop_ l t).
Proof.
  intros w. unfold runInLoop, isInLoopThread. wp_go. destruct (_ =? l); [apply run_task_moves|].
  unfold queueInLoop. wp_go. by apply later_heap.
Qed.

Lemma newConnection_moves fd addr : moves (newConnection loop_ getLocalAddr fd addr).
Proof.
  intros w. unfold newConnection, isInLoopThread. wp_go. apply any_thread. wp_go. apply any_on_pool. intros l s. wp_go.
  apply any_this. intros s'. wp_go. apply any_update_this. intros s1. wp_go. apply any_update_this. intros s2. wp_go.
  eapply wp_mono; [apply runInLoop_moves|]. cbv beta. intros _ w' Hw'. etrans; [|exact Hw']. apply (later_app w).
Qed.

Lemma handle_moves e : moves (handle loop_ getLocalAddr e).
Proof.
  intros w. destruct e as [fd addr|c|c|l]; unfold handle; wp_go.
  - eapply wp_mono; [apply newConnection_moves|]. cbv beta. intros _ w' Hw'. etrans; [|exact Hw']. by apply later_heap.
  - destruct (heap w !! c) as [x|] eqn:Hx; wp_go; [|done]. destruct (is_up (conn_phase x)) eqn:Hp; [|done].
    unfold update_conn. wp_go. eapply later_phase; [done|by destruct (conn_phase x); cbn; try lia].
  - destruct (heap w !! c) as [x|] eqn:Hx; wp_go; [|done]. destruct (is_up (conn_phase x)) eqn:Hp; [|done].
    unfold handleClose, removeConnection, update_conn. wp_go. apply any_this. intros _. wp_go.
    eapply wp_mono; [apply runInLoop_moves|]. cbv beta. intros _ w' Hw'. etrans; [|exact Hw'].
    eapply (later_phase (set_thread (conn_loop x) w)); [done|by destruct (conn_phase x); cbn; try lia].
  - destruct (queue l w) as [|t q]; wp_go; [done|].
    eapply wp_mono; [apply run_task_moves|]. cbv beta. intros _ w' Hw'. etrans; [|exact Hw']. by apply later_heap.
Qed.

Lemma handle_all_moves es : moves (handle_all loop_ getLocalAddr es).
Proof.
  unfold handle_all. induction es as [|e es IH]; intros w; cbn [for_each]; wp_go; [done|].
  eapply wp_mono; [apply handle_moves|]. cbv beta. intros _ w1 Hw1. eapply wp_mono; [apply IH|]. cbv beta.
  intros _ w2 Hw2. by etrans.
Qed.

Lemma drop_moves ls : moves (for_each (λ l, modify (set_queue l [])) ls).
Proof.
  induction ls as [|l ls IH]; intros w; cbn [for_each]; wp_go; [done|]. eapply wp_mono; [apply IH|]. cbv beta.
  intros _ w2 Hw2. etrans; [|exact Hw2]. by apply later_heap.
Qed.

Lemma dtor_moves items es : moves (TcpServer_dtor loop_ getLocalAddr items es).
Proof.
  intros w. unfold TcpServer_dtor. wp_go. apply any_thread. wp_go.
  eapply wp_mono; [apply (wp_for_each _ (λ _ w', later w w')); [done|]|].
  - intros c l w1 Hw1. wp_go. apply any_conn. intros x _. wp_go.
    eapply wp_mono; [apply runInLoop_moves|]. cbv beta. intros _ w2 Hw2. by etrans.
  - cbv beta. intros _ w1 Hw1. wp_go. apply any_this. intros s. wp_go.
    eapply wp_mono; [apply handle_all_moves|]. cbv beta. intros _ w2 Hw2. wp_go.
    eapply wp_mono; [apply drop_moves|]. cbv beta. intros _ w3 Hw3.
    etrans; [exact Hw1|]. etrans; [|etrans; [exact Hw2|etrans; [|exact Hw3]]]; by apply later_heap.
Qed.
End later.

(** ** The invariant *)

Lemma held_false c w : held c w = false →
  (∀ s k, server w = Some s → connections_ s !! k ≠ Some c) ∧ ∀ l, about c (queue l w) = [].
Proof.
  unfold held. intros [Hm Hq]%orb_false_iff. split.
  - intros s k Hs Hk. rewrite Hs in Hm. apply bool_decide_eq_false in Hm. apply Hm, list_elem_of_fmap.
    exists (k, c). split; [done|]. by apply elem_of_map_to_list.
  - intros l. apply bool_decide_eq_false in Hq. unfold queue. destruct (pendingFunctors w !! l) as [q|] eqn:Hl; [|done]. cbn.
    apply elem_of_nil_inv. intros t [<- Ht]%list_elem_of_filter. apply Hq, list_elem_of_fmap. exists t. split; [done|].
    apply list_elem_of_join. exists q. split; [done|]. apply list_elem_of_fmap. exists (l, q). split; [done|]. by apply elem_of_map_to_list.
Qed.

(** A connection of the server's bookkeeping that no pointer of the server's leads to is destroyed. *)
Lemma inv_released loop_ n startLoop ipPort nameArg s w c x :
  inv loop_ n startLoop ipPort nameArg None s w → heap w !! c = Some x → held c w = false → conn_phase x = Destroyed.
Proof.
  intros Hw Hx [Hm Hq]%held_false.
  assert (Hreg : registered s c x = false) by (apply bool_decide_eq_false, Hm, (inv_server _ _ _ _ _ _ _ _ Hw)).
  pose proof (inv_open _ _ _ _ _ _ _ _ Hw c x Hx) as Hopen.
  pose proof (inv_queue _ _ _ _ _ _ _ _ Hw c (conn_loop x)) as He. rewrite Hx, Hq in He. unfold expected in He. rewrite Hreg in *.
  destruct (conn_phase x); [|..|done]; try (specialize (Hopen ltac:(auto)); done). by rewrite decide_True in He.
Qed.

(** No pointer of the server's leads to a destroyed one. *)
Lemma inv_unheld loop_ n startLoop ipPort nameArg s w c x :
  inv loop_ n startLoop ipPort nameArg None s w → heap w !! c = Some x → conn_phase x = Destroyed → held c w = false.
Proof.
  intros Hw Hx Hp. apply not_true_is_false. unfold held. rewrite (inv_server _ _ _ _ _ _ _ _ Hw).
  rewrite orb_true_iff, !bool_decide_eq_true, !list_elem_of_fmap. intros [([k j] & -> & Hk)|(t & -> & Ht)].
  - apply elem_of_map_to_list in Hk. destruct (inv_map _ _ _ _ _ _ _ _ Hw _ _ Hk) as (y & Hy & <-). cbn in Hx.
    pose proof (inv_end _ _ _ _ _ _ _ _ Hw j x Hx Hp) as Hr%bool_decide_eq_false. assert (y = x) as -> by congruence. done.
  - apply list_elem_of_join in Ht as (q & Ht & Hq). apply list_elem_of_fmap in Hq as ([l q'] & -> & Hl%elem_of_map_to_list).
    pose proof (inv_queue _ _ _ _ _ _ _ _ Hw (conn_of t) l) as He. rewrite Hx in He. unfold expected, queue in He.
    rewrite Hp, Hl in He. change (about (conn_of t) q' = []) in He. assert (Hin : t ∈ about (conn_of t) q') by by apply list_elem_of_filter.
    rewrite He in Hin. by apply elem_of_nil in Hin.
Qed.

(** Nor is one left of a server that is gone. *)
Lemma dying_released loop_ loops h w c x :
  dying loop_ loops h w → heap w !! c = Some x → held c w = false → conn_phase x = Destroyed.
Proof.
  intros (_ & _ & _ & Hd) Hx [_ Hq]%held_false. destruct (Hd c x Hx) as (Hne & _ & Hl).
  specialize (Hl (conn_loop x)). rewrite Hq, decide_True in Hl by done. unfold last_tasks in Hl. by destruct (conn_phase x).
Qed.

Section invariant.
Context `{Epoll} `{Descriptors} {F : Type}.
Context (loop_ ch : Z) (logged : Z → Z) (getLocalAddr : Z → InetAddress).
Implicit Types (p : Process F) (w : World) (base : Z → Prop).

Lemma on_server_spec {E A} (m : prog World A) (R : A → Process F → Prop) p :
  wpf E m (λ a w, R a (set_world w p)) (world p) → wpf E (on_server m) R p.
Proof. unfold wpf, on_server. by destruct (m (world p)) as [[]|]. Qed.

(** The server satisfies [I]; its connections and the reserve [idle] own what is open beyond [base]; deleted
    connections are destroyed ones; as long as the socket listens, the connections taken and those waiting are, in
    order, among [arrivals]. *)
Record good (I : World → Prop) base (total idle : Z) (arrivals : list arrival) p : Prop := {
  good_world : I (world p);
  good_owns : owns base total idle (live p) (kernel_ p);
  good_gone i : i ∈ gone p → ∃ x, heap (world p) !! i = Some x ∧ conn_phase x = Destroyed;
  good_order : base listener → (Peer <$> (peers (world p)).*2) ++ backlog (kernel_ p) `sublist_of` arrivals
}.

(** The acceptor and its loop stay as they are. *)
Definition aside p p' : Prop := acceptor_ p' = acceptor_ p ∧ Acceptor.loop_ p' = Acceptor.loop_ p.

Lemma gone_later p w i : later (world p) w →
  (∃ x, heap (world p) !! i = Some x ∧ conn_phase x = Destroyed) → ∃ x, heap w !! i = Some x ∧ conn_phase x = Destroyed.
Proof. intros Hl (x & Hx & Hp). destruct (Hl i x Hx) as (x' & Hx' & _ & _ & Hd). exists x'. split; [done|].
  rewrite Hp in Hd. destruct (conn_phase x'); cbn in Hd; lia || done.
Qed.

Lemma live_peers p : live p = live_from 0 (gone p) (peers (world p)).*1.
Proof. unfold live, peers. by rewrite <- list_fmap_compose. Qed.

(** A step of the server that makes no connection. *)
Lemma server_step I I' base total idle arrivals (m : prog World ()) p :
  good I base total idle arrivals p →
  wp m (λ _ w', I' w' ∧ length (heap w') = length (heap (world p))) (world p) →
  wpf (λ _, True) m (λ _ w', later (world p) w') (world p) →
  wp (on_server m) (λ _ p', good I' base total idle arrivals p' ∧ aside p p') p.
Proof.
  intros [G1 G2 G3 G4] Hm Hl. apply on_server_spec. eapply wp_mono; [by apply wp_both|]. cbv beta.
  intros _ w' [[HI Hlen] Hw']. split; [|done]. assert (Hpeers : peers w' = peers (world p)) by by apply later_peers.
  constructor; [done| | |].
  - by rewrite live_peers in *; cbn; rewrite Hpeers.
  - intros i Hi. by apply (gone_later p), G3.
  - cbn. by rewrite Hpeers.
Qed.

Lemma dial_step I base total idle arrivals peer p :
  good I base total idle arrivals p →
  wp (on_kernel (modify (connects peer))) (λ _ p', good I base total idle (arrivals ++ [peer]) p' ∧ aside p p') p.
Proof.
  intros [G1 G2 G3 G4]. apply on_kernel_spec. wp_go. split; [|done]. constructor; try done.
  - by apply owns_connects.
  - intros Hb. cbn. destruct (connects_queued peer (kernel_ p)) as (_ & -> & _). rewrite app_assoc. by apply sublist_app; [apply G4|].
Qed.

(** A connection is deleted only when it is destroyed, and its descriptor goes with it. *)
Lemma release_step I base total idle arrivals c p :
  (∀ w i x, I w → heap w !! i = Some x → held i w = false → conn_phase x = Destroyed) → base 0 →
  good I base total idle arrivals p →
  wp (release c) (λ _ p', good I base total idle arrivals p' ∧ aside p p') p.
Proof.
  intros HI Hzero Hp. unfold release. wp_go. destruct (_ && _) eqn:Hc; [|done].
  rewrite !andb_true_iff, negb_true_iff, !bool_decide_eq_true in Hc. destruct Hc as [[[x Hx] Hh] Hg].
  pose proof Hp as [G1 G2 G3 G4]. assert (Hd : conn_phase x = Destroyed) by by eapply HI.
  assert (Hlive : live p ≡ₚ conn_fd x :: live_from 0 ({[c]} ∪ gone p) (conn_fd <$> heap (world p))).
  { apply live_from_remove; [|done]. by rewrite list_lookup_fmap, Hx. }
  pose proof (owns_permutation _ _ _ _ _ _ Hlive G2) as Ho.
  assert (Hopen : is_open (kernel_ p) (conn_fd x)) by (apply (owns_open _ _ _ _ _ Ho); right; right; by left).
  assert (Hpos : 0 < conn_fd x).
  { pose proof (is_open_nonneg _ _ Hopen). destruct (decide (conn_fd x = 0)) as [E|]; [|lia].
    exfalso. eapply (owns_fresh _ _ _ _ _ Ho (conn_fd x)); [by left|by rewrite E]. }
  unfold delete_connection. wp_go. apply on_server_spec. eapply server_conn_spec; [exact Hx|]. wp_go.
  apply wp_assert; [apply bool_decide_eq_true; by right|]. wp_go. apply wp_assert; [apply bool_decide_eq_true; by right|].
  wp_go. apply on_kernel_spec. unfold Socket_dtor, sockets_close. wp_go. rewrite (proj2 (Z.ltb_lt _ _) Hpos).
  split; [|done]. constructor; [done|by apply owns_close| |].
  - intros i Hi. assert (Hi' : i ∈ {[c]} ∪ gone p) by exact Hi.
    apply elem_of_union in Hi' as [->%elem_of_singleton|Hi']; [by exists x|by apply G3].
  - intros Hb. destruct (close_fd_open _ _ Hopen) as (_ & Hq & _). cbn. rewrite Hq; [by apply G4|].
    intros E. apply (owns_fresh _ _ _ _ _ Ho (conn_fd x)); [by left|by rewrite E].
Qed.

Lemma release_length c p :
  wpf (λ _, True) (release c) (λ (_ : ()) (p' : Process F), length (heap (world p')) = length (heap (world p))) p.
Proof.
  unfold release. wp_go. destruct (_ && _); [|done]. unfold delete_connection. wp_go.
  apply on_server_spec. apply any_conn. intros x _. wp_go. do 2 (unfold cassert; destruct (bool_decide _); [|done]; wp_go).
  apply on_kernel_spec. unfold Socket_dtor, sockets_close. wp_go. by destruct (0 <? _).
Qed.

(** *** The running server *)

Section running.
Context (n : Z) (startLoop : nat → Z) (ipPort nameArg : list byte) (base : Z → Prop) (total idle0 : Z) (l : EventLoop F).
Hypothesis Hn : 0 ≤ n < 2 ^ 31.
Hypothesis Hip : zlen ipPort ≤ 35.
Hypothesis Hzero : base 0.
Hypothesis Hlistener : base listener.
Hypothesis Hthread : threadId_ l = loop_.

Definition booked w : Prop := ∃ s, inv loop_ n startLoop ipPort nameArg None s w.

Record running (arrivals : list arrival) p : Prop := {
  running_good : good booked base total (idleFd_ (acceptor_ p)) arrivals p;
  running_loop : Acceptor.loop_ p = l;
  running_kept : idle0 ≠ -1 → idleFd_ (acceptor_ p) ≠ -1
}.

Definition short p (k : nat) : Prop := 1 + Z.of_nat (length (heap (world p)) + k) < 2 ^ 63.

Lemma running_aside arrivals arrivals' p p' :
  running arrivals p → good booked base total (idleFd_ (acceptor_ p)) arrivals' p' ∧ aside p p' → running arrivals' p'.
Proof. intros [_ Hl Hk] [Hg [Ha Hl']]. constructor; [by rewrite Ha|congruence|by rewrite Ha]. Qed.

(** The callback, with a new connection's descriptor. *)
Lemma taken_step arrivals p fd peer ps k' :
  running arrivals p → thread (world p) = loop_ → 2 + Z.of_nat (length (heap (world p))) < 2 ^ 63 →
  backlog (kernel_ p) = Peer peer :: ps → ¬ is_open (kernel_ p) fd → free k' = free (kernel_ p) - 1 → backlog k' = ps →
  (∀ x, is_open k' x ↔ is_open (kernel_ p) x ∨ x = fd) →
  wp (newConnectionCallback loop_ getLocalAddr fd peer)
    (λ _ p', running arrivals p' ∧ length (heap (world p')) = S (length (heap (world p)))) (set_kernel k' p).
Proof.
  intros [[(s & Hw) G2 G3 G4] Hl Hk] Ht Hb Hbk Hno Hf Hbk' Hopen. unfold newConnectionCallback. apply on_server_spec.
  eapply wp_mono.
  { apply wp_both; [by apply (newConnection_spec loop_ getLocalAddr n startLoop ipPort nameArg Hn Hip s)|apply newConnection_moves]. }
  cbv beta. change (world (set_kernel k' p)) with (world p). intros _ w' [(s' & Hw' & Hpeers) Hlater]. split.
  - constructor; [|done|done]. constructor; [by exists s'| | |].
    + rewrite live_peers in *. cbn. change (gone _) with (gone p). rewrite Hpeers, fmap_app, live_from_app. cbn [fmap list_fmap live_from].
      unfold peers. rewrite !length_fmap, Nat.add_0_l. rewrite decide_False.
      2:{ intros (x & Hx & _)%G3. apply lookup_lt_Some in Hx. lia. }
      by eapply owns_accept.
    + intros i Hi. apply (gone_later p); [done|]. by apply G3.
    + intros Hb'. cbn. rewrite Hpeers, !fmap_app, Hbk', <- app_assoc. cbn.
      specialize (G4 Hb'). rewrite Hbk in G4. exact G4.
  - assert (E : length (peers w') = S (length (peers (world p)))) by (rewrite Hpeers, length_app; cbn; lia).
    unfold peers in E. by rewrite !length_fmap in E.
Qed.

Lemma readable_step arrivals p :
  running arrivals p → short p 1 →
  wp (happen loop_ logged getLocalAddr Readable)
    (λ _ p', running arrivals p' ∧ (length (heap (world p')) ≤ S (length (heap (world p))))%nat) p.
Proof.
  intros Hp Hs. unfold happen, short in *. wp_go. apply on_server_spec. wp_go.
  set (p1 := set_world (set_thread loop_ (world p)) p).
  assert (Hp1 : running arrivals p1).
  { destruct Hp as [[(s & Hw) G2 G3 G4] Hl Hk]. constructor; [|done|done]. constructor; [|done|done|done].
    exists s. by apply inv_thread. }
  pose proof Hp1 as [G Hl Hk]. pose proof (good_owns _ _ _ _ _ _ G) as Ho.
  apply acceptor_handleRead_spec; [by rewrite Hl|by eapply owns_reserve_ok|apply (owns_open _ _ _ _ _ Ho); by left|..].
  { intros E. destruct (decide (idleFd_ (acceptor_ p1) = -1)) as [E1|Hne]; [|apply (owns_reserve _ _ _ _ _ Ho) in Hne as [Hne _]; by rewrite E in Hne].
    apply (not_open_negative (kernel_ p1)), (owns_open _ _ _ _ _ Ho). left. by rewrite <- E1, E. }
  - intros fd peer ps k' Hb _ Hno Hf Hb' Hopen. eapply wp_mono; [eapply taken_step; try done; cbn; lia|]. cbv beta.
    intros _ p' [? ->]. split; [done|]. cbn. lia.
  - assert (Hdrop : ∀ q q', q' = q ∨ q' = tail q → base listener →
      (Peer <$> (peers (world p1)).*2) ++ q `sublist_of` arrivals → (Peer <$> (peers (world p1)).*2) ++ q' `sublist_of` arrivals).
    { intros q q' [->| ->] Hb Hq; [done|]. etrans; [|exact Hq]. apply sublist_app; [done|]. destruct q; [done|by apply sublist_cons]. }
    intros k1 [F1 O1 B1]. pose proof G as [G1 _ G3 G4].
    assert (B1' : backlog k1 = backlog (kernel_ p1) ∨ backlog k1 = tail (backlog (kernel_ p1))).
    { destruct B1 as [->|[f ->]]; [by left|by right]. }
    assert (Ho1 : owns base total (idleFd_ (acceptor_ p1)) (live p1) k1) by by eapply owns_same.
    split; [split; [|cbn; lia]; constructor; [|done|done]; constructor; [done|done|done|]|].
    { intros Hb. specialize (G4 Hb). cbn. by eapply Hdrop. }
    intros k' idle' Hr. split; [|cbn; lia]. constructor; cbn; [|done|].
    + constructor; [done|by eapply owns_renewed|done|]. intros Hb. specialize (G4 Hb). cbn.
      assert (Hq : backlog k' = backlog k1 ∨ backlog k' = tail (backlog k1)).
      { rewrite (renewed_backlog _ _ _ _ Hr). destruct (_ =? 0); auto. }
      eapply Hdrop; [exact Hq|done|]. by eapply Hdrop.
    + intros Hne. apply (renewed_kept _ _ _ _ Hr), Hk, Hne.
Qed.

Lemma booked_step arrivals p e :
  running arrivals p → short p 1 → accepted [e] = [] →
  wp (on_server (handle loop_ getLocalAddr e))
    (λ _ p', running arrivals p' ∧ length (heap (world p')) = length (heap (world p))) p.
Proof.
  intros Hp Hs He. pose proof Hp as [G _ _]. pose proof G as [(s & Hw) _ _ _]. unfold short in Hs.
  assert (Hm : wp (handle loop_ getLocalAddr e) (λ _ w', booked w' ∧ length (heap w') = length (heap (world p))) (world p)).
  { eapply wp_mono; [apply (handle_spec loop_ getLocalAddr n startLoop ipPort nameArg Hn Hip s); [done|lia]|]. cbv beta.
    intros _ w' (s' & Hw' & Hpeers). split; [by exists s'|]. rewrite He, app_nil_r in Hpeers.
    apply (f_equal length) in Hpeers. unfold peers in Hpeers. by rewrite !length_fmap in Hpeers. }
  eapply wp_mono; [eapply (wp_both _ _ (λ (_ : ()) (p' : Process F), length (heap (world p')) = length (heap (world p)))); [eapply server_step; [exact G|exact Hm|apply handle_moves]|]|].
  - apply on_server_spec. eapply wp_mono; [by apply wp_weaken|]. cbv beta. by intros ? w' [_ Hlen].
  - cbv beta. intros _ p' [Hp' Hlen]. split; [by eapply running_aside|exact Hlen].
Qed.

Lemma happen_step arrivals p h :
  running arrivals p → short p 1 →
  wp (happen loop_ logged getLocalAddr h)
    (λ _ p', running (arrivals ++ dialled [h]) p' ∧ (length (heap (world p')) ≤ S (length (heap (world p))))%nat) p.
Proof.
  intros Hp Hs. pose proof Hp as [G _ _].
  assert (Hstay : ∀ e, accepted [e] = [] → wp (on_server (handle loop_ getLocalAddr e))
    (λ _ p', running (arrivals ++ []) p' ∧ (length (heap (world p')) ≤ S (length (heap (world p))))%nat) p).
  { intros e He. rewrite app_nil_r. eapply wp_mono; [by apply booked_step|]. cbv beta. intros _ p' [? ->]. split; [done|lia]. }
  destruct h as [peer| |c|c|li|c]; cbn [happen dialled omap list_omap]; try by apply Hstay.
  - eapply wp_mono; [eapply (wp_both _ _ (λ (_ : ()) (p' : Process F), length (heap (world p')) ≤ S (length (heap (world p))))%nat); [by eapply dial_step|]|].
    + apply on_kernel_spec. wp_go. apply Nat.le_succ_diag_r.
    + cbv beta. intros _ p' [Hp' Hlen]. split; [by eapply running_aside|exact Hlen].
  - rewrite app_nil_r. by apply readable_step.
  - rewrite app_nil_r. eapply wp_mono; [apply wp_both; [eapply release_step; [|done|exact G]|apply release_length]|].
    + intros w i x (s & Hw) Hx. by eapply inv_released.
    + cbv beta. intros _ p' [Hp' ->]. split; [by eapply running_aside|lia].
Qed.

Lemma happen_all_spec arrivals p hs :
  running arrivals p → short p (length hs) →
  wp (happen_all loop_ logged getLocalAddr hs)
    (λ _ p', running (arrivals ++ dialled hs) p' ∧ (length (heap (world p')) ≤ length (heap (world p)) + length hs)%nat) p.
Proof.
  unfold happen_all. induction hs as [|h hs IH] in arrivals, p |- *; intros Hp Hs; cbn [for_each]; wp_go.
  { rewrite app_nil_r. split; [done|lia]. }
  unfold short in *. cbn [length] in *. eapply wp_mono; [apply happen_step; [done|unfold short; lia]|]. cbv beta.
  intros _ p1 [Hp1 Hlen]. eapply wp_mono; [apply IH; [done|unfold short; lia]|]. cbv beta. intros _ p2 [Hp2 Hlen2].
  rewrite <- app_assoc in Hp2. split; [by destruct h|lia].
Qed.
End running.

Lemma connections_at_Some l p i fd : connections_at l p !! i = Some fd →
  ∃ j x, i = Z.of_nat j ∧ heap (world p) !! j = Some x ∧ conn_phase x ≠ Destroyed ∧ conn_fd x = fd.
Proof.
  intros (j & -> & Hj)%lookup_kmap_Some; [|apply _]. rewrite lookup_omap, lookup_map_seq_0 in Hj.
  destruct (heap (world p) !! j) as [x|] eqn:Hx; [|done]. cbn in Hj. case_decide as Hd; [|done].
  exists j, x. injection Hj as <-. split_and!; [done|done|apply Hd|done].
Qed.

(** *** Starting *)

(** The loop with the acceptor's channel, before [listen] and after it. *)
Record installed (l : EventLoop F) : Prop := {
  installed_wf : poller_wf (poller_ l);
  installed_thread : threadId_ l = loop_;
  installed_handling : EventLoop.eventHandling_ l = false;
  installed_channel : ∃ c, heap_ (poller_ l) !! ch = Some c ∧ fd_ c = listener ∧ index_ c = kNew ∧ Channel.eventHandling_ c = false;
  installed_new : channels_ (poller_ l) !! listener = None
}.

Record enabled (l : EventLoop F) : Prop := {
  enabled_wf : poller_wf (poller_ l);
  enabled_thread : threadId_ l = loop_;
  enabled_handling : EventLoop.eventHandling_ l = false;
  enabled_channel : ∃ c, heap_ (poller_ l) !! ch = Some c ∧ index_ c ≠ kNew ∧ Channel.eventHandling_ c = false
}.

Lemma listen_spec ret p :
  installed (Acceptor.loop_ p) →
  wp (listen loop_ ch ret)
    (λ _ p', enabled (Acceptor.loop_ p') ∧ kernel_ p' = kernel_ p ∧ client_ p' = client_ p ∧
       idleFd_ (acceptor_ p') = idleFd_ (acceptor_ p)) p.
Proof.
  intros [Hwf Ht Hh (c & Hc & Hfd & Hi & He) Hnew]. unfold listen. wp_go. apply on_loop_spec, assertInLoopThread_spec; [done|].
  wp_go. apply on_loop_spec. unfold enableReading. cbn. eapply wp_mono.
  { apply (change_events_spec enableReading_mask loop_ ch c); [done|done|done|by rewrite Hfd]. }
  cbv beta. intros _ l' (p' & -> & Hwf' & Hheap & _). split; [|done]. constructor; [done|done|done|]. cbn.
  rewrite Hheap, lookup_insert_eq. eexists. split; [done|]. cbn. split; [|done].
  intros E. pose proof (next_index_new (index_ c) (enableReading_mask (events_ c))) as Hn. by rewrite E in Hn.
Qed.

(** The process before [start]: the server constructed, standard input and the listening socket open, the
    reserve open or not. *)
Record launched (listenAddr : InetAddress) (nameArg : list byte) (b1 b2 : bool) p : Prop := {
  launched_server : client_ p = mkService (World_init loop_ (TcpServer_init listenAddr nameArg b1 b2)) ∅;
  launched_loop : installed (Acceptor.loop_ p);
  launched_stdin : is_open (kernel_ p) 0 ∧ idleFd_ (acceptor_ p) ≠ 0;
  launched_listener : is_open (kernel_ p) listener ∧ idleFd_ (acceptor_ p) ≠ listener;
  launched_reserve : reserve_ok (kernel_ p) (idleFd_ (acceptor_ p))
}.

(** The descriptors of the process other than the reserve. *)
Definition others p : Z → Prop := λ fd, is_open (kernel_ p) fd ∧ fd ≠ idleFd_ (acceptor_ p).
Definition spare p : Z := free (kernel_ p) + reserve (idleFd_ (acceptor_ p)).

Lemma launched_owns p : reserve_ok (kernel_ p) (idleFd_ (acceptor_ p)) →
  owns (others p) (spare p) (idleFd_ (acceptor_ p)) [] (kernel_ p).
Proof.
  intros Hr. unfold others. constructor.
  - intros x. rewrite elem_of_nil. destruct (decide (x = idleFd_ (acceptor_ p))) as [->|]; [|tauto].
    destruct Hr as [Hr|Hr]; [apply is_open_nonneg in Hr as Hpos; split; [|tauto]; intros _; right; left; split; [done|lia]|].
    rewrite Hr. split; [by intros ?%not_open_negative|tauto].
  - intros _. split; [tauto|apply not_elem_of_nil].
  - by intros x ?%elem_of_nil.
  - apply NoDup_nil_2.
  - unfold spare. change (zlen (@nil Z)) with 0. lia.
Qed.

Lemma start_up_spec n startLoop ret listenAddr nameArg b1 b2 p :
  wf_address listenAddr → 0 ≤ n < 2 ^ 31 → launched listenAddr nameArg b1 b2 p →
  wp (start_up loop_ ch n startLoop ret)
    (λ _ p', running n startLoop (toIpPort listenAddr) nameArg (others p) (spare p) (idleFd_ (acceptor_ p))
        (Acceptor.loop_ p') (backlog (kernel_ p)) p' ∧ enabled (Acceptor.loop_ p') ∧ heap (world p') = []) p.
Proof.
  intros Ha%toIpPort_length Hn [Hs Hl _ _ Hr]. unfold start_up. wp_go. apply on_server_spec.
  assert (Ew : world p = World_init loop_ (TcpServer_init listenAddr nameArg b1 b2)) by (unfold world; by rewrite Hs).
  assert (Eg : gone p = ∅) by (unfold gone; by rewrite Hs).
  rewrite Ew. eapply wp_mono.
  { apply (boot_spec loop_ n startLoop (toIpPort listenAddr) nameArg Hn (TcpServer_init listenAddr nameArg b1 b2) b2); done. }
  cbv beta. intros _ w (s & Hw & Hheap). eapply wp_mono; [by apply listen_spec|]. cbv beta.
  intros _ p' (He & Hk & Hc & Hi). change (kernel_ p' = kernel_ p) in Hk.
  change (idleFd_ (acceptor_ p') = idleFd_ (acceptor_ p)) in Hi. assert (Ew' : world p' = w) by (unfold world; by rewrite Hc).
  assert (Eg' : gone p' = ∅) by (unfold gone; rewrite Hc; exact Eg).
  split; [|split; [done|by rewrite Ew']]. constructor; [|done|by rewrite Hi]. constructor.
  - exists s. by rewrite Ew'.
  - unfold live. rewrite Ew', Hheap, Hi, Hk. by apply launched_owns.
  - intros i. by rewrite Eg'.
  - intros _. unfold peers. by rewrite Ew', Hheap, Hk.
Qed.

(** What a started server can reach. *)
Lemma reached n startLoop ret listenAddr nameArg b1 b2 p0 hs :
  launched listenAddr nameArg b1 b2 p0 → wf_address listenAddr → 0 ≤ n < 2 ^ 31 → 1 + zlen hs < 2 ^ 63 →
  wp (start_up loop_ ch n startLoop ret ;; happen_all loop_ logged getLocalAddr hs)
    (λ _ p, ∃ l, enabled l ∧
       running n startLoop (toIpPort listenAddr) nameArg (others p0) (spare p0) (idleFd_ (acceptor_ p0)) l
         (backlog (kernel_ p0) ++ dialled hs) p ∧ (length (heap (world p)) ≤ length hs)%nat) p0.
Proof.
  intros H0' Ha Hn Hs. pose proof H0' as [_ _ [Hz1 Hz2] [Hl1 Hl2] _].
  rewrite wp_bind. eapply wp_mono; [by eapply start_up_spec|]. cbv beta. intros _ p1 (Hp1 & He & Hheap). eapply wp_mono.
  { eapply (happen_all_spec n startLoop (toIpPort listenAddr) nameArg (others p0));
      [done|by apply toIpPort_length|done|done|apply He|exact Hp1|]. unfold short. rewrite Hheap. unfold zlen in Hs. cbn. lia. }
  cbv beta. rewrite Hheap. intros _ p Hp. by exists (Acceptor.loop_ p1).
Qed.

(** *** Stopping *)

Lemma stop_spec I base total arrivals items turns loops s h p :
  base listener → listener ≠ 0 → enabled (Acceptor.loop_ p) →
  good I base total (idleFd_ (acceptor_ p)) arrivals p →
  destroying loop_ loops items h (set_thread loop_ (world p)) → length h = length (heap (world p)) →
  server (world p) = Some s → EventLoopThread.Pool.loops_ (threadPool_ s) = loops →
  (∀ l, l ∈ loops → (length (queue l (world p)) + length items ≤ count_occ Z.eq_dec turns l)%nat) →
  wp (stop loop_ ch getLocalAddr items (Run <$> turns))
    (λ _ p', good (over loop_ loops h) (λ fd, base fd ∧ fd ≠ listener) (total + 1) (-1) arrivals p') p.
Proof.
  intros Hb Hne [Hwf Ht Hh (c & Hc & Hi & He)] Hg Hd Hlen Hs Hloops Hturns. unfold stop. wp_go. apply on_server_spec. wp_go.
  set (p1 := set_world (set_thread loop_ (world p)) p).
  assert (Hg1 : good (λ w, True) base total (idleFd_ (acceptor_ p)) arrivals p1) by by destruct Hg.
  eapply wp_mono; [eapply (server_step _ (over loop_ loops h)); [exact Hg1| |apply dtor_moves]|].
  { eapply wp_mono; [by eapply (dtor_spec loop_ getLocalAddr (λ _, 0) loops s)|]. cbv beta. intros _ w' Hw'. split; [done|].
    destruct Hw' as [(_ & -> & _) _]. by rewrite Hlen. }
  cbv beta. intros _ p2 [[G1 G2 G3 G4] [Ha Hl]]. change (acceptor_ p1) with (acceptor_ p) in Ha.
  change (Acceptor.loop_ p1) with (Acceptor.loop_ p) in Hl. rewrite <- Hl in *. unfold Acceptor_dtor, sys_close. wp_go.
  apply on_kernel_spec. wp_go. apply on_loop_spec. unfold disableAll. cbn. eapply wp_mono.
  { apply (change_events_spec disableAll_mask loop_ ch c); [done..|]. by intros ?. }
  cbv beta. intros _ l1 (q1 & -> & Hwf1 & Hheap1 & _). apply on_loop_spec. cbn.
  eapply wp_mono.
  { eapply (Channel_remove_spec loop_ ch); [done|done|cbn; by rewrite Hheap1, lookup_insert_eq|done| |cbn; by rewrite Hh].
    cbn. intros E. pose proof (next_index_new (index_ c) kNoneEvent) as Hn. unfold disableAll_mask in E. by rewrite E in Hn. }
  cbv beta. intros _ l2 (q2 & -> & Hwf2 & Hheap2 & _). wp_go. apply on_loop_spec. apply on_poller_spec.
  eapply channel_at_spec; [cbn; by rewrite Hheap2, lookup_insert_eq|]. wp_go.
  eapply wp_lift; [unfold Channel_dtor; cbn; by rewrite He|]. wp_go. apply on_kernel_spec.
  unfold Socket_dtor, sockets_close. wp_go. cbn.
  pose proof (owns_stop _ _ _ _ _ listener G2 Hb) as Ho.
  rewrite (proj2 (Z.ltb_lt 0 listener)).
  2:{ assert (Hopen : is_open (kernel_ p2) listener) by (apply (owns_open _ _ _ _ _ G2); by left).
      apply is_open_nonneg in Hopen. lia. }
  rewrite Ha. constructor; [done|exact Ho|done|]. by intros [_ ?].
Qed.

(** What can happen when the acceptor is gone. *)
Definition afterwards (h : happening) : bool := match h with Readable => false | _ => true end.

Lemma over_happens base total idle arrivals loops ds h p :
  base 0 → afterwards h → good (over loop_ loops ds) base total idle arrivals p →
  wp (happen loop_ logged getLocalAddr h) (λ _ p', good (over loop_ loops ds) base total idle (arrivals ++ dialled [h]) p') p.
Proof.
  intros Hzero Ha Hp.
  assert (Hevent : ∀ e, accepted [e] = [] → wp (on_server (handle loop_ getLocalAddr e))
    (λ _ p', good (over loop_ loops ds) base total idle (arrivals ++ []) p') p).
  { intros e He. rewrite app_nil_r.
    eapply wp_mono; [eapply (server_step _ (over loop_ loops ds)); [exact Hp| |apply handle_moves]|by intros _ p' [? _]].
    pose proof (good_world _ _ _ _ _ _ Hp) as Hd. eapply wp_mono; [by apply (over_step loop_ getLocalAddr (λ _, 0) loops ds)|].
    cbv beta. intros _ w' Hd'. split; [done|]. destruct Hd as [(_ & -> & _) _]. by destruct Hd' as [(_ & -> & _) _]. }
  destruct h as [peer| |c|c|li|c]; try done; cbn [happen dialled omap list_omap]; try by apply Hevent.
  - eapply wp_mono; [by eapply dial_step|]. by intros _ p' [? _].
  - rewrite app_nil_r. eapply wp_mono; [eapply release_step; [|done|exact Hp]|by intros _ p' [? _]].
    intros w i x [Hw _] Hx. by eapply dying_released.
Qed.

Lemma over_happens_all base total idle arrivals loops ds hs p :
  base 0 → Forall afterwards hs → good (over loop_ loops ds) base total idle arrivals p →
  wp (happen_all loop_ logged getLocalAddr hs)
    (λ _ p', good (over loop_ loops ds) base total idle (arrivals ++ dialled hs) p') p.
Proof.
  intros Hzero Hs. unfold happen_all. induction Hs as [|h hs Hh Hs IH] in arrivals, p |- *; intros Hp; cbn [for_each]; wp_go.
  { by rewrite app_nil_r. }
  eapply wp_mono; [by apply over_happens|]. cbv beta. intros _ p1 Hp1. eapply wp_mono; [by apply IH|]. cbv beta.
  intros _ p2 Hp2. rewrite <- app_assoc in Hp2. by destruct h.
Qed.
End invariant.

(** ** Properties *)

(** C15: no descriptor is lost or used twice.  A server is started with its acceptor; then peers connect, the
    listening socket is reported readable, connections are forced to close or end, loops run their functors
    and applications let go of connections, in any order.  No assertion fails, the one of [~TcpConnection] and
    [~Channel] included; what the process has open is what it had before, the reserve, and one descriptor of its
    own for each connection that has not been deleted, and the number it may still open is smaller by just that
    many; a reserve that was open is open still; a deleted connection is a destroyed one to which nothing
    leads; connections are taken in the order in which they came; and when no functor is left and every
    destroyed connection has been let go, the descriptors in use are those of the connections in the map. *)
Theorem server_descriptors `{Epoll} `{Descriptors} {F} loop_ ch logged getLocalAddr n startLoop ret listenAddr nameArg b1 b2
    (p0 : Process F) hs :
  launched loop_ ch listenAddr nameArg b1 b2 p0 →
  wf_address listenAddr → 0 ≤ n < 2 ^ 31 → 1 + zlen hs < 2 ^ 63 →
  wp (start_up loop_ ch n startLoop ret ;; happen_all loop_ logged getLocalAddr hs)
    (λ _ p, ∃ s, server (world p) = Some s ∧
       owns (others p0) (spare p0) (idleFd_ (acceptor_ p)) (live p) (kernel_ p) ∧
       (idleFd_ (acceptor_ p0) ≠ -1 → idleFd_ (acceptor_ p) ≠ -1) ∧
       (∀ i, i ∈ gone p → held i (world p) = false ∧ ∃ x, heap (world p) !! i = Some x ∧ conn_phase x = Destroyed) ∧
       (Peer ∘ peerAddr_ <$> heap (world p)) ++ backlog (kernel_ p) `sublist_of` backlog (kernel_ p0) ++ dialled hs ∧
       (TcpServer.idle (world p) →
        (∀ i x, heap (world p) !! i = Some x → conn_phase x = Destroyed → i ∈ gone p) →
        ∀ fd, fd ∈ live p ↔ ∃ i x, heap (world p) !! i = Some x ∧ in_map s i x ∧ conn_fd x = fd))
    p0.
Proof.
  intros H0' Ha Hn Hs. pose proof H0' as [_ _ [Hz1 Hz2] [Hl1 Hl2] _].
  eapply wp_mono; [by eapply reached|]. cbv beta. intros _ p (l & _ & [[(s & Hw) G2 G3 G4] _ Hk] & _). exists s. split_and!; [apply Hw|done|done| | |].
  - intros i Hi. destruct (G3 i Hi) as (x & Hx & Hd). split; [by eapply inv_unheld|by exists x].
  - specialize (G4 (conj Hl1 (not_eq_sym Hl2))). unfold peers in G4. by rewrite <- !list_fmap_compose in G4.
  - intros Hidle Hall fd. unfold live. rewrite elem_of_live_from. setoid_rewrite list_lookup_fmap_Some. split.
    + intros (i & (x & -> & Hx) & Hi). exists i, x. split_and!; [done| |done].
      destruct (inv_idle Hw Hidle Hx) as [[_ ?]|[Hd _]]; [done|]. destruct Hi. by eapply Hall.
    + intros (i & x & Hx & Hm & <-). exists i. split; [by exists x|]. intros (y & Hy & Hd)%G3.
      assert (y = x) as -> by (cbn in Hy; congruence). destruct (inv_idle Hw Hidle Hx) as [[Hup _]|[_ Hn']]; [by rewrite Hd in Hup|done].
Qed.

(** C18: what a poller's map relies on.  However descriptors are used again, in every reachable state no two channels
    that are or can be registered with the same loop have the same descriptor: a destroyed connection's channel
    has been removed before its descriptor is closed, so that the channel of the next connection with that
    descriptor finds its place in the map free. *)
Theorem channels_distinct `{Epoll} `{Descriptors} {F} loop_ ch logged getLocalAddr n startLoop ret listenAddr nameArg b1 b2
    (p0 : Process F) hs :
  launched loop_ ch listenAddr nameArg b1 b2 p0 →
  wf_address listenAddr → 0 ≤ n < 2 ^ 31 → 1 + zlen hs < 2 ^ 63 →
  wp (start_up loop_ ch n startLoop ret ;; happen_all loop_ logged getLocalAddr hs)
    (λ _ p, ∀ l, distinct (channels_at loop_ l p)) p0.
Proof.
  intros H0' Ha Hn Hs. pose proof H0' as [_ _ _ [Hl1 Hl2] _]. eapply wp_mono; [by eapply reached|]. cbv beta.
  intros _ p (l0 & _ & [[_ G2 G3 _] _ _] & _) l.
  assert (Hconn : ∀ i fd, connections_at l p !! i = Some fd →
    ∃ j, i = Z.of_nat j ∧ (conn_fd <$> heap (world p)) !! j = Some fd ∧ j ∉ gone p).
  { intros i fd (j & x & -> & Hx & Hd & <-)%connections_at_Some. exists j. rewrite list_lookup_fmap, Hx. split_and!; [done..|].
    intros (y & Hy & Hp)%G3. congruence. }
  assert (Hpair : ∀ i i' fd, connections_at l p !! i = Some fd → connections_at l p !! i' = Some fd → i = i').
  { intros i i' fd (j & -> & Hj & Hg)%Hconn (j' & -> & Hj' & Hg')%Hconn. f_equal.
    by eapply (live_from_inj 0 (gone p)); [apply (owns_nodup _ _ _ _ _ G2)|..]. }
  assert (Hnew : ∀ i, connections_at l p !! i ≠ Some listener).
  { intros i (j & -> & Hj & Hg)%Hconn. apply (owns_fresh _ _ _ _ _ G2 listener); [|by split].
    apply elem_of_live_from. by exists j. }
  unfold channels_at. destruct (l =? loop_); [|exact Hpair]. intros i i' fd.
  rewrite !lookup_insert_Some. intros [[<- <-]|[_ Hi]] [[<- E]|[_ Hi']]; [done|by destruct (Hnew i')| |by eapply Hpair].
  subst fd. by destruct (Hnew i).
Qed.

(** C16: a stopped server gives its descriptors back.  When the listening socket is not descriptor 0 (which
    [sockets::close] leaves alone), when no connection of the map is being force-closed or waits for its removal,
    when none ends in its own loop while the destructor runs, and when each loop of the pool runs the functors it
    has been given before its thread ends: the server's destructor, the acceptor's and all that happens afterwards
    but a report of the socket that is closed (peers that connect, forced closes, ends, functors of the base
    loop, applications letting go of connections) fail no assertion, and the listening socket and the reserve are
    closed at once; when no functor is left [connectDestroyed] has run for every connection and no pointer of the
    server's leads to it; and when all have been let go, the process has open exactly what it had before the
    acceptor, and can open as much. *)
Theorem server_stop_descriptors `{Epoll} `{Descriptors} {F} loop_ ch logged getLocalAddr n startLoop ret listenAddr nameArg b1 b2
    (p0 : Process F) hs p s items turns rest :
  launched loop_ ch listenAddr nameArg b1 b2 p0 → listener ≠ 0 →
  wf_address listenAddr → 0 ≤ n < 2 ^ 31 → 1 + zlen hs < 2 ^ 63 →
  (start_up loop_ ch n startLoop ret ;; happen_all loop_ logged getLocalAddr hs) p0 = Ok (tt, p) →
  server (world p) = Some s → items ≡ₚ (map_to_list (connections_ s)).*2 →
  none_closing s (world p) → pool_runs s items turns (world p) →
  Forall afterwards rest →
  wp (stop loop_ ch getLocalAddr items (Run <$> turns) ;; happen_all loop_ logged getLocalAddr rest)
    (λ _ p', server (world p') = None ∧
       owns (λ fd, others p0 fd ∧ fd ≠ listener) (spare p0 + 1) (-1) (live p') (kernel_ p') ∧
       (TcpServer.idle (world p') →
        ∀ i x, heap (world p') !! i = Some x → conn_phase x = Destroyed ∧ held i (world p') = false) ∧
       ((∀ i x, heap (world p') !! i = Some x → i ∈ gone p') →
        free (kernel_ p') = spare p0 + 1 ∧ ∀ fd, is_open (kernel_ p') fd ↔ others p0 fd ∧ fd ≠ listener))
    p.
Proof.
  intros H0' Hnz Ha Hn Hs Hrun Hserver Hitems Hcalm Hturns Hrest. pose proof H0' as [_ _ [Hz1 Hz2] [Hl1 Hl2] _].
  pose proof (reached loop_ ch logged getLocalAddr n startLoop ret _ _ _ _ _ hs H0' Ha Hn Hs) as Hp.
  unfold wpf in Hp. rewrite Hrun in Hp. destruct Hp as (l & He & [Hg Hl _] & _). pose proof Hg as [(s' & Hw) _ _ _].
  assert (s' = s) as -> by (pose proof (inv_server _ _ _ _ _ _ _ _ Hw); congruence).
  rewrite wp_bind. eapply wp_mono.
  { eapply (stop_spec loop_ ch getLocalAddr _ (others p0)); [by split|done|by rewrite Hl|exact Hg| |done|done|done|done].
    apply (destroying_start loop_ n startLoop (toIpPort listenAddr) nameArg _ s (set_thread loop_ (world p))); [|done|lia|done..].
    by apply inv_thread. }
  cbv beta. intros _ p1 Hp1. eapply wp_mono; [eapply over_happens_all; [|done|exact Hp1]|].
  { split; [by split|congruence]. }
  cbv beta. intros _ p2 [[Hd Hdone] Ho _ _]. split_and!; [apply Hd|done| |].
  - intros Hidle i x Hx. assert (Hh : held i (world p2) = false).
    { apply not_true_is_false. unfold held. rewrite (proj1 Hd). cbn. rewrite bool_decide_eq_true, list_elem_of_fmap.
      intros (t & _ & (q & Ht & Hq)%list_elem_of_join). apply list_elem_of_fmap in Hq as ([li q'] & -> & Hli%elem_of_map_to_list).
      specialize (Hidle li). unfold queue in Hidle. rewrite Hli in Hidle. cbn in Hidle, Ht. subst. by apply elem_of_nil in Ht. }
    split; [by eapply dying_released|done].
  - intros Hall. assert (Hnil : live p2 = []).
    { apply elem_of_nil_inv. intros fd (i & (x & -> & Hx)%list_lookup_fmap_Some & Hi)%elem_of_live_from. destruct Hi. by eapply Hall. }
    destruct Ho as [O1 _ _ _ O5]. rewrite Hnil in *. change (reserve (-1)) with 0 in O5. change (zlen (@nil Z)) with 0 in O5.
    split; [lia|]. intros fd. rewrite O1, elem_of_nil. split; [intros [?|[[_ ?]|?]]; [done|done|done]|auto].
Qed.

(** ** Examples *)

#[local] Existing Instance process_descriptors.
#[local] Existing Instance map_epoll.

(** Room for two descriptors beside standard input, the listening socket and the reserve; one peer waits. *)
Definition example_process : Process Z :=
  mkAcceptorWorld (EventLoop_init 1 (EPollPoller_init {[ 100 := Channel_init 3 ]})) (mkProcess 2 [0; 3; 4]%nat [peer 1])
    (mkAcceptor false 4) (mkService (World_init 1 (TcpServer_init example_listen (txt "echo") false false)) ∅).

(** Three peers, of which the third is refused; the first ends and makes room for a fourth. *)
Definition example_happenings : list happening :=
  [Readable; Dial (peer 2); Readable; Dial (peer 3); Readable; Turn 10; Turn 11; Ended 0%nat; Released 0%nat;
   Turn 1; Turn 10; Released 0%nat; Dial (peer 4); Readable; Turn 10].

Definition example_run_to (hs : list happening) : prog (Process Z) () :=
  start_up 1 100 2 (λ i, 10 + Z.of_nat i) 0 ;; happen_all 1 id (λ _, example_listen) hs.

Lemma example_launched : launched 1 100 example_listen (txt "echo") false false example_process.
Proof.
  assert (Hin : ∀ fd, fd ∈ [0; 3; 4] → is_open (kernel_ example_process) fd).
  { intros fd Hfd. rewrite !elem_of_cons, elem_of_nil in Hfd. destruct Hfd as [->|[->|[->|[]]]]; (split; [done|]); vm_compute; repeat constructor. }
  constructor; [done| |split; [apply Hin; repeat constructor|done]..|left; apply Hin; repeat constructor].
  constructor; try done.
  - apply poller_wf_init. intros ch c [_ <-]%lookup_singleton_Some. done.
  - exists (Channel_init 3). split_and!; [apply lookup_singleton_eq|done..].
Qed.

Lemma example_address : wf_address example_listen.
Proof. unfold wf_address. cbn. repeat constructor; discriminate. Qed.

(** The outcome: who is connected with which descriptor, what the connections own, and the room left. *)
Definition report (r : outcome (() * Process Z)) : option (list (Z * phase) * list Z * Z) :=
  match r with
  | Ok (_, p) => Some ((λ x, (conn_fd x, conn_phase x)) <$> heap (world p), live p, free (kernel_ p))
  | Fault _ => None
  end.

Example example_room :
  report (example_run_to example_happenings example_process) =
  Some ([(5, Destroyed); (6, Connected); (8, Connected)], [6; 8], 0).
Proof. vm_compute. reflexivity. Qed.

Definition example_running : Process Z :=
  match example_run_to example_happenings example_process with Ok (_, p) => p | Fault _ => example_process end.
Definition example_server_then : TcpServer := default (TcpServer_init example_listen [] false false) (server (world example_running)).

Lemma server_descriptors_witness :
  wp (example_run_to example_happenings)
    (λ _ p, ∃ s, server (world p) = Some s ∧
       owns (others example_process) (spare example_process) (idleFd_ (acceptor_ p)) (live p) (kernel_ p) ∧
       (idleFd_ (acceptor_ example_process) ≠ -1 → idleFd_ (acceptor_ p) ≠ -1) ∧
       (∀ i, i ∈ gone p → held i (world p) = false ∧ ∃ x, heap (world p) !! i = Some x ∧ conn_phase x = Destroyed) ∧
       (Peer ∘ peerAddr_ <$> heap (world p)) ++ backlog (kernel_ p) `sublist_of`
         backlog (kernel_ example_process) ++ dialled example_happenings ∧
       (TcpServer.idle (world p) →
        (∀ i x, heap (world p) !! i = Some x → conn_phase x = Destroyed → i ∈ gone p) →
        ∀ fd, fd ∈ live p ↔ ∃ i x, heap (world p) !! i = Some x ∧ in_map s i x ∧ conn_fd x = fd))
    example_process.
Proof.
  apply (server_descriptors 1 100 id (λ _, example_listen) 2 (λ i, 10 + Z.of_nat i) 0 example_listen (txt "echo") false false
           example_process example_happenings).
  - exact example_launched.
  - exact example_address.
  - split; [discriminate|reflexivity].
  - reflexivity.
Defined.

Lemma channels_distinct_witness :
  wp (example_run_to example_happenings) (λ _ p, ∀ l, distinct (channels_at 1 l p)) example_process.
Proof.
  apply (channels_distinct 1 100 id (λ _, example_listen) 2 (λ i, 10 + Z.of_nat i) 0 example_listen (txt "echo") false false
           example_process example_happenings).
  - exact example_launched.
  - exact example_address.
  - split; [discriminate|reflexivity].
  - reflexivity.
Defined.

Definition example_turns : list Z := [10; 11; 10; 11; 10; 11].
Definition example_rest : list happening := [Ended 1%nat; Dial (peer 5); Turn 1; Released 1%nat; Forced 2%nat; Released 2%nat].

Lemma server_stop_descriptors_witness :
  wp (stop 1 100 (λ _, example_listen) [2%nat; 1%nat] (Run <$> example_turns) ;; happen_all 1 id (λ _, example_listen) example_rest)
    (λ _ p', server (world p') = None ∧
       owns (λ fd, others example_process fd ∧ fd ≠ listener) (spare example_process + 1) (-1) (live p') (kernel_ p') ∧
       (TcpServer.idle (world p') →
        ∀ i x, heap (world p') !! i = Some x → conn_phase x = Destroyed ∧ held i (world p') = false) ∧
       ((∀ i x, heap (world p') !! i = Some x → i ∈ gone p') →
        free (kernel_ p') = spare example_process + 1 ∧ ∀ fd, is_open (kernel_ p') fd ↔ others example_process fd ∧ fd ≠ listener))
    example_running.
Proof.
  apply (server_stop_descriptors 1 100 id (λ _, example_listen) 2 (λ i, 10 + Z.of_nat i) 0 example_listen (txt "echo") false false
           example_process example_happenings example_running example_server_then [2%nat; 1%nat] example_turns example_rest).
  - exact example_launched.
  - discriminate.
  - exact example_address.
  - split; [discriminate|reflexivity].
  - reflexivity.
  - vm_compute. reflexivity.
  - vm_compute. reflexivity.
  - vm_compute. repeat constructor.
  - intros i x Hx Hm. destruct i as [|[|[|i]]].
    + exfalso. assert (Hk : conn_name x = txt "echo-0.0.0.08080#1") by (revert Hx; vm_compute; by intros [= <-]).
      unfold in_map in Hm. rewrite Hk in Hm. revert Hm. vm_compute. discriminate.
    + right. revert Hx. vm_compute. by intros [= <-].
    + right. revert Hx. vm_compute. by intros [= <-].
    + revert Hx. vm_compute. discriminate.
  - intros l Hl. assert (Hl' : l ∈ [10; 11]) by exact Hl. rewrite !elem_of_cons, elem_of_nil in Hl'.
    destruct Hl' as [->|[->|[]]]; vm_compute; repeat constructor.
  - repeat constructor.
Defined.

(** The process then: nothing but standard input is open, and four descriptors can be opened again. *)
Example example_stopped :
  report ((stop 1 100 (λ _, example_listen) [2%nat; 1%nat] (Run <$> example_turns) ;; happen_all 1 id (λ _, example_listen) example_rest)
    example_running) = Some ([(5, Destroyed); (6, Destroyed); (8, Destroyed)], [], 4).
Proof. vm_compute. reflexivity. Qed.

(** When a loop ends without having run its functors, the connection's last pointer goes with them, and the
    assertion of [~TcpConnection] fails. *)
Example established_let_go :
  (stop 1 100 (λ _, example_listen) [2%nat; 1%nat] [] ;; happen_all 1 id (λ _, example_listen) [Released 1%nat]) example_running =
  Fault AssertFailed.
Proof. vm_compute. reflexivity. Qed.
