(* ===== verification/ServerRecovery.v ===== *)
(** * ServerRecovery: whatever has happened, the server can give its connections' descriptors back

    The loops' functors run out; once every established connection has ended, the map is empty, and when the
    applications have let go of the connections the process can open as many descriptors as before the first. *)
From S2P Require Import Prelude Sockets Channel EPollPoller EventLoop Acceptor EventLoopThread TcpServer ServerLoop.

(** ** The work that is left in the queues *)

(** A removal queues one more functor. *)
Definition weight (t : task) : nat := match t with RemoveConnectionInLoop _ => 2 | ConnectEstablished _ | ConnectDestroyed _ => 1 end.
Definition load (q : list task) : nat := sum_list (weight <$> q).
Definition work (w : World) : nat := sum_list ((λ e, load e.2) <$> map_to_list (pendingFunctors w)).

Lemma load_app q1 q2 : load (q1 ++ q2) = (load q1 + load q2)%nat.
Proof. unfold load. induction q1 as [|t q1 IH]; [done|]. cbn in *. lia. Qed.

Lemma work_set_queue l q w : (work (set_queue l q w) + load (queue l w) = work w + load q)%nat.
Proof.
  unfold work, queue, set_queue. cbn. set (m := pendingFunctors w).
  assert (Hins : ∀ q, sum_list ((λ e : Z * list task, load e.2) <$> map_to_list (<[l := q]> m)) =
    (load q + sum_list ((λ e, load e.2) <$> map_to_list (delete l m)))%nat).
  { intros q'. rewrite <- insert_delete_eq. by rewrite map_to_list_insert by apply lookup_delete_eq. }
  rewrite Hins. destruct (m !! l) as [q0|] eqn:Hl; cbn.
  - specialize (Hins q0). rewrite insert_id in Hins by done.
    fold (load q0). lia.
  - rewrite delete_id by done. lia.
Qed.

Section work.
Context (loop_ : Z) (getLocalAddr : Z → InetAddress).
#[local] Abbreviation any := (λ _ : fault, True).

Lemma run_task_work t w : wpf any (run_task loop_ t) (λ _ w', (S (work w') ≤ work w + weight t)%nat) w.
Proof.
  destruct t as [c|c|c]; cbn [run_task weight];
    [unfold connectEstablished|unfold removeConnectionInLoop|unfold connectDestroyed]; wp_go.
  2:{ apply any_thread. wp_go. apply any_this. intros s. wp_go. apply any_conn. intros x _. wp_go.
      apply any_update_this. intros s'. wp_go. apply any_assert. intros _. unfold queueInLoop. wp_go.
      set (w1 := set_server s' w). change (work w) with (work w1).
      pose proof (work_set_queue (conn_loop x) (queue (conn_loop x) w1 ++ [ConnectDestroyed c]) w1) as E.
      rewrite load_app in E. change (load [ConnectDestroyed c]) with 1%nat in E. lia. }
  all: apply any_conn; intros x _; wp_go; apply any_thread; wp_go; apply any_assert; intros _.
  all: unfold update_conn; wp_go; unfold work; cbn; lia.
Qed.

(** A functor run leaves less to do. *)
Lemma turn_work l w : queue l w ≠ [] → wpf any (handle loop_ getLocalAddr (Run l)) (λ _ w', (work w' < work w)%nat) w.
Proof.
  intros Hq. unfold handle. wp_go. destruct (queue l w) as [|t q] eqn:E; [done|]. wp_go.
  eapply wp_mono; [apply run_task_work|]. cbv beta. intros _ w' Hw'.
  pose proof (work_set_queue l q (set_thread l w)) as Hs. change (queue l (set_thread l w)) with (queue l w) in Hs.
  change (work (set_thread l w)) with (work w) in Hs. rewrite E in Hs. unfold load at 1 in Hs. cbn in Hs. unfold load in Hs. lia.
Qed.

(** A connection that is past its construction has ended after [Close]. *)
Lemma close_ends c w x :
  heap w !! c = Some x → conn_phase x ≠ Connecting →
  wpf any (handle loop_ getLocalAddr (Close c)) (λ _ w', ∃ x', heap w' !! c = Some x' ∧ (3 ≤ rank (conn_phase x'))%nat) w.
Proof.
  intros Hx Hp. unfold handle. wp_go. rewrite Hx. wp_go. destruct (is_up (conn_phase x)) eqn:Hup.
  2:{ exists x. split; [done|]. by destruct (conn_phase x); cbn in *; try lia. }
  unfold handleClose, removeConnection, update_conn. wp_go. apply any_this. intros _. wp_go.
  eapply wp_mono; [apply runInLoop_moves|]. cbv beta. intros _ w' Hw'.
  destruct (Hw' c (set_phase Closed x)) as (x' & Hx' & _ & _ & Hr); [cbn; by rewrite list_lookup_alter_eq, Hx|]. by exists x'.
Qed.
End work.

(** ** Schedules *)

(** Which loop runs next. *)
Definition scheduler (pick : World → option Z) : Prop :=
  ∀ w, match pick w with Some l => queue l w ≠ [] | None => TcpServer.idle w end.

(** The loop with the smallest number that has something to do. *)
Definition first_busy (w : World) : option Z :=
  head (omap (λ e, match e.2 with [] => None | _ => Some e.1 end) (map_to_list (pendingFunctors w))).

Lemma first_busy_scheduler : scheduler first_busy.
Proof.
  intros w. unfold first_busy. destruct (omap _ _) as [|l ls] eqn:E; cbn.
  - intros l. unfold queue. destruct (pendingFunctors w !! l) as [[|t q]|] eqn:Hl; [done| |done]. exfalso.
    assert (Hin : l ∈ omap (λ e : Z * list task, match e.2 with [] => None | _ => Some e.1 end) (map_to_list (pendingFunctors w))).
    { apply list_elem_of_omap. exists (l, t :: q). split; [by apply elem_of_map_to_list|done]. }
    rewrite E in Hin. by apply elem_of_nil in Hin.
  - assert (Hin : l ∈ omap (λ e : Z * list task, match e.2 with [] => None | _ => Some e.1 end) (map_to_list (pendingFunctors w))).
    { rewrite E. by left. }
    apply list_elem_of_omap in Hin as ([l' [|t q]] & Hl & He); [done|]. apply elem_of_map_to_list in Hl.
    cbn in He. injection He as ->. unfold queue. by rewrite Hl.
Qed.

Section recovery.
Context `{Epoll} `{Descriptors} {F : Type}.
Context (loop_ ch : Z) (logged : Z → Z) (getLocalAddr : Z → InetAddress) (pick : World → option Z).
Implicit Types (p : Process F) (c : TcpConnectionPtr).

#[local] Abbreviation any := (λ _ : fault, True).
#[local] Abbreviation happen := (happen loop_ logged getLocalAddr).
#[local] Abbreviation happen_all := (happen_all loop_ logged getLocalAddr).

(** The loops run functors as [pick] says, [fuel] of them at most. *)
Fixpoint drain (fuel : nat) : prog (Process F) () :=
  p ← get;
  match pick (world p) with
  | None => mret tt
  | Some l => match fuel with O => raise OutOfFuel | S fuel => happen (Turn l) ;; drain fuel end
  end.

Definition settle : prog (Process F) () := p ← get; drain (work (world p)).
Definition connections p : list TcpConnectionPtr := seq 0 (length (heap (world p))).

(** Everything queued is run; every connection ends; the removals are run; nobody keeps a connection. *)
Definition recover : prog (Process F) () :=
  settle ;;
  p ← get; happen_all (Ended <$> connections p) ;;
  settle ;;
  p ← get; happen_all (Released <$> connections p).

(** What steps do to the connections. *)
Definition onward p p' : Prop := later (world p) (world p') ∧ gone p ⊆ gone p'.

#[local] Instance onward_preorder : PreOrder onward.
Proof.
  split; [by split|]. intros p1 p2 p3 [? ?] [? ?]. by split; etrans.
Qed.

Lemma server_onward (m : prog World ()) p :
  wpf any m (λ _ w', later (world p) w') (world p) → wpf any (on_server m) (λ _ p', onward p p') p.
Proof. intros Hm. apply on_server_spec. eapply wp_mono; [exact Hm|]. by intros ? w' Hw'. Qed.

Lemma release_onward c p : wpf any (release c) (λ _ p', onward p p' ∧ world p' = world p) p.
Proof.
  unfold release. wp_go. destruct (_ && _); [|done]. unfold delete_connection. wp_go. apply on_server_spec.
  apply any_conn. intros x _. wp_go. do 2 (unfold cassert; destruct (bool_decide _); [|done]; wp_go).
  apply on_kernel_spec. unfold Socket_dtor, sockets_close. wp_go.
  assert (Hsub : gone p ⊆ {[c]} ∪ gone p) by apply union_subseteq_r. by destruct (0 <? _).
Qed.

(** A connection nothing leads to is deleted when it is let go. *)
Lemma release_gone c p :
  is_Some (heap (world p) !! c) → held c (world p) = false → wpf any (release c) (λ _ p', c ∈ gone p') p.
Proof.
  intros Hx Hh. unfold release. wp_go. rewrite Hh, (bool_decide_true _ Hx). cbn. case_bool_decide as Hg.
  2:{ exact Hg. }
  unfold delete_connection. wp_go. apply on_server_spec. apply any_conn. intros x _. wp_go.
  do 2 (unfold cassert; destruct (bool_decide _); [|done]; wp_go).
  apply on_kernel_spec. unfold Socket_dtor, sockets_close. wp_go.
  assert (Hin : c ∈ {[c]} ∪ gone p) by (apply elem_of_union; left; by apply elem_of_singleton). by destruct (0 <? _).
Qed.

(** *** From any reachable state *)

Section running.
Context (n : Z) (startLoop : nat → Z) (ipPort nameArg : list byte) (base : Z → Prop) (total idle0 : Z) (l : EventLoop F).
Hypothesis Hn : 0 ≤ n < 2 ^ 31.
Hypothesis Hip : zlen ipPort ≤ 35.
Hypothesis Hzero : base 0.
Hypothesis Hpick : scheduler pick.

#[local] Abbreviation running := (running loop_ n startLoop ipPort nameArg base total idle0 l).

(** [p'] is reached from [p] without a new connection. *)
Definition ahead arrivals p p' : Prop :=
  running arrivals p' ∧ onward p p' ∧ length (heap (world p')) = length (heap (world p)).

Lemma ahead_trans arrivals p1 p2 p3 : ahead arrivals p1 p2 → ahead arrivals p2 p3 → ahead arrivals p1 p3.
Proof. intros (_ & H12 & L12) (R & H23 & L23). split_and!; [done|by etrans|congruence]. Qed.

Lemma short_ahead arrivals p p' k : ahead arrivals p p' → short p k → short p' k.
Proof. intros (_ & _ & Hlen). unfold short. by rewrite Hlen. Qed.

Lemma server_ahead arrivals p e :
  running arrivals p → short p 1 → accepted [e] = [] →
  wp (on_server (handle loop_ getLocalAddr e)) (λ _ p', ahead arrivals p p') p.
Proof.
  intros Hp Hs He. eapply wp_mono; [apply wp_both; [by eapply (booked_step loop_ getLocalAddr n startLoop ipPort nameArg base)|]|].
  - apply server_onward, handle_moves.
  - cbv beta. intros _ p' [[Hp' Hlen] Hon]. by split.
Qed.

Lemma release_ahead arrivals p c : running arrivals p → wp (release c) (λ _ p', ahead arrivals p p' ∧ world p' = world p) p.
Proof.
  intros Hp. pose proof Hp as [G _ _]. eapply wp_mono; [apply wp_both; [eapply release_step; [|done|exact G]|apply release_onward]|].
  - intros w i x (s & Hw) Hx. by eapply inv_released.
  - cbv beta. intros _ p' [Hp' [Hon Hw]]. split; [|done]. split_and!; [by eapply running_aside|done|by rewrite Hw].
Qed.

Lemma drain_spec arrivals fuel p :
  running arrivals p → short p 1 → (work (world p) ≤ fuel)%nat →
  wp (drain fuel) (λ _ p', ahead arrivals p p' ∧ TcpServer.idle (world p')) p.
Proof.
  induction fuel as [|fuel IH] in p |- *; intros Hp Hs Hf; cbn [drain]; wp_go;
    pose proof (Hpick (world p)) as Hq; destruct (pick (world p)) as [li|]; try (by split; [split_and!|]).
  - exfalso. destruct (queue li (world p)) as [|t q] eqn:E; [done|].
    pose proof (work_set_queue li [] (world p)) as Hw. rewrite E in Hw. unfold load in Hw. cbn in Hw. destruct t; cbn in Hw; lia.
  - wp_go. eapply wp_mono.
    { eapply (wp_both _ _ (λ (_ : ()) (p' : Process F), work (world p') < work (world p))%nat); [by apply (server_ahead arrivals)|].
      apply on_server_spec. by apply (turn_work loop_ getLocalAddr li). }
    cbv beta. intros _ p1 [H1 Hw1]. eapply wp_mono; [apply IH; [apply H1|by eapply short_ahead|lia]|]. cbv beta.
    intros _ p2 [H2 Hidle]. split; [by eapply ahead_trans|done].
Qed.

Lemma settle_spec arrivals p :
  running arrivals p → short p 1 → wp settle (λ _ p', ahead arrivals p p' ∧ TcpServer.idle (world p')) p.
Proof. intros Hp Hs. unfold settle. wp_go. by apply drain_spec. Qed.

(** At rest, every connection is established or destroyed. *)
Lemma idle_connection arrivals p c x :
  running arrivals p → TcpServer.idle (world p) → heap (world p) !! c = Some x → conn_phase x ≠ Connecting ∧ conn_phase x ≠ Closed.
Proof.
  intros [[(s & Hw) _ _ _] _ _] Hidle Hx. destruct (inv_idle Hw Hidle Hx) as [[Hp _]|[Hp _]]; by destruct (conn_phase x).
Qed.

Lemma ends_spec arrivals cs p :
  running arrivals p → short p 1 → (∀ c, c ∈ cs → ∃ x, heap (world p) !! c = Some x ∧ conn_phase x ≠ Connecting) →
  wp (happen_all (Ended <$> cs)) (λ _ p', ahead arrivals p p' ∧
    ∀ c, c ∈ cs → ∃ x, heap (world p') !! c = Some x ∧ (3 ≤ rank (conn_phase x))%nat) p.
Proof.
  unfold ServerLoop.happen_all. induction cs as [|c cs IH] in p |- *; intros Hp Hs Hcs; cbn [fmap list_fmap for_each]; wp_go.
  { split; [by split_and!|]. by intros c ?%elem_of_nil. }
  destruct (Hcs c) as (x & Hx & Hne); [by left|]. eapply wp_mono.
  { eapply (wp_both _ _ (λ (_ : ()) (p' : Process F), ∃ x', heap (world p') !! c = Some x' ∧ 3 ≤ rank (conn_phase x'))%nat);
      [by apply (server_ahead arrivals)|]. apply on_server_spec. by eapply close_ends. }
  cbv beta. intros _ p1 [H1 (x1 & Hx1 & Hr1)]. pose proof H1 as (Hp1 & [Hl1 _] & _).
  eapply wp_mono; [apply IH; [done|by eapply short_ahead|]|].
  { intros c' Hc'. destruct (Hcs c') as (y & Hy & Hney); [by right|]. destruct (Hl1 c' y Hy) as (y' & Hy' & _ & _ & Hr).
    exists y'. split; [done|]. intros E. rewrite E in Hr. destruct (conn_phase y); cbn in Hr; lia || done. }
  cbv beta. intros _ p2 [H2 Hall]. split; [by eapply ahead_trans|]. intros c' [->|Hc']%elem_of_cons; [|by apply Hall].
  destruct H2 as (_ & [Hl2 _] & _). destruct (Hl2 c x1 Hx1) as (x2 & Hx2 & _ & _ & Hr2). exists x2. split; [done|lia].
Qed.

Lemma releases_spec arrivals cs p :
  running arrivals p → (∀ c, c ∈ cs → is_Some (heap (world p) !! c) ∧ held c (world p) = false) →
  wp (happen_all (Released <$> cs)) (λ _ p', ahead arrivals p p' ∧ world p' = world p ∧ ∀ c, c ∈ cs → c ∈ gone p') p.
Proof.
  unfold ServerLoop.happen_all. induction cs as [|c cs IH] in p |- *; intros Hp Hcs; cbn [fmap list_fmap for_each]; wp_go.
  { split_and!; [by split_and!|done|]. by intros c ?%elem_of_nil. }
  destruct (Hcs c) as [Hx Hh]; [by left|].
  eapply wp_mono; [apply wp_both; [by apply (release_ahead arrivals)|by apply release_gone]|].
  cbv beta. intros _ p1 [[H1 Ew] Hg]. eapply wp_mono; [apply IH; [apply H1|intros c' Hc'; rewrite Ew; apply Hcs; by right]|].
  cbv beta. intros _ p2 (H2 & Ew2 & Hall). split_and!; [by eapply ahead_trans|congruence|].
  intros c' [->|Hc']%elem_of_cons; [|by apply Hall]. destruct H2 as (_ & [_ Hsub] & _). by apply Hsub.
Qed.

Lemma connections_Some p c : c ∈ connections p ↔ is_Some (heap (world p) !! c).
Proof. unfold connections. rewrite elem_of_seq, lookup_lt_is_Some. lia. Qed.

Lemma recover_spec arrivals p :
  running arrivals p → short p 1 →
  wp recover (λ _ p', running arrivals p' ∧ length (heap (world p')) = length (heap (world p)) ∧ live p' = [] ∧
    ∃ s, server (world p') = Some s ∧ connections_ s = ∅) p.
Proof.
  intros Hp Hs. unfold recover. wp_go. eapply wp_mono; [by apply settle_spec|]. cbv beta. intros _ p1 [H1 Hi1]. wp_go.
  pose proof H1 as (Hp1 & _ & Hlen1).
  eapply wp_mono; [apply (ends_spec arrivals); [done|by eapply short_ahead|]|].
  { intros c [x Hx]%connections_Some. exists x. split; [done|]. by destruct (idle_connection arrivals p1 c x). }
  cbv beta. intros _ p2 [H2 Hends]. pose proof H2 as (Hp2 & _ & Hlen2). wp_go.
  eapply wp_mono; [apply (settle_spec arrivals); [done|eapply short_ahead; [exact H2|by eapply short_ahead]]|].
  cbv beta. intros _ p3 [H3 Hi3]. pose proof H3 as (Hp3 & [Hl3 _] & Hlen3). wp_go.
  pose proof Hp3 as [[(s & Hw) _ _ _] _ _].
  assert (Hdone : ∀ c x, heap (world p3) !! c = Some x → conn_phase x = Destroyed ∧ ¬ in_map s c x).
  { intros c x Hx. destruct (Hends c) as (y & Hy & Hr).
    { unfold connections. apply lookup_lt_Some in Hx. apply elem_of_seq. lia. }
    destruct (Hl3 c y Hy) as (x' & Hx' & _ & _ & Hr'). assert (x' = x) as -> by congruence.
    destruct (inv_idle Hw Hi3 Hx) as [[Hup _]|?]; [|done]. destruct (conn_phase x); cbn in *; lia || done. }
  eapply wp_mono; [apply (releases_spec arrivals); [done|]|].
  { intros c [x Hx]%connections_Some. split; [by exists x|]. eapply inv_unheld; [exact Hw|exact Hx|]. by apply (Hdone c). }
  cbv beta. intros _ p4 (H4 & Ew4 & Hall). pose proof H4 as (Hp4 & _ & Hlen4).
  split_and!; [done|congruence| |].
  - apply elem_of_nil_inv. intros fd (i & (x & _ & Hx)%list_lookup_fmap_Some & Hi)%elem_of_live_from. destruct Hi.
    apply Hall, connections_Some. rewrite <- Ew4. by exists x.
  - exists s. rewrite Ew4. split; [apply Hw|]. apply map_empty. intros k. apply eq_None_not_Some. intros [i Hi].
    destruct (inv_map _ _ _ _ _ _ _ _ Hw _ _ Hi) as (x & Hx & <-). by destruct (Hdone i x Hx).
Qed.
End running.
End recovery.

(** ** Properties *)

(** C17: the server recovers.  From every state a started server can reach: let the loops run their functors, in
    whatever order, until none is left (which takes no more steps than the work in the queues), let every
    established connection end, let the loops run again, and let the applications drop their pointers.  Nothing
    fails, the map is then empty, no connection owns a descriptor, and the process can open as many as before the
    first connection. *)
Theorem server_recovers `{Epoll} `{Descriptors} {F} loop_ ch logged getLocalAddr pick n startLoop ret listenAddr nameArg b1 b2
    (p0 : Process F) hs :
  launched loop_ ch listenAddr nameArg b1 b2 p0 → scheduler pick →
  wf_address listenAddr → 0 ≤ n < 2 ^ 31 → 2 + zlen hs < 2 ^ 63 →
  wp ((start_up loop_ ch n startLoop ret ;; happen_all loop_ logged getLocalAddr hs) ;; recover loop_ logged getLocalAddr pick)
    (λ _ p, live p = [] ∧ (∃ s, server (world p) = Some s ∧ connections_ s = ∅) ∧
       free (kernel_ p) + reserve (idleFd_ (acceptor_ p)) = spare p0) p0.
Proof.
  intros H0' Hpick Ha Hn Hs. pose proof H0' as [_ _ [Hz1 Hz2] [Hl1 Hl2] _].
  rewrite wp_bind. eapply wp_mono; [eapply reached; try done; lia|]. cbv beta. intros _ p (l & He & Hp & Hlen). eapply wp_mono.
  { eapply (recover_spec loop_ logged getLocalAddr pick n startLoop (toIpPort listenAddr) nameArg (others p0));
      [done|by apply toIpPort_length|done|done|exact Hp|]. unfold short. unfold zlen in Hs. lia. }
  cbv beta. intros _ p' ([[_ G2 _ _] _ _] & _ & Hlive & Hmap). split_and!; [done|done|].
  pose proof (owns_free _ _ _ _ _ G2) as Hf. rewrite Hlive in Hf. change (zlen (@nil Z)) with 0 in Hf. lia.
Qed.

#[local] Existing Instance process_descriptors.
#[local] Existing Instance map_epoll.

(** In the middle of it: one connection waits for its removal, one is not established, and a peer waits. *)
Definition interrupted : list happening := [Readable; Dial (peer 2); Turn 10; Ended 0%nat; Readable; Dial (peer 3)].

Lemma server_recovers_witness :
  wp (example_run_to interrupted ;; recover 1 id (λ _, example_listen) first_busy)
    (λ _ p, live p = [] ∧ (∃ s, server (world p) = Some s ∧ connections_ s = ∅) ∧
       free (kernel_ p) + reserve (idleFd_ (acceptor_ p)) = spare example_process) example_process.
Proof.
  apply (server_recovers 1 100 id (λ _, example_listen) first_busy 2 (λ i, 10 + Z.of_nat i) 0 example_listen (txt "echo") false false
           example_process interrupted).
  - exact example_launched.
  - exact first_busy_scheduler.
  - exact example_address.
  - split; [discriminate|reflexivity].
  - reflexivity.
Defined.

Example interrupted_recovered :
  report ((example_run_to interrupted ;; recover 1 id (λ _, example_listen) first_busy) example_process) =
  Some ([(5, Destroyed); (6, Destroyed)], [], 2).
Proof. vm_compute. reflexivity. Qed.
