(* ===== verification/ConnRefinement.v ===== *)
(** * ConnRefinement: a connection in its loop is one of its server's

    TcpServer keeps of a connection its phase and the three tasks that are about it; TcpConnection and
    the files after it model the connection itself.  Every run of the latter, with a server in another
    thread or in the connection's own, is matched step by step by events of the former. *)
From S2P Require Import Prelude Sockets EventLoopThread TcpServer Timestamp Buffer ByteQueue Channel EPollPoller EventLoop TcpConnection ConnInvariant ConnSafety ConnFrame ConnSimulation.

(** ** The server's side *)

Section server.
Context (tid base : Z) (getLocalAddr : Z → InetAddress) (i : TcpServer.TcpConnectionPtr).
Implicit Types (v : TcpServer.World) (k : nat).

#[local] Abbreviation handle := (TcpServer.handle base getLocalAddr).
#[local] Abbreviation handle_all := (TcpServer.handle_all base getLocalAddr).

(** The stages of ConnSimulation: queued to be established, established, told to close, closed, out of the
    server's map, destroyed. *)
Definition stage_phase k : TcpServer.phase :=
  match k with
  | 0 => Connecting | 1 => Connected | 2 => Disconnecting | 3 | 4 => Closed | _ => Destroyed
  end%nat.
Definition stage_tasks k (l : Z) : list TcpServer.task :=
  match k with
  | 0 => if decide (l = tid) then [TcpServer.ConnectEstablished i] else []
  | 3 => if decide (l = base) then [TcpServer.RemoveConnectionInLoop i] else []
  | 4 => if decide (l = tid) then [TcpServer.ConnectDestroyed i] else []
  | _ => []
  end%nat.

(** Nothing is queued that is not about this connection. *)
Definition at_stage k v : Prop :=
  ∃ s x, server v = Some s ∧ TcpServer.heap v !! i = Some x ∧ conn_loop x = tid ∧ conn_phase x = stage_phase k ∧
    (in_map s i x ↔ (k ≤ 3)%nat) ∧ ∀ l, TcpServer.queue l v = stage_tasks k l.

(** The events from one stage to a later one, in the server's own loop ([own]) or in another. *)
Definition route (own : bool) (a b : nat) : list TcpServer.event :=
  (if decide (a = 0 ∧ 0 < b)%nat then [Run tid] else []) ++
  (if decide (a ≤ 1 ∧ b = 2)%nat then [TcpServer.ForceClose i] else []) ++
  (if decide (a ≤ 2 ∧ 2 < b)%nat then [Close i] else []) ++
  (if decide (own = false ∧ a ≤ 3 ∧ 3 < b)%nat then [Run base] else []) ++
  (if decide (a ≤ 4 ∧ 4 < b)%nat then [Run tid] else []).

(** The stages there are: a server does not queue the establishment nor the removal in its own loop. *)
Definition staged (own : bool) (k : nat) : Prop := (k ≤ 5)%nat ∧ (own = true → k ≠ 0 ∧ k ≠ 3)%nat.

(** The one task of a queue is taken; a task is queued where nothing is. *)
Lemma taken a t v l :
  (∀ l, TcpServer.queue l v = if decide (l = a) then [t] else []) → TcpServer.queue l (set_queue a [] v) = [].
Proof.
  intros Hq. rewrite queue_set_queue, Hq. by destruct (decide (a = l)), (decide (l = a)).
Qed.
Lemma queued a t v l :
  (∀ l, TcpServer.queue l v = []) →
  TcpServer.queue l (set_queue a (TcpServer.queue a v ++ [t]) v) = if decide (l = a) then [t] else [].
Proof. intros Hq. rewrite queue_set_queue, !Hq. by destruct (decide (a = l)), (decide (l = a)). Qed.

Lemma step_established v : at_stage 0 v → wp (handle (Run tid)) (λ _, at_stage 1) v.
Proof.
  intros (s & x & Hs & Hx & Hl & Hp & Hm & Hq). unfold TcpServer.handle. wp_go. rewrite Hq. cbn [stage_tasks].
  rewrite decide_True by done. wp_go. cbn [run_task]. unfold TcpServer.connectEstablished, TcpServer.update_conn. wp_go.
  eapply server_conn_spec; [exact Hx|]. wp_go. apply server_thread_spec; [by symmetry|]. wp_go.
  apply wp_assert; [by apply bool_decide_eq_true|]. wp_go. exists s, (TcpServer.set_phase Connected x).
  split_and!; [done|cbn; by rewrite list_lookup_alter_eq, Hx|done|done|split; [lia|intros _; apply Hm; lia]|].
  intros l. by apply (taken tid (TcpServer.ConnectEstablished i) v l).
Qed.

Lemma step_forceClose v : at_stage 1 v → wp (handle (TcpServer.ForceClose i)) (λ _, at_stage 2) v.
Proof.
  intros (s & x & Hs & Hx & Hl & Hp & Hm & Hq). unfold TcpServer.handle. wp_go. rewrite Hx, Hp. cbn. unfold TcpServer.update_conn. wp_go.
  exists s, (TcpServer.set_phase Disconnecting x).
  split_and!; [done|cbn; by rewrite list_lookup_alter_eq, Hx|done|done|split; [lia|intros _; apply Hm; lia]|done].
Qed.

Lemma step_close k v :
  (k = 1 ∨ k = 2)%nat → at_stage k v → wp (handle (Close i)) (λ _, at_stage (if decide (base = tid) then 4 else 3)) v.
Proof.
  intros Hk (s & x & Hs & Hx & Hl & Hp & Hm & Hq). unfold TcpServer.handle. wp_go. rewrite Hx, Hp.
  assert (is_up (stage_phase k) = true) as -> by (by destruct Hk as [->| ->]).
  assert (Hnone : ∀ l, TcpServer.queue l v = []) by (intros l; rewrite Hq; by destruct Hk as [->| ->]).
  assert (Hreg : in_map s i x) by (apply Hm; lia). wp_go.
  unfold TcpServer.handleClose, TcpServer.removeConnection, TcpServer.update_conn. wp_go. eapply server_this_spec; [exact Hs|].
  unfold TcpServer.runInLoop, TcpServer.isInLoopThread. wp_go. cbn [thread TcpServer.set_heap TcpServer.set_thread].
  rewrite Hl. destruct (decide (base = tid)) as [Hb|Hb].
  - rewrite Hb, Z.eqb_refl. cbn [run_task]. unfold TcpServer.removeConnectionInLoop. wp_go.
    apply server_thread_spec; [done|]. wp_go. eapply server_this_spec; [exact Hs|]. wp_go.
    eapply (server_conn_spec _ _ (TcpServer.set_phase Closed x)); [cbn; by rewrite list_lookup_alter_eq, Hx|].
    wp_go. eapply update_this_spec; [exact Hs|]. wp_go.
    apply wp_assert; [apply bool_decide_eq_true; by exists i|]. wp_go. unfold TcpServer.queueInLoop. wp_go.
    exists (set_connections (delete (conn_name x) (connections_ s)) s), (TcpServer.set_phase Closed x).
    split_and!; [done|cbn; by rewrite list_lookup_alter_eq, Hx|done|done| |].
    { split; [|lia]. unfold in_map. cbn. by rewrite lookup_delete_eq. }
    intros l. cbn [conn_loop TcpServer.set_phase]. rewrite Hl. by apply (queued tid (TcpServer.ConnectDestroyed i) v l).
  - rewrite (proj2 (Z.eqb_neq _ _)) by done. unfold TcpServer.queueInLoop. wp_go. exists s, (TcpServer.set_phase Closed x).
    split_and!; [done|cbn; by rewrite list_lookup_alter_eq, Hx|done|done|by split; [lia|]|].
    intros l. by apply (queued base (TcpServer.RemoveConnectionInLoop i) v l).
Qed.

Lemma step_removed v : at_stage 3 v → wp (handle (Run base)) (λ _, at_stage 4) v.
Proof.
  intros (s & x & Hs & Hx & Hl & Hp & Hm & Hq). unfold TcpServer.handle. wp_go. rewrite Hq. cbn [stage_tasks].
  rewrite decide_True by done. wp_go. cbn [run_task]. unfold TcpServer.removeConnectionInLoop. wp_go.
  apply server_thread_spec; [done|]. wp_go. eapply server_this_spec; [exact Hs|]. wp_go. eapply server_conn_spec; [exact Hx|].
  wp_go. eapply update_this_spec; [exact Hs|]. wp_go.
  assert (Hreg : in_map s i x) by (apply Hm; lia). apply wp_assert; [apply bool_decide_eq_true; by exists i|]. wp_go.
  unfold TcpServer.queueInLoop. wp_go. exists (set_connections (delete (conn_name x) (connections_ s)) s), x.
  split_and!; [done|exact Hx|done|done| |].
  { split; [|lia]. unfold in_map. cbn. by rewrite lookup_delete_eq. }
  intros l. rewrite Hl. apply (queued tid (TcpServer.ConnectDestroyed i) (set_queue base [] v) l).
  intros l'. by apply (taken base (TcpServer.RemoveConnectionInLoop i)).
Qed.

Lemma step_destroyed v : at_stage 4 v → wp (handle (Run tid)) (λ _, at_stage 5) v.
Proof.
  intros (s & x & Hs & Hx & Hl & Hp & Hm & Hq). unfold TcpServer.handle. wp_go. rewrite Hq. cbn [stage_tasks].
  rewrite decide_True by done. wp_go. cbn [run_task]. unfold TcpServer.connectDestroyed, TcpServer.update_conn. wp_go.
  eapply server_conn_spec; [exact Hx|]. wp_go. apply server_thread_spec; [by symmetry|]. wp_go.
  apply wp_assert; [apply bool_decide_eq_true; by right|]. wp_go. exists s, (TcpServer.set_phase Destroyed x).
  split_and!; [done|cbn; by rewrite list_lookup_alter_eq, Hx|done|done|split; [intros ?%Hm; lia|lia]|].
  intros l. by apply (taken tid (TcpServer.ConnectDestroyed i) v l).
Qed.

Lemma handle_cons e es (R1 R : TcpServer.World → Prop) v :
  wp (handle e) (λ _, R1) v → (∀ v', R1 v' → wp (handle_all es) (λ _, R) v') → wp (handle_all (e :: es)) (λ _, R) v.
Proof. intros He Hes. unfold TcpServer.handle_all. cbn [for_each]. rewrite wp_bind. eapply wp_mono; [exact He|]. intros [] v'. apply Hes. Qed.

(** The server's model can follow a connection from stage to stage. *)
Lemma route_ok own a b v :
  own = bool_decide (base = tid) → (a ≤ b)%nat → staged own a → staged own b →
  at_stage a v → wp (handle_all (route own a b)) (λ _, at_stage b) v.
Proof.
  intros Hown Hab [Ha Ha'] [Hb Hb']. revert v.
  assert (Hclose : ∀ k v, (k = 1 ∨ k = 2)%nat → at_stage k v → wp (handle (Close i)) (λ _, at_stage (if own then 4 else 3)) v).
  { intros k v Hk Hv. pose proof (step_close k v Hk Hv) as Hc. subst own. by case_bool_decide; case_decide. }
  clear Hown. destruct own.
  all: destruct a as [|[|[|[|[|[|a]]]]]], b as [|[|[|[|[|[|b]]]]]]; try lia; clear Hab Ha Ha' Hb Hb'.
  all: match goal with |- context [route ?o ?a ?b] => let r := eval vm_compute in (route o a b) in change (route o a b) with r end.
  all: intros v Hv; repeat match goal with
    | Hv : at_stage 0 _ |- _ => eapply handle_cons; [by apply step_established|clear v Hv; intros v Hv]
    | Hv : at_stage 1 _ |- wp (handle_all (TcpServer.ForceClose i :: _)) _ _ => eapply handle_cons; [by apply step_forceClose|clear v Hv; intros v Hv]
    | Hv : at_stage ?k _ |- wp (handle_all (Close i :: _)) _ _ => eapply handle_cons; [apply (Hclose k); [auto|done]|cbv iota; clear v Hv; intros v Hv]
    | Hv : at_stage 3 _ |- _ => eapply handle_cons; [by apply step_removed|clear v Hv; intros v Hv]
    | Hv : at_stage 4 _ |- _ => eapply handle_cons; [by apply step_destroyed|clear v Hv; intros v Hv]
    end; try done.
Qed.

(** *** The events that match a step *)

Definition matched (own : bool) (s : step) (es : list TcpServer.event) : Prop :=
  match s with
  | Poll _ _ =>
      es `sublist_of` (if own then [TcpServer.ForceClose i; Close i; Run tid] else [Run tid; TcpServer.ForceClose i; Close i])
  | MainRemove => es `sublist_of` [Run base]
  | OtherForceClose => es `sublist_of` [TcpServer.ForceClose i]
  | OtherSend _ | OtherDrop => es = []
  end.

Lemma route_same own a : (a ≤ 5)%nat → route own a a = [].
Proof. intros Ha. by destruct own, a as [|[|[|[|[|[|a]]]]]]; try lia. Qed.

Definition owner_of (own : bool) : owner := if own then ServerInLoop else ServerOtherLoop.

Lemma advances_matched `{Epoll} {Q : Type} `{!ByteQueue Q} own s (w w' : World Q) :
  staged own (stage w) → staged own (stage w') → advances (owner_of own) s w w' →
  (stage w ≤ stage w')%nat ∧ matched own s (route own (stage w) (stage w')).
Proof.
  unfold advances. generalize (stage w) (stage w'). intros a b [Ha Ha'] [Hb Hb'] Hadv.
  assert (Hcan : (b = a ∨ (own = false ∧ a = 3 ∧ b = 4))%nat → s = MainRemove → (a ≤ b)%nat ∧ matched own s (route own a b)).
  { intros [->|(-> & -> & ->)] ->; (split; [lia|]); [rewrite route_same by done; apply sublist_nil_l|cbn; reflexivity]. }
  destruct s as [m| | | |r t]; cbn [matched].
  - destruct Hadv as [-> _]. split; [done|by apply route_same].
  - destruct Hadv as [[->| [-> ->]] _]; (split; [lia|]); [rewrite route_same by done; apply sublist_nil_l|by destruct own].
  - destruct Hadv as [-> _]. split; [done|by apply route_same].
  - apply Hcan; [|done]. destruct Hadv as [[?|(Ho & ? & ?)] _]; [by left|right]. by destruct own.
  - destruct Hadv as (Hab & Hother & _). split; [done|]. destruct own; [|specialize (Hother eq_refl)].
    all: destruct a as [|[|[|[|[|[|a]]]]]], b as [|[|[|[|[|[|b]]]]]]; try lia.
    all: match goal with |- route ?o ?a ?b `sublist_of` _ =>
      let r := eval vm_compute in (route o a b) in change (route o a b) with r end.
    all: repeat first [apply sublist_nil_l | apply sublist_skip | apply sublist_cons].
Qed.
End server.

(** ** The server's new connection *)

(** A server with nothing left to do accepts a connection: it queues the establishment in another loop and
    establishes the connection at once in its own. *)
Definition accepted_stage (tid base : Z) : nat := if decide (base = tid) then 1 else 0.

Lemma accept_starts base getLocalAddr n startLoop listenAddr nameArg s v fd peer :
  wf_address listenAddr → 0 ≤ n < 2 ^ 31 →
  TcpServer.inv base n startLoop (toIpPort listenAddr) nameArg None s v → 2 + Z.of_nat (length (TcpServer.heap v)) < 2 ^ 63 →
  TcpServer.idle v →
  let tid := loop_for base n startLoop (length (TcpServer.heap v)) in
  wp (TcpServer.handle base getLocalAddr (Accept fd peer))
    (λ _, at_stage tid base (length (TcpServer.heap v)) (accepted_stage tid base)) v.
Proof.
  intros Ha%toIpPort_length Hn Hv Hb Hidle tid.
  unfold TcpServer.handle, TcpServer.newConnection, TcpServer.isInLoopThread. wp_go. apply server_thread_spec; [done|]. wp_go.
  cbn [thread TcpServer.set_thread]. rewrite Z.eqb_refl. eapply on_pool_spec; [apply Hv|].
  eapply wp_mono; [apply (getNextLoop_at base n startLoop Hn), Hv|]. cbv beta. intros l p [-> _]. wp_go.
  eapply server_this_spec; [done|]. wp_go. eapply update_this_spec; [done|]. wp_go.
  eapply update_this_spec; [done|]. wp_go. unfold TcpServer.runInLoop, TcpServer.isInLoopThread. wp_go.
  change (TcpServer.heap (TcpServer.set_thread base v)) with (TcpServer.heap v). fold tid.
  lazymatch goal with |- context [thread ?a =? tid] => change (thread a) with base end.
  set (nm := connectionName _ _). set (x := TcpServer.mkConn nm tid fd (getLocalAddr fd) peer Connecting).
  assert (Hx : (TcpServer.heap v ++ [x]) !! length (TcpServer.heap v) = Some x) by (rewrite lookup_app_r, Nat.sub_diag by lia; done).
  unfold accepted_stage. destruct (decide (base = tid)) as [Eb|Eb].
  - rewrite (proj2 (Z.eqb_eq _ _) Eb). cbn [run_task]. unfold TcpServer.connectEstablished, TcpServer.update_conn. wp_go.
    eapply server_conn_spec; [exact Hx|]. wp_go. apply server_thread_spec; [exact Eb|]. wp_go.
    apply wp_assert; [by apply bool_decide_eq_true|]. wp_go. eexists _, (TcpServer.set_phase Connected x).
    split_and!; [reflexivity|cbn; by rewrite list_lookup_alter_eq, Hx|done|done| |exact Hidle].
    split; [lia|]. intros _. unfold in_map. cbn. apply lookup_insert_eq.
  - rewrite (proj2 (Z.eqb_neq _ _)) by done. unfold TcpServer.queueInLoop. wp_go.
    eexists _, x. split_and!; [reflexivity|exact Hx|done|done| |].
    + split; [lia|]. intros _. unfold in_map. cbn. apply lookup_insert_eq.
    + intros l'. apply (queued tid (TcpServer.ConnectEstablished (length (TcpServer.heap v))) v l'). exact Hidle.
Qed.

(** C19: a connection is what its server takes it for, whether the server is in another thread or in the
    connection's own.  For every run in the [setting] of ConnSafety.v that returns: whatever the kernel answers, whatever the callbacks do and however the iterations of the
    connection's loop, the calls of another thread and the removal by the server interleave: each step is matched by
    events of the server's model (an iteration by running the connection's tasks, a forced close and a close; a removal
    by the base loop's task; a [forceClose] by itself), the server's model runs them without a failed assertion, and at
    the end its record of the connection has the state, the tasks and the place in the map that the connection itself
    has.  A connection in the server's own loop may be told to close by its own connection callback first. *)
Theorem connection_refines_server `{Epoll} {Q : Type} `{!ByteQueue Q} ch tid other base fd cbs holds ws rs steps (w : World Q)
    getLocalAddr i v :
  let own := bool_decide (base = tid) in
  setting tid other fd cbs holds rs steps → TcpConnection.closeCallback_ cbs = Some (owner_of own) →
  at_stage tid base i (accepted_stage tid base) v →
  run ch tid other fd cbs steps (world_init ch tid fd holds ws rs) = Ok (tt, w) →
  ∃ es ess, es `sublist_of` (if own then [TcpServer.ForceClose i] else []) ∧ Forall2 (matched tid base i own) steps ess ∧
    wp (TcpServer.handle_all base getLocalAddr (es ++ concat ess)) (λ _, at_stage tid base i (stage w)) v.
Proof.
  intros own Hset Howner Hv Hrun.
  destruct (simulation ch tid other fd cbs (owner_of own) holds ws rs steps w (TcpServer.handle base getLocalAddr)
    (matched tid base i own) (λ w v, staged own (stage w) ∧ at_stage tid base i (stage w) v)
    (λ es, es `sublist_of` (if own then [TcpServer.ForceClose i] else [])) v) as (es & ess & Hes & Hess & Hplay); try done.
  - intros mn s it it' w1 w2 v1 Hw1 Hk1 Hw2 Hk2 Hadv [Hs1 Hv1].
    assert (Hs2 : staged own (stage w2)).
    { split; [apply stage_le|]. intros Hown. pose proof (settled_stage ch tid fd cbs _ _ _ Howner it' w2 Hw2 Hk2) as H3.
      rewrite Hown in H3. split; [|exact H3]. destruct Hs1 as [_ Hs1]. specialize (Hs1 Hown). unfold advances in Hadv.
      destruct s; lia. }
    destruct (advances_matched tid base i own s w1 w2 Hs1 Hs2 Hadv) as [Hle Hm]. eexists. split; [exact Hm|].
    eapply wp_mono; [by eapply route_ok|]. cbv beta. intros _ v2 Hv2. by split.
  - intros _ w0 _ _ [_ He]. unfold own, accepted_stage in *.
    destruct (decide (base = tid)) as [E|E]; [rewrite (bool_decide_eq_true_2 _ E) in *|rewrite (bool_decide_eq_false_2 _ E) in *].
    + destruct He as [He|He]; rewrite He; [exists []|exists [TcpServer.ForceClose i]]; (split; [by repeat constructor|]).
      * cbn [for_each]. rewrite wp_ret. split; [split; lia|done].
      * eapply wp_mono; [by apply (handle_cons _ _ _ _ (at_stage tid base i 2) (at_stage tid base i 2)); [apply step_forceClose|]|].
        cbv beta. intros _ v' Hv'. split; [split; lia|done].
    + rewrite He. exists []. split; [done|]. cbn [for_each]. rewrite wp_ret. split; [split; [lia|done]|done].
  - exists es, ess. split_and!; [done|done|]. eapply wp_mono; [exact Hplay|]. by cbv beta; intros _ v' [_ ?].
Qed.

(** ** An example *)

#[local] Existing Instance map_epoll.

(** A server with two threads, that accepts its first connection for the loop 10. *)
Definition booted : TcpServer.World :=
  match example_boot example_server with Ok (_, v) => v | Fault _ => example_server end.
Definition accepting : TcpServer.World :=
  match TcpServer.handle 1 (λ _, example_listen) (Accept 7 example_peer) booted with Ok (_, v) => v | Fault _ => booted end.

Lemma accepting_at_stage : at_stage 10 1 0 0 accepting.
Proof.
  assert (Ha : wf_address example_listen) by (unfold wf_address; cbn; repeat constructor; discriminate).
  assert (Hrun : (example_boot ;; TcpServer.handle_all 1 (λ _, example_listen) []) example_server = Ok (tt, booted)) by (vm_compute; reflexivity).
  pose proof (run_inv 1 (λ _, example_listen) 2 (λ i, 10 + Z.of_nat i) example_listen (txt "echo") false false [] Ha
    (ltac:(done)) (ltac:(done))) as Hinv.
  unfold wpf in Hinv. unfold example_boot, example_server in Hrun. rewrite Hrun in Hinv. destruct Hinv as (s & Hinv & _).
  assert (Hidle : TcpServer.idle booted) by (intros l; vm_compute; by destruct l as [|[]|[]]).
  pose proof (accept_starts 1 (λ _, example_listen) 2 (λ i, 10 + Z.of_nat i) example_listen (txt "echo") s booted 7 example_peer
    Ha (ltac:(done)) Hinv (ltac:(vm_compute; done)) Hidle) as Hst.
  assert (Hacc : TcpServer.handle 1 (λ _, example_listen) (Accept 7 example_peer) booted = Ok (tt, accepting)) by (vm_compute; reflexivity).
  unfold wpf in Hst. rewrite Hacc in Hst. exact Hst.
Qed.

(** It sends, is closed by its peer and removed, and destroyed. *)
Definition life_steps : list step := [Poll 0 1; Poll 4 2; Poll 1 3; OtherForceClose; Poll 1 4; MainRemove; Poll 0 5].
Definition life_world : World Buffer :=
  match run 100 10 1 7 example_callbacks life_steps (world_init 100 10 7 false example_writes example_reads) with
  | Ok (_, w) => w
  | Fault _ => world_init 100 10 7 false [] []
  end.

Lemma connection_refines_server_witness :
  ∃ es ess, es `sublist_of` [] ∧ Forall2 (matched 10 1 0 false) life_steps ess ∧
    wp (TcpServer.handle_all 1 (λ _, example_listen) (es ++ concat ess)) (λ _, at_stage 10 1 0 (stage life_world)) accepting.
Proof.
  apply (connection_refines_server 100 10 1 1 7 example_callbacks false example_writes example_reads life_steps).
  - split; [done|exact (example_callbacks_ok _ _ _)|exact I|exact example_kernel| |reflexivity].
    repeat constructor; done.
  - reflexivity.
  - exact accepting_at_stage.
  - vm_compute. reflexivity.
Defined.

Example life_stage : stage life_world = 5%nat.
Proof. vm_compute. reflexivity. Qed.

(** A server without threads: the connection is in its loop, and gone from the map as soon as it is closed. *)
Example own_life :
  match run 100 1 2 7 (owned_callbacks ServerInLoop) [Poll 0 1; Poll 4 2; Poll 1 3; Poll 1 4; Poll 0 5]
          (world_init (Q := Buffer) 100 1 7 false example_writes example_reads) with
  | Ok (_, w) => (stage w, freed_ (env_ w))
  | Fault _ => (0%nat, false)
  end = (5%nat, true).
Proof. vm_compute. reflexivity. Qed.
