(* ===== verification/TcpClient.v ===== *)
(** * TcpClient: [net::TcpClient] (net/Tcp)

    The attempts to connect, what becomes of each attempt's descriptor, and the one
    connection of a client with the references that keep it alive. *)
From S2P Require Import Prelude Sockets TcpServer.

(** ** Data *)

Definition EACCES : Z := 13.
Definition EADDRINUSE : Z := 98.
Definition EADDRNOTAVAIL : Z := 99.
Definition ENETUNREACH : Z := 101.
Definition EISCONN : Z := 106.
Definition ETIMEDOUT : Z := 110.
Definition ECONNREFUSED : Z := 111.

Inductive task : Type :=
| NewConnection (sockfd : Z)
| ForceCloseInLoop (c : TcpConnectionPtr).

#[export] Instance task_eq_dec : EqDecision task.
Proof. solve_decision. Defined.

Record TcpClient : Type := mkClient {
  name_ : list byte;
  connection_ : option TcpConnectionPtr
}.

(** The client, its connections (an entry is [None] once the object is destroyed), the
    references the program holds, the descriptors the client's code opened and did not
    close, the loop's functors and its timers that call [retryInLoop]. *)
Record World : Type := mkWorld {
  in_loop : bool;
  client : option TcpClient;
  heap : list (option TcpConnection);
  held : list TcpConnectionPtr;
  fds : list Z;
  pendingFunctors : list task;
  timers : nat
}.

Definition set_in_loop b w := mkWorld b (client w) (heap w) (held w) (fds w) (pendingFunctors w) (timers w).
Definition set_client c w := mkWorld (in_loop w) c (heap w) (held w) (fds w) (pendingFunctors w) (timers w).
Definition set_heap h w := mkWorld (in_loop w) (client w) h (held w) (fds w) (pendingFunctors w) (timers w).
Definition set_held l w := mkWorld (in_loop w) (client w) (heap w) l (fds w) (pendingFunctors w) (timers w).
Definition set_fds l w := mkWorld (in_loop w) (client w) (heap w) (held w) l (pendingFunctors w) (timers w).
Definition set_pending q w := mkWorld (in_loop w) (client w) (heap w) (held w) (fds w) q (timers w).
Definition set_timers n w := mkWorld (in_loop w) (client w) (heap w) (held w) (fds w) (pendingFunctors w) n.

(** What the kernel gives an attempt: the results of [socket] and [connect], and [errno] before and after
    the failure is logged. *)
Record attempt : Type := mkAttempt { a_fd : Z; a_ret : Z; a_err : Z; a_logged : Z }.

(** [int errn = res == 0 ? 0 : errno;] *)
Definition a_errno (a : attempt) : Z :=
  let '(res, errno) := sockets_connect (a_ret a) (a_err a) (a_logged a) in if res =? 0 then 0 else errno.

Fixpoint remove_one (c : TcpConnectionPtr) (l : list TcpConnectionPtr) : list TcpConnectionPtr :=
  match l with [] => [] | x :: l => if decide (x = c) then l else x :: remove_one c l end.

Section client.
Context (getLocalAddr getPeerAddr : Z → InetAddress).

Definition this : prog World TcpClient := λ w,
  match client w with Some c => Ok (c, w) | None => Fault UndefinedBehaviour end.
Definition conn (c : TcpConnectionPtr) : prog World TcpConnection := λ w,
  match heap w !! c with Some (Some x) => Ok (x, w) | _ => Fault UndefinedBehaviour end.
Definition update_conn (c : TcpConnectionPtr) (x : option TcpConnection) : prog World () :=
  modify (λ w, set_heap (<[c := x]> (heap w)) w).
Definition set_connection (c : option TcpConnectionPtr) : prog World () :=
  t ← this; modify (set_client (Some (mkClient (name_ t) c))).

Definition assertInLoopThread : prog World () := b ← gets in_loop; assert! b.

(** [socket] and [close] *)
Definition open_fd (fd : Z) : prog World () := modify (λ w, set_fds (fd :: fds w) w).
Definition close_fd (fd : Z) : prog World () :=
  when_ (0 <? fd) (modify (λ w, set_fds (filter (λ x, x ≠ fd) (fds w)) w)).

(** *** References *)

Definition referenced (c : TcpConnectionPtr) (w : World) : bool :=
  bool_decide (connection_ <$> client w = Some (Some c) ∨ c ∈ held w ∨ ForceCloseInLoop c ∈ pendingFunctors w).

(** ~TcpConnection, with its ~Socket. *)
Definition TcpConnection_dtor (c : TcpConnectionPtr) : prog World () :=
  x ← conn c;
  assert! (bool_decide (conn_phase x = Closed ∨ conn_phase x = Destroyed)) ;;
  close_fd (conn_fd x) ;;
  update_conn c None.

(** A [TcpConnectionPtr] goes away. *)
Definition release (c : TcpConnectionPtr) : prog World () :=
  w ← get; when_ (negb (referenced c w)) (TcpConnection_dtor c).

(** *** The client *)

Definition connectEstablished (c : TcpConnectionPtr) : prog World () :=
  assertInLoopThread ;;
  x ← conn c;
  assert! (bool_decide (conn_phase x = Connecting)) ;;
  update_conn c (Some (set_phase Connected x)).

Definition connectDestroyed (c : TcpConnectionPtr) : prog World () :=
  assertInLoopThread ;;
  x ← conn c;
  assert! (bool_decide (conn_phase x = Connected ∨ conn_phase x = Closed)) ;;
  update_conn c (Some (set_phase Destroyed x)).

Definition newConnection (sockfd : Z) : prog World () :=
  assertInLoopThread ;;
  t ← this;
  c ← gets (λ w, length (heap w));
  modify (λ w, set_heap (heap w ++ [Some (mkConn (name_ t) 0 sockfd (getLocalAddr sockfd) (getPeerAddr sockfd) Connecting)]) w) ;;
  set_connection (Some c) ;;
  match connection_ t with Some old => release old | None => mret tt end ;;
  connectEstablished c.

Definition runInLoop_newConnection (fd : Z) : prog World () :=
  w ← get;
  if in_loop w then newConnection fd
  else modify (λ w, set_pending (pendingFunctors w ++ [NewConnection fd]) w).

Definition retry (sockfd : Z) : prog World () :=
  close_fd sockfd ;;
  modify (λ w, set_timers (S (timers w)) w).

(** The errors after which the descriptor is used, and after which it is tried again. *)
Definition usable (e : Z) : bool := (e =? EISCONN) || (e =? EINPROGRESS) || (e =? EINTR) || (e =? 0).
Definition retried (e : Z) : bool :=
  (e =? EAGAIN) || (e =? EADDRINUSE) || (e =? EADDRNOTAVAIL) || (e =? ECONNREFUSED) || (e =? ENETUNREACH) || (e =? ETIMEDOUT).

Definition connect (a : attempt) : prog World () :=
  _ ← this;
  fd ← lift (createBlockingSocket (a_fd a));
  open_fd fd ;;
  if usable (a_errno a) then runInLoop_newConnection fd
  else if retried (a_errno a) then retry fd
  else raise ProcessAborted.

Definition retryInLoop (a : attempt) : prog World () := connect a.

Definition removeConnection (c : TcpConnectionPtr) : prog World () :=
  assertInLoopThread ;;
  set_connection None ;;
  connectDestroyed c.

(** [TcpConnection::handleClose], which holds a reference of its own. *)
Definition handleClose (c : TcpConnectionPtr) : prog World () :=
  x ← conn c;
  update_conn c (Some (set_phase Closed x)) ;;
  removeConnection c ;;
  release c.

(** [TcpConnection::forceClose] and [forceCloseInLoop] *)
Definition forceClose (c : TcpConnectionPtr) : prog World () :=
  x ← conn c;
  when_ (is_up (conn_phase x))
    (update_conn c (Some (set_phase Disconnecting x)) ;;
     modify (λ w, set_pending (pendingFunctors w ++ [ForceCloseInLoop c]) w)).
Definition forceCloseInLoop (c : TcpConnectionPtr) : prog World () :=
  assertInLoopThread ;;
  x ← conn c;
  if is_up (conn_phase x) then handleClose c else release c.

(** [connection()], which returns once there is a connection: the program then holds a reference. *)
Definition connection : prog World () :=
  t ← this;
  match connection_ t with Some c => modify (λ w, set_held (c :: held w) w) | None => mret tt end.

Definition TcpClient_dtor : prog World () :=
  t ← this;
  match connection_ t with Some c => forceClose c | None => mret tt end ;;
  modify (set_client None) ;;
  match connection_ t with Some c => release c | None => mret tt end.

(** *** What can happen next *)

Inductive event : Type :=
| Connect (a : attempt)                  (** the program calls [connect] in its own thread *)
| Timer (a : attempt)                    (** a timer calls [retryInLoop] *)
| Run                                    (** the loop calls its next functor *)
| Close (c : TcpConnectionPtr)           (** an established connection ends *)
| Connection                             (** [connection()] gives the program the connection *)
| Drop (c : TcpConnectionPtr)            (** the program gives it up *)
| ForceClose (c : TcpConnectionPtr)      (** the program calls [forceClose] on one it holds *)
| Destroy.                               (** [~TcpClient] *)

Definition handle (e : event) : prog World () :=
  w ← get;
  match e with
  | Connect a => modify (set_in_loop false) ;; connect a
  | Timer a =>
      match timers w with
      | O => mret tt
      | S k => modify (set_in_loop true) ;; modify (set_timers k) ;; retryInLoop a
      end
  | Run =>
      match pendingFunctors w with
      | [] => mret tt
      | t :: q =>
          modify (set_in_loop true) ;; modify (set_pending q) ;;
          match t with NewConnection fd => newConnection fd | ForceCloseInLoop c => forceCloseInLoop c end
      end
  | Close c =>
      match heap w !! c with
      | Some (Some x) => when_ (is_up (conn_phase x)) (modify (set_in_loop true) ;; handleClose c)
      | _ => mret tt
      end
  | Connection => connection
  | Drop c =>
      when_ (bool_decide (c ∈ held w)) (modify (λ w, set_held (remove_one c (held w)) w) ;; release c)
  | ForceClose c => when_ (bool_decide (c ∈ held w)) (forceClose c)
  | Destroy => modify (set_in_loop false) ;; TcpClient_dtor
  end.

Definition handle_all (es : list event) : prog World () := for_each handle es.
End client.

Definition World_init (name : list byte) : World := mkWorld false (Some (mkClient name None)) [] [] [] [] 0.

(** ** The life of a client *)

Section lifecycle.
Context (getLocalAddr getPeerAddr : Z → InetAddress) (nm : list byte).
Implicit Types (w : World) (a : attempt) (x : TcpConnection).

(** An attempt after which the process goes on. *)
Definition survivable a : bool := (0 <=? a_fd a) && (usable (a_errno a) || retried (a_errno a)).

(** Where a client is that was told to connect once; [h] references are held by the program and [k]
    by functors that are to force the end. *)
Inductive stage : World → Prop :=
| waiting_to_retry b : stage (mkWorld b (Some (mkClient nm None)) [] [] [] [] 1)
| handing_over b fd : 0 < fd → stage (mkWorld b (Some (mkClient nm None)) [] [] [fd] [NewConnection fd] 0)
| connected b x h k : 0 < conn_fd x → is_up (conn_phase x) = true →
    stage (mkWorld b (Some (mkClient nm (Some 0%nat))) [Some x] (replicate h 0%nat) [conn_fd x]
             (replicate k (ForceCloseInLoop 0)) 0)
| over b x h k : 0 < conn_fd x → conn_phase x = Destroyed → (0 < h + k)%nat →
    stage (mkWorld b (Some (mkClient nm None)) [Some x] (replicate h 0%nat) [conn_fd x]
             (replicate k (ForceCloseInLoop 0)) 0)
| freed b : stage (mkWorld b (Some (mkClient nm None)) [None] [] [] [] 0).

Lemma client_conn_spec {E} (Q : TcpConnection → World → Prop) c x w :
  heap w !! c = Some (Some x) → Q x w → wpf E (conn c) Q w.
Proof. intros Hx HQ. unfold wpf, conn. by rewrite Hx. Qed.

Lemma client_this_spec {E} (Q : TcpClient → World → Prop) t w : client w = Some t → Q t w → wpf E this Q w.
Proof. intros Ht HQ. unfold wpf, this. by rewrite Ht. Qed.

Lemma set_connection_spec {E} (Q : () → World → Prop) c t w :
  client w = Some t → Q tt (set_client (Some (mkClient (name_ t) c)) w) → wpf E (set_connection c) Q w.
Proof. intros Ht HQ. unfold set_connection. wp_go. eapply client_this_spec; [done|]. by wp_go. Qed.

Lemma client_thread_spec {E} (Q : () → World → Prop) w : in_loop w = true → Q tt w → wpf E assertInLoopThread Q w.
Proof. intros Hl HQ. unfold assertInLoopThread. wp_go. by apply wp_assert. Qed.

Lemma referenced_replicate b h k c l n fs :
  referenced 0 (mkWorld b (Some (mkClient nm c)) l (replicate h 0%nat) fs (replicate k (ForceCloseInLoop 0)) n) =
  bool_decide (c = Some 0%nat ∨ (0 < h + k)%nat).
Proof.
  apply bool_decide_ext. cbn. rewrite !elem_of_replicate. split.
  - intros [[= ->]|[[_ ?]|[_ ?]]]; [by left|right; lia|right; lia].
  - intros [->|?]; [by left|right]. destruct h; [right; split; [done|lia]|left; split; [done|lia]].
Qed.

(** An ended connection stays as long as something refers to it. *)
Lemma release_ended {E} b x h k :
  0 < conn_fd x → conn_phase x = Destroyed →
  wpf E (release 0) (λ _, stage)
    (mkWorld b (Some (mkClient nm None)) [Some x] (replicate h 0%nat) [conn_fd x] (replicate k (ForceCloseInLoop 0)) 0).
Proof.
  intros Hfd Hp. unfold release. wp_go. rewrite referenced_replicate. case_bool_decide as Hr; cbn [negb].
  - destruct Hr as [?|?]; [done|]. by apply over.
  - assert (h = 0%nat ∧ k = 0%nat) as [-> ->] by (split; apply Nat.le_0_r; lia).
    unfold TcpConnection_dtor, close_fd, update_conn. wp_go. eapply client_conn_spec; [done|]. wp_go.
    apply wp_assert; [apply bool_decide_true; by right|]. wp_go. rewrite (proj2 (Z.ltb_lt 0 _)) by done. wp_go. cbn.
    rewrite decide_False by tauto. apply freed.
Qed.

(** The end of the connection. *)
Lemma handleClose_stage {E} x h k :
  0 < conn_fd x → is_up (conn_phase x) = true →
  wpf E (handleClose 0) (λ _, stage)
    (mkWorld true (Some (mkClient nm (Some 0%nat))) [Some x] (replicate h 0%nat) [conn_fd x] (replicate k (ForceCloseInLoop 0)) 0).
Proof.
  intros Hfd Hp. unfold handleClose, removeConnection, connectDestroyed, update_conn. wp_go.
  eapply client_conn_spec; [done|]. wp_go. apply client_thread_spec; [done|]. wp_go.
  eapply set_connection_spec; [done|]. wp_go. apply client_thread_spec; [done|]. wp_go.
  eapply client_conn_spec; [done|]. wp_go. apply wp_assert; [apply bool_decide_true; by right|]. wp_go.
  by apply (release_ended true (set_phase Destroyed (set_phase Closed x)) h k).
Qed.

Lemma forceCloseInLoop_stage {E} x h k :
  0 < conn_fd x → is_up (conn_phase x) = true →
  wpf E (forceCloseInLoop 0) (λ _, stage)
    (mkWorld true (Some (mkClient nm (Some 0%nat))) [Some x] (replicate h 0%nat) [conn_fd x] (replicate k (ForceCloseInLoop 0)) 0).
Proof.
  intros Hfd Hp. unfold forceCloseInLoop. wp_go. apply client_thread_spec; [done|]. wp_go.
  eapply client_conn_spec; [done|]. rewrite Hp. by apply handleClose_stage.
Qed.

Lemma newConnection_stage {E} fd :
  0 < fd →
  wpf E (newConnection getLocalAddr getPeerAddr fd) (λ _, stage) (mkWorld true (Some (mkClient nm None)) [] [] [fd] [] 0).
Proof.
  intros Hfd. unfold newConnection, connectEstablished, update_conn. wp_go. apply client_thread_spec; [done|]. wp_go.
  eapply client_this_spec; [done|]. wp_go. eapply set_connection_spec; [done|]. cbn [connection_]. wp_go.
  apply client_thread_spec; [done|]. wp_go. eapply client_conn_spec; [done|]. wp_go.
  apply wp_assert; [by apply bool_decide_true|]. wp_go.
  by apply (connected true (mkConn nm 0 fd (getLocalAddr fd) (getPeerAddr fd) Connected) 0 0).
Qed.

(** The attempts that may end the process. *)
Definition aborts (es : list attempt) (f : fault) : Prop :=
  f = ProcessAborted ∧ ∃ a, a ∈ es ∧ survivable a = false.

Lemma connect_stage a es b :
  a ∈ es → a_fd a ≠ 0 →
  wpf (aborts es) (connect getLocalAddr getPeerAddr a) (λ _, stage) (mkWorld b (Some (mkClient nm None)) [] [] [] [] 0).
Proof.
  intros Ha H0. unfold connect. wp_go. eapply client_this_spec; [done|].
  assert (Habort : survivable a = false → aborts es ProcessAborted) by (intros; split; [done|by exists a]).
  unfold createBlockingSocket. destruct (Z.ltb_spec (a_fd a) 0) as [Hneg|Hpos].
  { cbn. apply Habort. unfold survivable. by rewrite (proj2 (Z.leb_gt _ _)). }
  assert (Hfd : 0 < a_fd a) by lia. unfold open_fd. wp_go. destruct (usable (a_errno a)) eqn:Hu.
  - unfold runInLoop_newConnection. wp_go. destruct b; cbn [in_loop set_fds]; [by apply newConnection_stage|].
    wp_go. by apply handing_over.
  - destruct (retried (a_errno a)) eqn:Hr.
    + unfold retry, close_fd. wp_go. rewrite (proj2 (Z.ltb_lt 0 _)) by done. wp_go. cbn.
      rewrite decide_False by tauto. apply waiting_to_retry.
    + apply wp_raise, Habort. unfold survivable. rewrite Hu, Hr. by rewrite andb_false_r.
Qed.

(** What the program and the kernel do next. *)
Definition attempts (es : list event) : list attempt :=
  omap (λ e, match e with Connect a | Timer a => Some a | _ => None end) es.

Lemma attempts_cons e es : attempts (e :: es) = attempts [e] ++ attempts es.
Proof. by destruct e. Qed.

Definition admissible (e : event) : Prop :=
  match e with
  | Connect _ | Destroy => False
  | Timer a => a_fd a ≠ 0
  | _ => True
  end.

Lemma handle_stage e es w :
  stage w → admissible e → attempts [e] ⊆ es →
  wpf (aborts es) (handle getLocalAddr getPeerAddr e) (λ _, stage) w.
Proof.
  intros Hw He Hes. unfold handle. wp_go. destruct e as [a|a| |c| |c|c|]; try done.
  - destruct Hw as [b|b fd Hfd|b x h k Hfd Hp|b x h k Hfd Hp Hr|b]; cbn [timers]; wp_go; try (by constructor).
    apply connect_stage; [|done]. apply Hes. by left.
  - destruct Hw as [b|b fd Hfd|b x h k Hfd Hp|b x h k Hfd Hp Hr|b]; cbn [pendingFunctors]; wp_go; try (by constructor).
    + by apply newConnection_stage.
    + destruct k as [|k]; cbn [replicate]; wp_go; [by apply (connected b x h 0)|]. by apply forceCloseInLoop_stage.
    + destruct k as [|k]; cbn [replicate]; wp_go; [by apply (over b x h 0)|].
      unfold forceCloseInLoop. wp_go. apply client_thread_spec; [done|]. wp_go. eapply client_conn_spec; [done|].
      rewrite Hp. by apply release_ended.
  - destruct Hw as [b|b fd Hfd|b x h k Hfd Hp|b x h k Hfd Hp Hr|b]; cbn [heap]; wp_go; try (by constructor);
      destruct c as [|c]; cbn [lookup list_lookup]; wp_go; try (by constructor).
    + rewrite Hp. by apply handleClose_stage.
    + rewrite Hp. by constructor.
  - unfold connection. wp_go. destruct Hw as [b|b fd Hfd|b x h k Hfd Hp|b x h k Hfd Hp Hr|b]; (eapply client_this_spec; [done|]); cbn [connection_]; wp_go; try (by constructor).
    by apply (connected b x (S h) k).
  - destruct Hw as [b|b fd Hfd|b x h k Hfd Hp|b x h k Hfd Hp Hr|b]; cbn [held]; wp_go; case_bool_decide as Hc; try (by constructor); try (by inversion Hc).
    + apply elem_of_replicate in Hc as [-> Hh]. destruct h as [|h]; [lia|].
      change (set_held _ _) with (mkWorld b (Some (mkClient nm (Some 0%nat))) [Some x] (replicate h 0%nat) [conn_fd x]
                                    (replicate k (ForceCloseInLoop 0)) 0).
      unfold release. wp_go. rewrite referenced_replicate, bool_decide_true by (by left). by constructor.
    + apply elem_of_replicate in Hc as [-> Hh]. destruct h as [|h]; [lia|]. by apply (release_ended b x h k).
  - destruct Hw as [b|b fd Hfd|b x h k Hfd Hp|b x h k Hfd Hp Hr|b]; cbn [held]; wp_go; case_bool_decide as Hc; try (by constructor); try (by inversion Hc).
    + apply elem_of_replicate in Hc as [-> Hh]. unfold forceClose. wp_go. eapply client_conn_spec; [done|]. wp_go.
      rewrite Hp. unfold update_conn. wp_go. cbn. rewrite <- (replicate_S_end k).
      by apply (connected b (set_phase Disconnecting x) h (S k)).
    + apply elem_of_replicate in Hc as [-> Hh]. unfold forceClose. wp_go. eapply client_conn_spec; [done|]. wp_go.
      rewrite Hp. by constructor.
Qed.
End lifecycle.

(** ** Properties *)

(** C21: the life of a client that is told to connect once.  Whatever the attempts meet, whenever the
    connection ends and whatever the program does with it, no assertion fails and nothing is used after its
    end: the process is aborted only for an attempt that found no descriptor or an error that is not
    retried; otherwise the client is about to retry with no descriptor open, or its one descriptor is on
    its way to the loop, or it has its one established connection, or that connection has ended and lives
    only while it is referred to, or it is freed and its descriptor closed. *)
Theorem client_lifecycle getLocalAddr getPeerAddr nm a es :
  a_fd a ≠ 0 → Forall admissible es →
  wpf (aborts (a :: attempts es))
    (handle getLocalAddr getPeerAddr (Connect a) ;; handle_all getLocalAddr getPeerAddr es)
    (λ _, stage nm) (World_init nm).
Proof.
  intros Ha Hes. rewrite wp_bind. eapply wp_mono.
  { unfold handle. wp_go. apply (connect_stage getLocalAddr getPeerAddr nm a); [by left|done]. }
  cbv beta. intros _ w Hw. unfold handle_all. eapply wp_mono.
  { apply (wp_for_each _ (λ l w, stage nm w ∧ Forall admissible l ∧ attempts l ⊆ attempts es)); [done|].
    intros e l w' (Hw' & [He Hl]%list.Forall_cons & Hsub). rewrite attempts_cons in Hsub. eapply wp_mono.
    { apply (handle_stage getLocalAddr getPeerAddr nm e (a :: attempts es) w'); [done|done|].
      intros a' Hin. right. apply Hsub, elem_of_app. by left. }
    cbv beta. intros _ w'' Hw''. split_and!; [done|done|]. intros a' Hin. apply Hsub, elem_of_app. by right. }
  by cbv beta; intros _ w' (Hw' & _).
Qed.

Definition refused : attempt := mkAttempt 7 (-1) ECONNREFUSED ECONNREFUSED.
Definition accepted : attempt := mkAttempt 8 0 0 0.

Lemma client_lifecycle_witness :
  wpf (aborts [refused; accepted])
    (handle (λ _, InetAddress_any 1) (λ _, InetAddress_any 2) (Connect refused) ;;
     handle_all (λ _, InetAddress_any 1) (λ _, InetAddress_any 2) [Timer accepted; Connection; Close 0%nat; Drop 0%nat])
    (λ _, stage (txt "client")) (World_init (txt "client")).
Proof.
  apply (client_lifecycle (λ _, InetAddress_any 1) (λ _, InetAddress_any 2) (txt "client") refused
           [Timer accepted; Connection; Close 0%nat; Drop 0%nat]).
  - discriminate.
  - repeat constructor; discriminate.
Defined.

Section examples.
#[local] Abbreviation run es := (handle_all (λ _, InetAddress_any 1) (λ _, InetAddress_any 2) es (World_init (txt "client"))).
#[local] Abbreviation summary es := (match run es with Ok (_, w) => Some (fds w, heap w, timers w) | Fault _ => None end).

Example run_to_the_end : summary [Connect refused; Timer accepted; Connection; Close 0%nat; Drop 0%nat] = Some ([], [None], 0%nat).
Proof. vm_compute. reflexivity. Qed.

(** A second [connect] replaces an established connection: its destructor's assertion fails. *)
Example connect_twice : run [Connect accepted; Run; Connect (mkAttempt 9 0 0 0); Run] = Fault AssertFailed.
Proof. vm_compute. reflexivity. Qed.

(** The destructor of a connected client: the forced close calls [removeConnection] of the client that is gone. *)
Example destroyed_connected : run [Connect accepted; Run; Destroy; Run] = Fault UndefinedBehaviour.
Proof. vm_compute. reflexivity. Qed.
End examples.
