(* ===== verification/ClientRefinement.v ===== *)
(** * ClientRefinement: a connection in its loop is the one its client keeps

    TcpClient keeps of a connection its phase, whether [connection_] leads to it, who refers to it and whether its
    descriptor is open.  Every run of the connection of TcpConnection.v is matched step by step by events of that
    model. *)
From S2P Require Import Prelude Sockets TcpServer TcpClient Timestamp Buffer ByteQueue Channel EPollPoller EventLoop TcpConnection ConnInvariant ConnSafety ConnFrame ConnSimulation.

(** ** The client's side *)

Section client.
Context (getLocalAddr getPeerAddr : Z → InetAddress) (nm : list byte) (fd : Z).
Implicit Types (v : TcpClient.World) (k : nat).

#[local] Abbreviation handle := (TcpClient.handle getLocalAddr getPeerAddr).

(** The client has handed the descriptor of a successful attempt to its loop. *)
Definition handed_over v : Prop :=
  ∃ b, v = TcpClient.mkWorld b (Some (mkClient nm None)) [] [] [fd] [NewConnection fd] 0.

(** The stages of ConnSimulation that a client's connection has when it rests, and a last one: freed. *)
Definition client_phase k : TcpServer.phase := match k with 1 => Connected | 2 => Disconnecting | _ => Destroyed end%nat.
Definition client_record k (b : bool) : TcpClient.World :=
  let x := TcpServer.mkConn nm 0 fd (getLocalAddr fd) (getPeerAddr fd) (client_phase k) in
  TcpClient.mkWorld b (Some (mkClient nm (if decide (k ≤ 2)%nat then Some 0%nat else None)))
    [if decide (k = 6)%nat then None else Some x] (if decide (k = 6)%nat then [] else [0%nat])
    (if decide (k = 6)%nat then [] else [fd]) (if decide (k = 2)%nat then [ForceCloseInLoop 0%nat] else []) 0.
Definition recorded k v : Prop := ∃ b, v = client_record k b.

(** The events from one stage to a later one: a close of a connection that was told to close is the functor that
    was queued then. *)
Definition client_route (a b : nat) : list TcpClient.event :=
  (if decide (a = 1 ∧ b = 2)%nat then [TcpClient.ForceClose 0%nat] else []) ++
  (if decide (a = 1 ∧ 2 < b)%nat then [TcpClient.Close 0%nat] else []) ++
  (if decide (a = 2 ∧ 2 < b)%nat then [Run] else []) ++
  (if decide (a < 6 ∧ b = 6)%nat then [Drop 0%nat] else []).

Definition resting k : Prop := (k = 1 ∨ k = 2 ∨ k = 5 ∨ k = 6)%nat.

Hypothesis (Hfd : 0 < fd).

(** The loop makes the connection, and the program gets it. *)
Lemma client_starts v : handed_over v → wp (for_each handle [Run; Connection]) (λ _, recorded 1) v.
Proof. intros [b ->]. exists true. reflexivity. Qed.

(** One event after the other. *)
Lemma client_forceClose b : handle (TcpClient.ForceClose 0%nat) (client_record 1 b) = Ok (tt, client_record 2 b).
Proof. reflexivity. Qed.
Lemma client_close b : handle (TcpClient.Close 0%nat) (client_record 1 b) = Ok (tt, client_record 5 true).
Proof. reflexivity. Qed.
Lemma client_forced b : handle Run (client_record 2 b) = Ok (tt, client_record 5 true).
Proof. reflexivity. Qed.
Lemma client_drop b : handle (Drop 0%nat) (client_record 5 b) = Ok (tt, client_record 6 b).
Proof.
  assert (Hw : wp (handle (Drop 0%nat)) (λ _ v, v = client_record 6 b) (client_record 5 b)).
  { unfold TcpClient.handle. wp_go. rewrite bool_decide_true by (cbn; by left). wp_go. unfold TcpClient.release. wp_go.
    lazymatch goal with |- context [TcpClient.referenced ?c ?w] => change (TcpClient.referenced c w) with false end.
    cbn [negb]. unfold TcpClient.TcpConnection_dtor, close_fd, TcpClient.update_conn. wp_go. eapply client_conn_spec; [done|]. wp_go.
    apply wp_assert; [done|]. wp_go. cbn [conn_fd]. rewrite (proj2 (Z.ltb_lt 0 fd) Hfd). wp_go.
    assert (Hn : filter (λ x, x ≠ fd) [fd] = []) by (rewrite list.filter_cons_False, list.filter_nil; tauto).
    unfold client_record. cbn [TcpClient.set_heap TcpClient.set_fds TcpClient.set_held TcpClient.fds TcpClient.held].
    rewrite !(decide_False (P := 5 = 6)%nat) by done. by rewrite Hn. }
  by destruct (wp_inv Hw) as ([] & v & -> & ->).
Qed.

Lemma play_cons e es v v' (P : TcpClient.World → Prop) :
  handle e v = Ok (tt, v') → wp (for_each handle es) (λ _, P) v' → wp (for_each handle (e :: es)) (λ _, P) v.
Proof. intros He Hes. cbn [for_each]. rewrite wp_bind. unfold wpf at 1. by rewrite He. Qed.

Lemma client_route_ok a b v :
  (a ≤ b)%nat → resting a → resting b → recorded a v → wp (for_each handle (client_route a b)) (λ _, recorded b) v.
Proof.
  intros Hab Ha Hb [c ->]. destruct Ha as [->|[->|[->| ->]]], Hb as [->|[->|[->| ->]]]; try lia.
  all: match goal with |- context [client_route ?a ?b] => let r := eval vm_compute in (client_route a b) in change (client_route a b) with r end.
  all: repeat match goal with
    | |- wp (for_each _ (TcpClient.ForceClose _ :: _)) _ _ => eapply play_cons; [exact (client_forceClose c)|]
    | |- wp (for_each _ (TcpClient.Close _ :: _)) _ _ => eapply play_cons; [exact (client_close c)|]
    | |- wp (for_each _ (Run :: _)) _ _ => eapply play_cons; [exact (client_forced c)|]
    | |- wp (for_each _ (Drop _ :: _)) _ (client_record 5 ?d) => eapply play_cons; [exact (client_drop d)|]
    end.
  all: cbn [for_each]; rewrite wp_ret; by eexists.
Qed.

End client.

(** ** The connection's side *)

Definition matched (s : step) (es : list TcpClient.event) : Prop :=
  match s with
  | Poll _ _ => es `sublist_of` [TcpClient.ForceClose 0%nat; TcpClient.Close 0%nat; Run; Drop 0%nat]
  | OtherForceClose => es `sublist_of` [TcpClient.ForceClose 0%nat]
  | OtherDrop => es `sublist_of` [Drop 0%nat]
  | OtherSend _ | MainRemove => es = []
  end.

Section connection.
Context `{Epoll} {Q : Type} `{!ByteQueue Q}.
Implicit Types (w : World Q).

Definition client_stage w : nat := if freed_ (env_ w) then 6 else stage w.

(** A connection at rest. *)
Definition rests w : Prop :=
  (state_ (conn_ w) ≠ KDisconnected → in_map_ (env_ w) = true) ∧ (freed_ (env_ w) = true → stage w = 5%nat) ∧
  (stage w = 1 ∨ stage w = 2 ∨ stage w = 5)%nat.

Lemma rests_resting w : rests w → resting (client_stage w).
Proof. intros (_ & _ & Hs). unfold resting, client_stage. destruct (freed_ (env_ w)); tauto. Qed.

Lemma advances_client s w w' :
  rests w → rests w' → advances Client s w w' →
  (client_stage w ≤ client_stage w')%nat ∧ matched s (client_route (client_stage w) (client_stage w')).
Proof.
  unfold client_stage, advances. intros (_ & Hf & Hs) (_ & Hf' & Hs'). revert Hf Hs Hf' Hs'.
  generalize (stage w) (stage w') (freed_ (env_ w)) (freed_ (env_ w')). intros a b f f' Hf Hs Hf' Hs' Hadv.
  assert (Hff : f = true → f' = true) by (intros ->; destruct s, f'; tauto || by destruct Hadv as [_ ?]).
  destruct f; [rewrite Hff in * by done|destruct f'].
  all: try specialize (Hf eq_refl); try specialize (Hf' eq_refl); clear Hff.
  all: destruct Hs as [->|[->| ->]], Hs' as [->|[->| ->]]; try lia; destruct s; cbn [matched].
  all: try (exfalso; lia); try (by destruct Hadv as [_ ?]); (split; [lia|]).
  all: match goal with |- context [client_route ?a ?b] => let r := eval vm_compute in (client_route a b) in change (client_route a b) with r end.
  all: first [done | repeat first [apply sublist_nil_l | apply sublist_skip | apply sublist_cons]].
Qed.
Context (getLocalAddr getPeerAddr : Z → InetAddress) (nm : list byte) (fd : Z).
Implicit Types (v : TcpClient.World).

(** What the client's model says of a connection: it leads to it while the connection is in its map, knows its
    state, and has the descriptor open until the connection is freed. *)
Definition tells w v : Prop :=
  ∃ b, v = TcpClient.mkWorld b (Some (mkClient nm (if in_map_ (env_ w) then Some 0%nat else None)))
    [if freed_ (env_ w) then None
     else Some (TcpServer.mkConn nm 0 fd (getLocalAddr fd) (getPeerAddr fd)
       match state_ (conn_ w) with
       | KConnecting => Connecting | KConnected => Connected | KDisconnecting => Disconnecting | KDisconnected => Destroyed
       end)]
    (if freed_ (env_ w) then [] else [0%nat]) (if freed_ (env_ w) then [] else [fd])
    (if decide (state_ (conn_ w) = KDisconnecting) then [ForceCloseInLoop 0] else []) 0.

Lemma recorded_tells w v : rests w → recorded getLocalAddr getPeerAddr nm fd (client_stage w) v → tells w v.
Proof.
  intros (Hm & Hf & Hs) [b ->]. exists b. unfold client_stage, stage in *.
  destruct (freed_ (env_ w)); [specialize (Hf eq_refl)|clear Hf]; destruct (state_ (conn_ w)); try done.
  all: try by rewrite Hm by done.
  all: try (by destruct Hs as [?|[?|?]]).
  all: destruct (in_map_ (env_ w)); [lia|]; case_decide; [lia|done].
Qed.

End connection.

(** What the connection's invariant gives, once a client has established it. *)
Lemma settled_rests `{Epoll} {Q : Type} `{!ByteQueue Q} ch tid fd cbs sends mn it (w : World Q) :
  TcpConnection.closeCallback_ cbs = Some Client → settled ch tid fd cbs sends mn it w → kept tid Client w →
  stage w ≠ 0%nat → rests w.
Proof.
  intros Howner Hw Hk Hne. split_and!.
  - by eapply settled_in_map.
  - by eapply settled_freed.
  - destruct (settled_stage ch tid fd cbs sends mn Client Howner it w Hw Hk) as [H3 H4]. pose proof (stage_le w). lia.
Qed.

(** C20: a connection is what its client takes it for.  For every run in the [setting] of ConnSafety.v that returns, with
    a descriptor that is not 0: whatever the kernel answers, whatever the callbacks do and
    however the iterations of the loop and the calls of the program's thread interleave: from the moment the client has
    handed the descriptor to its loop, each step is matched by events of the client's model (an iteration by a forced
    close, the end of the connection and its release; a [forceClose] by itself; the program's letting go by its own),
    the client's model runs them without a failed assertion, and at the end it leads to the connection exactly while
    the connection is in its map, has its state, and has the descriptor open exactly until the connection is freed. *)
Theorem connection_refines_client `{Epoll} {Q : Type} `{!ByteQueue Q} ch tid other fd cbs holds ws rs steps (w : World Q)
    getLocalAddr getPeerAddr nm v :
  setting tid other fd cbs holds rs steps → TcpConnection.closeCallback_ cbs = Some Client → 0 < fd →
  handed_over nm fd v →
  run ch tid other fd cbs steps (world_init ch tid fd holds ws rs) = Ok (tt, w) →
  ∃ es ess, es `sublist_of` [TcpClient.ForceClose 0%nat] ∧ Forall2 matched steps ess ∧
    wp (TcpClient.handle_all getLocalAddr getPeerAddr (Run :: Connection :: es ++ concat ess))
      (λ _, tells getLocalAddr getPeerAddr nm fd w) v.
Proof.
  intros Hset Howner Hfd Hv Hrun. destruct (wp_inv (client_starts getLocalAddr getPeerAddr nm fd v Hv)) as ([] & v0 & Hstart & Hv0).
  destruct (simulation ch tid other fd cbs Client holds ws rs steps w (TcpClient.handle getLocalAddr getPeerAddr) matched
    (λ w v, rests w ∧ recorded getLocalAddr getPeerAddr nm fd (client_stage w) v)
    (λ es, es `sublist_of` [TcpClient.ForceClose 0%nat]) v0) as (es & ess & Hes & Hess & Hplay); try done.
  - intros mn s it it' w1 w2 v1 Hw1 Hk1 Hw2 Hk2 Hadv [Hr1 Hv1].
    assert (Hr2 : rests w2).
    { eapply settled_rests; [exact Howner|exact Hw2|exact Hk2|]. destruct Hr1 as (_ & _ & Hs1). unfold advances in Hadv. destruct s; lia. }
    destruct (advances_client s w1 w2) as [Hle Hm]; [done..|]. eexists. split; [exact Hm|].
    eapply wp_mono; [by eapply client_route_ok; [..|exact Hv1]; try done; apply rests_resting|]. cbv beta. intros _ v2 Hv2. by split.
  - intros mn w0 Hw0 Hk0 [Hf He]. rewrite decide_False in He by done.
    assert (Hr : rests w0) by (eapply settled_rests; [exact Howner|exact Hw0|exact Hk0|lia]).
    destruct He as [He|He]; [exists []|exists [TcpClient.ForceClose 0%nat]]; (split; [by repeat constructor|]).
    + cbn [for_each]. rewrite wp_ret. split; [done|]. unfold client_stage. by rewrite Hf, He.
    + destruct Hv0 as [b ->]. eapply play_cons; [apply client_forceClose|]. cbn [for_each]. rewrite wp_ret.
      split; [done|]. unfold client_stage. rewrite Hf, He. by exists b.
  - exists es, ess. split_and!; [done|done|].
    change (Run :: Connection :: es ++ concat ess) with ([Run; Connection] ++ (es ++ concat ess)). apply wp_for_each_app.
    unfold wpf at 1. rewrite Hstart. eapply wp_mono; [exact Hplay|]. cbv beta. intros _ v' [Hr Hv']. by apply recorded_tells.
Qed.

(** ** An example *)

#[local] Existing Instance map_epoll.

(** A client whose attempt succeeded. *)
Definition connected_client : TcpClient.World :=
  match TcpClient.handle (λ _, InetAddress_any 1) (λ _, InetAddress_any 2) (Connect (mkAttempt 7 0 0 0)) (TcpClient.World_init (txt "client")) with
  | Ok (_, v) => v
  | Fault _ => TcpClient.World_init []
  end.

(** The program forces the end and lets go. *)
Definition client_steps : list step := [Poll 0 1; Poll 4 2; OtherForceClose; Poll 1 3; OtherDrop].
Definition client_world : World Buffer :=
  match run 100 10 1 7 (owned_callbacks Client) client_steps (world_init 100 10 7 true example_writes example_reads) with
  | Ok (_, w) => w
  | Fault _ => world_init 100 10 7 true [] []
  end.

Lemma connection_refines_client_witness :
  ∃ es ess, es `sublist_of` [TcpClient.ForceClose 0%nat] ∧ Forall2 matched client_steps ess ∧
    wp (TcpClient.handle_all (λ _, InetAddress_any 1) (λ _, InetAddress_any 2) (Run :: Connection :: es ++ concat ess))
      (λ _, tells (λ _, InetAddress_any 1) (λ _, InetAddress_any 2) (txt "client") 7 client_world) connected_client.
Proof.
  apply (connection_refines_client 100 10 1 7 (owned_callbacks Client) true example_writes example_reads client_steps).
  - split; [done|exact (example_callbacks_ok _ _ _)|exact I|exact example_kernel| |reflexivity].
    repeat constructor; done.
  - reflexivity.
  - reflexivity.
  - exists false. reflexivity.
  - vm_compute. reflexivity.
Defined.

Example client_freed : (freed_ (env_ client_world), stage client_world) = (true, 5%nat).
Proof. vm_compute. reflexivity. Qed.
