(* ===== verification/Examples.v ===== *)
(** * Examples: the programs of examples/ser.cc and examples/cli.cc

    The echo server answers each connection's first message and closes it; the client sends ten
    lines and ends.  Their callbacks and main functions, run on the models of the classes they use. *)
From S2P Require Import Prelude Printf Sockets EventLoopThread TcpServer TcpClient Timestamp Buffer ByteQueue Channel EPollPoller EventLoop TcpConnection ConnInvariant ConnSafety ConnFrame.

(** ** examples/ser.cc *)

Module Ser.

(** Both branches only log. *)
Definition onConnection : Callback := λ _ _, [].

Definition onMessage : Callback := λ _ input, [Retrieve (zlen input); Send input; ForceClose].

(** What [TcpServer::newConnection] gives each connection; the high-water mark stays 1. *)
Definition callbacks (o : owner) : Callbacks :=
  mkCallbacks (Some onConnection) (Some onMessage) None None (Some o) 1.

(** [main] up to [baseloop.loop()]: the base loop is 0. *)
Definition listenAddr : InetAddress := InetAddress_any 8888.
Definition server : TcpServer := TcpServer_init listenAddr (txt "test") false false.
Definition main (startLoop : nat → Z) : prog TcpServer.World () :=
  setThreadNum 3 ;; start 0 startLoop.

(** *** The callbacks echo *)

Section echo.
Context `{Epoll} {Q : Type} `{!ByteQueue Q}.
Context (ch tid other fd : Z) (o : owner).
Implicit Types (w : World Q).

#[local] Abbreviation cbs := (callbacks o).

(** Everything taken from the input buffer was sent back, or the connection is down. *)
Record echoing (w : World Q) : Prop := {
  echo_input : q_ok (inputBuffer_ (conn_ w));
  echo_reads : Forall readv_law (reads_ (env_ w));
  echo_volume : ∃ n, volume (reads_ (env_ w)) n ∧ zlen (received_ (log_ w)) + n < 2 ^ 31;
  echo_received : received_ (log_ w) = consumed_ (log_ w) ++ q_bytes (inputBuffer_ (conn_ w));
  echo_sent : sent_ (log_ w) `prefix_of` consumed_ (log_ w);
  echo_all : state_ (conn_ w) ≠ KDisconnected → sent_ (log_ w) = consumed_ (log_ w)
}.

(** No other thread sends. *)
Definition quiet_queue (f : functor) : Prop := match f with FSendInLoop _ => False | _ => True end.

#[local] Abbreviation framed := (framed tid echoing quiet_queue).

Lemma echo_read w readv r q :
  echoing w → readv = match reads_ (env_ w) with r :: _ => r | [] => λ _, RvError EWOULDBLOCK end →
  q_readFd readv (inputBuffer_ (conn_ w)) = Ok (r, q) →
  echoing (set_log (log_received (zdrop (zlen (q_bytes (inputBuffer_ (conn_ w)))) (q_bytes q)) (log_ w))
    (set_conn (set_input q (conn_ w)) (set_env (set_reads (tail (reads_ (env_ w))) (env_ w)) w))).
Proof.
  intros [Hin Hlaw (n & (ns & Hns & Hpos & Hsum) & Hvol) Hrec Hsent Hall] -> Hr.
  set (readv := match reads_ (env_ w) with r :: _ => r | [] => _ end) in *.
  assert (Hm : readv_law readv ∧ Forall readv_law (tail (reads_ (env_ w))) ∧
    ∃ m, 0 ≤ m ∧ delivers readv m ∧ volume (tail (reads_ (env_ w))) (n - m)).
  { unfold readv. destruct Hns as [|r0 m rs ns Hm Hns]; cbn [tail].
    - split_and!; [by intros ???|done|]. exists 0. split_and!; [done|by intros ??|]. exists []. split_and!; [done..|cbn in *; lia].
    - apply list.Forall_cons in Hlaw as [??], Hpos as [??]. split_and!; [done|done|]. exists m. split_and!; [done|done|].
      exists ns. split_and!; [done|done|]. cbn in Hsum. lia. }
  destruct Hm as (Hl1 & Hl2 & m & Hm0 & Hdel & Hvol2).
  pose proof (q_readFd_spec (λ f, True) _ _ Hin Hl1 Logic.I) as Hspec. unfold wpf in Hspec. rewrite Hr in Hspec.
  destruct Hspec as [Hok Hcase].
  assert (Hd : ∃ d, zlen d ≤ m ∧ q_bytes q = q_bytes (inputBuffer_ (conn_ w)) ++ d).
  { destruct Hcase as [(d & lens & Hrd & _ & Hb)|(e & _ & ->)]; [exists d; split; [by eapply Hdel|done]|].
    exists []. rewrite app_nil_r. split; [by rewrite zlen_nil|done]. }
  destruct Hd as (d & Hd & Hb). pose proof (zlen_nonneg (q_bytes (inputBuffer_ (conn_ w)))).
  rewrite Hb, zdrop_app, zdrop_ge, Z.sub_diag by lia. cbn [app]. change (zdrop 0 d) with d.
  constructor; cbn; try done.
  - exists (n - m). split; [done|]. rewrite zlen_app. lia.
  - by rewrite Hrec, Hb, <- app_assoc.
Qed.

Lemma echo_frame : frame echoing quiet_queue.
Proof.
  split; try (intros; match goal with He : echoing _ |- _ => destruct He end; by constructor).
  - intros w [] Hst. constructor; try done. intros _. apply echo_all0. by rewrite Hst.
  - intros w [] Hst. constructor; try done. intros _. apply echo_all0. by destruct Hst as [->| ->].
  - intros d w Hw. unfold sockets_write, log. wp_go.
    destruct (match writes_ _ with [] => _ | a :: _ => a end); wp_go; destruct Hw; by constructor.
  - intros w readv r q. apply echo_read.
  - by intros [].
Qed.

Lemma echo_input_small w : echoing w → zlen (q_bytes (inputBuffer_ (conn_ w))) < 2 ^ 31.
Proof.
  intros []. destruct echo_volume0 as (n & Hn%volume_nonneg & Hlt). rewrite echo_received0, zlen_app in Hlt.
  pose proof (zlen_nonneg (consumed_ (log_ w))). lia.
Qed.

(** One message: everything is taken, sent back and the connection is told to close. *)
Lemma keeps_onMessage : keeps framed (call_user ch tid cbs onMessage).
Proof.
  intros w (Ht & Hk & Hq & He). pose proof (echo_input_small w He) as Hsmall. pose proof He as [].
  set (input := q_bytes (inputBuffer_ (conn_ w))) in *. pose proof (zlen_nonneg input).
  unfold call_user. rewrite wp_bind, wp_get. cbv beta. fold input. unfold onMessage. cbn [for_each].
  rewrite wp_bind. cbn [run_call]. rewrite wp_bind, wp_get. cbv beta. rewrite wp_bind. unfold log. rewrite wp_modify.
  rewrite q_readable_spec by done. fold input. rewrite (Z.max_l (zlen input) 0), Z.min_id, ztake_ge by lia.
  pose proof (q_retrieve_spec (λ _, True) _ (zlen input) echo_input0 (ltac:(split; [done|reflexivity]))) as Hr.
  unfold wpf at 1, on_conn, on_input. cbn [conn_ set_log]. unfold wpf in Hr.
  destruct (q_retrieve (zlen input) (inputBuffer_ (conn_ w))) as [[[] q]|]; [|done]. destruct Hr as [Hok Hb].
  fold input in Hb. rewrite zdrop_ge in Hb by lia. set (w1 := set_conn _ _). rewrite wp_bind.
  eapply (wp_mono _ (λ _, framed)).
  2:{ intros [] w2 Hw2. rewrite wp_bind. eapply wp_mono; [by apply (keeps_forceClose tid _ _ echo_frame)|]. done. }
  cbn [run_call]. unfold send. rewrite wp_bind, wp_get. cbv beta. unfold isInLoopThread.
  change (threadId_ (loop_ w1)) with (threadId_ (loop_ w)). rewrite Ht, Z.eqb_refl.
  rewrite to_signed_id, u64_small; [|unfold is_u64, u64_modulus; lia|done|].
  2:{ unfold in_signed. rewrite andb_true_iff, Z.leb_le, Z.ltb_lt. change (2 ^ (32 - 1)) with (2 ^ 31). lia. }
  apply (frame_sendInLoop ch tid cbs _ _ echo_frame). rewrite ztake_ge by lia.
  case_bool_decide as Hst; (split_and!; [done..|]); constructor; cbn; try done; rewrite ?Hb, ?app_nil_r; try done.
  - by apply prefix_app_r.
  - by rewrite (echo_all0 Hst).
  - intros _. by rewrite (echo_all0 Hst).
Qed.

Lemma echo_owner : owner_frame echoing quiet_queue.
Proof. by split; try (intros; match goal with He : echoing _ |- _ => destruct He end; by constructor). Qed.

Lemma keeps_callbacks cb : Some cb ∈ user_callbacks cbs → keeps framed (call_user ch tid cbs cb).
Proof.
  unfold user_callbacks. rewrite !elem_of_cons, elem_of_nil. intros [[= ->]|[[= ->]|[?|[?|[]]]]]; try done.
  - intros w Hw. unfold call_user. by wp_go.
  - apply keeps_onMessage.
Qed.

Lemma run_echoes holds ws rs steps w n :
  Forall readv_law rs → volume rs n → n < 2 ^ 31 → Forall sends_nothing steps →
  run ch tid other fd cbs steps (world_init ch tid fd holds ws rs) = Ok (tt, w) → echoing w.
Proof.
  intros Hlaw Hvol Hn Hs Hrun. assert (Hf : framed w); [|by apply Hf].
  eapply (run_owned ch tid other fd cbs _ _ echo_frame echo_owner); [apply keeps_callbacks|done| |exact Hs|exact Hrun].
  constructor; cbn; try done; [apply q_init_ok|by exists n|by rewrite q_init_bytes].
Qed.

Lemma callbacks_polite : well_behaved cbs (mkManners true false).
Proof.
  split; try done.
  - intros cb [= <-] tr input _. constructor.
  - exists onMessage. split; [done|]. intros tr input Hsmall. repeat constructor. cbn. by apply Hsmall.
Qed.
End echo.

(** C25: the echo server echoes.  Whatever the kernel answers (less than 2 GiB altogether) and however polls, the
    removal by the server and a [forceClose] interleave: what went to the kernel and what waits to go there is, as
    long as no message was dropped after a write error, the beginning of what the client sent, byte for byte; and
    it is all of what was taken from the client as long as the connection is not closed. *)
Theorem echo_echoes `{Epoll} {Q : Type} `{!ByteQueue Q} ch tid other fd o holds ws rs n steps (w : World Q) :
  other ≠ tid → can_watch fd → Forall readv_law rs → volume rs n → n < 2 ^ 31 →
  Forall (λ s, match s with OtherSend _ => False | Poll r _ => hup_ok r | _ => True end) steps → zlen steps < 2 ^ 32 →
  run ch tid other fd (callbacks o) steps (world_init ch tid fd holds ws rs) = Ok (tt, w) →
  broken_ (log_ w) = false →
  (wire_ (log_ w) ++ q_bytes (outputBuffer_ (conn_ w))) `prefix_of` received_ (log_ w) ∧
  (state_ (conn_ w) ≠ KDisconnected →
   received_ (log_ w) = wire_ (log_ w) ++ q_bytes (outputBuffer_ (conn_ w)) ++ q_bytes (inputBuffer_ (conn_ w))).
Proof.
  intros Hother Hfd Hlaw Hvol Hn Hsteps Hlen Hrun Hb.
  assert (Hset : setting tid other fd (callbacks o) holds rs steps).
  { split; try done; [exists (mkManners true false); split_and!; [apply callbacks_polite|by exists n|done]|]. eapply list.Forall_impl; [exact Hsteps|]. by intros []. }
  destruct (run_settled _ _ _ _ _ _ _ _ _ _ Hset Hrun) as [(mn & it & _ & _ & Hw) _].
  pose proof (settled_stream _ _ _ _ _ _ _ _ Hw Hb) as Hs.
  destruct (run_echoes ch tid other fd o holds ws rs steps w n) as []; try done.
  { eapply list.Forall_impl; [exact Hsteps|]. by intros []. }
  change (q_bytes (outputBuffer_ (conn_ w))) with (out_bytes w). rewrite app_assoc, <- Hs, echo_received0. split.
  - by apply prefix_app_r.
  - intros Hst. by rewrite (echo_all0 Hst).
Qed.
End Ser.

(** ** Runs *)

#[local] Existing Instance map_epoll.

Module SerRuns.
Import Ser.

(** The server's loops: the base loop and three threads. *)
Example server_starts :
  match main (λ i, 10 + Z.of_nat i) (TcpServer.World_init 0 server) with
  | Ok (_, w) => (started_ <$> TcpServer.server w, listening_ <$> TcpServer.server w)
  | Fault _ => (None, None)
  end = (Some true, Some true).
Proof. vm_compute. reflexivity. Qed.

(** A client sends five bytes; the kernel takes [k] of the answer at once. *)
Definition echo_reads : list (list Z → readv_answer) := [sample_kernel 5].
Definition echo_steps : list step := [Poll 0 1; Poll 1 2; MainRemove; Poll 0 3].
Definition echo_init (k : Z) : World Buffer := world_init 100 1 7 false [WRoom k] echo_reads.
Definition echoed (k : Z) : World Buffer :=
  match run 100 1 0 7 (callbacks ServerOtherLoop) echo_steps (echo_init k) with
  | Ok (_, w) => w
  | Fault _ => echo_init k
  end.

(** The message is echoed, the connection closed and destroyed. *)
Example echo_answers :
  (trace_ (log_ (echoed 100)), wire_ (log_ (echoed 100)), freed_ (env_ (echoed 100))) =
  ([EvUp; EvMessage (txt "AAAAA") 2; EvDown], txt "AAAAA", true).
Proof. vm_compute. reflexivity. Qed.

(** [forceClose] does not wait for the output buffer: what the kernel did not take at once is lost. *)
Example echo_cut :
  (wire_ (log_ (echoed 3)), q_bytes (outputBuffer_ (conn_ (echoed 3))), freed_ (env_ (echoed 3))) =
  (txt "AAA", txt "AA", true).
Proof. vm_compute. reflexivity. Qed.

Lemma sample_delivers n : delivers (sample_kernel n) (Z.of_nat n).
Proof. intros lens d [= <-]. unfold zlen. rewrite length_replicate. lia. Qed.
Lemma echo_volume : volume echo_reads 5.
Proof. exists [5]. split_and!; [constructor; [apply (sample_delivers 5)|by constructor]|by repeat constructor|done]. Qed.

Lemma echo_echoes_witness :
  (wire_ (log_ (echoed 3)) ++ q_bytes (outputBuffer_ (conn_ (echoed 3)))) `prefix_of` received_ (log_ (echoed 3)) ∧
  (state_ (conn_ (echoed 3)) ≠ KDisconnected →
   received_ (log_ (echoed 3)) = wire_ (log_ (echoed 3)) ++ q_bytes (outputBuffer_ (conn_ (echoed 3))) ++
     q_bytes (inputBuffer_ (conn_ (echoed 3)))).
Proof.
  apply (echo_echoes 100 1 0 7 ServerOtherLoop false [WRoom 3] echo_reads 5 echo_steps).
  - discriminate.
  - exact I.
  - repeat constructor. apply sample_kernel_law.
  - exact echo_volume.
  - reflexivity.
  - repeat constructor; intros; try discriminate; done.
  - reflexivity.
  - vm_compute. reflexivity.
  - vm_compute. reflexivity.
Defined.
End SerRuns.

(** ** examples/cli.cc *)

Module Cli.

Definition onConnection : Callback := λ _ _, [].
Definition onMessage : Callback := λ _ input, [Retrieve (zlen input)].
Definition callbacks : Callbacks :=
  mkCallbacks (Some onConnection) (Some onMessage) None None (Some TcpConnection.Client) 1.

(** [main] sends these from its own thread. *)
Definition messages : list (list byte) := (λ i, txt "hello world " ++ print_int (Z.of_nat i)) <$> seq 0 10.
Definition serverAddr : InetAddress := InetAddress_of (127, 0, 0, 1) 8888.

(** Its connection: established, [main] sends and lets go, the loop takes the messages and the kernel
    takes everything. *)
Definition client_steps : list step := [Poll 0 1] ++ (OtherSend <$> messages) ++ [Poll 0 2].
Definition client_init : World Buffer := world_init 100 1 7 true (replicate 10 (WRoom 100)) [].

Example client_sends :
  match run 100 1 2 7 callbacks client_steps client_init with
  | Ok (_, w) => Some (wire_ (log_ w))
  | Fault _ => None
  end = Some (concat messages).
Proof. vm_compute. reflexivity. Qed.

(** The end of [main]: the pointer goes, then the client, whose destructor forces the connection to close;
    the loop's thread still runs and calls the client's [removeConnection]. *)
Definition client : TcpClient.World := TcpClient.World_init (txt "client").
Definition client_main (fd : Z) : list TcpClient.event :=
  [TcpClient.Connect (TcpClient.mkAttempt fd 0 0 0); TcpClient.Run; TcpClient.Connection; TcpClient.Drop 0%nat; TcpClient.Destroy].

Example client_destroyed_first :
  for_each (TcpClient.handle (λ _, serverAddr) (λ _, serverAddr)) (client_main 5 ++ [TcpClient.Run]) client =
  Fault UndefinedBehaviour.
Proof. vm_compute. reflexivity. Qed.
End Cli.
